(* ===== verification/_CoqProject ===== *)
-Q . S2P
Prelude.v
Executor.v
Sha256.v
Utils.v
BrbInstance.v
BrbSpec.v
BrbNetwork.v
BrbMiddleware.v
BrbChannel.v
ByzChannel.v
Bca.v
BcaNet.v
Ivbca.v
IvbcaCorrect.v
IvbcaLive.v
Evbca.v
EvbcaCorrect.v
EvbcaLive.v
EvbcaGate.v
Round.v
Termination.v
Mmr.v
AbaNetwork.v
AbaAgreement.v
AbaLive.v
AbaWire.v
AbaChannel.v
AbaProject.v
Acs.v
AcsNetwork.v
AcsCorrect.v
AcsLive.v
BkrChannel.v
CoinGroup.v
CoinShamir.v
CoinWire.v
CoinToss.v
CoinAgree.v
Overlay.v
BebNetwork.v
BrbStack.v
AbaStack.v
System.v
SystemCorrect.v
OverlayMesh.v
Startup.v
OverlayListen.v
Executors.v
CoinChannel.v
Shuffle.v
BrbSchedulers.v
RoundSchedulers.v
MmrSchedulers.v
