(* ===== verification/Prelude.v ===== *)
(** * bkr-acs: agreement on a common subset, verified

    The program (Go, under [src/]) lets [n] nodes, of which [f < n/3] may be
    faulty, agree on a set of at least [n - f] proposals.  Its layers, from the
    wire up, and the files that model them:

    - [overlayNetwork]: nodes connected pairwise, frames on a connection,
      best-effort broadcast, distribution of secret shares.
      [Overlay] has [msg.go], [bebChannel.go], [ssChannel.go] and the message
      loop of [node.go]; [OverlayMesh] the membership of [node.go] and [peer.go],
      the join protocol, and [getParticipantIds] of [main.go]; [OverlayListen]
      the creation of a node, its accept loop and its [Close]; [BebNetwork] the
      broadcast channels of all nodes, over byte streams.
    - [utils]: identifiers.  [Sha256], [Utils].
    - [byzantineReliableBroadcast]: reliable broadcast.  [BrbInstance]
      ([instance.go], [phase1.go] to [phase3.go]), [BrbMiddleware]
      (the formats of [middleware.go]), [BrbChannel] ([channel.go]), [BrbStack]
      (the loops and goroutines of [middleware.go], over [BebNetwork]).
    - [coinTosser]: a common coin from a dealt secret.  [CoinGroup]
      ([arithmetic.go], interpolation of [ss.go]), [CoinWire] (the formats of
      [ss.go], [pointShare.go], [ctShare.go], [dealer.go], [middleware.go]),
      [CoinToss] ([instance.go], [channel.go]).
    - [asynchronousBinaryAgreement]: binary agreement by rounds of binding
      crusader agreement and a coin.  [Bca] (the interface [bca] as a type
      class), [Ivbca] ([internalValidityBCA.go]), [Evbca] and [EvbcaGate]
      ([externalValidityBCA.go]), [Round] ([round.go]), [Termination]
      ([mmrTermination.go]), [Mmr] ([mmr.go], [concurrentMMR.go]), [AbaWire]
      (the formats of [abaMiddleware.go] and [terminationMiddleware.go]),
      [AbaChannel] ([abaChannel.go], [abaNetworkedInstance.go]), [AbaStack] (the
      loops of the two middlewares and of the channel, over [BebNetwork]).
    - [agreementCommonSubset]: the common subset.  [Acs] ([bkr.go],
      [proposalAcceptor.go]), [BkrChannel] ([bkrChannel.go]).
    - [main.go]: [Startup] (joining, waiting for the peers, the deal), [System]
      (the channels of a process over one node, the loop of the user).
    - What the tests connect instances with: [BrbSchedulers] ([schedulers.go]),
      [MmrSchedulers] ([mmrScheduller.go]), [RoundSchedulers]
      ([roundSchedullers.go]), their random order in [Shuffle], and [ByzChannel]
      ([byzChannel.go]).

    ** How code becomes definitions

    A struct is a record, a method a function from the record to an [outcome]:
    [Done] with the new record and the returned error, [Panic], or [Block] when a
    channel operation waits for ever.  An unsigned integer is a [Z] with the
    wrap-around of its width ([uint_add], [uint_sub], [uint16_add]); a [map] a
    [gmap], a set of peers a [gset], bytes a list of [Byte.byte].  A buffered
    channel is a queue with its capacity ([chan_send], [chan_recv]); a channel
    fed by a goroutine per value is a bag.  A goroutine with several channel
    operations is a program counter and one transition for each of them.

    Most components own an executor, the [invoker] goroutine that runs the
    closures of the calls one at a time, until it is told to close.  [Executor]
    models one with its callers, [Executors] gives it the closures of each
    component, and their theorems justify what every other file does: a call is
    one transition, and the models interleave calls, goroutines and deliveries in
    every order.

    ** The networks

    [BrbNetwork], [BcaNet], [AbaNetwork] and [AcsNetwork] put one instance at
    every correct process.  A configuration is what the correct processes have
    executed; a message of a correct process is one its state has sent, and can
    be delivered any number of times, to anyone, in any order; a faulty process
    sends anything to anyone.  The class [Resilient] gives the number of
    processes and of faulty ones.  [BrbChannel] and [BkrChannel] do the same with
    whole channels, and project them, identifier by identifier, on the networks
    of instances ([AbaProject] does so for the instances of [AbaChannel]).  Each
    layer is proved on top of what the one below promises: the agreement of
    [AbaNetwork] uses the interface [BCALaws], which [IvbcaCorrect] and
    [EvbcaCorrect] discharge, and a coin that is the same at all processes;
    [AcsNetwork] uses agreement and validity of the binary agreements and the
    agreement of the broadcasts.

    [BebNetwork] has bytes instead of messages: a broadcast is a frame written to
    each connection, and a faulty process writes what it likes; what is delivered
    is compared with the calls of [BEBroadcast].  [BrbStack] and
    [AbaStack] put the channels on top of it and refine the networks above;
    [System] puts both on the same connections, feeds the common subset channel
    with the one and decides with the other, and refines all three.

    ** What the theorems show

    - The program: the processes that finish an instance print the same list of
      at least [n - f] proposals, and those of correct processes are what their
      users typed ([SystemCorrect]); when the contact deals, every other process
      is connected to it and gets a share of its own ([Startup]).
    - Reliable broadcast: agreement, integrity, totality, delivery of correct
      broadcasts ([BrbNetwork]); the handlers, which test counters for equality,
      meet their specification by thresholds ([BrbSpec]); the same of channels
      ([BrbChannel]) and of the stack down to bytes ([BrbStack]); exact parsing
      ([BrbMiddleware]).
    - Crusader agreement: agreement, binding, validity, that calls return, and
      the runs in which [evbca] stalls or blocks ([IvbcaCorrect],
      [EvbcaCorrect]); what a network at rest has reached in round 0, and a run
      in which [ivbca] stalls ([IvbcaLive]); that unanimous proposals are decided
      in later rounds ([EvbcaLive]); what the goroutine that [newEVBCA] leaves out
      would do ([EvbcaGate]).
    - Binary agreement: agreement and validity over any number of rounds
      ([AbaAgreement]); termination from unanimous proposals ([AbaLive]); the
      termination gadget ([Termination]); routing, one decision per instance
      ([AbaChannel]); agreement, validity and types of the stack down to bytes
      ([AbaStack]).
    - Common subset: agreement, size, integrity, progress ([AcsCorrect],
      [AcsLive]), agreement of channels ([BkrChannel]), and the disagreement that
      a proposer with two broadcasts causes.
    - Coin: interpolation recovers the secret point from any [t + 1] shares
      ([CoinShamir]); one coin per toss, early shares kept, and what repeated
      shares do ([CoinToss]); the same coin in two tosses of a seed ([CoinAgree])
      and at all channels, whatever the order of tosses and shares
      ([CoinChannel]); round trips ([CoinWire]).
    - Overlay: frames, broadcast and deal arrive as sent ([Overlay]), also among
      faulty nodes ([BebNetwork]); the mesh is complete whatever the order of
      joins, and the participants the nodes compute are the same unless joins
      overlap ([OverlayMesh]); who is served by the accept loop, and how one peer
      stops it ([OverlayListen]).
    - Executors: their calls take effect one after the other, each at one point
      between its start and its return, and they return unless the executor is
      closed; what [Close] and [close] signal, and what they forget
      ([Executors]).
    - Tests: the runs of the schedulers are runs of the networks, so what the
      tests assert follows from the theorems on the networks ([BrbSchedulers],
      [MmrSchedulers], [RoundSchedulers]).

    ** Assumptions, bounds and fuel

    CIRCL (the group, the proofs of discrete-logarithm equality, secret sharing),
    the encoding of keys ([x509]), [uuid.UUID.String] and the sockets are
    parameters; what is relied on is named where it is used ([GroupEncoding],
    [ProofEncoding], [DleqSound], [DleqComplete], the field of [CoinShamir]).  A
    process has the name that [PkToUUID] makes of its key, and the messages of a
    run (a list [msgs]) do not collide under SHA-256, which is spelled out in
    [Sha256].  The codes of the
    broadcast channels of a process differ, and so do the identifiers the
    processes compute for different proposers and instances.  The number of
    processes is below 2^63, so that the counters do not overflow; messages are
    shorter than 2^32 bytes, the width of their length.  [readFromConnection]
    needs two more steps of fuel than there are bytes
    ([readFromConnection_returns]).

    In [AbaStack] and [System] each process gets its own coins, a function of the
    process, the instance and the round, in place of the coin channel; the
    theorems have the hypothesis [common_coin], that the correct processes get the
    same.  The coin channels of [CoinChannel] do so, provided no identifier of a
    share is counted twice; [CoinToss.coin_share_replayed] shows that the code does
    not enforce this against faulty peers.  The networks of [AbaNetwork] have one
    coin.  The agreement of [SystemCorrect] assumes that no faulty process has two
    different proposals delivered at correct processes for one instance (two
    contents sent in one broadcast are harmless, as in the run there);
    [AcsCorrect.acs_equivocation] shows what happens otherwise.

    A call is one transition, so a call that would wait in the middle is not made
    until it can finish.  The one place where the code could be seen half-way is
    [fastForward] of [Evbca], whose second send can wait for [waitToBind]; the runs
    in which [waitToVote] takes the first value before that are left out.

    ** Not modelled

    Logging ([GetLogger], [prefixedHandler.go]), the console and the properties
    file of [main.go]; sockets, TLS and certificates ([networkUtils.go],
    [computeConfig]), and writes that fail; the ten-second delays before an
    instance is closed; [shareSecret] and [RandomScalar] of the coin tosser, single
    calls into CIRCL; the closing of a share processor and of the middlewares,
    which nothing asks for. *)

From stdpp Require Import base tactics numbers list fin_sets gmap functions.
From Stdlib Require Import Init.Byte Strings.Byte.

(** [set_solver] clears hypotheses twice. *)
#[export] Set Warnings "-clear-no-such-hyp".

Declare Scope go_scope.
Delimit Scope go_scope with go.
Local Open Scope Z_scope.

(** ** Outcomes of a Go call

    A call either runs to its end, panics, or blocks for ever on a channel
    operation.  Go errors are ordinary return values and live inside [Done]. *)

Inductive outcome (A : Type) : Type :=
| Done (a : A)
| Panic
| Block.
Arguments Done {A} a.
Arguments Panic {A}.
Arguments Block {A}.

#[export] Instance outcome_ret : MRet outcome := λ A a, Done a.
#[export] Instance outcome_bind : MBind outcome := λ A B k m,
  match m with Done a => k a | Panic => Panic | Block => Block end.

Definition returns {A} (o : outcome A) : Prop := ∃ a, o = Done a.

(** The result of a call known to return (used by the concrete examples). *)
Definition is_Done {A} (o : outcome A) : bool :=
  match o with Done _ => true | _ => false end.
Definition done_or {A} (d : A) (o : outcome A) : A :=
  match o with Done a => a | _ => d end.

Lemma done_or_eq {A} (d : A) (o : outcome A) : is_Done o = true → o = Done (done_or d o).
Proof. by destruct o. Qed.

(** A call that never panics, ends in [Q] when it returns, and blocks only
    when [B] holds. *)
Definition post {A} (o : outcome A) (Q : A → Prop) (B : Prop) : Prop :=
  match o with Done a => Q a | Panic => False | Block => B end.

Lemma post_bind {A C} (o : outcome A) (k : A → outcome C) Q B :
  post o (λ a, post (k a) Q B) B → post (o ≫= k) Q B.
Proof. by destruct o. Qed.

Lemma post_mono {A} (o : outcome A) (Q Q' : A → Prop) (B B' : Prop) :
  post o Q B → (∀ a, Q a → Q' a) → (B → B') → post o Q' B'.
Proof. destruct o; simpl; auto. Qed.

Lemma post_Done {A} (o : outcome A) Q B a : post o Q B → o = Done a → Q a.
Proof. by intros Hp ->. Qed.

Lemma post_returns {A} (o : outcome A) Q B : post o Q B → ¬ B → ∃ a, o = Done a ∧ Q a.
Proof. destruct o as [a| |]; simpl; [by exists a|done|done]. Qed.

(** A Go function with results [(T, error)]. *)
Inductive result (E A : Type) : Type :=
| Ok (a : A)
| Err (e : E).
Arguments Ok {E A} a.
Arguments Err {E A} e.

#[export] Instance result_ret E : MRet (result E) := λ A a, Ok a.
#[export] Instance result_bind E : MBind (result E) := λ A B k m,
  match m with Ok a => k a | Err e => Err e end.

(** ** Machine integers *)

Definition uint_max : Z := 2 ^ 64.
Definition uint_add (a b : Z) : Z := (a + b) mod 2 ^ 64.
Definition uint_sub (a b : Z) : Z := (a - b) mod 2 ^ 64.
(** [int(x)] for a [uint] [x]: two's complement reinterpretation. *)
Definition int_of_uint (a : Z) : Z := if a <? 2 ^ 63 then a else a - 2 ^ 64.
Definition uint16_add (a b : Z) : Z := (a + b) mod 2 ^ 16.

Lemma uint_sub_small a b : 0 ≤ b ≤ a → a < 2 ^ 64 → uint_sub a b = a - b.
Proof. intros. unfold uint_sub. apply Z.mod_small. lia. Qed.
Lemma uint_add_small a b : 0 ≤ a → 0 ≤ b → a + b < 2 ^ 64 → uint_add a b = a + b.
Proof. intros. unfold uint_add. apply Z.mod_small. lia. Qed.
Lemma int_of_uint_small a : a < 2 ^ 63 → int_of_uint a = a.
Proof. intros. unfold int_of_uint. destruct (Z.ltb_spec a (2 ^ 63)); lia. Qed.
Lemma uint16_add_range a b : 0 ≤ uint16_add a b < 2 ^ 16.
Proof. apply Z.mod_pos_bound. lia. Qed.

(** ** Bytes *)

#[export] Instance byte_eq_dec : EqDecision byte := Byte.byte_eq_dec.
#[export] Program Instance byte_countable : Countable byte :=
  inj_countable Byte.to_N Byte.of_N _.
Next Obligation. intros b. apply Byte.of_to_N. Qed.

Abbreviation bytes := (list byte).

Definition byte_Z (b : byte) : Z := Z.of_N (Byte.to_N b).
(** Conversion of an integer to [byte]: the low eight bits. *)
Definition Z_byte (z : Z) : byte :=
  default "000"%byte (Byte.of_N (Z.to_N (z mod 256))).

Lemma byte_Z_range b : 0 ≤ byte_Z b < 256.
Proof. unfold byte_Z. pose proof (Byte.to_N_bounded b). lia. Qed.

Lemma Z_byte_Z b : Z_byte (byte_Z b) = b.
Proof.
  unfold Z_byte. rewrite Z.mod_small by apply byte_Z_range.
  unfold byte_Z. by rewrite N2Z.id, Byte.of_to_N.
Qed.

Lemma byte_Z_byte z : byte_Z (Z_byte z) = z mod 256.
Proof.
  unfold Z_byte. pose proof (Z.mod_pos_bound z 256 ltac:(lia)) as Hz.
  destruct (Byte.of_N (Z.to_N (z mod 256))) as [b|] eqn:Hb; simpl.
  - apply Byte.to_of_N in Hb. unfold byte_Z. rewrite Hb. lia.
  - apply Byte.of_N_None_iff in Hb. lia.
Qed.

#[export] Instance byte_Z_inj : Inj (=) (=) byte_Z.
Proof. intros a b H. by rewrite <-(Z_byte_Z a), <-(Z_byte_Z b), H. Qed.

(** ** [encoding/binary], little endian *)

(** [le_encode w z]: the [w] low bytes of [z], least significant first. *)
Fixpoint le_encode (w : nat) (z : Z) : bytes :=
  match w with
  | O => []
  | S w => Z_byte z :: le_encode w (z / 256)
  end.

Fixpoint le_decode (l : bytes) : Z :=
  match l with
  | [] => 0
  | b :: l => byte_Z b + 256 * le_decode l
  end.

Lemma length_le_encode w z : length (le_encode w z) = w.
Proof. revert z. induction w as [|w IH]; intros z; simpl; [done|by rewrite IH]. Qed.

Lemma le_decode_encode w z : le_decode (le_encode w z) = z mod 256 ^ Z.of_nat w.
Proof.
  revert z. induction w as [|w IH]; intros z.
  { simpl. by rewrite Z.pow_0_r, Z.mod_1_r. }
  cbn [le_encode le_decode]. rewrite IH, byte_Z_byte.
  replace (256 ^ Z.of_nat (S w)) with (256 * 256 ^ Z.of_nat w)
    by (rewrite Nat2Z.inj_succ, Z.pow_succ_r by lia; lia).
  rewrite Z.rem_mul_r by lia. lia.
Qed.

Lemma le_decode_encode_small w z :
  0 ≤ z < 256 ^ Z.of_nat w → le_decode (le_encode w z) = z.
Proof. intros. rewrite le_decode_encode. by apply Z.mod_small. Qed.

Lemma le_decode_range l : 0 ≤ le_decode l < 256 ^ Z.of_nat (length l).
Proof.
  induction l as [|b l IH]; simpl; [lia|].
  pose proof (byte_Z_range b). rewrite Nat2Z.inj_succ, Z.pow_succ_r by lia. lia.
Qed.

Lemma le_encode_decode l : le_encode (length l) (le_decode l) = l.
Proof.
  induction l as [|b l IH]; simpl; [done|].
  pose proof (byte_Z_range b) as Hb.
  replace ((byte_Z b + 256 * le_decode l) / 256) with (le_decode l)
    by (rewrite (Z.mul_comm 256), Z.div_add, (Z.div_small (byte_Z b)); lia).
  rewrite IH. f_equal.
  unfold Z_byte.
  rewrite (Z.mul_comm 256), Z.mod_add, Z.mod_small by lia.
  unfold byte_Z. by rewrite N2Z.id, Byte.of_to_N.
Qed.

(** ** [bytes.Reader]

    A reader is the list of the bytes not read yet. *)

Inductive io_err := EOF | ErrUnexpectedEOF.

(** [r.Read(p)] with [len(p) = k]: at the end of the input it answers [EOF],
    even for an empty [p]; otherwise it copies [min k (len r)] bytes. *)
Definition reader_Read (k : nat) (r : bytes) : result io_err (bytes * bytes) :=
  match r with
  | [] => Err EOF
  | _ => Ok (take k r, drop k r)
  end.

Definition reader_ReadByte (r : bytes) : result io_err (byte * bytes) :=
  match r with
  | [] => Err EOF
  | b :: r => Ok (b, r)
  end.

(** [io.ReadFull] of [k] bytes, which [binary.Read] calls first. *)
Definition read_full (k : nat) (r : bytes) : result io_err (bytes * bytes) :=
  if decide (k = 0%nat) then Ok ([], r) else
  match r with
  | [] => Err EOF
  | _ => if decide (length r < k)%nat then Err ErrUnexpectedEOF
         else Ok (take k r, drop k r)
  end.

(** [binary.Read(r, LittleEndian, &x)] for an unsigned [x] of [w] bytes. *)
Definition binary_Read (w : nat) (r : bytes) : result io_err (Z * bytes) :=
  '(b, r) ← read_full w r; Ok (le_decode b, r).

Lemma read_full_app k b r :
  length b = k → read_full k (b ++ r) = Ok (b, r).
Proof.
  intros <-. unfold read_full.
  destruct b as [|x b]; simpl; [done|].
  rewrite decide_False by (rewrite length_app; lia).
  by rewrite take_app_length, drop_app_length.
Qed.

Lemma read_full_spec k r b r' :
  read_full k r = Ok (b, r') → r = b ++ r' ∧ length b = k.
Proof.
  unfold read_full. intros H. case_decide; simplify_eq/=; [done|].
  destruct r as [|x r]; [done|]. case_decide; [done|]. injection H as <- <-.
  split; [by rewrite take_drop|]. rewrite length_take. lia.
Qed.

Lemma binary_Read_app w z r :
  0 ≤ z < 256 ^ Z.of_nat w → binary_Read w (le_encode w z ++ r) = Ok (z, r).
Proof.
  intros Hz. unfold binary_Read.
  rewrite read_full_app by apply length_le_encode. simpl.
  by rewrite le_decode_encode_small.
Qed.

(** ** Slices indexed by a [byte]: out of range is a panic *)

Definition slice_get {A} (l : list A) (i : Z) : outcome A :=
  match l !! Z.to_nat i with Some x => Done x | None => Panic end.

Definition slice_set {A} (l : list A) (i : Z) (x : A) : outcome (list A) :=
  if decide (Z.to_nat i < length l)%nat then Done (<[Z.to_nat i := x]> l) else Panic.

(** Total view of a slice, for statements. *)
Definition elt {A} (d : A) (l : list A) (i : Z) : A := default d (l !! Z.to_nat i).

Lemma slice_get_elt {A} (d : A) l i :
  0 ≤ i < Z.of_nat (length l) → slice_get l i = Done (elt d l i).
Proof.
  intros Hi. unfold slice_get, elt.
  destruct (lookup_lt_is_Some_2 l (Z.to_nat i)) as [x ->]; [lia|done].
Qed.

Lemma slice_set_Done {A} (l : list A) i x :
  0 ≤ i < Z.of_nat (length l) → slice_set l i x = Done (<[Z.to_nat i := x]> l).
Proof. intros. unfold slice_set. by rewrite decide_True by lia. Qed.

Lemma elt_insert {A} (d : A) (l : list A) i j x :
  0 ≤ i < Z.of_nat (length l) → 0 ≤ j →
  elt d (<[Z.to_nat i := x]> l) j = if decide (i = j) then x else elt d l j.
Proof.
  intros Hi Hj. unfold elt. case_decide as Hij.
  - subst j. rewrite list_lookup_insert_eq by lia. done.
  - rewrite list_lookup_insert_ne by lia. done.
Qed.

(** ** Buffered channels

    A component's channels are a store from channel names to the queue of
    values in transit.  A send blocks when the queue is at its capacity, a
    receive when it is empty. *)

Section channels.
Context {C V : Type} `{!EqDecision C} (cap : C → nat).
Implicit Types (s : C → list V) (c : C) (v : V).

Definition chan_send (c : C) (v : V) (s : C → list V) : outcome (C → list V) :=
  if decide (length (s c) < cap c)%nat then Done (<[c := s c ++ [v]]> s) else Block.

Definition chan_recv (c : C) (s : C → list V) : option (V * (C → list V)) :=
  match s c with
  | [] => None
  | v :: q => Some (v, <[c := q]> s)
  end.

Lemma chan_send_Done c v s :
  (length (s c) < cap c)%nat → chan_send c v s = Done (<[c := s c ++ [v]]> s).
Proof. intros. unfold chan_send. by rewrite decide_True. Qed.

Lemma chan_send_inv c v s s' :
  chan_send c v s = Done s' →
  (length (s c) < cap c)%nat ∧ s' = <[c := s c ++ [v]]> s.
Proof. unfold chan_send. case_decide; naive_solver. Qed.

Lemma chan_recv_inv c s v s' :
  chan_recv c s = Some (v, s') → ∃ q, s c = v :: q ∧ s' = <[c := q]> s.
Proof. clear cap. unfold chan_recv. destruct (s c); naive_solver. Qed.

Lemma chan_upd_lookup c c' q s :
  (<[c := q]> s) c' = if decide (c = c') then q else s c'.
Proof.
  case_decide; subst; [apply fn_lookup_insert|by apply fn_lookup_insert_ne].
Qed.
End channels.

(** ** Resilience: [n] processes of which at most [f] are faulty *)

Record membership (A : Type) `{Countable A} : Type := Membership {
  mb_n : Z;
  mb_f : Z;
  peers : gset A;
  faulty : gset A;
}.
Arguments Membership {A _ _}.
Arguments mb_n {A _ _}.
Arguments mb_f {A _ _}.
Arguments peers {A _ _}.
Arguments faulty {A _ _}.

Class Resilient {A} `{Countable A} (m : membership A) : Prop := {
  rs_n : Z.of_nat (size (peers m)) = mb_n m;
  rs_faulty : faulty m ⊆ peers m;
  rs_f : Z.of_nat (size (faulty m)) ≤ mb_f m;
  rs_bound : 3 * mb_f m < mb_n m;
  rs_width : mb_n m < 2 ^ 63;
}.

Section quorums.
Context {A} `{Countable A} (m : membership A) `{!Resilient m}.
Implicit Types X Y : gset A.

Lemma rs_arith :
  0 ≤ mb_f m ∧ 3 * mb_f m < mb_n m ∧ mb_n m < 2 ^ 63 ∧
  uint_add (mb_f m) 1 = mb_f m + 1 ∧
  uint_sub (mb_n m) (mb_f m) = mb_n m - mb_f m ∧
  int_of_uint (mb_f m + 1) = mb_f m + 1 ∧
  int_of_uint (mb_n m - mb_f m) = mb_n m - mb_f m.
Proof.
  destruct Resilient0 as [? ? ? ? ?].
  assert (0 ≤ mb_f m) by lia.
  rewrite uint_add_small, uint_sub_small, !int_of_uint_small by lia. lia.
Qed.

(** More than [f] processes include a correct one. *)
Lemma correct_witness X :
  mb_f m < Z.of_nat (size X) → ∃ x, x ∈ X ∧ x ∉ faulty m.
Proof.
  intros HX. destruct Resilient0 as [? ? ? ? ?].
  destruct (decide (X ⊆ faulty m)) as [Hsub|Hsub].
  { apply subseteq_size in Hsub. lia. }
  destruct (set_choose_or_empty (X ∖ faulty m)) as [[x Hx]|Hem]; [set_solver|].
  exfalso. apply Hsub. intros x Hx. destruct (decide (x ∈ faulty m)); set_solver.
Qed.

(** Two quorums of [n - f] processes share a correct one. *)
Lemma quorum_intersection X Y :
  X ⊆ peers m → Y ⊆ peers m →
  mb_n m - mb_f m ≤ Z.of_nat (size X) → mb_n m - mb_f m ≤ Z.of_nat (size Y) →
  ∃ x, x ∈ X ∧ x ∈ Y ∧ x ∉ faulty m.
Proof.
  intros HX HY HsX HsY. pose proof rs_arith. destruct Resilient0 as [Hn ? ? ? ?].
  destruct (correct_witness (X ∩ Y)) as (x & Hx & Hf).
  - pose proof (size_union_alt X Y) as Hu.
    assert (size (X ∪ Y) ≤ size (peers m))%nat by (apply subseteq_size; set_solver).
    assert (size Y = size (X ∩ Y) + size (Y ∖ X))%nat; [|lia].
    rewrite <-size_union by set_solver. f_equal. apply set_eq. intros x.
    destruct (decide (x ∈ X)); set_solver.
  - exists x. set_solver.
Qed.

(** A quorum of [n - f] processes has more than [f] correct members. *)
Lemma quorum_correct X :
  X ⊆ peers m → mb_n m - mb_f m ≤ Z.of_nat (size X) →
  mb_f m + 1 ≤ Z.of_nat (size (X ∖ faulty m)).
Proof.
  intros HX Hs. pose proof rs_arith. destruct Resilient0 as [? ? ? ? ?].
  rewrite size_difference_alt.
  assert (size (X ∩ faulty m) ≤ size (faulty m))%nat by (apply subseteq_size; set_solver).
  lia.
Qed.

(** The correct processes form a quorum. *)
Lemma correct_quorum :
  mb_n m - mb_f m ≤ Z.of_nat (size (peers m ∖ faulty m)).
Proof.
  destruct Resilient0 as [? ? ? ? ?]. rewrite size_difference by done. lia.
Qed.
End quorums.

(** Sizes after inserting a new element. *)
Lemma size_add_new {A} `{Countable A} (x : A) (X : gset A) :
  x ∉ X → size ({[x]} ∪ X) = S (size X).
Proof. intros. rewrite size_union by set_solver. by rewrite size_singleton. Qed.

(** Two large subsets of a set overlap. *)
Lemma set_overlap {A} `{Countable A} (X Y Z : gset A) :
  X ⊆ Z → Y ⊆ Z → (size Z < size X + size Y)%nat → ∃ x, x ∈ X ∧ x ∈ Y.
Proof.
  intros HX HY Hs. destruct (set_choose_or_empty (X ∩ Y)) as [[x Hx]|Hem].
  - exists x. set_solver.
  - assert (size (X ∪ Y) ≤ size Z)%nat by (apply subseteq_size; set_solver).
    rewrite size_union in * by set_solver. lia.
Qed.

(** ** Automation *)

(** Split every [match], [if] and [decide] of the goal. *)
Ltac split_matches :=
  repeat (case_match || case_decide); simplify_eq/=.

Create HintDb bkr.
#[export] Hint Resolve length_le_encode byte_Z_range : bkr.
