(* ===== verification/Executor.v ===== *)
(** * The executors

    Most components own a goroutine, [invoker], that takes closures from the
    channel [commands] and runs them one at a time, until it receives a signal to
    close ([instance.go] of the broadcast and of the coin, [channel.go],
    [mmrTermination.go], [concurrentMMR.go], [abaChannel.go], [bkrChannel.go]).
    A method posts a closure, then waits for the answer the closure sends it.

    The models of the components have one transition per call.  Here the
    goroutines that call, the executor and the signal are separate, and what they
    do is shown to be what one transition per call does ([exec_served], [exec_seq]);
    every call is answered unless the executor is closed, and a call that the
    executor has not taken when it closes never returns. *)

From stdpp Require Import base tactics numbers list sets.
From S2P Require Import Prelude.

(** ** The goroutines *)

(** What a component gives to its executor.  [ex_exec]: the closure of a call.
    [ex_sync]: its answer goes through a channel without buffer (otherwise the
    closure leaves the answer in a buffer, or has none but a line of the log).  [ex_stuck]: the
    closure sends more answers than its caller takes, and does not end.
    [ex_end]: what [invoker] does on the signal to close. *)
Record executor (S C R : Type) := Executor {
  ex_exec : C → S → outcome (S * R);
  ex_sync : C → bool;
  ex_stuck : S → bool;
  ex_end : S → S;
}.
Arguments Executor {S C R}.
Arguments ex_exec {S C R}.
Arguments ex_sync {S C R}.
Arguments ex_stuck {S C R}.
Arguments ex_end {S C R}.

(** A goroutine in a call: waiting to post its closure, waiting for the answer,
    or back from the call. *)
Inductive call_pc (C R : Type) := K_post (c : C) | K_wait | K_done (r : R).
Arguments K_post {C R}.
Arguments K_wait {C R}.
Arguments K_done {C R}.

(** [invoker]: at its [select], handing over an answer, inside a closure that
    does not end, returned; or the program has panicked. *)
Inductive invoker_pc (R : Type) := V_select | V_hand (i : nat) (r : R) | V_stuck | V_closed | V_crashed.
Arguments V_select {R}.
Arguments V_hand {R}.
Arguments V_stuck {R}.
Arguments V_closed {R}.
Arguments V_crashed {R}.

(** [x_calls]: the calls in the order they are made.  [x_signals]: the sends on
    the closing channel that [invoker] has not received. *)
Record exec_system (S C R : Type) := ExecSystem {
  x_state : S;
  x_pc : invoker_pc R;
  x_calls : list (call_pc C R);
  x_signals : nat;
}.
Arguments ExecSystem {S C R}.
Arguments x_state {S C R}.
Arguments x_pc {S C R}.
Arguments x_calls {S C R}.
Arguments x_signals {S C R}.

Inductive exec_event (C : Type) :=
| X_call (c : C)     (* a goroutine makes a call *)
| X_take (i : nat)   (* the executor receives and runs the closure of call [i] *)
| X_hand             (* the answer reaches the caller *)
| X_close            (* a signal to close *)
| X_end.             (* the executor receives it *)
Arguments X_call {C}.
Arguments X_take {C}.
Arguments X_hand {C}.
Arguments X_close {C}.
Arguments X_end {C}.

Section executor.
Context {S C R : Type} (E : executor S C R).
Implicit Types (x : exec_system S C R) (s : S) (c : C) (r : R) (evs : list (exec_event C)).

Definition x_start (s : S) : exec_system S C R := ExecSystem s V_select [] 0.

(** Where the executor is after a closure whose answer needs no more waiting. *)
Definition after_closure (s : S) : invoker_pc R := if ex_stuck E s then V_stuck else V_select.

(** [invoker] with a closure it has received. *)
Definition run_closure (i : nat) (c : C) (x : exec_system S C R) : exec_system S C R :=
  match ex_exec E c (x_state x) with
  | Panic => ExecSystem (x_state x) V_crashed (<[i := K_wait]> (x_calls x)) (x_signals x)
  | Block => ExecSystem (x_state x) V_stuck (<[i := K_wait]> (x_calls x)) (x_signals x)
  | Done (s, r) =>
    if ex_sync E c
    then ExecSystem s (V_hand i r) (<[i := K_wait]> (x_calls x)) (x_signals x)
    else ExecSystem s (after_closure s) (<[i := K_done r]> (x_calls x)) (x_signals x)
  end.

Definition invoker_step (e : exec_event C) (x : exec_system S C R) : option (exec_system S C R) :=
  match x_pc x, e with
  | V_crashed, _ => None
  | pc, X_call c => Some (ExecSystem (x_state x) pc (x_calls x ++ [K_post c]) (x_signals x))
  | V_select, X_take i =>
    match x_calls x !! i with
    | Some (K_post c) => Some (run_closure i c x)
    | _ => None
    end
  | V_hand i r, X_hand =>
    Some (ExecSystem (x_state x) (after_closure (x_state x)) (<[i := K_done r]> (x_calls x)) (x_signals x))
  | pc, X_close => Some (ExecSystem (x_state x) pc (x_calls x) (x_signals x + 1))
  | V_select, X_end =>
    match x_signals x with
    | O => None
    | n => Some (ExecSystem (ex_end E (x_state x)) V_closed (x_calls x) (pred n))
    end
  | _, _ => None
  end.

Fixpoint invoker_run (evs : list (exec_event C)) (x : exec_system S C R) : option (exec_system S C R) :=
  match evs with
  | [] => Some x
  | e :: evs => x ← invoker_step e x; invoker_run evs x
  end.

(** ** One transition per call *)

(** The calls one after the other, with their answers. *)
Fixpoint exec_seq (cs : list C) (s : S) : outcome (S * list R) :=
  match cs with
  | [] => Done (s, [])
  | c :: cs =>
    '(s, r) ← ex_exec E c s; '(s, rs) ← exec_seq cs s; Done (s, r :: rs)
  end.

(** The calls of a run, and those the executor takes, in its order. *)
Definition called (evs : list (exec_event C)) : list C :=
  omap (λ e, if e is X_call c then Some c else None) evs.
Definition took (evs : list (exec_event C)) : list nat :=
  omap (λ e, if e is X_take i then Some i else None) evs.

(** The executor has neither stopped nor stalled. *)
Definition at_work (x : exec_system S C R) : Prop :=
  match x_pc x with V_select | V_hand _ _ => True | _ => False end.

Lemma invoker_run_app evs1 evs2 x :
  invoker_run (evs1 ++ evs2) x = (invoker_run evs1 x ≫= invoker_run evs2).
Proof. revert x. induction evs1 as [|e evs1 IH]; intros x; simpl; [done|]. 
  destruct (invoker_step e x); simpl; [apply IH|done].
Qed.

Lemma exec_seq_snoc cs c s :
  exec_seq (cs ++ [c]) s =
  '(s, rs) ← exec_seq cs s; '(s, r) ← ex_exec E c s; Done (s, rs ++ [r]).
Proof.
  revert s. induction cs as [|c' cs IH]; intros s; simpl.
  { by destruct (ex_exec E c s) as [[]| |]. }
  destruct (ex_exec E c' s) as [[s1 r1]| |]; simpl; [|done|done].
  rewrite IH. destruct (exec_seq cs s1) as [[s2 rs]| |]; simpl; [|done|done].
  by destruct (ex_exec E c s2) as [[]| |].
Qed.

Lemma exec_seq_length cs s s' rs : exec_seq cs s = Done (s', rs) → length rs = length cs.
Proof.
  revert s rs. induction cs as [|c cs IH]; intros s rs H; simplify_eq/=; [done|].
  destruct (ex_exec E c s) as [[s1 r1]| |]; simplify_eq/=.
  destruct (exec_seq cs s1) as [[s2 rs']| |] eqn:Hs; simplify_eq/=. f_equal. by eapply IH.
Qed.

Lemma called_app evs1 evs2 : called (evs1 ++ evs2) = called evs1 ++ called evs2.
Proof. apply omap_app. Qed.
Lemma took_app evs1 evs2 : took (evs1 ++ evs2) = took evs1 ++ took evs2.
Proof. apply omap_app. Qed.

(** ** What a run has done

    [cs] are the closures in the order the executor took them, [rs] their
    answers.  Both are of the run so far, so each step adds at their ends. *)

Definition answered (evs : list (exec_event C)) (rs : list R) (i : nat) (r : R) : Prop :=
  ∃ k, took evs !! k = Some i ∧ rs !! k = Some r.

Record exec_inv (s0 : S) (evs : list (exec_event C)) (cs : list C) (x : exec_system S C R) : Prop := {
  xi_length : length (x_calls x) = length (called evs);
  xi_post i c : x_calls x !! i = Some (K_post c) → called evs !! i = Some c ∧ i ∉ took evs;
  xi_took i : i ∈ took evs → (i < length (called evs))%nat;
  xi_left i k : x_calls x !! i = Some k → (∀ c, k ≠ K_post c) → i ∈ took evs;
  xi_nodup : NoDup (took evs);
  xi_order : Forall2 (λ i c, called evs !! i = Some c) (took evs) cs;
}.

Definition exec_served (s0 : S) (evs : list (exec_event C)) (cs : list C) (x : exec_system S C R) : Prop :=
  ∃ s rs, exec_seq cs s0 = Done (s, rs) ∧
    (if x_pc x is V_closed then x_state x = ex_end E s else x_state x = s) ∧
    (∀ i r, x_calls x !! i = Some (K_done r) → answered evs rs i r) ∧
    (∀ i r, x_pc x = V_hand i r → answered evs rs i r ∧ x_calls x !! i = Some K_wait).

Lemma answered_app evs evs' rs rs' i r : answered evs rs i r → answered (evs ++ evs') (rs ++ rs') i r.
Proof.
  intros (k & Hk & Hr). exists k. rewrite took_app. split; by apply lookup_app_l_Some.
Qed.

Lemma exec_inv_call s0 evs cs x c pc :
  exec_inv s0 evs cs x →
  exec_inv s0 (evs ++ [X_call c]) cs (ExecSystem (x_state x) pc (x_calls x ++ [K_post c]) (x_signals x)).
Proof.
  intros [Hl Hp Ht Hlf Hn Ho]. split; rewrite ?called_app, ?took_app; simpl; rewrite ?(app_nil_r (took evs)).
  - by rewrite !length_app, Hl.
  - intros i c' [Hi | [Hlt Hi]]%lookup_app_Some.
    + destruct (Hp i c' Hi) as [Hc Hi']. split; [by apply lookup_app_l_Some|done].
    + assert (i = length (called evs)) as ->.
      { apply lookup_lt_Some in Hi. simpl in Hi. lia. }
      rewrite Hl, Nat.sub_diag in Hi. injection Hi as ->. rewrite list_lookup_middle by done.
      split; [done|]. intros Hi%Ht. lia.
  - intros i Hi%Ht. rewrite length_app. lia.
  - intros i k [Hi | [_ Hi]]%lookup_app_Some Hk; [by eapply Hlf|].
    apply list_lookup_singleton_Some in Hi as [_ <-]. by destruct (Hk c).
  - done.
  - eapply Forall2_impl; [exact Ho|]. intros i c' Hi. by apply lookup_app_l_Some.
Qed.

(** The executor takes call [i], which is [k] afterwards. *)
Lemma exec_inv_take s0 evs cs x c i k s pc n :
  exec_inv s0 evs cs x → x_calls x !! i = Some (K_post c) → (∀ c, k ≠ K_post c) →
  exec_inv s0 (evs ++ [X_take i]) (cs ++ [c]) (ExecSystem s pc (<[i := k]> (x_calls x)) n).
Proof.
  intros [Hl Hp Ht Hlf Hn Ho] Hi Hk. destruct (Hp i c Hi) as [Hc Hnt].
  split; rewrite ?called_app, ?took_app; simpl; rewrite ?app_nil_r.
  - by rewrite length_insert.
  - intros j c' [(? & E' & ?) | [? Hj]]%list_lookup_insert_Some; [by destruct (Hk c')|].
    destruct (Hp j c' Hj). split; [done|]. set_solver.
  - intros j [Hj | ->%list_elem_of_singleton]%elem_of_app; [by apply Ht|].
    by apply lookup_lt_Some in Hc.
  - intros j k' [(-> & _ & _) | [? Hj]]%list_lookup_insert_Some Hk'; [set_solver|].
    apply elem_of_app. left. by eapply Hlf.
  - apply NoDup_app. split_and!; [done|set_solver|apply NoDup_singleton].
  - apply Forall2_app; [done|]. by constructor.
Qed.

Lemma exec_inv_set s0 evs e cs x i k s pc n :
  exec_inv s0 evs cs x → x_calls x !! i = Some K_wait → (∀ c, k ≠ K_post c) → called [e] = [] → took [e] = [] →
  exec_inv s0 (evs ++ [e]) cs (ExecSystem s pc (<[i := k]> (x_calls x)) n).
Proof.
  intros [Hl Hp Ht Hlf Hn Ho] Hi Hk Hce Hte. split; rewrite ?called_app, ?took_app, ?Hce, ?Hte, ?app_nil_r; simpl; try done.
  - by rewrite length_insert.
  - intros j c' [(? & E' & ?) | [? Hj]]%list_lookup_insert_Some; [by destruct (Hk c')|by apply Hp].
  - intros j k' [(<- & _ & _) | [? Hj]]%list_lookup_insert_Some Hk'; by eapply Hlf.
Qed.

Lemma exec_inv_same s0 evs e cs x s pc n :
  exec_inv s0 evs cs x → called [e] = [] → took [e] = [] →
  exec_inv s0 (evs ++ [e]) cs (ExecSystem s pc (x_calls x) n).
Proof. intros [] Hce Hte. split; by rewrite ?called_app, ?took_app, ?Hce, ?Hte, ?app_nil_r. Qed.

(** ** Every step *)

Inductive step_case (x : exec_system S C R) : exec_event C → exec_system S C R → Prop :=
| SC_call c : x_pc x ≠ V_crashed →
    step_case x (X_call c) (ExecSystem (x_state x) (x_pc x) (x_calls x ++ [K_post c]) (x_signals x))
| SC_take i c : x_pc x = V_select → x_calls x !! i = Some (K_post c) →
    step_case x (X_take i) (run_closure i c x)
| SC_hand i r : x_pc x = V_hand i r →
    step_case x X_hand
      (ExecSystem (x_state x) (after_closure (x_state x)) (<[i := K_done r]> (x_calls x)) (x_signals x))
| SC_close : x_pc x ≠ V_crashed →
    step_case x X_close (ExecSystem (x_state x) (x_pc x) (x_calls x) (x_signals x + 1))
| SC_end n : x_pc x = V_select → x_signals x = Datatypes.S n →
    step_case x X_end (ExecSystem (ex_end E (x_state x)) V_closed (x_calls x) n).

Lemma invoker_step_case e x x' : invoker_step e x = Some x' → step_case x e x'.
Proof.
  destruct x as [s pc ks n]. unfold invoker_step; simpl. intros H.
  destruct pc, e; simplify_eq/=; try (by constructor).
  - destruct (ks !! i) as [[]|] eqn:Hi; simplify_eq. by constructor.
  - destruct n; simplify_eq. by constructor.
Qed.

Definition serving (x : exec_system S C R) : Prop := match x_pc x with V_stuck | V_crashed => False | _ => True end.

Lemma exec_served_calls s0 evs evs' cs x x' :
  exec_served s0 evs cs x → x_state x' = x_state x → x_pc x' = x_pc x →
  (∀ i k, (∀ c, k ≠ K_post c) → x_calls x' !! i = Some k ↔ x_calls x !! i = Some k) →
  exec_served s0 (evs ++ evs') cs x'.
Proof.
  intros (s & rs & Hs & Hst & Hd & Hh) E1 E2 Hc. exists s, rs. rewrite E1, E2.
  split_and!; [done|done| |].
  - intros i r Hi. apply Hc in Hi; [|done]. rewrite <-(app_nil_r rs). by apply answered_app, Hd.
  - intros i r Hpc. destruct (Hh i r Hpc) as [Ha Hw]. rewrite <-(app_nil_r rs).
    split; [by apply answered_app|by apply Hc].
Qed.

(** A closure that ends is the next call of the sequence. *)
Lemma exec_served_take s0 evs cs x i c s r n :
  exec_inv s0 evs cs x → exec_served s0 evs cs x → x_pc x = V_select →
  x_calls x !! i = Some (K_post c) → ex_exec E c (x_state x) = Done (s, r) →
  ∀ sync : bool,
    exec_served s0 (evs ++ [X_take i]) (cs ++ [c])
      (if sync then ExecSystem s (V_hand i r) (<[i := K_wait]> (x_calls x)) n
       else ExecSystem s (after_closure s) (<[i := K_done r]> (x_calls x)) n).
Proof.
  intros Hi (s1 & rs & Hs & Hst & Hd & Hh) Hpc Hci He sync. rewrite Hpc in Hst. subst s1.
  exists s, (rs ++ [r]). rewrite exec_seq_snoc, Hs. simpl. rewrite He.
  assert (Hnew : answered (evs ++ [X_take i]) (rs ++ [r]) i r).
  { exists (length (took evs)). rewrite took_app. simpl. rewrite list_lookup_middle by done.
    split; [done|]. apply list_lookup_middle. rewrite (exec_seq_length _ _ _ _ Hs).
    eapply Forall2_length, xi_order, Hi. }
  assert (Hlt : (i < length (x_calls x))%nat) by by eapply lookup_lt_Some.
  destruct sync; simpl; (split_and!; [done| | |]).
  - done.
  - intros j r' [(_ & [=] & _) | [? Hj]]%list_lookup_insert_Some. by apply answered_app, Hd.
  - intros j r' [= <- <-]. split; [done|]. by apply list_lookup_insert_eq.
  - unfold after_closure. by destruct (ex_stuck E s).
  - intros j r' [(<- & [= <-] & _) | [? Hj]]%list_lookup_insert_Some; [done|]. by apply answered_app, Hd.
  - unfold after_closure. by destruct (ex_stuck E s).
Qed.

Lemma exec_step_inv s0 evs cs x e x' :
  exec_inv s0 evs cs x → (serving x → exec_served s0 evs cs x) → invoker_step e x = Some x' →
  ∃ cs', exec_inv s0 (evs ++ [e]) cs' x' ∧ (serving x' → exec_served s0 (evs ++ [e]) cs' x').
Proof.
  intros Hi Hsv Hst%invoker_step_case.
  destruct Hst as [c Hpc|i c Hpc Hci|i r Hpc|Hpc|n Hpc Hn].
  - exists cs. split; [by apply exec_inv_call|]. intros Hs. eapply exec_served_calls; [by apply Hsv|done|done|].
    simpl. intros i k Hk. split.
    + intros [Hi' | [? Hi']]%lookup_app_Some; [done|]. apply list_lookup_singleton_Some in Hi' as [_ <-].
      by destruct (Hk c).
    + intros Hi'. by apply lookup_app_l_Some.
  - exists (cs ++ [c]). assert (Hs : serving x) by (unfold serving; by rewrite Hpc). specialize (Hsv Hs).
    unfold run_closure. destruct (ex_exec E c (x_state x)) as [[s r]| |] eqn:He.
    + pose proof (exec_served_take s0 evs cs x i c s r (x_signals x) Hi Hsv Hpc Hci He (ex_sync E c)).
      destruct (ex_sync E c); (split; [by apply exec_inv_take|done]).
    + split; [by apply exec_inv_take|by intros []].
    + split; [by apply exec_inv_take|by intros []].
  - exists cs. assert (Hs : serving x) by (unfold serving; by rewrite Hpc). specialize (Hsv Hs).
    destruct Hsv as (s & rs & Hseq & Hst & Hd & Hh).
    rewrite Hpc in Hst. subst s. destruct (Hh i r Hpc) as [Ha Hw].
    split; [by apply exec_inv_set|]. intros _.
    exists (x_state x), rs. split_and!.
    + done.
    + unfold after_closure. simpl. by destruct (ex_stuck E (x_state x)).
    + simpl. intros j r' [(<- & [= <-] & _) | [? Hj]]%list_lookup_insert_Some; rewrite <-(app_nil_r rs); apply answered_app; auto.
    + simpl. unfold after_closure. by destruct (ex_stuck E (x_state x)).
  - exists cs. split; [by apply exec_inv_same|]. intros Hs. by eapply exec_served_calls; [apply Hsv|..].
  - exists cs. assert (Hs : serving x) by (unfold serving; by rewrite Hpc). specialize (Hsv Hs).
    split; [by apply exec_inv_same|]. intros _. destruct Hsv as (s & rs & Hseq & Hst & Hd & Hh).
    rewrite Hpc in Hst. exists s, rs. simpl. split_and!; [done|by subst| |done].
    intros j r Hj. rewrite <-(app_nil_r rs). by apply answered_app, Hd.
Qed.

Lemma exec_run_inv s0 evs x :
  invoker_run evs (x_start s0) = Some x →
  ∃ cs, exec_inv s0 evs cs x ∧ (serving x → exec_served s0 evs cs x).
Proof.
  revert x. induction evs as [|e evs IH] using rev_ind; intros x.
  - intros [= <-]. exists []. split.
    + split; simpl; [done|done|by intros i ?%not_elem_of_nil|done|constructor|constructor].
    + intros _. by exists s0, [].
  - rewrite invoker_run_app. intros (y & Hy & Hx)%bind_Some. simpl in Hx.
    apply bind_Some in Hx as (x' & Hx' & [= <-]). destruct (IH y Hy) as (cs & Hi & Hsv).
    by eapply exec_step_inv.
Qed.

(** A caller waits for an answer only while the executor has one for it, or
    has stalled. *)
Definition waits (x : exec_system S C R) : Prop := ∀ i, x_calls x !! i = Some K_wait →
  match x_pc x with V_hand j _ => j = i | V_stuck | V_crashed => True | _ => False end.

Lemma waits_step e x x' : waits x → invoker_step e x = Some x' → waits x'.
Proof.
  intros Hw Hst%invoker_step_case. destruct Hst as [c Hpc|i c Hpc Hci|i r Hpc|Hpc|n Hpc Hn]; intros j Hj.
  - simpl in *. apply lookup_app_Some in Hj as [Hj | [_ Hj]]; [by apply Hw|].
    by apply list_lookup_singleton_Some in Hj as [_ [=]].
  - assert (Hn : x_calls x !! j ≠ Some K_wait) by (intros Hj'%Hw; by rewrite Hpc in Hj').
    revert Hj. unfold run_closure. destruct (ex_exec E c (x_state x)) as [[s r]| |]; simpl; [|done|done].
    destruct (ex_sync E c); simpl; intros [(? & E' & ?) | [? Hj]]%list_lookup_insert_Some; done.
  - simpl in *. apply list_lookup_insert_Some in Hj as [(? & [=] & ?) | [? Hj]].
    apply Hw in Hj. by rewrite Hpc in Hj.
  - by apply Hw in Hj.
  - simpl in *. apply Hw in Hj. by rewrite Hpc in Hj.
Qed.

Lemma waits_run evs x y : waits x → invoker_run evs x = Some y → waits y.
Proof.
  revert x. induction evs as [|e evs IH]; intros x Hw; simpl; [by intros [= <-]|].
  intros (x' & Hx & Hy)%bind_Some. eapply IH, Hy. by eapply waits_step.
Qed.

Lemma waits_start s : waits (x_start s).
Proof. done. Qed.

(** ** Work left

    Two moves for a call not taken, one for a call not answered. *)

Definition call_weight (k : call_pc C R) : nat := match k with K_post _ => 2 | K_wait => 1 | K_done _ => 0 end.
Definition work_left (x : exec_system S C R) : nat := sum_list (call_weight <$> x_calls x).
Definition works (e : exec_event C) : Prop := match e with X_take _ | X_hand => True | _ => False end.

Lemma works_silent evs : Forall works evs → called evs = [] ∧ X_end ∉ evs.
Proof.
  induction 1 as [|e evs He _ [IH1 IH2]]; simpl; [split; [done|apply not_elem_of_nil]|].
  split; [by destruct e|]. intros [<- | ?]%elem_of_cons; done.
Qed.

Lemma sum_weights_insert (ks : list (call_pc C R)) i k k' :
  ks !! i = Some k → call_weight k' < call_weight k →
  sum_list (call_weight <$> <[i := k']> ks) < sum_list (call_weight <$> ks).
Proof.
  revert i. induction ks as [|k0 ks IH]; intros [|i] Hi Hlt; simplify_eq/=; [lia|].
  specialize (IH i Hi Hlt). lia.
Qed.

Lemma work_left_step evs s0 e x x' :
  invoker_run evs (x_start s0) = Some x → works e → invoker_step e x = Some x' → work_left x' < work_left x.
Proof.
  intros Hr He Hst%invoker_step_case. destruct (exec_run_inv _ _ _ Hr) as (cs & Hi & Hsv).
  destruct Hst as [c Hpc|i c Hpc Hci|i r Hpc|Hpc|n Hpc Hn]; [done| | |done|done].
  - unfold run_closure. destruct (ex_exec E c (x_state x)) as [[s r]| |]; [destruct (ex_sync E c)|..];
      by (eapply sum_weights_insert; [exact Hci|simpl; lia]).
  - destruct Hsv as (s & rs & _ & _ & _ & Hh); [unfold serving; by rewrite Hpc|].
    eapply sum_weights_insert; [by apply (Hh i r)|]. simpl. lia.
Qed.

Lemma work_left_run s0 evs evs' x y :
  invoker_run evs (x_start s0) = Some x → Forall works evs' → invoker_run evs' x = Some y →
  length evs' + work_left y ≤ work_left x.
Proof.
  revert evs x. induction evs' as [|e evs' IH]; intros evs x Hx Hw; simpl; [intros [= <-]; lia|].
  intros (x' & Hx' & Hy)%bind_Some. inversion_clear Hw as [|? ? He Hw'].
  pose proof (work_left_step _ _ _ _ _ Hx He Hx').
  pose proof (IH (evs ++ [e]) x' ltac:(rewrite invoker_run_app, Hx; simpl; by rewrite Hx') Hw' Hy). lia.
Qed.

Lemma work_left_bound x : work_left x ≤ 2 * length (x_calls x).
Proof. unfold work_left. induction (x_calls x) as [|[] ks IH]; csimpl; lia. Qed.

(** Components whose closures end keep their executor at work; [ok] are the
    calls they can be given. *)
Section closures_end.
Context (ok : C → Prop) (I : S → Prop).
Hypothesis I_exec : ∀ c s, ok c → I s → post (ex_exec E c s) (λ p, I p.1 ∧ ex_stuck E p.1 = false) False.

Record working (x : exec_system S C R) : Prop := {
  wk_state : I (x_state x) ∧ ex_stuck E (x_state x) = false;
  wk_pc : at_work x;
  wk_calls i c : x_calls x !! i = Some (K_post c) → ok c;
}.

Lemma working_step e x x' :
  working x → e ≠ X_end → (∀ c, e = X_call c → ok c) → invoker_step e x = Some x' → working x'.
Proof.
  intros [[HI Hnf] Hw Hok] He Hc Hst%invoker_step_case. unfold at_work in *.
  destruct Hst as [c Hpc|i c Hpc Hci|i r Hpc|Hpc|n Hpc Hn]; [| | |by split|done].
  - split; simpl; [done|done|]. intros i c' [Hi | [_ Hi]]%lookup_app_Some; [by eapply Hok|].
    apply list_lookup_singleton_Some in Hi as [_ [= <-]]. by apply Hc.
  - pose proof (I_exec c _ (Hok i c Hci) HI) as Hp. unfold run_closure.
    destruct (ex_exec E c (x_state x)) as [[s r]| |]; simpl in Hp; [|done|done].
    destruct Hp as [? Hs]. unfold after_closure.
    destruct (ex_sync E c); (split; unfold at_work; simpl; [done|by rewrite ?Hs|]);
      intros j c' [(_ & [=] & _) | [_ Hj]]%list_lookup_insert_Some; by eapply Hok.
  - unfold after_closure. rewrite Hnf. split; simpl; [done|done|].
    intros j c' [(_ & [=] & _) | [_ Hj]]%list_lookup_insert_Some; by eapply Hok.
Qed.

Lemma working_run evs x y :
  working x → X_end ∉ evs → Forall ok (called evs) → invoker_run evs x = Some y → working y.
Proof.
  revert x. induction evs as [|e evs IH]; intros x Hw He Hc; simpl; [by intros [= <-]|].
  intros (x' & Hx & Hr)%bind_Some. apply not_elem_of_cons in He as [He1 He2].
  apply (IH x'); [|done| |done].
  - eapply working_step; [done|done| |done]. intros c ->. by inversion Hc.
  - destruct e; [by inversion Hc|done..].
Qed.

Lemma working_start s : I s → ex_stuck E s = false → working (x_start s).
Proof. intros. split; [done|done|]. intros i c. simpl. by rewrite lookup_nil. Qed.
End closures_end.

Lemma idle_all_done x :
  at_work x → waits x → (∀ e, works e → invoker_step e x = None) →
  ∀ i k, x_calls x !! i = Some k → ∃ r, k = K_done r.
Proof.
  intros Hw Hwt Hno i k Hk. destruct x as [s pc ks n]. unfold at_work in Hw. simpl in *. destruct pc as [|j r| | |]; try done.
  - destruct k as [c| |r]; [|by apply Hwt in Hk|by exists r].
    specialize (Hno (X_take i) Logic.I). unfold invoker_step in Hno. simpl in Hno. by rewrite Hk in Hno.
  - by specialize (Hno X_hand Logic.I).
Qed.

(** ** After the signal to close *)

Lemma closed_run evs x y :
  x_pc x = V_closed → invoker_run evs x = Some y →
  x_state y = x_state x ∧ x_pc y = V_closed ∧ x_calls y = x_calls x ++ (K_post <$> called evs).
Proof.
  revert x. induction evs as [|e evs IH]; intros x Hpc; simpl; [intros [= <-]; by rewrite app_nil_r|].
  intros (x' & Hst%invoker_step_case & Hy)%bind_Some.
  destruct Hst as [c Hpc'|i c Hpc' Hci|i r Hpc'|Hpc'|n Hpc' Hn]; try congruence.
  - apply IH in Hy as (-> & -> & ->); [|done]. simpl. by rewrite <-app_assoc.
  - by apply IH in Hy as (-> & -> & ->).
Qed.

(** ** The order of calls that do not overlap *)

Definition before (l : list nat) (i j : nat) : Prop :=
  ∃ k k', l !! k = Some i ∧ l !! k' = Some j ∧ k < k'.

(** A call that has returned was taken before one that is made later. *)
Lemma returned_before s0 evs1 evs2 x1 x i j r :
  invoker_run evs1 (x_start s0) = Some x1 → invoker_run (evs1 ++ evs2) (x_start s0) = Some x →
  x_calls x1 !! i = Some (K_done r) → length (called evs1) ≤ j → j ∈ took (evs1 ++ evs2) →
  before (took (evs1 ++ evs2)) i j.
Proof.
  intros H1 H Hi Hj Hin. destruct (exec_run_inv _ _ _ H1) as (cs & Hinv & _).
  assert (Hti : i ∈ took evs1) by by eapply xi_left.
  rewrite took_app in *. apply elem_of_app in Hin as [Hin | Hin].
  { apply (xi_took _ _ _ _ Hinv) in Hin. lia. }
  apply list_elem_of_lookup in Hti as [k Hk], Hin as [k' Hk'].
  exists k, (length (took evs1) + k'). split; [by apply lookup_app_l_Some|].
  rewrite lookup_app_r by lia. rewrite Nat.add_comm, Nat.add_sub. split; [done|].
  apply lookup_lt_Some in Hk. lia.
Qed.
End executor.
