(* ===== verification/Sha256.v ===== *)
(** * SHA-256 ([crypto/sha256] of the Go standard library)

    [Sum256] of FIPS 180-4 on byte lists, with 32-bit words as [Z].  The
    program reaches it through [utils.BytesToUUID] and
    [coinTosser.hashPointToBool]. *)

From stdpp Require Import base tactics numbers list.
From Stdlib Require Import Init.Byte.
From S2P Require Import Prelude.

Local Open Scope Z_scope.

Definition word_mask : Z := 2 ^ 32 - 1.
Definition wadd (a b : Z) : Z := Z.land (a + b) word_mask.
Definition rotr (k x : Z) : Z :=
  Z.lor (Z.shiftr x k) (Z.land (Z.shiftl x (32 - k)) word_mask).

Definition Ch (x y z : Z) : Z := Z.lxor (Z.land x y) (Z.land (Z.lxor x word_mask) z).
Definition Maj (x y z : Z) : Z :=
  Z.lxor (Z.land x y) (Z.lxor (Z.land x z) (Z.land y z)).
Definition Sigma0 (x : Z) : Z := Z.lxor (rotr 2 x) (Z.lxor (rotr 13 x) (rotr 22 x)).
Definition Sigma1 (x : Z) : Z := Z.lxor (rotr 6 x) (Z.lxor (rotr 11 x) (rotr 25 x)).
Definition sigma0 (x : Z) : Z := Z.lxor (rotr 7 x) (Z.lxor (rotr 18 x) (Z.shiftr x 3)).
Definition sigma1 (x : Z) : Z := Z.lxor (rotr 17 x) (Z.lxor (rotr 19 x) (Z.shiftr x 10)).

(** The constants are the first 32 bits of the fractional parts of the cube
    roots ([K256]) and square roots ([H256]) of the first primes. *)
Definition is_prime (k : Z) : bool :=
  (1 <? k) && forallb (λ d, negb (k mod (2 + Z.of_nat d) =? 0)) (seq 0 (Z.to_nat (Z.sqrt k - 1))).

Definition primes (limit : nat) : list Z := List.filter is_prime (map Z.of_nat (seq 0 limit)).

(** Cube root rounded down: [bits] binary digits, the highest first. *)
Fixpoint cube_root (bits : nat) (acc x : Z) : Z :=
  match bits with
  | O => acc
  | S b =>
    let next := acc + 2 ^ Z.of_nat b in
    cube_root b (if next * next * next <=? x then next else acc) x
  end.

Definition K256 : list Z :=
  Eval vm_compute in
  map (λ q, Z.land (cube_root 36 0 (q * 2 ^ 96)) word_mask) (primes 312).

(** The chaining value. *)
Record hash_state := HashState {
  ha : Z; hb : Z; hc : Z; hd : Z; he : Z; hf : Z; hg : Z; hh : Z
}.

Definition H256 : hash_state :=
  Eval vm_compute in
  match map (λ q, Z.land (Z.sqrt (q * 2 ^ 64)) word_mask) (primes 20) with
  | [a; b; c; d; e; f; g; h] => HashState a b c d e f g h
  | _ => HashState 0 0 0 0 0 0 0 0
  end.

(** Message schedule, newest word first: [w] holds the sixteen words before
    the next one, in reverse order. *)
Fixpoint schedule (k : nat) (w : list Z) : list Z :=
  match k with
  | O => w
  | S k =>
    let x := wadd (wadd (sigma1 (nth 1 w 0)) (nth 6 w 0))
                  (wadd (sigma0 (nth 14 w 0)) (nth 15 w 0)) in
    schedule k (x :: w)
  end.

Definition round256 (s : hash_state) (k w : Z) : hash_state :=
  let t1 := wadd (wadd (wadd (hh s) (Sigma1 (he s))) (wadd (Ch (he s) (hf s) (hg s)) k)) w in
  let t2 := wadd (Sigma0 (ha s)) (Maj (ha s) (hb s) (hc s)) in
  HashState (wadd t1 t2) (ha s) (hb s) (hc s) (wadd (hd s) t1) (he s) (hf s) (hg s).

Fixpoint rounds256 (s : hash_state) (ks ws : list Z) : hash_state :=
  match ks, ws with
  | k :: ks, w :: ws => rounds256 (round256 s k w) ks ws
  | _, _ => s
  end.

Definition hash_add (s t : hash_state) : hash_state :=
  HashState (wadd (ha s) (ha t)) (wadd (hb s) (hb t)) (wadd (hc s) (hc t)) (wadd (hd s) (hd t))
            (wadd (he s) (he t)) (wadd (hf s) (hf t)) (wadd (hg s) (hg t)) (wadd (hh s) (hh t)).

Definition compress (s : hash_state) (block : list Z) : hash_state :=
  hash_add s (rounds256 s K256 (rev (schedule 48 (rev block)))).

(** Big-endian words. *)
Fixpoint be_words (fuel : nat) (l : bytes) : list Z :=
  match fuel, l with
  | S fuel, a :: b :: c :: d :: l =>
    (byte_Z a * 2 ^ 24 + byte_Z b * 2 ^ 16 + byte_Z c * 2 ^ 8 + byte_Z d) :: be_words fuel l
  | _, _ => []
  end.
Definition be_encode (w : nat) (z : Z) : bytes := rev (le_encode w z).

(** Padding: [0x80], zeros, and the bit length on eight bytes. *)
Definition pad (m : bytes) : bytes :=
  let zeros := Z.to_nat ((55 - Z.of_nat (length m)) mod 64) in
  m ++ "128"%byte :: repeat "000"%byte zeros ++ be_encode 8 (8 * Z.of_nat (length m)).

Fixpoint blocks256 (k : nat) (s : hash_state) (ws : list Z) : hash_state :=
  match k with
  | O => s
  | S k => blocks256 k (compress s (take 16 ws)) (drop 16 ws)
  end.

Definition digest (s : hash_state) : bytes :=
  concat (map (be_encode 4) [ha s; hb s; hc s; hd s; he s; hf s; hg s; hh s]).

Definition Sum256 (m : bytes) : bytes :=
  let p := pad m in
  digest (blocks256 (length p / 64) H256 (be_words (length p) p)).

Lemma length_be_encode w z : length (be_encode w z) = w.
Proof. unfold be_encode. by rewrite length_rev, length_le_encode. Qed.

Lemma length_Sum256 m : length (Sum256 m) = 32%nat.
Proof.
  unfold Sum256, digest. cbn [map concat].
  by rewrite !length_app, !length_be_encode.
Qed.

(** The padded message is a whole number of 64-byte blocks. *)
Lemma length_pad m : (length (pad m) mod 64 = 0)%nat.
Proof.
  unfold pad. rewrite length_app. cbn [length].
  rewrite length_app, repeat_length, length_be_encode.
  set (z := (55 - Z.of_nat (length m)) mod 64).
  assert (0 ≤ z < 64) by (apply Z.mod_pos_bound; lia).
  apply Nat2Z.inj. rewrite Nat2Z.inj_mod, !Nat2Z.inj_add, Nat2Z.inj_succ, Nat2Z.inj_add.
  rewrite Z2Nat.id by lia.
  assert (∃ q, 55 - Z.of_nat (length m) = 64 * q + z) as [q Hq].
  { exists ((55 - Z.of_nat (length m)) / 64). unfold z. apply Z.div_mod. lia. }
  replace (Z.of_nat (length m) + Z.succ (z + Z.of_nat 8)) with ((- q + 1) * 64) by lia.
  by rewrite Z.mod_mul.
Qed.

(** Test vectors of FIPS 180-4: ["abc"] and the empty message. *)
Example Sum256_abc :
  map byte_Z (Sum256 ["097"; "098"; "099"]%byte) =
  [0xba; 0x78; 0x16; 0xbf; 0x8f; 0x01; 0xcf; 0xea; 0x41; 0x41; 0x40; 0xde; 0x5d; 0xae; 0x22; 0x23;
   0xb0; 0x03; 0x61; 0xa3; 0x96; 0x17; 0x7a; 0x9c; 0xb4; 0x10; 0xff; 0x61; 0xf2; 0x00; 0x15; 0xad].
Proof. vm_compute. reflexivity. Qed.

Example Sum256_empty :
  map byte_Z (Sum256 []) =
  [0xe3; 0xb0; 0xc4; 0x42; 0x98; 0xfc; 0x1c; 0x14; 0x9a; 0xfb; 0xf4; 0xc8; 0x99; 0x6f; 0xb9; 0x24;
   0x27; 0xae; 0x41; 0xe4; 0x64; 0x9b; 0x93; 0x4c; 0xa4; 0x95; 0x99; 0x1b; 0x78; 0x52; 0xb8; 0x55].
Proof. vm_compute. reflexivity. Qed.

#[global] Opaque Sum256.
