(* ===== verification/Utils.v ===== *)
(** * Package [utils]: identifiers

    UUIDs (sixteen bytes), [BytesToUUID], and [ExtractIdFromMessage].  The
    remaining functions of the package are a logger and calls into [x509] and
    CIRCL: key serialisation is a parameter of the components that use it. *)

From stdpp Require Import base tactics numbers list countable gmap.
From Stdlib Require Import Init.Byte.
From S2P Require Import Prelude Sha256.

Local Open Scope Z_scope.

(** ** [uuid.UUID], an array of sixteen bytes *)

Definition uuid_size : nat := 16.

Record UUID : Set := MkUUID {
  uuid_bytes : bytes;
  uuid_sized : bool_decide (length uuid_bytes = uuid_size) = true;
}.

Lemma uuid_length (u : UUID) : length (uuid_bytes u) = uuid_size.
Proof. destruct u as [b H]. simpl. by rewrite bool_decide_eq_true in H. Qed.

#[export] Instance uuid_bytes_inj : Inj (=) (=) uuid_bytes.
Proof.
  intros [b1 H1] [b2 H2] ?; simplify_eq/=. f_equal.
  apply Eqdep_dec.UIP_dec, Bool.bool_dec.
Qed.

#[export] Instance UUID_eq_dec : EqDecision UUID.
Proof.
  refine (λ u v, cast_if (decide (uuid_bytes u = uuid_bytes v)));
    abstract naive_solver.
Defined.

(** [uuid.FromBytes]: an error unless there are exactly sixteen bytes. *)
Definition FromBytes (b : bytes) : option UUID :=
  match Bool.bool_dec (bool_decide (length b = uuid_size)) true with
  | left H => Some (MkUUID b H)
  | right _ => None
  end.

Lemma FromBytes_Some b u : FromBytes b = Some u ↔ uuid_bytes u = b.
Proof.
  unfold FromBytes. destruct (Bool.bool_dec _ _) as [H|H].
  - split; [naive_solver|]. intros <-. f_equal. by apply (inj uuid_bytes).
  - split; [done|]. intros <-. destruct H. rewrite bool_decide_eq_true. apply uuid_length.
Qed.

Lemma FromBytes_uuid u : FromBytes (uuid_bytes u) = Some u.
Proof. by apply FromBytes_Some. Qed.

Lemma FromBytes_None b : FromBytes b = None ↔ length b ≠ uuid_size.
Proof.
  unfold FromBytes. destruct (Bool.bool_dec _ _) as [H|H].
  - pose proof H as H2. rewrite bool_decide_eq_true in H2. naive_solver.
  - pose proof H as H2. rewrite bool_decide_eq_true in H2. naive_solver.
Qed.

#[export] Program Instance UUID_countable : Countable UUID :=
  inj_countable uuid_bytes FromBytes _.
Next Obligation. apply FromBytes_uuid. Qed.

(** The nil UUID, and small test identifiers. *)
Program Definition uuid_of_byte (x : byte) : UUID :=
  MkUUID (x :: repeat "000"%byte 15) _.
Next Obligation. done. Qed.
Definition uuid_Nil : UUID := uuid_of_byte "000".

(** [uuid.UUID(s)] for a slice [s]: panics when [s] is too short, takes the
    first sixteen bytes otherwise. *)
Definition UUID_of_slice (b : bytes) : outcome UUID :=
  match FromBytes (take uuid_size b) with Some u => Done u | None => Panic end.

Definition BytesToUUID (b : bytes) : UUID :=
  match FromBytes (take uuid_size (Sum256 b)) with Some u => u | None => uuid_Nil end.

(** The conversion in [BytesToUUID] never panics: a digest has 32 bytes. *)
Lemma BytesToUUID_spec b : UUID_of_slice (Sum256 b) = Done (BytesToUUID b).
Proof.
  unfold UUID_of_slice, BytesToUUID.
  destruct (FromBytes _) eqn:E; [done|]. apply FromBytes_None in E.
  destruct E. by rewrite length_take, length_Sum256.
Qed.

(** ** [ExtractIdFromMessage] *)

Inductive extract_err := ReadId (e : io_err) | ShortId (num : nat) | ConvertId.

Definition ExtractIdFromMessage (reader : bytes) : result extract_err (UUID * bytes) :=
  match reader_Read uuid_size reader with
  | Err e => Err (ReadId e)
  | Ok (idBytes, reader) =>
    if decide (length idBytes ≠ uuid_size) then Err (ShortId (length idBytes)) else
    match FromBytes idBytes with
    | None => Err ConvertId
    | Some id => Ok (id, reader)
    end
  end.

Lemma ExtractIdFromMessage_app u rest :
  ExtractIdFromMessage (uuid_bytes u ++ rest) = Ok (u, rest).
Proof.
  unfold ExtractIdFromMessage, reader_Read. pose proof (uuid_length u) as Hu.
  destruct (uuid_bytes u ++ rest) eqn:E.
  { apply (f_equal length) in E. rewrite length_app, Hu in E. done. }
  rewrite <-E, take_app_length', drop_app_length' by done.
  rewrite decide_False by naive_solver. by rewrite FromBytes_uuid.
Qed.

Lemma ExtractIdFromMessage_Ok r u rest :
  ExtractIdFromMessage r = Ok (u, rest) ↔ r = uuid_bytes u ++ rest.
Proof.
  split; [|intros ->; apply ExtractIdFromMessage_app].
  unfold ExtractIdFromMessage, reader_Read. intros H.
  destruct r as [|x r]; [done|]. case_decide; [done|]. revert H.
  generalize (x :: r). clear x r H0. intros r H.
  destruct (FromBytes _) as [v|] eqn:E; [|done]. injection H as -> <-.
  apply FromBytes_Some in E. by rewrite E, take_drop.
Qed.

(** The conversion error branch is unreachable; the short-message errors are
    exactly the inputs of fewer than sixteen bytes. *)
Lemma ExtractIdFromMessage_Err r :
  (∃ e, ExtractIdFromMessage r = Err e) ↔ (length r < uuid_size)%nat.
Proof.
  split.
  - intros [e He]. destruct (decide (length r < uuid_size)%nat) as [|Hge]; [done|].
    exfalso. destruct (FromBytes (take uuid_size r)) as [u|] eqn:E.
    + apply FromBytes_Some in E.
      rewrite <-(take_drop uuid_size r), <-E, ExtractIdFromMessage_app in He. done.
    + apply FromBytes_None in E. rewrite length_take in E. lia.
  - intros Hlt. destruct (ExtractIdFromMessage r) as [[u rest]|e] eqn:E; [|eauto].
    apply ExtractIdFromMessage_Ok in E. subst. rewrite length_app, uuid_length in Hlt. lia.
Qed.

(** ** Public keys

    [SerializePublicKey] is [x509.MarshalPKIXPublicKey], whose argument type is
    foreign: keys and their encoding are parameters. *)

Section public_keys.
Context {PublicKey : Type} (SerializePublicKey : PublicKey → option bytes).

Definition PkToUUID (pk : PublicKey) : option UUID :=
  BytesToUUID <$> SerializePublicKey pk.
End public_keys.

(** ** Four processes, one faulty: the configuration of the examples *)

Module Example4.
Definition p1 : UUID := uuid_of_byte "001".
Definition p2 : UUID := uuid_of_byte "002".
Definition p3 : UUID := uuid_of_byte "003".
Definition p4 : UUID := uuid_of_byte "004".

Definition mb4 : membership UUID := Membership 4 1 {[p1; p2; p3; p4]} {[p4]}.

#[export] Instance mb4_resilient : Resilient mb4.
Proof.
  split; [vm_compute; reflexivity| |vm_compute; discriminate|vm_compute; reflexivity..].
  unfold mb4. simpl. set_solver.
Qed.
End Example4.

#[export] Hint Resolve uuid_length : bkr.
#[global] Opaque BytesToUUID.
