(* ===== verification/BrbInstance.v ===== *)
(** * Package [byzantineReliableBroadcast]: one broadcast instance

    [instance.go] and [phase1.go] to [phase3.go]: the handler chain of one
    instance of Byzantine reliable broadcast.  The struct [brbData] is shared
    by the handler and the three phases through a pointer; only [brbHandler]
    writes it, so it is stored once, in [brbHandler], and passed to the phases.

    A channel of the instance is the list of the values sent on it so far:
    [echoChan] and [readyChan] are fed by one goroutine per value, [outputChan]
    by the handler itself.  The goroutine [invoker] runs one handler call at a
    time, so an instance is a sequence of handler calls ([brb_run]). *)

From stdpp Require Import base tactics numbers list gmap.
From Stdlib Require Import Init.Byte.
From S2P Require Import Prelude Utils.

Local Open Scope Z_scope.

Record BRBMsg := MkBRBMsg { Content : bytes; Sender : UUID }.

#[export] Instance BRBMsg_eq_dec : EqDecision BRBMsg.
Proof. solve_decision. Defined.

Record brbData := BrbData {
  bd_n : Z;
  bd_f : Z;
  echoes : gmap UUID Z;
  readies : gmap UUID Z;
}.

Record brbPhase3Handler := BrbPhase3 { outputChan : list BRBMsg }.

Record brbPhase2Handler := BrbPhase2 {
  readyChan : list bytes;
  ph2_isFinished : bool;
  ph2_nextPhase : brbPhase3Handler;
}.

Record brbPhase1Handler := BrbPhase1 {
  echoChan : list bytes;
  ph1_isFinished : bool;
  ph1_nextPhase : brbPhase2Handler;
}.

Record brbHandler := BrbHandler {
  data : brbData;
  peersEchoed : gset UUID;
  peersReadied : gset UUID;
  handler : brbPhase1Handler;
}.

Inductive brb_err :=
| NoEchoesPhase1 (id : UUID)
| NoReadiesPhase1 (id : UUID)
| NoEchoesPhase2 (id : UUID)
| NoReadiesPhase2 (id : UUID)
| NoReadiesPhase3
| UnparsableSender
| AlreadyEchoed (sender : UUID)
| AlreadyReadied (sender : UUID).

(** ** Phase 3 *)

(** [msg[:idLen]] and [msg[idLen:]] panic on a message shorter than an id. *)
Definition parseMsg (msg : bytes) : outcome (result brb_err (UUID * bytes)) :=
  if decide (length msg < uuid_size)%nat then Panic else
  match FromBytes (take uuid_size msg) with
  | None => Done (Err UnparsableSender)
  | Some sender => Done (Ok (sender, drop uuid_size msg))
  end.

Definition brbPhase3Handler_handleReady (d : brbData) (msg : bytes) (id : UUID)
    (b : brbPhase3Handler) : outcome (brbPhase3Handler * option brb_err) :=
  match readies d !! id with
  | None => Done (b, Some NoReadiesPhase3)
  | Some numReadies =>
    if numReadies =? uint_sub (bd_n d) (bd_f d) then
      r ← parseMsg msg;
      match r with
      | Err e => Done (b, Some e)
      | Ok (sender, content) =>
        Done (BrbPhase3 (outputChan b ++ [MkBRBMsg content sender]), None)
      end
    else Done (b, None)
  end.

(** ** Phase 2 *)

Definition sendReady (msg : bytes) (b : brbPhase2Handler) : brbPhase2Handler :=
  BrbPhase2 (readyChan b ++ [msg]) (ph2_isFinished b) (ph2_nextPhase b).

Definition ph2_finish (b : brbPhase2Handler) : brbPhase2Handler :=
  BrbPhase2 (readyChan b) true (ph2_nextPhase b).

Definition ph2_in_next (b : brbPhase2Handler)
    (k : brbPhase3Handler → outcome (brbPhase3Handler * option brb_err)) :
    outcome (brbPhase2Handler * option brb_err) :=
  '(p3, e) ← k (ph2_nextPhase b);
  Done (BrbPhase2 (readyChan b) (ph2_isFinished b) p3, e).

Definition brbPhase2Handler_handleEcho (d : brbData) (msg : bytes) (id : UUID)
    (b : brbPhase2Handler) : outcome (brbPhase2Handler * option brb_err) :=
  if ph2_isFinished b then Done (b, None) else
  match echoes d !! id with
  | None => Done (b, Some (NoEchoesPhase2 id))
  | Some numEchoes =>
    if numEchoes =? uint_sub (bd_n d) (bd_f d)
    then Done (sendReady msg (ph2_finish b), None)
    else Done (b, None)
  end.

Definition brbPhase2Handler_handleReady (d : brbData) (msg : bytes) (id : UUID)
    (b : brbPhase2Handler) : outcome (brbPhase2Handler * option brb_err) :=
  if ph2_isFinished b
  then ph2_in_next b (brbPhase3Handler_handleReady d msg id)
  else
  match readies d !! id with
  | None => Done (b, Some (NoReadiesPhase2 id))
  | Some numReadies =>
    if numReadies =? uint_add (bd_f d) 1
    then ph2_in_next (sendReady msg (ph2_finish b)) (brbPhase3Handler_handleReady d msg id)
    else Done (b, None)
  end.

(** ** Phase 1 *)

Definition sendEcho (msg : bytes) (b : brbPhase1Handler) : brbPhase1Handler :=
  BrbPhase1 (echoChan b ++ [msg]) (ph1_isFinished b) (ph1_nextPhase b).

Definition ph1_finish (b : brbPhase1Handler) : brbPhase1Handler :=
  BrbPhase1 (echoChan b) true (ph1_nextPhase b).

Definition ph1_in_next (b : brbPhase1Handler)
    (k : brbPhase2Handler → outcome (brbPhase2Handler * option brb_err)) :
    outcome (brbPhase1Handler * option brb_err) :=
  '(p2, e) ← k (ph1_nextPhase b);
  Done (BrbPhase1 (echoChan b) (ph1_isFinished b) p2, e).

Definition brbPhase1Handler_handleSend (msg : bytes) (sender : UUID)
    (b : brbPhase1Handler) : brbPhase1Handler :=
  if ph1_isFinished b then b
  else sendEcho (uuid_bytes sender ++ msg) (ph1_finish b).

Definition brbPhase1Handler_handleEcho (d : brbData) (msg : bytes) (id : UUID)
    (b : brbPhase1Handler) : outcome (brbPhase1Handler * option brb_err) :=
  if ph1_isFinished b
  then ph1_in_next b (brbPhase2Handler_handleEcho d msg id)
  else
  match echoes d !! id with
  | None => Done (b, Some (NoEchoesPhase1 id))
  | Some numEchoes =>
    if numEchoes =? uint_add (bd_f d) 1
    then ph1_in_next (sendEcho msg (ph1_finish b)) (brbPhase2Handler_handleEcho d msg id)
    else Done (b, None)
  end.

Definition brbPhase1Handler_handleReady (d : brbData) (msg : bytes) (id : UUID)
    (b : brbPhase1Handler) : outcome (brbPhase1Handler * option brb_err) :=
  if ph1_isFinished b
  then ph1_in_next b (brbPhase2Handler_handleReady d msg id)
  else
  match readies d !! id with
  | None => Done (b, Some (NoReadiesPhase1 id))
  | Some numReadies =>
    if numReadies =? uint_add (bd_f d) 1
    then ph1_in_next (sendEcho msg (ph1_finish b)) (brbPhase2Handler_handleReady d msg id)
    else Done (b, None)
  end.

(** ** The instance handler *)

Definition newBrbHandler (n f : Z) : brbHandler :=
  BrbHandler (BrbData n f ∅ ∅) ∅ ∅
    (BrbPhase1 [] false (BrbPhase2 [] false (BrbPhase3 []))).

(** [m[mid]++] on a map of counters. *)
Definition count_incr (mid : UUID) (m : gmap UUID Z) : gmap UUID Z :=
  <[mid := uint_add (default 0 (m !! mid)) 1]> m.

Definition brbHandler_handleSend (msg : bytes) (sender : UUID) (h : brbHandler) :
    outcome (brbHandler * option brb_err) :=
  Done (BrbHandler (data h) (peersEchoed h) (peersReadied h)
          (brbPhase1Handler_handleSend msg sender (handler h)), None).

Definition brbHandler_handleEcho (msg : bytes) (sender : UUID) (h : brbHandler) :
    outcome (brbHandler * option brb_err) :=
  if decide (sender ∈ peersEchoed h) then Done (h, Some (AlreadyEchoed sender)) else
  let mid := BytesToUUID msg in
  let d := BrbData (bd_n (data h)) (bd_f (data h))
             (count_incr mid (echoes (data h))) (readies (data h)) in
  '(p1, err) ← brbPhase1Handler_handleEcho d msg mid (handler h);
  Done (BrbHandler d ({[sender]} ∪ peersEchoed h) (peersReadied h) p1, err).

Definition brbHandler_handleReady (msg : bytes) (sender : UUID) (h : brbHandler) :
    outcome (brbHandler * option brb_err) :=
  if decide (sender ∈ peersReadied h) then Done (h, Some (AlreadyReadied sender)) else
  let mid := BytesToUUID msg in
  let d := BrbData (bd_n (data h)) (bd_f (data h))
             (echoes (data h)) (count_incr mid (readies (data h))) in
  '(p1, err) ← brbPhase1Handler_handleReady d msg mid (handler h);
  Done (BrbHandler d (peersEchoed h) ({[sender]} ∪ peersReadied h) p1, err).

(** ** The executor: [brbInstance] *)

Inductive brb_input :=
| ISend (msg : bytes) (sender : UUID)
| IEcho (msg : bytes) (sender : UUID)
| IReady (msg : bytes) (sender : UUID).

#[export] Instance brb_input_eq_dec : EqDecision brb_input.
Proof. solve_decision. Defined.

(** One command of the executor ([send], [echo], [ready]). *)
Definition brbInstance_exec (i : brb_input) (h : brbHandler) :
    outcome (brbHandler * option brb_err) :=
  match i with
  | ISend msg sender => brbHandler_handleSend msg sender h
  | IEcho msg sender => brbHandler_handleEcho msg sender h
  | IReady msg sender => brbHandler_handleReady msg sender h
  end.

(** [invoker]: the commands one after the other; an error is returned to the
    caller of the command and does not stop the instance. *)
Fixpoint brb_run (ins : list brb_input) (h : brbHandler) : outcome brbHandler :=
  match ins with
  | [] => Done h
  | i :: ins => '(h, _) ← brbInstance_exec i h; brb_run ins h
  end.

Definition echoed (h : brbHandler) : list bytes := echoChan (handler h).
Definition readied (h : brbHandler) : list bytes := readyChan (ph1_nextPhase (handler h)).
Definition delivered (h : brbHandler) : list BRBMsg :=
  outputChan (ph2_nextPhase (ph1_nextPhase (handler h))).
