(* ===== verification/BrbSpec.v ===== *)
(** * One broadcast instance against its specification

    The handlers of [BrbInstance] test their counters for equality with a
    threshold and advance at most one phase per message.  Here an instance is
    specified by what it has received: the first echo and the first ready of
    every sender, counted with [votes].  [brb_spec] says when the echo, the
    ready and the delivery have happened, by inequalities on these counts;
    [brb_run_spec] is the refinement: the code meets the specification after
    any sequence of commands of at most [n] senders. *)

From stdpp Require Import base tactics numbers list gmap.
From Stdlib Require Import Init.Byte.
From S2P Require Import Prelude Utils BrbInstance.

Local Open Scope Z_scope.

(** ** What an instance has received *)

Definition log_add (s : UUID) (m : bytes) (l : gmap UUID bytes) : gmap UUID bytes :=
  match l !! s with Some _ => l | None => <[s := m]> l end.

Definition echoLog_step (l : gmap UUID bytes) (i : brb_input) : gmap UUID bytes :=
  match i with IEcho m s => log_add s m l | _ => l end.
Definition readyLog_step (l : gmap UUID bytes) (i : brb_input) : gmap UUID bytes :=
  match i with IReady m s => log_add s m l | _ => l end.

Definition echoLog (ins : list brb_input) : gmap UUID bytes := foldl echoLog_step ∅ ins.
Definition readyLog (ins : list brb_input) : gmap UUID bytes := foldl readyLog_step ∅ ins.

(** The senders whose message has identifier [mid], and their number. *)
Definition supporters (mid : UUID) (l : gmap UUID bytes) : gset UUID :=
  dom (filter (λ p, BytesToUUID p.2 = mid) l).
Definition votes (mid : UUID) (l : gmap UUID bytes) : Z :=
  Z.of_nat (size (supporters mid l)).
Definition reached (k : Z) (l : gmap UUID bytes) : Prop := ∃ mid, k ≤ votes mid l.

Definition input_sender (i : brb_input) : UUID :=
  match i with ISend _ s | IEcho _ s | IReady _ s => s end.

(** The message a send makes an instance echo. *)
Definition send_echo (s : UUID) (c : bytes) : bytes := uuid_bytes s ++ c.

Lemma elem_of_supporters x mid l :
  x ∈ supporters mid l ↔ ∃ m, l !! x = Some m ∧ BytesToUUID m = mid.
Proof.
  unfold supporters. rewrite elem_of_dom. unfold is_Some.
  setoid_rewrite map_lookup_filter_Some. naive_solver.
Qed.

Lemma supporters_dom mid l : supporters mid l ⊆ dom l.
Proof.
  intros x. rewrite elem_of_supporters, elem_of_dom. unfold is_Some. naive_solver.
Qed.

Lemma supporters_add s m mid l :
  l !! s = None →
  supporters mid (<[s := m]> l) =
  if decide (BytesToUUID m = mid) then {[s]} ∪ supporters mid l else supporters mid l.
Proof.
  intros Hs. apply set_eq. intros x. rewrite elem_of_supporters.
  destruct (decide (s = x)) as [<-|Hsx].
  - rewrite lookup_insert_eq. case_decide; [set_solver|].
    rewrite elem_of_supporters, Hs. split; intros (?&?&?); simplify_eq.
  - rewrite lookup_insert_ne by done. case_decide as Hm.
    + rewrite elem_of_union, elem_of_singleton, elem_of_supporters.
      split; [by right|]. intros [->|]; done.
    + by rewrite elem_of_supporters.
Qed.

Lemma votes_add s m mid l :
  l !! s = None →
  votes mid (<[s := m]> l) =
  if decide (BytesToUUID m = mid) then votes mid l + 1 else votes mid l.
Proof.
  intros Hs. unfold votes. rewrite supporters_add by done. case_decide; [|done].
  rewrite size_add_new; [lia|].
  rewrite elem_of_supporters. intros (?&?&?); simplify_eq.
Qed.

Lemma votes_add_same s m l :
  l !! s = None → votes (BytesToUUID m) (<[s := m]> l) = votes (BytesToUUID m) l + 1.
Proof. intros. by rewrite votes_add, decide_True. Qed.

Lemma votes_nonneg mid l : 0 ≤ votes mid l.
Proof. unfold votes. lia. Qed.

Lemma votes_mono s m mid l :
  l !! s = None → votes mid l ≤ votes mid (<[s := m]> l).
Proof. intros. rewrite votes_add by done. case_decide; lia. Qed.

Lemma votes_le_dom mid l : votes mid l ≤ Z.of_nat (size (dom l)).
Proof. unfold votes. apply Nat2Z.inj_le, subseteq_size, supporters_dom. Qed.

Lemma votes_empty mid : votes mid ∅ = 0.
Proof. unfold votes, supporters. by rewrite map_filter_empty, dom_empty_L, size_empty. Qed.

(** A new vote reaches a threshold exactly when its counter equals it. *)
Lemma reached_add k s m l :
  l !! s = None →
  reached k (<[s := m]> l) ↔ reached k l ∨ votes (BytesToUUID m) l + 1 = k.
Proof.
  intros Hs. unfold reached. split.
  - intros [mid Hk]. rewrite votes_add in Hk by done. case_decide as Hm; [subst|naive_solver].
    destruct (decide (k ≤ votes (BytesToUUID m) l)); [naive_solver|right; lia].
  - intros [[mid Hk]|Hk].
    + exists mid. pose proof (votes_mono s m mid l Hs). lia.
    + exists (BytesToUUID m). rewrite votes_add_same by done. lia.
Qed.

Lemma log_add_new s m l : l !! s = None → log_add s m l = <[s := m]> l.
Proof. intros H. unfold log_add. by rewrite H. Qed.
Lemma log_add_old s m l x : l !! s = Some x → log_add s m l = l.
Proof. intros H. unfold log_add. by rewrite H. Qed.

Lemma log_add_keeps s m l x y : l !! x = Some y → log_add s m l !! x = Some y.
Proof.
  intros Hx. unfold log_add. destruct (l !! s) eqn:E; [done|].
  rewrite lookup_insert_ne; naive_solver.
Qed.

Lemma echoLog_snoc ins i : echoLog (ins ++ [i]) = echoLog_step (echoLog ins) i.
Proof. unfold echoLog. by rewrite foldl_snoc. Qed.
Lemma readyLog_snoc ins i : readyLog (ins ++ [i]) = readyLog_step (readyLog ins) i.
Proof. unfold readyLog. by rewrite foldl_snoc. Qed.

(** ** Closed forms of the handler chain

    [k] is the counter of the message's identifier after the increment. *)

Lemma ph1_echo_eq n f ec rd msg id k eC b1 rC b2 p3 :
  ec !! id = Some k →
  brbPhase1Handler_handleEcho (BrbData n f ec rd) msg id (BrbPhase1 eC b1 (BrbPhase2 rC b2 p3)) =
  let b1' := b1 || (k =? uint_add f 1) in
  let adv := b1' && negb b2 && (k =? uint_sub n f) in
  Done (BrbPhase1 (if b1 then eC else if b1' then eC ++ [msg] else eC) b1'
          (BrbPhase2 (if adv then rC ++ [msg] else rC) (b2 || adv) p3), None).
Proof.
  intros Hk. unfold brbPhase1Handler_handleEcho. simpl. rewrite Hk.
  destruct b1; simpl.
  - unfold brbPhase2Handler_handleEcho. simpl. rewrite Hk.
    destruct b2; simpl; [done|]. by destruct (_ =? _).
  - destruct (k =? uint_add f 1); simpl; [|by rewrite orb_false_r].
    unfold brbPhase2Handler_handleEcho. simpl. rewrite Hk.
    destruct b2; simpl; [done|]. by destruct (_ =? _).
Qed.

Definition ph3_ready (n f k : Z) (msg : bytes) (p3 : brbPhase3Handler) :
    outcome (brbPhase3Handler * option brb_err) :=
  if k =? uint_sub n f then
    r ← parseMsg msg;
    match r with
    | Err e => Done (p3, Some e)
    | Ok (s, c) => Done (BrbPhase3 (outputChan p3 ++ [MkBRBMsg c s]), None)
    end
  else Done (p3, None).

Lemma ph1_ready_eq n f ec rd msg id k eC b1 rC b2 p3 :
  rd !! id = Some k →
  brbPhase1Handler_handleReady (BrbData n f ec rd) msg id (BrbPhase1 eC b1 (BrbPhase2 rC b2 p3)) =
  let b1' := b1 || (k =? uint_add f 1) in
  let b2' := b2 || (b1' && (k =? uint_add f 1)) in
  '(p3', e) ← (if b1' && b2' then ph3_ready n f k msg p3 else Done (p3, None));
  Done (BrbPhase1 (if b1 then eC else if b1' then eC ++ [msg] else eC) b1'
          (BrbPhase2 (if b2 then rC else if b2' then rC ++ [msg] else rC) b2' p3'), e).
Proof.
  intros Hk. unfold brbPhase1Handler_handleReady. simpl. rewrite Hk.
  assert (H3 : brbPhase3Handler_handleReady (BrbData n f ec rd) msg id p3 = ph3_ready n f k msg p3).
  { unfold brbPhase3Handler_handleReady. simpl. by rewrite Hk. }
  destruct b1; simpl.
  - unfold ph1_in_next, brbPhase2Handler_handleReady, ph2_in_next. simpl. rewrite Hk, H3.
    destruct b2; simpl; [by destruct (ph3_ready _ _ _ _ _) as [[??]| |]|].
    destruct (k =? _); simpl; [|done]. by destruct (ph3_ready _ _ _ _ _) as [[??]| |].
  - destruct (k =? uint_add f 1) eqn:E; simpl; [|by rewrite orb_false_r; destruct b2].
    unfold ph1_in_next, brbPhase2Handler_handleReady, ph2_in_next. simpl. rewrite Hk, E, H3.
    rewrite orb_true_r.
    destruct b2; simpl; by destruct (ph3_ready _ _ _ _ _) as [[??]| |].
Qed.

Lemma parseMsg_Done msg r :
  parseMsg msg = Done r → ∃ s c, r = Ok (s, c) ∧ msg = send_echo s c.
Proof.
  unfold parseMsg, send_echo. case_decide as Hl; [done|].
  destruct (FromBytes _) as [s|] eqn:E; intros [= <-].
  - apply FromBytes_Some in E. exists s, (drop uuid_size msg).
    by rewrite E, take_drop.
  - apply FromBytes_None in E. rewrite length_take in E. lia.
Qed.

Lemma parseMsg_send_echo s c : parseMsg (send_echo s c) = Done (Ok (s, c)).
Proof.
  unfold parseMsg, send_echo. rewrite decide_False by (rewrite length_app, uuid_length; lia).
  rewrite take_app_length', drop_app_length' by (by rewrite uuid_length).
  by rewrite FromBytes_uuid.
Qed.

(** ** The specification *)

Definition count_of (v : Z) : option Z := if decide (v = 0) then None else Some v.

Definition has_send (ins : list brb_input) : Prop := ∃ c s, ISend c s ∈ ins.

(** [mid m] has [k] votes in [l], and [m] itself is one of the messages. *)
Definition backed (k : Z) (m : bytes) (l : gmap UUID bytes) : Prop :=
  (∃ s, l !! s = Some m) ∧ k ≤ votes (BytesToUUID m) l.

Record brb_spec (mb : membership UUID) (ins : list brb_input) (h : brbHandler) : Prop := {
  sp_n : bd_n (data h) = mb_n mb;
  sp_f : bd_f (data h) = mb_f mb;
  sp_peersE : peersEchoed h = dom (echoLog ins);
  sp_peersR : peersReadied h = dom (readyLog ins);
  sp_echoes : ∀ mid, echoes (data h) !! mid = count_of (votes mid (echoLog ins));
  sp_readies : ∀ mid, readies (data h) !! mid = count_of (votes mid (readyLog ins));
  sp_ph1 : ph1_isFinished (handler h) = true ↔
    has_send ins ∨ reached (mb_f mb + 1) (echoLog ins) ∨ reached (mb_f mb + 1) (readyLog ins);
  sp_ph2 : ph2_isFinished (ph1_nextPhase (handler h)) = true ↔
    reached (mb_n mb - mb_f mb) (echoLog ins) ∨ reached (mb_f mb + 1) (readyLog ins);
  sp_echoed : length (echoed h) = (if ph1_isFinished (handler h) then 1 else 0)%nat;
  sp_readied : length (readied h) =
    (if ph2_isFinished (ph1_nextPhase (handler h)) then 1 else 0)%nat;
  sp_delivered : (0 < length (delivered h))%nat ↔
    reached (mb_n mb - mb_f mb) (readyLog ins);
  sp_once : (length (delivered h) ≤ 1)%nat;
  sp_echo_src : ∀ m, m ∈ echoed h →
    (∃ c s, ISend c s ∈ ins ∧ m = send_echo s c) ∨
    backed (mb_f mb + 1) m (echoLog ins) ∨ backed (mb_f mb + 1) m (readyLog ins);
  sp_ready_src : ∀ m, m ∈ readied h →
    backed (mb_n mb - mb_f mb) m (echoLog ins) ∨ backed (mb_f mb + 1) m (readyLog ins);
  sp_out_src : ∀ o, o ∈ delivered h →
    backed (mb_n mb - mb_f mb) (send_echo (Sender o) (Content o)) (readyLog ins);
}.

Section refinement.
Context (mb : membership UUID) `{!Resilient mb}.
Implicit Types (ins : list brb_input) (h : brbHandler) (l : gmap UUID bytes).

#[local] Abbreviation n := (mb_n mb).
#[local] Abbreviation f := (mb_f mb).

Definition from_peers (ins : list brb_input) : Prop :=
  Forall (λ i, match i with ISend _ _ => True | IEcho _ s | IReady _ s => s ∈ peers mb end) ins.

Lemma log_dom_snoc ins i :
  from_peers (ins ++ [i]) →
  dom (echoLog ins) ⊆ peers mb → dom (readyLog ins) ⊆ peers mb →
  dom (echoLog (ins ++ [i])) ⊆ peers mb ∧ dom (readyLog (ins ++ [i])) ⊆ peers mb.
Proof.
  unfold from_peers. rewrite Forall_app, Forall_singleton. intros [_ Hi] HE HR.
  rewrite echoLog_snoc, readyLog_snoc. destruct i as [m s|m s|m s]; simpl in *.
  - done.
  - split; [|done]. unfold log_add. case_match; [done|]. rewrite dom_insert_L. set_solver.
  - split; [done|]. unfold log_add. case_match; [done|]. rewrite dom_insert_L. set_solver.
Qed.

Lemma log_dom ins :
  from_peers ins → dom (echoLog ins) ⊆ peers mb ∧ dom (readyLog ins) ⊆ peers mb.
Proof.
  induction ins as [|i ins IH] using rev_ind; intros Hp.
  - unfold echoLog, readyLog. simpl. rewrite dom_empty_L. set_solver.
  - assert (from_peers ins) as Hp' by (unfold from_peers in *; rewrite Forall_app in Hp; tauto).
    destruct (IH Hp'). by apply log_dom_snoc.
Qed.

(** Counters never overflow: a log has at most [n] entries. *)
Lemma votes_bound mid l : dom l ⊆ peers mb → votes mid l ≤ n.
Proof.
  intros Hd. pose proof (votes_le_dom mid l). destruct Resilient0 as [? ? ? ? ?].
  apply subseteq_size in Hd. lia.
Qed.

Lemma count_incr_spec mid (c : gmap UUID Z) s msg l :
  dom l ⊆ peers mb → l !! s = None →
  (∀ mid, c !! mid = count_of (votes mid l)) →
  count_incr (BytesToUUID msg) c !! BytesToUUID msg = Some (votes (BytesToUUID msg) l + 1) ∧
  count_incr (BytesToUUID msg) c !! mid = count_of (votes mid (<[s := msg]> l)).
Proof.
  intros Hd Hs Hc. unfold count_incr. rewrite Hc.
  assert (default 0 (count_of (votes (BytesToUUID msg) l)) = votes (BytesToUUID msg) l) as ->.
  { unfold count_of. case_decide; simpl; lia. }
  pose proof (votes_bound (BytesToUUID msg) l Hd). pose proof (votes_nonneg (BytesToUUID msg) l).
  destruct (rs_arith mb) as (? & ? & ? & _).
  rewrite uint_add_small by lia. split; [by rewrite lookup_insert_eq|].
  rewrite votes_add by done. case_decide as Hm.
  - subst mid. rewrite lookup_insert_eq. unfold count_of. by rewrite decide_False by lia.
  - by rewrite lookup_insert_ne, Hc.
Qed.

Lemma backed_add k m s msg l :
  l !! s = None → backed k m l → backed k m (<[s := msg]> l).
Proof.
  intros Hs [[x Hx] Hk]. split.
  - exists x. rewrite lookup_insert_ne; naive_solver.
  - pose proof (votes_mono s msg (BytesToUUID m) l Hs). lia.
Qed.

Lemma backed_new k s msg l :
  l !! s = None → votes (BytesToUUID msg) l + 1 = k → backed k msg (<[s := msg]> l).
Proof.
  intros Hs Hk. split.
  - exists s. by rewrite lookup_insert_eq.
  - rewrite votes_add_same by done. lia.
Qed.

(** At most one identifier gets [n - f] votes. *)
Lemma quorum_unique mid mid' l :
  dom l ⊆ peers mb → n - f ≤ votes mid l → n - f ≤ votes mid' l → mid = mid'.
Proof.
  intros Hd H1 H2. pose proof (supporters_dom mid l). pose proof (supporters_dom mid' l).
  destruct (quorum_intersection mb (supporters mid l) (supporters mid' l))
    as (x & Hx & Hx' & _); [set_solver..|done|done|].
  apply elem_of_supporters in Hx, Hx'. naive_solver.
Qed.

Lemma brb_spec_init : brb_spec mb [] (newBrbHandler n f).
Proof.
  assert (∀ k, 0 < k → ¬ reached k (∅ : gmap UUID bytes)) as Hno.
  { intros k Hk [mid Hm]. rewrite votes_empty in Hm. lia. }
  destruct (rs_arith mb) as (? & ? & _).
  split; simpl; unfold echoLog, readyLog, has_send; simpl; rewrite ?dom_empty_L; try done.
  - split; [done|]. intros [(?&?&?%not_elem_of_nil)|[?%Hno|?%Hno]]; [done|lia..].
  - split; [done|]. intros [?%Hno|?%Hno]; lia.
  - split; [lia|]. intros ?%Hno; lia.
  - lia.
  - intros m ?%not_elem_of_nil. done.
  - intros m ?%not_elem_of_nil. done.
  - intros m ?%not_elem_of_nil. done.
Qed.

Lemma has_send_snoc ins i :
  has_send (ins ++ [i]) ↔ has_send ins ∨ ∃ c s, i = ISend c s.
Proof.
  unfold has_send. setoid_rewrite elem_of_app. setoid_rewrite list_elem_of_singleton.
  naive_solver.
Qed.

Lemma send_src_snoc ins i m :
  (∃ c s, ISend c s ∈ ins ∧ m = send_echo s c) →
  ∃ c s, ISend c s ∈ ins ++ [i] ∧ m = send_echo s c.
Proof. intros (c & s & ? & ?). exists c, s. rewrite elem_of_app. naive_solver. Qed.

Lemma handleSend_spec ins h c s h' e :
  brb_spec mb ins h →
  brbHandler_handleSend c s h = Done (h', e) →
  brb_spec mb (ins ++ [ISend c s]) h'.
Proof.
  intros Hsp [= <- <-]. destruct h as [d pE pR [eC b1 p2]].
  unfold brbPhase1Handler_handleSend, sendEcho, ph1_finish. cbn [handler ph1_isFinished].
  destruct Hsp; unfold echoed, readied, delivered in *; simpl in *.
  split; unfold echoed, readied, delivered; rewrite ?echoLog_snoc, ?readyLog_snoc; simpl;
    try (by destruct b1).
  - rewrite has_send_snoc. destruct b1; simpl; [|naive_solver].
    split; [|done]. intros _. apply proj1 in sp_ph3. naive_solver.
  - destruct b1; simpl in *; [done|]. rewrite length_app. simpl. lia.
  - intros m. destruct b1; simpl.
    + intros Hm. destruct (sp_echo_src0 m Hm) as [?|?]; [left; by apply send_src_snoc|by right].
    + rewrite elem_of_app, list_elem_of_singleton. intros [Hm| ->].
      * destruct (sp_echo_src0 m Hm) as [?|?]; [left; by apply send_src_snoc|by right].
      * left. exists c, s. by rewrite elem_of_app, list_elem_of_singleton; auto.
Qed.

(** A message that neither log takes changes nothing. *)
Lemma spec_same ins i h :
  brb_spec mb ins h → echoLog (ins ++ [i]) = echoLog ins → readyLog (ins ++ [i]) = readyLog ins →
  (∀ c s, i ≠ ISend c s) → brb_spec mb (ins ++ [i]) h.
Proof.
  intros [] HE HR Hi. split; rewrite ?HE, ?HR; try done.
  - rewrite has_send_snoc. naive_solver.
  - intros m Hm. destruct (sp_echo_src0 m Hm); [left; by apply send_src_snoc|by right].
Qed.

(** The broadcast of a phase: [b] tells that it was done, [a] that it is now. *)
Definition pushed {A} (b a : bool) (l : list A) (x : A) : list A :=
  if b then l else if a then l ++ [x] else l.

Lemma elem_of_pushed {A} (b a : bool) (l : list A) x y :
  y ∈ pushed b a l x → y ∈ l ∨ (y = x ∧ b = false ∧ a = true).
Proof.
  unfold pushed. destruct b; [by left|]. destruct a; [|by left].
  rewrite elem_of_app, list_elem_of_singleton. naive_solver.
Qed.

Lemma length_pushed {A} (b a : bool) (l : list A) x :
  length l = (if b then 1 else 0)%nat → length (pushed b (b || a) l x) = (if b || a then 1 else 0)%nat.
Proof. unfold pushed. destruct b, a; simpl; try done. intros Hl. by rewrite length_app, Hl. Qed.

Lemma handleEcho_spec ins h m s h' e :
  from_peers ins → brb_spec mb ins h →
  brbHandler_handleEcho m s h = Done (h', e) →
  brb_spec mb (ins ++ [IEcho m s]) h'.
Proof.
  intros Hp Hsp. destruct (log_dom ins Hp) as [HdE _].
  unfold brbHandler_handleEcho. case_decide as Hs.
  { (* the sender already echoed *)
    intros [= <- <-]. rewrite (sp_peersE _ _ _ Hsp) in Hs. apply elem_of_dom in Hs as [x Hx].
    apply spec_same; [done| |by rewrite readyLog_snoc|done].
    rewrite echoLog_snoc. simpl. by rewrite (log_add_old _ _ _ _ Hx). }
  destruct h as [[n' f' ec rd] pE pR [eC b1 [rC b2 [out]]]]. simpl in *.
  destruct Hsp; unfold echoed, readied, delivered in *; simpl in *. subst n' f' pE pR.
  apply not_elem_of_dom in Hs.
  pose proof (λ mid, count_incr_spec mid ec s m (echoLog ins) HdE Hs sp_echoes0) as Hc.
  destruct (rs_arith mb) as (? & ? & ? & Hf1 & Hnf & _).
  set (k := votes (BytesToUUID m) (echoLog ins)) in *.
  erewrite ph1_echo_eq by apply (Hc (BytesToUUID m)). rewrite Hf1, Hnf.
  intros [= <- <-].
  assert (HE : echoLog (ins ++ [IEcho m s]) = <[s := m]> (echoLog ins))
    by (rewrite echoLog_snoc; simpl; by rewrite log_add_new).
  assert (HR : readyLog (ins ++ [IEcho m s]) = readyLog ins) by by rewrite readyLog_snoc.
  assert (Hph1 : b1 = false → k + 1 ≠ f + 1 → k + 1 ≠ n - f).
  { intros -> Hne Heq. enough (false = true) by done. apply sp_ph3. right. left.
    exists (BytesToUUID m). fold k. lia. }
  split; unfold echoed, readied, delivered; simpl; rewrite ?HE, ?HR; try done.
  - by rewrite dom_insert_L.
  - intros mid. apply (Hc mid).
  - rewrite has_send_snoc, reached_add by done. fold k.
    rewrite orb_true_iff, Z.eqb_eq, sp_ph3.
    assert (¬ ∃ c s', IEcho m s = ISend c s') by naive_solver. tauto.
  - rewrite reached_add by done. fold k. destruct b2; simpl; [tauto|].
    rewrite andb_true_r, andb_true_iff, orb_true_iff, !Z.eqb_eq.
    split; [tauto|]. intros Hor. assert (k + 1 = n - f) as Hk
      by (destruct Hor as [[?| ]|?]; [|done|]; by assert (false = true) by tauto).
    split; [|done]. destruct b1; [by left|right].
    destruct (decide (k + 1 = f + 1)); [done|]. by destruct Hph1.
  - destruct b1; [done|]. simpl. destruct (_ =? _); [|done]. rewrite length_app. simpl in *. lia.
  - destruct b2; simpl; [by rewrite andb_false_r|]. rewrite andb_true_r.
    destruct (_ && _); [|done]. rewrite length_app. simpl in *. lia.
  - intros m' Hm'. assert (m' ∈ eC ∨ m' = m ∧ k + 1 = f + 1) as [Hin|[-> Hk]].
    { destruct b1; [by left|]. simpl in Hm'. destruct (Z.eqb_spec (k + 1) (f + 1)); [|by left].
      rewrite elem_of_app, list_elem_of_singleton in Hm'. naive_solver. }
    + destruct (sp_echo_src0 m' Hin) as [?|[?|?]]; [left; by apply send_src_snoc| |by auto].
      right. left. by apply backed_add.
    + right. left. by apply backed_new.
  - intros m' Hm'. assert (m' ∈ rC ∨ m' = m ∧ k + 1 = n - f) as [Hin|[-> Hk]].
    { destruct (_ && _) eqn:E; [|by left]. apply andb_true_iff in E as [_ E].
      rewrite Z.eqb_eq in E. rewrite elem_of_app, list_elem_of_singleton in Hm'. naive_solver. }
    + destruct (sp_ready_src0 m' Hin) as [?|?]; [left; by apply backed_add|by right].
    + left. by apply backed_new.
Qed.

(** Phase 3 on a spec-conforming output list: a delivery happens exactly on
    the vote that completes a quorum, and only once. *)
Lemma ph3_ready_spec (k : Z) m s out p3' e l :
  dom (<[s := m]> l) ⊆ peers mb → l !! s = None → k = votes (BytesToUUID m) l + 1 →
  ((0 < length out)%nat ↔ reached (n - f) l) → (length out ≤ 1)%nat →
  (∀ o, o ∈ out → backed (n - f) (send_echo (Sender o) (Content o)) l) →
  ph3_ready n f k m (BrbPhase3 out) = Done (p3', e) →
  ((0 < length (outputChan p3'))%nat ↔ reached (n - f) (<[s := m]> l)) ∧
  (length (outputChan p3') ≤ 1)%nat ∧
  (∀ o, o ∈ outputChan p3' →
     backed (n - f) (send_echo (Sender o) (Content o)) (<[s := m]> l)).
Proof.
  intros Hd Hs -> Hlen Hone Hsrc. unfold ph3_ready.
  destruct (rs_arith mb) as (? & ? & ? & Hf1 & Hnf & _). rewrite Hnf.
  rewrite reached_add by done.
  destruct (Z.eqb_spec (votes (BytesToUUID m) l + 1) (n - f)) as [Hk|Hk].
  - destruct (parseMsg m) as [r| |] eqn:Hr; simpl; [|done..].
    apply parseMsg_Done in Hr as (s' & c & -> & Hm). intros [= <- <-]. simpl.
    assert (out = []) as ->.
    { destruct out as [|o out]; [done|]. exfalso.
      destruct (Hsrc o ltac:(set_solver)) as [_ Ho].
      assert (dom l ⊆ peers mb) as Hd' by (rewrite dom_insert_L in Hd; set_solver).
      set (mo := BytesToUUID (send_echo (Sender o) (Content o))) in *.
      pose proof (votes_mono s m mo l Hs).
      assert (mo = BytesToUUID m) as Hmo.
      { apply (quorum_unique _ _ (<[s := m]> l)); [done|lia|].
        rewrite votes_add_same by done. lia. }
      rewrite Hmo in Ho. lia. }
    simpl. split; [split; [by right|lia]|]. split; [lia|].
    intros o [->|?%not_elem_of_nil]%elem_of_cons; [|done]. simpl.
    rewrite <-Hm. by apply backed_new.
  - intros [= <- <-]. simpl. split; [tauto|]. split; [done|].
    intros o Ho. by apply backed_add, Hsrc.
Qed.

(** The delivery of a ready: when the message did not get to phase 3, no quorum
    of readies was reached. *)
Lemma ready_delivers (go : bool) m s out p3' e l :
  dom (<[s := m]> l) ⊆ peers mb → l !! s = None →
  ((0 < length out)%nat ↔ reached (n - f) l) → (length out ≤ 1)%nat →
  (∀ o, o ∈ out → backed (n - f) (send_echo (Sender o) (Content o)) l) →
  (reached (f + 1) (<[s := m]> l) → go = true) →
  (if go then ph3_ready n f (votes (BytesToUUID m) l + 1) m (BrbPhase3 out)
   else Done (BrbPhase3 out, None)) = Done (p3', e) →
  ((0 < length (outputChan p3'))%nat ↔ reached (n - f) (<[s := m]> l)) ∧
  (length (outputChan p3') ≤ 1)%nat ∧
  (∀ o, o ∈ outputChan p3' →
     backed (n - f) (send_echo (Sender o) (Content o)) (<[s := m]> l)).
Proof.
  intros Hd Hs Hlen Hone Hsrc Hgo H3. destruct go; [by eapply ph3_ready_spec|].
  injection H3 as <- <-. simpl. split_and!; [|done|].
  - rewrite reached_add, Hlen by done. split; [tauto|]. intros [?|Hk]; [done|].
    pose proof (rs_arith mb). enough (false = true) by done. apply Hgo.
    exists (BytesToUUID m). rewrite votes_add_same by done. lia.
  - intros o Ho. by apply backed_add, Hsrc.
Qed.

Lemma handleReady_spec ins h m s h' e :
  from_peers (ins ++ [IReady m s]) → brb_spec mb ins h →
  brbHandler_handleReady m s h = Done (h', e) →
  brb_spec mb (ins ++ [IReady m s]) h'.
Proof.
  intros Hp' Hsp. assert (from_peers ins) as Hp by (unfold from_peers in *; rewrite Forall_app in Hp'; tauto).
  destruct (log_dom ins Hp) as [HdE HdR]. destruct (log_dom _ Hp') as [_ HdR'].
  unfold brbHandler_handleReady. case_decide as Hs.
  { intros [= <- <-]. rewrite (sp_peersR _ _ _ Hsp) in Hs. apply elem_of_dom in Hs as [x Hx].
    apply spec_same; [done|by rewrite echoLog_snoc| |done].
    rewrite readyLog_snoc. simpl. by rewrite (log_add_old _ _ _ _ Hx). }
  destruct h as [[n' f' ec rd] pE pR [eC b1 [rC b2 [out]]]]. simpl in *.
  destruct Hsp; unfold echoed, readied, delivered in *; simpl in *. subst n' f' pE pR.
  apply not_elem_of_dom in Hs.
  pose proof (λ mid, count_incr_spec mid rd s m (readyLog ins) HdR Hs sp_readies0) as Hc.
  destruct (rs_arith mb) as (? & ? & ? & Hf1 & Hnf & _).
  set (k := votes (BytesToUUID m) (readyLog ins)) in *.
  assert (HE : echoLog (ins ++ [IReady m s]) = echoLog ins) by by rewrite echoLog_snoc.
  assert (HR : readyLog (ins ++ [IReady m s]) = <[s := m]> (readyLog ins))
    by (rewrite readyLog_snoc; simpl; by rewrite log_add_new).
  rewrite HR in HdR'.
  erewrite ph1_ready_eq by apply (Hc (BytesToUUID m)). rewrite Hf1.
  set (b1' := b1 || (k + 1 =? f + 1)). set (b2' := b2 || (b1' && (k + 1 =? f + 1))).
  assert (Hb1 : b1' = true ↔
    has_send ins ∨ reached (f + 1) (echoLog ins) ∨ reached (f + 1) (<[s:=m]> (readyLog ins))).
  { subst b1'. rewrite reached_add by done. fold k. rewrite orb_true_iff, Z.eqb_eq. tauto. }
  assert (Hb2 : b2' = true ↔
    reached (n - f) (echoLog ins) ∨ reached (f + 1) (<[s:=m]> (readyLog ins))).
  { subst b2' b1'. rewrite reached_add by done. fold k.
    rewrite orb_true_iff, andb_true_iff, orb_true_iff, Z.eqb_eq. tauto. }
  intros Heq.
  cbv zeta in Heq. fold b2' in Heq.
  destruct (if b1' && b2' then ph3_ready n f (k + 1) m (BrbPhase3 out)
            else Done (BrbPhase3 out, None)) as [[p3' e']| |] eqn:H3; simpl in Heq; [|done..].
  injection Heq as <- <-.
  destruct (ready_delivers (b1' && b2') m s out p3' e' (readyLog ins)) as (? & ? & ?); [done..| |done|].
  { intros Hq. by rewrite (proj2 Hb1), (proj2 Hb2) by auto. }
  fold (pushed b1 b1' eC m) (pushed b2 b2' rC m).
  split; unfold echoed, readied, delivered; simpl; rewrite ?HE, ?HR; try done.
  - by rewrite dom_insert_L.
  - intros mid. apply (Hc mid).
  - rewrite has_send_snoc, Hb1.
    assert (¬ ∃ c s', IReady m s = ISend c s') by naive_solver. tauto.
  - by apply length_pushed.
  - by apply length_pushed.
  - intros m' [Hin|(-> & Hb & Hb')]%elem_of_pushed.
    + destruct (sp_echo_src0 m' Hin) as [?|[?|?]]; [left; by apply send_src_snoc|by auto|].
      right. right. by apply backed_add.
    + right. right. subst b1' b1. apply Z.eqb_eq in Hb'. by apply backed_new.
  - intros m' [Hin|(-> & Hb & Hb')]%elem_of_pushed.
    + destruct (sp_ready_src0 m' Hin) as [?|?]; [by left|right; by apply backed_add].
    + right. subst b2' b2. apply andb_true_iff in Hb' as [_ Hb'%Z.eqb_eq]. by apply backed_new.
Qed.

Lemma brbInstance_exec_spec ins h i h' e :
  from_peers (ins ++ [i]) → brb_spec mb ins h →
  brbInstance_exec i h = Done (h', e) → brb_spec mb (ins ++ [i]) h'.
Proof.
  intros Hp. assert (from_peers ins) by (unfold from_peers in *; rewrite Forall_app in Hp; tauto).
  destruct i; simpl; [apply handleSend_spec|by apply handleEcho_spec|by apply handleReady_spec].
Qed.

(** The only panic of an instance is [parseMsg] on the message that
    completes a ready quorum. *)
Lemma brbInstance_exec_returns ins h i :
  from_peers ins → brb_spec mb ins h →
  (∀ m s, i = IReady m s → readyLog ins !! s = None →
     votes (BytesToUUID m) (readyLog ins) + 1 = n - f → (uuid_size ≤ length m)%nat) →
  returns (brbInstance_exec i h).
Proof.
  intros Hp Hsp Hlen. destruct (log_dom ins Hp) as [HdE HdR].
  destruct h as [[n' f' ec rd] pE pR [eC b1 [rC b2 [out]]]].
  destruct Hsp; unfold echoed, readied, delivered in *; simpl in *. subst n' f' pE pR.
  destruct i as [m s|m s|m s]; simpl.
  - by eexists.
  - unfold brbHandler_handleEcho. simpl. case_decide as Hs; [by eexists|].
    apply not_elem_of_dom in Hs.
    destruct (count_incr_spec (BytesToUUID m) ec s m (echoLog ins) HdE Hs sp_echoes0) as [Hc _].
    erewrite ph1_echo_eq by exact Hc. by eexists.
  - unfold brbHandler_handleReady. simpl. case_decide as Hs; [by eexists|].
    apply not_elem_of_dom in Hs.
    destruct (count_incr_spec (BytesToUUID m) rd s m (readyLog ins) HdR Hs sp_readies0) as [Hc _].
    erewrite ph1_ready_eq by exact Hc. cbv zeta.
    destruct (rs_arith mb) as (_ & _ & _ & _ & Hnf & _).
    assert (returns (ph3_ready n f (votes (BytesToUUID m) (readyLog ins) + 1) m (BrbPhase3 out)))
      as [[p3' e] ->].
    { unfold ph3_ready. rewrite Hnf.
      destruct (Z.eqb_spec (votes (BytesToUUID m) (readyLog ins) + 1) (n - f)) as [Hk|];
        [|by eexists].
      unfold parseMsg. rewrite decide_False by (specialize (Hlen m s eq_refl Hs Hk); lia).
      destruct (FromBytes _); by eexists. }
    match goal with |- context [if ?c then Done (p3', e) else _] => destruct c end; by eexists.
Qed.

Lemma brb_run_snoc ins i h :
  brb_run (ins ++ [i]) h = h ← brb_run ins h; '(h, _) ← brbInstance_exec i h; Done h.
Proof.
  revert h. induction ins as [|j ins IH]; intros h; simpl.
  - by destruct (brbInstance_exec i h) as [[??]| |].
  - destruct (brbInstance_exec j h) as [[h' ?]| |]; simpl; [apply IH|done..].
Qed.

Lemma brb_run_snoc_inv ins i h h' :
  brb_run (ins ++ [i]) h = Done h' →
  ∃ h0 e, brb_run ins h = Done h0 ∧ brbInstance_exec i h0 = Done (h', e).
Proof.
  rewrite brb_run_snoc. destruct (brb_run ins h) as [h0| |]; simpl; [|done..].
  destruct (brbInstance_exec i h0) as [[h1 e]| |] eqn:E; simpl; [|done..].
  intros [= <-]. eauto.
Qed.

(** The specification holds after every sequence of commands. *)
Lemma brb_run_meets_spec ins h :
  from_peers ins → brb_run ins (newBrbHandler n f) = Done h → brb_spec mb ins h.
Proof.
  revert h. induction ins as [|i ins IH] using rev_ind; intros h Hp Hrun.
  - injection Hrun as <-. apply brb_spec_init.
  - apply brb_run_snoc_inv in Hrun as (h0 & e & Hrun & Hex).
    eapply brbInstance_exec_spec; [done| |done].
    apply IH; [|done]. unfold from_peers in *. rewrite Forall_app in Hp. tauto.
Qed.
End refinement.

(** C14: refinement of one instance.  After any sequence of commands from at
    most [n] senders, the equality tests of the three phases have had the
    effect of the thresholds of the protocol: an echo was sent iff a send was
    received or [f + 1] echoes or readies agree, a ready iff [n - f] echoes or
    [f + 1] readies agree, a delivery iff [n - f] readies agree; each at most
    once, and the counters are exact. *)
Theorem brb_refines_spec (mb : membership UUID) `{!Resilient mb} ins h :
  from_peers mb ins → brb_run ins (newBrbHandler (mb_n mb) (mb_f mb)) = Done h →
  brb_spec mb ins h.
Proof. intros. by apply brb_run_meets_spec. Qed.

Import Example4.

Definition spec_inputs : list brb_input :=
  [IEcho ["042"]%byte p2; IEcho ["042"]%byte p3; IReady ["042"]%byte p4].

Definition spec_state : brbHandler :=
  done_or (newBrbHandler 4 1) (brb_run spec_inputs (newBrbHandler 4 1)).

Lemma brb_refines_spec_witness :
  bool_decide (echoed spec_state = [["042"]%byte]) = true ∧ brb_spec mb4 spec_inputs spec_state.
Proof.
  split; [vm_compute; reflexivity|].
  apply (brb_refines_spec mb4).
  - unfold from_peers, spec_inputs. repeat (apply Forall_cons; split; [simpl; set_solver|]).
    by apply Forall_nil.
  - apply done_or_eq. vm_compute. reflexivity.
Defined.

#[export] Hint Resolve backed_add : bkr.
