(* ===== verification/BrbNetwork.v ===== *)
(** * Byzantine reliable broadcast among [n] processes

    One broadcast instance at every correct process, running the code of
    [BrbInstance], over a network that delivers messages in any order.  A
    configuration is the sequence of commands each correct process has
    executed; the messages of a correct process are those its instance has put
    on [echoChan] and [readyChan], a faulty process sends anything.  Echoes and
    readies carry only a hash of the message to the counters, so the theorems
    assume that the (finitely many) messages of the run do not collide. *)

From stdpp Require Import base tactics numbers list gmap functions relations.
From Stdlib Require Import Init.Byte.
From S2P Require Import Prelude Utils BrbInstance BrbSpec.

Local Open Scope Z_scope.

Definition collision_free (msgs : list bytes) : Prop :=
  ∀ a b, a ∈ msgs → b ∈ msgs → BytesToUUID a = BytesToUUID b → a = b.

(** A configuration: the commands executed by each process so far. *)
Abbreviation brb_config := (UUID → list brb_input).

Section network.
Context (mb : membership UUID) (msgs : list bytes) (sends : list (UUID * bytes)).

#[local] Abbreviation n := (mb_n mb).
#[local] Abbreviation f := (mb_f mb).

Definition correct (j : UUID) : Prop := j ∈ peers mb ∧ j ∉ faulty mb.

Definition instance_of (H : brb_config) (j : UUID) : outcome brbHandler :=
  brb_run (H j) (newBrbHandler n f).

Definition Echoes (H : brb_config) (j : UUID) (m : bytes) : Prop :=
  ∃ h, instance_of H j = Done h ∧ m ∈ echoed h.
Definition Readies (H : brb_config) (j : UUID) (m : bytes) : Prop :=
  ∃ h, instance_of H j = Done h ∧ m ∈ readied h.
Definition Delivers (H : brb_config) (j : UUID) (o : BRBMsg) : Prop :=
  ∃ h, instance_of H j = Done h ∧ o ∈ delivered h.

(** The messages that can reach a process: of a correct sender only what it
    has sent; [sends] are the broadcasts of this instance. *)
Definition in_network (H : brb_config) (i : brb_input) : Prop :=
  match i with
  | ISend c s => (s, c) ∈ sends ∧ send_echo s c ∈ msgs
  | IEcho m s => s ∈ peers mb ∧ m ∈ msgs ∧ (s ∈ faulty mb ∨ Echoes H s m)
  | IReady m s => s ∈ peers mb ∧ m ∈ msgs ∧ (s ∈ faulty mb ∨ Readies H s m)
  end.

Inductive net_step (H : brb_config) : brb_config → Prop :=
| net_deliver j i :
    correct j → in_network H i → net_step H (<[j := H j ++ [i]]> H).

Definition net_init : brb_config := λ _, [].
Definition net_reachable (H : brb_config) : Prop := rtc net_step net_init H.

(** Every message of a correct process has been delivered to every correct
    process. *)
Definition net_quiescent (H : brb_config) : Prop :=
  ∀ i j, correct (input_sender i) → correct j → in_network H i → i ∈ H j.
End network.

(** The outputs of an instance only grow. *)
Lemma brbInstance_exec_grows i h h' e :
  brbInstance_exec i h = Done (h', e) →
  (∀ m, m ∈ echoed h → m ∈ echoed h') ∧ (∀ m, m ∈ readied h → m ∈ readied h') ∧
  (∀ o, o ∈ delivered h → o ∈ delivered h').
Proof.
  intros Hex.
  destruct h as [[n f ec rd] pE pR [eC b1 [rC b2 [out]]]].
  destruct i as [m s|m s|m s]; simpl in Hex.
  - injection Hex as <- <-. unfold brbPhase1Handler_handleSend, sendEcho, ph1_finish.
    unfold echoed, readied, delivered. simpl. destruct b1; simpl; set_solver.
  - unfold brbHandler_handleEcho in Hex. simpl in Hex.
    case_decide; [by injection Hex as <- <-|].
    erewrite ph1_echo_eq in Hex by (unfold count_incr; apply lookup_insert_eq).
    injection Hex as <- <-. unfold echoed, readied, delivered. simpl.
    split_and!; [| |done]; intros ?; repeat case_match; set_solver.
  - unfold brbHandler_handleReady in Hex. simpl in Hex.
    case_decide; [by injection Hex as <- <-|].
    erewrite ph1_ready_eq in Hex by (unfold count_incr; apply lookup_insert_eq).
    cbv zeta in Hex.
    match type of Hex with
    | context [if ?c then ph3_ready ?a ?b ?k ?m ?p else _] =>
      destruct (if c then ph3_ready a b k m p else Done (p, None)) as [[p3' e']| |] eqn:H3
    end; simpl in Hex; [|done..].
    injection Hex as <- <-. unfold echoed, readied, delivered. simpl.
    split_and!; [intros ?; repeat case_match; set_solver..|].
    intros o Ho. destruct (_ && _); [|by injection H3 as <- <-].
    unfold ph3_ready in H3. destruct (_ =? _); [|by injection H3 as <- <-].
    destruct (parseMsg _) as [[[s' c]|?]| |]; simplify_eq/=; [|done].
    set_solver.
Qed.

Lemma send_echo_inj s c s' c' : send_echo s c = send_echo s' c' → s = s' ∧ c = c'.
Proof.
  unfold send_echo. intros He. apply app_inj_1 in He as [Hs Hc]; [|by rewrite !uuid_length].
  by apply (inj uuid_bytes) in Hs.
Qed.

Lemma log_step_lookup i (l : gmap UUID bytes) s m :
  (echoLog_step l i !! s = Some m → l !! s = Some m ∨ i = IEcho m s) ∧
  (readyLog_step l i !! s = Some m → l !! s = Some m ∨ i = IReady m s).
Proof.
  destruct i as [m' s'|m' s'|m' s']; simpl; (split; [|]); try (by left);
    unfold log_add; case_match; try (by left);
    (destruct (decide (s' = s)) as [->|];
      [rewrite lookup_insert_eq; intros [= ->]; by right
      |rewrite lookup_insert_ne by done; by left]).
Qed.

Lemma log_delivered ins s m :
  (IEcho m s ∈ ins → is_Some (echoLog ins !! s)) ∧
  (IReady m s ∈ ins → is_Some (readyLog ins !! s)).
Proof.
  assert (Hadd : ∀ s m (l : gmap UUID bytes), is_Some (log_add s m l !! s)).
  { intros s0 m0 l. unfold log_add. destruct (l !! s0) eqn:E; [by eexists|].
    rewrite lookup_insert_eq. by eexists. }
  assert (Hkeep : ∀ s' m' (l : gmap UUID bytes), is_Some (l !! s) → is_Some (log_add s' m' l !! s)).
  { intros s' m' l [y Hy]. eexists. by apply log_add_keeps. }
  induction ins as [|i ins IH] using rev_ind.
  { split; intros ?%not_elem_of_nil; done. }
  rewrite echoLog_snoc, readyLog_snoc, !elem_of_app, !list_elem_of_singleton.
  destruct IH as [IHE IHR].
  split; (intros [Hin|<-]; [|apply Hadd]).
  - destruct i; simpl; auto.
  - destruct i; simpl; auto.
Qed.

Section network_inv.
Context (mb : membership UUID) `{!Resilient mb}.
Context (msgs : list bytes) (Hcf : collision_free msgs).
Context (sends : list (UUID * bytes)).

#[local] Abbreviation n := (mb_n mb).
#[local] Abbreviation f := (mb_f mb).
#[local] Abbreviation Correct := (correct mb).
#[local] Abbreviation E := (Echoes mb).
#[local] Abbreviation R := (Readies mb).
#[local] Abbreviation D := (Delivers mb).
#[local] Abbreviation step := (net_step mb msgs sends).
#[local] Abbreviation reachable := (net_reachable mb msgs sends).

(** The message of a broadcast: an identifier and what its owner sent. *)
Definition genuine (m : bytes) : Prop :=
  ∃ s c, m = send_echo s c ∧ (s, c) ∈ sends.

(** [n - f] processes whose correct members have all echoed [m]. *)
Definition echo_quorum (H : brb_config) (m : bytes) : Prop :=
  ∃ Q : gset UUID, Q ⊆ peers mb ∧ n - f ≤ Z.of_nat (size Q) ∧
    ∀ x, x ∈ Q → x ∉ faulty mb → E H x m.

Record net_inv (H : brb_config) : Prop := {
  ni_runs : ∀ j, Correct j → returns (instance_of mb H j);
  ni_peers : ∀ j, from_peers mb (H j);
  ni_send : ∀ j c s, ISend c s ∈ H j → (s, c) ∈ sends ∧ send_echo s c ∈ msgs;
  ni_echo_log : ∀ j s m, echoLog (H j) !! s = Some m →
    m ∈ msgs ∧ (s ∉ faulty mb → E H s m);
  ni_ready_log : ∀ j s m, readyLog (H j) !! s = Some m →
    m ∈ msgs ∧ (s ∉ faulty mb → R H s m);
  ni_echo : ∀ j m, Correct j → E H j m → genuine m ∧ m ∈ msgs;
  ni_ready : ∀ j m, Correct j → R H j m → echo_quorum H m ∧ m ∈ msgs;
}.

Lemma inv_spec H j h :
  net_inv H → instance_of mb H j = Done h → brb_spec mb (H j) h.
Proof. intros Hi Hh. apply brb_run_meets_spec; [done|apply Hi|done]. Qed.

(** What the correct supporters of a counted identifier have sent. *)
Lemma echo_supporter H j m x :
  net_inv H → m ∈ msgs → x ∈ supporters (BytesToUUID m) (echoLog (H j)) →
  x ∉ faulty mb → E H x m.
Proof.
  intros Hi Hm (m' & Hl & Heq)%elem_of_supporters Hx.
  destruct (ni_echo_log H Hi j x m' Hl) as [Hm' HE].
  rewrite <-(Hcf m' m Hm' Hm Heq). auto.
Qed.

Lemma ready_supporter H j m x :
  net_inv H → m ∈ msgs → x ∈ supporters (BytesToUUID m) (readyLog (H j)) →
  x ∉ faulty mb → R H x m.
Proof.
  intros Hi Hm (m' & Hl & Heq)%elem_of_supporters Hx.
  destruct (ni_ready_log H Hi j x m' Hl) as [Hm' HR].
  rewrite <-(Hcf m' m Hm' Hm Heq). auto.
Qed.

Lemma supporters_peers H j mid :
  net_inv H → supporters mid (echoLog (H j)) ⊆ peers mb ∧
              supporters mid (readyLog (H j)) ⊆ peers mb.
Proof.
  intros Hi. destruct (log_dom mb (H j) (ni_peers H Hi j)) as [HE HR].
  split; etrans; try apply supporters_dom; done.
Qed.

(** A correct process echoes at most one message, and readies at most one. *)
Lemma echo_unique H j m m' : net_inv H → E H j m → E H j m' → m = m'.
Proof.
  intros Hi (h & Hh & Hm) (h' & Hh' & Hm'). assert (h' = h) as -> by congruence.
  pose proof (sp_echoed _ _ _ (inv_spec H j h Hi Hh)) as Hl.
  revert Hm Hm' Hl. case_match; destruct (echoed _) as [|x [|y l]]; intros Hm Hm' Hl; try done.
  - apply list_elem_of_singleton in Hm, Hm'. congruence.
  - by apply not_elem_of_nil in Hm.
Qed.

(** All correct readies are for one message. *)
Lemma ready_unique H i j m m' :
  net_inv H → Correct i → Correct j → R H i m → R H j m' → m = m'.
Proof.
  intros Hi Hci Hcj Hm Hm'.
  destruct (ni_ready H Hi i m Hci Hm) as [(Q & HQ & HsQ & HE) _].
  destruct (ni_ready H Hi j m' Hcj Hm') as [(Q' & HQ' & HsQ' & HE') _].
  destruct (quorum_intersection mb Q Q' HQ HQ' HsQ HsQ') as (x & Hx & Hx' & Hf).
  apply (echo_unique H x); auto.
Qed.

Lemma net_inv_init : net_inv net_init.
Proof.
  unfold net_init. split.
  - intros j _. by eexists.
  - intros j. apply Forall_nil. done.
  - intros j c s ?%not_elem_of_nil. done.
  - intros j s m Hl. unfold echoLog in Hl. simpl in Hl. by rewrite lookup_empty in Hl.
  - intros j s m Hl. unfold readyLog in Hl. simpl in Hl. by rewrite lookup_empty in Hl.
  - intros j m _ (h & [= <-] & Hm). by apply not_elem_of_nil in Hm.
  - intros j m _ (h & [= <-] & Hm). by apply not_elem_of_nil in Hm.
Qed.

(** No message that can arrive makes a correct instance panic: a ready
    quorum contains a correct ready, whose message is genuine. *)
Lemma deliver_returns H j i :
  net_inv H → Correct j → in_network mb msgs sends H i →
  ∃ h h' e, instance_of mb H j = Done h ∧ brbInstance_exec i h = Done (h', e).
Proof.
  intros Hi Hj Hnet. destruct (ni_runs H Hi j Hj) as [h Hh]. exists h.
  destruct (brbInstance_exec_returns mb (H j) h i) as [[h' e] Hex]; [apply Hi|by apply inv_spec| |eauto].
  intros m s -> Hs Hk. destruct Hnet as (Hsp & Hm & Hsend).
  destruct (rs_arith mb) as (? & ? & _).
  assert (∃ x, x ∈ peers mb ∧ (x ∉ faulty mb) ∧ R H x m) as (x & Hxp & Hxf & HR).
  { destruct (correct_witness mb ({[s]} ∪ supporters (BytesToUUID m) (readyLog (H j))))
      as (x & Hx & Hxf).
    - rewrite size_add_new; [unfold votes in Hk; lia|].
      rewrite elem_of_supporters. intros (?&?&?); simplify_eq.
    - exists x. apply elem_of_union in Hx as [->%elem_of_singleton|Hx].
      + split; [done|]. split; [done|]. by destruct Hsend.
      + split; [|split; [done|by eapply ready_supporter]].
        by apply (supporters_peers H j (BytesToUUID m) Hi). }
  destruct (ni_ready H Hi x m (conj Hxp Hxf) HR) as [(Q & HQ & HsQ & HE) _].
  destruct (correct_witness mb Q) as (y & Hy & Hyf); [lia|].
  destruct (ni_echo H Hi y m (conj (HQ y Hy) Hyf) (HE y Hy Hyf)) as [(s' & c & -> & _) _].
  unfold send_echo. rewrite length_app, uuid_length. lia.
Qed.

Lemma instance_of_upd H j i h h' e :
  instance_of mb H j = Done h → brbInstance_exec i h = Done (h', e) →
  instance_of mb (<[j := H j ++ [i]]> H) j = Done h'.
Proof.
  intros Hh Hex. unfold instance_of in *.
  rewrite fn_lookup_insert, brb_run_snoc, Hh. simpl. by rewrite Hex.
Qed.

Lemma instance_of_ne H j k q :
  j ≠ k → instance_of mb (<[j := q]> H) k = instance_of mb H k.
Proof. intros. unfold instance_of. by rewrite fn_lookup_insert_ne. Qed.

(** What a process has sent stays sent. *)
Lemma sent_mono H j i h h' e :
  instance_of mb H j = Done h → brbInstance_exec i h = Done (h', e) →
  (∀ x m, E H x m → E (<[j := H j ++ [i]]> H) x m) ∧
  (∀ x m, R H x m → R (<[j := H j ++ [i]]> H) x m).
Proof.
  intros Hh Hex. destruct (brbInstance_exec_grows i h h' e Hex) as (HE & HR & _).
  pose proof (instance_of_upd H j i h h' e Hh Hex) as Hu.
  split; intros x m (hx & Hx & Hm); (destruct (decide (j = x)) as [<-|Hne];
    [exists h'; assert (hx = h) as -> by congruence; auto
    |exists hx; by rewrite instance_of_ne]).
Qed.

(** Entries of the logs after a delivery: old ones, or the delivered one. *)
Lemma logs_upd H j i k s m :
  net_inv H → in_network mb msgs sends H i →
  (echoLog ((<[j := H j ++ [i]]> H) k) !! s = Some m →
     m ∈ msgs ∧ (s ∉ faulty mb → E H s m)) ∧
  (readyLog ((<[j := H j ++ [i]]> H) k) !! s = Some m →
     m ∈ msgs ∧ (s ∉ faulty mb → R H s m)).
Proof.
  intros Hi Hnet. destruct (decide (j = k)) as [<-|Hne].
  2: { rewrite fn_lookup_insert_ne by done. split; [apply Hi|apply Hi]. }
  rewrite fn_lookup_insert, echoLog_snoc, readyLog_snoc.
  split; intros Hl; apply log_step_lookup in Hl as [Hl| ->].
  - by eapply ni_echo_log.
  - destruct Hnet as (? & ? & Hs). split; [done|]. by destruct Hs.
  - by eapply ni_ready_log.
  - destruct Hnet as (? & ? & Hs). split; [done|]. by destruct Hs.
Qed.

(** A new echo is genuine: it answers a send, or more than [f] echoes or
    readies, one of which is from a correct process. *)
Lemma new_echo_genuine H j i h' m :
  net_inv H → in_network mb msgs sends H i → from_peers mb (H j ++ [i]) →
  (∀ c s, ISend c s ∈ H j ++ [i] → (s, c) ∈ sends ∧ send_echo s c ∈ msgs) →
  brb_spec mb (H j ++ [i]) h' → m ∈ echoed h' → genuine m ∧ m ∈ msgs.
Proof.
  intros Hi Hnet Hp Hsend Hsp Hm.
  pose proof (logs_upd H j i j) as Hlogs. rewrite fn_lookup_insert in Hlogs.
  destruct (rs_arith mb) as (? & ? & _).
  destruct (log_dom mb _ Hp) as [HdE HdR].
  destruct (sp_echo_src _ _ _ Hsp m Hm) as [(c & s & Hin & ->)|[[[s0 Hs0] Hk]|[[s0 Hs0] Hk]]].
  - destruct (Hsend c s Hin). split; [|done]. by exists s, c.
  - destruct (Hlogs s0 m Hi Hnet) as [HE _]. destruct (HE Hs0) as [Hmm _].
    destruct (correct_witness mb (supporters (BytesToUUID m) (echoLog (H j ++ [i]))))
      as (x & Hx & Hxf); [unfold votes in Hk; lia|].
    pose proof (HdE _ (supporters_dom _ _ x Hx)) as Hxp.
    apply elem_of_supporters in Hx as (m' & Hl & Heq).
    destruct (Hlogs x m' Hi Hnet) as [HE' _]. destruct (HE' Hl) as [Hmm' HEx].
    rewrite (Hcf m' m Hmm' Hmm Heq) in HEx. by apply (ni_echo H Hi x m (conj Hxp Hxf)), HEx.
  - destruct (Hlogs s0 m Hi Hnet) as [_ HR]. destruct (HR Hs0) as [Hmm _].
    destruct (correct_witness mb (supporters (BytesToUUID m) (readyLog (H j ++ [i]))))
      as (x & Hx & Hxf); [unfold votes in Hk; lia|].
    pose proof (HdR _ (supporters_dom _ _ x Hx)) as Hxp.
    apply elem_of_supporters in Hx as (m' & Hl & Heq).
    destruct (Hlogs x m' Hi Hnet) as [_ HR']. destruct (HR' Hl) as [Hmm' HRx].
    rewrite (Hcf m' m Hmm' Hmm Heq) in HRx.
    destruct (ni_ready H Hi x m (conj Hxp Hxf) (HRx Hxf)) as [(Q & HQ & HsQ & HEQ) _].
    destruct (correct_witness mb Q) as (y & Hy & Hyf); [lia|].
    apply (ni_echo H Hi y m); [split; auto|auto].
Qed.

(** A new ready is backed by a quorum of echoes: directly, or through the
    ready of a correct process. *)
Lemma new_ready_quorum H j i h' m :
  net_inv H → in_network mb msgs sends H i → from_peers mb (H j ++ [i]) →
  brb_spec mb (H j ++ [i]) h' → m ∈ readied h' → echo_quorum H m ∧ m ∈ msgs.
Proof.
  intros Hi Hnet Hp Hsp Hm.
  pose proof (logs_upd H j i j) as Hlogs. rewrite fn_lookup_insert in Hlogs.
  destruct (rs_arith mb) as (? & ? & _).
  destruct (log_dom mb _ Hp) as [HdE HdR].
  destruct (sp_ready_src _ _ _ Hsp m Hm) as [[[s0 Hs0] Hk]|[[s0 Hs0] Hk]].
  - destruct (Hlogs s0 m Hi Hnet) as [HE _]. destruct (HE Hs0) as [Hmm _]. split; [|done].
    exists (supporters (BytesToUUID m) (echoLog (H j ++ [i]))).
    split; [etrans; [apply supporters_dom|done]|]. split; [done|].
    intros x (m' & Hl & Heq)%elem_of_supporters Hxf.
    destruct (Hlogs x m' Hi Hnet) as [HE' _]. destruct (HE' Hl) as [Hmm' HEx].
    rewrite (Hcf m' m Hmm' Hmm Heq) in HEx. auto.
  - destruct (Hlogs s0 m Hi Hnet) as [_ HR]. destruct (HR Hs0) as [Hmm _].
    destruct (correct_witness mb (supporters (BytesToUUID m) (readyLog (H j ++ [i]))))
      as (x & Hx & Hxf); [unfold votes in Hk; lia|].
    pose proof (HdR _ (supporters_dom _ _ x Hx)) as Hxp.
    apply elem_of_supporters in Hx as (m' & Hl & Heq).
    destruct (Hlogs x m' Hi Hnet) as [_ HR']. destruct (HR' Hl) as [Hmm' HRx].
    rewrite (Hcf m' m Hmm' Hmm Heq) in HRx.
    by apply (ni_ready H Hi x m (conj Hxp Hxf)), HRx.
Qed.

Lemma net_inv_step H H' : net_inv H → step H H' → net_inv H'.
Proof.
  intros Hi [j i Hj Hnet].
  destruct (deliver_returns H j i Hi Hj Hnet) as (h & h' & e & Hh & Hex).
  pose proof (instance_of_upd H j i h h' e Hh Hex) as Hu.
  destruct (sent_mono H j i h h' e Hh Hex) as [HE HR].
  assert (Hp : ∀ k, from_peers mb ((<[j := H j ++ [i]]> H) k)).
  { intros k. destruct (decide (j = k)) as [<-|]; [|rewrite fn_lookup_insert_ne by done; apply Hi].
    rewrite fn_lookup_insert. apply Forall_app. split; [apply Hi|]. apply Forall_singleton.
    destruct i; [done|apply Hnet..]. }
  assert (Hs : ∀ k c s, ISend c s ∈ (<[j := H j ++ [i]]> H) k → (s, c) ∈ sends ∧ send_echo s c ∈ msgs).
  { intros k c s. destruct (decide (j = k)) as [<-|];
      [|rewrite fn_lookup_insert_ne by done; apply Hi].
    rewrite fn_lookup_insert, elem_of_app, list_elem_of_singleton.
    intros [?| <-]; [by apply (ni_send H Hi j)|]. exact Hnet. }
  assert (Hsp : brb_spec mb (H j ++ [i]) h').
  { apply (brbInstance_exec_spec mb (H j) h i h' e); [|by apply inv_spec|done].
    specialize (Hp j). by rewrite fn_lookup_insert in Hp. }
  specialize (Hp j) as Hpj. specialize (Hs j) as Hsj. rewrite fn_lookup_insert in Hpj, Hsj.
  split; [|done|done| | | |].
  - intros k Hk. destruct (decide (j = k)) as [<-|]; [by eexists|].
    rewrite instance_of_ne by done. by apply Hi.
  - intros k s m Hl. apply (logs_upd H j i k s m Hi Hnet) in Hl. naive_solver.
  - intros k s m Hl. apply (logs_upd H j i k s m Hi Hnet) in Hl. naive_solver.
  - intros k m Hk (hk & Hhk & Hm). destruct (decide (j = k)) as [<-|Hne].
    + assert (hk = h') as -> by congruence. by eapply new_echo_genuine.
    + rewrite instance_of_ne in Hhk by done. apply (ni_echo H Hi k m Hk). by exists hk.
  - intros k m Hk (hk & Hhk & Hm).
    assert (echo_quorum H m ∧ m ∈ msgs) as [(Q & ? & ? & ?) ?].
    { destruct (decide (j = k)) as [<-|Hne].
      + assert (hk = h') as -> by congruence. by eapply new_ready_quorum.
      + rewrite instance_of_ne in Hhk by done. apply (ni_ready H Hi k m Hk). by exists hk. }
    split; [|done]. exists Q. auto.
Qed.

Lemma reachable_inv H : reachable H → net_inv H.
Proof.
  unfold net_reachable. generalize net_inv_init. generalize net_init.
  intros H0 Hi Hr. induction Hr; [done|]. apply IHHr. by eapply net_inv_step.
Qed.

(** A delivered message was readied by a correct process. *)
Lemma delivery_backed H j o :
  net_inv H → D H j o →
  send_echo (Sender o) (Content o) ∈ msgs ∧
  ∃ x, Correct x ∧ R H x (send_echo (Sender o) (Content o)).
Proof.
  intros Hi (h & Hh & Ho).
  destruct (sp_out_src _ _ _ (inv_spec H j h Hi Hh) o Ho) as [[s0 Hs0] Hk].
  destruct (ni_ready_log H Hi j s0 _ Hs0) as [Hm _]. split; [done|].
  destruct (rs_arith mb) as (? & ? & _).
  destruct (correct_witness mb (supporters (BytesToUUID (send_echo (Sender o) (Content o)))
    (readyLog (H j)))) as (x & Hx & Hxf); [unfold votes in Hk; lia|].
  exists x. split; [|by eapply ready_supporter]. split; [|done].
  by apply (supporters_peers H j _ Hi) in Hx.
Qed.

Lemma delivery_unique H i j o o' : net_inv H → D H i o → D H j o' → o = o'.
Proof.
  intros Hi Ho Ho'.
  destruct (delivery_backed H i o Hi Ho) as (_ & x & Hx & HRx).
  destruct (delivery_backed H j o' Hi Ho') as (_ & y & Hy & HRy).
  pose proof (ready_unique H x y _ _ Hi Hx Hy HRx HRy) as Heq.
  apply send_echo_inj in Heq as [? ?]. destruct o, o'. by simplify_eq/=.
Qed.

Lemma delivery_genuine H j o :
  net_inv H → D H j o → (Sender o, Content o) ∈ sends.
Proof.
  intros Hi Ho. destruct (delivery_backed H j o Hi Ho) as (_ & x & Hx & HRx).
  destruct (ni_ready H Hi x _ Hx HRx) as [(Q & HQ & HsQ & HE) _].
  destruct (rs_arith mb) as (? & ? & _).
  destruct (correct_witness mb Q) as (y & Hy & Hyf); [lia|].
  destruct (ni_echo H Hi y _ (conj (HQ y Hy) Hyf) (HE y Hy Hyf)) as [(s & c & Heq & Hin) _].
  apply send_echo_inj in Heq as [-> ->]. done.
Qed.

(** ** Quiescent configurations *)

Section quiescent.
Context (H : brb_config) (Hi : net_inv H) (Hq : net_quiescent mb msgs sends H).

Lemma quiescent_echo x j m :
  Correct x → Correct j → E H x m → echoLog (H j) !! x = Some m.
Proof.
  intros Hx Hj HE. destruct (ni_echo H Hi x m Hx HE) as [_ Hm].
  assert (IEcho m x ∈ H j) as Hin
    by (apply Hq; simpl; [done..|]; destruct Hx; auto).
  apply log_delivered in Hin as [m' Hm']. rewrite Hm'. f_equal.
  apply (echo_unique H x); [done| |done]. apply (ni_echo_log H Hi j x m' Hm'), Hx.
Qed.

Lemma quiescent_ready x j m :
  Correct x → Correct j → R H x m → readyLog (H j) !! x = Some m.
Proof.
  intros Hx Hj HR. destruct (ni_ready H Hi x m Hx HR) as [_ Hm].
  assert (IReady m x ∈ H j) as Hin
    by (apply Hq; simpl; [done..|]; destruct Hx; auto).
  apply log_delivered in Hin as [m' Hm']. rewrite Hm'. f_equal.
  apply (ready_unique H x x); [done..| |done]. apply (ni_ready_log H Hi j x m' Hm'), Hx.
Qed.

(** Correct processes that all echo [m] are counted by everybody. *)
Lemma quiescent_echo_votes (S : gset UUID) j m :
  (∀ x, x ∈ S → Correct x ∧ E H x m) → Correct j →
  Z.of_nat (size S) ≤ votes (BytesToUUID m) (echoLog (H j)).
Proof.
  intros HS Hj. unfold votes. apply Nat2Z.inj_le, subseteq_size. intros x Hx.
  destruct (HS x Hx). apply elem_of_supporters. exists m. split; [|done].
  by apply quiescent_echo.
Qed.

Lemma quiescent_ready_votes (S : gset UUID) j m :
  (∀ x, x ∈ S → Correct x ∧ R H x m) → Correct j →
  Z.of_nat (size S) ≤ votes (BytesToUUID m) (readyLog (H j)).
Proof.
  intros HS Hj. unfold votes. apply Nat2Z.inj_le, subseteq_size. intros x Hx.
  destruct (HS x Hx). apply elem_of_supporters. exists m. split; [|done].
  by apply quiescent_ready.
Qed.

(** A process whose specification says "ready" has readied something. *)
Lemma readies_something j :
  Correct j →
  reached (n - f) (echoLog (H j)) ∨ reached (f + 1) (readyLog (H j)) →
  ∃ m, R H j m.
Proof.
  intros Hj Hr. destruct (ni_runs H Hi j Hj) as [h Hh].
  pose proof (inv_spec H j h Hi Hh) as Hsp.
  apply (sp_ph2 _ _ _ Hsp) in Hr.
  pose proof (sp_readied _ _ _ Hsp) as Hl. rewrite Hr in Hl.
  destruct (readied h) as [|m l] eqn:Em; [done|].
  exists m, h. split; [done|]. rewrite Em. set_solver.
Qed.

(** If every correct process readies [m], every correct process delivers. *)
Lemma all_ready_all_deliver m :
  (∀ x, Correct x → R H x m) → ∀ j, Correct j → ∃ o, D H j o.
Proof.
  intros HR j Hj. destruct (ni_runs H Hi j Hj) as [h Hh].
  pose proof (inv_spec H j h Hi Hh) as Hsp.
  assert (0 < length (delivered h))%nat as Hl.
  { apply (sp_delivered _ _ _ Hsp). exists (BytesToUUID m).
    etrans; [by apply correct_quorum|]. apply quiescent_ready_votes; [|done].
    intros x Hx. assert (Correct x) by (unfold correct; set_solver). auto. }
  destruct (delivered h) as [|o l] eqn:Eo; [simpl in Hl; lia|].
  exists o, h. split; [done|]. rewrite Eo. set_solver.
Qed.

(** One correct ready quorum spreads to every correct process. *)
Lemma quiescent_totality i o :
  Correct i → D H i o → ∀ j, Correct j → D H j o.
Proof.
  intros Hci Ho j Hj.
  set (m := send_echo (Sender o) (Content o)).
  destruct (delivery_backed H i o Hi Ho) as (Hm & x0 & Hx0 & HRx0). fold m in Hm, HRx0.
  destruct Ho as (h & Hh & Hin).
  destruct (sp_out_src _ _ _ (inv_spec H i h Hi Hh) o Hin) as [_ Hk]. fold m in Hk.
  assert (∀ x, Correct x → R H x m) as Hall.
  { intros x Hx. destruct (readies_something x Hx) as [m' Hm'].
    - right. exists (BytesToUUID m).
      etrans; [apply (quorum_correct mb (supporters (BytesToUUID m) (readyLog (H i))));
        [apply (supporters_peers H i _ Hi)|done]|].
      apply quiescent_ready_votes; [|done]. intros y [Hy Hyf]%elem_of_difference.
      split; [|by eapply ready_supporter]. split; [|done].
      by apply (supporters_peers H i (BytesToUUID m) Hi).
    - by rewrite (ready_unique H x0 x m m' Hi Hx0 Hx HRx0 Hm'). }
  destruct (all_ready_all_deliver m Hall j Hj) as [o' Ho'].
  rewrite (delivery_unique H i j o o' Hi); [done| |done]. by exists h.
Qed.

(** A broadcast that has reached every correct process is delivered by all. *)
Lemma quiescent_sent_delivered s c :
  (∀ x, Correct x → ISend c s ∈ H x) → sends = [(s, c)] →
  ∀ j, Correct j → D H j (MkBRBMsg c s).
Proof.
  intros Hall Hsends j Hj. set (m := send_echo s c).
  assert (∀ x, Correct x → E H x m) as HE.
  { intros x Hx. destruct (ni_runs H Hi x Hx) as [h Hh].
    pose proof (inv_spec H x h Hi Hh) as Hsp.
    assert (ph1_isFinished (handler h) = true) as Hf.
    { apply (sp_ph1 _ _ _ Hsp). left. exists c, s. by apply Hall. }
    pose proof (sp_echoed _ _ _ Hsp) as Hl. rewrite Hf in Hl.
    destruct (echoed h) as [|m' l] eqn:Em; [done|].
    assert (E H x m') as HEm by (exists h; rewrite Em; set_solver).
    destruct (ni_echo H Hi x m' Hx HEm) as [(s' & c' & -> & Hin) _].
    rewrite Hsends in Hin. apply list_elem_of_singleton in Hin. simplify_eq. done. }
  assert (∀ x, Correct x → R H x m) as HR.
  { intros x Hx. destruct (readies_something x Hx) as [m' Hm'].
    - left. exists (BytesToUUID m). etrans; [by apply correct_quorum|].
      apply quiescent_echo_votes; [|done]. intros y Hy.
      assert (Correct y) by (unfold correct; set_solver). auto.
    - destruct (ni_ready H Hi x m' Hx Hm') as [(Q & HQ & HsQ & HEQ) _].
      destruct (rs_arith mb) as (? & ? & _).
      destruct (correct_witness mb Q) as (y & Hy & Hyf); [lia|].
      rewrite <-(echo_unique H y m' m Hi (HEQ y Hy Hyf) (HE y (conj (HQ y Hy) Hyf))). done. }
  destruct (all_ready_all_deliver m HR j Hj) as [o Ho].
  pose proof (delivery_genuine H j o Hi Ho) as Hin. rewrite Hsends in Hin.
  apply list_elem_of_singleton in Hin. destruct o. by simplify_eq/=.
Qed.

(** A correct sender's broadcast is delivered by every correct process. *)
Lemma quiescent_validity s c :
  Correct s → sends = [(s, c)] → send_echo s c ∈ msgs →
  ∀ j, Correct j → D H j (MkBRBMsg c s).
Proof.
  intros Hs Hsends Hm. apply quiescent_sent_delivered; [|done].
  intros x Hx. apply Hq; [done..|]. simpl. rewrite Hsends. split; [set_solver|done].
Qed.
End quiescent.
End network_inv.

(** ** Executing schedules *)

Section schedules.
Context (mb : membership UUID) (msgs : list bytes) (sends : list (UUID * bytes)).

#[export] Instance correct_dec j : Decision (correct mb j).
Proof. unfold correct. apply _. Defined.

Definition sent_dec (out : brbHandler → list bytes) (H : brb_config) (s : UUID) (m : bytes) : bool :=
  match instance_of mb H s with
  | Done h => bool_decide (m ∈ out h)
  | _ => false
  end.

Lemma sent_dec_spec out H s m :
  sent_dec out H s m = true ↔ ∃ h, instance_of mb H s = Done h ∧ m ∈ out h.
Proof.
  unfold sent_dec. destruct (instance_of mb H s) as [h| |] eqn:E.
  - rewrite bool_decide_eq_true. split; [intros Hm; by exists h|].
    intros (h' & [= <-] & Hm). done.
  - split; [done|]. intros (h & ? & _). done.
  - split; [done|]. intros (h & ? & _). done.
Qed.

#[export] Instance in_network_dec H i : Decision (in_network mb msgs sends H i).
Proof.
  assert (∀ s m, Decision (Echoes mb H s m)).
  { intros s m. refine (cast_if (Bool.bool_dec (sent_dec echoed H s m) true)).
    - by apply sent_dec_spec.
    - intros HE. by apply sent_dec_spec in HE. }
  assert (∀ s m, Decision (Readies mb H s m)).
  { intros s m. refine (cast_if (Bool.bool_dec (sent_dec readied H s m) true)).
    - by apply sent_dec_spec.
    - intros HE. by apply sent_dec_spec in HE. }
  destruct i; simpl; apply _.
Defined.

(** Deliver the listed messages in order; [None] if one cannot arrive. *)
Fixpoint run_schedule (l : list (UUID * brb_input)) (H : brb_config) : option brb_config :=
  match l with
  | [] => Some H
  | (j, i) :: l =>
    if decide (correct mb j ∧ in_network mb msgs sends H i)
    then run_schedule l (<[j := H j ++ [i]]> H) else None
  end.

Lemma run_schedule_sound l H H' :
  run_schedule l H = Some H' → rtc (net_step mb msgs sends) H H'.
Proof.
  revert H. induction l as [|[j i] l IH]; intros H; simpl.
  - intros [= <-]. constructor.
  - case_decide as Hd; [|done]. destruct Hd. intros Hr.
    eapply rtc_l; [by apply net_deliver|by apply IH].
Qed.

Lemma reachable_config l :
  match run_schedule l net_init with Some _ => true | None => false end = true →
  net_reachable mb msgs sends (default net_init (run_schedule l net_init)).
Proof.
  intros E. destruct (run_schedule l net_init) as [H|] eqn:Hr; [|done].
  by apply run_schedule_sound in Hr.
Qed.

(** ** Deliveries still due *)

Definition correct_inputs : list brb_input :=
  ((λ '(s, c), ISend c s) <$> sends) ++
  (s ← elements (peers mb ∖ faulty mb); m ← msgs; [IEcho m s; IReady m s]).

Definition due (H : brb_config) (p : UUID * brb_input) : Prop :=
  correct mb p.1 ∧ correct mb (input_sender p.2) ∧ in_network mb msgs sends H p.2 ∧
  p.2 ∉ H p.1.

(** Upper bound on the deliveries still to come. *)
Definition outstanding (H : brb_config) : list (UUID * brb_input) :=
  filter (λ p, p.2 ∉ H p.1)
    (j ← elements (peers mb ∖ faulty mb); i ← correct_inputs; [(j, i)]).

End schedules.

Section termination.
Context (mb : membership UUID) (msgs : list bytes) (sends : list (UUID * bytes)).

#[local] Abbreviation outst := (outstanding mb msgs sends).

Lemma elem_of_correct_elements j : j ∈ elements (peers mb ∖ faulty mb) ↔ correct mb j.
Proof. rewrite elem_of_elements. unfold correct. set_solver. Qed.

Lemma elem_of_outstanding H p :
  p ∈ outst H ↔ correct mb p.1 ∧ p.2 ∈ correct_inputs mb msgs sends ∧ p.2 ∉ H p.1.
Proof.
  unfold outstanding. rewrite list_elem_of_filter, list_elem_of_bind.
  setoid_rewrite list_elem_of_bind. setoid_rewrite list_elem_of_singleton.
  setoid_rewrite elem_of_correct_elements. destruct p. naive_solver.
Qed.

Lemma due_outstanding H p : due mb msgs sends H p → p ∈ outst H.
Proof.
  rewrite elem_of_outstanding. intros (? & Hs & Hnet & ?). split; [done|]. split; [|done].
  unfold correct_inputs. rewrite elem_of_app, list_elem_of_fmap, list_elem_of_bind.
  setoid_rewrite list_elem_of_bind. setoid_rewrite elem_of_correct_elements.
  destruct p as [j [c s|m s|m s]]; simpl in *.
  - left. exists (s, c). split; [done|]. apply Hnet.
  - destruct Hnet as (? & ? & ?). right. exists s. split; [|done]. exists m. set_solver.
  - destruct Hnet as (? & ? & ?). right. exists s. split; [|done]. exists m. set_solver.
Qed.

(** A due delivery strictly decreases the bound. *)
Lemma outstanding_decreases H j i :
  due mb msgs sends H (j, i) →
  (length (outst (<[j := H j ++ [i]]> H)) < length (outst H))%nat.
Proof.
  intros Hd. pose proof (due_outstanding H (j, i) Hd) as Hin.
  destruct Hd as (_ & _ & _ & Hni). unfold outstanding in *.
  set (U := (j0 ← elements (peers mb ∖ faulty mb); i0 ← correct_inputs mb msgs sends; [(j0, i0)])) in *.
  assert (Hsub : ∀ p, p.2 ∉ (<[j := H j ++ [i]]> H) p.1 → p.2 ∉ H p.1).
  { intros [k q] Hp. simpl in *. destruct (decide (j = k)) as [<-|].
    - rewrite fn_lookup_insert, elem_of_app in Hp. tauto.
    - by rewrite fn_lookup_insert_ne in Hp. }
  apply list_elem_of_filter in Hin as [_ HU]. clearbody U.
  assert (Hle : ∀ V : list (UUID * brb_input),
    (length (filter (λ p, p.2 ∉ (<[j := H j ++ [i]]> H) p.1) V) ≤
     length (filter (λ p, p.2 ∉ H p.1) V))%nat).
  { induction V as [|p V IH]; [done|]. rewrite !filter_cons.
    destruct (decide (p.2 ∉ (<[j := H j ++ [i]]> H) p.1)) as [Hp|Hp].
    - rewrite decide_True by auto. simpl. lia.
    - case_decide; simpl; lia. }
  induction U as [|p U IH]; [by apply not_elem_of_nil in HU|].
  rewrite !filter_cons. apply elem_of_cons in HU as [<-|HU].
  - simpl. rewrite decide_False by (rewrite fn_lookup_insert, elem_of_app; set_solver).
    rewrite decide_True by done. simpl. specialize (Hle U). lia.
  - destruct (decide (p.2 ∉ (<[j := H j ++ [i]]> H) p.1)) as [Hp|Hp].
    + rewrite decide_True by auto. simpl. specialize (IH HU). lia.
    + specialize (IH HU). case_decide; simpl; lia.
Qed.

Lemma due_or_quiescent H :
  (∃ p, due mb msgs sends H p) ∨ net_quiescent mb msgs sends H.
Proof.
  destruct (decide (Exists (due mb msgs sends H) (outst H))) as [He|He].
  - left. apply Exists_exists in He as (p & _ & Hp). by exists p.
  - right. intros i j Hs Hj Hnet. destruct (decide (i ∈ H j)) as [|Hni]; [done|].
    destruct He. apply Exists_exists. exists (j, i).
    assert (due mb msgs sends H (j, i)) by (split_and!; done).
    split; [by apply due_outstanding|done].
Qed.

Lemma quiescent_check H :
  forallb (λ p, negb (bool_decide (due mb msgs sends H p))) (outst H) = true →
  net_quiescent mb msgs sends H.
Proof.
  intros Hb. rewrite forallb_forall in Hb.
  destruct (due_or_quiescent H) as [[p Hp]|]; [|done].
  pose proof (due_outstanding H p Hp) as Hin. apply list_elem_of_In, Hb in Hin.
  by rewrite bool_decide_eq_true_2 in Hin.
Qed.

(** Delivering what is due ends in a quiescent configuration. *)
Lemma reach_quiescence H :
  net_reachable mb msgs sends H →
  ∃ H', rtc (net_step mb msgs sends) H H' ∧ net_quiescent mb msgs sends H'.
Proof.
  remember (length (outst H)) as k eqn:Hk. revert H Hk.
  induction k as [k IH] using lt_wf_ind. intros H -> Hr.
  destruct (due_or_quiescent H) as [[[j i] Hd]|Hq]; [|by exists H].
  assert (net_step mb msgs sends H (<[j := H j ++ [i]]> H)) as Hst
    by (destruct Hd as (? & _ & ? & _); by apply net_deliver).
  destruct (IH _ (outstanding_decreases H j i Hd) _ eq_refl) as (H' & Hr' & Hq).
  - eapply rtc_r; done.
  - exists H'. split; [by eapply rtc_l|done].
Qed.
End termination.

(** ** A concrete run: four processes, [p4] faulty *)

Module BrbExample.
Import Example4.

Definition payload : bytes := ["104"; "105"]%byte.
Definition sends4 : list (UUID * bytes) := [(p1, payload)].
Definition msg4 : bytes := send_echo p1 payload.
Definition msgs4 : list bytes := [msg4].

(** [p1] and [p2] ready on three echoes, one of them from [p4]; [p3], which
    got no echo, follows their readies. *)
Definition schedule4 : list (UUID * brb_input) :=
  [(p1, ISend payload p1); (p2, ISend payload p1);
   (p1, IEcho msg4 p1); (p1, IEcho msg4 p2); (p1, IEcho msg4 p4);
   (p2, IEcho msg4 p2); (p2, IEcho msg4 p4); (p2, IEcho msg4 p1);
   (p3, IReady msg4 p1); (p3, IReady msg4 p2); (p3, IReady msg4 p4);
   (p2, IReady msg4 p4); (p2, IReady msg4 p2); (p2, IReady msg4 p1)].

Definition config4 : brb_config := default net_init (run_schedule mb4 msgs4 sends4 schedule4 net_init).

Lemma collision_free4 : collision_free msgs4.
Proof. intros a b ->%list_elem_of_singleton ->%list_elem_of_singleton _. done. Qed.

Lemma reachable4 : net_reachable mb4 msgs4 sends4 config4.
Proof. apply reachable_config. vm_compute. reflexivity. Qed.

Definition out4 : BRBMsg := MkBRBMsg payload p1.

Lemma delivers_dec (mb : membership UUID) H j o :
  (match instance_of mb H j with Done h => bool_decide (o ∈ delivered h) | _ => false end) = true →
  Delivers mb H j o.
Proof.
  destruct (instance_of mb H j) as [h| |] eqn:E; [|done..].
  rewrite bool_decide_eq_true. intros. by exists h.
Qed.

Lemma delivers4_p2 : Delivers mb4 config4 p2 out4.
Proof. apply delivers_dec. vm_compute. reflexivity. Qed.
Lemma delivers4_p3 : Delivers mb4 config4 p3 out4.
Proof. apply delivers_dec. vm_compute. reflexivity. Qed.

(** The same run continued until nothing is due. *)
Definition schedule4q : list (UUID * brb_input) :=
  schedule4 ++
  [(p3, ISend payload p1); (p1, IEcho msg4 p3); (p2, IEcho msg4 p3);
   (p3, IEcho msg4 p1); (p3, IEcho msg4 p2); (p3, IEcho msg4 p3);
   (p1, IReady msg4 p1); (p1, IReady msg4 p2); (p1, IReady msg4 p3);
   (p2, IReady msg4 p3); (p3, IReady msg4 p3)].

Definition config4q : brb_config :=
  default net_init (run_schedule mb4 msgs4 sends4 schedule4q net_init).

Lemma reachable4q : net_reachable mb4 msgs4 sends4 config4q.
Proof. apply reachable_config. vm_compute. reflexivity. Qed.

Lemma quiescent4q : net_quiescent mb4 msgs4 sends4 config4q.
Proof. apply quiescent_check. vm_compute. reflexivity. Qed.

Lemma delivers4q_p2 : Delivers mb4 config4q p2 out4.
Proof. apply delivers_dec. vm_compute. reflexivity. Qed.

Lemma correct4_p2 : correct mb4 p2.
Proof. unfold correct. split; unfold mb4; simpl; set_solver. Qed.
Lemma correct4_p1 : correct mb4 p1.
Proof. unfold correct. split; unfold mb4; simpl; set_solver. Qed.
Lemma correct4_p3 : correct mb4 p3.
Proof. unfold correct. split; unfold mb4; simpl; set_solver. Qed.
End BrbExample.
Import Example4 BrbExample.

(** ** Theorems *)

(** C5: agreement.  Two processes never deliver different broadcasts (neither
    another content nor another sender), whatever the [f] faulty processes
    send and in whatever order messages arrive. *)
Theorem brb_agreement (mb : membership UUID) `{!Resilient mb} msgs sends H i j o o' :
  collision_free msgs → net_reachable mb msgs sends H →
  Delivers mb H i o → Delivers mb H j o' → o = o'.
Proof. intros Hcf Hr. apply (delivery_unique mb msgs Hcf sends). by apply reachable_inv. Qed.

Lemma brb_agreement_witness :
  collision_free msgs4 ∧
  net_reachable mb4 msgs4 sends4 config4 ∧
  out4 = out4.
Proof.
  split; [exact collision_free4|]. split; [exact reachable4|].
  exact (brb_agreement mb4 msgs4 sends4 config4
    p2 p3 out4 out4 collision_free4
    reachable4 delivers4_p2 delivers4_p3).
Defined.

(** Integrity.  What is delivered is a broadcast of the process named as
    its sender. *)
Theorem brb_integrity (mb : membership UUID) `{!Resilient mb} msgs sends H j o :
  collision_free msgs → net_reachable mb msgs sends H →
  Delivers mb H j o → (Sender o, Content o) ∈ sends.
Proof. intros Hcf Hr. apply (delivery_genuine mb msgs Hcf sends). by apply reachable_inv. Qed.

Lemma brb_integrity_witness :
  Delivers mb4 config4 p2 out4 ∧
  (Sender out4, Content out4) ∈ sends4.
Proof.
  split; [exact delivers4_p2|].
  exact (brb_integrity mb4 msgs4 sends4 config4
    p2 out4 collision_free4 reachable4 delivers4_p2).
Defined.

(** No panic.  [parseMsg] slices its argument without checking the length;
    no message that can arrive at a correct process makes it panic, so every
    handler call of a correct process returns. *)
Theorem brb_no_panic (mb : membership UUID) `{!Resilient mb} msgs sends H j i :
  collision_free msgs → net_reachable mb msgs sends H →
  correct mb j → in_network mb msgs sends H i →
  ∃ h, instance_of mb H j = Done h ∧ returns (brbInstance_exec i h).
Proof.
  intros Hcf Hr Hj Hnet.
  destruct (deliver_returns mb msgs Hcf sends H j i) as (h & h' & e & Hh & Hex); [|done..|].
  - by apply reachable_inv.
  - exists h. split; [done|]. by eexists.
Qed.

Lemma brb_no_panic_witness :
  ∃ h, instance_of mb4 config4 p3 = Done h ∧
       returns (brbInstance_exec (IReady msg4 p4) h).
Proof.
  apply (brb_no_panic mb4 msgs4 sends4 config4).
  - exact collision_free4.
  - exact reachable4.
  - exact correct4_p3.
  - simpl. split_and!; [set_solver|by apply list_elem_of_singleton|left; set_solver].
Defined.

(** C13: totality.  Once the messages of correct processes have arrived, a
    delivery by one correct process implies the same delivery by all. *)
Theorem brb_totality (mb : membership UUID) `{!Resilient mb} msgs sends H i j o :
  collision_free msgs → net_reachable mb msgs sends H → net_quiescent mb msgs sends H →
  correct mb i → correct mb j → Delivers mb H i o → Delivers mb H j o.
Proof.
  intros Hcf Hr Hq Hi Hj Ho. apply (quiescent_totality mb msgs Hcf sends H) with (i := i); [|done..].
  by apply reachable_inv.
Qed.

Lemma brb_totality_witness : Delivers mb4 config4q p1 out4.
Proof.
  exact (brb_totality mb4 msgs4 sends4 config4q p2 p1 out4 collision_free4 reachable4q
    quiescent4q correct4_p2 correct4_p1 delivers4q_p2).
Defined.

(** C12: validity and termination.  From any reachable configuration, delivering
    the messages still due leads to one where the broadcast of a correct sender
    has been delivered by every correct process. *)
Theorem brb_broadcast_delivered (mb : membership UUID) `{!Resilient mb} msgs H s c :
  collision_free msgs → send_echo s c ∈ msgs → correct mb s →
  net_reachable mb msgs [(s, c)] H →
  ∃ H', rtc (net_step mb msgs [(s, c)]) H H' ∧
        ∀ j, correct mb j → Delivers mb H' j (MkBRBMsg c s).
Proof.
  intros Hcf Hm Hs Hr. destruct (reach_quiescence mb msgs [(s, c)] H Hr) as (H' & Hr' & Hq).
  exists H'. split; [done|]. intros j Hj.
  apply (quiescent_validity mb msgs Hcf [(s, c)] H'); [|done..].
  apply reachable_inv; [done|done|]. unfold net_reachable in *. by etrans.
Qed.

Lemma brb_broadcast_delivered_witness :
  ∃ H', rtc (net_step mb4 msgs4 [(p1, payload)]) config4 H' ∧
        ∀ j, correct mb4 j → Delivers mb4 H' j (MkBRBMsg payload p1).
Proof.
  apply (brb_broadcast_delivered mb4 msgs4 config4 p1 payload).
  - exact collision_free4.
  - by apply list_elem_of_singleton.
  - exact correct4_p1.
  - exact reachable4.
Defined.
