(* ===== verification/BrbMiddleware.v ===== *)
(** * Package [byzantineReliableBroadcast]: message formats

    [middleware.go]: how a broadcast, an echo and a ready are written to bytes
    and read back.  Writing to a [bytes.Buffer] never fails, so the writers
    have no error.  A key is a foreign value; its encoding is a parameter. *)

From stdpp Require Import base tactics numbers list gmap.
From Stdlib Require Import Init.Byte.
From S2P Require Import Prelude Utils.

Local Open Scope Z_scope.

(** [middlewareCode]: ['a'], ['b'], ['c']. *)
Definition code_send : byte := "097".
Definition code_echo : byte := "098".
Definition code_ready : byte := "099".

Record brb_msg := BrbMsg {
  bm_kind : byte;
  bm_id : UUID;
  bm_sender : UUID;
  bm_content : bytes;
}.

Inductive brb_wire_err :=
| NoKind (e : io_err)
| UnhandledKind (b : byte)
| NoNonce (e : io_err)
| NoKey
| NoId (e : extract_err)
| NoContent (e : option io_err).

Section middleware.
Context {PublicKey : Type} (SerializePublicKey : PublicKey → option bytes).

(** ** Writers *)

(** [nonce] is [rand.Uint32()]. *)
Definition wrapSend (nonce : Z) (msg : bytes) : bytes :=
  [code_send] ++ le_encode 4 nonce ++ msg.

Definition wrapMessage (code : byte) (id : UUID) (msg : bytes) : bytes :=
  [code] ++ uuid_bytes id ++ msg.

(** ** Readers *)

Definition computeInstanceId (nonce : Z) (sender : PublicKey) : result brb_wire_err UUID :=
  match SerializePublicKey sender with
  | None => Err NoKey
  | Some encodedPk => Ok (BytesToUUID (encodedPk ++ le_encode 4 nonce))
  end.

(** [genId] draws a fresh nonce itself. *)
Definition genId (nonce : Z) (sender : PublicKey) : result brb_wire_err UUID :=
  computeInstanceId nonce sender.

Definition readId (reader : bytes) (sender : PublicKey) : result brb_wire_err (UUID * bytes) :=
  match binary_Read 4 reader with
  | Err e => Err (NoNonce e)
  | Ok (nonce, reader) => id ← computeInstanceId nonce sender; Ok (id, reader)
  end.

Definition deserializeIDMsg (kind : byte) (reader : bytes) (sender : PublicKey) (id : UUID) :
    result brb_wire_err brb_msg :=
  match PkToUUID SerializePublicKey sender with
  | None => Err NoKey
  | Some senderId =>
    match reader_Read (length reader) reader with
    | Err e => Err (NoContent (Some e))
    | Ok (content, _) =>
      if decide (length content ≠ length reader) then Err (NoContent None)
      else Ok (BrbMsg kind id senderId content)
    end
  end.

Definition brb_processSend (reader : bytes) (sender : PublicKey) : result brb_wire_err brb_msg :=
  '(id, reader) ← readId reader sender; deserializeIDMsg code_send reader sender id.

Definition deserializeMsg (kind : byte) (reader : bytes) (sender : PublicKey) :
    result brb_wire_err brb_msg :=
  match ExtractIdFromMessage reader with
  | Err e => Err (NoId e)
  | Ok (id, reader) => deserializeIDMsg kind reader sender id
  end.

Definition brbMiddleware_processMsg (msg : bytes) (sender : PublicKey) :
    result brb_wire_err brb_msg :=
  match reader_ReadByte msg with
  | Err e => Err (NoKind e)
  | Ok (kind, reader) =>
    if decide (kind = code_send) then brb_processSend reader sender
    else if decide (kind = code_echo ∨ kind = code_ready) then deserializeMsg kind reader sender
    else Err (UnhandledKind kind)
  end.

(** ** Lemmas *)

Lemma deserializeIDMsg_spec kind reader pk id senderId :
  PkToUUID SerializePublicKey pk = Some senderId →
  deserializeIDMsg kind reader pk id =
  if decide (reader = []) then Err (NoContent (Some EOF))
  else Ok (BrbMsg kind id senderId reader).
Proof.
  intros Hk. unfold deserializeIDMsg. rewrite Hk. destruct reader as [|b r]; [done|].
  unfold reader_Read. rewrite firstn_all, (decide_False (P := b :: r = [])) by done.
  by rewrite decide_False by naive_solver.
Qed.

Lemma computeInstanceId_sender nonce pk senderId :
  PkToUUID SerializePublicKey pk = Some senderId →
  ∃ id, computeInstanceId nonce pk = Ok id.
Proof.
  unfold PkToUUID, computeInstanceId. destruct (SerializePublicKey pk); [by eexists|done].
Qed.

Lemma processMsg_wrapSend nonce msg pk senderId id :
  0 ≤ nonce < 2 ^ 32 → PkToUUID SerializePublicKey pk = Some senderId →
  computeInstanceId nonce pk = Ok id →
  brbMiddleware_processMsg (wrapSend nonce msg) pk =
  if decide (msg = []) then Err (NoContent (Some EOF))
  else Ok (BrbMsg code_send id senderId msg).
Proof.
  intros Hn Hk Hid. unfold brbMiddleware_processMsg, wrapSend. cbn [app reader_ReadByte].
  rewrite decide_True by done. unfold brb_processSend, readId.
  rewrite binary_Read_app by done. rewrite Hid. cbn [mbind result_bind].
  by apply deserializeIDMsg_spec.
Qed.

Lemma processMsg_wrapMessage code id msg pk senderId :
  code = code_echo ∨ code = code_ready → PkToUUID SerializePublicKey pk = Some senderId →
  brbMiddleware_processMsg (wrapMessage code id msg) pk =
  if decide (msg = []) then Err (NoContent (Some EOF))
  else Ok (BrbMsg code id senderId msg).
Proof.
  intros Hc Hk. unfold brbMiddleware_processMsg, wrapMessage. cbn [app reader_ReadByte].
  rewrite decide_False by (by destruct Hc as [-> | ->]). rewrite decide_True by done.
  unfold deserializeMsg. rewrite ExtractIdFromMessage_app. by apply deserializeIDMsg_spec.
Qed.

(** The only inputs accepted are the outputs of the writers. *)
Lemma processMsg_Ok_inv msg pk bm :
  brbMiddleware_processMsg msg pk = Ok bm →
  bm_content bm ≠ [] ∧ PkToUUID SerializePublicKey pk = Some (bm_sender bm) ∧
  ((bm_kind bm = code_send ∧ ∃ nonce, 0 ≤ nonce < 2 ^ 32 ∧
      computeInstanceId nonce pk = Ok (bm_id bm) ∧ msg = wrapSend nonce (bm_content bm)) ∨
   ((bm_kind bm = code_echo ∨ bm_kind bm = code_ready) ∧
      msg = wrapMessage (bm_kind bm) (bm_id bm) (bm_content bm))).
Proof.
  unfold brbMiddleware_processMsg. intros Hp.
  destruct msg as [|k r]; [done|]. cbn [reader_ReadByte] in Hp.
  assert (Hd : ∀ kind reader id, deserializeIDMsg kind reader pk id = Ok bm →
    reader ≠ [] ∧ PkToUUID SerializePublicKey pk = Some (bm_sender bm) ∧
    bm_kind bm = kind ∧ bm_id bm = id ∧ bm_content bm = reader).
  { intros kind reader id Hd. destruct (PkToUUID SerializePublicKey pk) as [s|] eqn:Hk.
    - rewrite (deserializeIDMsg_spec _ _ _ _ s Hk) in Hd. case_decide; [done|].
      by injection Hd as <-.
    - unfold deserializeIDMsg in Hd. by rewrite Hk in Hd. }
  case_decide as Hks.
  - unfold brb_processSend, readId, binary_Read in Hp.
    destruct (read_full 4 r) as [[b r']|e] eqn:Hr; [|done]. simpl in Hp.
    destruct (computeInstanceId _ pk) as [id|e] eqn:Hid; [|done]. simpl in Hp.
    apply Hd in Hp as (? & ? & Hkind & Hi & Hcont). apply read_full_spec in Hr as [-> Hlen].
    rewrite Hcont, Hkind. split_and!; [done..|]. left. split; [done|].
    exists (le_decode b). pose proof (le_decode_range b) as Hrange. rewrite Hlen in Hrange.
    split; [done|]. split; [by rewrite Hi|].
    unfold wrapSend. rewrite <-Hlen, le_encode_decode. by subst k.
  - case_decide as Hke; [|done]. unfold deserializeMsg in Hp.
    destruct (ExtractIdFromMessage r) as [[id r']|e] eqn:Hr; [|done].
    apply Hd in Hp as (? & ? & Hkind & Hi & Hcont). apply ExtractIdFromMessage_Ok in Hr.
    rewrite Hcont, Hkind, Hi. split_and!; [done..|]. right. split; [done|].
    unfold wrapMessage. by rewrite Hr.
Qed.
End middleware.

(** ** Theorems *)

(** Exact parsing.  [processMsg] accepts a byte string exactly when it is
    the output of [wrapSend] or [wrapMessage] on a non-empty content, and
    returns what was written, with the sender's identifier; a send gets the
    identifier of its nonce and its sender's key. *)
Theorem brb_wire_exact {PublicKey : Type} (SerializePublicKey : PublicKey → option bytes)
    (msg : bytes) (pk : PublicKey) (bm : brb_msg) :
  brbMiddleware_processMsg SerializePublicKey msg pk = Ok bm ↔
  bm_content bm ≠ [] ∧ PkToUUID SerializePublicKey pk = Some (bm_sender bm) ∧
  ((bm_kind bm = code_send ∧ ∃ nonce, 0 ≤ nonce < 2 ^ 32 ∧
      computeInstanceId SerializePublicKey nonce pk = Ok (bm_id bm) ∧
      msg = wrapSend nonce (bm_content bm)) ∨
   ((bm_kind bm = code_echo ∨ bm_kind bm = code_ready) ∧
      msg = wrapMessage (bm_kind bm) (bm_id bm) (bm_content bm))).
Proof.
  split; [apply processMsg_Ok_inv|].
  destruct bm as [k id s c]; simpl. intros (Hc & Hk & [(-> & nonce & Hn & Hid & ->)|[Hkind ->]]).
  - rewrite (processMsg_wrapSend _ nonce c pk s id) by done. by rewrite decide_False.
  - rewrite (processMsg_wrapMessage _ k id c pk s) by done. by rewrite decide_False.
Qed.

(** An empty broadcast is lost.  [bytes.Reader.Read] reports the end of
    input even for an empty buffer, so the send that [BRBroadcast] writes for an
    empty message is rejected by every receiver. *)
Theorem brb_empty_broadcast_rejected {PublicKey : Type}
    (SerializePublicKey : PublicKey → option bytes) (nonce : Z) (pk : PublicKey) :
  ∃ e, brbMiddleware_processMsg SerializePublicKey (wrapSend nonce []) pk = Err e.
Proof.
  destruct (brbMiddleware_processMsg SerializePublicKey (wrapSend nonce []) pk) as [bm|e] eqn:E;
    [|by eexists].
  apply processMsg_Ok_inv in E as (Hc & _ & [(_ & n & _ & _ & Heq)|[Hk Heq]]).
  - apply (f_equal length) in Heq. unfold wrapSend in Heq.
    rewrite !length_app, !length_le_encode in Heq. destruct (bm_content bm); [done|]. simpl in Heq. lia.
  - unfold wrapSend, wrapMessage in Heq. injection Heq as Hcode _. rewrite <-Hcode in Hk.
    by destruct Hk.
Qed.
