(* ===== verification/BrbChannel.v ===== *)
(** * [byzantineReliableBroadcast/channel.go]: many broadcasts, one node

    A [BRBChannel] creates an instance for every identifier it hears of, routes
    the messages of the middleware to it, hands the message the instance
    outputs to the client and forgets the instance.  The invoker runs one
    command at a time, so a command is a transition; [brb_pending] are the
    goroutines that submit a message to an instance, [brb_commands] the
    commands of [processOutput].

    The second half composes it with [BrbNetwork]: in a network of channels,
    every identifier is a run of one broadcast, so the theorems on instances
    hold of what the channels deliver. *)

From stdpp Require Import base tactics numbers list fin_sets gmap functions relations.
From Stdlib Require Import Init.Byte FunctionalExtensionality.
From S2P Require Import Prelude Utils BrbInstance BrbSpec BrbNetwork BrbMiddleware.

Local Open Scope Z_scope.

(** ** State *)

(** [processOutput]: waits for the output, then for its command to be run. *)
Inductive output_pc := O_wait | O_command (o : BRBMsg) | O_done.

(** [ic_log] records the commands the instance has executed; the code does not
    keep it. *)
Record instance_cell := InstanceCell {
  ic_handler : brbHandler;
  ic_log : list brb_input;
  ic_output : output_pc;
  ic_open : bool;
}.

(** [brb_heap] are the instances ever created, one per identifier; those in the
    map [instances] are in [brb_live]. *)
Record BRBChannel := MkBRBChannel {
  brb_n : Z;
  brb_f : Z;
  brb_heap : gmap UUID instance_cell;
  brb_live : gset UUID;
  brb_finished : gset UUID;
  brb_pending : list (UUID * brb_input);
  BrbDeliver : list (UUID * BRBMsg);
}.

Inductive brb_chan_err := UnhandledKindErr | HandlerNotFound (id : UUID).

Definition NewBRBChannel (n f : Z) : BRBChannel := MkBRBChannel n f ∅ ∅ ∅ [] [].

Definition new_cell (n f : Z) : instance_cell := InstanceCell (newBrbHandler n f) [] O_wait true.

Definition createInstance (id : UUID) (c : BRBChannel) : BRBChannel :=
  MkBRBChannel (brb_n c) (brb_f c) (<[id := new_cell (brb_n c) (brb_f c)]> (brb_heap c))
    ({[id]} ∪ brb_live c) (brb_finished c) (brb_pending c) (BrbDeliver c).

Definition set_brb_pending x (c : BRBChannel) : BRBChannel :=
  MkBRBChannel (brb_n c) (brb_f c) (brb_heap c) (brb_live c) (brb_finished c) x (BrbDeliver c).
Definition put_cell (id : UUID) (a : instance_cell) (c : BRBChannel) : BRBChannel :=
  MkBRBChannel (brb_n c) (brb_f c) (<[id := a]> (brb_heap c)) (brb_live c) (brb_finished c)
    (brb_pending c) (BrbDeliver c).

Definition input_of (m : brb_msg) : option brb_input :=
  if decide (bm_kind m = code_send) then Some (ISend (bm_content m) (bm_sender m))
  else if decide (bm_kind m = code_echo) then Some (IEcho (bm_content m) (bm_sender m))
  else if decide (bm_kind m = code_ready) then Some (IReady (bm_content m) (bm_sender m))
  else None.

Definition brb_processMsg (m : brb_msg) (c : BRBChannel) : BRBChannel * option brb_chan_err :=
  if decide (bm_id m ∈ brb_finished c) then (c, None) else
  let c := if decide (bm_id m ∈ brb_live c) then c else createInstance (bm_id m) c in
  match input_of m with
  | Some i => (set_brb_pending (brb_pending c ++ [(bm_id m, i)]) c, None)
  | None => (c, Some UnhandledKindErr)
  end.

(** The goroutine of the [i]-th submission; it waits for ever when the instance
    has been closed. *)
Definition brb_submit (i : nat) (c : BRBChannel) : option BRBChannel :=
  '(id, x) ← brb_pending c !! i; a ← brb_heap c !! id;
  if ic_open a then
    match brbInstance_exec x (ic_handler a) with
    | Done (h, _) =>
      Some (put_cell id (InstanceCell h (ic_log a ++ [x]) (ic_output a) (ic_open a))
              (set_brb_pending (delete i (brb_pending c)) c))
    | _ => None
    end
  else None.

(** [processOutput]: the receive of the output, then its command.  The command
    closes the instance in a goroutine of its own; here it is closed at once, so
    inputs it could still have taken after its only output are dropped. *)
Definition processOutput (id : UUID) (c : BRBChannel) : option BRBChannel :=
  a ← brb_heap c !! id;
  match ic_output a with
  | O_wait =>
    match delivered (ic_handler a) with
    | o :: _ => Some (put_cell id (InstanceCell (ic_handler a) (ic_log a) (O_command o) (ic_open a)) c)
    | [] => None
    end
  | O_command o =>
    let c := MkBRBChannel (brb_n c) (brb_f c) (brb_heap c) (brb_live c) (brb_finished c)
               (brb_pending c) (BrbDeliver c ++ [(id, o)]) in
    if decide (id ∈ brb_live c) then
      Some (MkBRBChannel (brb_n c) (brb_f c)
              (<[id := InstanceCell (ic_handler a) (ic_log a) O_done false]> (brb_heap c))
              (brb_live c ∖ {[id]}) ({[id]} ∪ brb_finished c) (brb_pending c) (BrbDeliver c))
    else Some (put_cell id (InstanceCell (ic_handler a) (ic_log a) O_done (ic_open a)) c)
  | O_done => None
  end.

(** ** Invariant of a channel *)

Definition from_id (id : UUID) (l : list (UUID * BRBMsg)) : list BRBMsg := (filter (λ p, p.1 = id) l).*2.

Record cell_inv (n f : Z) (fin : gset UUID) (dl : list (UUID * BRBMsg)) (id : UUID) (a : instance_cell) : Prop := {
  cl_run : brb_run (ic_log a) (newBrbHandler n f) = Done (ic_handler a);
  cl_out : from_id id dl ++ (if ic_output a is O_command o then [o] else []) ⊆ delivered (ic_handler a);
  cl_once : length (from_id id dl) = (if ic_output a is O_done then 1 else 0)%nat;
  cl_finished : id ∈ fin ↔ ic_output a = O_done;
}.

Record brb_chan_inv (c : BRBChannel) : Prop := {
  bi_live id : is_Some (brb_heap c !! id) ↔ id ∈ brb_live c ∪ brb_finished c;
  bi_disjoint : brb_live c ## brb_finished c;
  bi_cell id a : brb_heap c !! id = Some a →
    cell_inv (brb_n c) (brb_f c) (brb_finished c) (BrbDeliver c) id a;
  bi_out id o : (id, o) ∈ BrbDeliver c → is_Some (brb_heap c !! id);
}.

Lemma from_id_snoc id id' o dl :
  from_id id (dl ++ [(id', o)]) = from_id id dl ++ (if decide (id' = id) then [o] else []).
Proof.
  unfold from_id. rewrite list.filter_app, fmap_app, filter_cons, filter_nil. simpl.
  by destruct (decide (id' = id)).
Qed.

Lemma elem_of_from_id id o dl : o ∈ from_id id dl ↔ (id, o) ∈ dl.
Proof.
  unfold from_id. rewrite list_elem_of_fmap. split.
  - intros ([id' o'] & -> & [Heq Hin]%list_elem_of_filter). simpl in Heq. by subst.
  - intros Hin. exists (id, o). split; [done|]. by apply list_elem_of_filter.
Qed.

Lemma lookup_insert_some {A} (m : gmap UUID A) id id' a a' :
  m !! id = Some a → is_Some (<[id := a']> m !! id') ↔ is_Some (m !! id').
Proof.
  intros Ha. destruct (decide (id = id')) as [<-|].
  - rewrite lookup_insert_eq. split; [by eexists|intros; by eexists].
  - by rewrite lookup_insert_ne.
Qed.

Lemma brb_put_inv c id a a' :
  brb_chan_inv c → brb_heap c !! id = Some a →
  cell_inv (brb_n c) (brb_f c) (brb_finished c) (BrbDeliver c) id a' →
  brb_chan_inv (put_cell id a' c).
Proof.
  intros [] Ha Hi. split; simpl; try done.
  - intros id'. by rewrite (lookup_insert_some _ id id' a).
  - intros id' a1 [[<- <-]|[_ ?]]%lookup_insert_Some; [done|auto].
  - intros id' o Ho. rewrite (lookup_insert_some _ id id' a) by done. by eapply bi_out0.
Qed.

Lemma createInstance_inv id c :
  brb_chan_inv c → id ∉ brb_live c → id ∉ brb_finished c → brb_chan_inv (createInstance id c).
Proof.
  intros [] Hl Hf.
  assert (Hn : brb_heap c !! id = None).
  { destruct (brb_heap c !! id) as [a|] eqn:E; [|done].
    assert (is_Some (brb_heap c !! id)) as Hs%bi_live0 by (by exists a). set_solver. }
  assert (Hg : from_id id (BrbDeliver c) = []).
  { destruct (from_id id (BrbDeliver c)) as [|o l] eqn:E; [done|].
    assert (o ∈ from_id id (BrbDeliver c)) as Ho by (rewrite E; by left).
    apply elem_of_from_id, bi_out0 in Ho as [a Ha]. by rewrite Hn in Ha. }
  split; simpl; [|set_solver| |].
  - intros id'. destruct (decide (id = id')) as [<-|].
    + rewrite lookup_insert_eq. split; [set_solver|by eexists].
    + rewrite lookup_insert_ne by done. rewrite bi_live0. set_solver.
  - intros id' a1 [[<- <-]|[_ ?]]%lookup_insert_Some; [|auto].
    split; simpl; rewrite ?Hg; [done|set_solver|done|]. split; [done|done].
  - intros id' o [a Ha]%bi_out0. destruct (decide (id = id')) as [<-|].
    + rewrite lookup_insert_eq. by eexists.
    + rewrite lookup_insert_ne by done. by eexists.
Qed.

Lemma brb_processMsg_inv m c : brb_chan_inv c → brb_chan_inv (brb_processMsg m c).1.
Proof.
  intros Hc. unfold brb_processMsg. destruct (decide (bm_id m ∈ brb_finished c)) as [|Hf]; [done|].
  assert (brb_chan_inv (if decide (bm_id m ∈ brb_live c) then c else createInstance (bm_id m) c)) as Hc'.
  { destruct (decide (bm_id m ∈ brb_live c)); [done|by apply createInstance_inv]. }
  destruct (input_of m); [|done]. by destruct Hc'.
Qed.

Lemma brb_submit_inv i c c' : brb_chan_inv c → brb_submit i c = Some c' → brb_chan_inv c'.
Proof.
  intros Hc Hs. unfold brb_submit in Hs. apply bind_Some in Hs as ([id x] & _ & Hs).
  apply bind_Some in Hs as (a & Ha & Hs). destruct (ic_open a); [|done].
  destruct (brbInstance_exec x (ic_handler a)) as [[h e]| |] eqn:Hex; try done. injection Hs as <-.
  apply (brb_put_inv _ id a); [by destruct Hc|done|]. destruct (bi_cell _ Hc id a Ha).
  destruct (brbInstance_exec_grows x _ h e Hex) as (_ & _ & Hg). split; simpl; try done.
  - rewrite brb_run_snoc, cl_run0. simpl. by rewrite Hex.
  - intros o Ho. by apply Hg, cl_out0.
Qed.

Lemma processOutput_inv id c c' : brb_chan_inv c → processOutput id c = Some c' → brb_chan_inv c'.
Proof.
  intros Hc Hs. unfold processOutput in Hs. apply bind_Some in Hs as (a & Ha & Hs).
  pose proof (bi_cell _ Hc id a Ha) as Hi. destruct (ic_output a) as [|o|] eqn:Ho; [| |done].
  - destruct (delivered (ic_handler a)) as [|o q] eqn:Hd; [done|]. injection Hs as <-.
    apply (brb_put_inv _ id a); [done|done|]. destruct Hi. rewrite Ho in *.
    assert (from_id id (BrbDeliver c) = []) as Hnil by (by apply nil_length_inv).
    split; simpl; rewrite ?Hnil, ?Hd; [done|set_solver|done|]. rewrite cl_finished0. by split.
  - assert (Hnf : id ∉ brb_finished c) by (rewrite (cl_finished _ _ _ _ _ _ Hi), Ho; done).
    assert (Hl : id ∈ brb_live c).
    { assert (is_Some (brb_heap c !! id)) as Hx by (by exists a). apply (bi_live _ Hc) in Hx. set_solver. }
    simpl in Hs. rewrite decide_True in Hs by done. injection Hs as <-.
    destruct Hi. rewrite Ho in *.
    assert (from_id id (BrbDeliver c) = []) as Hnil by (by apply nil_length_inv). rewrite Hnil in cl_out0.
    destruct Hc. split; simpl; [|set_solver| |].
    + intros id'. rewrite (lookup_insert_some _ id id' a), bi_live0 by done.
      destruct (decide (id' = id)) as [->|]; set_solver.
    + intros id' a1 [[<- <-]|[Hne Ha1]]%lookup_insert_Some.
      * split; simpl; rewrite ?from_id_snoc, ?Hnil, ?decide_True by done; simpl; try done.
        split; [done|set_solver].
      * destruct (bi_cell0 id' a1 Ha1). split; rewrite ?from_id_snoc, ?decide_False, ?app_nil_r by done; try done.
        rewrite <-cl_finished1. set_solver.
    + intros id' o'. rewrite (lookup_insert_some _ id id' a) by done.
      intros [?|[= -> ->]%list_elem_of_singleton]%elem_of_app; [by eapply bi_out0|by eexists].
Qed.

(** ** The network of channels *)

Inductive brb_chan_event :=
| DMsg (m : brb_msg)
| DSubmit (i : nat)
| DOutput (id : UUID).

Definition brb_chan_exec (e : brb_chan_event) (c : BRBChannel) : option BRBChannel :=
  match e with
  | DMsg m => Some (brb_processMsg m c).1
  | DSubmit i => brb_submit i c
  | DOutput id => processOutput id c
  end.

Abbreviation brb_chan_config := (UUID → BRBChannel).

Section network.
Context (mb : membership UUID) (msgs : list bytes) (sends : UUID → list (UUID * bytes)).

(** The commands the instance [id] of a channel has executed. *)
Definition log_of (id : UUID) (c : BRBChannel) : list brb_input :=
  match brb_heap c !! id with Some a => ic_log a | None => [] end.
Definition brb_project (id : UUID) (C : brb_chan_config) : brb_config := λ j, log_of id (C j).

(** A message that can arrive: of a correct sender only what its instance has
    put on its channels.  Messages of unknown kinds come from faulty ones. *)
Definition brb_event_ok (C : brb_chan_config) (e : brb_chan_event) : Prop :=
  match e with
  | DMsg m =>
    match input_of m with
    | Some i => in_network mb msgs (sends (bm_id m)) (brb_project (bm_id m) C) i
    | None => True
    end
  | _ => True
  end.

Inductive brb_chan_step (C : brb_chan_config) : brb_chan_config → Prop :=
| brb_chan_event_step j e c :
    correct mb j → brb_event_ok C e → brb_chan_exec e (C j) = Some c → brb_chan_step C (<[j := c]> C).

Definition brb_chan_init : brb_chan_config := λ _, NewBRBChannel (mb_n mb) (mb_f mb).
Definition brb_chan_reachable (C : brb_chan_config) : Prop := rtc brb_chan_step brb_chan_init C.

(** The channel at [j] has handed [o] to its client, from instance [id]. *)
Definition ChannelDelivers (C : brb_chan_config) (j id : UUID) (o : BRBMsg) : Prop :=
  (id, o) ∈ BrbDeliver (C j).

Definition same_logs (c c' : BRBChannel) : Prop := ∀ id, log_of id c' = log_of id c.

Record brb_net_ok (C : brb_chan_config) : Prop := {
  bn_chan j : brb_chan_inv (C j) ∧ brb_n (C j) = mb_n mb ∧ brb_f (C j) = mb_f mb;
  bn_pending j id i : (id, i) ∈ brb_pending (C j) → in_network mb msgs (sends id) (brb_project id C) i;
  bn_reachable id : net_reachable mb msgs (sends id) (brb_project id C);
}.

Lemma brb_project_upd id C j c :
  brb_project id (<[j := c]> C) = <[j := log_of id c]> (brb_project id C).
Proof.
  apply functional_extensionality. intros i. unfold brb_project.
  destruct (decide (i = j)) as [->|]; [by rewrite !fn_lookup_insert|by rewrite !fn_lookup_insert_ne].
Qed.

Lemma brb_project_same id C j c : log_of id c = log_of id (C j) → brb_project id (<[j := c]> C) = brb_project id C.
Proof.
  intros Hs. rewrite brb_project_upd, Hs. apply functional_extensionality. intros i.
  destruct (decide (i = j)) as [->|]; [by rewrite fn_lookup_insert|by rewrite fn_lookup_insert_ne].
Qed.

Lemma log_of_put id id' a a' c :
  brb_heap c !! id = Some a → log_of id' (put_cell id a' c) =
  if decide (id = id') then ic_log a' else log_of id' c.
Proof.
  intros Ha. unfold log_of. simpl. destruct (decide (id = id')) as [<-|].
  - by rewrite lookup_insert_eq.
  - by rewrite lookup_insert_ne.
Qed.

Lemma processMsg_logs m c : brb_chan_inv c → same_logs c (brb_processMsg m c).1.
Proof.
  intros Hc id. unfold brb_processMsg. destruct (decide (bm_id m ∈ brb_finished c)); [done|].
  assert (log_of id (if decide (bm_id m ∈ brb_live c) then c else createInstance (bm_id m) c) = log_of id c) as Hl.
  { destruct (decide (bm_id m ∈ brb_live c)) as [|Hn]; [done|]. unfold log_of. simpl.
    destruct (decide (bm_id m = id)) as [<-|]; [|by rewrite lookup_insert_ne].
    rewrite lookup_insert_eq. destruct (brb_heap c !! bm_id m) as [a|] eqn:E; [|done].
    assert (is_Some (brb_heap c !! bm_id m)) as Hs by (by exists a). apply (bi_live _ Hc) in Hs. set_solver. }
  by destruct (input_of m).
Qed.

Lemma processMsg_rest m c :
  brb_n (brb_processMsg m c).1 = brb_n c ∧ brb_f (brb_processMsg m c).1 = brb_f c ∧
  ∀ id y, (id, y) ∈ brb_pending (brb_processMsg m c).1 →
    (id, y) ∈ brb_pending c ∨ (id = bm_id m ∧ input_of m = Some y).
Proof.
  unfold brb_processMsg. destruct (decide (bm_id m ∈ brb_finished c)); [by split_and!; auto|].
  destruct (decide (bm_id m ∈ brb_live c)); destruct (input_of m) as [x|]; simpl;
    split_and!; try done; intros id y; try (by left);
    (intros [?|[= -> ->]%list_elem_of_singleton]%elem_of_app; [by left|by right]).
Qed.

Lemma processOutput_logs id c c' : processOutput id c = Some c' → same_logs c c' ∧ brb_pending c' = brb_pending c.
Proof.
  unfold processOutput. intros Hs. apply bind_Some in Hs as (a & Ha & Hs).
  destruct (ic_output a) as [|o|]; [| |done].
  - destruct (delivered (ic_handler a)); [done|]. injection Hs as <-. split; [|done]. intros id'.
    rewrite (log_of_put id id' a) by done. unfold log_of. by case_decide as Hd; [rewrite <-Hd, Ha|].
  - assert (∀ c1 b, brb_heap c1 = brb_heap c → same_logs c (put_cell id (InstanceCell (ic_handler a) (ic_log a) O_done b) c1)) as Hl.
    { intros c1 b Hh id'. unfold log_of. simpl. rewrite Hh. destruct (decide (id = id')) as [<-|].
      - by rewrite lookup_insert_eq, Ha.
      - by rewrite lookup_insert_ne. }
    case_decide; injection Hs as <-; (split; [|done]).
    + intros id'. apply (Hl c false). done.
    + by apply Hl.
Qed.

(** Messages that can arrive keep being able to. *)
Lemma in_network_upd H j i s x h h' e :
  instance_of mb H j = Done h → brbInstance_exec i h = Done (h', e) →
  in_network mb msgs s H x → in_network mb msgs s (<[j := H j ++ [i]]> H) x.
Proof.
  intros Hh Hex. destruct (sent_mono mb H j i h h' e Hh Hex) as [HE HR].
  destruct x; simpl; [done|..]; intros (? & ? & [?|?]); split_and!; auto.
Qed.

Lemma brb_net_ok_same C j c :
  brb_net_ok C → brb_chan_inv c → brb_n c = mb_n mb → brb_f c = mb_f mb → same_logs (C j) c →
  (∀ id i, (id, i) ∈ brb_pending c → in_network mb msgs (sends id) (brb_project id C) i) →
  brb_net_ok (<[j := c]> C).
Proof.
  intros [] Hc Hn Hf Hl Hp.
  assert (Heq : ∀ id, brb_project id (<[j := c]> C) = brb_project id C) by (intros; by apply brb_project_same).
  split.
  - intros i. destruct (decide (i = j)) as [->|]; [by rewrite fn_lookup_insert|by rewrite fn_lookup_insert_ne].
  - intros i id x. rewrite Heq.
    destruct (decide (i = j)) as [->|]; [rewrite fn_lookup_insert; auto|rewrite fn_lookup_insert_ne by done; eauto].
  - intros id. by rewrite Heq.
Qed.

(** A submission is one command of one instance. *)
Lemma brb_submit_project C j i c :
  brb_net_ok C → brb_submit i (C j) = Some c → ∃ id x h h' e,
  (id, x) ∈ brb_pending (C j) ∧ instance_of mb (brb_project id C) j = Done h ∧
  brbInstance_exec x h = Done (h', e) ∧
  brb_project id (<[j := c]> C) = <[j := brb_project id C j ++ [x]]> (brb_project id C) ∧
  (∀ id', id' ≠ id → brb_project id' (<[j := c]> C) = brb_project id' C) ∧
  brb_n c = brb_n (C j) ∧ brb_f c = brb_f (C j) ∧ brb_pending c = delete i (brb_pending (C j)).
Proof.
  intros HC Hs. pose proof HC as [Hchan Hpend Hreach]. destruct (Hchan j) as (Hc & Hn & Hf).
  unfold brb_submit in Hs. apply bind_Some in Hs as ([id x] & Hi & Hs).
  apply bind_Some in Hs as (a & Ha & Hs). destruct (ic_open a); [|done].
  destruct (brbInstance_exec x (ic_handler a)) as [[h e]| |] eqn:Hex; try done. injection Hs as <-.
  pose proof (cl_run _ _ _ _ _ _ (bi_cell _ Hc id a Ha)) as Hrun. rewrite Hn, Hf in Hrun.
  assert (Hlog : brb_project id C j = ic_log a) by (unfold brb_project, log_of; by rewrite Ha).
  exists id, x, (ic_handler a), h, e. split_and!; [by eapply list_elem_of_lookup_2| |done| | |done..].
  - unfold instance_of. by rewrite Hlog.
  - rewrite brb_project_upd, Hlog. f_equal. unfold log_of. simpl. by rewrite lookup_insert_eq.
  - intros id' Hd. apply brb_project_same. unfold log_of. simpl. by rewrite lookup_insert_ne.
Qed.

Lemma in_network_submit C j i c id y :
  brb_net_ok C → brb_submit i (C j) = Some c →
  in_network mb msgs (sends id) (brb_project id C) y →
  in_network mb msgs (sends id) (brb_project id (<[j := c]> C)) y.
Proof.
  intros HC Hs Hy. destruct (brb_submit_project C j i c HC Hs) as (id' & x & h & h' & e & _ & Hh & Hex & Hid & Hne & _).
  destruct (decide (id = id')) as [->|Hd]; [|by rewrite Hne]. rewrite Hid. by eapply in_network_upd.
Qed.

Lemma brb_net_ok_submit C j i c :
  brb_net_ok C → correct mb j → brb_submit i (C j) = Some c → brb_net_ok (<[j := c]> C).
Proof.
  intros HC Hj Hs. pose proof HC as [Hchan Hpend Hreach]. destruct (Hchan j) as (Hc & Hn & Hf).
  pose proof (brb_submit_inv i (C j) c Hc Hs) as Hc'.
  destruct (brb_submit_project C j i c HC Hs) as (id & x & h & h' & e & Hin & Hh & Hex & Hid & Hne & Hn' & Hf' & Hp).
  split.
  - intros k. destruct (decide (k = j)) as [->|]; [rewrite fn_lookup_insert|by rewrite fn_lookup_insert_ne].
    by rewrite Hn', Hf'.
  - intros k id' y Hy. apply (in_network_submit C j i c); [done..|]. destruct (decide (k = j)) as [->|];
      [rewrite fn_lookup_insert, Hp in Hy|rewrite fn_lookup_insert_ne in Hy by done; by apply (Hpend k)].
    apply (Hpend j). by eapply list_elem_of_delete_inv.
  - intros id'. destruct (decide (id' = id)) as [->|Hd]; [|by rewrite Hne].
    rewrite Hid. eapply rtc_r; [apply Hreach|]. constructor; [done|]. by apply (Hpend j).
Qed.

Lemma brb_net_ok_step C C' : brb_net_ok C → brb_chan_step C C' → brb_net_ok C'.
Proof.
  intros HC [j e c Hj Hok Hex]. pose proof HC as [Hchan Hpend Hreach]. destruct (Hchan j) as (Hc & Hn & Hf).
  destruct e as [m|i|id]; simpl in Hex, Hok.
  - injection Hex as <-.
    apply brb_net_ok_same; [done|by apply brb_processMsg_inv| | |by apply processMsg_logs|];
      destruct (processMsg_rest m (C j)) as (H1 & H2 & H3); [by rewrite H1|by rewrite H2|].
    intros id y [Hy|[-> Hy]]%H3; [by apply (Hpend j)|]. by rewrite Hy in Hok.
  - by eapply brb_net_ok_submit.
  - pose proof (processOutput_logs id (C j) c Hex) as [Hl Hp].
    apply brb_net_ok_same; [done|by eapply processOutput_inv| | |done|rewrite Hp; apply Hpend];
      unfold processOutput in Hex; apply bind_Some in Hex as (a & Ha & Hex);
      (destruct (ic_output a); [destruct (delivered _); [done|]|case_decide|done]); by injection Hex as <-.
Qed.

(** What can arrive keeps being able to. *)
Lemma in_network_step C C' id y :
  brb_net_ok C → brb_chan_step C C' →
  in_network mb msgs (sends id) (brb_project id C) y →
  in_network mb msgs (sends id) (brb_project id C') y.
Proof.
  intros HC [j e c Hj Hok Hex] Hy. destruct e as [m|i|id']; simpl in Hex.
  - injection Hex as <-. rewrite brb_project_same; [done|]. apply processMsg_logs, (bn_chan _ HC).
  - by eapply in_network_submit.
  - rewrite brb_project_same; [done|]. by apply (processOutput_logs id' (C j)).
Qed.

Lemma brb_chan_inv_init n f : brb_chan_inv (NewBRBChannel n f).
Proof.
  split; simpl; [|set_solver|done|].
  - intros id. rewrite lookup_empty. split; [by intros [? ?]|set_solver].
  - intros id o Ho. by apply not_elem_of_nil in Ho.
Qed.

Lemma brb_net_ok_reachable C : brb_chan_reachable C → brb_net_ok C.
Proof.
  revert C. apply (rtc_ind_r (R := brb_chan_step) brb_net_ok).
  - split.
    + intros j. split_and!; [apply brb_chan_inv_init|done|done].
    + intros j id i Hi. by apply not_elem_of_nil in Hi.
    + intros id. assert (brb_project id brb_chan_init = net_init) as ->; [|constructor].
      by apply functional_extensionality.
  - intros C C' _ Hs HC. by eapply brb_net_ok_step.
Qed.

(** What a channel delivers, its instance delivers. *)
Lemma channel_delivers C j id o :
  brb_net_ok C → ChannelDelivers C j id o → Delivers mb (brb_project id C) j o.
Proof.
  intros [Hchan _ _] Ho. destruct (Hchan j) as (Hc & Hn & Hf). unfold ChannelDelivers in Ho.
  destruct (bi_out _ Hc id o Ho) as [a Ha]. destruct (bi_cell _ Hc id a Ha) as [Hrun Hout _ _].
  exists (ic_handler a). split.
  - unfold instance_of, brb_project, log_of. rewrite Ha, <-Hn, <-Hf. done.
  - apply Hout, elem_of_app. left. by apply elem_of_from_id.
Qed.

Lemma channel_once C j id o :
  brb_net_ok C → ChannelDelivers C j id o → from_id id (BrbDeliver (C j)) = [o].
Proof.
  intros [Hchan _ _] Ho. destruct (Hchan j) as (Hc & _ & _). unfold ChannelDelivers in Ho.
  destruct (bi_out _ Hc id o Ho) as [a Ha]. destruct (bi_cell _ Hc id a Ha) as [_ _ Honce _].
  apply elem_of_from_id in Ho. destruct (from_id id (BrbDeliver (C j))) as [|x [|y l]].
  - by apply not_elem_of_nil in Ho.
  - by apply list_elem_of_singleton in Ho as ->.
  - simpl in Honce. destruct (ic_output a); lia.
Qed.
(** Agreement and integrity of the channels. *)
Lemma channel_agreement `{!Resilient mb} C i j id o o' :
  collision_free msgs → brb_net_ok C → ChannelDelivers C i id o → ChannelDelivers C j id o' →
  o = o' ∧ from_id id (BrbDeliver (C i)) = [o] ∧ (Sender o, Content o) ∈ sends id.
Proof.
  intros Hcf HC Ho Ho'. pose proof (reachable_inv mb msgs Hcf (sends id) _ (bn_reachable _ HC id)) as Hi.
  pose proof (channel_delivers C i id o HC Ho) as Hd. split; [|split].
  - apply (delivery_unique mb msgs Hcf (sends id) (brb_project id C) i j); [done|done|]. by eapply channel_delivers.
  - by eapply channel_once.
  - by apply (delivery_genuine mb msgs Hcf (sends id) (brb_project id C) i).
Qed.
End network.

(** ** The broadcast of [BrbNetwork], through the channels *)

Module BrbChannelExample.
Import Example4 BrbExample.

Section schedules.
Context (mb : membership UUID) (msgs : list bytes) (sends : UUID → list (UUID * bytes)).

Definition brb_event_check (C : brb_chan_config) (e : brb_chan_event) : bool :=
  match e with
  | DMsg m =>
    match input_of m with
    | Some i => bool_decide (in_network mb msgs (sends (bm_id m)) (brb_project (bm_id m) C) i)
    | None => true
    end
  | _ => true
  end.

Fixpoint brb_chan_schedule (l : list (UUID * brb_chan_event)) (C : brb_chan_config) : option brb_chan_config :=
  match l with
  | [] => Some C
  | (j, e) :: l =>
    if bool_decide (correct mb j) && brb_event_check C e
    then c ← brb_chan_exec e (C j); brb_chan_schedule l (<[j := c]> C) else None
  end.

Lemma brb_chan_schedule_sound l C C' :
  brb_chan_schedule l C = Some C' → rtc (brb_chan_step mb msgs sends) C C'.
Proof.
  revert C. induction l as [|[j e] l IH]; intros C; simpl.
  - intros [= <-]. constructor.
  - destruct (bool_decide _ && _) eqn:Hd; [|done]. apply andb_prop in Hd as [Hj%bool_decide_eq_true_1 He].
    intros (c & Hex & Hr)%bind_Some. eapply rtc_l; [|by apply IH].
    apply (brb_chan_event_step mb msgs sends C j e c); [done| |done].
    destruct e as [m| |]; simpl in *; [|done..].
    destruct (input_of m); [by apply bool_decide_eq_true_1 in He|done].
Qed.
End schedules.

Definition cid : UUID := uuid_of_byte "008".
Definition csends (id : UUID) : list (UUID * bytes) := if decide (id = cid) then sends4 else [].
Definition msg_of (i : brb_input) : brb_msg :=
  match i with
  | ISend m s => BrbMsg code_send cid s m
  | IEcho m s => BrbMsg code_echo cid s m
  | IReady m s => BrbMsg code_ready cid s m
  end.
Definition crun : list (UUID * brb_chan_event) :=
  ('(j, i) ← schedule4; [(j, DMsg (msg_of i)); (j, DSubmit 0)]) ++
  [(p2, DMsg (BrbMsg "000"%byte p3 p4 []));
   (p2, DOutput cid); (p2, DOutput cid); (p3, DOutput cid); (p3, DOutput cid);
   (p3, DMsg (msg_of (IEcho msg4 p1)))].
Definition cconfig : brb_chan_config :=
  default (brb_chan_init mb4) (brb_chan_schedule mb4 msgs4 csends crun (brb_chan_init mb4)).

Lemma cconfig_reachable : brb_chan_reachable mb4 msgs4 csends cconfig.
Proof.
  unfold cconfig. destruct (brb_chan_schedule mb4 msgs4 csends crun (brb_chan_init mb4)) as [C|] eqn:E;
    [|constructor]. by apply brb_chan_schedule_sound in E.
Qed.

Lemma channel_delivers_dec C j id o :
  bool_decide ((id, o) ∈ BrbDeliver (C j)) = true → ChannelDelivers C j id o.
Proof. apply bool_decide_eq_true_1. Qed.
Lemma cconfig_p2 : ChannelDelivers cconfig p2 cid out4.
Proof. apply channel_delivers_dec. vm_compute. reflexivity. Qed.
Lemma cconfig_p3 : ChannelDelivers cconfig p3 cid out4.
Proof. apply channel_delivers_dec. vm_compute. reflexivity. Qed.
End BrbChannelExample.
Import Example4 BrbExample BrbChannelExample.

(** ** Theorems *)

(** Agreement and integrity of the channels.  In a network of
    [BRBChannel]s, two processes deliver the same message from the instance of
    one identifier, each at most once, and it is a broadcast that was made under
    that identifier by the process named as its sender. *)
Theorem brb_channel_agreement (mb : membership UUID) `{!Resilient mb} msgs sends (C : brb_chan_config)
    i j id o o' :
  collision_free msgs → brb_chan_reachable mb msgs sends C →
  ChannelDelivers C i id o → ChannelDelivers C j id o' →
  o = o' ∧ from_id id (BrbDeliver (C i)) = [o] ∧ (Sender o, Content o) ∈ sends id.
Proof.
  intros Hcf Hr Ho Ho'. by apply (channel_agreement mb msgs sends C i j id); [|by apply brb_net_ok_reachable|..].
Qed.

Lemma brb_channel_agreement_witness :
  out4 = out4 ∧ from_id cid (BrbDeliver (cconfig p2)) = [out4] ∧ (Sender out4, Content out4) ∈ csends cid.
Proof.
  exact (brb_channel_agreement mb4 msgs4 csends cconfig p2 p3 cid out4 out4 collision_free4
    cconfig_reachable cconfig_p2 cconfig_p3).
Defined.
