(* ===== verification/ByzChannel.v ===== *)
(** * [byzChannel.go]: the faulty process of the tests

    A [byzChannel] answers the first message of every instance with two readies
    and two echoes of a content of its own.  Its middleware is that of
    [BrbMiddleware]; what it broadcasts is the list of the messages it hands to
    [BEBroadcast].  To a correct instance the four count as one echo and one
    ready: the second of each is refused. *)

From stdpp Require Import base tactics numbers list gmap strings.
From Stdlib Require Import Init.Byte.
From S2P Require Import Prelude Utils BrbInstance BrbMiddleware.

Local Open Scope Z_scope.

Definition byzMsg : bytes := String.list_byte_of_string "I am byzantine and I hate candy :(".

Record byzChannel := MkByzChannel {
  byz_received : gset UUID;
  byz_broadcasts : list bytes;
}.

Definition createByzChannel : byzChannel := MkByzChannel ∅ [].

(** The four calls of [broadcastMsg]. *)
Definition byz_answer (id : UUID) : list bytes :=
  [wrapMessage code_ready id byzMsg; wrapMessage code_ready id byzMsg;
   wrapMessage code_echo id byzMsg; wrapMessage code_echo id byzMsg].

Definition byz_processMsg (m : brb_msg) (b : byzChannel) : byzChannel :=
  if decide (bm_id m ∈ byz_received b) then b
  else MkByzChannel ({[bm_id m]} ∪ byz_received b) (byz_broadcasts b ++ byz_answer (bm_id m)).

(** [bebDeliver] with the messages of its channel. *)
Definition byz_bebDeliver (ms : list brb_msg) (b : byzChannel) : byzChannel :=
  foldl (λ b m, byz_processMsg m b) b ms.

(** ** What it broadcasts *)

(** The identifiers in the order in which they first arrive. *)
Definition first_ids (seen : gset UUID) (ms : list brb_msg) : list UUID :=
  (foldl (λ '(seen, ids) m, if decide (bm_id m ∈ seen) then (seen, ids)
                            else ({[bm_id m]} ∪ seen, ids ++ [bm_id m])) (seen, []) ms).2.

Lemma first_ids_snoc seen ms m :
  first_ids seen (ms ++ [m]) =
  first_ids seen ms ++ (if decide (bm_id m ∈ byz_received (byz_bebDeliver ms (MkByzChannel seen []))) then [] else [bm_id m]).
Proof.
  assert (Hs : ∀ (l : list brb_msg) s out ids, (foldl (λ '(seen, ids) m, if decide (bm_id m ∈ seen) then (seen, ids)
    else ({[bm_id m]} ∪ seen, ids ++ [bm_id m])) (s, ids) l).1 = byz_received (byz_bebDeliver l (MkByzChannel s out))).
  { induction l as [|x l IH]; intros s out ids; [done|]. simpl. unfold byz_processMsg. simpl.
    destruct (decide (bm_id x ∈ s)); apply IH. }
  unfold first_ids. rewrite foldl_app. rewrite <-(Hs ms seen [] []). destruct (foldl _ _ ms) as [s ids]. simpl.
  destruct (decide (bm_id m ∈ s)); [by rewrite app_nil_r|done].
Qed.

(** ** What its messages do to an instance *)

Lemma echo_twice msg s h h' err :
  brbInstance_exec (IEcho msg s) h = Done (h', err) →
  brbInstance_exec (IEcho msg s) h' = Done (h', Some (AlreadyEchoed s)).
Proof.
  simpl. unfold brbHandler_handleEcho. case_decide as Hs.
  - intros [= <- _]. by rewrite decide_True.
  - destruct (brbPhase1Handler_handleEcho _ _ _ _) as [[p1 e]| |]; simpl; [|done..]. intros [= <- _]. simpl.
    by rewrite decide_True by set_solver.
Qed.

Lemma ready_twice msg s h h' err :
  brbInstance_exec (IReady msg s) h = Done (h', err) →
  brbInstance_exec (IReady msg s) h' = Done (h', Some (AlreadyReadied s)).
Proof.
  simpl. unfold brbHandler_handleReady. case_decide as Hs.
  - intros [= <- _]. by rewrite decide_True.
  - destruct (brbPhase1Handler_handleReady _ _ _ _) as [[p1 e]| |]; simpl; [|done..]. intros [= <- _]. simpl.
    by rewrite decide_True by set_solver.
Qed.

(** ** Theorems *)

(** Whatever arrives, the channel broadcasts one answer for each instance, in the
    order in which the instances first appear. *)
Theorem byz_broadcasts_exact ms :
  byz_broadcasts (byz_bebDeliver ms createByzChannel) = first_ids ∅ ms ≫= byz_answer.
Proof.
  induction ms as [|m ms IH] using rev_ind; [done|].
  rewrite first_ids_snoc, bind_app, <-IH. unfold byz_bebDeliver at 1. rewrite foldl_app. simpl.
  fold (byz_bebDeliver ms createByzChannel). unfold byz_processMsg at 1. fold createByzChannel.
  case_decide; simpl; by rewrite ?app_nil_r.
Qed.

(** A correct process reads an answer as two readies and two echoes of the sender,
    which leave an instance where one of each does. *)
Theorem byz_answer_counts_once {PublicKey} (SerializePublicKey : PublicKey → option bytes) pk s id h :
  PkToUUID SerializePublicKey pk = Some s →
  mapM (λ b, match brbMiddleware_processMsg SerializePublicKey b pk with Ok m => Some m | Err _ => None end) (byz_answer id) =
    Some [BrbMsg code_ready id s byzMsg; BrbMsg code_ready id s byzMsg;
          BrbMsg code_echo id s byzMsg; BrbMsg code_echo id s byzMsg] ∧
  brb_run [IReady byzMsg s; IReady byzMsg s; IEcho byzMsg s; IEcho byzMsg s] h =
  brb_run [IReady byzMsg s; IEcho byzMsg s] h.
Proof.
  intros Hk. split.
  - unfold byz_answer. simpl. rewrite !(processMsg_wrapMessage SerializePublicKey _ id byzMsg pk s) by auto.
    done.
  - cbn [brb_run]. destruct (brbInstance_exec (IReady byzMsg s) h) as [[h1 e1]| |] eqn:H1; [|done..].
    cbn [mbind outcome_bind]. rewrite (ready_twice _ _ _ _ _ H1). cbn [mbind outcome_bind].
    destruct (brbInstance_exec (IEcho byzMsg s) h1) as [[h2 e2]| |] eqn:H2; [|done..].
    cbn [mbind outcome_bind]. by rewrite (echo_twice _ _ _ _ _ H2).
Qed.
