(* ===== verification/Bca.v ===== *)
(** * Package [asynchronousBinaryAgreement]: the interface [bca]

    What [round.go] asks of a binding crusader agreement, as a type class with
    the operations of the Go interface.  Both implementations ([Ivbca],
    [Evbca]) are driven by handler calls and by three goroutines that
    communicate over buffered channels; the channels are named here. *)

From stdpp Require Import base tactics numbers list fin_sets gmap functions.
From S2P Require Import Prelude Utils.

Local Open Scope Z_scope.

(** [bot byte = 2] and the test of [round.go]. *)
Definition bot : Z := 2.
Definition isInputValid (val : Z) : bool := (val =? 0) || (val =? 1).

Inductive bca_err :=
| InvalidInput (v : Z)
| InvalidCoin (v : Z)
| RepeatedEcho
| AlreadyVoted
| AlreadyBound.

(** The channels of the two structs ([prevCoinChan], [inputExternalValidChan]
    and [closeChan] exist in [evbca] only).  A signal [struct{}{}] is [0]. *)
Inductive bca_chan :=
| CEcho | CVote | CBind | COut | CExt
| CApprove | CBindBot | CBindVal | CTermBot | CTermVal | CUnblock
| CPrevCoin | CInputExt | CClose.

#[export] Instance bca_chan_eq_dec : EqDecision bca_chan.
Proof. solve_decision. Defined.

Abbreviation bca_chans := (bca_chan → list Z).

(** The channels with a getter in the interface, read by the owner. *)
Definition out_chans : list bca_chan := [CEcho; CVote; CBind; COut; CExt].

(** The goroutines [waitToVote], [waitToBind] and [waitToDecide]. *)
Inductive bca_go := GoVote | GoBind | GoDecide.

Class BCA (T : Type) : Type := {
  bca_new : Z → Z → T;
  bca_propose : Z → Z → T → outcome (T * option bca_err);
  bca_submitExternallyValid : Z → T → outcome T;
  bca_submitEcho : Z → UUID → T → outcome (T * option bca_err);
  bca_submitVote : Z → UUID → T → outcome (T * option bca_err);
  bca_submitBind : Z → UUID → T → outcome (T * option bca_err);
  (** One channel operation of a goroutine; the channel is the branch taken in
      a [select]. *)
  bca_step : bca_go → bca_chan → T → option T;
  (** A receive by the round or the MMR instance from [getBcastEchoChan],
      [getBcastVoteChan], [getBcastBindChan], [getOutputDecision] or
      [getOutputExternalValidChan]. *)
  bca_take : bca_chan → T → option (Z * T);
}.

Lemma isInputValid_spec v : isInputValid v = true ↔ v = 0 ∨ v = 1.
Proof. unfold isInputValid. rewrite orb_true_iff, !Z.eqb_eq. done. Qed.
Lemma isInputValid_false v : isInputValid v = false ↔ ¬ (v = 0 ∨ v = 1).
Proof. rewrite <-isInputValid_spec. by destruct (isInputValid v). Qed.

(** Sending on a channel from a goroutine: [None] while it would block. *)
Definition go_send (cap : bca_chan → nat) (c : bca_chan) (v : Z) (s : bca_chans) :
    option bca_chans :=
  match chan_send cap c v s with Done s => Some s | _ => None end.

Lemma go_send_inv cap c v s s' :
  go_send cap c v s = Some s' → chan_send cap c v s = Done s'.
Proof. unfold go_send. by destruct (chan_send cap c v s); intros; simplify_eq. Qed.

Lemma go_send_other cap c v s s' c' : go_send cap c v s = Some s' → c ≠ c' → s' c' = s c'.
Proof. intros [_ ->]%go_send_inv%chan_send_inv Hne. by rewrite fn_lookup_insert_ne. Qed.

Lemma chan_recv_other c (s : bca_chans) v s' c' : chan_recv c s = Some (v, s') → c ≠ c' → s' c' = s c'.
Proof. intros (q & _ & ->)%chan_recv_inv Hne. by rewrite fn_lookup_insert_ne. Qed.

(** ** The goroutines the two implementations share

    [waitToBind] and [waitToDecide] have the same text in both files.  A
    program counter names the next channel operation; a step performs it, the
    branch of a [select] being the channel it receives from. *)

Inductive bind_pc := B_select | B_send (bindVal : Z) | B_done.
Inductive decide_pc := D_first | D_second | D_send (decision : Z) | D_unblock | D_done.

Section goroutines.
Context (cap : bca_chan → nat).

Definition waitToBind_step (br : bca_chan) (pc : bind_pc) (s : bca_chans) :
    option (bind_pc * bca_chans) :=
  match pc, br with
  | B_select, CBindBot => '(_, s) ← chan_recv CBindBot s; Some (B_send bot, s)
  | B_select, CBindVal => '(v, s) ← chan_recv CBindVal s; Some (B_send v, s)
  | B_send bindVal, CBind => s ← go_send cap CBind bindVal s; Some (B_done, s)
  | _, _ => None
  end.

Definition waitToDecide_step (br : bca_chan) (pc : decide_pc) (s : bca_chans) :
    option (decide_pc * bca_chans) :=
  match pc, br with
  | D_first, CTermVal => '(v, s) ← chan_recv CTermVal s; Some (D_send v, s)
  | D_first, CTermBot => '(_, s) ← chan_recv CTermBot s; Some (D_second, s)
  | D_second, CTermVal => '(v, s) ← chan_recv CTermVal s; Some (D_send v, s)
  | D_second, CTermBot => '(_, s) ← chan_recv CTermBot s; Some (D_send bot, s)
  | D_send decision, COut => s ← go_send cap COut decision s; Some (D_unblock, s)
  | D_unblock, CUnblock => s ← go_send cap CUnblock 0 s; Some (D_done, s)
  | _, _ => None
  end.
End goroutines.

(** ** Channel histories

    [tk c] are the values received from [c] so far and [sn c] those sent; the
    queue is what lies between. *)

Definition linked (tk sn s : bca_chans) : Prop := ∀ c, sn c = tk c ++ s c.

Definition bca_init_chans : bca_chans := λ _, [].

Lemma linked_init : linked (λ _, []) (λ _, []) bca_init_chans.
Proof. done. Qed.

Lemma linked_send cap tk sn s c v :
  linked tk sn s → (length (sn c) < cap c)%nat →
  chan_send cap c v s = Done (<[c := s c ++ [v]]> s) ∧
  linked tk (<[c := sn c ++ [v]]> sn) (<[c := s c ++ [v]]> s).
Proof.
  intros Hl Hlt. split.
  - apply chan_send_Done. rewrite Hl, length_app in Hlt. lia.
  - intros c'. rewrite !chan_upd_lookup. case_decide; [|done]. subst.
    by rewrite Hl, (assoc_L (++)).
Qed.

Lemma linked_go_send cap tk sn s c v s' :
  linked tk sn s → go_send cap c v s = Some s' → linked tk (<[c := sn c ++ [v]]> sn) s'.
Proof.
  intros Hl [_ ->]%go_send_inv%chan_send_inv c'. rewrite !chan_upd_lookup.
  case_decide; [|done]. subst. by rewrite Hl, (assoc_L (++)).
Qed.

Lemma linked_recv tk sn s c v s' :
  linked tk sn s → chan_recv c s = Some (v, s') →
  linked (<[c := tk c ++ [v]]> tk) sn s' ∧ ∃ q, sn c = tk c ++ v :: q.
Proof.
  intros Hl (q & Hq & ->)%chan_recv_inv. split; [|exists q; by rewrite (Hl c), Hq].
  intros c'. rewrite !chan_upd_lookup. case_decide; [|by apply Hl]. subst.
  by rewrite (Hl c'), Hq, <-(assoc_L (++)).
Qed.

Lemma linked_taken tk sn s c v : linked tk sn s → v ∈ tk c → v ∈ sn c.
Proof. intros ->. rewrite elem_of_app. by left. Qed.

(** Reduce updated histories at concrete channels. *)
Ltac chan_simpl :=
  rewrite ?fn_lookup_insert in *;
  repeat match goal with
  | H : context [(<[?c := _]> _) ?c'] |- _ =>
    rewrite (fn_lookup_insert_ne _ c c') in H by done
  | |- context [(<[?c := _]> _) ?c'] => rewrite (fn_lookup_insert_ne _ c c') by done
  end.

(** *** Histories of [waitToBind] *)

Definition bind_choice (tk : bca_chans) (v : Z) : Prop :=
  (v = bot ∧ tk CBindVal = [] ∧ length (tk CBindBot) = 1%nat) ∨
  (tk CBindVal = [v] ∧ tk CBindBot = []).

Definition bind_hist (pc : bind_pc) (tk sn : bca_chans) : Prop :=
  match pc with
  | B_select => tk CBindBot = [] ∧ tk CBindVal = [] ∧ sn CBind = []
  | B_send v => bind_choice tk v ∧ sn CBind = []
  | B_done => ∃ v, bind_choice tk v ∧ sn CBind = [v]
  end.

(** *** Histories of [waitToDecide] *)

Definition decide_choice (tk : bca_chans) (d : Z) : Prop :=
  tk CTermVal = [d] ∨ (d = bot ∧ tk CTermVal = [] ∧ length (tk CTermBot) = 2%nat).

Definition decide_hist (pc : decide_pc) (tk sn : bca_chans) : Prop :=
  match pc with
  | D_first => tk CTermVal = [] ∧ tk CTermBot = [] ∧ sn COut = [] ∧ sn CUnblock = []
  | D_second => tk CTermVal = [] ∧ length (tk CTermBot) = 1%nat ∧ sn COut = [] ∧ sn CUnblock = []
  | D_send d => decide_choice tk d ∧ sn COut = [] ∧ sn CUnblock = []
  | D_unblock => ∃ d, decide_choice tk d ∧ sn COut = [d] ∧ sn CUnblock = []
  | D_done => ∃ d, decide_choice tk d ∧ sn COut = [d] ∧ sn CUnblock = [0]
  end.

Lemma bind_hist_once pc tk sn : bind_hist pc tk sn → (length (sn CBind) ≤ 1)%nat.
Proof.
  destruct pc; simpl.
  - intros (_ & _ & ->). simpl. lia.
  - intros (_ & ->). simpl. lia.
  - intros (v & _ & ->). simpl. lia.
Qed.

Lemma bind_hist_choice pc tk sn v : bind_hist pc tk sn → v ∈ sn CBind → bind_choice tk v.
Proof.
  destruct pc; simpl.
  - intros (_ & _ & ->) ?%not_elem_of_nil. done.
  - intros (_ & ->) ?%not_elem_of_nil. done.
  - intros (w & ? & ->) ->%list_elem_of_singleton. done.
Qed.

Lemma decide_hist_choice pc tk sn d : decide_hist pc tk sn → d ∈ sn COut → decide_choice tk d.
Proof.
  destruct pc; simpl.
  - intros (_ & _ & -> & _) ?%not_elem_of_nil. done.
  - intros (_ & _ & -> & _) ?%not_elem_of_nil. done.
  - intros (_ & -> & _) ?%not_elem_of_nil. done.
  - intros (w & ? & -> & _) ->%list_elem_of_singleton. done.
  - intros (w & ? & -> & _) ->%list_elem_of_singleton. done.
Qed.

(** At most one value. *)
Lemma once_eq (l : list Z) v w : (length l ≤ 1)%nat → v ∈ l → w ∈ l → v = w.
Proof.
  destruct l as [|x [|]]; simpl; intros ? Hv Hw; [by apply not_elem_of_nil in Hv|set_solver|lia].
Qed.

(** A history predicate depends on a few channels only. *)
Lemma bind_hist_ext pc tk sn tk' sn' :
  tk' CBindBot = tk CBindBot → tk' CBindVal = tk CBindVal → sn' CBind = sn CBind →
  bind_hist pc tk sn → bind_hist pc tk' sn'.
Proof. intros H1 H2 H3. destruct pc; unfold bind_hist, bind_choice; by rewrite H1, H2, H3. Qed.

Lemma decide_hist_ext pc tk sn tk' sn' :
  tk' CTermVal = tk CTermVal → tk' CTermBot = tk CTermBot →
  sn' COut = sn COut → sn' CUnblock = sn CUnblock →
  decide_hist pc tk sn → decide_hist pc tk' sn'.
Proof.
  intros H1 H2 H3 H4. destruct pc; unfold decide_hist, decide_choice; by rewrite H1, H2, H3, H4.
Qed.

(** A step of a shared goroutine changes the histories of its own channels. *)
Definition only_chans (cs : list bca_chan) (h h' : bca_chans) : Prop :=
  ∀ c, c ∉ cs → h' c = h c.

Lemma only_upd (cs : list bca_chan) (h : bca_chans) c q : c ∈ cs → only_chans cs h (<[c := q]> h).
Proof. intros Hc c' Hc'. rewrite fn_lookup_insert_ne; [done|set_solver]. Qed.

Lemma hist_recv cs tk sn s c v s' :
  linked tk sn s → chan_recv c s = Some (v, s') → c ∈ cs →
  linked (<[c := tk c ++ [v]]> tk) sn s' ∧ only_chans cs tk (<[c := tk c ++ [v]]> tk).
Proof. intros Hl Hr Hc. split; [by eapply linked_recv|by apply only_upd]. Qed.

Lemma hist_go_send cap cs tk sn s c v s' :
  linked tk sn s → go_send cap c v s = Some s' → c ∈ cs →
  linked tk (<[c := sn c ++ [v]]> sn) s' ∧ only_chans cs sn (<[c := sn c ++ [v]]> sn).
Proof. intros Hl Hr Hc. split; [by eapply linked_go_send|by apply only_upd]. Qed.

Lemma waitToBind_hist cap br pc s pc' s' tk sn :
  linked tk sn s → bind_hist pc tk sn → waitToBind_step cap br pc s = Some (pc', s') →
  ∃ tk' sn', linked tk' sn' s' ∧ bind_hist pc' tk' sn' ∧
    only_chans [CBindBot; CBindVal] tk tk' ∧ only_chans [CBind] sn sn'.
Proof.
  intros Hl Hh Hs. destruct pc as [|v|], br; try done; simpl in Hs, Hh;
    match type of Hs with
    | context [chan_recv ?c ?q] => destruct (chan_recv c q) as [[v s1]|] eqn:Hr
    | context [go_send cap ?c ?v ?q] => destruct (go_send cap c v q) as [s1|] eqn:Hr
    end; simplify_eq/=.
  - destruct (hist_recv [CBindBot; CBindVal] _ _ _ _ _ _ Hl Hr) as [? ?]; [set_solver|].
    destruct Hh as (Hb & ? & ?). eexists _, sn. split; [done|]. split; [|done].
    simpl. unfold bind_choice. chan_simpl. rewrite Hb. by auto.
  - destruct (hist_recv [CBindBot; CBindVal] _ _ _ _ _ _ Hl Hr) as [? ?]; [set_solver|].
    destruct Hh as (? & Hv & ?). eexists _, sn. split; [done|]. split; [|done].
    simpl. unfold bind_choice. chan_simpl. rewrite Hv. by auto.
  - destruct (hist_go_send _ [CBind] _ _ _ _ _ _ Hl Hr) as [? ?]; [set_solver|].
    destruct Hh as (? & Hn). eexists tk, _. split; [done|]. split; [|done].
    simpl. chan_simpl. rewrite Hn. by exists v.
Qed.

Lemma waitToDecide_hist cap br pc s pc' s' tk sn :
  linked tk sn s → decide_hist pc tk sn → waitToDecide_step cap br pc s = Some (pc', s') →
  ∃ tk' sn', linked tk' sn' s' ∧ decide_hist pc' tk' sn' ∧
    only_chans [CTermVal; CTermBot] tk tk' ∧ only_chans [COut; CUnblock] sn sn'.
Proof.
  intros Hl Hh Hs. destruct pc as [| |d| |], br; try done; simpl in Hs, Hh;
    match type of Hs with
    | context [chan_recv ?c ?q] => destruct (chan_recv c q) as [[v s1]|] eqn:Hr
    | context [go_send cap ?c ?v ?q] => destruct (go_send cap c v q) as [s1|] eqn:Hr
    end; simplify_eq/=;
    [destruct (hist_recv [CTermVal; CTermBot] _ _ _ _ _ _ Hl Hr) as [Hl' ?]; [set_solver|]..
    |destruct (hist_go_send _ [COut; CUnblock] _ _ _ _ _ _ Hl Hr) as [Hl' ?]; [set_solver|]
    |destruct (hist_go_send _ [COut; CUnblock] _ _ _ _ _ _ Hl Hr) as [Hl' ?]; [set_solver|]];
    eexists _, _; (split; [exact Hl'|]; split; [|by split]);
    clear Hl' Hr; simpl; unfold decide_choice in *; chan_simpl;
    destruct_and?; repeat match goal with H : tk _ = _ |- _ => rewrite H | H : sn _ = _ |- _ => rewrite H end;
    rewrite ?length_app; simpl; try (split_and!; auto; lia).
  - split_and!; [right|..]; [|done..]. split_and!; [done..|lia].
  - by exists d.
  - destruct Hh as (d & ? & ? & Hu). exists d. by rewrite Hu.
Qed.

(** ** Queues of bits *)

(** Number of occurrences of a value in a queue. *)
Definition occurs (v : Z) (l : list Z) : nat := length (filter (v =.) l).

Lemma occurs_nil v : occurs v [] = 0%nat.
Proof. done. Qed.
Lemma occurs_cons v x l : occurs v (x :: l) = (Nat.b2n (bool_decide (v = x)) + occurs v l)%nat.
Proof. unfold occurs. rewrite filter_cons. case_decide; case_bool_decide; done. Qed.
Lemma occurs_app v l k : occurs v (l ++ k) = (occurs v l + occurs v k)%nat.
Proof. unfold occurs. by rewrite list.filter_app, length_app. Qed.
Lemma occurs_elem v l : v ∈ l ↔ (0 < occurs v l)%nat.
Proof.
  induction l as [|x l IH]; [rewrite elem_of_nil, occurs_nil; lia|].
  rewrite elem_of_cons, occurs_cons, IH. case_bool_decide; simpl; naive_solver lia.
Qed.

(** A queue of bits is as long as its zeros and ones. *)
Lemma length_bits l :
  (∀ v, v ∈ l → v = 0 ∨ v = 1) → length l = (occurs 0 l + occurs 1 l)%nat.
Proof.
  induction l as [|x l IH]; intros Hl; [done|]. rewrite !occurs_cons. simpl.
  rewrite IH by (intros; apply Hl; set_solver).
  destruct (Hl x ltac:(set_solver)) as [-> | ->]; simpl; lia.
Qed.

(** ** Counted messages *)

(** The three messages of the protocol and the channels they leave by. *)
Inductive bca_kind := KEcho | KVote | KBind.

#[export] Instance bca_kind_eq_dec : EqDecision bca_kind.
Proof. solve_decision. Defined.

Definition kind_chan (k : bca_kind) : bca_chan :=
  match k with KEcho => CEcho | KVote => CVote | KBind => CBind end.

(** The set a slice of maps holds at an index; empty out of range. *)
Definition sets (l : list (gset UUID)) (v : Z) : gset UUID :=
  if decide (0 ≤ v) then elt ∅ l v else ∅.

Lemma sets_insert l i X v :
  0 ≤ i < Z.of_nat (length l) →
  sets (<[Z.to_nat i := X]> l) v = if decide (v = i) then X else sets l v.
Proof.
  intros Hi. unfold sets. case_decide as Hv.
  - rewrite elt_insert by lia. repeat case_decide; congruence.
  - case_decide; [lia|done].
Qed.

Lemma sets_elt l v : 0 ≤ v → sets l v = elt ∅ l v.
Proof. intros. unfold sets. by rewrite decide_True. Qed.

Lemma sets_empty l v : Forall (λ X, X = ∅) l → sets l v = ∅.
Proof.
  intros Hl. unfold sets, elt. case_decide; [|done].
  destruct (l !! Z.to_nat v) eqn:E; simpl; [|done]. by eapply Forall_lookup_1 in Hl.
Qed.

(** One more sender is counted for a kind and a value. *)
Definition recv_step (k : bca_kind) (v : Z) (s : UUID) (R R' : bca_kind → Z → gset UUID) : Prop :=
  ∀ k' w, R' k' w = if decide (k' = k ∧ w = v) then {[s]} ∪ R k v else R k' w.

Lemma recv_step_grows k v s R R' k' w : recv_step k v s R R' → R k' w ⊆ R' k' w.
Proof. intros Hr. rewrite Hr. destruct (decide (k' = k ∧ w = v)) as [[-> ->]|]; set_solver. Qed.

Lemma recv_step_cnt k v s R R' k' w :
  recv_step k v s R R' → Z.of_nat (size (R k' w)) ≤ Z.of_nat (size (R' k' w)).
Proof. intros Hr. apply Nat2Z.inj_le, subseteq_size. by eapply recv_step_grows. Qed.

Lemma recv_step_new k v s R R' :
  recv_step k v s R R' → s ∉ R k v → Z.of_nat (size (R' k v)) = Z.of_nat (size (R k v)) + 1.
Proof. intros Hr Hn. rewrite Hr, decide_True by done. rewrite size_add_new by done. lia. Qed.

Abbreviation bit v := (v = 0 ∨ v = 1).

(** A queue of distinct bits has room for another one. *)
Lemma bits_room (l : list Z) v :
  NoDup l → (∀ x, x ∈ l → bit x) → bit v → v ∉ l → (length l < 2)%nat.
Proof.
  intros Hd Hb Hv Hn.
  assert (length (l ++ [v]) ≤ length [0%Z; 1%Z])%nat as Hl; [|rewrite length_app in Hl; simpl in Hl; lia].
  apply submseteq_length. apply NoDup_submseteq.
  - apply list.NoDup_app. split; [done|]. split; [|apply NoDup_singleton].
    intros x Hx ->%list_elem_of_singleton. done.
  - intros x. rewrite elem_of_app, list_elem_of_singleton. set_solver.
Qed.

Lemma nodup_snoc (l : list Z) v : NoDup l → v ∉ l → NoDup (l ++ [v]).
Proof.
  intros Hd Hn. apply list.NoDup_app. split; [done|]. split; [|apply NoDup_singleton].
  intros x Hx ->%list_elem_of_singleton. done.
Qed.

