(* ===== verification/BcaNet.v ===== *)
(** * Binding crusader agreement among [n] processes

    The interface [BCALaws] states what an implementation of [bca] promises to
    the protocol around it, as facts about one process: what it must have
    received before it votes, binds or decides.  The theorems on a network of
    processes are proved against the interface; [Ivbca] and [Evbca] discharge
    it for the two implementations. *)

From stdpp Require Import base tactics numbers list fin_sets gmap functions relations.
From S2P Require Import Prelude Utils Bca.

Local Open Scope Z_scope.

Inductive bca_event :=
| EvPropose (est prevCoin : Z)
| EvExternal (v : Z)
| EvMsg (k : bca_kind) (v : Z) (sender : UUID)
| EvGo (g : bca_go) (br : bca_chan)
| EvTake (c : bca_chan).

(** One process: the instance, what was taken from its output channels (and so
    handed to the network or to the round) and its accepted proposals. *)
Record bca_node (T : Type) := BcaNode {
  nd_st : T;
  nd_taken : bca_chans;
  nd_proposed : list (Z * Z);
}.
Arguments BcaNode {T}.
Arguments nd_st {T}.
Arguments nd_taken {T}.
Arguments nd_proposed {T}.

Abbreviation bca_config T := (UUID → bca_node T).

Section exec.
Context {T : Type} `{!BCA T}.

Definition bca_submit (k : bca_kind) : Z → UUID → T → outcome (T * option bca_err) :=
  match k with
  | KEcho => bca_submitEcho
  | KVote => bca_submitVote
  | KBind => bca_submitBind
  end.

Definition done_opt {A} (o : outcome A) : option A :=
  match o with Done a => Some a | _ => None end.

(** One event at a process; [None] when the call does not return or the channel
    operation is not enabled. *)
Definition bca_exec (e : bca_event) (nd : bca_node T) : option (bca_node T) :=
  match e with
  | EvPropose est coin =>
    '(st, err) ← done_opt (bca_propose est coin (nd_st nd));
    Some (BcaNode st (nd_taken nd)
            (if err is Some _ then nd_proposed nd else (est, coin) :: nd_proposed nd))
  | EvExternal v =>
    st ← done_opt (bca_submitExternallyValid v (nd_st nd));
    Some (BcaNode st (nd_taken nd) (nd_proposed nd))
  | EvMsg k v sender =>
    '(st, _) ← done_opt (bca_submit k v sender (nd_st nd));
    Some (BcaNode st (nd_taken nd) (nd_proposed nd))
  | EvGo g br =>
    st ← bca_step g br (nd_st nd);
    Some (BcaNode st (nd_taken nd) (nd_proposed nd))
  | EvTake c =>
    '(v, st) ← bca_take c (nd_st nd);
    Some (BcaNode st (<[c := nd_taken nd c ++ [v]]> (nd_taken nd)) (nd_proposed nd))
  end.

Definition bca_start (n f : Z) : bca_node T := BcaNode (bca_new n f) (λ _, []) [].

(** The events in order, stopping at one that is not enabled. *)
Fixpoint bca_exec_list (es : list bca_event) (nd : bca_node T) : option (bca_node T) :=
  match es with
  | [] => Some nd
  | e :: es => nd ← bca_exec e nd; bca_exec_list es nd
  end.

(** *** The network *)

Context (mb : membership UUID) (inputs : UUID → Z * Z → Prop).

Definition bca_correct (j : UUID) : Prop := j ∈ peers mb ∧ j ∉ faulty mb.

(** A message of a correct process has been taken from its channel. *)
Definition bca_event_ok (H : bca_config T) (j : UUID) (e : bca_event) : Prop :=
  match e with
  | EvPropose est coin => inputs j (est, coin)
  | EvMsg k v s => s ∈ peers mb ∧ (s ∈ faulty mb ∨ v ∈ nd_taken (H s) (kind_chan k))
  | _ => True
  end.

Inductive bca_net_step (H : bca_config T) : bca_config T → Prop :=
| bca_net_event j e nd :
    bca_correct j → bca_event_ok H j e → bca_exec e (H j) = Some nd →
    bca_net_step H (<[j := nd]> H).

Definition bca_net_init : bca_config T := λ _, bca_start (mb_n mb) (mb_f mb).
Definition bca_reachable (H : bca_config T) : Prop := rtc bca_net_step bca_net_init H.

Definition Decides (H : bca_config T) (j : UUID) (v : Z) : Prop := v ∈ nd_taken (H j) COut.
Definition Binds (H : bca_config T) (j : UUID) (v : Z) : Prop := v ∈ nd_taken (H j) CBind.
End exec.

(** ** The interface *)

Class BCALaws (T : Type) `{!BCA T} (mb : membership UUID) : Type := {
  (** The senders counted for each kind and value. *)
  received : T → bca_kind → Z → gset UUID;
  node_ok : bca_node T → Prop;

  law_init : node_ok (bca_start (mb_n mb) (mb_f mb));
  law_received_init k v : received (bca_new (mb_n mb) (mb_f mb)) k v = ∅;
  law_exec e nd nd' :
    node_ok nd → (∀ k v s, e = EvMsg k v s → s ∈ peers mb) → bca_exec e nd = Some nd' →
    node_ok nd' ∧
    ∀ k v, received (nd_st nd) k v ⊆ received (nd_st nd') k v ∧
           ∀ s, s ∈ received (nd_st nd') k v → s ∈ received (nd_st nd) k v ∨ e = EvMsg k v s;

  law_peers nd k v : node_ok nd → received (nd_st nd) k v ⊆ peers mb;
  law_disjoint nd v w : node_ok nd → v ≠ w →
    received (nd_st nd) KBind v ## received (nd_st nd) KBind w;
  law_echo nd v : node_ok nd → v ∈ nd_taken nd CEcho → (v = 0 ∨ v = 1) ∧
    ((∃ c, (v, c) ∈ nd_proposed nd) ∨ mb_f mb + 1 ≤ Z.of_nat (size (received (nd_st nd) KEcho v)));
  law_vote nd v : node_ok nd → v ∈ nd_taken nd CVote →
    (v = 0 ∨ v = 1) ∧
    (mb_n mb - mb_f mb ≤ Z.of_nat (size (received (nd_st nd) KEcho v)) ∨
     (v, v) ∈ nd_proposed nd ∨ (bot, v) ∈ nd_proposed nd);
  law_bind nd v : node_ok nd → v ∈ nd_taken nd CBind →
    ((v = 0 ∨ v = 1) ∧
     (mb_n mb - mb_f mb ≤ Z.of_nat (size (received (nd_st nd) KVote v)) ∨
      (v, v) ∈ nd_proposed nd)) ∨
    (v = bot ∧ ∀ w, w = 0 ∨ w = 1 →
      mb_n mb - mb_f mb ≤ Z.of_nat (size (received (nd_st nd) KEcho w)) ∨
      (w, w) ∈ nd_proposed nd ∨ (bot, w) ∈ nd_proposed nd);
  law_bind_once nd v w : node_ok nd → v ∈ nd_taken nd CBind → w ∈ nd_taken nd CBind → v = w;
  law_vote_once nd v w : node_ok nd → v ∈ nd_taken nd CVote → w ∈ nd_taken nd CVote → v = w;
  law_decide nd v : node_ok nd → v ∈ nd_taken nd COut →
    ((v = 0 ∨ v = 1 ∨ v = bot) ∧
     mb_n mb - mb_f mb ≤ Z.of_nat (size (received (nd_st nd) KBind v))) ∨
    (v = bot ∧
     mb_n mb - mb_f mb ≤ Z.of_nat (size (received (nd_st nd) KBind 0) +
       size (received (nd_st nd) KBind 1) + size (received (nd_st nd) KBind bot)) ∧
     ∀ w, w = 0 ∨ w = 1 →
       mb_n mb - mb_f mb ≤ Z.of_nat (size (received (nd_st nd) KEcho w)) ∨
       (w, w) ∈ nd_proposed nd ∨ (bot, w) ∈ nd_proposed nd);
}.

(** An implementation without the shortcut of [fastForward]: every bind of a bit
    answers a quorum of votes. *)
Class BCABinding (T : Type) `{!BCA T} (mb : membership UUID) `{!BCALaws T mb} : Prop := {
  law_no_shortcut nd v : node_ok nd → v ≠ bot → (v, v) ∉ nd_proposed nd;
}.

(** ** The network invariant *)

Section laws.
Context {T : Type} `{!BCA T} (mb : membership UUID) `{!Resilient mb, !BCALaws T mb}.
Context (inputs : UUID → Z * Z → Prop).

#[local] Abbreviation n := (mb_n mb).
#[local] Abbreviation f := (mb_f mb).
#[local] Abbreviation Correct := (bca_correct mb).
#[local] Abbreviation rcv H j k v := (received (nd_st (H j)) k v).
Implicit Types H : bca_config T.

Record net_ok (H : bca_config T) : Prop := {
  no_node j : Correct j → node_ok (H j);
  no_auth i j k v : Correct i → Correct j → i ∈ rcv H j k v → v ∈ nd_taken (H i) (kind_chan k);
  no_inputs j p : Correct j → p ∈ nd_proposed (H j) → inputs j p;
}.

Lemma taken_grows e (nd nd' : bca_node T) c v :
  bca_exec e nd = Some nd' → v ∈ nd_taken nd c → v ∈ nd_taken nd' c.
Proof.
  intros Hex Hv. destruct e as [| | | |c']; simpl in Hex.
  all: apply bind_Some in Hex as (r & _ & Hex); try destruct r as [? ?]; injection Hex as <-; try done.
  cbn [nd_taken]. rewrite chan_upd_lookup. case_decide; [|done]. subst.
  apply elem_of_app. by left.
Qed.

Lemma proposed_step e (nd nd' : bca_node T) p :
  bca_exec e nd = Some nd' → p ∈ nd_proposed nd' →
  p ∈ nd_proposed nd ∨ e = EvPropose p.1 p.2.
Proof.
  intros Hex Hp. destruct e; simpl in Hex;
    apply bind_Some in Hex as (r & _ & Hex); try destruct r as [? err];
    injection Hex as <-; cbn in Hp; try (by left).
  destruct err; [by left|]. apply elem_of_cons in Hp as [->|]; [by right|by left].
Qed.

Lemma net_ok_init : net_ok (bca_net_init mb).
Proof.
  split.
  - intros. apply law_init.
  - intros i j k v _ _ Hi. unfold bca_net_init, bca_start in Hi. simpl in Hi.
    rewrite law_received_init in Hi. set_solver.
  - intros j p _ Hp. by apply not_elem_of_nil in Hp.
Qed.

Lemma net_ok_step H H' : net_ok H → bca_net_step mb inputs H H' → net_ok H'.
Proof.
  intros [Hn Ha Hi] [j e nd Hj Hok Hex].
  assert (Hp : ∀ k v s, e = EvMsg k v s → s ∈ peers mb) by (intros k v s ->; apply Hok).
  destruct (law_exec e (H j) nd (Hn j Hj) Hp Hex) as [Hnd Hrc].
  assert (Hgrow : ∀ i c v, v ∈ nd_taken (H i) c → v ∈ nd_taken ((<[j := nd]> H) i) c).
  { intros i c v Hv. destruct (decide (j = i)) as [<-|].
    - rewrite fn_lookup_insert. by eapply taken_grows.
    - by rewrite fn_lookup_insert_ne. }
  split.
  - intros i Hci. destruct (decide (j = i)) as [<-|].
    + by rewrite fn_lookup_insert.
    + rewrite fn_lookup_insert_ne by done. auto.
  - intros i j' k v Hci Hcj Hr. apply Hgrow. destruct (decide (j = j')) as [<-|].
    + rewrite fn_lookup_insert in Hr. destruct (Hrc k v) as [_ Hstep].
      destruct (Hstep i Hr) as [|He]; [by eapply Ha|]. subst e.
      destruct Hok as [_ [Hf|]]; [|done]. by destruct Hci.
    + rewrite fn_lookup_insert_ne in Hr by done. by eapply Ha.
  - intros i p Hci Hin. destruct (decide (j = i)) as [<-|].
    + rewrite fn_lookup_insert in Hin. destruct (proposed_step _ _ _ _ Hex Hin) as [|He]; [auto|].
      rewrite He in Hok. by destruct p.
    + rewrite fn_lookup_insert_ne in Hin by done. auto.
Qed.

Lemma net_ok_rtc H H' : net_ok H → rtc (bca_net_step mb inputs) H H' → net_ok H'.
Proof. intros Hi Hr. induction Hr; eauto using net_ok_step. Qed.
Lemma reachable_ok H : bca_reachable mb inputs H → net_ok H.
Proof. intros. eapply net_ok_rtc; [apply net_ok_init|done]. Qed.

Lemma taken_grows_rtc H H' j c v :
  rtc (bca_net_step mb inputs) H H' → v ∈ nd_taken (H j) c → v ∈ nd_taken (H' j) c.
Proof.
  intros Hr. induction Hr as [|H1 H2 H3 [i e nd Hi Hok Hex] _ IH]; [done|].
  intros Hv. apply IH. destruct (decide (i = j)) as [<-|].
  - rewrite fn_lookup_insert. by eapply taken_grows.
  - by rewrite fn_lookup_insert_ne.
Qed.

(** Enough senders include a correct one, whose message is genuine. *)
Lemma received_witness H j k v :
  net_ok H → Correct j → f + 1 ≤ Z.of_nat (size (rcv H j k v)) →
  ∃ i, Correct i ∧ i ∈ rcv H j k v ∧ v ∈ nd_taken (H i) (kind_chan k).
Proof.
  intros Hok Hj Hs. destruct (correct_witness mb (rcv H j k v)) as (i & Hi & Hf); [lia|].
  assert (Correct i).
  { split; [|done]. apply (law_peers (H j) k v); [by apply (no_node H)|done]. }
  exists i. split; [done|]. split; [done|]. by apply (no_auth H Hok i j k v).
Qed.

Lemma received_quorum_witness H j k v :
  net_ok H → Correct j → n - f ≤ Z.of_nat (size (rcv H j k v)) →
  ∃ i, Correct i ∧ i ∈ rcv H j k v ∧ v ∈ nd_taken (H i) (kind_chan k).
Proof.
  intros Hok Hj Hs. apply received_witness; [done..|]. pose proof (rs_arith mb). lia.
Qed.

(** Two quorums for one kind share a correct sender of both values. *)
Lemma received_common H i j k v w :
  net_ok H → Correct i → Correct j →
  n - f ≤ Z.of_nat (size (rcv H i k v)) → n - f ≤ Z.of_nat (size (rcv H j k w)) →
  ∃ p, Correct p ∧ v ∈ nd_taken (H p) (kind_chan k) ∧ w ∈ nd_taken (H p) (kind_chan k).
Proof.
  intros Hok Hi Hj Hv Hw.
  assert (Hsub : ∀ j k v, Correct j → rcv H j k v ⊆ peers mb)
    by (intros; apply law_peers; by apply (no_node H)).
  destruct (quorum_intersection mb (rcv H i k v) (rcv H j k w)) as (p & Hp & Hp' & Hf);
    [by apply Hsub..|done|done|].
  assert (Correct p) by (split; [by eapply Hsub|done]).
  exists p. split; [done|]. split; [by eapply (no_auth H Hok p i)|by eapply (no_auth H Hok p j)].
Qed.

(** A message counted from a correct process had left it before the step. *)
Lemma auth_before H H' i j k v :
  net_ok H → bca_net_step mb inputs H H' → Correct i → Correct j →
  i ∈ rcv H' j k v → v ∈ nd_taken (H i) (kind_chan k).
Proof.
  intros [Hn Ha _] [j' e nd Hj' Hok Hex] Hi Hj Hr.
  destruct (decide (j' = j)) as [<-|].
  - rewrite fn_lookup_insert in Hr.
    assert (Hp : ∀ k v s, e = EvMsg k v s → s ∈ peers mb) by (intros k' v' s ->; apply Hok).
    destruct (law_exec e (H j') nd (Hn j' Hj') Hp Hex) as [_ Hrc].
    destruct (Hrc k v) as [_ Hstep]. destruct (Hstep i Hr) as [|He]; [by eapply Ha|].
    subst e. destruct Hok as [_ [Hf|]]; [|done]. by destruct Hi.
  - rewrite fn_lookup_insert_ne in Hr by done. by eapply Ha.
Qed.

(** *** Crusader agreement *)

Lemma decide_quorum H j v :
  net_ok H → Correct j → Decides H j v → v ≠ bot →
  (v = 0 ∨ v = 1) ∧ n - f ≤ Z.of_nat (size (rcv H j KBind v)).
Proof.
  intros Hok Hj Hd Hb. destruct (law_decide (H j) v (no_node H Hok j Hj) Hd) as [[? ?]|[? _]];
    [|done]. naive_solver.
Qed.

Lemma crusader_agreement H i j v w :
  net_ok H → Correct i → Correct j → Decides H i v → Decides H j w →
  v ≠ bot → w ≠ bot → v = w.
Proof.
  intros Hok Hi Hj Hv Hw Hbv Hbw.
  destruct (decide_quorum H i v Hok Hi Hv Hbv) as [_ Hqv].
  destruct (decide_quorum H j w Hok Hj Hw Hbw) as [_ Hqw].
  destruct (received_common H i j KBind v w Hok Hi Hj Hqv Hqw) as (p & Hp & Hpv & Hpw).
  eapply (law_bind_once (H p)); [by apply (no_node H)|done|done].
Qed.

(** *** Binding *)

Section binding.
Context `{!BCABinding T mb}.

(** Binds of a bit by two correct processes, at two points of a run, agree. *)
Lemma bound_bits_agree H p q b c :
  net_ok H → Correct p → Correct q → Binds H p b → Binds H q c →
  b ≠ bot → c ≠ bot → b = c.
Proof.
  intros Hok Hp Hq Hb Hc Hnb Hnc.
  assert (Hvotes : ∀ p b, Correct p → Binds H p b → b ≠ bot →
    n - f ≤ Z.of_nat (size (rcv H p KVote b))).
  { intros p' b' Hp' Hb' Hn'. pose proof (no_node H Hok p' Hp') as Hnd.
    destruct (law_bind (H p') b' Hnd Hb') as [[_ [?|Hs]]|[? _]]; [done| |done].
    by destruct (law_no_shortcut _ _ Hnd Hn' Hs). }
  destruct (received_common H p q KVote b c Hok Hp Hq) as (r & Hr & Hrb & Hrc); [by auto..|].
  by apply (law_vote_once (H r)); [apply (no_node H)|..].
Qed.

(** A decision of [1 - b] is excluded once a correct process has bound [b]. *)
Lemma bound_excludes H p b j :
  net_ok H → Correct p → Binds H p b → b = 0 ∨ b = 1 → Correct j → ¬ Decides H j (1 - b).
Proof.
  intros Hok Hp Hb Hbit Hj Hd.
  destruct (decide_quorum H j (1 - b) Hok Hj Hd) as [_ Hq]; [unfold bot; lia|].
  destruct (received_quorum_witness H j KBind (1 - b) Hok Hj Hq) as (q & Hqc & _ & Hqb).
  assert (b = 1 - b); [|lia].
  apply (bound_bits_agree H p q); [done..|unfold bot; lia|unfold bot; lia].
Qed.

Lemma binding H i d :
  net_ok H → Correct i → Decides H i d →
  ∃ b, (b = 0 ∨ b = 1) ∧
    ∀ H' j, rtc (bca_net_step mb inputs) H H' → Correct j → ¬ Decides H' j (1 - b).
Proof.
  intros Hok Hi Hd. pose proof (no_node H Hok i Hi) as Hnd.
  set (B v := rcv H i KBind v). pose proof (rs_arith mb).
  assert (Hfut : ∀ p b, Correct p → Binds H p b → b = 0 ∨ b = 1 →
    ∃ b, (b = 0 ∨ b = 1) ∧
    ∀ H' j, rtc (bca_net_step mb inputs) H H' → Correct j → ¬ Decides H' j (1 - b)).
  { intros p b Hp Hb Hbit. exists b. split; [done|]. intros H' j Hr Hj.
    apply (bound_excludes H' p); [by eapply net_ok_rtc|done| |done|done].
    by eapply taken_grows_rtc. }
  destruct (set_choose_or_empty ((B 0 ∪ B 1) ∖ faulty mb)) as [[p Hp]|Hem].
  { assert (∃ b, (b = 0 ∨ b = 1) ∧ p ∈ B b) as (b & Hbit & Hpb) by set_solver.
    assert (Correct p) as Hpc.
    { split; [|set_solver]. by apply (law_peers (H i) KBind b Hnd). }
    apply (Hfut p b); [done| |done]. by apply (no_auth H Hok p i KBind). }
  assert (Hbot : f + 1 ≤ Z.of_nat (size (B bot ∖ faulty mb))).
  { assert (Htot : n - f ≤ Z.of_nat (size (B 0) + size (B 1) + size (B bot))).
    { destruct (law_decide (H i) d Hnd Hd) as [[[-> | [-> | ->]] Hq]|(_ & Hq & _)];
        fold (B 0) (B 1) (B bot) in *; lia. }
    pose proof (law_disjoint (H i) 0 1 Hnd ltac:(done)).
    pose proof (law_disjoint (H i) 0 bot Hnd ltac:(done)).
    pose proof (law_disjoint (H i) 1 bot Hnd ltac:(done)).
    pose proof (size_difference_alt (B bot) (faulty mb)).
    assert (size (B 0%Z ∪ B 1%Z ∪ (B bot ∩ faulty mb)) ≤ size (faulty mb))%nat
      by (apply subseteq_size; set_solver).
    rewrite !size_union in * by set_solver. destruct Resilient0. lia. }
  exists 0. split; [by left|]. intros H' j Hr Hj Hd'.
  pose proof (net_ok_rtc H H' Hok Hr) as Hok'.
  destruct (decide_quorum H' j (1 - 0) Hok' Hj Hd' ltac:(done)) as [_ Hq].
  destruct (set_overlap (B bot ∖ faulty mb) (rcv H' j KBind (1 - 0)) (peers mb)) as (p & Hp & Hp').
  - pose proof (law_peers (H i) KBind bot Hnd). set_solver.
  - apply law_peers. by apply (no_node H').
  - destruct Resilient0. lia.
  - assert (Hpc : Correct p).
    { split; [|set_solver]. apply (law_peers (H i) KBind bot Hnd). set_solver. }
    assert (bot = 1 - 0); [|done].
    apply (law_bind_once (H' p)); [by apply (no_node H')| |].
    + apply (taken_grows_rtc H); [done|]. apply (no_auth H Hok p i KBind); [done..|set_solver].
    + by apply (no_auth H' Hok' p j KBind).
Qed.
End binding.

(** *** Validity *)

Section validity.
Context (v : Z) (Hv : v = 0 ∨ v = 1).
Context (Hin : ∀ j p, Correct j → inputs j p → p.1 = v).

Lemma other_value : 1 - v ≠ v ∧ 1 - v ≠ bot ∧ v ≠ bot ∧ (1 - v = 0 ∨ 1 - v = 1).
Proof. unfold bot. lia. Qed.

Lemma proposed_value H j e c : net_ok H → Correct j → (e, c) ∈ nd_proposed (H j) → e = v.
Proof. intros Hok Hj Hp. exact (Hin j (e, c) Hj (no_inputs H Hok j _ Hj Hp)). Qed.

(** The first correct process to echo [1 - v] would need [f + 1] echoes. *)
Lemma no_echo_step H H' : net_ok H → bca_net_step mb inputs H H' →
  (∀ j, Correct j → 1 - v ∉ nd_taken (H j) CEcho) →
  ∀ j, Correct j → 1 - v ∉ nd_taken (H' j) CEcho.
Proof.
  intros Hok Hs IH j Hj Ht. pose proof (net_ok_step H H' Hok Hs) as Hok'.
  destruct (law_echo (H' j) (1 - v) (no_node H' Hok' j Hj) Ht) as [_ [[c Hp]|Hq]].
  - pose proof (proposed_value H' j _ _ Hok' Hj Hp). pose proof other_value. tauto.
  - destruct (received_witness H' j KEcho (1 - v) Hok' Hj Hq) as (i & Hi & Hr & _).
    apply (IH i Hi). by apply (auth_before H H' i j KEcho).
Qed.

Lemma no_echo H : bca_reachable mb inputs H →
  ∀ j, Correct j → 1 - v ∉ nd_taken (H j) CEcho.
Proof.
  revert H. apply (rtc_ind_r (R := bca_net_step mb inputs)
    (λ H, ∀ j, Correct j → 1 - v ∉ nd_taken (H j) CEcho)).
  - intros j _ Ht. by apply not_elem_of_nil in Ht.
  - intros H H' Hr Hs IH. apply (no_echo_step H H'); [by apply reachable_ok|done..].
Qed.

(** Hence no correct process has [1 - v] approved, votes for it or binds it. *)
Lemma not_approved H j : bca_reachable mb inputs H → Correct j →
  ¬ (n - f ≤ Z.of_nat (size (rcv H j KEcho (1 - v))) ∨
     (1 - v, 1 - v) ∈ nd_proposed (H j) ∨ (bot, 1 - v) ∈ nd_proposed (H j)).
Proof.
  intros Hr Hj Ha. pose proof (reachable_ok H Hr) as Hok. pose proof other_value as Ho.
  destruct Ha as [Hq|[Hp|Hp]].
  - destruct (received_quorum_witness H j KEcho (1 - v) Hok Hj Hq) as (i & Hi & _ & Ht).
    by apply (no_echo H Hr i Hi).
  - pose proof (proposed_value H j _ _ Hok Hj Hp). tauto.
  - pose proof (proposed_value H j _ _ Hok Hj Hp). naive_solver.
Qed.

Lemma no_vote H j : bca_reachable mb inputs H → Correct j → 1 - v ∉ nd_taken (H j) CVote.
Proof.
  intros Hr Hj Ht. pose proof (reachable_ok H Hr) as Hok.
  destruct (law_vote (H j) _ (no_node H Hok j Hj) Ht) as [_ Ha]. by apply (not_approved H j).
Qed.

Lemma only_bind H j x : bca_reachable mb inputs H → Correct j → x ∈ nd_taken (H j) CBind → x = v.
Proof.
  intros Hr Hj Ht. pose proof (reachable_ok H Hr) as Hok. pose proof other_value as Ho.
  destruct (law_bind (H j) _ (no_node H Hok j Hj) Ht) as [[Hx Ha]|[_ Ha]].
  - destruct (decide (x = v)) as [|Hne]; [done|]. assert (x = 1 - v) as -> by lia.
    destruct Ha as [Hq|Hp].
    + destruct (received_quorum_witness H j KVote (1 - v) Hok Hj Hq) as (i & Hi & _ & Hti).
      by destruct (no_vote H i Hr Hi).
    + pose proof (proposed_value H j _ _ Hok Hj Hp). tauto.
  - destruct (not_approved H j Hr Hj). apply Ha. tauto.
Qed.

Lemma only_decision H j d : bca_reachable mb inputs H → Correct j → Decides H j d → d = v.
Proof.
  intros Hr Hj Hd. pose proof (reachable_ok H Hr) as Hok. pose proof other_value as Ho.
  destruct (law_decide (H j) _ (no_node H Hok j Hj) Hd) as [[_ Hq]|(_ & _ & Ha)].
  - destruct (received_quorum_witness H j KBind d Hok Hj Hq) as (i & Hi & _ & Ht).
    by apply (only_bind H i).
  - destruct (not_approved H j Hr Hj). apply Ha. tauto.
Qed.
End validity.
End laws.

(** ** Executing schedules *)

Section schedules.
Context {T : Type} `{!BCA T} (mb : membership UUID) (ins : list (UUID * (Z * Z))).

(** Process [j] may propose what [ins] lists for it. *)
Definition listed_inputs (j : UUID) (p : Z * Z) : Prop := (j, p) ∈ ins.

#[export] Instance bca_correct_dec j : Decision (bca_correct mb j).
Proof. unfold bca_correct. apply _. Defined.
#[export] Instance bca_event_ok_dec (H : bca_config T) j e :
  Decision (bca_event_ok mb listed_inputs H j e).
Proof. destruct e; simpl; unfold listed_inputs; apply _. Defined.

(** The events in order; [None] if one of them is not possible. *)
Fixpoint bca_schedule (l : list (UUID * bca_event)) (H : bca_config T) : option (bca_config T) :=
  match l with
  | [] => Some H
  | (j, e) :: l =>
    if decide (bca_correct mb j ∧ bca_event_ok mb listed_inputs H j e)
    then nd ← bca_exec e (H j); bca_schedule l (<[j := nd]> H) else None
  end.

Lemma bca_schedule_sound l H H' :
  bca_schedule l H = Some H' → rtc (bca_net_step mb listed_inputs) H H'.
Proof.
  revert H. induction l as [|[j e] l IH]; intros H; simpl.
  - intros [= <-]. constructor.
  - case_decide as Hd; [|done]. destruct Hd. intros (nd & Hex & Hr)%bind_Some.
    eapply rtc_l; [by eapply bca_net_event|by apply IH].
Qed.

Definition bca_config_of (l : list (UUID * bca_event)) : bca_config T :=
  default (bca_net_init mb) (bca_schedule l (bca_net_init mb)).

Lemma bca_config_reachable l :
  (if bca_schedule l (bca_net_init mb) is Some _ then true else false) = true →
  bca_reachable mb listed_inputs (bca_config_of l).
Proof.
  unfold bca_config_of. destruct (bca_schedule l (bca_net_init mb)) as [H|] eqn:E; [|done].
  intros _. by apply bca_schedule_sound in E.
Qed.
End schedules.

(** Schedules of one phase: each process of [ps] performs the events. *)
Definition each (ps : list UUID) (es : list bca_event) : list (UUID * bca_event) :=
  p ← ps; e ← es; [(p, e)].
(** Every process of [ps] receives the message from every one of [qs]. *)
Definition deliver_all (ps qs : list UUID) (k : bca_kind) (v : Z) : list (UUID * bca_event) :=
  p ← ps; q ← qs; [(p, EvMsg k v q)].
