(* ===== verification/Ivbca.v ===== *)
(** * [internalValidityBCA.go]: the binding crusader agreement of round 0

    The record [ivbca] holds the fields of the struct, its channels (a store
    from names to queues) and the program counters of the three goroutines
    that [newBCA] starts.  A handler call is atomic: the goroutines touch only
    the channels, and a handler only sends, so running a goroutine between two
    sends of a handler leaves less in the queues and nothing else. *)

From stdpp Require Import base tactics numbers list fin_sets gmap functions.
From S2P Require Import Prelude Utils Bca.

Local Open Scope Z_scope.

Inductive iv_vote_pc :=
| V_first
| V_send (first : Z)
| V_second
| V_bindBot
| V_termBot
| V_both
| V_unblocked.

Record ivbca := Ivbca {
  iv_n : Z;
  iv_f : Z;
  sentEchoes : list bool;
  iv_echoes : list (gset UUID);
  voted : list (gset UUID);
  bound : list (gset UUID);
  iv_chans : bca_chans;
  iv_pcVote : iv_vote_pc;
  iv_pcBind : bind_pc;
  iv_pcDecide : decide_pc;
}.

(** Buffer sizes of [newBCA]; 0 for the channels the struct lacks. *)
Definition ivbca_cap (c : bca_chan) : nat :=
  match c with
  | CEcho => 2 | CVote => 1 | CBind => 1 | COut => 1 | CExt => 2
  | CApprove => 2 | CBindBot => 1 | CBindVal => 1 | CTermBot => 2 | CTermVal => 1
  | CUnblock => 1
  | CPrevCoin | CInputExt | CClose => 0
  end.

Definition newBCA (n f : Z) : ivbca :=
  Ivbca n f [false; false] [∅; ∅] [∅; ∅] [∅; ∅; ∅] bca_init_chans V_first B_select D_first.

Definition set_sentEchoes x (s : ivbca) : ivbca :=
  Ivbca (iv_n s) (iv_f s) x (iv_echoes s) (voted s) (bound s) (iv_chans s)
    (iv_pcVote s) (iv_pcBind s) (iv_pcDecide s).
Definition set_echoes x (s : ivbca) : ivbca :=
  Ivbca (iv_n s) (iv_f s) (sentEchoes s) x (voted s) (bound s) (iv_chans s)
    (iv_pcVote s) (iv_pcBind s) (iv_pcDecide s).
Definition set_voted x (s : ivbca) : ivbca :=
  Ivbca (iv_n s) (iv_f s) (sentEchoes s) (iv_echoes s) x (bound s) (iv_chans s)
    (iv_pcVote s) (iv_pcBind s) (iv_pcDecide s).
Definition set_bound x (s : ivbca) : ivbca :=
  Ivbca (iv_n s) (iv_f s) (sentEchoes s) (iv_echoes s) (voted s) x (iv_chans s)
    (iv_pcVote s) (iv_pcBind s) (iv_pcDecide s).
Definition set_chans x (s : ivbca) : ivbca :=
  Ivbca (iv_n s) (iv_f s) (sentEchoes s) (iv_echoes s) (voted s) (bound s) x
    (iv_pcVote s) (iv_pcBind s) (iv_pcDecide s).
Definition set_pcVote x (s : ivbca) : ivbca :=
  Ivbca (iv_n s) (iv_f s) (sentEchoes s) (iv_echoes s) (voted s) (bound s) (iv_chans s)
    x (iv_pcBind s) (iv_pcDecide s).
Definition set_pcBind x (s : ivbca) : ivbca :=
  Ivbca (iv_n s) (iv_f s) (sentEchoes s) (iv_echoes s) (voted s) (bound s) (iv_chans s)
    (iv_pcVote s) x (iv_pcDecide s).
Definition set_pcDecide x (s : ivbca) : ivbca :=
  Ivbca (iv_n s) (iv_f s) (sentEchoes s) (iv_echoes s) (voted s) (bound s) (iv_chans s)
    (iv_pcVote s) (iv_pcBind s) x.

(** [s.c <- v] in a handler. *)
Definition iv_send (c : bca_chan) (v : Z) (s : ivbca) : outcome ivbca :=
  ch ← chan_send ivbca_cap c v (iv_chans s); Done (set_chans ch s).

(** ** Handlers *)

Definition ivbca_broadcastEcho (echo : Z) (s : ivbca) : outcome ivbca :=
  se ← slice_set (sentEchoes s) echo true;
  iv_send CEcho echo (set_sentEchoes se s).

Definition ivbca_propose (est prevCoin : Z) (s : ivbca) : outcome (ivbca * option bca_err) :=
  if negb (isInputValid est) then Done (s, Some (InvalidInput est))
  else if negb (prevCoin =? bot) then Done (s, Some (InvalidInput prevCoin))
  else
    sent ← slice_get (sentEchoes s) est;
    if negb sent then s ← ivbca_broadcastEcho est s; Done (s, None)
    else Done (s, None).

Definition ivbca_submitExternallyValid (_ : Z) (s : ivbca) : outcome ivbca := Done s.

Definition ivbca_submitEcho (echo : Z) (sender : UUID) (s : ivbca) :
    outcome (ivbca * option bca_err) :=
  if negb (isInputValid echo) then Done (s, Some (InvalidInput echo)) else
  received ← slice_get (iv_echoes s) echo;
  if decide (sender ∈ received) then Done (s, Some RepeatedEcho) else
  es ← slice_set (iv_echoes s) echo ({[sender]} ∪ received);
  let s := set_echoes es s in
  let countEcho := Z.of_nat (size ({[sender]} ∪ received)) in
  sent ← slice_get (sentEchoes s) echo;
  s ← (if (countEcho =? int_of_uint (uint_add (iv_f s) 1)) && negb sent
       then ivbca_broadcastEcho echo s else Done s);
  s ← (if countEcho =? int_of_uint (uint_sub (iv_n s) (iv_f s))
       then s ← iv_send CExt echo s; iv_send CApprove echo s
       else Done s);
  Done (s, None).

Definition ivbca_submitVote (vote : Z) (sender : UUID) (s : ivbca) :
    outcome (ivbca * option bca_err) :=
  if negb (isInputValid vote) then Done (s, Some (InvalidInput vote)) else
  voted0 ← slice_get (voted s) 0; voted1 ← slice_get (voted s) 1;
  if decide (sender ∈ voted0 ∨ sender ∈ voted1) then Done (s, Some AlreadyVoted) else
  mine ← slice_get (voted s) vote;
  vs ← slice_set (voted s) vote ({[sender]} ∪ mine);
  other ← slice_get vs (1 - vote);
  let s := set_voted vs s in
  let q := int_of_uint (uint_sub (iv_n s) (iv_f s)) in
  s ← (if (Z.of_nat (size ({[sender]} ∪ mine)) =? q) && (Z.of_nat (size other) <? q)
       then iv_send CBindVal vote s else Done s);
  Done (s, None).

Definition ivbca_submitBind (bind : Z) (sender : UUID) (s : ivbca) :
    outcome (ivbca * option bca_err) :=
  if (bot <? bind) || (bind <? 0) then Done (s, Some (InvalidInput bind)) else
  bound0 ← slice_get (bound s) 0; bound1 ← slice_get (bound s) 1; bound2 ← slice_get (bound s) bot;
  if decide (sender ∈ bound0 ∨ sender ∈ bound1 ∨ sender ∈ bound2)
  then Done (s, Some AlreadyBound) else
  mine ← slice_get (bound s) bind;
  bs ← slice_set (bound s) bind ({[sender]} ∪ mine);
  bound0 ← slice_get bs 0; bound1 ← slice_get bs 1; bound2 ← slice_get bs bot;
  let s := set_bound bs s in
  let q := int_of_uint (uint_sub (iv_n s) (iv_f s)) in
  s ← (if Z.of_nat (size ({[sender]} ∪ mine)) =? q then iv_send CTermVal bind s
       else if Z.of_nat (size bound0 + size bound1 + size bound2) =? q
       then iv_send CTermBot 0 s else Done s);
  Done (s, None).

(** ** Goroutines *)

Definition ivbca_waitToVote (br : bca_chan) (pc : iv_vote_pc) (s : bca_chans) :
    option (iv_vote_pc * bca_chans) :=
  match pc, br with
  | V_first, CApprove => '(first, s) ← chan_recv CApprove s; Some (V_send first, s)
  | V_send first, CVote => s ← go_send ivbca_cap CVote first s; Some (V_second, s)
  | V_second, CApprove => '(_, s) ← chan_recv CApprove s; Some (V_bindBot, s)
  | V_second, CUnblock => '(_, s) ← chan_recv CUnblock s; Some (V_unblocked, s)
  | V_bindBot, CBindBot => s ← go_send ivbca_cap CBindBot 0 s; Some (V_termBot, s)
  | V_termBot, CTermBot => s ← go_send ivbca_cap CTermBot 0 s; Some (V_both, s)
  | _, _ => None
  end.

Definition ivbca_waitToBind := waitToBind_step ivbca_cap.
Definition ivbca_waitToDecide := waitToDecide_step ivbca_cap.

Definition ivbca_step (g : bca_go) (br : bca_chan) (s : ivbca) : option ivbca :=
  match g with
  | GoVote => '(pc, ch) ← ivbca_waitToVote br (iv_pcVote s) (iv_chans s);
              Some (set_pcVote pc (set_chans ch s))
  | GoBind => '(pc, ch) ← ivbca_waitToBind br (iv_pcBind s) (iv_chans s);
              Some (set_pcBind pc (set_chans ch s))
  | GoDecide => '(pc, ch) ← ivbca_waitToDecide br (iv_pcDecide s) (iv_chans s);
              Some (set_pcDecide pc (set_chans ch s))
  end.

(** A receive by the owner of the instance. *)
Definition ivbca_take (c : bca_chan) (s : ivbca) : option (Z * ivbca) :=
  if decide (c ∈ out_chans) then
    '(v, ch) ← chan_recv c (iv_chans s); Some (v, set_chans ch s)
  else None.

#[export] Instance ivbca_BCA : BCA ivbca := {
  bca_new := newBCA;
  bca_propose := ivbca_propose;
  bca_submitExternallyValid := ivbca_submitExternallyValid;
  bca_submitEcho := ivbca_submitEcho;
  bca_submitVote := ivbca_submitVote;
  bca_submitBind := ivbca_submitBind;
  bca_step := ivbca_step;
  bca_take := ivbca_take;
}.
