(* ===== verification/IvbcaCorrect.v ===== *)
(** * [ivbca] keeps the promises of a binding crusader agreement

    The invariant of one process ties the queues and histories of its channels
    to the counters of the struct and to the program counters.  It gives the
    interface [BCALaws], and that no handler ever blocks on a full channel. *)

From stdpp Require Import base tactics numbers list fin_sets gmap functions.
From S2P Require Import Prelude Utils Bca BcaNet Ivbca.

Local Open Scope Z_scope.

Definition ivbca_received (st : ivbca) (k : bca_kind) : Z → gset UUID :=
  sets (match k with KEcho => iv_echoes st | KVote => voted st | KBind => bound st end).

Abbreviation cnt st k v := (Z.of_nat (size (ivbca_received st k v))).

Definition binds_total (st : ivbca) : Z :=
  cnt st KBind 0 + cnt st KBind 1 + cnt st KBind bot.

(** ** Histories of [waitToVote] *)

Definition vote_hist (pc : iv_vote_pc) (tk sn : bca_chans) : Prop :=
  match pc with
  | V_first => tk CApprove = [] ∧ sn CVote = [] ∧ sn CBindBot = []
  | V_send x => tk CApprove = [x] ∧ sn CVote = [] ∧ sn CBindBot = []
  | V_second | V_unblocked => ∃ x, tk CApprove = [x] ∧ sn CVote = [x] ∧ sn CBindBot = []
  | V_bindBot => ∃ x y, tk CApprove = [x; y] ∧ sn CVote = [x] ∧ sn CBindBot = []
  | V_termBot | V_both => ∃ x y, tk CApprove = [x; y] ∧ sn CVote = [x] ∧ sn CBindBot = [0]
  end.

Lemma vote_hist_ext pc tk sn tk' sn' :
  tk' CApprove = tk CApprove → sn' CVote = sn CVote → sn' CBindBot = sn CBindBot →
  vote_hist pc tk sn → vote_hist pc tk' sn'.
Proof. intros H1 H2 H3. destruct pc; unfold vote_hist; by rewrite H1, H2, H3. Qed.

Lemma vote_hist_once pc tk sn : vote_hist pc tk sn → (length (sn CVote) ≤ 1)%nat.
Proof.
  destruct pc; simpl; [intros (_ & -> & _)|intros (_ & -> & _)|intros (x & _ & -> & _)
    |intros (x & y & _ & -> & _)|intros (x & y & _ & -> & _)|intros (x & y & _ & -> & _)
    |intros (x & _ & -> & _)]; simpl; lia.
Qed.

Lemma vote_hist_taken pc tk sn v : vote_hist pc tk sn → v ∈ sn CVote → v ∈ tk CApprove.
Proof.
  destruct pc; simpl; [intros (_ & -> & _)|intros (_ & -> & _)|intros (x & -> & -> & _)
    |intros (x & y & -> & -> & _)|intros (x & y & -> & -> & _)|intros (x & y & -> & -> & _)
    |intros (x & -> & -> & _)]; set_solver.
Qed.

Lemma vote_hist_both pc tk sn :
  vote_hist pc tk sn → sn CBindBot ≠ [] → ∃ x y, tk CApprove = [x; y].
Proof.
  destruct pc; simpl; [intros (_ & _ & ->)|intros (_ & _ & ->)|intros (x & _ & _ & ->)
    |intros (x & y & _ & _ & ->)|intros (x & y & -> & _)|intros (x & y & -> & _)
    |intros (x & _ & _ & ->)]; try done; by exists x, y.
Qed.

Definition both_voted (pc : iv_vote_pc) : bool :=
  match pc with V_both => true | _ => false end.

(** ** The invariant *)

Section invariant.
Context (mb : membership UUID) `{!Resilient mb}.

#[local] Abbreviation n := (mb_n mb).
#[local] Abbreviation f := (mb_f mb).

Record iv_inv (pr : list (Z * Z)) (tk sn : bca_chans) (st : ivbca) : Prop := {
  v_conf : iv_n st = n ∧ iv_f st = f;
  v_len : length (sentEchoes st) = 2%nat ∧ length (iv_echoes st) = 2%nat ∧
          length (voted st) = 2%nat ∧ length (bound st) = 3%nat;
  v_peers k v : ivbca_received st k v ⊆ peers mb;
  v_disj v w : v ≠ w → ivbca_received st KBind v ## ivbca_received st KBind w;
  v_prop e c : (e, c) ∈ pr → bit e ∧ c = bot;
  v_link : linked tk sn (iv_chans st);
  v_nodup : NoDup (sn CEcho) ∧ NoDup (sn CApprove) ∧ sn CExt = sn CApprove;
  v_echo v : v ∈ sn CEcho → bit v ∧ elt false (sentEchoes st) v = true ∧
             ((∃ c, (v, c) ∈ pr) ∨ f + 1 ≤ cnt st KEcho v);
  v_appr v : v ∈ sn CApprove → bit v ∧ n - f ≤ cnt st KEcho v;
  v_bindval : (length (sn CBindVal) ≤ 1)%nat ∧
              ∀ v, v ∈ sn CBindVal → bit v ∧ n - f ≤ cnt st KVote v;
  v_termval : (length (sn CTermVal) ≤ 1)%nat ∧
              ∀ v, v ∈ sn CTermVal → 0 ≤ v ≤ bot ∧ n - f ≤ cnt st KBind v;
  v_termbot : (length (sn CTermBot) ≤ Nat.b2n (both_voted (iv_pcVote st)) +
              Nat.b2n (bool_decide (n - f ≤ binds_total st)%Z))%nat;
  v_vote : vote_hist (iv_pcVote st) tk sn;
  v_bind : bind_hist (iv_pcBind st) tk sn;
  v_decide : decide_hist (iv_pcDecide st) tk sn;
}.

Definition none : bca_chans := λ _, [].

Lemma iv_inv_init : iv_inv [] none none (newBCA n f).
Proof.
  pose proof (rs_arith mb).
  assert (Hz : ∀ k v, ivbca_received (newBCA n f) k v = ∅)
    by (intros k v; apply sets_empty; destruct k; repeat constructor).
  split; simpl; try done.
  - intros k v. rewrite Hz. set_solver.
  - intros v w _. rewrite !Hz. set_solver.
  - intros e c Hp. by apply not_elem_of_nil in Hp.
  - split_and!; [constructor..|done].
  - intros v Hv. by apply not_elem_of_nil in Hv.
  - intros v Hv. by apply not_elem_of_nil in Hv.
  - split; [lia|]. intros v Hv. by apply not_elem_of_nil in Hv.
  - split; [lia|]. intros v Hv. by apply not_elem_of_nil in Hv.
  - lia.
Qed.

(** *** Recording a message *)

(** States that differ in one counted set, which grows by a new peer. *)
Definition only_received (st st' : ivbca) : Prop :=
  iv_n st' = iv_n st ∧ iv_f st' = iv_f st ∧ sentEchoes st' = sentEchoes st ∧
  iv_chans st' = iv_chans st ∧ iv_pcVote st' = iv_pcVote st ∧ iv_pcBind st' = iv_pcBind st ∧
  iv_pcDecide st' = iv_pcDecide st ∧ length (iv_echoes st') = length (iv_echoes st) ∧
  length (voted st') = length (voted st) ∧ length (bound st') = length (bound st).

(** Counting a message keeps the invariant. *)
Lemma recv_step_inv pr tk sn st st' k v s :
  iv_inv pr tk sn st → s ∈ peers mb → recv_step k v s (ivbca_received st) (ivbca_received st') → only_received st st' →
  (k = KBind → ∀ w, s ∉ ivbca_received st KBind w) →
  iv_inv pr tk sn st'.
Proof.
  intros Hi Hs Hr (Hn & Hf & Hse & Hch & Hpv & Hpb & Hpd & Hle & Hlv & Hlb) Hk.
  assert (Hmono : ∀ k w, cnt st k w ≤ cnt st' k w) by (intros; by eapply recv_step_cnt).
  destruct Hi. split; rewrite ?Hn, ?Hf, ?Hse, ?Hch, ?Hpv, ?Hpb, ?Hpd, ?Hle, ?Hlv, ?Hlb; try done.
  - intros k' w. rewrite Hr. destruct (decide (k' = k ∧ w = v)); [|done]. specialize (v_peers0 k v). set_solver.
  - intros w w' Hne. rewrite !Hr. specialize (v_disj0 w w' Hne).
    destruct (decide (KBind = k ∧ w = v)) as [[Hkb ->]|];
      destruct (decide (KBind = k ∧ w' = v)) as [[Hkb' ->]|]; [done|..|done].
    + pose proof (Hk (eq_sym Hkb) w'). set_solver.
    + pose proof (Hk (eq_sym Hkb') w). set_solver.
  - intros w Hw. destruct (v_echo0 w Hw) as (? & ? & [?|Hq]); [by auto|].
    split_and!; [done..|]. right. specialize (Hmono KEcho w). lia.
  - intros w Hw. destruct (v_appr0 w Hw) as (? & ?). specialize (Hmono KEcho w). split; [done|lia].
  - destruct v_bindval0 as [? Hb]. split; [done|]. intros w Hw.
    destruct (Hb w Hw). specialize (Hmono KVote w). split; [done|lia].
  - destruct v_termval0 as [? Hb]. split; [done|]. intros w Hw.
    destruct (Hb w Hw). specialize (Hmono KBind w). split; [done|lia].
  - etrans; [exact v_termbot0|]. apply Nat.add_le_mono_l.
    assert (binds_total st ≤ binds_total st').
    { unfold binds_total. pose proof (Hmono KBind 0). pose proof (Hmono KBind 1).
      pose proof (Hmono KBind bot). lia. }
    repeat case_bool_decide; simpl; lia.
Qed.

(** *** Sending *)

(** A send of a handler on a channel with room. *)
Lemma iv_send_Done tk sn st c v :
  linked tk sn (iv_chans st) → (length (sn c) < ivbca_cap c)%nat →
  ∃ ch, iv_send c v st = Done (set_chans ch st) ∧ linked tk (<[c := sn c ++ [v]]> sn) ch.
Proof.
  intros Hl Hc. destruct (linked_send _ _ _ _ c v Hl Hc) as [He Hl'].
  eexists. unfold iv_send. rewrite He. done.
Qed.

(** Replacing the histories of one channel, whatever it is, keeps what the
    goroutines know as long as it is none of theirs. *)
Lemma hist_send st tk sn c v :
  c ∉ [CVote; CBind; COut; CUnblock; CBindBot] →
  vote_hist (iv_pcVote st) tk sn → bind_hist (iv_pcBind st) tk sn →
  decide_hist (iv_pcDecide st) tk sn →
  vote_hist (iv_pcVote st) tk (<[c := sn c ++ [v]]> sn) ∧
  bind_hist (iv_pcBind st) tk (<[c := sn c ++ [v]]> sn) ∧
  decide_hist (iv_pcDecide st) tk (<[c := sn c ++ [v]]> sn).
Proof.
  intros Hc Hv Hb Hd. rewrite !not_elem_of_cons in Hc. destruct_and!.
  split_and!; [eapply vote_hist_ext|eapply bind_hist_ext|eapply decide_hist_ext];
    try eassumption; try done; by rewrite fn_lookup_insert_ne.
Qed.

Lemma broadcastEcho_inv pr tk sn st v :
  iv_inv pr tk sn st → bit v → elt false (sentEchoes st) v = false →
  ((∃ c, (v, c) ∈ pr) ∨ f + 1 ≤ cnt st KEcho v) →
  ∃ st' sn', ivbca_broadcastEcho v st = Done st' ∧ iv_inv pr tk sn' st' ∧
             (∀ k, ivbca_received st' k = ivbca_received st k) ∧
             sn' CApprove = sn CApprove.
Proof.
  intros Hi Hv Hs Hwhy. destruct Hi. destruct v_len0 as (Hl & ? & ? & ?).
  unfold ivbca_broadcastEcho. rewrite slice_set_Done by lia. simpl.
  assert (Hni : v ∉ sn CEcho) by (intros Hin; destruct (v_echo0 v Hin) as (_ & ? & _); congruence).
  destruct (iv_send_Done tk sn (set_sentEchoes (<[Z.to_nat v := true]> (sentEchoes st)) st) CEcho v)
    as (ch & He & Hl'); [done|..].
  { apply (bits_room _ v); [tauto|apply v_echo0|done..]. }
  destruct (hist_send st tk sn CEcho v) as (? & ? & ?); [set_solver|done..|].
  eexists _, (<[CEcho := sn CEcho ++ [v]]> sn). split; [exact He|]. split; [|split; [done|by rewrite fn_lookup_insert_ne]].
  split; simpl; try done; chan_simpl; try done.
  - by rewrite length_insert.
  - split_and!; [apply nodup_snoc; tauto|tauto|tauto].
  - intros w [Hw| ->%list_elem_of_singleton]%elem_of_app.
    + destruct (v_echo0 w Hw) as (? & ? & ?). split; [done|]. split; [|done].
      rewrite elt_insert by lia. by destruct (decide (v = w)).
    + split; [done|]. rewrite elt_insert by lia. by rewrite decide_True.
Qed.

(** A full quorum of echoes: the value goes out as externally valid and is
    approved. *)
Lemma approve_inv pr tk sn st v :
  iv_inv pr tk sn st → bit v → v ∉ sn CApprove → n - f ≤ cnt st KEcho v →
  ∃ st' sn', (s ← iv_send CExt v st; iv_send CApprove v s) = Done st' ∧
             iv_inv pr tk sn' st' ∧ (∀ k, ivbca_received st' k = ivbca_received st k).
Proof.
  intros Hi Hv Hni Hq. destruct Hi. destruct v_nodup0 as (? & ? & Hext).
  assert (Hroom : (length (sn CApprove) < 2)%nat)
    by (apply (bits_room _ v); [tauto|apply v_appr0|done..]).
  destruct (iv_send_Done tk sn st CExt v) as (ch & He & Hl); [done|by rewrite Hext|].
  rewrite He. simpl.
  destruct (iv_send_Done tk (<[CExt := sn CExt ++ [v]]> sn) (set_chans ch st) CApprove v)
    as (ch' & He' & Hl'); [done|by chan_simpl|].
  destruct (hist_send st tk sn CExt v) as (? & ? & ?); [set_solver|done..|].
  destruct (hist_send st tk (<[CExt := sn CExt ++ [v]]> sn) CApprove v)
    as (? & ? & ?); [set_solver|done..|].
  eexists _, (<[CApprove := sn CApprove ++ [v]]> (<[CExt := sn CExt ++ [v]]> sn)).
  split; [exact He'|]. split; [|done].
  split; simpl; try done; chan_simpl; try done.
  - rewrite Hext. split_and!; [done|by apply nodup_snoc|done].
  - intros w [Hw| ->%list_elem_of_singleton]%elem_of_app; auto.
Qed.

Lemma bindVal_inv pr tk sn st v :
  iv_inv pr tk sn st → bit v → sn CBindVal = [] → n - f ≤ cnt st KVote v →
  ∃ st' sn', iv_send CBindVal v st = Done st' ∧ iv_inv pr tk sn' st' ∧
             (∀ k, ivbca_received st' k = ivbca_received st k).
Proof.
  intros Hi Hv Hem Hq. destruct Hi.
  destruct (iv_send_Done tk sn st CBindVal v) as (ch & He & Hl); [done|rewrite Hem; simpl; lia|].
  destruct (hist_send st tk sn CBindVal v) as (? & ? & ?); [set_solver|done..|].
  eexists _, (<[CBindVal := sn CBindVal ++ [v]]> sn). split; [exact He|]. split; [|done].
  split; simpl; try done; chan_simpl; try done.
  rewrite Hem. split; [simpl; lia|]. by intros w ->%list_elem_of_singleton.
Qed.

Lemma termVal_inv pr tk sn st v :
  iv_inv pr tk sn st → 0 ≤ v ≤ bot → sn CTermVal = [] → n - f ≤ cnt st KBind v →
  ∃ st' sn', iv_send CTermVal v st = Done st' ∧ iv_inv pr tk sn' st' ∧
             (∀ k, ivbca_received st' k = ivbca_received st k).
Proof.
  intros Hi Hv Hem Hq. destruct Hi.
  destruct (iv_send_Done tk sn st CTermVal v) as (ch & He & Hl); [done|rewrite Hem; simpl; lia|].
  destruct (hist_send st tk sn CTermVal v) as (? & ? & ?); [set_solver|done..|].
  eexists _, (<[CTermVal := sn CTermVal ++ [v]]> sn). split; [exact He|]. split; [|done].
  split; simpl; try done; chan_simpl; try done.
  rewrite Hem. split; [simpl; lia|]. by intros w ->%list_elem_of_singleton.
Qed.

Lemma termBot_inv pr tk sn st :
  iv_inv pr tk sn st → (length (sn CTermBot) ≤ Nat.b2n (both_voted (iv_pcVote st)))%nat →
  n - f ≤ binds_total st →
  ∃ st' sn', iv_send CTermBot 0 st = Done st' ∧ iv_inv pr tk sn' st' ∧
             (∀ k, ivbca_received st' k = ivbca_received st k).
Proof.
  intros Hi Hle Hq. destruct Hi.
  destruct (iv_send_Done tk sn st CTermBot 0) as (ch & He & Hl); [done|..].
  { simpl. destruct (both_voted _); simpl in Hle; lia. }
  destruct (hist_send st tk sn CTermBot 0) as (? & ? & ?); [set_solver|done..|].
  eexists _, (<[CTermBot := sn CTermBot ++ [0]]> sn). split; [exact He|]. split; [|done].
  split; simpl; try done; chan_simpl; try done.
  change (binds_total (set_chans ch st)) with (binds_total st).
  rewrite bool_decide_eq_true_2, length_app by done. simpl. lia.
Qed.

(** ** Handlers return and keep the invariant *)

(** What a call may change of the counted messages. *)
Definition counted (k : bca_kind) (v : Z) (s : UUID) (st st' : ivbca) : Prop :=
  (∀ k, ivbca_received st' k = ivbca_received st k) ∨ recv_step k v s (ivbca_received st) (ivbca_received st').

Lemma ivbca_propose_ok pr tk sn st est coin :
  iv_inv pr tk sn st →
  ∃ st' sn' err, ivbca_propose est coin st = Done (st', err) ∧
    iv_inv (if err is Some _ then pr else (est, coin) :: pr) tk sn' st' ∧
    (∀ k, ivbca_received st' k = ivbca_received st k).
Proof.
  intros Hi. unfold ivbca_propose.
  destruct (isInputValid est) eqn:Hv; simpl; [|by eexists st, sn, _].
  destruct (coin =? bot) eqn:Hc; simpl; [|by eexists st, sn, _].
  apply isInputValid_spec in Hv.
  assert (Hi' : iv_inv ((est, coin) :: pr) tk sn st).
  { destruct Hi. split; try done.
    { intros e c [[= -> ->]|]%elem_of_cons; [|by apply v_prop0]. by apply Z.eqb_eq in Hc. }
    intros v Hin. destruct (v_echo0 v Hin) as (? & ? & [[c Hp]|?]);
      (split_and!; [done..|]); [left; exists c; by right|by right]. }
  assert (Hl : length (sentEchoes st) = 2%nat) by apply Hi.
  rewrite (slice_get_elt false) by lia. simpl.
  destruct (elt false (sentEchoes st) est) eqn:Hs; simpl.
  - by eexists st, sn, None.
  - destruct (broadcastEcho_inv _ tk sn st est Hi' Hv Hs) as (st' & sn' & -> & Hinv & Hr & _).
    { left. exists coin. by left. }
    by exists st', sn', None.
Qed.

(** A message that is counted: what it leaves of the state. *)
Definition fresh (k : bca_kind) (v : Z) (s : UUID) (st st1 : ivbca) : Prop :=
  recv_step k v s (ivbca_received st) (ivbca_received st1) ∧ only_received st st1 ∧ s ∉ ivbca_received st k v.

Lemma fresh_inv pr tk sn st st1 k v s :
  iv_inv pr tk sn st → s ∈ peers mb → fresh k v s st st1 →
  (k = KBind → ∀ w, s ∉ ivbca_received st KBind w) →
  iv_inv pr tk sn st1 ∧ cnt st1 k v = cnt st k v + 1.
Proof.
  intros Hi Hs (Hr & Ho & Hn) Hk. split; [by apply (recv_step_inv _ _ _ st _ k v s)|].
  by apply (recv_step_new _ _ _ _ _ Hr).
Qed.

(** *** The handlers, once the checks are done

    A call is refused and changes nothing, or it counts the message and goes on
    with the state that has counted it. *)
Lemma submitEcho_shape pr tk sn st v s : iv_inv pr tk sn st →
  (∃ err, ivbca_submitEcho v s st = Done (st, Some err)) ∨
  bit v ∧ ∃ st1, fresh KEcho v s st st1 ∧
    ivbca_submitEcho v s st =
      (st2 ← (if (cnt st1 KEcho v =? f + 1) && negb (elt false (sentEchoes st) v)
              then ivbca_broadcastEcho v st1 else Done st1);
       st3 ← (if cnt st1 KEcho v =? n - f then s ← iv_send CExt v st2; iv_send CApprove v s
              else Done st2);
       Done (st3, None)).
Proof.
  intros Hi. unfold ivbca_submitEcho. destruct (isInputValid v) eqn:Hv; simpl; [|left; by eexists].
  apply isInputValid_spec in Hv. pose proof (v_len _ _ _ _ Hi) as (Hls & Hle & _).
  rewrite (slice_get_elt (∅ : gset UUID)) by lia. simpl. rewrite <-sets_elt by lia.
  change (sets (iv_echoes st) v) with (ivbca_received st KEcho v).
  case_decide as Hnew; [left; by eexists|]. right. split; [done|].
  rewrite slice_set_Done by lia. simpl. set (st1 := set_echoes _ st). exists st1.
  assert (Hst1 : recv_step KEcho v s (ivbca_received st) (ivbca_received st1)).
  { intros k w. destruct k; [|done..]. unfold ivbca_received, st1. cbn [iv_echoes set_echoes].
    rewrite sets_insert by lia. repeat destruct (decide _); naive_solver. }
  split; [split; [done|]; split; [unfold only_received; simpl; by rewrite length_insert|done]|].
  rewrite (slice_get_elt false) by lia. simpl. destruct (v_conf _ _ _ _ Hi) as [Hn Hf].
  destruct (rs_arith mb) as (? & ? & ? & Hf1 & Hnf & Hi1 & Hinf). rewrite Hf, Hf1, Hi1.
  replace (Z.of_nat (size ({[s]} ∪ ivbca_received st KEcho v))) with (cnt st1 KEcho v)
    by (rewrite Hst1, decide_True by done; done).
  destruct (_ && _); [|cbn [mbind outcome_bind]; change (iv_n st1) with (iv_n st); change (iv_f st1) with (iv_f st);
    by rewrite Hn, Hf, Hnf, Hinf].
  unfold ivbca_broadcastEcho, iv_send. rewrite slice_set_Done by (change (sentEchoes st1) with (sentEchoes st); lia). simpl.
  destruct (chan_send ivbca_cap CEcho v (iv_chans st)) as [ch| |]; [|done..].
  cbn [mbind outcome_bind iv_n iv_f set_chans set_sentEchoes].
  change (iv_n st1) with (iv_n st). change (iv_f st1) with (iv_f st). by rewrite Hn, Hf, Hnf, Hinf.
Qed.

Lemma submitVote_shape pr tk sn st v s : iv_inv pr tk sn st →
  (∃ err, ivbca_submitVote v s st = Done (st, Some err)) ∨
  bit v ∧ ∃ st1, fresh KVote v s st st1 ∧
    ivbca_submitVote v s st =
      (st2 ← (if (cnt st1 KVote v =? n - f) && (cnt st KVote (1 - v) <? n - f)
              then iv_send CBindVal v st1 else Done st1);
       Done (st2, None)).
Proof.
  intros Hi. unfold ivbca_submitVote. destruct (isInputValid v) eqn:Hv; simpl; [|left; by eexists].
  apply isInputValid_spec in Hv. pose proof (v_len _ _ _ _ Hi) as (_ & _ & Hlv & _).
  rewrite !(slice_get_elt (∅ : gset UUID)) by lia. simpl. rewrite <-!sets_elt by lia.
  case_decide as Hnew; [left; by eexists|]. right. split; [done|].
  rewrite slice_set_Done by lia. simpl.
  rewrite (slice_get_elt (∅ : gset UUID)) by (rewrite length_insert; lia). simpl.
  rewrite <-sets_elt, sets_insert, decide_False by lia. set (st1 := set_voted _ st). exists st1.
  assert (Hst1 : recv_step KVote v s (ivbca_received st) (ivbca_received st1)).
  { intros k w. destruct k; [done| |done]. unfold ivbca_received, st1. cbn [voted set_voted].
    rewrite sets_insert by lia. repeat destruct (decide _); naive_solver. }
  assert (Hsv : s ∉ ivbca_received st KVote v) by (destruct Hv as [-> | ->]; tauto).
  split; [split; [done|]; split; [unfold only_received; simpl; by rewrite length_insert|done]|].
  destruct (v_conf _ _ _ _ Hi) as [-> ->]. destruct (rs_arith mb) as (? & ? & ? & _ & -> & _ & ->).
  by replace (Z.of_nat (size ({[s]} ∪ sets (voted st) v))) with (cnt st1 KVote v)
    by (rewrite Hst1, decide_True by done; done).
Qed.

Lemma bound_three pr tk sn st s : iv_inv pr tk sn st →
  ¬ (s ∈ ivbca_received st KBind 0 ∨ s ∈ ivbca_received st KBind 1 ∨ s ∈ ivbca_received st KBind bot) →
  ∀ w, s ∉ ivbca_received st KBind w.
Proof.
  intros Hi Hn w Hw. unfold ivbca_received in *. assert (w = 0 ∨ w = 1 ∨ w = bot) as Hw3; [|naive_solver].
  pose proof (v_len _ _ _ _ Hi) as (_ & _ & _ & Hlb). unfold sets, elt in Hw. case_decide; [|set_solver].
  destruct (bound st !! Z.to_nat w) eqn:E; simpl in Hw; [|set_solver].
  apply lookup_lt_Some in E. unfold bot. lia.
Qed.

Lemma submitBind_shape pr tk sn st v s : iv_inv pr tk sn st →
  (∃ err, ivbca_submitBind v s st = Done (st, Some err)) ∨
  0 ≤ v ≤ bot ∧ (∀ w, s ∉ ivbca_received st KBind w) ∧ ∃ st1, fresh KBind v s st st1 ∧
    ivbca_submitBind v s st =
      (st2 ← (if cnt st1 KBind v =? n - f then iv_send CTermVal v st1
              else if binds_total st1 =? n - f then iv_send CTermBot 0 st1 else Done st1);
       Done (st2, None)).
Proof.
  intros Hi. unfold ivbca_submitBind.
  destruct ((bot <? v) || (v <? 0)) eqn:Hv; simpl; [left; by eexists|].
  apply orb_false_iff in Hv as [Hv1%Z.ltb_ge Hv2%Z.ltb_ge].
  pose proof (v_len _ _ _ _ Hi) as (_ & _ & _ & Hlb). unfold bot in Hv1.
  rewrite !(slice_get_elt (∅ : gset UUID)) by (unfold bot; lia). simpl.
  rewrite <-!sets_elt by (unfold bot; lia).
  case_decide as Hnew; [left; by eexists|]. right. split; [done|].
  pose proof (bound_three _ _ _ _ _ Hi Hnew) as Hsv. split; [done|].
  rewrite slice_set_Done by lia. simpl.
  rewrite !(slice_get_elt (∅ : gset UUID)) by (rewrite length_insert; unfold bot; lia). simpl.
  rewrite <-!sets_elt by (unfold bot; lia). set (st1 := set_bound _ st). exists st1.
  change (sets _ 0) with (ivbca_received st1 KBind 0).
  change (sets _ 1) with (ivbca_received st1 KBind 1).
  change (sets (<[_ := _]> _) bot) with (ivbca_received st1 KBind bot).
  assert (Hst1 : recv_step KBind v s (ivbca_received st) (ivbca_received st1)).
  { intros k w. destruct k; [done..|]. unfold ivbca_received, st1. cbn [bound set_bound].
    rewrite sets_insert by lia. repeat destruct (decide _); naive_solver. }
  split; [split; [done|]; split; [unfold only_received; simpl; by rewrite length_insert|done]|].
  destruct (v_conf _ _ _ _ Hi) as [-> ->]. destruct (rs_arith mb) as (? & ? & ? & _ & -> & _ & ->).
  replace (Z.of_nat (size ({[s]} ∪ sets (bound st) v))) with (cnt st1 KBind v)
    by (rewrite Hst1, decide_True by done; done).
  by replace (Z.of_nat (_ + _ + _)) with (binds_total st1) by (unfold binds_total; lia).
Qed.

(** *** Each call returns and keeps the invariant *)

Lemma ivbca_submitEcho_ok pr tk sn st v s :
  iv_inv pr tk sn st → s ∈ peers mb →
  ∃ st' sn' err, ivbca_submitEcho v s st = Done (st', err) ∧ iv_inv pr tk sn' st' ∧
    counted KEcho v s st st'.
Proof.
  intros Hi Hs. destruct (submitEcho_shape _ _ _ _ v s Hi) as [[err ->]|(Hv & st1 & Hfr & ->)];
    [eexists st, sn, _; split; [done|]; split; [done|by left]|].
  destruct (fresh_inv _ _ _ _ _ _ _ _ Hi Hs Hfr) as [Hi1 Hcnt]; [done|]. pose proof (rs_arith mb).
  assert (Hecho : ∃ st2 sn2,
    (if (cnt st1 KEcho v =? f + 1) && negb (elt false (sentEchoes st) v)
     then ivbca_broadcastEcho v st1 else Done st1) = Done st2 ∧
    iv_inv pr tk sn2 st2 ∧ (∀ k, ivbca_received st2 k = ivbca_received st1 k) ∧
    sn2 CApprove = sn CApprove).
  { destruct (Z.eqb_spec (cnt st1 KEcho v) (f + 1)) as [Heq|]; simpl; [|by eexists _, _].
    destruct (elt false (sentEchoes st) v) eqn:Hse; simpl; [by eexists _, _|].
    destruct Hfr as (_ & (_ & _ & Hfl & _) & _).
    apply (broadcastEcho_inv pr tk sn); [done..|by rewrite Hfl|right; lia]. }
  destruct Hecho as (st2 & sn2 & -> & Hi2 & Hr2 & Hap). simpl.
  assert (Happ : ∃ st3 sn3,
    (if cnt st1 KEcho v =? n - f then s ← iv_send CExt v st2; iv_send CApprove v s
     else Done st2) = Done st3 ∧
    iv_inv pr tk sn3 st3 ∧ (∀ k, ivbca_received st3 k = ivbca_received st2 k)).
  { destruct (Z.eqb_spec (cnt st1 KEcho v) (n - f)) as [Heq|]; [|by eexists _, _].
    apply (approve_inv pr tk sn2); [done..| |].
    - rewrite Hap. intros Hin. destruct (v_appr _ _ _ _ Hi v Hin). lia.
    - rewrite Hr2. lia. }
  destruct Happ as (st3 & sn3 & -> & Hi3 & Hr3). simpl.
  eexists _, _, _. split; [done|]. split; [done|]. right. intros k w.
  rewrite Hr3, Hr2. apply Hfr.
Qed.

Lemma ivbca_submitVote_ok pr tk sn st v s :
  iv_inv pr tk sn st → s ∈ peers mb →
  ∃ st' sn' err, ivbca_submitVote v s st = Done (st', err) ∧ iv_inv pr tk sn' st' ∧
    counted KVote v s st st'.
Proof.
  intros Hi Hs. destruct (submitVote_shape _ _ _ _ v s Hi) as [[err ->]|(Hv & st1 & Hfr & ->)];
    [eexists st, sn, _; split; [done|]; split; [done|by left]|].
  destruct (fresh_inv _ _ _ _ _ _ _ _ Hi Hs Hfr) as [Hi1 Hcnt]; [done|].
  assert (Hend : ∃ st2 sn2,
    (if (cnt st1 KVote v =? n - f) && (cnt st KVote (1 - v) <? n - f)
     then iv_send CBindVal v st1 else Done st1) = Done st2 ∧
    iv_inv pr tk sn2 st2 ∧ (∀ k, ivbca_received st2 k = ivbca_received st1 k)).
  { destruct (Z.eqb_spec (cnt st1 KVote v) (n - f)) as [Heq|]; simpl; [|by eexists _, _].
    destruct (Z.ltb_spec (cnt st KVote (1 - v)) (n - f)) as [Hlt|]; simpl; [|by eexists _, _].
    apply (bindVal_inv pr tk sn); [done..| |lia].
    destruct (sn CBindVal) as [|w l] eqn:Hw; [done|].
    destruct (proj2 (v_bindval _ _ _ _ Hi) w) as [Hbw Hqw]; [rewrite Hw; by left|].
    destruct (decide (w = v)) as [->|]; [lia|]. replace w with (1 - v) in Hqw by lia. lia. }
  destruct Hend as (st2 & sn2 & -> & Hi2 & Hr2). simpl.
  eexists _, _, _. split; [done|]. split; [done|]. right. intros k w. rewrite Hr2. apply Hfr.
Qed.

(** Two values cannot both be bound by a quorum. *)
Lemma one_bound_quorum pr tk sn st v w :
  iv_inv pr tk sn st → n - f ≤ cnt st KBind v → n - f ≤ cnt st KBind w → v = w.
Proof.
  intros Hi Hv Hw. destruct (decide (v = w)) as [|Hne]; [done|].
  pose proof (v_disj _ _ _ _ Hi v w Hne). pose proof (rs_arith mb).
  pose proof (v_peers _ _ _ _ Hi KBind v). pose proof (v_peers _ _ _ _ Hi KBind w).
  assert (size (ivbca_received st KBind v ∪ ivbca_received st KBind w) ≤ size (peers mb))%nat
    by (apply subseteq_size; set_solver).
  rewrite size_union in * by done. destruct Resilient0. lia.
Qed.

Lemma ivbca_submitBind_ok pr tk sn st v s :
  iv_inv pr tk sn st → s ∈ peers mb →
  ∃ st' sn' err, ivbca_submitBind v s st = Done (st', err) ∧ iv_inv pr tk sn' st' ∧
    counted KBind v s st st'.
Proof.
  intros Hi Hs. destruct (submitBind_shape _ _ _ _ v s Hi) as [[err ->]|(Hv & Hsv & st1 & Hfr & ->)];
    [eexists st, sn, _; split; [done|]; split; [done|by left]|].
  destruct (fresh_inv _ _ _ _ _ _ _ _ Hi Hs Hfr) as [Hi1 Hcnt]; [done|].
  destruct Hfr as (Hst1 & (_ & _ & _ & _ & Hpc & _) & _).
  pose proof (recv_step_cnt _ _ _ _ _ KBind 0 Hst1) as H0.
  pose proof (recv_step_cnt _ _ _ _ _ KBind 1 Hst1) as H1.
  pose proof (recv_step_cnt _ _ _ _ _ KBind bot Hst1) as H2.
  assert (Htot : binds_total st < binds_total st1).
  { unfold binds_total. assert (v = 0 ∨ v = 1 ∨ v = bot) as [-> | [-> | ->]] by (unfold bot in *; lia); lia. }
  assert (Hend : ∃ st2 sn2,
    (if cnt st1 KBind v =? n - f then iv_send CTermVal v st1
     else if binds_total st1 =? n - f then iv_send CTermBot 0 st1 else Done st1) = Done st2 ∧
    iv_inv pr tk sn2 st2 ∧ (∀ k, ivbca_received st2 k = ivbca_received st1 k)).
  { destruct (Z.eqb_spec (cnt st1 KBind v) (n - f)) as [Heq|Hneq]; simpl.
    - apply (termVal_inv pr tk sn); [done|done| |lia].
      destruct (sn CTermVal) as [|w l] eqn:Hw; [done|].
      destruct (proj2 (v_termval _ _ _ _ Hi) w) as [Hbw Hqw]; [rewrite Hw; by left|].
      pose proof (recv_step_cnt _ _ _ _ _ KBind w Hst1).
      assert (v = w) as <- by (apply (one_bound_quorum pr tk sn st1); [done|lia..]). lia.
    - destruct (Z.eqb_spec (binds_total st1) (n - f)) as [Heq|]; simpl; [|by eexists _, _].
      apply (termBot_inv pr tk sn); [done| |lia].
      pose proof (v_termbot _ _ _ _ Hi) as Hb. rewrite bool_decide_eq_false_2 in Hb by lia.
      rewrite Hpc. simpl in Hb. lia. }
  destruct Hend as (st2 & sn2 & -> & Hi2 & Hr2). simpl.
  eexists _, _, _. split; [done|]. split; [done|]. right. intros k w. rewrite Hr2. apply Hst1.
Qed.

(** ** Goroutine steps and receives by the owner *)

(** A receive of [waitToVote] or of the owner. *)
Definition internal : list bca_chan := [CApprove; CBindBot; CBindVal; CTermBot; CTermVal; CUnblock].

Lemma waitToVote_hist br pc s pc' s' tk sn :
  linked tk sn s → vote_hist pc tk sn → ivbca_waitToVote br pc s = Some (pc', s') →
  ∃ tk' sn', linked tk' sn' s' ∧ vote_hist pc' tk' sn' ∧
    only_chans [CApprove; CUnblock] tk tk' ∧ only_chans [CVote; CBindBot; CTermBot] sn sn' ∧
    (sn' CTermBot = sn CTermBot ∧ both_voted pc' = both_voted pc ∨
     sn' CTermBot = sn CTermBot ++ [0] ∧ both_voted pc = false ∧ both_voted pc' = true).
Proof.
  intros Hl Hh Hs.
  destruct pc as [|x| | | | |], br; try done; simpl in Hs, Hh;
    match type of Hs with
    | context [chan_recv ?c ?q] => destruct (chan_recv c q) as [[v s1]|] eqn:Hr
    | context [go_send _ ?c ?v ?q] => destruct (go_send ivbca_cap c v q) as [s1|] eqn:Hr
    end; simplify_eq/=.
  - destruct (hist_recv [CApprove; CUnblock] _ _ _ _ _ _ Hl Hr) as [? ?]; [set_solver|].
    destruct Hh as (Ha & ? & ?).
    eexists _, sn. split; [done|]. simpl. chan_simpl. split; [by rewrite Ha|]. split; [done|].
    split; [done|by left].
  - destruct (hist_go_send _ [CVote; CBindBot; CTermBot] _ _ _ _ _ _ Hl Hr) as [? ?]; [set_solver|].
    destruct Hh as (? & Hv & ?).
    eexists tk, _. split; [done|]. simpl. chan_simpl. split; [rewrite Hv; by eexists|].
    split; [done|]. split; [done|by left].
  - destruct (hist_recv [CApprove; CUnblock] _ _ _ _ _ _ Hl Hr) as [? ?]; [set_solver|].
    destruct Hh as (y & Ha & ? & ?).
    eexists _, sn. split; [done|]. simpl. chan_simpl. split; [rewrite Ha; by eexists _, _|].
    split; [done|]. split; [done|by left].
  - destruct (hist_recv [CApprove; CUnblock] _ _ _ _ _ _ Hl Hr) as [? ?]; [set_solver|].
    destruct Hh as (y & Ha & ? & ?).
    eexists _, sn. split; [done|]. simpl. chan_simpl. split; [by eexists|].
    split; [done|]. split; [done|by left].
  - destruct (hist_go_send _ [CVote; CBindBot; CTermBot] _ _ _ _ _ _ Hl Hr) as [? ?]; [set_solver|].
    destruct Hh as (x & y & ? & ? & Hb).
    eexists tk, _. split; [done|]. simpl. chan_simpl. split; [rewrite Hb; by eexists _, _|].
    split; [done|]. split; [done|by left].
  - destruct (hist_go_send _ [CVote; CBindBot; CTermBot] _ _ _ _ _ _ Hl Hr) as [? ?]; [set_solver|].
    destruct Hh as (x & y & ? & ? & Hb).
    eexists tk, _. split; [done|]. simpl. chan_simpl. split; [by eexists _, _|].
    split; [done|]. split; [done|by right].
Qed.

Lemma ivbca_step_ok pr tk sn st g br st' :
  iv_inv pr tk sn st → ivbca_step g br st = Some st' →
  ∃ tk' sn', iv_inv pr tk' sn' st' ∧ only_chans internal tk tk' ∧
    (∀ k, ivbca_received st' k = ivbca_received st k).
Proof.
  intros Hi Hs. destruct g; simpl in Hs; apply bind_Some in Hs as ([pc ch] & Hs & [= <-]).
  - destruct (waitToVote_hist _ _ _ _ _ tk sn (v_link _ _ _ _ Hi) (v_vote _ _ _ _ Hi) Hs)
      as (tk' & sn' & Hl & Hh & Ht & Hn & Hb).
    assert (Hn' : ∀ c, c ∉ [CVote; CBindBot; CTermBot] → sn' c = sn c) by done.
    exists tk', sn'. split; [|split; [|done]].
    + destruct Hi. split; simpl; rewrite ?(Hn' CEcho), ?(Hn' CApprove), ?(Hn' CExt),
        ?(Hn' CBindVal), ?(Hn' CTermVal) by set_solver; try done.
      * change (binds_total _) with (binds_total st).
        destruct Hb as [[-> ->]|(-> & Hb1 & ->)]; [done|].
        rewrite Hb1 in v_termbot0. rewrite length_app. simpl in *. lia.
      * eapply bind_hist_ext; [..|exact v_bind0]; [apply Ht|apply Ht|apply Hn]; set_solver.
      * eapply decide_hist_ext; [..|exact v_decide0]; [apply Ht|apply Ht|apply Hn|apply Hn]; set_solver.
    + intros c Hc. apply Ht. set_solver.
  - destruct (waitToBind_hist _ _ _ _ _ _ tk sn (v_link _ _ _ _ Hi) (v_bind _ _ _ _ Hi) Hs)
      as (tk' & sn' & Hl & Hh & Ht & Hn).
    assert (Hn' : ∀ c, c ∉ [CBind] → sn' c = sn c) by done.
    exists tk', sn'. split; [|split; [|done]].
    + destruct Hi. split; simpl; rewrite ?(Hn' CEcho), ?(Hn' CApprove), ?(Hn' CExt),
        ?(Hn' CBindVal), ?(Hn' CTermVal), ?(Hn' CTermBot) by set_solver; try done.
      * eapply vote_hist_ext; [..|exact v_vote0]; [apply Ht|apply Hn|apply Hn]; set_solver.
      * eapply decide_hist_ext; [..|exact v_decide0]; [apply Ht|apply Ht|apply Hn|apply Hn]; set_solver.
    + intros c Hc. apply Ht. set_solver.
  - destruct (waitToDecide_hist _ _ _ _ _ _ tk sn (v_link _ _ _ _ Hi) (v_decide _ _ _ _ Hi) Hs)
      as (tk' & sn' & Hl & Hh & Ht & Hn).
    assert (Hn' : ∀ c, c ∉ [COut; CUnblock] → sn' c = sn c) by done.
    exists tk', sn'. split; [|split; [|done]].
    + destruct Hi. split; simpl; rewrite ?(Hn' CEcho), ?(Hn' CApprove), ?(Hn' CExt),
        ?(Hn' CBindVal), ?(Hn' CTermVal), ?(Hn' CTermBot) by set_solver; try done.
      * eapply vote_hist_ext; [..|exact v_vote0]; [apply Ht|apply Hn|apply Hn]; set_solver.
      * eapply bind_hist_ext; [..|exact v_bind0]; [apply Ht|apply Ht|apply Hn]; set_solver.
    + intros c Hc. apply Ht. set_solver.
Qed.

Lemma ivbca_take_ok pr tk sn st c v st' :
  iv_inv pr tk sn st → ivbca_take c st = Some (v, st') →
  c ∈ out_chans ∧ iv_inv pr (<[c := tk c ++ [v]]> tk) sn st' ∧
  (∀ k, ivbca_received st' k = ivbca_received st k).
Proof.
  intros Hi Ht. unfold ivbca_take in Ht. case_decide as Hc; [|done].
  apply bind_Some in Ht as ([w ch] & Hr & [= -> <-]). split; [done|]. split; [|done].
  assert (Hne : ∀ c', c' ∉ out_chans → (<[c := tk c ++ [v]]> tk) c' = tk c')
    by (intros c' Hc'; rewrite fn_lookup_insert_ne; [done|set_solver]).
  destruct Hi. split; simpl; try done.
  - by eapply linked_recv.
  - eapply vote_hist_ext; [apply Hne|..]; [set_solver|done..].
  - eapply bind_hist_ext; [apply Hne|apply Hne|..]; [set_solver..|done|done].
  - eapply decide_hist_ext; [apply Hne|apply Hne|..]; [set_solver..|done|done|done].
Qed.
End invariant.

(** ** The interface *)

Section laws.
Context (mb : membership UUID) `{!Resilient mb}.

#[local] Abbreviation n := (mb_n mb).
#[local] Abbreviation f := (mb_f mb).

Definition ivbca_node_ok (nd : bca_node ivbca) : Prop :=
  ∃ tk sn, (∀ c, c ∈ out_chans → tk c = nd_taken nd c) ∧
           iv_inv mb (nd_proposed nd) tk sn (nd_st nd).

Lemma node_sent nd tk sn c v :
  (∀ c, c ∈ out_chans → tk c = nd_taken nd c) → iv_inv mb (nd_proposed nd) tk sn (nd_st nd) →
  c ∈ out_chans → v ∈ nd_taken nd c → v ∈ sn c.
Proof.
  intros Ht Hi Hc Hv. rewrite <-Ht in Hv by done.
  by eapply linked_taken; [apply (v_link _ _ _ _ _ Hi)|].
Qed.

(** A vote is for an approved value; both values are approved before [bot] is
    bound. *)
Lemma vote_approved pr tk sn st v :
  iv_inv mb pr tk sn st → v ∈ sn CVote → bit v ∧ n - f ≤ cnt st KEcho v.
Proof.
  intros Hi Hv. apply (v_appr _ _ _ _ _ Hi).
  eapply linked_taken; [apply (v_link _ _ _ _ _ Hi)|].
  by apply (vote_hist_taken _ _ _ _ (v_vote _ _ _ _ _ Hi)).
Qed.

Lemma bot_approved pr tk sn st w :
  iv_inv mb pr tk sn st → sn CBindBot ≠ [] → bit w → n - f ≤ cnt st KEcho w.
Proof.
  intros Hi Hb Hw. destruct (vote_hist_both _ _ _ (v_vote _ _ _ _ _ Hi) Hb) as (x & y & Ha).
  pose proof (v_link _ _ _ _ _ Hi CApprove) as Hxy. rewrite Ha in Hxy. simpl in Hxy.
  destruct (v_nodup _ _ _ _ _ Hi) as (_ & Hd & _). rewrite Hxy in Hd.
  apply list.NoDup_cons in Hd as [Hx _].
  destruct (v_appr _ _ _ _ _ Hi x) as [? ?]; [rewrite Hxy; set_solver|].
  destruct (v_appr _ _ _ _ _ Hi y) as [? ?]; [rewrite Hxy; set_solver|].
  assert (w = x ∨ w = y) as [-> | ->] by (assert (x ≠ y) by set_solver; lia); done.
Qed.

Lemma ivbca_exec_ok e (nd nd' : bca_node ivbca) :
  ivbca_node_ok nd → (∀ k v s, e = EvMsg k v s → s ∈ peers mb) → bca_exec e nd = Some nd' →
  ivbca_node_ok nd' ∧
  ((∀ k, ivbca_received (nd_st nd') k = ivbca_received (nd_st nd) k) ∨
   ∃ k v s, e = EvMsg k v s ∧ recv_step k v s (ivbca_received (nd_st nd)) (ivbca_received (nd_st nd'))).
Proof.
  intros (tk & sn & Ht & Hi) Hs Hex. destruct e as [est coin|v|k v s|g br|c]; cbn [bca_exec] in Hex;
    apply bind_Some in Hex as (r & Hr & Hex).
  - destruct r as [st err]. injection Hex as <-. simpl.
    destruct (ivbca_propose_ok mb _ _ _ _ est coin Hi) as (st' & sn' & err' & He & Hi' & Hrc).
    simpl in Hr. rewrite He in Hr. injection Hr as -> ->. split; [by exists tk, sn'|by left].
  - injection Hr as <-. injection Hex as <-. split; [by exists tk, sn|by left].
  - destruct r as [st err]. injection Hex as <-. specialize (Hs k v s eq_refl).
    assert (∃ st' sn' err, bca_submit k v s (nd_st nd) = Done (st', err) ∧
      iv_inv mb (nd_proposed nd) tk sn' st' ∧ counted k v s (nd_st nd) st')
      as (st' & sn' & err' & He & Hi' & Hc).
    { destruct k; [by apply (ivbca_submitEcho_ok mb _ _ sn)
                  |by apply (ivbca_submitVote_ok mb _ _ sn)|by apply (ivbca_submitBind_ok mb _ _ sn)]. }
    rewrite He in Hr. injection Hr as -> ->. split; [by exists tk, sn'|].
    destruct Hc as [Hc|Hc]; [by left|right; by exists k, v, s].
  - injection Hex as <-. destruct (ivbca_step_ok mb _ _ _ _ g br r Hi Hr) as (tk' & sn' & Hi' & Hto & Hrc).
    split; [|by left]. exists tk', sn'. split; [|done]. intros c Hc. rewrite Hto; [by apply Ht|].
    unfold internal, out_chans in *. set_solver.
  - destruct r as [v st]. injection Hex as <-.
    destruct (ivbca_take_ok mb _ _ _ _ c v st Hi Hr) as (Hc & Hi' & Hrc).
    split; [|by left]. eexists _, sn. split; [|exact Hi']. intros c' Hc'. simpl.
    rewrite !chan_upd_lookup, !Ht by done. done.
Qed.

Lemma ivbca_decided pr tk sn st d :
  iv_inv mb pr tk sn st → d ∈ sn COut →
  (0 ≤ d ≤ bot ∧ n - f ≤ cnt st KBind d) ∨
  (d = bot ∧ n - f ≤ binds_total st ∧ ∀ w, bit w → n - f ≤ cnt st KEcho w).
Proof.
  intros Hi Hd.
  pose proof (decide_hist_choice _ _ _ _ (v_decide _ _ _ _ _ Hi) Hd) as Hc.
  pose proof (v_link _ _ _ _ _ Hi) as Hl. destruct Hc as [Hc|(-> & _ & Hc)].
  - left. apply (v_termval _ _ _ _ _ Hi), (linked_taken _ _ _ _ _ Hl). rewrite Hc. by left.
  - right. split; [done|]. pose proof (v_termbot _ _ _ _ _ Hi) as Hb.
    rewrite (Hl CTermBot), length_app, Hc in Hb.
    pose proof (v_vote _ _ _ _ _ Hi) as Hh.
    destruct (iv_pcVote st) eqn:Hpc; simpl in Hb; case_bool_decide; simpl in Hb; try lia.
    split; [done|]. intros w Hw. apply (bot_approved _ _ _ _ _ Hi); [|done].
    destruct Hh as (? & ? & _ & _ & ->). done.
Qed.

Lemma ivbca_bound pr tk sn st v :
  iv_inv mb pr tk sn st → v ∈ sn CBind →
  (bit v ∧ n - f ≤ cnt st KVote v) ∨ (v = bot ∧ ∀ w, bit w → n - f ≤ cnt st KEcho w).
Proof.
  intros Hi Hv. pose proof (v_link _ _ _ _ _ Hi) as Hl.
  pose proof (bind_hist_choice _ _ _ _ (v_bind _ _ _ _ _ Hi) Hv) as Hc.
  destruct Hc as [(-> & _ & Hc)|[Hc _]].
  - right. split; [done|]. intros w Hw. apply (bot_approved _ _ _ _ _ Hi); [|done].
    rewrite (Hl CBindBot). by destruct (tk CBindBot).
  - left. apply (v_bindval _ _ _ _ _ Hi), (linked_taken _ _ _ _ _ Hl). rewrite Hc. by left.
Qed.

#[export] Program Instance ivbca_laws : BCALaws ivbca mb := {
  received := ivbca_received;
  node_ok := ivbca_node_ok;
}.
Next Obligation. exists none, none. split; [done|]. by apply (iv_inv_init mb). Qed.
Next Obligation. intros k v. apply sets_empty. destruct k; repeat constructor. Qed.
Next Obligation.
  intros e nd nd' Hok Hs Hex. destruct (ivbca_exec_ok e nd nd' Hok Hs Hex) as [Hok' Hr].
  split; [done|]. intros k v. destruct Hr as [Hr|(k' & v' & s & -> & Hr)].
  - rewrite Hr. split; [done|by left].
  - rewrite Hr. case_decide as Hd; [|split; [done|by left]]. destruct Hd as [-> ->].
    split; [set_solver|]. intros x [->%elem_of_singleton|]%elem_of_union; [by right|by left].
Qed.
Next Obligation. intros nd k v (tk & sn & _ & Hi). apply (v_peers _ _ _ _ _ Hi). Qed.
Next Obligation. intros nd v w (tk & sn & _ & Hi). apply (v_disj _ _ _ _ _ Hi). Qed.
Next Obligation.
  intros nd v (tk & sn & Ht & Hi) Hv. apply (node_sent _ _ _ CEcho _ Ht Hi) in Hv; [|set_solver].
  destruct (v_echo _ _ _ _ _ Hi v Hv) as (? & _ & ?). done.
Qed.
Next Obligation.
  intros nd v (tk & sn & Ht & Hi) Hv. apply (node_sent _ _ _ CVote _ Ht Hi) in Hv; [|set_solver].
  destruct (vote_approved _ _ _ _ _ Hi Hv). by auto.
Qed.
Next Obligation.
  intros nd v (tk & sn & Ht & Hi) Hv. apply (node_sent _ _ _ CBind _ Ht Hi) in Hv; [|set_solver].
  destruct (ivbca_bound _ _ _ _ _ Hi Hv) as [[? ?]|[? ?]]; [by auto|right; by auto].
Qed.
Next Obligation.
  intros nd v w (tk & sn & Ht & Hi) Hv Hw.
  apply (node_sent _ _ _ CBind _ Ht Hi) in Hv, Hw; [|set_solver..].
  by eapply once_eq; [apply (bind_hist_once _ _ _ (v_bind _ _ _ _ _ Hi))|..].
Qed.
Next Obligation.
  intros nd v w (tk & sn & Ht & Hi) Hv Hw.
  apply (node_sent _ _ _ CVote _ Ht Hi) in Hv, Hw; [|set_solver..].
  by eapply once_eq; [apply (vote_hist_once _ _ _ (v_vote _ _ _ _ _ Hi))|..].
Qed.
Next Obligation.
  intros nd d (tk & sn & Ht & Hi) Hd. apply (node_sent _ _ _ COut _ Ht Hi) in Hd; [|set_solver].
  destruct (ivbca_decided _ _ _ _ _ Hi Hd) as [[Hr Hq]|(-> & Hq & Ha)].
  - left. split; [unfold bot in *; lia|done].
  - right. split; [done|]. split; [unfold binds_total in Hq; lia|by auto].
Qed.

#[export] Instance ivbca_binding : BCABinding ivbca mb.
Proof.
  split. intros nd v (tk & sn & _ & Hi) Hv Hp. by destruct (v_prop _ _ _ _ _ Hi _ _ Hp).
Qed.
End laws.

(** ** A concrete run

    Four processes, [p4] faulty.  [p1] and [p2] propose 1 and [p3] proposes 0;
    [p4] echoes, votes for and binds 0.  All correct processes decide 1. *)

Module IvbcaExample.
Import Example4.

Definition ps : list UUID := [p1; p2; p3].
Definition ins : list (UUID * (Z * Z)) := [(p1, (1, bot)); (p2, (1, bot)); (p3, (0, bot))].

Definition run : list (UUID * bca_event) :=
  [(p1, EvPropose 1 bot); (p2, EvPropose 1 bot); (p3, EvPropose 0 bot)] ++
  each [p1; p2] [EvTake CEcho] ++
  [(p3, EvMsg KEcho 0 p4)] ++
  deliver_all ps [p1; p2] KEcho 1 ++
  each [p3] [EvTake CEcho; EvTake CEcho] ++
  deliver_all ps [p3] KEcho 1 ++
  each ps [EvGo GoVote CApprove; EvGo GoVote CVote; EvTake CVote] ++
  [(p1, EvMsg KVote 0 p4)] ++
  deliver_all ps ps KVote 1 ++
  each ps [EvGo GoBind CBindVal; EvGo GoBind CBind; EvTake CBind] ++
  [(p2, EvMsg KBind 0 p4)] ++
  deliver_all ps ps KBind 1 ++
  each [p1; p3] [EvGo GoDecide CTermVal; EvGo GoDecide COut; EvTake COut] ++
  each [p2] [EvGo GoDecide CTermBot; EvGo GoDecide CTermVal; EvGo GoDecide COut; EvTake COut].

Definition config : bca_config ivbca := bca_config_of mb4 ins run.

Lemma iv_run_reachable : bca_reachable mb4 (listed_inputs ins) config.
Proof. apply bca_config_reachable. vm_compute. reflexivity. Qed.

Definition decides_dec {T} (H : bca_config T) j v : bool := bool_decide (v ∈ nd_taken (H j) COut).

Lemma decides_spec {T} (H : bca_config T) j v : decides_dec H j v = true → Decides H j v.
Proof. apply bool_decide_eq_true_1. Qed.

Lemma decides_p1 : Decides config p1 1.
Proof. apply decides_spec. vm_compute. reflexivity. Qed.
Lemma decides_p2 : Decides config p2 1.
Proof. apply decides_spec. vm_compute. reflexivity. Qed.

Lemma correct_p1 : bca_correct mb4 p1.
Proof. split; simpl; set_solver. Qed.
Lemma correct_p2 : bca_correct mb4 p2.
Proof. split; simpl; set_solver. Qed.

(** All correct processes propose 1. *)
Definition ins1 : list (UUID * (Z * Z)) := [(p1, (1, bot)); (p2, (1, bot)); (p3, (1, bot))].

Lemma ins1_value j p : bca_correct mb4 j → listed_inputs ins1 j p → p.1 = 1.
Proof. intros _ Hp. unfold listed_inputs, ins1 in Hp. set_solver. Qed.

Definition run1 : list (UUID * bca_event) :=
  each ps [EvPropose 1 bot; EvTake CEcho] ++
  deliver_all ps [p4] KEcho 0 ++ deliver_all ps [p4] KVote 0 ++
  deliver_all ps ps KEcho 1 ++
  each ps [EvGo GoVote CApprove; EvGo GoVote CVote; EvTake CVote] ++
  deliver_all ps ps KVote 1 ++
  each ps [EvGo GoBind CBindVal; EvGo GoBind CBind; EvTake CBind] ++
  deliver_all ps ps KBind 1 ++
  each ps [EvGo GoDecide CTermVal; EvGo GoDecide COut; EvTake COut].

Definition config1 : bca_config ivbca := bca_config_of mb4 ins1 run1.

Lemma reachable1 : bca_reachable mb4 (listed_inputs ins1) config1.
Proof. apply bca_config_reachable. vm_compute. reflexivity. Qed.
Lemma decides1_p1 : Decides config1 p1 1.
Proof. apply decides_spec. vm_compute. reflexivity. Qed.
End IvbcaExample.
Import Example4 IvbcaExample.

(** ** Theorems *)

(** C15: crusader agreement of [ivbca].  Two correct processes that decide a
    value other than bot decide the same value, in every run with at most [f]
    faulty processes and every order of delivery. *)
Theorem ivbca_crusader_agreement (mb : membership UUID) `{!Resilient mb} inputs
    (H : bca_config ivbca) i j v w :
  bca_reachable mb inputs H → bca_correct mb i → bca_correct mb j →
  Decides H i v → Decides H j w → v ≠ bot → w ≠ bot → v = w.
Proof. intros Hr. by apply (crusader_agreement mb inputs), reachable_ok. Qed.

Lemma ivbca_crusader_agreement_witness :
  Decides config p1 1 ∧ Decides config p2 1 ∧ 1 = 1.
Proof.
  split; [exact decides_p1|]. split; [exact decides_p2|].
  exact (ivbca_crusader_agreement mb4 _ config p1 p2 1 1 iv_run_reachable correct_p1 correct_p2
    decides_p1 decides_p2 ltac:(discriminate) ltac:(discriminate)).
Defined.

(** Validity of [ivbca], the comment on the struct.  When every correct
    process that proposes proposes [v], no correct process decides anything
    else, bot included. *)
Theorem ivbca_validity (mb : membership UUID) `{!Resilient mb} inputs (H : bca_config ivbca) v j d :
  v = 0 ∨ v = 1 → (∀ i p, bca_correct mb i → inputs i p → p.1 = v) →
  bca_reachable mb inputs H → bca_correct mb j → Decides H j d → d = v.
Proof. intros Hv Hin. by apply (only_decision mb inputs v Hv Hin). Qed.

Lemma ivbca_validity_witness : Decides config1 p1 1 ∧ 1 = 1.
Proof.
  split; [exact decides1_p1|].
  exact (ivbca_validity mb4 _ config1 1 p1 1 (or_intror eq_refl) ins1_value
    reachable1 correct_p1 decides1_p1).
Defined.

(** C16: binding of [ivbca].  Once a correct process has decided (bot included),
    one of the two values can never be decided by a correct process, whatever
    happens from there on. *)
Theorem ivbca_binds (mb : membership UUID) `{!Resilient mb} inputs (H : bca_config ivbca) i d :
  bca_reachable mb inputs H → bca_correct mb i → Decides H i d →
  ∃ b, (b = 0 ∨ b = 1) ∧
    ∀ H' j, rtc (bca_net_step mb inputs) H H' → bca_correct mb j → ¬ Decides H' j (1 - b).
Proof. intros Hr. by apply (binding mb inputs), reachable_ok. Qed.

Lemma ivbca_binds_witness :
  ∃ b, (b = 0 ∨ b = 1) ∧
    ∀ H' j, rtc (bca_net_step mb4 (listed_inputs ins)) config H' → bca_correct mb4 j →
      ¬ Decides H' j (1 - b).
Proof.
  exact (ivbca_binds mb4 _ config p1 1 iv_run_reachable correct_p1 decides_p1).
Defined.

(** No call on an [ivbca] instance ever blocks on a full channel or panics:
    the buffer sizes of [newBCA] are enough for every proposal and every
    message of a peer, in any order, with the goroutines running or not. *)
Theorem ivbca_calls_return (mb : membership UUID) `{!Resilient mb} inputs (H : bca_config ivbca) j e :
  bca_reachable mb inputs H → bca_correct mb j → bca_event_ok mb inputs H j e →
  match e with EvPropose _ _ | EvExternal _ | EvMsg _ _ _ => True | _ => False end →
  ∃ nd, bca_exec e (H j) = Some nd.
Proof.
  intros Hr Hj Hok He. destruct (no_node _ _ _ (reachable_ok mb inputs H Hr) j Hj) as (tk & sn & _ & Hi).
  destruct e as [est coin|v|k v s|g br|c]; try done; simpl.
  - by destruct (ivbca_propose_ok mb _ _ _ _ est coin Hi) as (? & ? & ? & -> & _); eexists.
  - by eexists.
  - destruct Hok as [Hs _]. destruct k; simpl.
    + by destruct (ivbca_submitEcho_ok mb _ _ _ _ v s Hi Hs) as (? & ? & ? & -> & _); eexists.
    + by destruct (ivbca_submitVote_ok mb _ _ _ _ v s Hi Hs) as (? & ? & ? & -> & _); eexists.
    + by destruct (ivbca_submitBind_ok mb _ _ _ _ v s Hi Hs) as (? & ? & ? & -> & _); eexists.
Qed.

Lemma ivbca_calls_return_witness : ∃ nd, bca_exec (EvMsg KBind 2 p4) (config p1) = Some nd.
Proof.
  apply (ivbca_calls_return mb4 (listed_inputs ins) config p1 (EvMsg KBind 2 p4)).
  - exact iv_run_reachable.
  - exact correct_p1.
  - split; [simpl; set_solver|left; simpl; set_solver].
  - exact I.
Defined.
