(* ===== verification/IvbcaLive.v ===== *)
(** * Progress of [ivbca], and where it stalls

    The converse of the invariant in [IvbcaCorrect]: what a process must have
    done once it has received enough.  In a network at rest, where every correct
    process has proposed and every message between correct processes has been
    counted, some correct process has decided; all have when all have bound.  A
    process that decides before it approves the second value never binds, and
    then others can wait for ever: the last theorem has such a run. *)

From stdpp Require Import base tactics numbers list fin_sets gmap functions relations.
From S2P Require Import Prelude Utils Bca BcaNet Ivbca IvbcaCorrect.

Local Open Scope Z_scope.

(** What was put on a channel to the owner: taken, or still in its queue. *)
Definition sentc (tk : bca_chans) (st : ivbca) (c : bca_chan) : list Z := tk c ++ iv_chans st c.

Definition approved (tk : bca_chans) (st : ivbca) (v : Z) : Prop :=
  v ∈ iv_chans st CApprove ∨
  match iv_pcVote st with
  | V_first => False
  | V_send x => v = x
  | V_second | V_unblocked => v ∈ sentc tk st CVote
  | V_bindBot | V_termBot | V_both => True
  end.

Definition bind_started (st : ivbca) : Prop := iv_chans st CBindVal ≠ [] ∨ iv_pcBind st ≠ B_select.

Definition term_val (st : ivbca) : Prop :=
  iv_chans st CTermVal ≠ [] ∨ match iv_pcDecide st with D_first | D_second => False | _ => True end.

Definition at_second (st : ivbca) : bool := match iv_pcDecide st with D_second => true | _ => false end.

Section live.
Context (mb : membership UUID) `{!Resilient mb}.

#[local] Abbreviation n := (mb_n mb).
#[local] Abbreviation f := (mb_f mb).

Definition total (R : bca_kind → Z → Z) : Z := R KBind 0 + R KBind 1 + R KBind bot.

(** [R] counts the messages. *)
Record iv_live (R : bca_kind → Z → Z) (pr : list (Z * Z)) (tk : bca_chans) (st : ivbca) : Prop := {
  l_flag v : bit v → elt false (sentEchoes st) v = true → v ∈ sentc tk st CEcho;
  l_prop e c : (e, c) ∈ pr → bit e ∧ elt false (sentEchoes st) e = true;
  l_echo v : bit v → f + 1 ≤ R KEcho v → elt false (sentEchoes st) v = true;
  l_appr v : bit v → n - f ≤ R KEcho v → approved tk st v;
  l_vote v : bit v → n - f ≤ R KVote v → bind_started st;
  l_bind v : 0 ≤ v ≤ bot → n - f ≤ R KBind v → term_val st;
  l_bot : term_val st ∨
    (Nat.b2n (both_voted (iv_pcVote st)) + Nat.b2n (bool_decide (n - f ≤ total R)%Z) ≤
     length (iv_chans st CTermBot) + Nat.b2n (at_second st))%nat;
  l_bindbot : match iv_pcVote st with
    | V_termBot | V_both => iv_chans st CBindBot ≠ [] ∨ iv_pcBind st ≠ B_select | _ => True end;
  l_voted : match iv_pcVote st with V_first | V_send _ => True | _ => sentc tk st CVote ≠ [] end;
  l_bound : iv_pcBind st = B_done → sentc tk st CBind ≠ [];
  l_out : match iv_pcDecide st with D_unblock | D_done => sentc tk st COut ≠ [] | _ => True end;
  l_unblock : iv_chans st CUnblock ≠ [] ∨ iv_pcVote st = V_unblocked → iv_pcDecide st = D_done;
}.

Definition counts (st : ivbca) (k : bca_kind) (v : Z) : Z := cnt st k v.

Lemma live_init : iv_live (counts (newBCA n f)) [] (λ _, []) (newBCA n f).
Proof.
  pose proof (rs_arith mb).
  assert (Hz : ∀ k v, counts (newBCA n f) k v = 0).
  { intros k v. unfold counts, ivbca_received.
    rewrite sets_empty by (destruct k; simpl; repeat constructor). by rewrite size_empty. }
  split; simpl; try done.
  - by intros v [-> | ->].
  - intros e c He. by apply not_elem_of_nil in He.
  - intros v _. rewrite Hz. lia.
  - intros v _. rewrite Hz. lia.
  - intros v _. rewrite Hz. lia.
  - intros v _. rewrite Hz. lia.
  - right. unfold total. rewrite !Hz. rewrite bool_decide_eq_false_2 by lia. simpl. lia.
  - by intros [?|?].
Qed.

(** Queues that grow. *)
Lemma live_chans R pr tk st ch :
  iv_live R pr tk st → (∀ c, iv_chans st c `prefix_of` ch c) → ch CUnblock = iv_chans st CUnblock →
  iv_live R pr tk (set_chans ch st).
Proof.
  intros HL Hp Hu.
  assert (Hin : ∀ c (v : Z), v ∈ iv_chans st c → v ∈ ch c).
  { intros c v Hv. destruct (Hp c) as [l ->]. apply elem_of_app. by left. }
  assert (Hs : ∀ c v, v ∈ sentc tk st c → v ∈ sentc tk (set_chans ch st) c).
  { intros c v. unfold sentc. simpl. rewrite !elem_of_app. intros [?|?]; [by left|right; auto]. }
  assert (Hne : ∀ c, iv_chans st c ≠ [] → ch c ≠ []).
  { intros c Hc. destruct (Hp c) as [l ->]. by destruct (iv_chans st c). }
  assert (Hsne : ∀ c, sentc tk st c ≠ [] → sentc tk (set_chans ch st) c ≠ []).
  { intros c. unfold sentc. simpl. destruct (tk c); [simpl; apply Hne|done]. }
  assert (Htv : term_val st → term_val (set_chans ch st)) by (intros [?|?]; [left; by apply Hne|by right]).
  destruct HL. split; simpl; try done.
  - intros v ??. by apply Hs, l_flag0.
  - intros v Hv Hq. destruct (l_appr0 v Hv Hq) as [?|Hpc]; [left; by apply Hin|right]. simpl.
    destruct (iv_pcVote st); auto.
  - intros v Hv Hq. destruct (l_vote0 v Hv Hq) as [?|?]; [left; by apply Hne|by right].
  - intros v Hv Hq. by apply Htv, (l_bind0 v).
  - destruct l_bot0 as [?|?]; [left; auto|right]. destruct (Hp CTermBot) as [l ->]. rewrite length_app.
    change (at_second (set_chans ch st)) with (at_second st). lia.
  - destruct (iv_pcVote st); try done; (destruct l_bindbot0; [left; by apply Hne|by right]).
  - destruct (iv_pcVote st); auto.
  - auto.
  - destruct (iv_pcDecide st); auto.
  - by rewrite Hu.
Qed.

Lemma live_send R pr tk st st' c v :
  iv_live R pr tk st → c ≠ CUnblock → iv_send c v st = Done st' →
  iv_live R pr tk st' ∧ v ∈ iv_chans st' c ∧ (∀ c', c' ≠ c → iv_chans st' c' = iv_chans st c') ∧
  (length (iv_chans st' c) = S (length (iv_chans st c)))%nat ∧
  ∃ ch, st' = set_chans ch st.
Proof.
  intros HL Hc. unfold iv_send. destruct (chan_send _ _ _ _) as [ch| |] eqn:Hs; [|done..].
  apply chan_send_inv in Hs as [_ ->]. intros [= <-]. split; [|split_and!]; simpl.
  - apply live_chans; [done| |].
    + intros c'. rewrite chan_upd_lookup. case_decide; [subst; by eexists|done].
    + by rewrite fn_lookup_insert_ne.
  - rewrite fn_lookup_insert, elem_of_app, list_elem_of_singleton. by right.
  - intros c' ?. by rewrite fn_lookup_insert_ne.
  - rewrite fn_lookup_insert, length_app. simpl. lia.
  - by eexists.
Qed.

(** Only the program counters, the flags and the queues matter. *)
Lemma live_fields R pr tk st st' :
  iv_live R pr tk st → sentEchoes st' = sentEchoes st → iv_chans st' = iv_chans st →
  iv_pcVote st' = iv_pcVote st → iv_pcBind st' = iv_pcBind st → iv_pcDecide st' = iv_pcDecide st →
  iv_live R pr tk st'.
Proof.
  intros [] He Hc Hv Hb Hd.
  split; unfold approved, bind_started, term_val, at_second, sentc in *; rewrite ?He, ?Hc, ?Hv, ?Hb, ?Hd; done.
Qed.

(** More messages are counted. *)
Lemma live_counts R R' pr tk st :
  iv_live R pr tk st →
  (∀ v, bit v → f + 1 ≤ R' KEcho v → f + 1 ≤ R KEcho v ∨ elt false (sentEchoes st) v = true) →
  (∀ v, bit v → n - f ≤ R' KEcho v → n - f ≤ R KEcho v ∨ approved tk st v) →
  (∀ v, bit v → n - f ≤ R' KVote v → n - f ≤ R KVote v ∨ bind_started st) →
  (∀ v, 0 ≤ v ≤ bot → n - f ≤ R' KBind v → n - f ≤ R KBind v ∨ term_val st) →
  (n - f ≤ total R' → n - f ≤ total R ∨ term_val st ∨
     (Nat.b2n (both_voted (iv_pcVote st)) + 1 ≤ length (iv_chans st CTermBot) + Nat.b2n (at_second st))%nat) →
  iv_live R' pr tk st.
Proof.
  intros [] H1 H2 H3 H4 H5. split; try done.
  - intros v Hv Hq. destruct (H1 v Hv Hq); auto.
  - intros v Hv Hq. destruct (H2 v Hv Hq); auto.
  - intros v Hv Hq. destruct (H3 v Hv Hq); [by apply (l_vote0 v)|done].
  - intros v Hv Hq. destruct (H4 v Hv Hq); [by apply (l_bind0 v)|done].
  - destruct l_bot0 as [?|Hl]; [by left|].
    destruct (bool_decide_reflect (n - f ≤ total R')) as [Ht|Ht].
    + destruct (H5 Ht) as [Ht'|[?|?]]; [|by left|by right]. right. by rewrite bool_decide_eq_true_2 in Hl by done.
    + right. simpl. lia.
Qed.

(** One message of kind [k] more: only what it completes has to be shown. *)
Lemma live_one_more k v R R' pr tk st :
  iv_live R pr tk st →
  (∀ k' w, R' k' w = if decide (k' = k ∧ w = v) then R k v + 1 else R k' w) →
  match k with
  | KEcho => (f + 1 = R' k v → elt false (sentEchoes st) v = true) ∧ (n - f = R' k v → approved tk st v)
  | KVote => n - f = R' k v → bind_started st
  | KBind => (n - f = R' k v → term_val st) ∧
     (n - f = total R' → term_val st ∨
       (Nat.b2n (both_voted (iv_pcVote st)) + 1 ≤ length (iv_chans st CTermBot) + Nat.b2n (at_second st))%nat)
  end →
  iv_live R' pr tk st.
Proof.
  intros HL HR Hk.
  assert (Hq : ∀ k' w q, q ≤ R' k' w → q ≤ R k' w ∨ (k' = k ∧ w = v ∧ q = R' k v)).
  { intros k' w q. rewrite !HR, (decide_True (P := k = k ∧ v = v)) by done.
    destruct (decide (k' = k ∧ w = v)) as [[-> ->]|]; [|by left].
    intros Hq. destruct (decide (q = R k v + 1)); [by right|left; lia]. }
  apply (live_counts R); [done|intros w _ Hw..|].
  - destruct (Hq _ _ _ Hw) as [?|(<- & -> & ?)]; [by left|right; by apply Hk].
  - destruct (Hq _ _ _ Hw) as [?|(<- & -> & ?)]; [by left|right; by apply Hk].
  - destruct (Hq _ _ _ Hw) as [?|(<- & -> & ?)]; [by left|right; by apply Hk].
  - destruct (Hq _ _ _ Hw) as [?|(<- & -> & ?)]; [by left|right; by apply Hk].
  - intros Ht. assert (total R' = total R ∨ (k = KBind ∧ total R' = total R + 1)) as [<-|[-> Hone]]; [|by left|].
    { unfold total. rewrite !HR. unfold bot. repeat destruct (decide _); naive_solver lia. }
    destruct (decide (n - f = total R')) as [He|]; [right; by apply Hk|left; lia].
Qed.

(** ** Handlers *)

Lemma live_flag R pr tk st v :
  iv_live R pr tk st → length (sentEchoes st) = 2%nat → bit v → v ∈ sentc tk st CEcho →
  iv_live R pr tk (set_sentEchoes (<[Z.to_nat v := true]> (sentEchoes st)) st).
Proof.
  intros [] Hl Hv Hs.
  assert (Hold : ∀ w, bit w → elt false (<[Z.to_nat v := true]> (sentEchoes st)) w = true ↔
    v = w ∨ elt false (sentEchoes st) w = true).
  { intros w Hw. rewrite elt_insert by lia. destruct (decide (v = w)); naive_solver. }
  split; simpl; try done.
  - intros w Hw. rewrite Hold by done. intros [<-|?]; [done|by apply l_flag0].
  - intros e c He. destruct (l_prop0 e c He) as [? ?]. split; [done|]. apply Hold; auto.
  - intros w Hw Hq. apply Hold; [done|]. right. by apply l_echo0.
Qed.

Lemma live_broadcastEcho R pr tk st st' v :
  iv_live R pr tk st → length (sentEchoes st) = 2%nat → bit v → ivbca_broadcastEcho v st = Done st' →
  iv_live R pr tk st' ∧ elt false (sentEchoes st') v = true ∧ (∃ fl ch, st' = set_chans ch (set_sentEchoes fl st)).
Proof.
  intros HL Hl Hv. unfold ivbca_broadcastEcho. rewrite slice_set_Done by lia. simpl. intros Hs.
  assert (∃ ch, chan_send ivbca_cap CEcho v (iv_chans st) = Done ch ∧
    st' = set_sentEchoes (<[Z.to_nat v := true]> (sentEchoes st)) (set_chans ch st)) as (ch & Hc & ->).
  { unfold iv_send in Hs. simpl in Hs. destruct (chan_send _ _ _ _) as [ch| |]; [|done..].
    injection Hs as <-. by exists ch. }
  destruct (live_send R pr tk st (set_chans ch st) CEcho v HL) as (HL' & Hin & _); [done| |].
  { unfold iv_send. by rewrite Hc. }
  split; [|split].
  - apply (live_flag R pr tk (set_chans ch st)); [done..|]. unfold sentc. apply elem_of_app. by right.
  - simpl. rewrite elt_insert by lia. by rewrite decide_True.
  - by eexists _, ch.
Qed.

Lemma propose_live R pr tk sn tk0 st st' est coin err :
  iv_inv mb pr tk0 sn st → iv_live R pr tk st → ivbca_propose est coin st = Done (st', err) →
  iv_live R (if err is Some _ then pr else (est, coin) :: pr) tk st' ∧ (∀ k, ivbca_received st' k = ivbca_received st k).
Proof.
  intros Hi HL. unfold ivbca_propose. destruct (isInputValid est) eqn:Hv; simpl; [|by intros [= <- <-]].
  destruct (coin =? bot); simpl; [|by intros [= <- <-]]. apply isInputValid_spec in Hv.
  assert (Hl : length (sentEchoes st) = 2%nat) by apply Hi.
  assert (Hpr : ∀ st, elt false (sentEchoes st) est = true → iv_live R pr tk st → iv_live R ((est, coin) :: pr) tk st).
  { intros s Hf []. split; try done. intros e c [[= -> ->]|]%elem_of_cons; [done|by eapply l_prop0]. }
  rewrite (slice_get_elt false) by lia. simpl.
  destruct (elt false (sentEchoes st) est) eqn:Hf; simpl.
  - intros [= <- <-]. split; [by apply Hpr|done].
  - destruct (ivbca_broadcastEcho est st) as [st1| |] eqn:Hb; [|done..]. intros [= <- <-].
    destruct (live_broadcastEcho R pr tk st st1 est HL Hl Hv Hb) as (HL' & Hf' & fl & ch & ->).
    split; [by apply Hpr|done].
Qed.

(** Counting one message more. *)
Lemma fresh_live k v s pr tk st st1 :
  iv_live (counts st) pr tk st → fresh k v s st st1 →
  iv_live (counts st) pr tk st1 ∧
  ∀ k' w, counts st1 k' w = if decide (k' = k ∧ w = v) then counts st k v + 1 else counts st k' w.
Proof.
  intros HL (Hr & (_ & _ & Hfl & Hch & Hpv & Hpb & Hpd & _) & Hs). split.
  - by apply (live_fields _ _ _ st).
  - intros k' w. unfold counts. destruct (decide (k' = k ∧ w = v)) as [[-> ->]|Hne].
    + by apply (recv_step_new _ _ _ _ _ Hr).
    + rewrite Hr. by rewrite decide_False.
Qed.

Lemma submitEcho_live pr tk sn tk0 st st' v s err :
  iv_inv mb pr tk0 sn st → iv_live (counts st) pr tk st → ivbca_submitEcho v s st = Done (st', err) →
  iv_live (counts st') pr tk st'.
Proof.
  intros Hi HL. destruct (submitEcho_shape mb _ _ _ _ v s Hi) as [[e ->]|(Hv & st1 & Hfr & ->)]; [by intros [= <- _]|].
  destruct (fresh_live _ _ _ _ _ _ _ HL Hfr) as [HL1 Hcnt]. destruct Hfr as (_ & (_ & _ & Hfl & _) & _).
  assert (Hls : length (sentEchoes st1) = 2%nat) by (rewrite Hfl; apply Hi).
  destruct (if (_ =? f + 1) && _ then _ else _) as [st2| |] eqn:Hb; [|done..]. cbn [mbind outcome_bind].
  assert (HL2 : iv_live (counts st) pr tk st2 ∧ (f + 1 = counts st1 KEcho v → elt false (sentEchoes st2) v = true) ∧
    ∀ k, ivbca_received st2 k = ivbca_received st1 k).
  { destruct (Z.eqb_spec (cnt st1 KEcho v) (f + 1)) as [Heq|Hneq]; simpl in Hb.
    - destruct (elt false (sentEchoes st) v) eqn:He; simpl in Hb; [injection Hb as <-; by rewrite Hfl|].
      destruct (live_broadcastEcho (counts st) pr tk st1 st2 v HL1 Hls Hv Hb) as (? & ? & fl & ch & ->). done.
    - injection Hb as <-. split_and!; [done|unfold counts; lia|done]. }
  clear Hb. destruct HL2 as (HL2 & Hfl2 & Hr2).
  destruct (if _ =? n - f then _ else _) as [st3| |] eqn:Hb; [|done..]. cbn [mbind outcome_bind]. intros [= <- _].
  assert (HL3 : iv_live (counts st) pr tk st3 ∧ (n - f = counts st1 KEcho v → approved tk st3 v) ∧
    ∃ ch, st3 = set_chans ch st2).
  { destruct (Z.eqb_spec (cnt st1 KEcho v) (n - f)) as [Heq|Hneq].
    - destruct (iv_send CExt v st2) as [s2| |] eqn:He; [|done..]. cbn [mbind outcome_bind] in Hb.
      destruct (live_send _ _ _ _ _ CExt v HL2 ltac:(done) He) as (HL2' & _ & _ & _ & ch2 & ->).
      destruct (live_send _ _ _ _ _ CApprove v HL2' ltac:(done) Hb) as (HL3 & Hin & _ & _ & ch3 & ->).
      split_and!; [done|by left|by eexists].
    - injection Hb as <-. split_and!; [done|unfold counts; lia|]. exists (iv_chans st2). by destruct st2. }
  destruct HL3 as (HL3 & Hap & ch3 & ->).
  assert (Hc3 : ∀ k w, counts (set_chans ch3 st2) k w = counts st1 k w)
    by (intros k w; unfold counts; by rewrite <-Hr2).
  apply (live_one_more KEcho v (counts st)); [done|intros; by rewrite Hc3|]. by rewrite !Hc3.
Qed.

Lemma submitVote_live pr tk sn tk0 st st' v s err :
  iv_inv mb pr tk0 sn st → iv_live (counts st) pr tk st → ivbca_submitVote v s st = Done (st', err) →
  iv_live (counts st') pr tk st'.
Proof.
  intros Hi HL. destruct (submitVote_shape mb _ _ _ _ v s Hi) as [[e ->]|(Hv & st1 & Hfr & ->)]; [by intros [= <- _]|].
  destruct (fresh_live _ _ _ _ _ _ _ HL Hfr) as [HL1 Hcnt].
  destruct (if _ && _ then _ else _) as [st2| |] eqn:Hb; [|done..]. cbn [mbind outcome_bind]. intros [= <- _].
  assert (HL2 : iv_live (counts st) pr tk st2 ∧ (n - f = counts st1 KVote v → bind_started st2) ∧
    ∃ ch, st2 = set_chans ch st1).
  { assert (Hid : ∃ ch, st1 = set_chans ch st1) by (exists (iv_chans st1); by destruct st1).
    destruct (Z.eqb_spec (cnt st1 KVote v) (n - f)) as [Heq|Hneq]; simpl in Hb;
      [|injection Hb as <-; split_and!; [done|unfold counts; lia|done]].
    destruct (Z.ltb_spec (cnt st KVote (1 - v)) (n - f)) as [Hlt|Hge]; simpl in Hb.
    - destruct (live_send _ _ _ _ _ CBindVal v HL1 ltac:(done) Hb) as (? & Hin & _ & _ & ?).
      split_and!; [done| |done]. intros _. left. intros Hnil. rewrite Hnil in Hin. by apply not_elem_of_nil in Hin.
    - injection Hb as <-. split_and!; [done| |done].
      intros _. apply (l_vote _ _ _ _ HL1 (1 - v)); [lia|done]. }
  destruct HL2 as (HL2 & Hbs & ch & ->). by apply (live_one_more KVote v (counts st)).
Qed.

Lemma submitBind_live pr tk sn tk0 st st' v s err :
  iv_inv mb pr tk0 sn st → iv_live (counts st) pr tk st → ivbca_submitBind v s st = Done (st', err) →
  iv_live (counts st') pr tk st'.
Proof.
  intros Hi HL. destruct (submitBind_shape mb _ _ _ _ v s Hi) as [[e ->]|(Hv & _ & st1 & Hfr & ->)]; [by intros [= <- _]|].
  destruct (fresh_live _ _ _ _ _ _ _ HL Hfr) as [HL1 Hcnt].
  destruct (if _ =? n - f then _ else _) as [st2| |] eqn:Hb; [|done..]. cbn [mbind outcome_bind]. intros [= <- _].
  change (binds_total st1) with (total (counts st1)) in Hb. change (cnt st1 KBind v) with (counts st1 KBind v) in Hb.
  assert (HL2 : iv_live (counts st) pr tk st2 ∧ (n - f = counts st1 KBind v → term_val st2) ∧
    (n - f = total (counts st1) → term_val st2 ∨
      (Nat.b2n (both_voted (iv_pcVote st2)) + 1 ≤ length (iv_chans st2 CTermBot) + Nat.b2n (at_second st2))%nat) ∧
    ∃ ch, st2 = set_chans ch st1).
  { destruct (Z.eqb_spec (counts st1 KBind v) (n - f)) as [Heq|Hneq].
    { destruct (live_send _ _ _ _ _ CTermVal v HL1 ltac:(done) Hb) as (? & Hin & _ & _ & ?).
      assert (term_val st2) by (left; intros Hnil; rewrite Hnil in Hin; by apply not_elem_of_nil in Hin).
      split_and!; auto. }
    destruct (Z.eqb_spec (total (counts st1)) (n - f)) as [Heq|Hneq'].
    - destruct (live_send _ _ _ _ _ CTermBot 0 HL1 ltac:(done) Hb) as (HL2 & _ & Hoth & Hlen & ch & ->).
      split_and!; [done|lia| |by eexists]. intros _. destruct (l_bot _ _ _ _ HL1) as [[?|?]|Hlb1].
      + left. left. by rewrite Hoth.
      + left. by right.
      + right. rewrite Hlen. unfold at_second in *. cbn [iv_pcDecide iv_pcVote set_chans].
        revert Hlb1. generalize (Nat.b2n (bool_decide (n - f ≤ total (counts st)))). intros. lia.
    - injection Hb as <-. split_and!; [done|lia|lia|]. exists (iv_chans st1). by destruct st1. }
  destruct HL2 as (HL2 & Htv & Htb & ch & ->). by apply (live_one_more KBind v (counts st)).
Qed.

(** ** Goroutine steps and receives by the owner *)

Lemma snoc_not_nil {A} (l k : list A) x : l ++ k ++ [x] ≠ [].
Proof. rewrite (assoc_L (++)). by intros [_ ?]%app_eq_nil. Qed.

(** One channel operation of the step under way. *)
Ltac go_inv Hs :=
  simpl in Hs;
  match type of Hs with
  | context [chan_recv ?c ?q] => destruct (chan_recv c q) as [[v s1]|] eqn:Hr; [|done];
      apply chan_recv_inv in Hr as (q' & Hq & ->)
  | context [go_send _ ?c ?v ?q] => destruct (go_send ivbca_cap c v q) as [s1|] eqn:Hr; [|done];
      apply go_send_inv, chan_send_inv in Hr as [_ ->]
  end; simplify_eq/=.
Ltac live_split HL Hpc :=
  destruct HL; rewrite ?Hpc in *;
  (split; unfold approved, bind_started, term_val, at_second, sentc in *; simpl; rewrite ?Hpc in *; chan_simpl; try done);
  try match goal with H : _ → iv_pcDecide _ = D_done |- _ => intros [?|?]; [apply H; by left|done] end.

Lemma step_live R pr tk st st' g br :
  iv_live R pr tk st → ivbca_step g br st = Some st' → iv_live R pr tk st'.
Proof.
  intros HL Hs. destruct g; simpl in Hs; apply bind_Some in Hs as ([pc ch] & Hs & [= <-]).
  - destruct (iv_pcVote st) as [|x| | | | |] eqn:Hpc, br; try done; go_inv Hs; live_split HL Hpc.
    + intros w Hw Hc. destruct (l_appr0 w Hw Hc) as [Hin|[]]. rewrite Hq in Hin.
      apply elem_of_cons in Hin as [?|?]; [by right|by left].
    + intros w Hw Hc. destruct (l_appr0 w Hw Hc) as [?| ->]; [by left|right].
      rewrite !elem_of_app, list_elem_of_singleton. auto.
    + apply snoc_not_nil.
    + by right.
    + intros _. apply l_unblock0. left. by rewrite Hq.
    + left. by intros [_ ?]%app_eq_nil.
    + destruct l_bot0 as [?|?]; [by left|right]. rewrite length_app. simpl in *. lia.
  - destruct (iv_pcBind st) as [|x|] eqn:Hpc, br; try done; go_inv Hs; live_split HL Hpc.
    all: first [intros _; apply snoc_not_nil|by right|by destruct (iv_pcVote st); auto].
  - destruct (iv_pcDecide st) as [| |x| |] eqn:Hpc, br; try done; go_inv Hs; live_split HL Hpc.
    all: try (intros Hu; by discriminate (l_unblock0 Hu)).
    all: try (by right); try (left; by right).
    + destruct l_bot0 as [[?|[]]|Hle]; [by left; left|right]. rewrite Hq in Hle. simpl in Hle. lia.
    + apply snoc_not_nil.
Qed.

Lemma take_live R pr tk st st' c v :
  iv_live R pr tk st → ivbca_take c st = Some (v, st') → iv_live R pr (<[c := tk c ++ [v]]> tk) st'.
Proof.
  intros HL Ht. unfold ivbca_take in Ht. case_decide as Hc; [|done].
  apply bind_Some in Ht as ([w ch] & Hr & [= -> <-]). apply chan_recv_inv in Hr as (q & Hq & ->).
  assert (Hs : ∀ c', sentc (<[c := tk c ++ [v]]> tk) (set_chans (<[c := q]> (iv_chans st)) st) c' = sentc tk st c').
  { intros c'. unfold sentc. simpl. rewrite !chan_upd_lookup. case_decide; [|done]. subst c'.
    by rewrite Hq, <-(assoc_L (++)). }
  assert (Hi : ∀ c', c' ∉ out_chans → (<[c := q]> (iv_chans st)) c' = iv_chans st c').
  { intros c' Hc'. rewrite fn_lookup_insert_ne; [done|set_solver]. }
  destruct HL. split; unfold approved, bind_started, term_val in *; rewrite ?Hs; simpl;
    rewrite ?(Hi CApprove), ?(Hi CBindVal), ?(Hi CTermVal), ?(Hi CTermBot), ?(Hi CBindBot), ?(Hi CUnblock)
      by (unfold out_chans; set_solver); done.
Qed.

(** Every reachable state of a correct process. *)
Definition node_live (nd : bca_node ivbca) : Prop :=
  iv_live (counts (nd_st nd)) (nd_proposed nd) (nd_taken nd) (nd_st nd).

Lemma exec_live e (nd nd' : bca_node ivbca) :
  ivbca_node_ok mb nd → node_live nd → bca_exec e nd = Some nd' → node_live nd'.
Proof.
  intros (tk0 & sn & Ht & Hi) HL Hex. unfold node_live in *.
  destruct e as [est coin|v|k v s|g br|c]; cbn [bca_exec] in Hex; apply bind_Some in Hex as (r & Hr & Hex).
  - destruct r as [st err]. injection Hex as <-. simpl in *.
    destruct (ivbca_propose est coin (nd_st nd)) as [[st1 err1]| |] eqn:Hp; [|done..]. injection Hr as -> ->.
    destruct (propose_live _ _ (nd_taken nd) sn tk0 _ _ _ _ _ Hi HL Hp) as [HL' Hc].
    apply (live_counts (counts (nd_st nd))); try done; intros; left; unfold total, counts in *; by rewrite !Hc in *.
  - injection Hr as <-. by injection Hex as <-.
  - destruct r as [st err]. injection Hex as <-. simpl.
    destruct k; simpl in Hr;
      match type of Hr with done_opt ?o = _ => destruct o as [[st1 err1]| |] eqn:Hp; [|done..] end;
      injection Hr as -> ->;
      [by eapply submitEcho_live|by eapply submitVote_live|by eapply submitBind_live].
  - injection Hex as <-. simpl. pose proof (step_live _ _ _ _ _ _ _ HL Hr) as HL'.
    destruct (ivbca_step_ok mb _ _ _ _ g br r Hi Hr) as (_ & _ & _ & _ & Hc).
    apply (live_counts (counts (nd_st nd))); try done; intros; left; unfold total, counts in *; by rewrite !Hc in *.
  - destruct r as [v st]. injection Hex as <-. simpl. pose proof (take_live _ _ _ _ _ _ _ HL Hr) as HL'.
    destruct (ivbca_take_ok mb _ _ _ _ c v st Hi Hr) as (_ & _ & Hc).
    apply (live_counts (counts (nd_st nd))); try done; intros; left; unfold total, counts in *; by rewrite !Hc in *.
Qed.

(** ** A process at rest *)

(** No goroutine can move and the owner has taken everything. *)
Record idle (nd : bca_node ivbca) : Prop := {
  id_step g br : ivbca_step g br (nd_st nd) = None;
  id_take c : ivbca_take c (nd_st nd) = None;
}.

Section idle.
Context (nd : bca_node ivbca) (Hok : ivbca_node_ok mb nd) (HL : node_live nd) (Hidle : idle nd).

#[local] Abbreviation st := (nd_st nd).
#[local] Abbreviation tk := (nd_taken nd).

Lemma idle_sent c v : c ∈ out_chans → v ∈ sentc tk st c → v ∈ tk c.
Proof.
  intros Hc. pose proof (id_take _ Hidle c) as Ht. unfold ivbca_take in Ht. rewrite decide_True in Ht by done.
  unfold sentc, chan_recv in *. destruct (iv_chans st c); [by rewrite app_nil_r|done].
Qed.

Lemma idle_queue c : c ∈ out_chans → iv_chans st c = [].
Proof.
  intros Hc. pose proof (id_take _ Hidle c) as Ht. unfold ivbca_take in Ht. rewrite decide_True in Ht by done.
  unfold chan_recv in Ht. by destruct (iv_chans st c).
Qed.

Lemma idle_taken c : c ∈ out_chans → sentc tk st c ≠ [] → ∃ v, v ∈ tk c.
Proof.
  intros Hc. unfold sentc. rewrite idle_queue, app_nil_r by done.
  destruct (tk c) as [|v l]; [done|]. exists v. by left.
Qed.

Lemma idle_vote :
  match iv_pcVote st with
  | V_first => iv_chans st CApprove = []
  | V_second => iv_chans st CApprove = []
  | V_both | V_unblocked => True
  | _ => False
  end.
Proof.
  pose proof (id_step _ Hidle GoVote) as Hs. unfold ivbca_step, ivbca_waitToVote in Hs.
  destruct Hok as (tk0 & sn & _ & Hi). pose proof (v_vote _ _ _ _ _ Hi) as Hh. pose proof (v_link _ _ _ _ _ Hi) as Hl.
  destruct (iv_pcVote st) as [|x| | | | |] eqn:Hpc; simpl in Hh.
  - specialize (Hs CApprove). unfold chan_recv in Hs. simpl in Hs. by destruct (iv_chans st CApprove).
  - specialize (Hs CVote). unfold go_send, chan_send in Hs. simpl in Hs. rewrite idle_queue in Hs by (unfold out_chans; set_solver).
    simpl in Hs. first [done|by rewrite decide_True in Hs by lia].
  - specialize (Hs CApprove). unfold chan_recv in Hs. simpl in Hs. by destruct (iv_chans st CApprove).
  - destruct Hh as (? & ? & _ & _ & Hb). specialize (Hs CBindBot). specialize (Hl CBindBot). rewrite Hb in Hl.
    symmetry in Hl. apply app_eq_nil in Hl as [_ Hq]. unfold go_send, chan_send in Hs. simpl in Hs.
    rewrite Hq in Hs. simpl in Hs. first [done|by rewrite decide_True in Hs by lia].
  - specialize (Hs CTermBot). pose proof (v_termbot _ _ _ _ _ Hi) as Hb. rewrite Hpc, (Hl CTermBot), length_app in Hb.
    unfold go_send, chan_send in Hs. simpl in Hs, Hb. rewrite decide_True in Hs; [done|]. simpl in Hb.
    destruct (bool_decide _); simpl in Hb; lia.
  - done.
  - done.
Qed.

Lemma idle_bind :
  (iv_pcBind st = B_select ∧ iv_chans st CBindBot = [] ∧ iv_chans st CBindVal = []) ∨ ∃ b, b ∈ tk CBind.
Proof.
  pose proof (id_step _ Hidle GoBind) as Hs. unfold ivbca_step, ivbca_waitToBind, waitToBind_step in Hs. destruct (iv_pcBind st) as [|x|] eqn:Hpc.
  - left. split; [done|]. pose proof (Hs CBindBot) as H1. pose proof (Hs CBindVal) as H2.
    unfold chan_recv in H1, H2. simpl in H1, H2. by destruct (iv_chans st CBindBot), (iv_chans st CBindVal).
  - specialize (Hs CBind). unfold go_send, chan_send in Hs. simpl in Hs.
    rewrite idle_queue in Hs by (unfold out_chans; set_solver). simpl in Hs. first [done|by rewrite decide_True in Hs by lia].
  - right. apply idle_taken; [unfold out_chans; set_solver|]. by apply (l_bound _ _ _ _ HL).
Qed.

Lemma idle_decide : (¬ term_val st ∧ iv_chans st CTermBot = [] ∧ iv_pcDecide st ≠ D_done) ∨ ∃ d, d ∈ tk COut.
Proof.
  pose proof (id_step _ Hidle GoDecide) as Hs. unfold ivbca_step, ivbca_waitToDecide, waitToDecide_step in Hs.
  assert (Hout : sentc tk st COut ≠ [] → ∃ d, d ∈ tk COut) by (apply idle_taken; unfold out_chans; set_solver).
  pose proof (l_out _ _ _ _ HL) as Ho. unfold term_val. destruct (iv_pcDecide st) as [| |x| |] eqn:Hpc.
  - left. pose proof (Hs CTermVal) as H1. pose proof (Hs CTermBot) as H2. unfold chan_recv in H1, H2.
    simpl in H1, H2. destruct (iv_chans st CTermVal), (iv_chans st CTermBot); try done. naive_solver.
  - left. pose proof (Hs CTermVal) as H1. pose proof (Hs CTermBot) as H2. unfold chan_recv in H1, H2.
    simpl in H1, H2. destruct (iv_chans st CTermVal), (iv_chans st CTermBot); try done. naive_solver.
  - specialize (Hs COut). unfold go_send, chan_send in Hs. simpl in Hs.
    rewrite idle_queue in Hs by (unfold out_chans; set_solver). simpl in Hs. first [done|by rewrite decide_True in Hs by lia].
  - right. auto.
  - right. auto.
Qed.

(** An approved value leads to a vote. *)
Lemma idle_approved v : approved tk st v → ∃ x, x ∈ tk CVote.
Proof.
  intros Ha. apply idle_taken; [unfold out_chans; set_solver|].
  pose proof idle_vote as Hv. pose proof (l_voted _ _ _ _ HL) as Hl. unfold approved in Ha.
  destruct (iv_pcVote st); try done. rewrite Hv in Ha. destruct Ha as [Ha|Ha]; [by apply not_elem_of_nil in Ha|done].
Qed.

(** With both values approved the process has bound, or it was unblocked by its
    own decision. *)
Lemma idle_both :
  approved tk st 0 → approved tk st 1 → (∃ b, b ∈ tk CBind) ∧ both_voted (iv_pcVote st) = true ∨
  iv_pcVote st = V_unblocked ∧ ∃ d, d ∈ tk COut.
Proof.
  intros H0 H1. pose proof idle_vote as Hv. unfold approved in H0, H1. pose proof (l_bindbot _ _ _ _ HL) as Hb.
  pose proof (l_unblock _ _ _ _ HL) as Hu. pose proof (l_out _ _ _ _ HL) as Ho.
  destruct (iv_pcVote st) eqn:Hpc; try done.
  - rewrite Hv in H0. by destruct H0 as [?%not_elem_of_nil|].
  - rewrite Hv in H0, H1. destruct H0 as [?%not_elem_of_nil|H0]; [done|]. destruct H1 as [?%not_elem_of_nil|H1]; [done|].
    assert ((0 : Z) = 1); [|done]. apply (law_vote_once (T := ivbca) (mb := mb) nd); [done|..];
      apply idle_sent; [unfold out_chans; set_solver|done|unfold out_chans; set_solver|done].
  - left. split; [|done]. destruct idle_bind as [(Hp & Hq & _)|?]; [|done]. by destruct Hb.
  - right. split; [done|]. rewrite Hu in Ho by by right. apply idle_taken; [unfold out_chans; set_solver|done].
Qed.
End idle.

(** ** A network at rest *)

Context (inputs : UUID → Z * Z → Prop).
#[local] Abbreviation Correct := (bca_correct mb).
#[local] Abbreviation rcv H j k v := (ivbca_received (nd_st (H j)) k v).
Implicit Types H : bca_config ivbca.

(** Every correct process has proposed and is idle, and has counted every
    message of every correct process. *)
Record at_rest (H : bca_config ivbca) : Prop := {
  ar_proposed j : Correct j → nd_proposed (H j) ≠ [];
  ar_idle j : Correct j → idle (H j);
  ar_delivered i j k v : Correct i → Correct j → v ∈ nd_taken (H i) (kind_chan k) → i ∈ rcv H j k v;
}.

Lemma net_live H : bca_reachable mb inputs H → ∀ j, Correct j → node_live (H j).
Proof.
  intros Hr. cut (net_ok mb inputs H ∧ ∀ j, Correct j → node_live (H j)); [naive_solver|]. revert H Hr.
  apply (rtc_ind_r (R := bca_net_step mb inputs)
    (λ H, net_ok mb inputs H ∧ ∀ j, Correct j → node_live (H j))).
  - split; [by apply net_ok_init|]. intros j _. apply live_init.
  - intros H H' _ Hs [Hok HL]. split; [by eapply net_ok_step|]. destruct Hs as [j e nd Hj _ Hex].
    intros i Hi. destruct (decide (j = i)) as [<-|].
    + rewrite fn_lookup_insert. apply (exec_live e (H j)); [by apply (no_node mb inputs H Hok)|by apply HL|done].
    + rewrite fn_lookup_insert_ne by done. by apply HL.
Qed.

Definition corrects : gset UUID := peers mb ∖ faulty mb.
Lemma corrects_spec j : j ∈ corrects ↔ Correct j.
Proof. unfold corrects, bca_correct. set_solver. Qed.

Section rest.
Context (H : bca_config ivbca) (Hr : bca_reachable mb inputs H) (Hrest : at_rest H).

Lemma rest_net : net_ok mb inputs H.
Proof. by apply reachable_ok. Qed.

Lemma rest_node j : Correct j → ivbca_node_ok mb (H j) ∧ node_live (H j) ∧ idle (H j).
Proof.
  intros Hj. split_and!; [|by apply net_live|by apply ar_idle].
  exact (no_node mb inputs H rest_net j Hj).
Qed.

(** A message of a set of correct processes is counted everywhere. *)
Lemma rest_count (X : gset UUID) j k v :
  Correct j → (∀ i, i ∈ X → Correct i ∧ v ∈ nd_taken (H i) (kind_chan k)) →
  Z.of_nat (size X) ≤ counts (nd_st (H j)) k v.
Proof.
  intros Hj HX. unfold counts. apply Nat2Z.inj_le, subseteq_size. intros i Hi.
  destruct (HX i Hi). by apply (ar_delivered H Hrest).
Qed.

Lemma corrects_size : n - f ≤ Z.of_nat (size corrects).
Proof. apply (correct_quorum mb). Qed.

(** An echo of [f + 1] correct processes is echoed by all and approved by all. *)
Lemma echo_approved (X : gset UUID) v :
  bit v → (∀ i, i ∈ X → Correct i ∧ v ∈ nd_taken (H i) CEcho) → f + 1 ≤ Z.of_nat (size X) →
  ∀ j, Correct j → approved (nd_taken (H j)) (nd_st (H j)) v.
Proof.
  intros Hv HX Hs. assert (Hall : ∀ i, Correct i → v ∈ nd_taken (H i) CEcho).
  { intros i Hi. destruct (rest_node i Hi) as (Hok & HL & Hid).
    apply (idle_sent _ Hid); [unfold out_chans; set_solver|].
    apply (l_flag _ _ _ _ HL); [done|]. apply (l_echo _ _ _ _ HL); [done|].
    pose proof (rest_count X i KEcho v Hi HX). lia. }
  intros j Hj. destruct (rest_node j Hj) as (Hok & HL & Hid). apply (l_appr _ _ _ _ HL); [done|].
  pose proof corrects_size. etrans; [done|]. apply rest_count; [done|]. intros i Hi%corrects_spec. split; [done|by apply Hall].
Qed.

Lemma proposal_approved : ∃ v, bit v ∧ ∀ j, Correct j → approved (nd_taken (H j)) (nd_st (H j)) v.
Proof.
  set (X v := filter (λ i, v ∈ nd_taken (H i) CEcho) corrects).
  assert (HX : ∀ v i, i ∈ X v → Correct i ∧ v ∈ nd_taken (H i) CEcho).
  { intros v i Hi. unfold X in Hi. apply elem_of_filter in Hi as [? ?%corrects_spec]. done. }
  assert (Hsub : corrects ⊆ X 0 ∪ X 1).
  { intros i Hi. pose proof Hi as Hc. apply corrects_spec in Hc. destruct (rest_node i Hc) as (_ & HL & Hid).
    pose proof (ar_proposed H Hrest i Hc) as Hp. destruct (nd_proposed (H i)) as [|[e c] l] eqn:Hpr; [done|].
    destruct (l_prop _ _ _ _ HL e c) as [He Hf]; [rewrite Hpr; by left|].
    assert (e ∈ nd_taken (H i) CEcho).
    { apply (idle_sent _ Hid); [unfold out_chans; set_solver|]. by apply (l_flag _ _ _ _ HL). }
    unfold X. rewrite elem_of_union, !elem_of_filter. destruct He as [-> | ->]; auto. }
  apply subseteq_size in Hsub. pose proof (size_union_alt (X 0) (X 1)) as Hu.
  assert (size (X 1%Z ∖ X 0%Z) <= size (X 1%Z))%nat as Hd by (apply subseteq_size; set_solver).
  pose proof corrects_size. pose proof (rs_arith mb).
  destruct (decide (f + 1 ≤ Z.of_nat (size (X 0)))) as [Hs|Hs].
  - exists 0. split; [by left|]. by apply (echo_approved (X 0) 0); [left|apply HX|].
  - exists 1. split; [by right|]. apply (echo_approved (X 1) 1); [by right|apply HX|lia].
Qed.

Lemma rest_voted j : Correct j → ∃ x, bit x ∧ x ∈ nd_taken (H j) CVote.
Proof.
  intros Hj. destruct proposal_approved as (v & _ & Ha). destruct (rest_node j Hj) as (Hok & HL & Hid).
  destruct (idle_approved _ Hok HL Hid v (Ha j Hj)) as [x Hx]. exists x. split; [|done].
  by apply (law_vote (T := ivbca) (mb := mb) (H j) x).
Qed.

(** A value with a quorum of echoes at one correct process is approved by all. *)
Lemma quorum_approved i v :
  Correct i → bit v → n - f ≤ cnt (nd_st (H i)) KEcho v →
  ∀ j, Correct j → approved (nd_taken (H j)) (nd_st (H j)) v.
Proof.
  intros Hi Hv Hq. pose proof rest_net as Hok.
  destruct (rest_node i Hi) as (Hnd & _). pose proof (law_peers (T := ivbca) (mb := mb) (H i) KEcho v Hnd) as Hp.
  apply (echo_approved (rcv H i KEcho v ∖ faulty mb)); [done| |by apply (quorum_correct mb)].
  intros p Hp'. assert (Correct p) by (split; set_solver). split; [done|].
  apply (no_auth mb inputs H Hok p i KEcho v); [done..|]. simpl. set_solver.
Qed.

Lemma vote_quorum j x : Correct j → x ∈ nd_taken (H j) CVote → bit x ∧ n - f ≤ cnt (nd_st (H j)) KEcho x.
Proof.
  intros Hj Hx. destruct (rest_node j Hj) as ((tk0 & sn & Ht & Hi) & _).
  apply (vote_approved mb (nd_proposed (H j)) tk0 sn); [done|].
  by apply (node_sent mb (H j) tk0 sn CVote x); [..|unfold out_chans; set_solver|].
Qed.

(** Either all correct processes vote for one value, or both are approved
    everywhere. *)
Lemma votes_split :
  (∃ x, bit x ∧ ∀ j, Correct j → x ∈ nd_taken (H j) CVote) ∨
  (∀ j, Correct j → approved (nd_taken (H j)) (nd_st (H j)) 0 ∧ approved (nd_taken (H j)) (nd_st (H j)) 1).
Proof.
  destruct (decide (set_Forall (λ j, 0 ∈ nd_taken (H j) CVote) corrects)) as [H0|H0].
  { left. exists 0. split; [by left|]. intros j Hj%corrects_spec. by apply H0. }
  destruct (decide (set_Forall (λ j, 1 ∈ nd_taken (H j) CVote) corrects)) as [H1|H1].
  { left. exists 1. split; [by right|]. intros j Hj%corrects_spec. by apply H1. }
  right. apply not_set_Forall_Exists in H0 as (p & Hp%corrects_spec & Hnp); [|apply _].
  apply not_set_Forall_Exists in H1 as (q & Hq%corrects_spec & Hnq); [|apply _]. simpl in Hnp, Hnq.
  destruct (rest_voted p Hp) as (x & Hx & Hpx). destruct (rest_voted q Hq) as (y & Hy & Hqy).
  assert (x = 1) as -> by (destruct Hx as [-> | ->]; done). assert (y = 0) as -> by (destruct Hy as [-> | ->]; done).
  intros j Hj. destruct (vote_quorum p 1 Hp Hpx). destruct (vote_quorum q 0 Hq Hqy).
  split; [by apply (quorum_approved q)|by apply (quorum_approved p)].
Qed.

Lemma unanimous_bound x : bit x → (∀ j, Correct j → x ∈ nd_taken (H j) CVote) →
  ∀ j, Correct j → ∃ b, Binds H j b.
Proof.
  intros Hx Hall j Hj. destruct (rest_node j Hj) as (Hok & HL & Hid).
  destruct (idle_bind _ Hok HL Hid) as [(Hpc & _ & Hq)|?]; [|done]. exfalso.
  destruct (l_vote _ _ _ _ HL x Hx) as [?|?]; [|done..].
  pose proof corrects_size. etrans; [done|]. apply rest_count; [done|]. intros i Hi%corrects_spec. split; [done|by apply Hall].
Qed.

Lemma rest_bound j : Correct j →
  (∃ b, Binds H j b) ∨ (iv_pcVote (nd_st (H j)) = V_unblocked ∧ ∃ d, Decides H j d).
Proof.
  intros Hj. destruct votes_split as [(x & Hx & Hall)|Hboth]; [left; by apply (unanimous_bound x)|].
  destruct (rest_node j Hj) as (Hok & HL & Hid). destruct (Hboth j Hj) as [H0 H1].
  destruct (idle_both _ Hok HL Hid H0 H1) as [[? _]|?]; [by left|by right].
Qed.

(** Unanimous votes and not both values approved: every bind is for that value. *)
Lemma unanimous_bind x i b : bit x → (∀ j, Correct j → x ∈ nd_taken (H j) CVote) → Correct i → Binds H i b →
  b = x ∨ ∀ j, Correct j → approved (nd_taken (H j)) (nd_st (H j)) 0 ∧ approved (nd_taken (H j)) (nd_st (H j)) 1.
Proof.
  intros Hx Hall Hi Hb. destruct (rest_node i Hi) as ((tk0 & sn & Ht & Hinv) & _).
  assert (Hsn : b ∈ sn CBind).
  { by apply (node_sent mb (H i) tk0 sn CBind b); [..|unfold out_chans; set_solver|]. }
  destruct (ivbca_bound mb _ _ _ _ _ Hinv Hsn) as [[Hbb Hq]|[-> Ha]].
  - left. destruct (received_quorum_witness mb inputs H i KVote b rest_net Hi Hq)
      as (p & Hp & _ & Hpv). simpl in Hpv.
    apply (law_vote_once (T := ivbca) (mb := mb) (H p)); [by apply rest_node|done|by apply Hall].
  - right. intros j Hj. split; (apply (quorum_approved i); [done|auto|apply Ha; auto|done]).
Qed.

Lemma all_bound_decide : (∀ j, Correct j → ∃ b, Binds H j b) → ∀ j, Correct j → ∃ d, Decides H j d.
Proof.
  intros Hb j Hj. destruct (rest_node j Hj) as (Hok & HL & Hid).
  destruct (idle_decide _ Hok HL Hid) as [(Hnt & Hq & Hnd)|?]; [exfalso|done].
  assert (Hbits : ∀ i b, Correct i → Binds H i b → b = 0 ∨ b = 1 ∨ b = bot).
  { intros i b Hi Hbi. destruct (law_bind (T := ivbca) (mb := mb) (H i) b) as [[? _]|[-> _]]; [by apply rest_node|done|naive_solver|auto]. }
  assert (Htot : n - f ≤ total (counts (nd_st (H j)))).
  { pose proof (law_disjoint (T := ivbca) (mb := mb) (H j) 0 1 Hok ltac:(done)).
    pose proof (law_disjoint (T := ivbca) (mb := mb) (H j) 0 bot Hok ltac:(done)).
    pose proof (law_disjoint (T := ivbca) (mb := mb) (H j) 1 bot Hok ltac:(done)). simpl in *.
    assert (Hsub : corrects ⊆ rcv H j KBind 0 ∪ rcv H j KBind 1 ∪ rcv H j KBind bot).
    { intros i Hi%corrects_spec. destruct (Hb i Hi) as [b Hib].
      pose proof (ar_delivered H Hrest i j KBind b Hi Hj Hib) as Hin.
      destruct (Hbits i b Hi Hib) as [-> | [-> | ->]]; set_solver. }
    apply subseteq_size in Hsub. rewrite !size_union in Hsub by set_solver.
    pose proof corrects_size. unfold total, counts. lia. }
  assert (Hnotboth : both_voted (iv_pcVote (nd_st (H j))) = false).
  { destruct (l_bot _ _ _ _ HL) as [?|Hl]; [done|]. rewrite bool_decide_eq_true_2, Hq in Hl by done.
    simpl in Hl. destruct (both_voted _), (at_second _); simpl in Hl; try lia; done. }
  assert (Hnb : ¬ (approved (nd_taken (H j)) (nd_st (H j)) 0 ∧ approved (nd_taken (H j)) (nd_st (H j)) 1)).
  { intros [H0 H1]. destruct (idle_both _ Hok HL Hid H0 H1) as [[_ ?]|[Hpc _]]; [congruence|].
    apply Hnd. apply (l_unblock _ _ _ _ HL). by right. }
  destruct votes_split as [(x & Hx & Hall)|Hboth]; [|by apply Hnb, Hboth].
  apply Hnt. apply (l_bind _ _ _ _ HL x); [unfold bot; lia|]. pose proof corrects_size. etrans; [done|].
  apply rest_count; [done|]. intros i Hi%corrects_spec. split; [done|]. destruct (Hb i Hi) as [b Hib].
  destruct (unanimous_bind x i b Hx Hall Hi Hib) as [->|Hboth]; [done|]. by destruct (Hnb (Hboth j Hj)).
Qed.

Lemma some_decide : ∃ j, Correct j ∧ ∃ d, Decides H j d.
Proof.
  destruct (set_choose_or_empty corrects) as [[j Hj]|He].
  2:{ pose proof corrects_size as Hs. rewrite He, size_empty in Hs. pose proof (rs_arith mb). lia. }
  apply corrects_spec in Hj.
  destruct (decide (set_Exists (λ j, nd_taken (H j) CBind = []) corrects)) as [(i & Hi%corrects_spec & Hnb)|Hall].
  - exists i. split; [done|]. destruct (rest_bound i Hi) as [[b Hb]|[_ ?]]; [|done].
    unfold Binds in Hb. rewrite Hnb in Hb. by apply not_elem_of_nil in Hb.
  - exists j. split; [done|]. apply all_bound_decide; [|done]. intros i Hi.
    unfold Binds. destruct (nd_taken (H i) CBind) as [|b l] eqn:Hb; [|exists b; by left].
    destruct Hall. exists i. split; [by apply corrects_spec|done].
Qed.

(** With unanimous proposals all decide. *)
Lemma unanimous_rest_decides v : bit v → (∀ j p, Correct j → inputs j p → p.1 = v) →
  ∀ j, Correct j → Decides H j v.
Proof.
  intros Hv Hin.
  assert (Hvote : ∀ j, Correct j → v ∈ nd_taken (H j) CVote).
  { intros j Hj. destruct (rest_voted j Hj) as (x & Hx & Hjx).
    destruct (decide (x = v)) as [->|Hne]; [done|]. assert (x = 1 - v) as -> by lia.
    by destruct (no_vote (T := ivbca) mb inputs v Hv Hin H j Hr Hj). }
  intros j Hj. destruct (all_bound_decide (unanimous_bound v Hv Hvote) j Hj) as [d Hd].
  by rewrite <-(only_decision (T := ivbca) mb inputs v Hv Hin H j d Hr Hj Hd).
Qed.

(** At rest only a faulty process, or a proposal, can change anything. *)
Definition own_event (e : bca_event) : Prop :=
  match e with
  | EvPropose _ _ => False
  | EvMsg _ _ s => Correct s
  | _ => True
  end.

Lemma submit_repeated tk sn st st' k v s err pr :
  iv_inv mb pr tk sn st → s ∈ ivbca_received st k v →
  done_opt (bca_submit k v s st) = Some (st', err) → st' = st.
Proof.
  intros Hi Hs Hd. destruct (bca_submit k v s st) as [[st1 e1]| |] eqn:Hb; [|done..]. injection Hd as -> ->.
  destruct k; simpl in Hb.
  - destruct (submitEcho_shape mb _ _ _ _ v s Hi) as [[e He]|(_ & st2 & (_ & _ & Hn) & _)]; [congruence|done].
  - destruct (submitVote_shape mb _ _ _ _ v s Hi) as [[e He]|(_ & st2 & (_ & _ & Hn) & _)]; [congruence|done].
  - destruct (submitBind_shape mb _ _ _ _ v s Hi) as [[e He]|(_ & Hn & _)]; [congruence|by destruct (Hn v)].
Qed.

Lemma rest_stable j e nd :
  Correct j → own_event e → bca_event_ok mb inputs H j e → bca_exec e (H j) = Some nd → nd = H j.
Proof.
  intros Hj Ho He Hex. destruct (rest_node j Hj) as ((tk0 & sn & _ & Hi) & _ & Hid).
  destruct e as [est coin|v|k v s|g br|c]; cbn [bca_exec] in Hex; apply bind_Some in Hex as (r & Hx & Hex); [done|..].
  - injection Hx as <-. injection Hex as <-. by destruct (H j).
  - destruct r as [st err]. injection Hex as <-. destruct He as [_ [Hf|Ht]]; [by destruct Ho|].
    rewrite (submit_repeated _ _ _ _ _ _ _ _ _ Hi (ar_delivered H Hrest s j k v Ho Hj Ht) Hx). by destruct (H j).
  - simpl in Hx. by rewrite (id_step _ Hid) in Hx.
  - simpl in Hx. by rewrite (id_take _ Hid) in Hx.
Qed.
End rest.
End live.

(** ** Configurations at rest *)

Module IvbcaRestExample.
Import Example4 IvbcaExample.

Definition all_gos : list bca_go := [GoVote; GoBind; GoDecide].
Definition all_chans : list bca_chan :=
  [CEcho; CVote; CBind; COut; CExt; CApprove; CBindBot; CBindVal; CTermBot; CTermVal; CUnblock;
   CPrevCoin; CInputExt; CClose].
Definition all_kinds : list bca_kind := [KEcho; KVote; KBind].

Definition is_none {A} (o : option A) : bool := if o is Some _ then false else true.

Definition idleb (nd : bca_node ivbca) : bool :=
  forallb (λ g, forallb (λ c, is_none (ivbca_step g c (nd_st nd))) all_chans) all_gos &&
  forallb (λ c, is_none (ivbca_take c (nd_st nd))) all_chans.

Definition at_restb (H : bca_config ivbca) : bool :=
  forallb (λ j, negb (bool_decide (nd_proposed (H j) = [])) && idleb (H j) &&
    forallb (λ i, forallb (λ k, forallb (λ v,
      bool_decide (i ∈ ivbca_received (nd_st (H j)) k v)) (nd_taken (H i) (kind_chan k)))
      all_kinds) ps) ps.

Lemma is_none_spec {A} (o : option A) : is_none o = true → o = None.
Proof. by destruct o. Qed.

Lemma correct_ps j : bca_correct mb4 j → j ∈ ps.
Proof. unfold bca_correct, ps. simpl. set_solver. Qed.

Lemma idleb_spec nd : idleb nd = true → idle nd.
Proof.
  unfold idleb. rewrite andb_true_iff, !forallb_forall. intros [Hs Ht].
  assert (Hc : ∀ c, In c all_chans) by (intros []; simpl; tauto).
  split; [|intros c; by apply is_none_spec, Ht].
  intros g c. assert (Hg : In g all_gos) by (destruct g; simpl; tauto).
  specialize (Hs g Hg). rewrite forallb_forall in Hs. by apply is_none_spec, Hs.
Qed.

Lemma at_restb_spec H : at_restb H = true → at_rest mb4 H.
Proof.
  unfold at_restb. rewrite forallb_forall. intros Hb.
  assert (Hj : ∀ j, bca_correct mb4 j → In j ps) by (intros j Hj; by apply list_elem_of_In, correct_ps).
  split.
  - intros j Hc. specialize (Hb j (Hj j Hc)). rewrite !andb_true_iff, negb_true_iff in Hb.
    destruct Hb as [[Hp _] _]. by apply bool_decide_eq_false_1 in Hp.
  - intros j Hc. specialize (Hb j (Hj j Hc)). rewrite !andb_true_iff in Hb. destruct Hb as [[_ Hb] _]. by apply idleb_spec.
  - intros i j k v Hi Hc Hv. specialize (Hb j (Hj j Hc)). rewrite !andb_true_iff in Hb.
    destruct Hb as [_ Hd]. rewrite forallb_forall in Hd. specialize (Hd i (Hj i Hi)).
    rewrite forallb_forall in Hd. assert (Hk : In k all_kinds) by (destruct k; simpl; tauto).
    specialize (Hd k Hk). rewrite forallb_forall in Hd. apply list_elem_of_In in Hv.
    specialize (Hd v Hv). by apply bool_decide_eq_true_1 in Hd.
Qed.

(** The enabled events of a schedule. *)
Fixpoint enabled ins (l : list (UUID * bca_event)) (H : bca_config ivbca) : list (UUID * bca_event) :=
  match l with
  | [] => []
  | (j, e) :: l =>
    match (if decide (bca_correct mb4 j ∧ bca_event_ok mb4 (listed_inputs ins) H j e)
           then bca_exec e (H j) else None) with
    | Some nd => (j, e) :: enabled ins l (<[j := nd]> H)
    | None => enabled ins l H
    end
  end.

(** Every goroutine step and every receive, then every message. *)
Definition sweep : list (UUID * bca_event) :=
  each ps ((g ← all_gos; c ← all_chans; [EvGo g c]) ++ (EvTake <$> all_chans)) ++
  (k ← all_kinds; v ← [0; 1; bot]; deliver_all ps ps k v).

Fixpoint sweeps (k : nat) : list (UUID * bca_event) :=
  match k with O => [] | S k => sweep ++ sweeps k end.

Definition settled ins (l : list (UUID * bca_event)) : list (UUID * bca_event) :=
  enabled ins (l ++ sweeps 8) (bca_net_init mb4).

Definition run_rest : list (UUID * bca_event) := settled ins1 run1.
Definition config_rest : bca_config ivbca := bca_config_of mb4 ins1 run_rest.

Lemma reachable_rest : bca_reachable mb4 (listed_inputs ins1) config_rest.
Proof. apply bca_config_reachable. vm_compute. reflexivity. Qed.

Lemma rest_rest : at_rest mb4 config_rest.
Proof. apply at_restb_spec. vm_compute. reflexivity. Qed.

(** [p1] and [p2] propose 0 and [p3] proposes 1.  [p4] echoes 1, so that [p2]
    and [p3] approve both values; [p1], who has approved 0 only, counts their
    binds of [bot] and one of [p4], and decides. *)
Definition ins_stall : list (UUID * (Z * Z)) := [(p1, (0, bot)); (p2, (0, bot)); (p3, (1, bot))].

Definition run_stall : list (UUID * bca_event) := settled ins_stall (
  [(p1, EvPropose 0 bot); (p2, EvPropose 0 bot); (p3, EvPropose 1 bot)] ++
  each ps [EvTake CEcho] ++
  deliver_all [p3] [p1; p2] KEcho 0 ++ each [p3] [EvTake CEcho] ++
  deliver_all [p1; p2] ps KEcho 0 ++
  each [p1; p2] [EvGo GoVote CApprove; EvGo GoVote CVote; EvTake CVote] ++
  deliver_all [p2] [p3; p4] KEcho 1 ++ each [p2] [EvTake CEcho] ++
  deliver_all [p3] [p2; p3; p4] KEcho 1 ++
  each [p3] [EvGo GoVote CApprove; EvGo GoVote CVote; EvTake CVote] ++
  deliver_all [p3] [p3] KEcho 0 ++ deliver_all [p2] [p2] KEcho 1 ++
  each [p2; p3] [EvGo GoVote CApprove; EvGo GoVote CBindBot; EvGo GoVote CTermBot;
                 EvGo GoBind CBindBot; EvGo GoBind CBind; EvTake CBind] ++
  deliver_all [p1] [p2; p3; p4] KBind bot ++
  each [p1] [EvGo GoDecide CTermVal; EvGo GoDecide COut; EvTake COut; EvGo GoDecide CUnblock;
             EvGo GoVote CUnblock]).

Definition config_stall : bca_config ivbca := bca_config_of mb4 ins_stall run_stall.

Lemma reachable_stall : bca_reachable mb4 (listed_inputs ins_stall) config_stall.
Proof. apply bca_config_reachable. vm_compute. reflexivity. Qed.

Lemma rest_stall : at_rest mb4 config_stall.
Proof. apply at_restb_spec. vm_compute. reflexivity. Qed.
End IvbcaRestExample.

Import Example4 IvbcaExample IvbcaRestExample.

(** ** Theorems *)

(** C18: round 0 makes progress.  In every reachable network at rest some correct
    process has decided; every correct process has bound a value, or has decided
    and stopped waiting for its second value; and when all have bound, all have
    decided. *)
Theorem ivbca_progress (mb : membership UUID) `{!Resilient mb} inputs (H : bca_config ivbca) :
  bca_reachable mb inputs H → at_rest mb H →
  (∃ j d, bca_correct mb j ∧ Decides H j d) ∧
  (∀ j, bca_correct mb j → (∃ b, Binds H j b) ∨
     (iv_pcVote (nd_st (H j)) = V_unblocked ∧ ∃ d, Decides H j d)) ∧
  ((∀ j, bca_correct mb j → ∃ b, Binds H j b) → ∀ j, bca_correct mb j → ∃ d, Decides H j d).
Proof.
  intros Hr Hrest. split_and!.
  - destruct (some_decide mb inputs H Hr Hrest) as (j & Hj & d & Hd). by exists j, d.
  - by apply (rest_bound mb inputs).
  - by apply (all_bound_decide mb inputs).
Qed.

Lemma ivbca_progress_witness :
  bca_reachable mb4 (listed_inputs ins1) config_rest ∧ at_rest mb4 config_rest ∧
  ∃ j d, bca_correct mb4 j ∧ Decides config_rest j d.
Proof.
  split; [exact reachable_rest|]. split; [exact rest_rest|].
  exact (proj1 (ivbca_progress mb4 (listed_inputs ins1) config_rest reachable_rest rest_rest)).
Defined.

(** C17: with unanimous proposals round 0 terminates with the proposed value: in
    every reachable network at rest every correct process has decided it, and
    nothing else, whatever the faulty processes sent. *)
Theorem ivbca_unanimous_decides (mb : membership UUID) `{!Resilient mb} inputs (H : bca_config ivbca) v :
  v = 0 ∨ v = 1 → (∀ j p, bca_correct mb j → inputs j p → p.1 = v) →
  bca_reachable mb inputs H → at_rest mb H →
  ∀ j, bca_correct mb j → Decides H j v ∧ ∀ d, Decides H j d → d = v.
Proof.
  intros Hv Hin Hr Hrest j Hj. split; [by apply (unanimous_rest_decides mb inputs)|].
  intros d. by apply (only_decision (T := ivbca) mb inputs v Hv Hin H j d).
Qed.

Lemma ivbca_unanimous_decides_witness :
  at_rest mb4 config_rest ∧ Decides config_rest p2 1.
Proof.
  split; [exact rest_rest|].
  exact (proj1 (ivbca_unanimous_decides mb4 (listed_inputs ins1) config_rest 1 (or_intror eq_refl) ins1_value
    reachable_rest rest_rest p2 correct_p2)).
Defined.

(** C19: the unblocking of [waitToVote] loses progress.  There is a reachable
    network of four processes, of which at most one is faulty, at rest, in which
    one correct process has decided [bot] and the two others have bound [bot] and
    not decided, and no step of a goroutine, no receive and no message of a
    correct process changes any correct process again: the first process was
    unblocked by its own decision before it had bound, and its bind is the one
    the others miss. *)
Theorem ivbca_unblock_stalls :
  ∃ (mb : membership UUID) inputs (H : bca_config ivbca) i j k,
    Resilient mb ∧ mb_n mb = 4 ∧ mb_f mb = 1 ∧ bca_reachable mb inputs H ∧ at_rest mb H ∧
    NoDup [i; j; k] ∧ peers mb ∖ faulty mb = {[i; j; k]} ∧
    Decides H i bot ∧ iv_pcVote (nd_st (H i)) = V_unblocked ∧ (∀ b, ¬ Binds H i b) ∧
    (∀ p, p ∈ [j; k] → Binds H p bot ∧ ∀ d, ¬ Decides H p d) ∧
    ∀ p e nd, bca_correct mb p → own_event mb e → bca_event_ok mb inputs H p e →
      bca_exec e (H p) = Some nd → nd = H p.
Proof.
  exists mb4, (listed_inputs ins_stall), config_stall, p1, p2, p3.
  split_and!; [apply _|done|done|exact reachable_stall|exact rest_stall|..].
  - apply (bool_decide_eq_true_1 (NoDup _)). vm_compute. reflexivity.
  - apply (bool_decide_eq_true_1 (_ = _)). vm_compute. reflexivity.
  - apply decides_spec. vm_compute. reflexivity.
  - vm_compute. reflexivity.
  - intros b Hb. assert (nd_taken (config_stall p1) CBind = []) as He by (vm_compute; reflexivity).
    unfold Binds in Hb. rewrite He in Hb. by apply not_elem_of_nil in Hb.
  - assert (Hall : Forall (λ p, bot ∈ nd_taken (config_stall p) CBind ∧ nd_taken (config_stall p) COut = []) [p2; p3]).
    { apply (bool_decide_eq_true_1 (Forall _ _)). vm_compute. reflexivity. }
    intros p Hp. destruct (proj1 (Forall_forall _ _) Hall p Hp) as [Hb Ho]. split; [exact Hb|].
    intros d Hd. unfold Decides in Hd. rewrite Ho in Hd. by apply not_elem_of_nil in Hd.
  - intros p e nd. exact (rest_stable mb4 _ config_stall reachable_stall rest_stall p e nd).
Qed.
