(* ===== verification/Evbca.v ===== *)
(** * [externalValidityBCA.go]: the binding crusader agreement of rounds 1, 2, ...

    The record [evbca] holds the fields of the struct that the code reads (the
    flags [voted] and [bound] of the Go struct are only written, by functions
    nothing calls), its channels and the program counters of the goroutines
    that [newEVBCA] starts.  The methods have value receivers, but every field
    they change is a slice, a map or a channel and therefore shared.  As in
    [Ivbca] a handler call is atomic.

    [newEVBCA] does not start [waitForPrevCoin], so nothing receives from
    [prevCoinChan] and [inputExternalValidChan]; the goroutine is in [EvbcaGate]. *)

From stdpp Require Import base tactics numbers list fin_sets gmap functions.
From S2P Require Import Prelude Utils Bca.

Local Open Scope Z_scope.

Inductive ev_vote_pc :=
| E_first
| E_ext (first : Z)
| E_send (first : Z)
| E_loop (first : Z) (approvedVals : list bool)
| E_ext2 (first : Z)
| E_bindBot
| E_termBot
| E_both
| E_closed.

Record evbca := Evbca {
  ev_n : Z;
  ev_f : Z;
  ev_sentEchoes : list bool;
  ev_echoes : list (gset UUID);
  ev_votes : list (gset UUID);
  ev_binds : list (gset UUID);
  ev_chans : bca_chans;
  ev_pcVote : ev_vote_pc;
  ev_pcBind : bind_pc;
  ev_pcDecide : decide_pc;
}.

(** Buffer sizes of [newEVBCA]. *)
Definition evbca_cap (c : bca_chan) : nat :=
  match c with
  | CEcho => 2 | CVote => 2 | CBind => 2 | COut => 1 | CExt => 2
  | CApprove => 4 | CBindBot => 1 | CBindVal => 1 | CTermBot => 2 | CTermVal => 1
  | CUnblock => 1
  | CPrevCoin => 1 | CInputExt => 2 | CClose => 1
  end.

Definition newEVBCA (n f : Z) : evbca :=
  Evbca n f [false; false] [∅; ∅] [∅; ∅] [∅; ∅; ∅] bca_init_chans E_first B_select D_first.

Definition put_sentEchoes x (e : evbca) : evbca :=
  Evbca (ev_n e) (ev_f e) x (ev_echoes e) (ev_votes e) (ev_binds e) (ev_chans e)
    (ev_pcVote e) (ev_pcBind e) (ev_pcDecide e).
Definition put_echoes x (e : evbca) : evbca :=
  Evbca (ev_n e) (ev_f e) (ev_sentEchoes e) x (ev_votes e) (ev_binds e) (ev_chans e)
    (ev_pcVote e) (ev_pcBind e) (ev_pcDecide e).
Definition put_votes x (e : evbca) : evbca :=
  Evbca (ev_n e) (ev_f e) (ev_sentEchoes e) (ev_echoes e) x (ev_binds e) (ev_chans e)
    (ev_pcVote e) (ev_pcBind e) (ev_pcDecide e).
Definition put_binds x (e : evbca) : evbca :=
  Evbca (ev_n e) (ev_f e) (ev_sentEchoes e) (ev_echoes e) (ev_votes e) x (ev_chans e)
    (ev_pcVote e) (ev_pcBind e) (ev_pcDecide e).
Definition put_chans x (e : evbca) : evbca :=
  Evbca (ev_n e) (ev_f e) (ev_sentEchoes e) (ev_echoes e) (ev_votes e) (ev_binds e) x
    (ev_pcVote e) (ev_pcBind e) (ev_pcDecide e).
Definition put_pcVote x (e : evbca) : evbca :=
  Evbca (ev_n e) (ev_f e) (ev_sentEchoes e) (ev_echoes e) (ev_votes e) (ev_binds e) (ev_chans e)
    x (ev_pcBind e) (ev_pcDecide e).
Definition put_pcBind x (e : evbca) : evbca :=
  Evbca (ev_n e) (ev_f e) (ev_sentEchoes e) (ev_echoes e) (ev_votes e) (ev_binds e) (ev_chans e)
    (ev_pcVote e) x (ev_pcDecide e).
Definition put_pcDecide x (e : evbca) : evbca :=
  Evbca (ev_n e) (ev_f e) (ev_sentEchoes e) (ev_echoes e) (ev_votes e) (ev_binds e) (ev_chans e)
    (ev_pcVote e) (ev_pcBind e) x.

(** [e.c <- v] in a handler. *)
Definition ev_send (c : bca_chan) (v : Z) (e : evbca) : outcome evbca :=
  ch ← chan_send evbca_cap c v (ev_chans e); Done (put_chans ch e).

(** ** Handlers *)

Definition evbca_broadcastEcho (echo : Z) (e : evbca) : outcome evbca :=
  se ← slice_set (ev_sentEchoes e) echo true;
  ev_send CEcho echo (put_sentEchoes se e).

(** The two sends are one step: the call is enabled when both can be made.  When
    [n - f] votes for a bit have arrived and [waitToBind] has not taken the value
    they put on [bindValChan], the code makes the first send and waits in the
    second; what [waitToVote] does with the approval in the meantime is left out. *)
Definition fastForward (est : Z) (e : evbca) : outcome evbca :=
  se ← slice_set (ev_sentEchoes e) est true;
  e ← ev_send CApprove est (put_sentEchoes se e);
  ev_send CBindVal est e.

Definition voteOnCoin (prevCoin : Z) (e : evbca) : outcome evbca :=
  se ← slice_set (ev_sentEchoes e) prevCoin true;
  se ← slice_set se (1 - prevCoin) true;
  ev_send CApprove prevCoin (put_sentEchoes se e).

Definition evbca_propose (est prevCoin : Z) (e : evbca) : outcome (evbca * option bca_err) :=
  if (bot <? est) || (est <? 0) then Done (e, Some (InvalidInput est))
  else if negb (isInputValid prevCoin) then Done (e, Some (InvalidCoin prevCoin))
  else if est =? prevCoin then e ← fastForward est e; Done (e, None)
  else if est =? bot then e ← voteOnCoin prevCoin e; Done (e, None)
  else
    sent ← slice_get (ev_sentEchoes e) est;
    e ← (if sent : bool then Done e else evbca_broadcastEcho est e);
    e ← ev_send CPrevCoin prevCoin e;
    Done (e, None).

Definition evbca_submitExternallyValid (val : Z) (e : evbca) : outcome evbca :=
  ev_send CInputExt val e.

Definition evbca_submitEcho (echo : Z) (sender : UUID) (e : evbca) :
    outcome (evbca * option bca_err) :=
  if negb (isInputValid echo) then Done (e, Some (InvalidInput echo)) else
  received ← slice_get (ev_echoes e) echo;
  if decide (sender ∈ received) then Done (e, Some RepeatedEcho) else
  es ← slice_set (ev_echoes e) echo ({[sender]} ∪ received);
  let e := put_echoes es e in
  let countEcho := Z.of_nat (size ({[sender]} ∪ received)) in
  sent ← slice_get (ev_sentEchoes e) echo;
  e ← (if (countEcho =? int_of_uint (uint_add (ev_f e) 1)) && negb sent
       then evbca_broadcastEcho echo e else Done e);
  e ← (if countEcho =? int_of_uint (uint_sub (ev_n e) (ev_f e))
       then ev_send CApprove echo e else Done e);
  Done (e, None).

Definition evbca_submitVote (vote : Z) (sender : UUID) (e : evbca) :
    outcome (evbca * option bca_err) :=
  if negb (isInputValid vote) then Done (e, Some (InvalidInput vote)) else
  votes0 ← slice_get (ev_votes e) 0; votes1 ← slice_get (ev_votes e) 1;
  if decide (sender ∈ votes0 ∨ sender ∈ votes1) then Done (e, Some AlreadyVoted) else
  mine ← slice_get (ev_votes e) vote;
  vs ← slice_set (ev_votes e) vote ({[sender]} ∪ mine);
  other ← slice_get vs (1 - vote);
  let e := put_votes vs e in
  let q := int_of_uint (uint_sub (ev_n e) (ev_f e)) in
  e ← (if (Z.of_nat (size ({[sender]} ∪ mine)) =? q) && (Z.of_nat (size other) <? q)
       then ev_send CBindVal vote e else Done e);
  Done (e, None).

(** The test is [isInputValid], which rejects a bind of bot. *)
Definition evbca_submitBind (bind : Z) (sender : UUID) (e : evbca) :
    outcome (evbca * option bca_err) :=
  if negb (isInputValid bind) then Done (e, Some (InvalidInput bind)) else
  binds0 ← slice_get (ev_binds e) 0; binds1 ← slice_get (ev_binds e) 1;
  binds2 ← slice_get (ev_binds e) bot;
  if decide (sender ∈ binds0 ∨ sender ∈ binds1 ∨ sender ∈ binds2)
  then Done (e, Some AlreadyBound) else
  mine ← slice_get (ev_binds e) bind;
  bs ← slice_set (ev_binds e) bind ({[sender]} ∪ mine);
  binds0 ← slice_get bs 0; binds1 ← slice_get bs 1; binds2 ← slice_get bs bot;
  let e := put_binds bs e in
  let q := int_of_uint (uint_sub (ev_n e) (ev_f e)) in
  e ← (if Z.of_nat (size ({[sender]} ∪ mine)) =? q then ev_send CTermVal bind e
       else if Z.of_nat (size binds0 + size binds1 + size binds2) =? q
       then ev_send CTermBot 0 e else Done e);
  Done (e, None).

Definition evbca_close (e : evbca) : outcome evbca := ev_send CClose 0 e.

(** ** Goroutines *)

(** The test [!approvedVals[1-first]] of the loop and what follows it. *)
Definition ev_loop_head (first : Z) (approvedVals : list bool) : ev_vote_pc :=
  if elt false approvedVals (1 - first) then E_ext2 first else E_loop first approvedVals.

Definition evbca_waitToVote (br : bca_chan) (pc : ev_vote_pc) (s : bca_chans) :
    option (ev_vote_pc * bca_chans) :=
  match pc, br with
  | E_first, CApprove => '(first, s) ← chan_recv CApprove s; Some (E_ext first, s)
  | E_ext first, CExt => s ← go_send evbca_cap CExt first s; Some (E_send first, s)
  | E_send first, CVote =>
    s ← go_send evbca_cap CVote first s;
    Some (ev_loop_head first (<[Z.to_nat first := true]> [false; false]), s)
  | E_loop first approvedVals, CApprove =>
    '(val, s) ← chan_recv CApprove s;
    Some (ev_loop_head first (<[Z.to_nat val := true]> approvedVals), s)
  | E_loop _ _, CClose => '(_, s) ← chan_recv CClose s; Some (E_closed, s)
  | E_ext2 first, CExt => s ← go_send evbca_cap CExt (1 - first) s; Some (E_bindBot, s)
  | E_bindBot, CBindBot => s ← go_send evbca_cap CBindBot 0 s; Some (E_termBot, s)
  | E_termBot, CTermBot => s ← go_send evbca_cap CTermBot 0 s; Some (E_both, s)
  | _, _ => None
  end.

Definition evbca_waitToBind := waitToBind_step evbca_cap.
Definition evbca_waitToDecide := waitToDecide_step evbca_cap.

Definition evbca_step (g : bca_go) (br : bca_chan) (e : evbca) : option evbca :=
  match g with
  | GoVote => '(pc, ch) ← evbca_waitToVote br (ev_pcVote e) (ev_chans e);
              Some (put_pcVote pc (put_chans ch e))
  | GoBind => '(pc, ch) ← evbca_waitToBind br (ev_pcBind e) (ev_chans e);
              Some (put_pcBind pc (put_chans ch e))
  | GoDecide => '(pc, ch) ← evbca_waitToDecide br (ev_pcDecide e) (ev_chans e);
                Some (put_pcDecide pc (put_chans ch e))
  end.

Definition evbca_take (c : bca_chan) (e : evbca) : option (Z * evbca) :=
  if decide (c ∈ out_chans) then
    '(v, ch) ← chan_recv c (ev_chans e); Some (v, put_chans ch e)
  else None.

#[export] Instance evbca_BCA : BCA evbca := {
  bca_new := newEVBCA;
  bca_propose := evbca_propose;
  bca_submitExternallyValid := evbca_submitExternallyValid;
  bca_submitEcho := evbca_submitEcho;
  bca_submitVote := evbca_submitVote;
  bca_submitBind := evbca_submitBind;
  bca_step := evbca_step;
  bca_take := evbca_take;
}.
