(* ===== verification/EvbcaCorrect.v ===== *)
(** * What [evbca] promises, and where it stalls

    The invariant of one process gives the interface [BCALaws], hence crusader
    agreement and validity.  Unlike [ivbca], a call can block for ever, and
    binds of bot are never counted; both are stated here with runs that reach
    them. *)

From stdpp Require Import base tactics numbers list fin_sets gmap functions relations.
From S2P Require Import Prelude Utils Bca BcaNet Evbca.

Local Open Scope Z_scope.

Definition evbca_received (e : evbca) (k : bca_kind) : Z → gset UUID :=
  sets (match k with KEcho => ev_echoes e | KVote => ev_votes e | KBind => ev_binds e end).

Abbreviation cnt e k v := (Z.of_nat (size (evbca_received e k v))).

Definition binds_total (e : evbca) : Z :=
  cnt e KBind 0 + cnt e KBind 1 + cnt e KBind bot.

(** ** Histories of [waitToVote] *)

Definition ev_vote_hist (pc : ev_vote_pc) (tk sn : bca_chans) : Prop :=
  match pc with
  | E_first => tk CApprove = [] ∧ sn CVote = [] ∧ sn CBindBot = []
  | E_ext x | E_send x => tk CApprove = [x] ∧ sn CVote = [] ∧ sn CBindBot = []
  | E_loop x ap =>
    x ∈ tk CApprove ∧ sn CVote = [x] ∧ sn CBindBot = [] ∧ length ap = 2%nat ∧
    ∀ w, bit w → elt false ap w = true → w ∈ tk CApprove
  | E_closed => ∃ x, x ∈ tk CApprove ∧ sn CVote = [x] ∧ sn CBindBot = []
  | E_ext2 _ | E_bindBot =>
    ∃ x, x ∈ tk CApprove ∧ 1 - x ∈ tk CApprove ∧ sn CVote = [x] ∧ sn CBindBot = []
  | E_termBot | E_both =>
    ∃ x, x ∈ tk CApprove ∧ 1 - x ∈ tk CApprove ∧ sn CVote = [x] ∧ sn CBindBot = [0]
  end.

Lemma ev_vote_hist_ext pc tk sn tk' sn' :
  tk' CApprove = tk CApprove → sn' CVote = sn CVote → sn' CBindBot = sn CBindBot →
  ev_vote_hist pc tk sn → ev_vote_hist pc tk' sn'.
Proof. intros H1 H2 H3. destruct pc; unfold ev_vote_hist; by rewrite H1, H2, H3. Qed.

Lemma ev_vote_hist_once pc tk sn : ev_vote_hist pc tk sn → (length (sn CVote) ≤ 1)%nat.
Proof.
  destruct pc; simpl; [intros (_ & -> & _)|intros (_ & -> & _)|intros (_ & -> & _)
    |intros (_ & -> & _)|intros (x & _ & _ & -> & _)|intros (x & _ & _ & -> & _)
    |intros (x & _ & _ & -> & _)|intros (x & _ & _ & -> & _)|intros (x & _ & -> & _)]; simpl; lia.
Qed.

Lemma ev_vote_hist_taken pc tk sn v : ev_vote_hist pc tk sn → v ∈ sn CVote → v ∈ tk CApprove.
Proof.
  destruct pc; simpl; [intros (_ & -> & _)|intros (_ & -> & _)|intros (_ & -> & _)
    |intros (? & -> & _)|intros (x & ? & _ & -> & _)|intros (x & ? & _ & -> & _)
    |intros (x & ? & _ & -> & _)|intros (x & ? & _ & -> & _)|intros (x & ? & -> & _)]; set_solver.
Qed.

Lemma ev_vote_hist_both pc tk sn :
  ev_vote_hist pc tk sn → sn CBindBot ≠ [] → ∃ x, x ∈ tk CApprove ∧ 1 - x ∈ tk CApprove.
Proof.
  destruct pc; simpl; [intros (_ & _ & ->)|intros (_ & _ & ->)|intros (_ & _ & ->)
    |intros (_ & _ & -> & _)|intros (x & _ & _ & _ & ->)|intros (x & _ & _ & _ & ->)
    |intros (x & ? & ? & _ & _)|intros (x & ? & ? & _ & _)|intros (x & _ & _ & ->)];
    try done; by exists x.
Qed.

Definition ev_both_voted (pc : ev_vote_pc) : bool :=
  match pc with E_both => true | _ => false end.

(** ** The invariant *)

Section invariant.
Context (mb : membership UUID) `{!Resilient mb}.

#[local] Abbreviation n := (mb_n mb).
#[local] Abbreviation f := (mb_f mb).

(** Why a value may be approved or bound. *)
Definition approved (pr : list (Z * Z)) (e : evbca) (v : Z) : Prop :=
  n - f ≤ cnt e KEcho v ∨ (v, v) ∈ pr ∨ (bot, v) ∈ pr.
Definition bindable (pr : list (Z * Z)) (e : evbca) (v : Z) : Prop :=
  n - f ≤ cnt e KVote v ∨ (v, v) ∈ pr.

Definition quorum_flag (e : evbca) (v : Z) : nat :=
  Nat.b2n (bool_decide (n - f ≤ cnt e KEcho v)).

Record ev_inv (pr : list (Z * Z)) (tk sn : bca_chans) (e : evbca) : Prop := {
  e_conf : ev_n e = n ∧ ev_f e = f;
  e_len : length (ev_sentEchoes e) = 2%nat ∧ length (ev_echoes e) = 2%nat ∧
          length (ev_votes e) = 2%nat ∧ length (ev_binds e) = 3%nat;
  e_peers k v : evbca_received e k v ⊆ peers mb;
  e_disj v w : v ≠ w → evbca_received e KBind v ## evbca_received e KBind w;
  e_nobot v : ¬ bit v → evbca_received e KBind v = ∅;
  e_link : linked tk sn (ev_chans e);
  e_nodup : NoDup (sn CEcho);
  e_echo v : v ∈ sn CEcho → bit v ∧ elt false (ev_sentEchoes e) v = true ∧
             ((∃ c, (v, c) ∈ pr) ∨ f + 1 ≤ cnt e KEcho v);
  e_count : (length (sn CApprove) ≤ quorum_flag e 0 + quorum_flag e 1 + length pr)%nat;
  e_appr v : v ∈ sn CApprove → bit v ∧ approved pr e v;
  e_bindval v : v ∈ sn CBindVal → bit v ∧ bindable pr e v;
  e_termval : (length (sn CTermVal) ≤ 1)%nat ∧
              ∀ v, v ∈ sn CTermVal → bit v ∧ n - f ≤ cnt e KBind v;
  e_termbot : (length (sn CTermBot) ≤ Nat.b2n (ev_both_voted (ev_pcVote e)) +
              Nat.b2n (bool_decide (n - f ≤ binds_total e)%Z))%nat;
  e_vote : ev_vote_hist (ev_pcVote e) tk sn;
  e_bind : bind_hist (ev_pcBind e) tk sn;
  e_decide : decide_hist (ev_pcDecide e) tk sn;
}.

Definition none : bca_chans := λ _, [].

Lemma ev_inv_init : ev_inv [] none none (newEVBCA n f).
Proof.
  pose proof (rs_arith mb).
  assert (Hz : ∀ k v, evbca_received (newEVBCA n f) k v = ∅)
    by (intros k v; apply sets_empty; destruct k; repeat constructor).
  split; simpl; try done.
  - intros k v. rewrite Hz. set_solver.
  - intros v w _. rewrite !Hz. set_solver.
  - constructor.
  - intros v Hv. by apply not_elem_of_nil in Hv.
  - lia.
  - intros v Hv. by apply not_elem_of_nil in Hv.
  - intros v Hv. by apply not_elem_of_nil in Hv.
  - split; [lia|]. intros v Hv. by apply not_elem_of_nil in Hv.
  - lia.
Qed.

(** Accepting a proposal only adds reasons. *)
Lemma ev_inv_propose pr tk sn e p : ev_inv pr tk sn e → ev_inv (p :: pr) tk sn e.
Proof.
  intros []. split; try done.
  - intros v Hv. destruct (e_echo0 v Hv) as (? & ? & [[c ?]|?]); split_and!; auto.
    left. exists c. by right.
  - simpl. lia.
  - intros v Hv. destruct (e_appr0 v Hv) as [? Ha]. split; [done|]. unfold approved in *.
    rewrite !elem_of_cons. tauto.
  - intros v Hv. destruct (e_bindval0 v Hv) as [? Ha]. split; [done|]. unfold bindable in *.
    rewrite !elem_of_cons. tauto.
Qed.

(** *** Counting a message *)

Definition ev_only_received (e e' : evbca) : Prop :=
  ev_n e' = ev_n e ∧ ev_f e' = ev_f e ∧ ev_sentEchoes e' = ev_sentEchoes e ∧
  ev_chans e' = ev_chans e ∧ ev_pcVote e' = ev_pcVote e ∧ ev_pcBind e' = ev_pcBind e ∧
  ev_pcDecide e' = ev_pcDecide e ∧ length (ev_echoes e') = length (ev_echoes e) ∧
  length (ev_votes e') = length (ev_votes e) ∧ length (ev_binds e') = length (ev_binds e).

Abbreviation ev_recv k v s e e' := (recv_step k v s (evbca_received e) (evbca_received e')).

Lemma ev_recv_inv pr tk sn e e' k v s :
  ev_inv pr tk sn e → s ∈ peers mb → ev_recv k v s e e' → ev_only_received e e' → bit v →
  (k = KBind → ∀ w, s ∉ evbca_received e KBind w) →
  ev_inv pr tk sn e'.
Proof.
  intros Hi Hs Hr (Hn & Hf & Hse & Hch & Hpv & Hpb & Hpd & Hle & Hlv & Hlb) Hv Hk.
  assert (Hmono : ∀ k w, cnt e k w ≤ cnt e' k w) by (intros; by eapply recv_step_cnt).
  assert (Hmono' : ∀ a k w, a ≤ cnt e k w → a ≤ cnt e' k w) by (intros; etrans; eauto).
  assert (Hflag : ∀ w, (quorum_flag e w ≤ quorum_flag e' w)%nat).
  { intros w. unfold quorum_flag. specialize (Hmono KEcho w). repeat case_bool_decide; simpl; lia. }
  destruct Hi. split; rewrite ?Hn, ?Hf, ?Hse, ?Hch, ?Hpv, ?Hpb, ?Hpd, ?Hle, ?Hlv, ?Hlb; try done.
  - intros k' w. rewrite Hr. destruct (decide (k' = k ∧ w = v)); [|done]. specialize (e_peers0 k v).
    set_solver.
  - intros w w' Hne. rewrite !Hr. specialize (e_disj0 w w' Hne).
    destruct (decide (KBind = k ∧ w = v)) as [[Hkb ->]|];
      destruct (decide (KBind = k ∧ w' = v)) as [[Hkb' ->]|]; [done|..|done].
    + pose proof (Hk (eq_sym Hkb) w'). set_solver.
    + pose proof (Hk (eq_sym Hkb') w). set_solver.
  - intros w Hw. rewrite Hr. destruct (decide (KBind = k ∧ w = v)) as [[_ ->]|]; [done|auto].
  - intros w Hw. destruct (e_echo0 w Hw) as (? & ? & [?|Hq]); split_and!; auto.
  - pose proof (Hflag 0). pose proof (Hflag 1). lia.
  - intros w Hw. destruct (e_appr0 w Hw) as (? & [?|?]); split; unfold approved; auto.
  - intros w Hw. destruct (e_bindval0 w Hw) as (? & [?|?]); split; unfold bindable; auto.
  - destruct e_termval0 as [? Hb]. split; [done|]. intros w Hw. destruct (Hb w Hw). auto.
  - etrans; [exact e_termbot0|]. apply Nat.add_le_mono_l.
    assert (binds_total e ≤ binds_total e').
    { unfold binds_total. pose proof (Hmono KBind 0). pose proof (Hmono KBind 1).
      pose proof (Hmono KBind bot). lia. }
    repeat case_bool_decide; simpl; lia.
Qed.

(** *** Sending

    What must be known to send [v] on a channel. *)

Definition justified (pr : list (Z * Z)) (sn : bca_chans) (e : evbca) (c : bca_chan) (v : Z) : Prop :=
  match c with
  | CEcho => bit v ∧ (v ∉ sn CEcho) ∧ elt false (ev_sentEchoes e) v = true ∧
             ((∃ c, (v, c) ∈ pr) ∨ f + 1 ≤ cnt e KEcho v)
  | CApprove => bit v ∧ approved pr e v ∧
                (length (sn CApprove) < quorum_flag e 0 + quorum_flag e 1 + length pr)%nat
  | CBindVal => bit v ∧ bindable pr e v
  | CTermVal => bit v ∧ sn CTermVal = [] ∧ n - f ≤ cnt e KBind v
  | CTermBot => (length (sn CTermBot) < Nat.b2n (ev_both_voted (ev_pcVote e)) +
                 Nat.b2n (bool_decide (n - f ≤ binds_total e)%Z))%nat
  | CPrevCoin | CInputExt | CClose => True
  | _ => False
  end.

Lemma elem_of_snoc (x v : Z) l : x ∈ l ++ [v] → x ∈ l ∨ x = v.
Proof. rewrite elem_of_app, list_elem_of_singleton. done. Qed.

Lemma ev_send_spec pr tk sn e c v :
  ev_inv pr tk sn e → justified pr sn e c v →
  post (ev_send c v e)
    (λ e', ev_inv pr tk (<[c := sn c ++ [v]]> sn) e' ∧ ∃ ch, e' = put_chans ch e)
    (evbca_cap c ≤ length (ev_chans e c))%nat.
Proof.
  intros Hi Hj. unfold ev_send, chan_send. case_decide as Hroom; simpl; [|lia].
  split; [|by eexists].
  assert (Hh : ev_vote_hist (ev_pcVote e) tk (<[c := sn c ++ [v]]> sn) ∧
    bind_hist (ev_pcBind e) tk (<[c := sn c ++ [v]]> sn) ∧
    decide_hist (ev_pcDecide e) tk (<[c := sn c ++ [v]]> sn)).
  { destruct Hi. split_and!; [eapply ev_vote_hist_ext|eapply bind_hist_ext|eapply decide_hist_ext];
      try eassumption; try done; rewrite fn_lookup_insert_ne; try done; by intros ->. }
  assert (Hl : linked tk (<[c := sn c ++ [v]]> sn) (<[c := ev_chans e c ++ [v]]> (ev_chans e))).
  { pose proof (e_link _ _ _ _ Hi) as Hl. intros c'. rewrite !chan_upd_lookup.
    case_decide; [|done]. subst. by rewrite Hl, (assoc_L (++)). }
  destruct Hh as (? & ? & ?), Hi. split; simpl; try done;
    (destruct c; try done; simpl in Hj; chan_simpl; rewrite ?length_app; simpl; try done).
  - apply nodup_snoc; tauto.
  - intros w [Hw| ->]%elem_of_snoc; [by apply e_echo0|tauto].
  - destruct Hj as (_ & _ & ?).
    change (length (sn CApprove) + 1 ≤ quorum_flag e 0 + quorum_flag e 1 + length pr)%nat. lia.
  - intros w [Hw| ->]%elem_of_snoc; [by apply e_appr0|tauto].
  - intros w [Hw| ->]%elem_of_snoc; [by apply e_bindval0|tauto].
  - destruct Hj as (? & -> & ?). split; [simpl; lia|]. by intros w ->%list_elem_of_singleton.
  - change (binds_total (put_chans _ e)) with (binds_total e). lia.
Qed.

(** ** Handlers

    [ev_call k v s e B]: the call never panics, keeps the invariant when it
    returns, and blocks only when [B]. *)

Definition ev_keeps pr tk (e : evbca) (k : bca_kind) v s (r : evbca * option bca_err) : Prop :=
  ∃ sn', ev_inv pr tk sn' r.1 ∧
    ((∀ k, evbca_received r.1 k = evbca_received e k) ∨ ev_recv k v s e r.1).

Lemma ev_keeps_refl pr tk sn e k v s err : ev_inv pr tk sn e → ev_keeps pr tk e k v s (e, err).
Proof. intros. exists sn. split; [done|by left]. Qed.

(** Marking an echo as sent. *)
Lemma ev_mark_inv pr tk sn e v :
  ev_inv pr tk sn e → bit v →
  ∃ se, slice_set (ev_sentEchoes e) v true = Done se ∧ ev_inv pr tk sn (put_sentEchoes se e) ∧
    length se = 2%nat ∧ elt false se v = true.
Proof.
  intros Hi Hv. pose proof (e_len _ _ _ _ Hi) as (Hl & _). rewrite slice_set_Done by lia.
  eexists. split; [done|]. split; [|split; [by rewrite length_insert|]].
  - destruct Hi. split; simpl; try done; [by rewrite length_insert|].
    intros w Hw. destruct (e_echo0 w Hw) as (? & ? & ?). split_and!; [done| |done].
    rewrite elt_insert by lia. by destruct (decide (v = w)).
  - rewrite elt_insert by lia. by rewrite decide_True.
Qed.

Lemma ev_broadcastEcho_spec pr tk sn e v :
  ev_inv pr tk sn e → bit v → elt false (ev_sentEchoes e) v = false →
  ((∃ c, (v, c) ∈ pr) ∨ f + 1 ≤ cnt e KEcho v) →
  post (evbca_broadcastEcho v e)
    (λ e', ev_inv pr tk (<[CEcho := sn CEcho ++ [v]]> sn) e' ∧
           ∃ ch se, e' = put_chans ch (put_sentEchoes se e)) False.
Proof.
  intros Hi Hv Hs Hwhy. unfold evbca_broadcastEcho.
  assert (Hni : v ∉ sn CEcho)
    by (intros Hin; destruct (e_echo _ _ _ _ Hi v Hin) as (_ & ? & _); congruence).
  destruct (ev_mark_inv _ _ _ _ v Hi Hv) as (se & -> & Hi' & Hl & He). simpl.
  eapply post_mono; [apply (ev_send_spec pr tk sn)| |]; [done|by simpl|..].
  - intros e' [? [ch ->]]. split; [done|]. by exists ch, se.
  - simpl. pose proof (e_link _ _ _ _ Hi CEcho) as Hlk.
    assert (length (sn CEcho) < 2)%nat; [|rewrite Hlk, length_app in *; lia].
    apply (bits_room _ v); [apply (e_nodup _ _ _ _ Hi)| |done..].
    intros x Hx. by apply (e_echo _ _ _ _ Hi).
Qed.

Lemma evbca_propose_spec pr tk sn e est coin :
  ev_inv pr tk sn e →
  post (evbca_propose est coin e)
    (λ r, (∃ sn', ev_inv (if r.2 is Some _ then pr else (est, coin) :: pr) tk sn' r.1) ∧
          ∀ k, evbca_received r.1 k = evbca_received e k) True.
Proof.
  intros Hi. unfold evbca_propose.
  destruct ((bot <? est) || (est <? 0)) eqn:Hest; simpl; [split; [by exists sn|done]|].
  destruct (isInputValid coin) eqn:Hcoin; simpl; [|split; [by exists sn|done]].
  apply isInputValid_spec in Hcoin. apply orb_false_iff in Hest as [He1%Z.ltb_ge He2%Z.ltb_ge].
  pose proof (ev_inv_propose _ _ _ _ (est, coin) Hi) as Hi'.
  assert (Hcount : (length (sn CApprove) <
    quorum_flag e 0 + quorum_flag e 1 + length ((est, coin) :: pr))%nat)
    by (pose proof (e_count _ _ _ _ Hi); simpl; lia).
  destruct (Z.eqb_spec est coin) as [->|Hne].
  { apply post_bind. unfold fastForward.
    destruct (ev_mark_inv _ _ _ _ coin Hi' Hcoin) as (se & -> & Hi1 & _). simpl. apply post_bind.
    eapply post_mono; [apply (ev_send_spec ((coin, coin) :: pr) tk sn)| |done].
    { exact Hi1. } { split_and!; [done| |done]. right. left. by left. }
    intros e1 [Hi2 [ch ->]]. eapply post_mono; [eapply ev_send_spec; [exact Hi2|]| |done].
    { split; [done|]. right. by left. }
    intros e2 [Hi3 [ch' ->]]. simpl. split; [by eexists|done]. }
  destruct (Z.eqb_spec est bot) as [->|Hnb].
  { apply post_bind. unfold voteOnCoin.
    destruct (ev_mark_inv _ _ _ _ coin Hi' Hcoin) as (se & -> & Hi1 & Hl & _). simpl.
    destruct (ev_mark_inv _ _ _ _ (1 - coin) Hi1) as (se' & Hse' & Hi2 & _); [lia|].
    simpl in Hse'. rewrite Hse'. simpl.
    eapply post_mono; [apply (ev_send_spec ((bot, coin) :: pr) tk sn)| |done].
    { exact Hi2. } { split_and!; [done| |done]. right. right. by left. }
    intros e1 [Hi3 [ch ->]]. simpl. split; [by eexists|done]. }
  assert (Hbit : bit est) by (unfold bot in *; lia).
  pose proof (e_len _ _ _ _ Hi) as (Hl & _). rewrite (slice_get_elt false) by lia. simpl.
  apply post_bind.
  assert (Hecho : post (if elt false (ev_sentEchoes e) est then Done e else evbca_broadcastEcho est e)
    (λ e1, (∃ sn1, ev_inv ((est, coin) :: pr) tk sn1 e1) ∧
           ∀ k, evbca_received e1 k = evbca_received e k) True).
  { destruct (elt false (ev_sentEchoes e) est) eqn:Hs; [split; [by exists sn|done]|].
    eapply post_mono; [apply (ev_broadcastEcho_spec _ _ _ _ _ Hi' Hbit Hs)| |done].
    - left. exists coin. by left.
    - intros e1 [Hi1 (ch & se & ->)]. split; [by eexists|done]. }
  eapply post_mono; [exact Hecho| |done]. intros e1 [[sn1 Hi1] Hr1]. apply post_bind.
  eapply post_mono; [apply (ev_send_spec _ tk sn1 e1 CPrevCoin coin Hi1 I)| |done].
  intros e2 [Hi2 [ch ->]]. simpl. split; [by eexists|done].
Qed.

Lemma evbca_submitExternallyValid_spec pr tk sn e v :
  ev_inv pr tk sn e →
  post (evbca_submitExternallyValid v e)
    (λ e', (∃ sn', ev_inv pr tk sn' e') ∧ ∀ k, evbca_received e' k = evbca_received e k) True.
Proof.
  intros Hi. eapply post_mono; [apply (ev_send_spec _ tk sn e CInputExt v Hi I)| |done].
  intros e1 [Hi1 [ch ->]]. split; [by eexists|done].
Qed.

(** The handlers once the checks are done: a call is refused and changes
    nothing, or it counts the message and goes on with what has counted it. *)
Definition ev_fresh (k : bca_kind) (v : Z) (s : UUID) (e e1 : evbca) : Prop :=
  ev_recv k v s e e1 ∧ ev_only_received e e1 ∧ s ∉ evbca_received e k v.

Lemma ev_fresh_inv pr tk sn e e1 k v s :
  ev_inv pr tk sn e → s ∈ peers mb → bit v → ev_fresh k v s e e1 →
  (k = KBind → ∀ w, s ∉ evbca_received e KBind w) →
  ev_inv pr tk sn e1 ∧ cnt e1 k v = cnt e k v + 1.
Proof.
  intros Hi Hs Hv (Hr & Ho & Hn) Hk. split; [by apply (ev_recv_inv _ _ _ e _ k v s)|].
  by apply (recv_step_new _ _ _ _ _ Hr).
Qed.

Lemma ev_submitEcho_shape pr tk sn e v s : ev_inv pr tk sn e →
  (∃ err, evbca_submitEcho v s e = Done (e, Some err)) ∨
  bit v ∧ ∃ e1, ev_fresh KEcho v s e e1 ∧
    evbca_submitEcho v s e =
      (e2 ← (if (cnt e1 KEcho v =? f + 1) && negb (elt false (ev_sentEchoes e) v)
             then evbca_broadcastEcho v e1 else Done e1);
       e3 ← (if cnt e1 KEcho v =? int_of_uint (uint_sub (ev_n e2) (ev_f e2))
             then ev_send CApprove v e2 else Done e2);
       Done (e3, None)).
Proof.
  intros Hi. unfold evbca_submitEcho. destruct (isInputValid v) eqn:Hv; simpl; [|left; by eexists].
  apply isInputValid_spec in Hv. pose proof (e_len _ _ _ _ Hi) as (Hls & Hle & _).
  rewrite (slice_get_elt (∅ : gset UUID)) by lia. simpl. rewrite <-sets_elt by lia.
  change (sets (ev_echoes e) v) with (evbca_received e KEcho v).
  case_decide as Hnew; [left; by eexists|]. right. split; [done|].
  rewrite slice_set_Done by lia. simpl. set (e1 := put_echoes _ e). exists e1.
  assert (Hst : ev_recv KEcho v s e e1).
  { intros k w. destruct k; [|done..]. unfold evbca_received, e1. cbn [ev_echoes put_echoes].
    rewrite sets_insert by lia. repeat destruct (decide _); naive_solver. }
  split; [split; [done|]; split; [unfold ev_only_received; simpl; by rewrite length_insert|done]|].
  rewrite (slice_get_elt false) by lia. simpl. destruct (e_conf _ _ _ _ Hi) as [_ ->].
  destruct (rs_arith mb) as (_ & _ & _ & -> & _ & -> & _).
  by replace (Z.of_nat (size ({[s]} ∪ evbca_received e KEcho v))) with (cnt e1 KEcho v)
    by (rewrite Hst, decide_True by done; done).
Qed.

Lemma ev_submitBind_shape pr tk sn e v s : ev_inv pr tk sn e →
  (∃ err, evbca_submitBind v s e = Done (e, Some err)) ∨
  bit v ∧ (∀ w, s ∉ evbca_received e KBind w) ∧ ∃ e1, ev_fresh KBind v s e e1 ∧
    evbca_submitBind v s e =
      (e2 ← (if cnt e1 KBind v =? n - f then ev_send CTermVal v e1
             else if binds_total e1 =? n - f then ev_send CTermBot 0 e1 else Done e1);
       Done (e2, None)).
Proof.
  intros Hi. unfold evbca_submitBind. destruct (isInputValid v) eqn:Hv; simpl; [|left; by eexists].
  apply isInputValid_spec in Hv. pose proof (e_len _ _ _ _ Hi) as (_ & _ & _ & Hlb).
  rewrite !(slice_get_elt (∅ : gset UUID)) by (unfold bot; lia). simpl.
  rewrite <-!sets_elt by (unfold bot; lia).
  case_decide as Hnew; [left; by eexists|]. right. split; [done|].
  assert (Hsv : ∀ w, s ∉ evbca_received e KBind w).
  { intros w Hw. destruct (decide (bit w)) as [[-> | ->]|Hnb]; [tauto..|].
    rewrite (e_nobot _ _ _ _ Hi w Hnb) in Hw. set_solver. }
  split; [done|]. rewrite slice_set_Done by lia. simpl.
  rewrite !(slice_get_elt (∅ : gset UUID)) by (rewrite length_insert; unfold bot; lia). simpl.
  rewrite <-!sets_elt by (unfold bot; lia). set (e1 := put_binds _ e). exists e1.
  change (sets _ 0) with (evbca_received e1 KBind 0).
  change (sets _ 1) with (evbca_received e1 KBind 1).
  change (sets (<[_ := _]> _) bot) with (evbca_received e1 KBind bot).
  assert (Hst : ev_recv KBind v s e e1).
  { intros k w. destruct k; [done..|]. unfold evbca_received, e1. cbn [ev_binds put_binds].
    rewrite sets_insert by lia. repeat destruct (decide _); naive_solver. }
  split; [split; [done|]; split; [unfold ev_only_received; simpl; by rewrite length_insert|done]|].
  destruct (e_conf _ _ _ _ Hi) as [-> ->]. destruct (rs_arith mb) as (? & ? & ? & _ & -> & _ & ->).
  replace (Z.of_nat (size ({[s]} ∪ sets (ev_binds e) v))) with (cnt e1 KBind v)
    by (rewrite Hst, decide_True by done; done).
  by replace (Z.of_nat (_ + _ + _)) with (binds_total e1) by (unfold binds_total; lia).
Qed.

(** A quorum of echoes is new. *)
Lemma ev_approve_room pr tk sn e e1 e2 v s :
  ev_inv pr tk sn e → bit v → ev_fresh KEcho v s e e1 → (∀ k, evbca_received e2 k = evbca_received e1 k) →
  cnt e1 KEcho v = n - f →
  (length (sn CApprove) < quorum_flag e2 0 + quorum_flag e2 1 + length pr)%nat.
Proof.
  intros Hi Hv (Hst & _ & Hn) Hr2 Heq. pose proof (recv_step_new _ _ _ _ _ Hst Hn) as Hcnt.
  pose proof (e_count _ _ _ _ Hi).
  assert (Hq : ∀ w, quorum_flag e2 w = quorum_flag e1 w) by (intros; unfold quorum_flag; by rewrite Hr2).
  rewrite !Hq. assert (Hne : ∀ w, w ≠ v → quorum_flag e1 w = quorum_flag e w).
  { intros w Hw. unfold quorum_flag. rewrite Hst, decide_False by naive_solver. done. }
  assert (quorum_flag e v = 0%nat ∧ quorum_flag e1 v = 1%nat) as [Hq0 Hq1].
  { unfold quorum_flag. rewrite bool_decide_eq_false_2, bool_decide_eq_true_2 by lia. done. }
  destruct Hv as [-> | ->]; [rewrite (Hne 1) by done|rewrite (Hne 0) by done]; lia.
Qed.

(** The approval of a quorum of echoes finds room unless three proposals came. *)
Lemma ev_approve_spec pr tk sn sn2 e e1 e2 v s :
  ev_inv pr tk sn e → ev_inv pr tk sn2 e2 → bit v → ev_fresh KEcho v s e e1 →
  (∀ k, evbca_received e2 k = evbca_received e1 k) → sn2 CApprove = sn CApprove →
  cnt e1 KEcho v = n - f →
  post (ev_send CApprove v e2)
    (λ e3, ∃ sn3, ev_inv pr tk sn3 e3 ∧ ∀ k, evbca_received e3 k = evbca_received e1 k)
    (2 < length pr)%nat.
Proof.
  intros Hi Hi2 Hv Hfr Hr2 Hap Heq.
  pose proof (ev_approve_room _ _ _ _ _ e2 _ _ Hi Hv Hfr Hr2 Heq) as Hflags. rewrite <-Hap in Hflags.
  eapply post_mono; [apply (ev_send_spec pr tk sn2 e2 CApprove v Hi2)|..].
  - split_and!; [done| |done]. left. rewrite Hr2. lia.
  - intros e3 [Hi3 [ch ->]]. eexists. split; [exact Hi3|]. exact Hr2.
  - simpl. intros Hfull. pose proof (e_link _ _ _ _ Hi2 CApprove) as Hlk.
    assert (4 ≤ length (sn2 CApprove))%nat by (rewrite Hlk, length_app; lia).
    unfold quorum_flag in Hflags. repeat case_bool_decide; simpl in Hflags; lia.
Qed.

Lemma evbca_submitEcho_spec pr tk sn e v s :
  ev_inv pr tk sn e → s ∈ peers mb →
  post (evbca_submitEcho v s e) (ev_keeps pr tk e KEcho v s) (2 < length pr)%nat.
Proof.
  intros Hi Hs. destruct (ev_submitEcho_shape _ _ _ _ v s Hi) as [[err ->]|(Hv & e1 & Hfr & ->)];
    [by eapply ev_keeps_refl|].
  destruct (ev_fresh_inv _ _ _ _ _ _ _ _ Hi Hs Hv Hfr) as [Hi1 Hcnt]; [done|].
  destruct (rs_arith mb) as (? & ? & ? & _ & Hnf & _ & Hinf). apply post_bind.
  assert (Hecho : post (if (cnt e1 KEcho v =? f + 1) && negb (elt false (ev_sentEchoes e) v)
      then evbca_broadcastEcho v e1 else Done e1)
    (λ e2, ∃ sn2, ev_inv pr tk sn2 e2 ∧ sn2 CApprove = sn CApprove ∧
       ∀ k, evbca_received e2 k = evbca_received e1 k) (2 < length pr)%nat).
  { destruct (Z.eqb_spec (cnt e1 KEcho v) (f + 1)) as [Heq|]; simpl; [|by exists sn].
    destruct (elt false (ev_sentEchoes e) v) eqn:Hse; simpl; [by exists sn|].
    assert (Hse1 : elt false (ev_sentEchoes e1) v = false) by (by destruct Hfr as (_ & (_ & _ & -> & _) & _)).
    eapply post_mono; [apply (ev_broadcastEcho_spec pr tk sn e1 v Hi1 Hv Hse1)| |done]; [right; lia|].
    intros e2 [Hi2 (ch & se & ->)]. eexists. split; [exact Hi2|]. by chan_simpl. }
  eapply post_mono; [exact Hecho| |done]. intros e2 (sn2 & Hi2 & Hap & Hr2).
  destruct (e_conf _ _ _ _ Hi2) as [-> ->]. rewrite Hnf, Hinf. apply post_bind.
  destruct (Z.eqb_spec (cnt e1 KEcho v) (n - f)) as [Heq|]; simpl.
  2: { exists sn2. split; [done|]. right. intros k w. simpl. rewrite Hr2. apply Hfr. }
  eapply post_mono; [by apply (ev_approve_spec pr tk sn sn2 e e1 e2 v s)| |done].
  intros e3 (sn3 & Hi3 & Hr3). exists sn3. split; [done|]. right. intros k w. simpl. rewrite Hr3. apply Hfr.
Qed.

Lemma ev_submitVote_shape pr tk sn e v s : ev_inv pr tk sn e →
  (∃ err, evbca_submitVote v s e = Done (e, Some err)) ∨
  bit v ∧ ∃ e1, ev_fresh KVote v s e e1 ∧
    evbca_submitVote v s e =
      (e2 ← (if (cnt e1 KVote v =? n - f) && (cnt e KVote (1 - v) <? n - f)
             then ev_send CBindVal v e1 else Done e1);
       Done (e2, None)).
Proof.
  intros Hi. unfold evbca_submitVote. destruct (isInputValid v) eqn:Hv; simpl; [|left; by eexists].
  apply isInputValid_spec in Hv. pose proof (e_len _ _ _ _ Hi) as (_ & _ & Hlv & _).
  rewrite !(slice_get_elt (∅ : gset UUID)) by lia. simpl. rewrite <-!sets_elt by lia.
  case_decide as Hnew; [left; by eexists|]. right. split; [done|].
  rewrite slice_set_Done by lia. simpl.
  rewrite (slice_get_elt (∅ : gset UUID)) by (rewrite length_insert; lia). simpl.
  rewrite <-sets_elt, sets_insert, decide_False by lia. set (e1 := put_votes _ e). exists e1.
  assert (Hst : ev_recv KVote v s e e1).
  { intros k w. destruct k; [done| |done]. unfold evbca_received, e1. cbn [ev_votes put_votes].
    rewrite sets_insert by lia. repeat destruct (decide _); naive_solver. }
  split; [split; [done|]; split; [unfold ev_only_received; simpl; by rewrite length_insert|]|].
  { destruct Hv as [-> | ->]; tauto. }
  destruct (e_conf _ _ _ _ Hi) as [-> ->]. destruct (rs_arith mb) as (_ & _ & _ & _ & -> & _ & ->).
  by replace (Z.of_nat (size ({[s]} ∪ sets (ev_votes e) v))) with (cnt e1 KVote v)
    by (rewrite Hst, decide_True by done; done).
Qed.

Lemma evbca_submitVote_spec pr tk sn e v s :
  ev_inv pr tk sn e → s ∈ peers mb →
  post (evbca_submitVote v s e) (ev_keeps pr tk e KVote v s) (1 ≤ length (ev_chans e CBindVal))%nat.
Proof.
  intros Hi Hs. destruct (ev_submitVote_shape _ _ _ _ v s Hi) as [[err ->]|(Hv & e1 & Hfr & ->)];
    [by eapply ev_keeps_refl|].
  destruct (ev_fresh_inv _ _ _ _ _ _ _ _ Hi Hs Hv Hfr) as [Hi1 Hcnt]; [done|].
  destruct Hfr as (Hst & (_ & _ & _ & Hch & _) & _). apply post_bind.
  destruct (Z.eqb_spec (cnt e1 KVote v) (n - f)) as [Heq|]; simpl; [destruct (_ <? _); simpl|];
    [|exists sn; split; [done|by right]..].
  eapply post_mono; [apply (ev_send_spec pr tk sn e1 CBindVal v Hi1)|..].
  - split; [done|]. left. lia.
  - intros e2 [Hi2 [ch ->]]. eexists. split; [exact Hi2|]. right. exact Hst.
  - by rewrite Hch.
Qed.

Lemma ev_one_bound_quorum pr tk sn e v w :
  ev_inv pr tk sn e → n - f ≤ cnt e KBind v → n - f ≤ cnt e KBind w → v = w.
Proof.
  intros Hi Hv Hw. destruct (decide (v = w)) as [|Hne]; [done|].
  pose proof (e_disj _ _ _ _ Hi v w Hne). pose proof (rs_arith mb).
  destruct (set_overlap (evbca_received e KBind v) (evbca_received e KBind w) (peers mb))
    as (x & ? & ?); [apply (e_peers _ _ _ _ Hi)..| |set_solver].
  destruct Resilient0. lia.
Qed.

(** A quorum of binds is new, and so is a quorum of all binds. *)
Lemma ev_term_justified pr tk sn e e1 v s :
  ev_inv pr tk sn e → ev_inv pr tk sn e1 → bit v → ev_fresh KBind v s e e1 →
  (cnt e1 KBind v = n - f → justified pr sn e1 CTermVal v ∧ ev_chans e1 CTermVal = []) ∧
  (binds_total e1 = n - f → justified pr sn e1 CTermBot 0 ∧ (length (ev_chans e1 CTermBot) < 2)%nat).
Proof.
  intros Hi Hi1 Hv (Hst & (_ & _ & _ & _ & Hpc & _) & Hn). pose proof (recv_step_new _ _ _ _ _ Hst Hn) as Hcnt.
  assert (Htot : binds_total e < binds_total e1).
  { pose proof (recv_step_cnt _ _ _ _ _ KBind 0 Hst).
    pose proof (recv_step_cnt _ _ _ _ _ KBind 1 Hst).
    pose proof (recv_step_cnt _ _ _ _ _ KBind bot Hst).
    unfold binds_total. destruct Hv as [-> | ->]; lia. }
  split; intros Heq.
  - assert (Hem : sn CTermVal = []).
    { destruct (sn CTermVal) as [|w l] eqn:Hw; [done|].
      destruct (proj2 (e_termval _ _ _ _ Hi) w) as [Hbw Hqw]; [rewrite Hw; by left|].
      pose proof (recv_step_cnt _ _ _ _ _ KBind w Hst).
      assert (v = w) as <- by (apply (ev_one_bound_quorum pr tk sn e1); [done|lia..]). lia. }
    split; [split_and!; [done..|lia]|]. pose proof (e_link _ _ _ _ Hi1 CTermVal) as Hlk.
    rewrite Hem in Hlk. symmetry in Hlk. by apply app_eq_nil in Hlk as [_ ->].
  - pose proof (e_termbot _ _ _ _ Hi) as Hb. rewrite bool_decide_eq_false_2 in Hb by lia.
    split; [simpl; rewrite Hpc, bool_decide_eq_true_2 by lia; simpl in *; lia|].
    pose proof (e_link _ _ _ _ Hi1 CTermBot) as Hlk. rewrite Hlk, length_app in Hb.
    destruct (ev_both_voted _); simpl in Hb; lia.
Qed.

Lemma evbca_submitBind_spec pr tk sn e v s :
  ev_inv pr tk sn e → s ∈ peers mb →
  post (evbca_submitBind v s e) (ev_keeps pr tk e KBind v s) False.
Proof.
  intros Hi Hs. destruct (ev_submitBind_shape _ _ _ _ v s Hi) as [[err ->]|(Hv & Hsv & e1 & Hfr & ->)];
    [by eapply ev_keeps_refl|].
  destruct (ev_fresh_inv _ _ _ _ _ _ _ _ Hi Hs Hv Hfr) as [Hi1 Hcnt]; [done|].
  destruct (ev_term_justified _ _ _ _ _ _ _ Hi Hi1 Hv Hfr) as [Hval Hbot]. destruct Hfr as (Hst & _).
  apply post_bind. destruct (Z.eqb_spec (cnt e1 KBind v) (n - f)) as [Heq|Hneq];
    [|destruct (Z.eqb_spec (binds_total e1) (n - f)) as [Heq|]; simpl].
  - destruct (Hval Heq) as [Hj Hroom].
    eapply post_mono; [apply (ev_send_spec pr tk sn e1 CTermVal v Hi1 Hj)|..].
    + intros e2 [Hi2 [ch ->]]. eexists. split; [exact Hi2|]. right. exact Hst.
    + rewrite Hroom. simpl. lia.
  - destruct (Hbot Heq) as [Hj Hroom].
    eapply post_mono; [apply (ev_send_spec pr tk sn e1 CTermBot 0 Hi1 Hj)|..].
    + intros e2 [Hi2 [ch ->]]. eexists. split; [exact Hi2|]. right. exact Hst.
    + simpl. lia.
  - exists sn. split; [done|]. by right.
Qed.

(** ** Goroutine steps and receives by the owner *)

(** The loop head keeps the history. *)
Lemma ev_loop_head_hist x ap tk sn :
  ev_vote_hist (E_loop x ap) tk sn → bit x → ev_vote_hist (ev_loop_head x ap) tk sn.
Proof.
  intros (Hx & ? & ? & ? & Hap) Hb. unfold ev_loop_head.
  destruct (elt false ap (1 - x)) eqn:E; [|done].
  exists x. split_and!; [done| |done..]. apply Hap; [lia|done].
Qed.

Lemma ev_waitToVote_hist br pc s pc' s' tk sn :
  linked tk sn s → (∀ v, v ∈ sn CApprove → bit v) → ev_vote_hist pc tk sn →
  evbca_waitToVote br pc s = Some (pc', s') →
  ∃ tk' sn', linked tk' sn' s' ∧ ev_vote_hist pc' tk' sn' ∧
    only_chans [CApprove; CClose] tk tk' ∧ only_chans [CVote; CBindBot; CTermBot; CExt] sn sn' ∧
    (sn' CTermBot = sn CTermBot ∧ ev_both_voted pc' = ev_both_voted pc ∨
     sn' CTermBot = sn CTermBot ++ [0] ∧ ev_both_voted pc = false ∧ ev_both_voted pc' = true).
Proof.
  intros Hl Hbits Hh Hs.
  assert (Hboth : ∀ x ap, ev_both_voted (ev_loop_head x ap) = false)
    by (intros; unfold ev_loop_head; by destruct (elt _ _ _)).
  assert (Hbitt : ∀ v, v ∈ tk CApprove → bit v)
    by (intros v Hv; apply Hbits; by eapply linked_taken).
  destruct pc as [|x|x|x ap|x| | | |], br; try done; cbn in Hs, Hh;
    match type of Hs with
    | context [chan_recv ?c ?q] => destruct (chan_recv c q) as [[v s1]|] eqn:Hr
    | context [go_send _ ?c ?v ?q] => destruct (go_send evbca_cap c v q) as [s1|] eqn:Hr
    end; cbn in Hs; simplify_eq;
    match type of Hr with
    | chan_recv _ _ = _ =>
      destruct (hist_recv [CApprove; CClose] _ _ _ _ _ _ Hl Hr) as [Hl' Ho]; [set_solver|];
      eexists _, sn
    | _ => destruct (hist_go_send _ [CVote; CBindBot; CTermBot; CExt] _ _ _ _ _ _ Hl Hr)
             as [Hl' Ho]; [set_solver|]; eexists tk, _
    end; (split; [exact Hl'|]); (split; [|split; [done|split; [done|]]]); chan_simpl;
    try (left; split; [done|]; by rewrite ?Hboth); try (by right).
  - destruct Hh as (-> & ? & ?). done.
  - destruct Hh as (Ha & ? & ?). simpl. by chan_simpl.
  - destruct Hh as (Ha & Hv & ?). apply ev_loop_head_hist; [|apply Hbitt; rewrite Ha; by left].
    simpl. chan_simpl. rewrite Hv, Ha. split_and!; [by left|done|done|by rewrite length_insert|].
    assert (bit x) by (apply Hbitt; rewrite Ha; by left).
    intros w Hw. rewrite elt_insert by (simpl; lia). case_decide; [subst; by left|].
    by destruct Hw as [-> | ->].
  - destruct Hh as (Hx & Hv & Hb & Hlen & Hap).
    assert (Hbv : bit v).
    { destruct (linked_recv _ _ _ _ _ _ Hl Hr) as [_ [q Hq]]. apply Hbits. rewrite Hq. set_solver. }
    apply ev_loop_head_hist; [|by apply Hbitt]. simpl. chan_simpl.
    split_and!; [set_solver|done|done|by rewrite length_insert|].
    intros w Hw. rewrite elt_insert by lia. case_decide; [set_solver|]. intros He.
    apply elem_of_app. left. by apply Hap.
  - destruct Hh as (Hx & Hv & Hb & _). simpl. chan_simpl. by exists x.
  - destruct Hh as (y & ? & ? & ? & ?). simpl. chan_simpl. by exists y.
  - destruct Hh as (y & ? & ? & ? & Hb). simpl. chan_simpl. rewrite Hb. by exists y.
  - destruct Hh as (y & ? & ? & ? & ?). simpl. chan_simpl. by exists y.
Qed.

(** The channels only handlers send on. *)
Definition handler_chans : list bca_chan := [CEcho; CApprove; CBindVal; CTermVal].

Lemma evbca_step_ok pr tk sn e g br e' :
  ev_inv pr tk sn e → evbca_step g br e = Some e' →
  ∃ tk' sn', ev_inv pr tk' sn' e' ∧ (∀ c, c ∈ out_chans → tk' c = tk c) ∧
    (∀ k, evbca_received e' k = evbca_received e k) ∧ ev_sentEchoes e' = ev_sentEchoes e ∧
    ∀ c, c ∈ handler_chans → sn' c = sn c.
Proof.
  intros Hi Hs. destruct g; simpl in Hs; apply bind_Some in Hs as ([pc ch] & Hs & [= <-]).
  - assert (Hbits : ∀ v, v ∈ sn CApprove → bit v) by (intros v Hv; by apply (e_appr _ _ _ _ Hi)).
    destruct (ev_waitToVote_hist _ _ _ _ _ tk sn (e_link _ _ _ _ Hi) Hbits (e_vote _ _ _ _ Hi) Hs)
      as (tk' & sn' & Hl & Hh & Ht & Hn & Hb).
    assert (Hn' : ∀ c, c ∉ [CVote; CBindBot; CTermBot; CExt] → sn' c = sn c) by done.
    exists tk', sn'. split; [|split; [|split_and!; [done|done|]]].
    + destruct Hi. split; simpl; rewrite ?(Hn' CEcho), ?(Hn' CApprove),
        ?(Hn' CBindVal), ?(Hn' CTermVal) by set_solver; try done.
      * change (binds_total _) with (binds_total e).
        destruct Hb as [[-> ->]|(-> & Hb1 & ->)]; [done|].
        rewrite Hb1 in e_termbot0. rewrite length_app. simpl in *. lia.
      * eapply bind_hist_ext; [..|exact e_bind0]; [apply Ht|apply Ht|apply Hn]; set_solver.
      * eapply decide_hist_ext; [..|exact e_decide0]; [apply Ht|apply Ht|apply Hn|apply Hn]; set_solver.
    + intros c Hc. apply Ht. unfold out_chans in Hc. set_solver.
    + intros c Hc. apply Hn'. unfold handler_chans in Hc. set_solver.
  - destruct (waitToBind_hist _ _ _ _ _ _ tk sn (e_link _ _ _ _ Hi) (e_bind _ _ _ _ Hi) Hs)
      as (tk' & sn' & Hl & Hh & Ht & Hn).
    assert (Hn' : ∀ c, c ∉ [CBind] → sn' c = sn c) by done.
    exists tk', sn'. split; [|split; [|split_and!; [done|done|]]].
    + destruct Hi. split; simpl; rewrite ?(Hn' CEcho), ?(Hn' CApprove),
        ?(Hn' CBindVal), ?(Hn' CTermVal), ?(Hn' CTermBot) by set_solver; try done.
      * eapply ev_vote_hist_ext; [..|exact e_vote0]; [apply Ht|apply Hn|apply Hn]; set_solver.
      * eapply decide_hist_ext; [..|exact e_decide0]; [apply Ht|apply Ht|apply Hn|apply Hn]; set_solver.
    + intros c Hc. apply Ht. unfold out_chans in Hc. set_solver.
    + intros c Hc. apply Hn'. unfold handler_chans in Hc. set_solver.
  - destruct (waitToDecide_hist _ _ _ _ _ _ tk sn (e_link _ _ _ _ Hi) (e_decide _ _ _ _ Hi) Hs)
      as (tk' & sn' & Hl & Hh & Ht & Hn).
    assert (Hn' : ∀ c, c ∉ [COut; CUnblock] → sn' c = sn c) by done.
    exists tk', sn'. split; [|split; [|split_and!; [done|done|]]].
    + destruct Hi. split; simpl; rewrite ?(Hn' CEcho), ?(Hn' CApprove),
        ?(Hn' CBindVal), ?(Hn' CTermVal), ?(Hn' CTermBot) by set_solver; try done.
      * eapply ev_vote_hist_ext; [..|exact e_vote0]; [apply Ht|apply Hn|apply Hn]; set_solver.
      * eapply bind_hist_ext; [..|exact e_bind0]; [apply Ht|apply Ht|apply Hn]; set_solver.
    + intros c Hc. apply Ht. unfold out_chans in Hc. set_solver.
    + intros c Hc. apply Hn'. unfold handler_chans in Hc. set_solver.
Qed.

Lemma evbca_take_ok pr tk sn e c v e' :
  ev_inv pr tk sn e → evbca_take c e = Some (v, e') →
  c ∈ out_chans ∧ ev_inv pr (<[c := tk c ++ [v]]> tk) sn e' ∧
  (∀ k, evbca_received e' k = evbca_received e k).
Proof.
  intros Hi Ht. unfold evbca_take in Ht. case_decide as Hc; [|done].
  apply bind_Some in Ht as ([w ch] & Hr & [= -> <-]). split; [done|]. split; [|done].
  assert (Hne : ∀ c', c' ∉ out_chans → (<[c := tk c ++ [v]]> tk) c' = tk c')
    by (intros c' Hc'; rewrite fn_lookup_insert_ne; [done|set_solver]).
  destruct Hi. split; simpl; try done.
  - by eapply linked_recv.
  - eapply ev_vote_hist_ext; [apply Hne|..]; [set_solver|done..].
  - eapply bind_hist_ext; [apply Hne|apply Hne|..]; [set_solver..|done|done].
  - eapply decide_hist_ext; [apply Hne|apply Hne|..]; [set_solver..|done|done|done].
Qed.

(** ** The interface *)

Definition evbca_node_ok (nd : bca_node evbca) : Prop :=
  ∃ tk sn, (∀ c, c ∈ out_chans → tk c = nd_taken nd c) ∧
           ev_inv (nd_proposed nd) tk sn (nd_st nd).

Lemma ev_node_sent nd tk sn c v :
  (∀ c, c ∈ out_chans → tk c = nd_taken nd c) → ev_inv (nd_proposed nd) tk sn (nd_st nd) →
  c ∈ out_chans → v ∈ nd_taken nd c → v ∈ sn c.
Proof.
  intros Ht Hi Hc Hv. rewrite <-Ht in Hv by done.
  by eapply linked_taken; [apply (e_link _ _ _ _ Hi)|].
Qed.

Lemma ev_taken_approved pr tk sn e v :
  ev_inv pr tk sn e → v ∈ tk CApprove → bit v ∧ approved pr e v.
Proof.
  intros Hi Hv. apply (e_appr _ _ _ _ Hi).
  eapply linked_taken; [apply (e_link _ _ _ _ Hi)|done].
Qed.

Lemma ev_bot_approved pr tk sn e w :
  ev_inv pr tk sn e → sn CBindBot ≠ [] → bit w → approved pr e w.
Proof.
  intros Hi Hb Hw. destruct (ev_vote_hist_both _ _ _ (e_vote _ _ _ _ Hi) Hb) as (x & Hx & Hx').
  destruct (ev_taken_approved _ _ _ _ _ Hi Hx) as [? ?].
  destruct (ev_taken_approved _ _ _ _ _ Hi Hx') as [? ?].
  assert (w = x ∨ w = 1 - x) as [-> | ->] by lia; done.
Qed.

Lemma evbca_exec_ok ev (nd nd' : bca_node evbca) :
  evbca_node_ok nd → (∀ k v s, ev = EvMsg k v s → s ∈ peers mb) → bca_exec ev nd = Some nd' →
  evbca_node_ok nd' ∧
  ((∀ k, evbca_received (nd_st nd') k = evbca_received (nd_st nd) k) ∨
   ∃ k v s, ev = EvMsg k v s ∧ ev_recv k v s (nd_st nd) (nd_st nd')).
Proof.
  intros (tk & sn & Ht & Hi) Hs Hex. destruct ev as [est coin|v|k v s|g br|c]; cbn [bca_exec] in Hex;
    apply bind_Some in Hex as (r & Hr & Hex).
  - destruct r as [st err]. injection Hex as <-. simpl in *.
    pose proof (evbca_propose_spec _ _ _ _ est coin Hi) as Hp.
    destruct (evbca_propose est coin (nd_st nd)); [|done..]. injection Hr as ->.
    destruct Hp as [[sn' Hi'] Hrc]. split; [by exists tk, sn'|by left].
  - injection Hex as <-. simpl in *. pose proof (evbca_submitExternallyValid_spec _ _ _ _ v Hi) as Hp.
    destruct (evbca_submitExternallyValid v (nd_st nd)); [|done..]. injection Hr as ->.
    destruct Hp as [[sn' Hi'] Hrc]. split; [by exists tk, sn'|by left].
  - destruct r as [st err]. injection Hex as <-. specialize (Hs k v s eq_refl).
    assert (Hp : post (bca_submit k v s (nd_st nd))
      (ev_keeps (nd_proposed nd) tk (nd_st nd) k v s) True).
    { destruct k; simpl.
      - by eapply post_mono; [apply (evbca_submitEcho_spec (nd_proposed nd) tk sn)| |].
      - by eapply post_mono; [apply (evbca_submitVote_spec (nd_proposed nd) tk sn)| |].
      - by eapply post_mono; [apply (evbca_submitBind_spec (nd_proposed nd) tk sn)| |]. }
    destruct (bca_submit k v s (nd_st nd)); [|done..]. injection Hr as ->.
    destruct Hp as (sn' & Hi' & Hc). split; [by exists tk, sn'|].
    destruct Hc as [Hc|Hc]; [by left|right; by exists k, v, s].
  - injection Hex as <-. destruct (evbca_step_ok _ _ _ _ g br r Hi Hr) as (tk' & sn' & Hi' & Hto & Hrc & _).
    split; [|by left]. exists tk', sn'. split; [|done]. intros c Hc. rewrite Hto by done. by apply Ht.
  - destruct r as [v st]. injection Hex as <-.
    destruct (evbca_take_ok _ _ _ _ c v st Hi Hr) as (Hc & Hi' & Hrc).
    split; [|by left]. eexists _, sn. split; [|exact Hi']. intros c' Hc'. simpl.
    rewrite !chan_upd_lookup, !Ht by done. done.
Qed.

Lemma evbca_decided pr tk sn e d :
  ev_inv pr tk sn e → d ∈ sn COut →
  (bit d ∧ n - f ≤ cnt e KBind d) ∨
  (d = bot ∧ n - f ≤ binds_total e ∧ ∀ w, bit w → approved pr e w).
Proof.
  intros Hi Hd. pose proof (decide_hist_choice _ _ _ _ (e_decide _ _ _ _ Hi) Hd) as Hc.
  pose proof (e_link _ _ _ _ Hi) as Hl. destruct Hc as [Hc|(-> & _ & Hc)].
  - left. apply (e_termval _ _ _ _ Hi), (linked_taken _ _ _ _ _ Hl). rewrite Hc. by left.
  - right. split; [done|]. pose proof (e_termbot _ _ _ _ Hi) as Hb.
    rewrite (Hl CTermBot), length_app, Hc in Hb.
    pose proof (e_vote _ _ _ _ Hi) as Hh.
    destruct (ev_pcVote e) eqn:Hpc; simpl in Hb; case_bool_decide; simpl in Hb; try lia.
    split; [done|]. intros w Hw. apply (ev_bot_approved _ _ _ _ _ Hi); [|done].
    destruct Hh as (? & _ & _ & _ & ->). done.
Qed.

Lemma evbca_bound pr tk sn e v :
  ev_inv pr tk sn e → v ∈ sn CBind →
  (bit v ∧ bindable pr e v) ∨ (v = bot ∧ ∀ w, bit w → approved pr e w).
Proof.
  intros Hi Hv. pose proof (bind_hist_choice _ _ _ _ (e_bind _ _ _ _ Hi) Hv) as Hc.
  pose proof (e_link _ _ _ _ Hi) as Hl. destruct Hc as [(-> & _ & Hc)|[Hc _]].
  - right. split; [done|]. intros w Hw. apply (ev_bot_approved _ _ _ _ _ Hi); [|done].
    rewrite (Hl CBindBot). by destruct (tk CBindBot).
  - left. apply (e_bindval _ _ _ _ Hi), (linked_taken _ _ _ _ _ Hl). rewrite Hc. by left.
Qed.

#[export] Program Instance evbca_laws : BCALaws evbca mb := {
  received := evbca_received;
  node_ok := evbca_node_ok;
}.
Next Obligation. exists none, none. split; [done|]. by apply ev_inv_init. Qed.
Next Obligation. intros k v. apply sets_empty. destruct k; repeat constructor. Qed.
Next Obligation.
  intros ev nd nd' Hok Hs Hex. destruct (evbca_exec_ok ev nd nd' Hok Hs Hex) as [Hok' Hr].
  split; [done|]. intros k v. destruct Hr as [Hr|(k' & v' & s & -> & Hr)].
  - rewrite Hr. split; [done|by left].
  - rewrite Hr. case_decide as Hd; [|split; [done|by left]]. destruct Hd as [-> ->].
    split; [set_solver|]. intros x [->%elem_of_singleton|]%elem_of_union; [by right|by left].
Qed.
Next Obligation. intros nd k v (tk & sn & _ & Hi). apply (e_peers _ _ _ _ Hi). Qed.
Next Obligation. intros nd v w (tk & sn & _ & Hi). apply (e_disj _ _ _ _ Hi). Qed.
Next Obligation.
  intros nd v (tk & sn & Ht & Hi) Hv. apply (ev_node_sent _ _ _ CEcho _ Ht Hi) in Hv; [|set_solver].
  destruct (e_echo _ _ _ _ Hi v Hv) as (? & _ & ?). done.
Qed.
Next Obligation.
  intros nd v (tk & sn & Ht & Hi) Hv. apply (ev_node_sent _ _ _ CVote _ Ht Hi) in Hv; [|set_solver].
  apply (ev_taken_approved _ _ _ _ _ Hi). by apply (ev_vote_hist_taken _ _ _ _ (e_vote _ _ _ _ Hi)).
Qed.
Next Obligation.
  intros nd v (tk & sn & Ht & Hi) Hv. apply (ev_node_sent _ _ _ CBind _ Ht Hi) in Hv; [|set_solver].
  by apply (evbca_bound _ _ _ _ _ Hi Hv).
Qed.
Next Obligation.
  intros nd v w (tk & sn & Ht & Hi) Hv Hw.
  apply (ev_node_sent _ _ _ CBind _ Ht Hi) in Hv, Hw; [|set_solver..].
  by eapply once_eq; [apply (bind_hist_once _ _ _ (e_bind _ _ _ _ Hi))|..].
Qed.
Next Obligation.
  intros nd v w (tk & sn & Ht & Hi) Hv Hw.
  apply (ev_node_sent _ _ _ CVote _ Ht Hi) in Hv, Hw; [|set_solver..].
  by eapply once_eq; [apply (ev_vote_hist_once _ _ _ (e_vote _ _ _ _ Hi))|..].
Qed.
Next Obligation.
  intros nd d (tk & sn & Ht & Hi) Hd. apply (ev_node_sent _ _ _ COut _ Ht Hi) in Hd; [|set_solver].
  destruct (evbca_decided _ _ _ _ _ Hi Hd) as [[Hr Hq]|(-> & Hq & Ha)].
  - left. split; [tauto|done].
  - right. split; [done|]. split; [unfold binds_total in Hq; lia|done].
Qed.

(** ** Binds of bot are never counted *)

Lemma bot_binds_stall inputs (H H' : bca_config evbca) (X : gset UUID) j d :
  bca_reachable mb inputs H → (∀ p, p ∈ X → bca_correct mb p ∧ Binds H p bot) →
  f < Z.of_nat (size X) → rtc (bca_net_step mb inputs) H H' → bca_correct mb j →
  ¬ Decides H' j d.
Proof.
  intros Hr HX Hs Hrt Hj Hd. pose proof (reachable_ok mb inputs H Hr) as Hok.
  pose proof (net_ok_rtc mb inputs H H' Hok Hrt) as Hok'.
  destruct (no_node _ _ _ Hok' j Hj) as (tk & sn & Ht & Hi).
  set (B v := evbca_received (nd_st (H' j)) KBind v).
  assert (HB : ∀ b p, b ≠ bot → p ∈ X → p ∉ B b).
  { intros b p Hb Hp Hpb. destruct (HX p Hp) as [Hpc Hpbot]. apply Hb.
    apply (law_bind_once (H' p)); [by apply (no_node _ _ _ Hok')| |].
    - by apply (no_auth _ _ _ Hok' p j KBind b).
    - by apply (taken_grows_rtc mb inputs H H'). }
  assert (Hsize : Z.of_nat (size (B 0) + size (B 1)) < n - f).
  { assert (B 0 ## B 1) by (by apply (e_disj _ _ _ _ Hi)).
    assert (HXd : X ## B 0 ∪ B 1).
    { intros p Hp Hpb. apply elem_of_union in Hpb as [?|?]; [by apply (HB 0 p)|by apply (HB 1 p)]. }
    assert (X ⊆ peers mb) by (intros p Hp; by apply (HX p Hp)).
    pose proof (e_peers _ _ _ _ Hi KBind 0). pose proof (e_peers _ _ _ _ Hi KBind 1).
    assert (size (X ∪ (B 0%Z ∪ B 1%Z)) ≤ size (peers mb))%nat
      by (apply subseteq_size; unfold B; set_solver).
    rewrite !size_union in * by done. destruct Resilient0. lia. }
  apply (ev_node_sent _ _ _ COut _ Ht Hi) in Hd; [|set_solver].
  destruct (evbca_decided _ _ _ _ _ Hi Hd) as [[Hb Hq]|(_ & Hq & _)].
  - fold (B d) in Hq. destruct Hb as [-> | ->]; lia.
  - unfold binds_total in Hq. rewrite (e_nobot _ _ _ _ Hi bot), size_empty in Hq by (unfold bot; lia).
    fold (B 0) (B 1) in Hq. lia.
Qed.
End invariant.

(** ** A vote that blocks for ever

    [bindValChan] has room for one value and [waitToBind] takes at most one
    value in all.  [fastForward] and a quorum of votes both send on it. *)

Lemma waitToBind_past s br pc pc' s' :
  waitToBind_step evbca_cap br pc s = Some (pc', s') → pc ≠ B_select →
  pc' ≠ B_select ∧ s' CBindVal = s CBindVal.
Proof.
  intros Hs Hpc. destruct pc as [|v|], br; try done; simpl in Hs.
  destruct (go_send evbca_cap CBind v s) as [s1|] eqn:Hr; simplify_eq/=.
  split; [done|]. by apply (go_send_other _ _ _ _ _ _ Hr).
Qed.

Lemma waitToDecide_bindVal s br pc pc' s' :
  waitToDecide_step evbca_cap br pc s = Some (pc', s') → s' CBindVal = s CBindVal.
Proof.
  intros Hs. destruct pc as [| |d| |], br; try done; simpl in Hs;
    match type of Hs with
    | context [chan_recv ?c ?q] => destruct (chan_recv c q) as [[v s1]|] eqn:Hr
    | context [go_send _ ?c ?v ?q] => destruct (go_send evbca_cap c v q) as [s1|] eqn:Hr
    end; simplify_eq/=; first [eapply go_send_other; [exact Hr|done]|eapply chan_recv_other; [exact Hr|done]].
Qed.

Lemma waitToVote_bindVal s br pc pc' s' :
  evbca_waitToVote br pc s = Some (pc', s') → s' CBindVal = s CBindVal.
Proof.
  intros Hs. destruct pc, br; try done; cbn in Hs;
    match type of Hs with
    | context [chan_recv ?c ?q] => destruct (chan_recv c q) as [[v s1]|] eqn:Hr
    | context [go_send _ ?c ?v ?q] => destruct (go_send evbca_cap c v q) as [s1|] eqn:Hr
    end; cbn in Hs; simplify_eq; first [eapply go_send_other; [exact Hr|done]|eapply chan_recv_other; [exact Hr|done]].
Qed.

(** What the outcome of [submitVote] depends on. *)
Definition same_votes (e e' : evbca) : Prop :=
  ev_n e' = ev_n e ∧ ev_f e' = ev_f e ∧ ev_votes e' = ev_votes e ∧
  ev_chans e' CBindVal = ev_chans e CBindVal.

Lemma submitVote_blocks_ext v s e e' :
  same_votes e e' → evbca_submitVote v s e = Block → evbca_submitVote v s e' = Block.
Proof.
  intros (Hn & Hf & Hv & Hc). unfold evbca_submitVote. rewrite Hv.
  destruct (isInputValid v); [|done]. simpl.
  destruct (slice_get (ev_votes e) 0); [|done..]. simpl.
  destruct (slice_get (ev_votes e) 1); [|done..]. simpl. case_decide; [done|].
  destruct (slice_get (ev_votes e) v); [|done..]. simpl.
  destruct (slice_set (ev_votes e) v _) as [vs| |]; [|done..]. simpl.
  destruct (slice_get vs (1 - v)); [|done..]. simpl. rewrite Hn, Hf.
  destruct ((_ =? _) && _); [|done]. unfold ev_send, chan_send. simpl. rewrite Hc.
  by case_decide.
Qed.

Definition own_event (ev : bca_event) : Prop :=
  match ev with EvGo _ _ | EvTake _ => True | _ => False end.

Lemma own_event_same_votes ev (nd nd' : bca_node evbca) :
  own_event ev → bca_exec ev nd = Some nd' → ev_pcBind (nd_st nd) ≠ B_select →
  same_votes (nd_st nd) (nd_st nd') ∧ ev_pcBind (nd_st nd') ≠ B_select.
Proof.
  intros Hown Hex Hpc. destruct ev as [| | |g br|c]; try done; cbn [bca_exec] in Hex;
    apply bind_Some in Hex as (r & Hr & Hex).
  - injection Hex as <-. simpl in *. destruct g; simpl in Hr;
      apply bind_Some in Hr as ([pc ch] & Hr & [= <-]); simpl.
    + split; [|done]. split_and!; [done..|]. simpl. by eapply waitToVote_bindVal.
    + destruct (waitToBind_past _ _ _ _ _ Hr Hpc) as [? ?]. split; [|done]. by split_and!.
    + split; [|done]. split_and!; [done..|]. simpl. by eapply waitToDecide_bindVal.
  - destruct r as [v st]. injection Hex as <-. simpl in *. unfold evbca_take in Hr.
    case_decide as Hc; [|done]. apply bind_Some in Hr as ([w ch] & Hr & [= -> <-]). simpl.
    split; [|done]. split_and!; [done..|]. simpl. eapply chan_recv_other; [exact Hr|].
    intros ->. unfold out_chans in Hc. set_solver.
Qed.

(** Past its receive, [waitToBind] never makes room again. *)
Lemma blocked_for_ever v s es (nd nd' : bca_node evbca) :
  Forall own_event es → bca_exec_list es nd = Some nd' → ev_pcBind (nd_st nd) ≠ B_select →
  evbca_submitVote v s (nd_st nd) = Block → evbca_submitVote v s (nd_st nd') = Block.
Proof.
  intros Hes. revert nd. induction Hes as [|ev es Hown _ IH]; intros nd; simpl; [by intros [= <-]|].
  intros (nd1 & Hex & Hrest)%bind_Some Hpc Hb.
  destruct (own_event_same_votes ev nd nd1 Hown Hex Hpc) as [Hsame Hpc1].
  apply (IH nd1 Hrest Hpc1). by eapply submitVote_blocks_ext.
Qed.

(** ** Concrete runs: four processes, [p4] faulty, previous coin 0 *)

Module EvbcaExample.
Import Example4.

Definition ps : list UUID := [p1; p2; p3].

(** All correct processes propose 1 against the coin 0. *)
Definition ins1 : list (UUID * (Z * Z)) := [(p1, (1, 0)); (p2, (1, 0)); (p3, (1, 0))].
Definition run1 : list (UUID * bca_event) :=
  each ps [EvPropose 1 0; EvTake CEcho] ++
  deliver_all ps [p4] KEcho 0 ++ deliver_all ps [p4] KVote 0 ++
  deliver_all ps ps KEcho 1 ++
  each ps [EvGo GoVote CApprove; EvGo GoVote CExt; EvGo GoVote CVote; EvTake CVote] ++
  deliver_all ps ps KVote 1 ++
  each ps [EvGo GoBind CBindVal; EvGo GoBind CBind; EvTake CBind] ++
  deliver_all ps ps KBind 1 ++
  each ps [EvGo GoDecide CTermVal; EvGo GoDecide COut; EvTake COut].
Definition config1 : bca_config evbca := bca_config_of mb4 ins1 run1.

Lemma ev_ins1_value j p : bca_correct mb4 j → listed_inputs ins1 j p → p.1 = 1.
Proof. intros _ Hp. unfold listed_inputs, ins1 in Hp. set_solver. Qed.
Lemma ev_reachable1 : bca_reachable mb4 (listed_inputs ins1) config1.
Proof. apply bca_config_reachable. vm_compute. reflexivity. Qed.

Definition taken_dec {T} (H : bca_config T) j c v : bool := bool_decide (v ∈ nd_taken (H j) c).
Lemma taken_spec {T} (H : bca_config T) j c v : taken_dec H j c v = true → v ∈ nd_taken (H j) c.
Proof. apply bool_decide_eq_true_1. Qed.

Lemma ev_decides1_p1 : Decides config1 p1 1.
Proof. apply taken_spec. vm_compute. reflexivity. Qed.
Lemma decides1_p2 : Decides config1 p2 1.
Proof. apply taken_spec. vm_compute. reflexivity. Qed.
Lemma ev_correct_p1 : bca_correct mb4 p1.
Proof. split; simpl; set_solver. Qed.
Lemma ev_correct_p2 : bca_correct mb4 p2.
Proof. split; simpl; set_solver. Qed.

(** [p3] decided 1 in the previous round, [p1] and [p2] decided bot and follow
    the coin; they propose after having voted 1. *)
Definition ins_mixed : list (UUID * (Z * Z)) := [(p1, (0, 0)); (p2, (0, 0)); (p3, (1, 0))].
Definition run_mixed : list (UUID * bca_event) :=
  each [p3] [EvPropose 1 0; EvTake CEcho] ++
  deliver_all ps [p3; p4] KEcho 1 ++
  each [p1; p2] [EvTake CEcho] ++
  deliver_all ps [p1; p2] KEcho 1 ++
  each ps [EvGo GoVote CApprove; EvGo GoVote CExt; EvGo GoVote CVote; EvTake CVote] ++
  each [p1; p2] [EvPropose 0 0; EvGo GoVote CApprove; EvGo GoVote CExt; EvGo GoVote CBindBot;
                 EvGo GoBind CBindBot; EvGo GoBind CBind; EvTake CBind].
Definition config_mixed : bca_config evbca := bca_config_of mb4 ins_mixed run_mixed.

Lemma reachable_mixed : bca_reachable mb4 (listed_inputs ins_mixed) config_mixed.
Proof. apply bca_config_reachable. vm_compute. reflexivity. Qed.

Lemma bot_bound_mixed p : p ∈ ({[p1; p2]} : gset UUID) → bca_correct mb4 p ∧ Binds config_mixed p bot.
Proof.
  intros [->%elem_of_singleton| ->%elem_of_singleton]%elem_of_union.
  - split; [exact ev_correct_p1|]. apply taken_spec. vm_compute. reflexivity.
  - split; [exact ev_correct_p2|]. apply taken_spec. vm_compute. reflexivity.
Qed.

(** The run continued: [p1] has the votes of [p1] and [p2] for 1. *)
Definition run_votes : list (UUID * bca_event) :=
  run_mixed ++ deliver_all [p1] [p1; p2] KVote 1.
Definition config_votes : bca_config evbca := bca_config_of mb4 ins_mixed run_votes.

Lemma reachable_votes : bca_reachable mb4 (listed_inputs ins_mixed) config_votes.
Proof. apply bca_config_reachable. vm_compute. reflexivity. Qed.
Lemma p3_voted : 1 ∈ nd_taken (config_votes p3) CVote.
Proof. apply taken_spec. vm_compute. reflexivity. Qed.

Definition is_Block {A} (o : outcome A) : bool := match o with Block => true | _ => false end.
Lemma is_Block_eq {A} (o : outcome A) : is_Block o = true → o = Block.
Proof. by destruct o. Qed.
Definition past_select (pc : bind_pc) : bool := match pc with B_select => false | _ => true end.
Lemma past_select_neq pc : past_select pc = true → pc ≠ B_select.
Proof. by destruct pc. Qed.

Lemma blocked_votes : evbca_submitVote 1 p3 (nd_st (config_votes p1)) = Block.
Proof. apply is_Block_eq. vm_compute. reflexivity. Qed.
Lemma bound_votes : ev_pcBind (nd_st (config_votes p1)) ≠ B_select.
Proof. apply past_select_neq. vm_compute. reflexivity. Qed.
End EvbcaExample.
Import Example4 EvbcaExample.

(** ** Theorems *)

(** C20: crusader agreement of [evbca].  Two correct processes that decide a
    value other than bot in a later round decide the same value, whatever they
    proposed with whatever coin. *)
Theorem evbca_crusader_agreement (mb : membership UUID) `{!Resilient mb} inputs
    (H : bca_config evbca) i j v w :
  bca_reachable mb inputs H → bca_correct mb i → bca_correct mb j →
  Decides H i v → Decides H j w → v ≠ bot → w ≠ bot → v = w.
Proof. intros Hr. by apply (crusader_agreement mb inputs), reachable_ok. Qed.

Lemma evbca_crusader_agreement_witness : Decides config1 p1 1 ∧ 1 = 1.
Proof.
  split; [exact ev_decides1_p1|].
  exact (evbca_crusader_agreement mb4 _ config1 p1 p2 1 1 ev_reachable1 ev_correct_p1 ev_correct_p2
    ev_decides1_p1 decides1_p2 ltac:(discriminate) ltac:(discriminate)).
Defined.

(** External validity of [evbca], the comment on the struct: when the
    correct processes that propose all propose [v], with whatever coins, no
    correct process decides anything but [v]. *)
Theorem evbca_validity (mb : membership UUID) `{!Resilient mb} inputs (H : bca_config evbca) v j d :
  v = 0 ∨ v = 1 → (∀ i p, bca_correct mb i → inputs i p → p.1 = v) →
  bca_reachable mb inputs H → bca_correct mb j → Decides H j d → d = v.
Proof. intros Hv Hin. by apply (only_decision mb inputs v Hv Hin). Qed.

Lemma evbca_validity_witness : Decides config1 p1 1 ∧ 1 = 1.
Proof.
  split; [exact ev_decides1_p1|].
  exact (evbca_validity mb4 _ config1 1 p1 1 (or_intror eq_refl) ev_ins1_value
    ev_reachable1 ev_correct_p1 ev_decides1_p1).
Defined.

(** C40: [submitBind] rejects binds of bot although [waitToBind] sends them, so
    once more than [f] correct processes have bound bot no correct process ever
    decides in this round. *)
Theorem evbca_bot_binds_stall (mb : membership UUID) `{!Resilient mb} inputs
    (H H' : bca_config evbca) (X : gset UUID) j d :
  bca_reachable mb inputs H → (∀ p, p ∈ X → bca_correct mb p ∧ Binds H p bot) →
  mb_f mb < Z.of_nat (size X) → rtc (bca_net_step mb inputs) H H' → bca_correct mb j →
  ¬ Decides H' j d.
Proof. apply bot_binds_stall. exact Resilient0. Qed.

Lemma evbca_bot_binds_stall_witness :
  bca_reachable mb4 (listed_inputs ins_mixed) config_mixed ∧ ¬ Decides config_mixed p1 0.
Proof.
  split; [exact reachable_mixed|].
  refine (evbca_bot_binds_stall mb4 _ config_mixed config_mixed {[p1; p2]} p1 0 reachable_mixed
    bot_bound_mixed _ _ ev_correct_p1).
  - vm_compute. reflexivity.
  - constructor.
Defined.

(** [bindValChan] can fill up for ever.  There is a reachable run in which
    the vote of a correct process makes [submitVote] block, and it still blocks
    after any steps of the goroutines and any receives by the owner. *)
Theorem evbca_vote_blocks_forever :
  ∃ (mb : membership UUID) inputs (H : bca_config evbca) j s v,
    Resilient mb ∧ bca_reachable mb inputs H ∧ bca_correct mb j ∧
    bca_event_ok mb inputs H j (EvMsg KVote v s) ∧
    ∀ es nd, Forall own_event es → bca_exec_list es (H j) = Some nd →
      bca_submitVote v s (nd_st nd) = Block.
Proof.
  exists mb4, (listed_inputs ins_mixed), config_votes, p1, p3, 1.
  split; [apply _|]. split; [exact reachable_votes|]. split; [exact ev_correct_p1|]. split.
  - split; [simpl; set_solver|right; exact p3_voted].
  - intros es nd Hes Hex.
    exact (blocked_for_ever 1 p3 es _ nd Hes Hex bound_votes blocked_votes).
Qed.

(** The other messages never block.  With at most two accepted proposals,
    echoes and binds of peers are always processed. *)
Theorem evbca_echo_bind_return (mb : membership UUID) `{!Resilient mb} inputs
    (H : bca_config evbca) j k v s :
  bca_reachable mb inputs H → bca_correct mb j → bca_event_ok mb inputs H j (EvMsg k v s) →
  k ≠ KVote → (length (nd_proposed (H j)) ≤ 2)%nat → returns (bca_submit k v s (nd_st (H j))).
Proof.
  intros Hr Hj [Hs _] Hk Hp.
  destruct (no_node _ _ _ (reachable_ok mb inputs H Hr) j Hj) as (tk & sn & _ & Hi).
  destruct k; [|done|].
  - destruct (post_returns _ _ _ (evbca_submitEcho_spec mb _ tk sn _ v s Hi Hs)) as (r & He & _);
      [lia|by exists r].
  - destruct (post_returns _ _ _ (evbca_submitBind_spec mb _ tk sn _ v s Hi Hs)) as (r & He & _);
      [tauto|by exists r].
Qed.

Lemma evbca_echo_bind_return_witness : returns (bca_submit KEcho 0 p4 (nd_st (config_votes p1))).
Proof.
  apply (evbca_echo_bind_return mb4 (listed_inputs ins_mixed) config_votes p1 KEcho 0 p4).
  - exact reachable_votes.
  - exact ev_correct_p1.
  - split; [simpl; set_solver|left; simpl; set_solver].
  - discriminate.
  - apply Nat.leb_le. vm_compute. reflexivity.
Defined.
