(* ===== verification/EvbcaLive.v ===== *)
(** * Progress of [evbca] from unanimous proposals

    What the handlers of a process have sent once it has counted enough, as far
    as its proposals are plain: a bit that is not the coin of the round before,
    which is what a round proposes that did not follow its coin.  In a network at
    rest with unanimous plain proposals every correct process decides them. *)

From stdpp Require Import base tactics numbers list fin_sets gmap functions relations.
From S2P Require Import Prelude Utils Bca BcaNet Evbca EvbcaCorrect.

Local Open Scope Z_scope.

(** Proposals that make [propose] echo, rather than shortcut. *)
Definition plain (pr : list (Z * Z)) : Prop := ∀ p, p ∈ pr → bit p.1 ∧ p.1 ≠ p.2.

Lemma plain_cons p pr : plain (p :: pr) → plain pr.
Proof. intros Hp q Hq. apply Hp. by right. Qed.

Section live.
Context (mb : membership UUID) `{!Resilient mb}.

#[local] Abbreviation n := (mb_n mb).
#[local] Abbreviation f := (mb_f mb).

(** [sn] are the values sent so far on each channel. *)
Record ev_live (pr : list (Z * Z)) (sn : bca_chans) (e : evbca) : Prop := {
  el_flag w : plain pr → bit w → elt false (ev_sentEchoes e) w = true → w ∈ sn CEcho;
  el_prop p : plain pr → p ∈ pr → elt false (ev_sentEchoes e) p.1 = true;
  el_echo w : bit w → f + 1 ≤ cnt e KEcho w → elt false (ev_sentEchoes e) w = true;
  el_appr w : bit w → n - f ≤ cnt e KEcho w → w ∈ sn CApprove;
  el_vote w : bit w → n - f ≤ cnt e KVote w → sn CBindVal ≠ [];
  el_bind w : bit w → n - f ≤ cnt e KBind w → sn CTermVal ≠ [];
}.

(** The invariant with the sends it justifies. *)
Definition ev_ok (pr : list (Z * Z)) (tk : bca_chans) (e : evbca) : Prop :=
  ∃ sn, ev_inv mb pr tk sn e ∧ ev_live pr sn e.

Lemma ev_live_init : ev_live [] none (newEVBCA n f).
Proof.
  pose proof (rs_arith mb).
  assert (Hz : ∀ k v, cnt (newEVBCA n f) k v = 0).
  { intros k v. unfold evbca_received. rewrite sets_empty by (destruct k; repeat constructor). by rewrite size_empty. }
  split; simpl.
  - by intros w _ [-> | ->].
  - intros p _ Hp. by apply not_elem_of_nil in Hp.
  - intros w _. rewrite Hz. lia.
  - intros w _. rewrite Hz. lia.
  - intros w _. rewrite Hz. lia.
  - intros w _. rewrite Hz. lia.
Qed.

(** More is sent; the counts and the flags stay. *)
Lemma ev_live_sends pr sn sn' e e' :
  ev_live pr sn e → (∀ k, evbca_received e' k = evbca_received e k) → ev_sentEchoes e' = ev_sentEchoes e →
  (∀ c, c ∈ handler_chans → sn c `prefix_of` sn' c) → ev_live pr sn' e'.
Proof.
  intros [] Hr Hf Hp.
  assert (Hin : ∀ c (w : Z), c ∈ handler_chans → w ∈ sn c → w ∈ sn' c).
  { intros c w Hc Hw. destruct (Hp c Hc) as [l ->]. apply elem_of_app. by left. }
  assert (Hne : ∀ c, c ∈ handler_chans → sn c ≠ [] → sn' c ≠ []).
  { intros c Hc. destruct (Hp c Hc) as [l ->]. by destruct (sn c). }
  split; rewrite ?Hf.
  - intros w ???. apply Hin; [unfold handler_chans; set_solver|auto].
  - done.
  - intros w. rewrite Hr. auto.
  - intros w ?. rewrite Hr. intros. apply Hin; [unfold handler_chans; set_solver|auto].
  - intros w ?. rewrite Hr. intros. apply Hne; [unfold handler_chans; set_solver|by eapply el_vote0].
  - intros w ?. rewrite Hr. intros. apply Hne; [unfold handler_chans; set_solver|by eapply el_bind0].
Qed.

(** A handler's send, and what it keeps. *)
Lemma ev_send_live pr tk sn e c v e' :
  ev_inv mb pr tk sn e → ev_live pr sn e → justified mb pr sn e c v → ev_send c v e = Done e' →
  ev_inv mb pr tk (<[c := sn c ++ [v]]> sn) e' ∧ ev_live pr (<[c := sn c ++ [v]]> sn) e' ∧ ∃ ch, e' = put_chans ch e.
Proof.
  intros Hi HL Hj Hs. pose proof (ev_send_spec mb pr tk sn e c v Hi Hj) as Hp. rewrite Hs in Hp.
  destruct Hp as [Hi' [ch ->]]. split; [done|]. split; [|by eexists].
  apply (ev_live_sends pr sn _ e); [done..|]. intros c' _. rewrite chan_upd_lookup.
  case_decide; [subst; by eexists|done].
Qed.

(** [broadcastEcho] sets one flag and sends one echo. *)
Lemma ev_broadcastEcho_done pr tk sn e v e' :
  ev_inv mb pr tk sn e → bit v → elt false (ev_sentEchoes e) v = false →
  ((∃ c, (v, c) ∈ pr) ∨ f + 1 ≤ cnt e KEcho v) → evbca_broadcastEcho v e = Done e' →
  ev_inv mb pr tk (<[CEcho := sn CEcho ++ [v]]> sn) e' ∧ (∀ k, evbca_received e' k = evbca_received e k) ∧
  elt false (ev_sentEchoes e') v = true ∧
  ∀ w, bit w → elt false (ev_sentEchoes e') w = true ↔ v = w ∨ elt false (ev_sentEchoes e) w = true.
Proof.
  intros Hi Hv Hf Hwhy Hs. pose proof (ev_broadcastEcho_spec mb pr tk sn e v Hi Hv Hf Hwhy) as Hp.
  pose proof (e_len _ _ _ _ _ Hi) as (Hl & _). rewrite Hs in Hp. destruct Hp as [Hi' _].
  unfold evbca_broadcastEcho in Hs. rewrite slice_set_Done in Hs by lia. simpl in Hs.
  unfold ev_send in Hs. simpl in Hs. destruct (chan_send _ _ _ _) as [ch| |]; [|done..]. injection Hs as <-.
  split; [done|]. split; [done|]. split; simpl.
  - rewrite elt_insert by lia. by rewrite decide_True.
  - intros w Hw. rewrite elt_insert by lia. destruct (decide (v = w)); naive_solver.
Qed.

Lemma prefix_upd (sn : bca_chans) c v c' : sn c' `prefix_of` (<[c := sn c ++ [v]]> sn) c'.
Proof. rewrite chan_upd_lookup. case_decide; [subst; by eexists|done]. Qed.

Lemma snoc_nonnil {A} (l : list A) x : l ++ [x] ≠ [].
Proof. by intros [_ ?]%app_eq_nil. Qed.

(** ** Handlers *)

(** Accepting a proposal that is not plain says nothing about the flags. *)
Lemma ev_live_shortcut pr sn e p :
  ev_live pr sn e → ¬ (bit p.1 ∧ p.1 ≠ p.2) → ev_live (p :: pr) sn e.
Proof.
  intros [] Hp. assert (Hn : ¬ plain (p :: pr)) by (intros Hpl; apply Hp, Hpl; by left).
  split; [by intros|by intros|done..].
Qed.

(** The flags may change when the proposals are not plain. *)
Lemma ev_live_flags pr sn e se :
  ev_live pr sn e → ¬ plain pr →
  (∀ w, bit w → elt false (ev_sentEchoes e) w = true → elt false se w = true) → ev_live pr sn (put_sentEchoes se e).
Proof. intros [] Hn Hse. split; simpl; try done. intros w Hw Hq. apply Hse; [done|]. by apply el_echo0. Qed.

Lemma ev_mark_flags (l : list bool) v w :
  length l = 2%nat → bit v → bit w → elt false l w = true → elt false (<[Z.to_nat v := true]> l) w = true.
Proof. intros Hl Hv Hw He. rewrite elt_insert by lia. by destruct (decide (v = w)). Qed.

(** The branches of [propose] that echo nothing: [fastForward] and [voteOnCoin]. *)
Lemma ev_fastForward_live pr tk sn e est e' :
  ev_inv mb pr tk sn e → ev_live pr sn e → ¬ plain pr → (est, est) ∈ pr → bit est →
  (length (sn CApprove) < quorum_flag mb e 0 + quorum_flag mb e 1 + length pr)%nat →
  fastForward est e = Done e' → ev_ok pr tk e'.
Proof.
  intros Hi HL Hn Hp Hv Hc. unfold fastForward.
  destruct (ev_mark_inv mb pr tk sn e est Hi Hv) as (se & Hse & Hi1 & Hl & _). rewrite Hse. simpl.
  pose proof (e_len _ _ _ _ _ Hi) as (Hl0 & _). rewrite slice_set_Done in Hse by lia. injection Hse as <-.
  assert (HL1 : ev_live pr sn (put_sentEchoes (<[Z.to_nat est := true]> (ev_sentEchoes e)) e)).
  { apply ev_live_flags; [done..|]. intros w Hw. by apply ev_mark_flags. }
  destruct (ev_send CApprove est _) as [e1| |] eqn:Hs1; [|done..]. simpl. intros Hs2.
  destruct (ev_send_live _ _ _ _ CApprove est e1 Hi1 HL1) as (Hi2 & HL2 & ch & ->); [|done|].
  { split_and!; [done| |done]. right. by left. }
  destruct (ev_send_live _ _ _ _ CBindVal est e' Hi2 HL2) as (Hi3 & HL3 & _); [|done|by eexists].
  split; [done|]. by right.
Qed.

Lemma ev_voteOnCoin_live pr tk sn e c e' :
  ev_inv mb pr tk sn e → ev_live pr sn e → ¬ plain pr → (bot, c) ∈ pr → bit c →
  (length (sn CApprove) < quorum_flag mb e 0 + quorum_flag mb e 1 + length pr)%nat →
  voteOnCoin c e = Done e' → ev_ok pr tk e'.
Proof.
  intros Hi HL Hn Hp Hv Hc. unfold voteOnCoin.
  destruct (ev_mark_inv mb pr tk sn e c Hi Hv) as (se & Hse & Hi1 & Hl & _). rewrite Hse. simpl.
  destruct (ev_mark_inv mb pr tk sn _ (1 - c) Hi1) as (se' & Hse' & Hi2 & Hl' & _); [lia|].
  simpl in Hse'. rewrite Hse'. simpl. pose proof (e_len _ _ _ _ _ Hi) as (Hl0 & _).
  rewrite slice_set_Done in Hse by lia. injection Hse as <-. rewrite slice_set_Done in Hse' by lia. injection Hse' as <-.
  intros Hs. destruct (ev_send_live pr tk sn (put_sentEchoes (<[Z.to_nat (1 - c) := true]> (<[Z.to_nat c := true]> (ev_sentEchoes e))) e) CApprove c e')
    as (Hi3 & HL3 & _); [exact Hi2| | |done|by eexists].
  - apply ev_live_flags; [done..|]. intros w Hw Hf. apply ev_mark_flags; [by rewrite length_insert|lia|done|].
    by apply ev_mark_flags.
  - split_and!; [done| |done]. right. by right.
Qed.

Lemma ev_live_echo pr sn e v e' :
  ev_live pr sn e → (∀ k, evbca_received e' k = evbca_received e k) → bit v →
  (∀ w, bit w → elt false (ev_sentEchoes e') w = true ↔ v = w ∨ elt false (ev_sentEchoes e) w = true) →
  ev_live pr (<[CEcho := sn CEcho ++ [v]]> sn) e'.
Proof.
  intros [] Hr Hv Hf. split; chan_simpl.
  - intros w Hp Hw. rewrite Hf by done. rewrite elem_of_app, list_elem_of_singleton. intros [->|?]; [by right|left; auto].
  - intros p Hp Hin. apply Hf; [by apply Hp|]. right. auto.
  - intros w Hw. rewrite Hr. intros Hq. apply Hf; [done|]. right. auto.
  - intros w. rewrite Hr. auto.
  - intros w. rewrite Hr. eauto.
  - intros w. rewrite Hr. eauto.
Qed.

Lemma propose_ev_ok pr tk e est coin e' err :
  ev_ok pr tk e → evbca_propose est coin e = Done (e', err) →
  ev_ok (if err is Some _ then pr else (est, coin) :: pr) tk e'.
Proof.
  intros (sn & Hi & HL). unfold evbca_propose.
  destruct ((bot <? est) || (est <? 0)) eqn:Hest; simpl; [intros [= <- <-]; by exists sn|].
  destruct (isInputValid coin) eqn:Hcoin; simpl; [|intros [= <- <-]; by exists sn].
  apply isInputValid_spec in Hcoin. apply orb_false_iff in Hest as [He1%Z.ltb_ge He2%Z.ltb_ge].
  pose proof (ev_inv_propose mb _ _ _ _ (est, coin) Hi) as Hi'.
  assert (Hcount : (length (sn CApprove) < quorum_flag mb e 0 + quorum_flag mb e 1 + length ((est, coin) :: pr))%nat)
    by (pose proof (e_count _ _ _ _ _ Hi); simpl; lia).
  destruct (Z.eqb_spec est coin) as [->|Hne].
  { destruct (fastForward coin e) as [e1| |] eqn:Hf; [|done..]. simpl. intros [= <- <-].
    assert (¬ plain ((coin, coin) :: pr)) as Hn by (intros Hpl; by destruct (Hpl (coin, coin)); [left|]).
    apply (ev_fastForward_live _ _ sn e coin); try done; [|by left].
    apply ev_live_shortcut; [done|]. by intros [_ ?]. }
  destruct (Z.eqb_spec est bot) as [->|Hnb].
  { destruct (voteOnCoin coin e) as [e1| |] eqn:Hf; [|done..]. simpl. intros [= <- <-].
    assert (Hnbit : ¬ (bit bot)) by (unfold bot; lia).
    assert (¬ plain ((bot, coin) :: pr)) as Hn by (intros Hpl; by destruct (Hpl (bot, coin)); [left|]).
    apply (ev_voteOnCoin_live _ _ sn e coin); try done; [|by left].
    apply ev_live_shortcut; [done|]. by intros [? _]. }
  assert (Hbit : bit est) by (unfold bot in *; lia).
  pose proof (e_len _ _ _ _ _ Hi) as (Hl & _). rewrite (slice_get_elt false) by lia. simpl.
  assert (Hrec : ∀ sn1 e1, ev_live pr sn1 e1 → elt false (ev_sentEchoes e1) est = true → ev_live ((est, coin) :: pr) sn1 e1).
  { intros sn1 e1 [] Hf. split; try done.
    - intros w Hp. apply el_flag0. by apply plain_cons in Hp.
    - intros p Hp [->|Hin]%elem_of_cons; [done|]. apply el_prop0; [by apply plain_cons in Hp|done]. }
  destruct (if elt false (ev_sentEchoes e) est : bool then _ else _) as [e1| |] eqn:Hb; [|done..].
  cbn [mbind outcome_bind]. destruct (ev_send CPrevCoin coin e1) as [e2| |] eqn:Hs; [|done..].
  cbn [mbind outcome_bind]. intros [= <- <-].
  assert (∃ sn1, ev_inv mb ((est, coin) :: pr) tk sn1 e1 ∧ ev_live ((est, coin) :: pr) sn1 e1) as (sn1 & Hi1 & HL1).
  { destruct (elt false (ev_sentEchoes e) est) eqn:Hf.
    - injection Hb as <-. exists sn. split; [done|]. by apply Hrec.
    - destruct (ev_broadcastEcho_done _ tk sn e est e1 Hi' Hbit Hf) as (Hi1 & Hr1 & Hf1 & Hfl);
        [left; exists coin; by left|done|]. eexists. split; [exact Hi1|]. apply Hrec; [|done].
      apply (ev_live_echo pr sn e est); auto. }
  destruct (ev_send_live _ _ _ _ CPrevCoin coin e2 Hi1 HL1 I Hs) as (? & ? & _). by eexists.
Qed.

(** Counting one message more: only what it completes has to be shown. *)
Lemma ev_live_fresh pr sn sn' k v s e e1 e' :
  ev_live pr sn e → ev_fresh k v s e e1 →
  (∀ k, evbca_received e' k = evbca_received e1 k) →
  (∀ w, bit w → elt false (ev_sentEchoes e1) w = true → elt false (ev_sentEchoes e') w = true) →
  (∀ c, c ∈ handler_chans → sn c `prefix_of` sn' c) →
  (∀ w, plain pr → bit w → elt false (ev_sentEchoes e') w = true →
     elt false (ev_sentEchoes e1) w = true ∨ w ∈ sn' CEcho) →
  match k with
  | KEcho => (cnt e1 k v = f + 1 → elt false (ev_sentEchoes e') v = true) ∧ (cnt e1 k v = n - f → v ∈ sn' CApprove)
  | KVote => cnt e1 k v = n - f → sn' CBindVal ≠ []
  | KBind => cnt e1 k v = n - f → sn' CTermVal ≠ []
  end → ev_live pr sn' e'.
Proof.
  intros [] (Hr & (_ & _ & Hf & _) & Hnew) Hr' Hmono Hp Hflag Hk.
  assert (Hin : ∀ c (w : Z), c ∈ handler_chans → w ∈ sn c → w ∈ sn' c).
  { intros c w Hc Hw. destruct (Hp c Hc) as [l ->]. apply elem_of_app. by left. }
  assert (Hne : ∀ c, c ∈ handler_chans → sn c ≠ [] → sn' c ≠ []).
  { intros c Hc. destruct (Hp c Hc) as [l ->]. by destruct (sn c). }
  pose proof (recv_step_new _ _ _ _ _ Hr Hnew) as Hcnt.
  assert (Hq : ∀ k' w q, q ≤ cnt e' k' w → q ≤ cnt e k' w ∨ (k' = k ∧ w = v ∧ q = cnt e1 k v)).
  { intros k' w q. rewrite Hr'. destruct (decide (k' = k ∧ w = v)) as [[-> ->]|Hd].
    - intros Hle. destruct (decide (q = cnt e1 k v)); [by right|left; lia].
    - rewrite Hr, decide_False by done. by left. }
  assert (Hold : ∀ w, bit w → elt false (ev_sentEchoes e) w = true → elt false (ev_sentEchoes e') w = true)
    by (intros w; rewrite <-Hf; apply Hmono).
  split.
  - intros w Hpl Hw He. destruct (Hflag w Hpl Hw He) as [He1|?]; [|done].
    rewrite Hf in He1. apply Hin; [unfold handler_chans; set_solver|auto].
  - intros p Hpl Hin0. apply Hold; [by apply Hpl|auto].
  - intros w Hw Hle. destruct (Hq _ _ _ Hle) as [?|(<- & -> & He)]; [auto|by apply Hk].
  - intros w Hw Hle. destruct (Hq _ _ _ Hle) as [?|(<- & -> & He)]; [|by apply Hk].
    apply Hin; [unfold handler_chans; set_solver|auto].
  - intros w Hw Hle. destruct (Hq _ _ _ Hle) as [?|(<- & -> & He)]; [|by apply Hk].
    apply Hne; [unfold handler_chans; set_solver|by eapply el_vote0].
  - intros w Hw Hle. destruct (Hq _ _ _ Hle) as [?|(<- & -> & He)]; [|by apply Hk].
    apply Hne; [unfold handler_chans; set_solver|by eapply el_bind0].
Qed.

Lemma submitVote_ev_ok pr tk e v s e' err :
  ev_ok pr tk e → s ∈ peers mb → evbca_submitVote v s e = Done (e', err) → ev_ok pr tk e'.
Proof.
  intros (sn & Hi & HL) Hs. destruct (ev_submitVote_shape mb _ _ _ _ v s Hi) as [[e0 ->]|(Hv & e1 & Hfr & ->)];
    [intros [= <- _]; by exists sn|].
  destruct (ev_fresh_inv mb _ _ _ _ _ _ _ _ Hi Hs Hv Hfr) as [Hi1 Hcnt]; [done|].
  destruct (if _ && _ then _ else _) as [e2| |] eqn:Hb; [|done..]. cbn [mbind outcome_bind]. intros [= <- _].
  destruct (Z.eqb_spec (cnt e1 KVote v) (n - f)) as [Heq|Hneq]; simpl in Hb;
    [destruct (Z.ltb_spec (cnt e KVote (1 - v)) (n - f)) as [Hlt|Hge]; simpl in Hb|].
  - pose proof (ev_send_spec mb pr tk sn e1 CBindVal v Hi1) as Hp. rewrite Hb in Hp.
    destruct Hp as [Hi2 [ch ->]]; [split; [done|left; lia]|]. eexists. split; [exact Hi2|].
    apply (ev_live_fresh pr sn _ KVote v s e e1); try done; [intros; apply prefix_upd|by left|].
    intros _. rewrite fn_lookup_insert. apply snoc_nonnil.
  - injection Hb as <-. exists sn. split; [done|].
    apply (ev_live_fresh pr sn _ KVote v s e e1); try done; [by left|].
    intros _. apply (el_vote _ _ _ HL (1 - v)); [lia|done].
  - injection Hb as <-. exists sn. split; [done|].
    apply (ev_live_fresh pr sn _ KVote v s e e1); try done; by left.
Qed.

Lemma submitBind_ev_ok pr tk e v s e' err :
  ev_ok pr tk e → s ∈ peers mb → evbca_submitBind v s e = Done (e', err) → ev_ok pr tk e'.
Proof.
  intros (sn & Hi & HL) Hs. destruct (ev_submitBind_shape mb _ _ _ _ v s Hi) as [[e0 ->]|(Hv & Hsv & e1 & Hfr & ->)];
    [intros [= <- _]; by exists sn|].
  destruct (ev_fresh_inv mb _ _ _ _ _ _ _ _ Hi Hs Hv Hfr) as [Hi1 Hcnt]; [done|].
  destruct (ev_term_justified mb _ _ _ _ _ _ _ Hi Hi1 Hv Hfr) as [Hval Hbot].
  destruct (if _ =? n - f then _ else _) as [e2| |] eqn:Hb; [|done..]. cbn [mbind outcome_bind]. intros [= <- _].
  destruct (Z.eqb_spec (cnt e1 KBind v) (n - f)) as [Heq|Hneq];
    [|destruct (Z.eqb_spec (binds_total e1) (n - f)) as [Heq|]].
  - pose proof (ev_send_spec mb pr tk sn e1 CTermVal v Hi1 (proj1 (Hval Heq))) as Hp. rewrite Hb in Hp.
    destruct Hp as [Hi2 [ch ->]]. eexists. split; [exact Hi2|].
    apply (ev_live_fresh pr sn _ KBind v s e e1); try done; [intros; apply prefix_upd|by left|].
    intros _. rewrite fn_lookup_insert. apply snoc_nonnil.
  - pose proof (ev_send_spec mb pr tk sn e1 CTermBot 0 Hi1 (proj1 (Hbot Heq))) as Hp. rewrite Hb in Hp.
    destruct Hp as [Hi2 [ch ->]]. eexists. split; [exact Hi2|].
    apply (ev_live_fresh pr sn _ KBind v s e e1); try done; [intros; apply prefix_upd|by left].
  - injection Hb as <-. exists sn. split; [done|].
    apply (ev_live_fresh pr sn _ KBind v s e e1); try done; by left.
Qed.

Lemma submitEcho_ev_ok pr tk e v s e' err :
  ev_ok pr tk e → s ∈ peers mb → evbca_submitEcho v s e = Done (e', err) → ev_ok pr tk e'.
Proof.
  intros (sn & Hi & HL) Hs. destruct (ev_submitEcho_shape mb _ _ _ _ v s Hi) as [[e0 ->]|(Hv & e1 & Hfr & ->)];
    [intros [= <- _]; by exists sn|].
  destruct (ev_fresh_inv mb _ _ _ _ _ _ _ _ Hi Hs Hv Hfr) as [Hi1 Hcnt]; [done|].
  pose proof Hfr as (Hst & (_ & _ & Hse & _) & _). destruct (rs_arith mb) as (? & ? & ? & _ & Hnf & _ & Hinf).
  destruct (if (_ =? f + 1) && _ then _ else _) as [e2| |] eqn:Hb; [|done..]. cbn [mbind outcome_bind].
  (* the echo *)
  assert (∃ sn2, ev_inv mb pr tk sn2 e2 ∧ (∀ k, evbca_received e2 k = evbca_received e1 k) ∧
    (∀ w, bit w → elt false (ev_sentEchoes e1) w = true → elt false (ev_sentEchoes e2) w = true) ∧
    (∀ c, sn c `prefix_of` sn2 c) ∧ sn2 CApprove = sn CApprove ∧
    (∀ w, plain pr → bit w → elt false (ev_sentEchoes e2) w = true →
       elt false (ev_sentEchoes e1) w = true ∨ w ∈ sn2 CEcho) ∧
    (cnt e1 KEcho v = f + 1 → elt false (ev_sentEchoes e2) v = true)) as (sn2 & Hi2 & Hr2 & Hf2 & Hp2 & Ha2 & He2 & Hq2).
  { destruct (Z.eqb_spec (cnt e1 KEcho v) (f + 1)) as [Heq|Hneq]; simpl in Hb;
      [destruct (elt false (ev_sentEchoes e) v) eqn:Hfl; simpl in Hb|].
    - injection Hb as <-. exists sn. split_and!; try done; [by left|]. intros _. by rewrite Hse.
    - destruct (ev_broadcastEcho_done pr tk sn e1 v e2 Hi1 Hv) as (Hi2 & Hr2 & Hfv & Hfle);
        [by rewrite Hse|right; lia|done|].
      eexists. split; [exact Hi2|]. split_and!; [done| |intros; apply prefix_upd|by chan_simpl| |done].
      + intros w Hw ?. apply Hfle; auto.
      + intros w _ Hw He. apply Hfle in He as [<-|?]; [right|by left|done]. rewrite fn_lookup_insert. set_solver.
    - injection Hb as <-. exists sn. split_and!; try done; by left. }
  destruct (e_conf _ _ _ _ _ Hi2) as [-> ->]. rewrite Hnf, Hinf.
  destruct (if _ =? n - f then _ else _) as [e3| |] eqn:Hb3; [|done..]. cbn [mbind outcome_bind]. intros [= <- _].
  destruct (Z.eqb_spec (cnt e1 KEcho v) (n - f)) as [Heq|Hneq].
  - assert (Hj : justified mb pr sn2 e2 CApprove v).
    { split_and!; [done|left; rewrite Hr2; lia|]. rewrite Ha2.
      by apply (ev_approve_room mb pr tk sn e e1 e2 v s). }
    pose proof (ev_send_spec mb pr tk sn2 e2 CApprove v Hi2 Hj) as Hp. rewrite Hb3 in Hp.
    destruct Hp as [Hi3 [ch ->]]. eexists. split; [exact Hi3|].
    apply (ev_live_fresh pr sn _ KEcho v s e e1); try done.
    + intros c _. etrans; [apply Hp2|apply prefix_upd].
    + split; [done|]. intros _. rewrite fn_lookup_insert. set_solver.
  - injection Hb3 as <-. exists sn2. split; [done|]. by apply (ev_live_fresh pr sn _ KEcho v s e e1).
Qed.

(** ** Every reachable state of a correct process *)

Definition ev_node_live (nd : bca_node evbca) : Prop :=
  ∃ tk, (∀ c, c ∈ out_chans → tk c = nd_taken nd c) ∧ ev_ok (nd_proposed nd) tk (nd_st nd).

Lemma ev_live_same pr sn sn' e e' :
  ev_live pr sn e → (∀ k, evbca_received e' k = evbca_received e k) → ev_sentEchoes e' = ev_sentEchoes e →
  (∀ c, c ∈ handler_chans → sn' c = sn c) → ev_live pr sn' e'.
Proof. intros HL Hr Hf Hs. apply (ev_live_sends pr sn _ e); [done..|]. intros c Hc. by rewrite Hs. Qed.

Lemma exec_ev_live ev (nd nd' : bca_node evbca) :
  ev_node_live nd → (∀ k v s, ev = EvMsg k v s → s ∈ peers mb) → bca_exec ev nd = Some nd' → ev_node_live nd'.
Proof.
  intros (tk & Ht & Hok) Hs Hex. destruct ev as [est coin|v|k v s|g br|c]; cbn [bca_exec] in Hex;
    apply bind_Some in Hex as (r & Hr & Hex).
  - destruct r as [st err]. injection Hex as <-. exists tk. split; [done|]. cbn [nd_proposed nd_st].
    apply (propose_ev_ok _ _ (nd_st nd)); [done|]. cbn [bca_propose evbca_BCA] in Hr.
    by destruct (evbca_propose est coin (nd_st nd)); [injection Hr as ->|..].
  - injection Hex as <-. exists tk. split; [done|]. cbn [nd_proposed nd_st]. destruct Hok as (sn & Hi & HL).
    cbn [bca_submitExternallyValid evbca_BCA] in Hr. unfold evbca_submitExternallyValid in Hr.
    destruct (ev_send CInputExt v (nd_st nd)) as [e1| |] eqn:He; [|done..]. injection Hr as ->.
    destruct (ev_send_live _ _ _ _ CInputExt v r Hi HL I He) as (? & ? & _). by eexists.
  - destruct r as [st err]. injection Hex as <-. exists tk. split; [done|]. cbn [nd_proposed nd_st].
    specialize (Hs k v s eq_refl). destruct k; cbn [bca_submit] in Hr;
      cbn [bca_submitEcho bca_submitVote bca_submitBind evbca_BCA] in Hr;
      match type of Hr with done_opt ?o = _ => destruct o as [[e1 err1]| |] eqn:Hp; [|done..] end;
      injection Hr as -> ->;
      [by eapply submitEcho_ev_ok|by eapply submitVote_ev_ok|by eapply submitBind_ev_ok].
  - injection Hex as <-. destruct Hok as (sn & Hi & HL).
    destruct (evbca_step_ok mb _ _ _ _ g br r Hi Hr) as (tk' & sn' & Hi' & Hto & Hrc & Hf & Hsn).
    exists tk'. split; [intros c Hc; rewrite Hto by done; by apply Ht|]. exists sn'. split; [done|].
    by apply (ev_live_same _ sn _ (nd_st nd)).
  - destruct r as [v st]. injection Hex as <-. destruct Hok as (sn & Hi & HL).
    destruct (evbca_take_ok mb _ _ _ _ c v st Hi Hr) as (Hc & Hi' & Hrc). cbn [nd_proposed nd_st].
    eexists. split; [|exists sn; split; [exact Hi'|]].
    + intros c' Hc'. cbn [nd_taken]. rewrite !chan_upd_lookup, !Ht by done. done.
    + apply (ev_live_same _ sn _ (nd_st nd)); [done|done| |done].
      cbn in Hr. unfold evbca_take in Hr. case_decide; [|done].
      by apply bind_Some in Hr as ([w ch] & _ & [= _ <-]).
Qed.

(** ** A process at rest *)

Record ev_idle (nd : bca_node evbca) : Prop := {
  ei_step g br : evbca_step g br (nd_st nd) = None;
  ei_take c : evbca_take c (nd_st nd) = None;
}.

Section idle.
Context (nd : bca_node evbca) (tk sn : bca_chans) (Ht : ∀ c, c ∈ out_chans → tk c = nd_taken nd c).
Context (Hi : ev_inv mb (nd_proposed nd) tk sn (nd_st nd)) (Hidle : ev_idle nd).

#[local] Abbreviation st := (nd_st nd).

Lemma ei_queue c : c ∈ out_chans → ev_chans st c = [].
Proof.
  intros Hc. pose proof (ei_take _ Hidle c) as Hn. unfold evbca_take in Hn. rewrite decide_True in Hn by done.
  unfold chan_recv in Hn. by destruct (ev_chans st c).
Qed.

Lemma ei_sent c : c ∈ out_chans → sn c = nd_taken nd c.
Proof. intros Hc. by rewrite (e_link _ _ _ _ _ Hi c), ei_queue, app_nil_r, Ht. Qed.

(** A send on a channel of the owner does not wait. *)
Lemma ei_go_send c v : c ∈ out_chans → go_send evbca_cap c v (ev_chans st) ≠ None.
Proof.
  intros Hc. unfold go_send, chan_send. rewrite ei_queue by done. simpl.
  rewrite decide_True; [done|]. unfold out_chans in Hc. destruct c; simpl; try lia; set_solver.
Qed.

Lemma ei_empty c (s : bca_chans) : chan_recv c s = None → s c = [].
Proof. unfold chan_recv. by destruct (s c). Qed.

Lemma ei_voted v : v ∈ sn CApprove → ∃ x, x ∈ nd_taken nd CVote.
Proof.
  intros Hv. rewrite <-ei_sent by (unfold out_chans; set_solver).
  pose proof (ei_step _ Hidle GoVote) as Hs. pose proof (e_vote _ _ _ _ _ Hi) as Hh.
  unfold evbca_step, evbca_waitToVote in Hs. destruct (ev_pcVote st) as [|x|x|x ap|x| | | |] eqn:Hpc; simpl in Hh.
  - specialize (Hs CApprove). cbn in Hs. destruct (chan_recv CApprove (ev_chans st)) as [[? ?]|] eqn:Hr; [done|].
    apply ei_empty in Hr. rewrite (e_link _ _ _ _ _ Hi CApprove), Hr in Hv. destruct Hh as (Ha & _). rewrite Ha in Hv.
    by apply not_elem_of_nil in Hv.
  - specialize (Hs CExt). cbn in Hs. destruct (go_send evbca_cap CExt x (ev_chans st)) eqn:Hr; [done|].
    by apply ei_go_send in Hr; [|unfold out_chans; set_solver].
  - specialize (Hs CVote). cbn in Hs. destruct (go_send evbca_cap CVote x (ev_chans st)) eqn:Hr; [done|].
    by apply ei_go_send in Hr; [|unfold out_chans; set_solver].
  - destruct Hh as (_ & -> & _). exists x. by left.
  - destruct Hh as (y & _ & _ & -> & _). exists y. by left.
  - destruct Hh as (y & _ & _ & -> & _). exists y. by left.
  - destruct Hh as (y & _ & _ & -> & _). exists y. by left.
  - destruct Hh as (y & _ & _ & -> & _). exists y. by left.
  - destruct Hh as (y & _ & -> & _). exists y. by left.
Qed.

Lemma ei_bound : sn CBindVal ≠ [] → ∃ b, b ∈ nd_taken nd CBind.
Proof.
  intros Hv. rewrite <-ei_sent by (unfold out_chans; set_solver).
  pose proof (ei_step _ Hidle GoBind) as Hs. pose proof (e_bind _ _ _ _ _ Hi) as Hh.
  unfold evbca_step, evbca_waitToBind, waitToBind_step in Hs. destruct (ev_pcBind st) as [|x|] eqn:Hpc; simpl in Hh.
  - specialize (Hs CBindVal). cbn in Hs. destruct (chan_recv CBindVal (ev_chans st)) as [[? ?]|] eqn:Hr; [done|].
    apply ei_empty in Hr. destruct Hv. by rewrite (e_link _ _ _ _ _ Hi CBindVal), Hr, (proj1 (proj2 Hh)).
  - specialize (Hs CBind). cbn in Hs. destruct (go_send evbca_cap CBind x (ev_chans st)) eqn:Hr; [done|].
    by apply ei_go_send in Hr; [|unfold out_chans; set_solver].
  - destruct Hh as (b & _ & ->). exists b. by left.
Qed.

Lemma ei_decided : sn CTermVal ≠ [] → ∃ d, d ∈ nd_taken nd COut.
Proof.
  intros Hv. rewrite <-ei_sent by (unfold out_chans; set_solver).
  pose proof (ei_step _ Hidle GoDecide) as Hs. pose proof (e_decide _ _ _ _ _ Hi) as Hh.
  unfold evbca_step, evbca_waitToDecide, waitToDecide_step in Hs.
  assert (Hq : chan_recv CTermVal (ev_chans st) = None → tk CTermVal = [] → False).
  { intros Hr%ei_empty Hn. apply Hv. by rewrite (e_link _ _ _ _ _ Hi CTermVal), Hr, Hn. }
  destruct (ev_pcDecide st) as [| |x| |] eqn:Hpc; simpl in Hh.
  - specialize (Hs CTermVal). cbn in Hs. destruct (chan_recv CTermVal (ev_chans st)) as [[? ?]|]; [done|].
    destruct Hh as (? & _). by destruct Hq.
  - specialize (Hs CTermVal). cbn in Hs. destruct (chan_recv CTermVal (ev_chans st)) as [[? ?]|]; [done|].
    destruct Hh as (? & _). by destruct Hq.
  - specialize (Hs COut). cbn in Hs. destruct (go_send evbca_cap COut x (ev_chans st)) eqn:Hr; [done|].
    by apply ei_go_send in Hr; [|unfold out_chans; set_solver].
  - destruct Hh as (d & _ & -> & _). exists d. by left.
  - destruct Hh as (d & _ & -> & _). exists d. by left.
Qed.
End idle.

(** ** A network at rest *)

Section rest.
Context (inputs : UUID → Z * Z → Prop) (v : Z) (Hv : bit v).
(** All correct processes propose [v], and the coin before was the other bit. *)
Context (Hin : ∀ j p, bca_correct mb j → inputs j p → p.1 = v ∧ p.1 ≠ p.2).

#[local] Abbreviation Correct := (bca_correct mb).
Implicit Types H : bca_config evbca.

(** Every correct process has proposed and is idle, and has counted every
    message of every correct process. *)
Record ev_at_rest H : Prop := {
  er_proposed j : Correct j → nd_proposed (H j) ≠ [];
  er_idle j : Correct j → ev_idle (H j);
  er_delivered i j k w : Correct i → Correct j → w ∈ nd_taken (H i) (kind_chan k) →
    i ∈ evbca_received (nd_st (H j)) k w;
}.

Lemma ev_net_live H : bca_reachable mb inputs H → ∀ j, Correct j → ev_node_live (H j).
Proof.
  revert H. apply (rtc_ind_r (R := bca_net_step mb inputs) (λ H, ∀ j, Correct j → ev_node_live (H j))).
  - intros j _. exists none. split; [done|]. exists none. split; [by apply ev_inv_init|apply ev_live_init].
  - intros H H' _ [j e nd Hj Hok Hex] HL i Hi. destruct (decide (j = i)) as [<-|].
    + rewrite fn_lookup_insert. apply (exec_ev_live e (H j)); [by apply HL| |done]. intros k w s ->. apply Hok.
    + rewrite fn_lookup_insert_ne by done. by apply HL.
Qed.

Section decide.
Context (H : bca_config evbca) (Hr : bca_reachable mb inputs H) (Hrest : ev_at_rest H).

Lemma er_net : net_ok mb inputs H.
Proof. by apply reachable_ok. Qed.

(** A message of all correct processes has a quorum everywhere. *)
Lemma er_quorum j k w :
  Correct j → (∀ i, Correct i → w ∈ nd_taken (H i) (kind_chan k)) → n - f ≤ cnt (nd_st (H j)) k w.
Proof.
  intros Hj Hall. etrans; [apply (correct_quorum mb)|]. apply Nat2Z.inj_le, subseteq_size. intros i Hi.
  assert (Correct i) by (split; set_solver). by apply (er_delivered H Hrest); [..|apply Hall].
Qed.

Lemma er_plain j : Correct j → plain (nd_proposed (H j)).
Proof.
  intros Hj p Hp. destruct (Hin j p Hj (no_inputs mb inputs H er_net j p Hj Hp)) as [He Hne].
  split; [by rewrite He|done].
Qed.

Lemma er_echo j : Correct j → v ∈ nd_taken (H j) CEcho.
Proof.
  intros Hj. destruct (ev_net_live H Hr j Hj) as (tk & Ht & sn & Hi & HL).
  rewrite <-(ei_sent _ tk sn Ht Hi (er_idle H Hrest j Hj)) by (unfold out_chans; set_solver).
  pose proof (er_proposed H Hrest j Hj) as Hne. destruct (nd_proposed (H j)) as [|p l] eqn:Hpr; [done|].
  assert (Hp : p ∈ nd_proposed (H j)) by (rewrite Hpr; by left).
  destruct (Hin j p Hj (no_inputs mb inputs H er_net j p Hj Hp)) as [He _].
  pose proof (er_plain j Hj) as Hpl. rewrite Hpr in Hpl. rewrite <-He.
  apply (el_flag _ _ _ HL); [done|by apply Hpl; left|]. apply (el_prop _ _ _ HL); [done|by left].
Qed.

Lemma er_vote j : Correct j → v ∈ nd_taken (H j) CVote.
Proof.
  intros Hj. destruct (ev_net_live H Hr j Hj) as (tk & Ht & sn & Hi & HL).
  destruct (ei_voted (H j) tk sn Ht Hi (er_idle H Hrest j Hj) v) as [x Hx].
  { apply (el_appr _ _ _ HL); [done|]. apply er_quorum; [done|apply er_echo]. }
  destruct (law_vote (T := evbca) (mb := mb) (H j) x) as [Hxb _]; [by apply (no_node mb inputs H er_net)|done|].
  destruct (decide (x = v)) as [->|Hne]; [done|]. assert (x = 1 - v) as -> by lia.
  assert (Hin1 : ∀ j p, Correct j → inputs j p → p.1 = v) by (intros; by eapply Hin).
  by destruct (no_vote (T := evbca) mb inputs v Hv Hin1 H j Hr Hj).
Qed.

Lemma er_bind j : Correct j → v ∈ nd_taken (H j) CBind.
Proof.
  intros Hj. destruct (ev_net_live H Hr j Hj) as (tk & Ht & sn & Hi & HL).
  destruct (ei_bound (H j) tk sn Ht Hi (er_idle H Hrest j Hj)) as [x Hx].
  { apply (el_vote _ _ _ HL v); [done|]. apply er_quorum; [done|apply er_vote]. }
  assert (Hin1 : ∀ j p, Correct j → inputs j p → p.1 = v) by (intros; by eapply Hin).
  by rewrite <-(only_bind (T := evbca) mb inputs v Hv Hin1 H j x Hr Hj Hx).
Qed.

Lemma ev_unanimous_decides j : Correct j → Decides H j v.
Proof.
  intros Hj. destruct (ev_net_live H Hr j Hj) as (tk & Ht & sn & Hi & HL).
  destruct (ei_decided (H j) tk sn Ht Hi (er_idle H Hrest j Hj)) as [d Hd].
  { apply (el_bind _ _ _ HL v); [done|]. apply er_quorum; [done|apply er_bind]. }
  assert (Hin1 : ∀ j p, Correct j → inputs j p → p.1 = v) by (intros; by eapply Hin).
  by rewrite <-(only_decision (T := evbca) mb inputs v Hv Hin1 H j d Hr Hj Hd).
Qed.
End decide.
End rest.
End live.
