(* ===== verification/EvbcaGate.v ===== *)
(** * [externalValidityBCA.go]: the functions nothing starts

    [waitForPrevCoin] is the goroutine that would approve a value that is
    externally valid and equal to the previous coin; [newEVBCA] does not start
    it.  [broadcastVote] and [broadcastBind] ([evbca_broadcastVote],
    [evbca_broadcastBind]) are not called.  The theorems say what the goroutine
    would do: approve the previous coin when it has been submitted as externally
    valid, and nothing else; a receive from [unblockChan] changes nothing. *)

From stdpp Require Import base tactics numbers list functions.
From S2P Require Import Prelude Utils Bca Evbca.

Local Open Scope Z_scope.

Inductive gate_pc :=
| P_coin
| P_loop (prevCoin externalValid : Z)
| P_send (externalValid : Z)
| P_done.

(** The test of the loop. *)
Definition gate_head (prevCoin externalValid : Z) : gate_pc :=
  if prevCoin =? externalValid then P_send externalValid else P_loop prevCoin externalValid.

Definition waitForPrevCoin (br : bca_chan) (pc : gate_pc) (s : bca_chans) : option (gate_pc * bca_chans) :=
  match pc, br with
  | P_coin, CPrevCoin => '(prevCoin, s) ← chan_recv CPrevCoin s; Some (gate_head prevCoin bot, s)
  | P_loop prevCoin _, CInputExt =>
    '(externalValid, s) ← chan_recv CInputExt s; Some (gate_head prevCoin externalValid, s)
  | P_loop prevCoin externalValid, CUnblock =>
    '(_, s) ← chan_recv CUnblock s; Some (gate_head prevCoin externalValid, s)
  | P_send externalValid, CApprove => s ← go_send evbca_cap CApprove externalValid s; Some (P_done, s)
  | _, _ => None
  end.

(** The receivers are values: [voted] and [bound] are set in a copy. *)
Definition evbca_broadcastVote (vote : Z) (e : evbca) : outcome evbca := ev_send CVote vote e.
Definition evbca_broadcastBind (bind : Z) (e : evbca) : outcome evbca := ev_send CBind bind e.

(** The goroutine alone, with the branches it takes. *)
Fixpoint gate_run (brs : list bca_chan) (pc : gate_pc) (s : bca_chans) : option (gate_pc * bca_chans) :=
  match brs with
  | [] => Some (pc, s)
  | br :: brs => '(pc, s) ← waitForPrevCoin br pc s; gate_run brs pc s
  end.

(** ** Steps *)

Lemma chan_recv_Some c (s s' : bca_chans) v :
  chan_recv c s = Some (v, s') ↔ ∃ q, s c = v :: q ∧ s' = <[c := q]> s.
Proof.
  unfold chan_recv. destruct (s c) as [|v' q]; split.
  - done.
  - by intros (? & ? & _).
  - intros [= <- <-]. by exists q.
  - by intros (q' & [= -> ->] & ->).
Qed.

(** What the channels hold of the previous coin [c] and of the valid values [xs]
    at a point of the goroutine; [ap] was on [approveValChan] at the start. *)
Definition gate_inv (c : Z) (xs ap : list Z) (pc : gate_pc) (s : bca_chans) : Prop :=
  match pc with
  | P_coin => head (s CPrevCoin) = Some c ∧ s CInputExt = xs ∧ s CApprove = ap
  | P_loop c' x => c' = c ∧ x ≠ c ∧ s CInputExt ⊆ xs ∧ s CApprove = ap
  | P_send v => v = c ∧ c ∈ xs ∧ s CApprove = ap
  | P_done => c ∈ xs ∧ s CApprove = ap ++ [c]
  end.

Lemma gate_inv_step c xs ap br pc s pc' s' :
  c ≠ bot → gate_inv c xs ap pc s → waitForPrevCoin br pc s = Some (pc', s') → gate_inv c xs ap pc' s'.
Proof.
  intros Hc Hi. destruct pc as [|c' x|v|], br; simpl in *; try done.
  - destruct Hi as (Hp & Hx & Ha). intros ([v s1] & (q & Hq & ->)%chan_recv_Some & [= <- <-])%bind_Some.
    rewrite Hq in Hp. injection Hp as ->. unfold gate_head. destruct (Z.eqb_spec c bot); [done|]. simpl.
    rewrite !fn_lookup_insert_ne by done. rewrite Hx. done.
  - destruct Hi as (-> & Hx & Hs & Ha). intros ([v s1] & (q & Hq & ->)%chan_recv_Some & [= <- <-])%bind_Some.
    unfold gate_head. destruct (Z.eqb_spec c x); [congruence|]. simpl. by rewrite !fn_lookup_insert_ne by done.
  - destruct Hi as (-> & Hx & Hs & Ha). intros ([v s1] & (q & Hq & ->)%chan_recv_Some & [= <- <-])%bind_Some.
    rewrite Hq in Hs. unfold gate_head. destruct (Z.eqb_spec c v) as [<-|Hne]; simpl.
    + rewrite fn_lookup_insert_ne by done. split_and!; [done|apply Hs; by left|done].
    + rewrite fn_lookup_insert, fn_lookup_insert_ne by done. split_and!; [done|done| |done].
      intros y Hy. apply Hs. by right.
  - destruct Hi as (-> & Hx & Ha). intros (s1 & [_ ->]%go_send_inv%chan_send_inv & [= <- <-])%bind_Some.
    simpl. rewrite fn_lookup_insert, Ha. done.
Qed.

Lemma gate_inv_run c xs ap brs pc s pc' s' :
  c ≠ bot → gate_inv c xs ap pc s → gate_run brs pc s = Some (pc', s') → gate_inv c xs ap pc' s'.
Proof.
  intros Hc. revert pc s. induction brs as [|br brs IH]; intros pc s Hi; simpl; [by intros [= <- <-]|].
  intros ([pc1 s1] & H1 & Hr)%bind_Some. eapply IH, Hr. by eapply gate_inv_step.
Qed.

(** The loop over the values before the coin. *)
Lemma gate_loop c x xs s : x ≠ c → c ∈ xs → s CInputExt = xs → ∃ brs s',
  gate_run brs (P_loop c x) s = Some (P_send c, s') ∧ s' CApprove = s CApprove.
Proof.
  intros Hx Hc. revert x s Hx. induction xs as [|y xs IH]; intros x s Hx Hs; [by apply not_elem_of_nil in Hc|].
  assert (Hr : chan_recv CInputExt s = Some (y, <[CInputExt := xs]> s)) by (apply chan_recv_Some; by exists xs).
  destruct (decide (c = y)) as [<-|Hne].
  - exists [CInputExt], (<[CInputExt := xs]> s). simpl. rewrite Hr. unfold gate_head. simpl. by rewrite Z.eqb_refl.
  - destruct (IH ltac:(by apply elem_of_cons in Hc as [? | ?]) y (<[CInputExt := xs]> s)) as (brs & s' & Hrun & Ha);
      [done|by rewrite fn_lookup_insert|].
    exists (CInputExt :: brs), s'. simpl. rewrite Hr. simpl. unfold gate_head.
    destruct (Z.eqb_spec c y); [done|]. by rewrite Hrun.
Qed.

(** A coin of 1; the values 0 and 1 become valid. *)
Definition gate_start : bca_chans := <[CPrevCoin := [1]]> (<[CInputExt := [0; 1]]> bca_init_chans).
Definition gate_branches : list bca_chan := [CPrevCoin; CInputExt; CInputExt; CApprove].
Definition gate_end : bca_chans := default gate_start (snd <$> gate_run gate_branches P_coin gate_start).

(** ** Theorems *)

(** The gate.  Whatever the branches of its [select], the goroutine approves
    at most one value; it is the previous coin of the proposal, and has been
    submitted as externally valid. *)
Theorem gate_sound brs s c pc s' :
  head (s CPrevCoin) = Some c → c ≠ bot → gate_run brs P_coin s = Some (pc, s') →
  s' CApprove = s CApprove ∨ (s' CApprove = s CApprove ++ [c] ∧ c ∈ s CInputExt).
Proof.
  intros Hh Hc Hr. assert (Hi : gate_inv c (s CInputExt) (s CApprove) pc s') by (by eapply gate_inv_run, Hr).
  destruct pc; simpl in Hi; naive_solver.
Qed.

(** The gate opens.  When the previous coin is among the values submitted as
    externally valid, and [approveValChan] has room, the goroutine approves it. *)
Theorem gate_opens s c :
  head (s CPrevCoin) = Some c → c ≠ bot → c ∈ s CInputExt → (length (s CApprove) < 4)%nat →
  ∃ brs s', gate_run brs P_coin s = Some (P_done, s') ∧ s' CApprove = s CApprove ++ [c].
Proof.
  intros Hh Hc Hx Hroom. destruct (s CPrevCoin) as [|c' q] eqn:Hq; [done|]. injection Hh as ->.
  assert (Hr : chan_recv CPrevCoin s = Some (c, <[CPrevCoin := q]> s)) by (apply chan_recv_Some; by exists q).
  destruct (gate_loop c bot (s CInputExt) (<[CPrevCoin := q]> s)) as (brs & s1 & Hrun & Ha);
    [done|done|by rewrite fn_lookup_insert_ne|].
  rewrite fn_lookup_insert_ne in Ha by done.
  exists (CPrevCoin :: brs ++ [CApprove]), (<[CApprove := s CApprove ++ [c]]> s1).
  split; [|by rewrite fn_lookup_insert]. simpl. rewrite Hr. simpl. unfold gate_head.
  destruct (Z.eqb_spec c bot); [done|]. clear Hr. revert Hrun. generalize (<[CPrevCoin:=q]> s) (P_loop c bot).
  induction brs as [|br brs IH]; intros s0 pc0; simpl.
  - intros [= -> ->]. simpl. unfold go_send, chan_send. rewrite Ha. simpl. by rewrite decide_True by lia.
  - destruct (waitForPrevCoin br pc0 s0) as [[pc2 s2]|]; [|done]. simpl. apply IH.
Qed.

Lemma gate_sound_witness :
  gate_end CApprove = gate_start CApprove ∨ (gate_end CApprove = gate_start CApprove ++ [1] ∧ 1 ∈ gate_start CInputExt).
Proof.
  apply (gate_sound gate_branches gate_start 1 P_done gate_end); [reflexivity|done|reflexivity].
Defined.
