(* ===== verification/Round.v ===== *)
(** * [round.go]: one round of the binary agreement

    A round owns a binding crusader agreement behind the interface [bca]: the
    variant of round 0 or that of later rounds.  Its goroutine [execRound]
    waits for the decision, asks for a coin and turns both into an estimate for
    the next round. *)

From stdpp Require Import base tactics numbers list fin_sets gmap functions.
From S2P Require Import Prelude Utils Bca BcaNet Ivbca Evbca.

Local Open Scope Z_scope.

(** The dynamic type of the field [bca]. *)
Inductive round_bca :=
| IV (b : ivbca)
| EV (b : evbca).

(** A call through the interface. *)
Definition rb_call {X} (op : ∀ T, BCA T → T → outcome (T * X)) (b : round_bca) :
    outcome (round_bca * X) :=
  match b with
  | IV b => '(b, x) ← op ivbca _ b; Done (IV b, x)
  | EV b => '(b, x) ← op evbca _ b; Done (EV b, x)
  end.

(** A channel operation through the interface, when it is enabled. *)
Definition rb_try {X} (op : ∀ T, BCA T → T → option (T * X)) (b : round_bca) :
    option (round_bca * X) :=
  match b with
  | IV b => '(b, x) ← op ivbca _ b; Some (IV b, x)
  | EV b => '(b, x) ← op evbca _ b; Some (EV b, x)
  end.

Record roundTransitionResult := RoundTransitionResult {
  estimate : Z;
  decided : bool;
}.

Inductive round_pc :=
| X_dec
| X_req (dec : Z)
| X_coin (dec : Z)
| X_send (t : roundTransitionResult)
| X_done.

(** Each of the three channels of the struct has a buffer of one. *)
Record mmrRound := MmrRound {
  rd_bca : round_bca;
  coinReqChan : list unit;
  coinReceiveChan : list Z;
  internalTransition : list roundTransitionResult;
  rd_pc : round_pc;
}.

Definition newFirstRound (n f : Z) : mmrRound := MmrRound (IV (newBCA n f)) [] [] [] X_dec.
Definition newRound (n f : Z) : mmrRound := MmrRound (EV (newEVBCA n f)) [] [] [] X_dec.

Definition set_rd_bca b (r : mmrRound) : mmrRound :=
  MmrRound b (coinReqChan r) (coinReceiveChan r) (internalTransition r) (rd_pc r).

(** The methods the struct inherits from its embedded [bca]. *)
Definition round_call {X} (op : ∀ T, BCA T → T → outcome (T * X)) (r : mmrRound) :
    outcome (mmrRound * X) :=
  '(b, x) ← rb_call op (rd_bca r); Done (set_rd_bca b r, x).
Definition round_try {X} (op : ∀ T, BCA T → T → option (T * X)) (r : mmrRound) :
    option (mmrRound * X) :=
  '(b, x) ← rb_try op (rd_bca r); Some (set_rd_bca b r, x).

(** The result of a round from its decision and the coin. *)
Definition transition (dec coin : Z) : roundTransitionResult :=
  if dec =? bot then RoundTransitionResult coin false
  else RoundTransitionResult dec (coin =? dec).

(** One channel operation of [execRound]; the value is the decision it takes
    from the crusader agreement, if it does. *)
Definition execRound (r : mmrRound) : option (mmrRound * option Z) :=
  match rd_pc r with
  | X_dec =>
    '(b, dec) ← rb_try (λ T _ t, '(v, t) ← bca_take COut t; Some (t, v)) (rd_bca r);
    Some (MmrRound b (coinReqChan r) (coinReceiveChan r) (internalTransition r) (X_req dec), Some dec)
  | X_req dec =>
    match coinReqChan r with
    | [] => Some (MmrRound (rd_bca r) [tt] (coinReceiveChan r) (internalTransition r) (X_coin dec), None)
    | _ => None
    end
  | X_coin dec =>
    match coinReceiveChan r with
    | coin :: q =>
      Some (MmrRound (rd_bca r) (coinReqChan r) q (internalTransition r)
              (X_send (transition dec coin)), None)
    | [] => None
    end
  | X_send t =>
    match internalTransition r with
    | [] => Some (MmrRound (rd_bca r) (coinReqChan r) (coinReceiveChan r) [t] X_done, None)
    | _ => None
    end
  | X_done => None
  end.

Inductive round_err := RoundInvalidCoin (coin : Z).

(** [submitCoin] sends the coin and waits for the transition.  The wait lets
    [execRound] read the coin and send the transition; when the round has not
    asked for a coin yet, or has been given one, the call waits. *)
Definition round_submitCoin (coin : Z) (r : mmrRound) :
    outcome (mmrRound * result round_err roundTransitionResult) :=
  if negb (isInputValid coin) then Done (r, Err (RoundInvalidCoin coin)) else
  if decide (length (coinReceiveChan r) < 1)%nat then
    let r := MmrRound (rd_bca r) (coinReqChan r) (coinReceiveChan r ++ [coin])
               (internalTransition r) (rd_pc r) in
    match rd_pc r with
    | X_coin _ =>
      match ('(r, _) ← execRound r; '(r, _) ← execRound r; Some r) with
      | Some r =>
        match internalTransition r with
        | t :: q => Done (MmrRound (rd_bca r) (coinReqChan r) (coinReceiveChan r) q (rd_pc r), Ok t)
        | [] => Block
        end
      | None => Block
      end
    | _ => Block
    end
  else Block.

(** [submitCoin] on a round that waits for its coin. *)
Lemma round_submitCoin_spec r dec coin :
  rd_pc r = X_coin dec → coinReceiveChan r = [] → internalTransition r = [] →
  coin = 0 ∨ coin = 1 →
  round_submitCoin coin r =
    Done (MmrRound (rd_bca r) (coinReqChan r) [] [] X_done, Ok (transition dec coin)).
Proof.
  intros Hpc Hc Ht Hv. unfold round_submitCoin.
  replace (isInputValid coin) with true by (symmetry; by apply isInputValid_spec).
  destruct r as [b rq rc it pc]. simpl in *. subst. done.
Qed.

(** What a call that returned has done. *)
Lemma round_submitCoin_inv coin r r' res :
  round_submitCoin coin r = Done (r', res) →
  (r' = r ∧ ∃ e, res = Err e) ∨
  ∃ dec, rd_pc r = X_coin dec ∧ (coin = 0 ∨ coin = 1) ∧ internalTransition r = [] ∧
         rd_bca r' = rd_bca r ∧ rd_pc r' = X_done ∧ internalTransition r' = [] ∧
         coinReceiveChan r = [] ∧ res = Ok (transition dec coin).
Proof.
  unfold round_submitCoin. destruct (isInputValid coin) eqn:Hv; simpl.
  2: { intros [= <- <-]. left. by eauto. }
  apply isInputValid_spec in Hv. case_decide as Hl; [|done].
  destruct r as [b rq rc it pc]. simpl in *. destruct pc as [|d|d|t|]; try done.
  destruct rc as [|c rc]; simpl in *; [|lia]. destruct it as [|t it]; simpl; [|done].
  intros [= <- <-]. right. exists d. done.
Qed.
