(* ===== verification/Termination.v ===== *)
(** * [mmrTermination.go]: the termination gadget

    Counts the decisions other processes announce.  [f + 1] announcements of a
    value deliver it, [n - f] announcements in all signal termination.  The
    executor runs one submission at a time, so a call is a transition of the
    record; [commands] and [closeChan] only carry calls to the executor. *)

From stdpp Require Import base tactics numbers list fin_sets gmap functions.
From S2P Require Import Prelude Utils Bca.

Local Open Scope Z_scope.

Record mmrTermination := MmrTermination {
  t_received : gset UUID;
  results : list Z;
  t_n : Z;
  t_f : Z;
  t_deliverDecision : list Z;
  notifyTermination : list unit;
}.

Definition newMmrTermination (n f : Z) : mmrTermination :=
  MmrTermination ∅ [0; 0] n f [] [].

Inductive term_err :=
| AlreadySubmitted (sender : UUID)
| InvalidDecision (decision : Z).

(** Sends on the two channels of capacity one. *)
Definition t_send_decision (d : Z) (t : mmrTermination) : outcome mmrTermination :=
  match t_deliverDecision t with
  | [] => Done (MmrTermination (t_received t) (results t) (t_n t) (t_f t) [d] (notifyTermination t))
  | _ => Block
  end.
Definition t_send_notify (t : mmrTermination) : outcome mmrTermination :=
  match notifyTermination t with
  | [] => Done (MmrTermination (t_received t) (results t) (t_n t) (t_f t) (t_deliverDecision t) [tt])
  | _ => Block
  end.

Definition term_submitDecision (decision : Z) (sender : UUID) (t : mmrTermination) :
    outcome (mmrTermination * option term_err) :=
  if decide (sender ∈ t_received t) then Done (t, Some (AlreadySubmitted sender))
  else if bot <=? decision then Done (t, Some (InvalidDecision decision))
  else
    count ← slice_get (results t) decision;
    rs ← slice_set (results t) decision (uint_add count 1);
    let t := MmrTermination ({[sender]} ∪ t_received t) rs (t_n t) (t_f t)
               (t_deliverDecision t) (notifyTermination t) in
    r ← slice_get rs decision; r0 ← slice_get rs 0; r1 ← slice_get rs 1;
    t ← (if r =? uint_add (t_f t) 1 then t_send_decision decision t else Done t);
    t ← (if uint_add r0 r1 =? uint_sub (t_n t) (t_f t) then t_send_notify t else Done t);
    Done (t, None).

(** The receive of [reachDecision]. *)
Definition term_take (t : mmrTermination) : option (Z * mmrTermination) :=
  match t_deliverDecision t with
  | d :: q => Some (d, MmrTermination (t_received t) (results t) (t_n t) (t_f t) q (notifyTermination t))
  | [] => None
  end.

(** ** Invariant

    [log] are the accepted announcements. *)

Section invariant.
Context (mb : membership UUID) `{!Resilient mb}.

#[local] Abbreviation n := (mb_n mb).
#[local] Abbreviation f := (mb_f mb).

(** The senders that announced [d]. *)
Definition announced (log : list (UUID * Z)) (d : Z) : gset UUID :=
  list_to_set ((filter (λ p, p.2 = d) log).*1).

Lemma elem_of_announced log d s : s ∈ announced log d ↔ (s, d) ∈ log.
Proof.
  unfold announced. rewrite elem_of_list_to_set, list_elem_of_fmap. split.
  - intros ([s' d'] & -> & [? ?]%list_elem_of_filter). simpl in *. by subst.
  - intros Hin. exists (s, d). split; [done|]. by apply list_elem_of_filter.
Qed.

Lemma announced_cons log s d d' :
  announced ((s, d) :: log) d' = if decide (d = d') then {[s]} ∪ announced log d' else announced log d'.
Proof.
  apply set_eq. intros x. case_decide as E; rewrite ?elem_of_union, ?elem_of_singleton,
    !elem_of_announced, elem_of_cons; naive_solver.
Qed.

Record term_inv (log : list (UUID * Z)) (out : list Z) (t : mmrTermination) : Prop := {
  ti_conf : t_n t = n ∧ t_f t = f;
  ti_received : t_received t = announced log 0 ∪ announced log 1;
  ti_bits s d : (s, d) ∈ log → d = 0 ∨ d = 1;
  ti_peers : t_received t ⊆ peers mb;
  ti_disjoint : announced log 0 ## announced log 1;
  ti_results : results t = [Z.of_nat (size (announced log 0)); Z.of_nat (size (announced log 1))];
  ti_notify : notifyTermination t = [] ∨ n - f ≤ Z.of_nat (size (t_received t));
  (** [out]: everything sent on [deliverDecision]. *)
  ti_out d : d ∈ out ↔ f + 1 ≤ Z.of_nat (size (announced log d));
  ti_suffix : t_deliverDecision t `suffix_of` out;
}.

Lemma term_inv_init : term_inv [] [] (newMmrTermination n f).
Proof.
  pose proof (rs_arith mb).
  assert (Hz : ∀ d, announced [] d = ∅) by (intros; apply set_eq; intros x; rewrite elem_of_announced; set_solver).
  split.
  - done.
  - rewrite !Hz. set_solver.
  - intros s d Hd. by apply not_elem_of_nil in Hd.
  - apply empty_subseteq.
  - rewrite !Hz. set_solver.
  - by rewrite !Hz.
  - by left.
  - intros d. rewrite Hz, size_empty. split; [intros Hd; by apply not_elem_of_nil in Hd|lia].
  - done.
Qed.

Lemma announced_peers log out t d : term_inv log out t → announced log d ⊆ peers mb.
Proof.
  intros [] s Hs. apply ti_peers0. rewrite ti_received0, elem_of_union, !elem_of_announced.
  apply elem_of_announced in Hs. destruct (ti_bits0 s d Hs) as [-> | ->]; auto.
Qed.

(** The announcements after a new one. *)
Lemma announced_size log s d w :
  s ∉ announced log w → (w = 0 ∨ w = 1) →
  Z.of_nat (size (announced ((s, d) :: log) w)) =
  Z.of_nat (size (announced log w)) + (if decide (d = w) then 1 else 0).
Proof.
  intros Hs Hw. rewrite announced_cons. case_decide; [|lia]. rewrite size_add_new by done. lia.
Qed.

Lemma received_size log out t :
  term_inv log out t → Z.of_nat (size (t_received t)) =
    Z.of_nat (size (announced log 0)) + Z.of_nat (size (announced log 1)).
Proof. intros []. rewrite ti_received0, size_union by done. lia. Qed.

(** Recording an announcement, with the value it may deliver. *)
Lemma term_record log out t s d q :
  term_inv log out t → s ∈ peers mb → s ∉ t_received t → (d = 0 ∨ d = 1) →
  let log' := (s, d) :: log in
  let out' := if decide (Z.of_nat (size (announced log d)) = f) then out ++ [d] else out in
  q `suffix_of` out' →
  term_inv log' out'
    (MmrTermination ({[s]} ∪ t_received t)
       [Z.of_nat (size (announced log' 0)); Z.of_nat (size (announced log' 1))]
       (t_n t) (t_f t) q (notifyTermination t)).
Proof.
  intros Hi Hs Hin Hd log' out' Hq. pose proof (ti_received _ _ _ Hi) as Hrcv.
  assert (Hnew : (s ∉ announced log 0) ∧ s ∉ announced log 1) by (rewrite Hrcv in Hin; set_solver).
  pose proof (ti_disjoint _ _ _ Hi). pose proof (ti_peers _ _ _ Hi) as Hp.
  destruct (ti_conf _ _ _ Hi). split; cbn [t_received results t_n t_f t_deliverDecision notifyTermination].
  - done.
  - unfold log'. rewrite !announced_cons, Hrcv. destruct Hd as [-> | ->]; simpl; set_solver.
  - intros s' d' [[= -> ->]|?]%elem_of_cons; [done|by eapply (ti_bits _ _ _ Hi)].
  - set_solver.
  - unfold log'. rewrite !announced_cons. destruct Hd as [-> | ->]; simpl; set_solver.
  - done.
  - destruct (ti_notify _ _ _ Hi); [by left|right]. rewrite size_add_new by done. lia.
  - intros w. pose proof (ti_out _ _ _ Hi w) as Ho.
    assert (Hw : w ∈ out' ↔ w ∈ out ∨ (w = d ∧ Z.of_nat (size (announced log d)) = f)).
    { unfold out'. case_decide; rewrite ?elem_of_app, ?list_elem_of_singleton; naive_solver. }
    rewrite Hw, Ho. unfold log'. rewrite announced_cons. case_decide as E.
    + subst w. rewrite size_add_new by (destruct Hd as [-> | ->]; tauto). lia.
    + split; [|tauto]. intros [?|[? _]]; [done|congruence].
  - done.
Qed.

(** A new announcement leaves the counters within the number of processes. *)
Lemma announce_facts log out t s d :
  term_inv log out t → s ∈ peers mb → s ∉ t_received t → d = 0 ∨ d = 1 →
  Z.of_nat (size (t_received t)) + 1 ≤ n ∧
  Z.of_nat (size (announced ((s, d) :: log) 0)) + Z.of_nat (size (announced ((s, d) :: log) 1)) =
    Z.of_nat (size (t_received t)) + 1 ∧
  Z.of_nat (size (announced ((s, d) :: log) d)) = Z.of_nat (size (announced log d)) + 1.
Proof.
  intros Hi Hs Hin Hbit. pose proof (received_size _ _ _ Hi) as Hsz.
  assert (Hnew : (s ∉ announced log 0) ∧ s ∉ announced log 1)
    by (rewrite (ti_received _ _ _ Hi) in Hin; set_solver).
  assert (Hle : Z.of_nat (size (t_received t)) + 1 ≤ n).
  { destruct Resilient0. assert (size ({[s]} ∪ t_received t) ≤ size (peers mb))%nat as Hl
      by (apply subseteq_size; pose proof (ti_peers _ _ _ Hi); set_solver).
    rewrite size_add_new in Hl by done. lia. }
  split; [done|]. destruct Hnew. rewrite !announced_size by (destruct Hbit as [-> | ->]; auto).
  destruct Hbit as [-> | ->]; simpl; lia.
Qed.

(** The state that has counted an announcement. *)
Definition term_counted (log : list (UUID * Z)) (s : UUID) (t : mmrTermination) : mmrTermination :=
  MmrTermination ({[s]} ∪ t_received t)
    [Z.of_nat (size (announced log 0)); Z.of_nat (size (announced log 1))]
    (t_n t) (t_f t) (t_deliverDecision t) (notifyTermination t).

(** The handler once the checks are done. *)
Lemma term_submitDecision_shape log out t d s :
  term_inv log out t → s ∈ peers mb → 0 ≤ d →
  (∃ e, term_submitDecision d s t = Done (t, Some e) ∧ (s ∈ t_received t ∨ ¬ (d = 0 ∨ d = 1))) ∨
  (s ∉ t_received t) ∧ (d = 0 ∨ d = 1) ∧
  term_submitDecision d s t =
    (t2 ← (if Z.of_nat (size (announced log d)) =? f
           then t_send_decision d (term_counted ((s, d) :: log) s t)
           else Done (term_counted ((s, d) :: log) s t));
     t3 ← (if Z.of_nat (size (t_received t)) + 1 =? uint_sub (t_n t2) (t_f t2)
           then t_send_notify t2 else Done t2);
     Done (t3, None)).
Proof.
  intros Hi Hs Hd. unfold term_submitDecision. case_decide as Hin; [left; by eexists; split; [|left]|].
  destruct (Z.leb_spec bot d) as [Hb|Hb]; [left; eexists; split; [done|]; right; unfold bot in *; lia|].
  assert (Hbit : d = 0 ∨ d = 1) by (unfold bot in *; lia). right. split; [done|]. split; [done|].
  pose proof (rs_arith mb) as (? & ? & ? & Hf1 & _). destruct (ti_conf _ _ _ Hi) as [Hn Hf].
  destruct (announce_facts _ _ _ _ _ Hi Hs Hin Hbit) as (Hle & Hsum & Hone). pose proof (received_size _ _ _ Hi).
  rewrite (slice_get_elt 0) by (rewrite (ti_results _ _ _ Hi); simpl; lia). cbn [mbind outcome_bind].
  rewrite slice_set_Done by (rewrite (ti_results _ _ _ Hi); simpl; lia). cbn [mbind outcome_bind].
  set (rs := <[_ := _]> (results t)). set (log' := (s, d) :: log) in *.
  assert (Hrs : rs = [Z.of_nat (size (announced log' 0)); Z.of_nat (size (announced log' 1))]).
  { unfold rs, log'. rewrite (ti_results _ _ _ Hi), !announced_cons.
    destruct Hbit as [-> | ->]; unfold elt; simpl; rewrite uint_add_small by lia;
      unfold log' in Hone; rewrite announced_cons, decide_True in Hone by done; by rewrite Hone. }
  rewrite Hrs. rewrite !(slice_get_elt 0) by (simpl; lia). cbn [mbind outcome_bind t_f t_n].
  replace (elt 0 _ d) with (Z.of_nat (size (announced log d)) + 1)
    by (rewrite <-Hone; unfold elt; destruct Hbit as [Hw | Hw]; by rewrite !Hw).
  change (elt 0 _ 0) with (Z.of_nat (size (announced log' 0))).
  change (elt 0 _ 1) with (Z.of_nat (size (announced log' 1))).
  rewrite Hf, Hf1, uint_add_small, Hsum by lia. unfold term_counted. rewrite Hf.
  replace (Z.of_nat (size (announced log d)) + 1 =? f + 1) with (Z.of_nat (size (announced log d)) =? f) by lia.
  destruct (_ =? f); [|done]. unfold t_send_decision. simpl. by destruct (t_deliverDecision t).
Qed.

(** One submission: accepted when the sender is new and the value a bit; it
    blocks only if [deliverDecision] is still full. *)
Lemma term_submitDecision_spec log out t d s :
  term_inv log out t → s ∈ peers mb → 0 ≤ d →
  post (term_submitDecision d s t)
    (λ r, match r.2 with
          | Some _ => r.1 = t ∧ (s ∈ t_received t ∨ ¬ (d = 0 ∨ d = 1))
          | None => (s ∉ t_received t) ∧ (d = 0 ∨ d = 1) ∧
              ∃ out', term_inv ((s, d) :: log) out' r.1 ∧
                out' = (if decide (Z.of_nat (size (announced log d)) = f) then out ++ [d] else out)
          end)
    (t_deliverDecision t ≠ [] ∧ (d = 0 ∨ d = 1) ∧ Z.of_nat (size (announced log d)) = f).
Proof.
  intros Hi Hs Hd.
  destruct (term_submitDecision_shape _ _ _ _ _ Hi Hs Hd) as [(e & -> & He)|(Hin & Hbit & ->)]; [done|].
  destruct (announce_facts _ _ _ _ _ Hi Hs Hin Hbit) as (Hle & Hsum & _).
  pose proof (rs_arith mb) as (? & ? & ? & _ & Hnf & _). apply post_bind.
  set (out' := if decide (Z.of_nat (size (announced log d)) = f) then out ++ [d] else out).
  assert (Hdel : post (if Z.of_nat (size (announced log d)) =? f
      then t_send_decision d (term_counted ((s, d) :: log) s t)
      else Done (term_counted ((s, d) :: log) s t))
    (λ t2, term_inv ((s, d) :: log) out' t2 ∧ notifyTermination t2 = notifyTermination t ∧
           t_received t2 = {[s]} ∪ t_received t)
    (t_deliverDecision t ≠ [] ∧ (d = 0 ∨ d = 1) ∧ Z.of_nat (size (announced log d)) = f)).
  { destruct (Z.eqb_spec (Z.of_nat (size (announced log d))) f) as [Heq|Hneq].
    - unfold t_send_decision. simpl. destruct (t_deliverDecision t) as [|x q] eqn:Hq; simpl.
      + split; [|done]. apply (term_record log out t s d [d]); [done..|].
        rewrite decide_True by done. by exists out.
      + split_and!; [done..|lia].
    - simpl. split; [|done]. apply (term_record log out t s d); [done..|].
      rewrite decide_False by done. apply (ti_suffix _ _ _ Hi). }
  eapply post_mono; [exact Hdel| |done]. intros t2 (Hi2 & Hnt & Hr2).
  destruct (ti_conf _ _ _ Hi2) as [-> ->]. rewrite Hnf. apply post_bind.
  destruct (_ =? n - f) eqn:Hq; simpl; [|split; [done|]; split; [done|]; by exists out'].
  apply Z.eqb_eq in Hq. unfold t_send_notify. rewrite Hnt.
  destruct (ti_notify _ _ _ Hi) as [->|Hge]; [|lia].
  simpl. split; [done|]. split; [done|]. exists out'. split; [|done].
  destruct Hi2. split; try done. right. simpl. rewrite Hr2, size_add_new by done. lia.
Qed.
End invariant.

(** ** Runs of the gadget *)

Inductive term_event :=
| TSubmit (decision : Z) (sender : UUID)
| TTake.

(** Submissions and receives in order; [taken] collects what is received from
    [deliverDecision]. *)
Fixpoint term_run (evs : list term_event) (t : mmrTermination) (taken : list Z) :
    outcome (mmrTermination * list Z) :=
  match evs with
  | [] => Done (t, taken)
  | TSubmit d s :: evs => '(t, _) ← term_submitDecision d s t; term_run evs t taken
  | TTake :: evs =>
    match term_take t with
    | Some (d, t) => term_run evs t (taken ++ [d])
    | None => term_run evs t taken
    end
  end.

Section runs.
Context (mb : membership UUID) `{!Resilient mb}.

#[local] Abbreviation n := (mb_n mb).
#[local] Abbreviation f := (mb_f mb).

Definition term_events_ok (evs : list term_event) : Prop :=
  ∀ d s, TSubmit d s ∈ evs → 0 ≤ d ∧ s ∈ peers mb.

Lemma term_take_inv log out t d t' :
  term_inv mb log out t → term_take t = Some (d, t') → term_inv mb log out t' ∧ d ∈ out.
Proof.
  intros Hi Ht. unfold term_take in Ht. destruct (t_deliverDecision t) as [|x q] eqn:Hq; [done|].
  injection Ht as -> <-. destruct Hi. rewrite Hq in ti_suffix0.
  split; [split; try done|].
  - simpl. etrans; [|exact ti_suffix0]. by exists [d].
  - destruct ti_suffix0 as [k ->]. set_solver.
Qed.

(** The state after the run and what its log holds. *)
Lemma term_run_inv evs log out t taken t' taken' :
  term_inv mb log out t → (∀ d, d ∈ taken → d ∈ out) → term_events_ok evs →
  term_run evs t taken = Done (t', taken') →
  ∃ log' out', term_inv mb log' out' t' ∧ (∀ d, d ∈ taken' → d ∈ out') ∧
    (∀ s d, (s, d) ∈ log' → (s, d) ∈ log ∨ TSubmit d s ∈ evs).
Proof.
  revert log out t taken. induction evs as [|[d s|] evs IH]; intros log out t taken Hi Ht Hok Hr; simpl in Hr.
  - injection Hr as <- <-. exists log, out. auto.
  - destruct (Hok d s) as [Hd Hs]; [by left|].
    pose proof (term_submitDecision_spec mb log out t d s Hi Hs Hd) as Hp.
    destruct (term_submitDecision d s t) as [[t1 e]| |]; [|done..]. simpl in Hp, Hr.
    assert (Hok' : term_events_ok evs) by (intros ???; apply Hok; by right).
    destruct e as [e|].
    + destruct Hp as [-> _]. destruct (IH _ _ _ _ Hi Ht Hok' Hr) as (log' & out' & ? & ? & Hl).
      exists log', out'. split; [done|]. split; [done|]. intros s' d' Hin.
      destruct (Hl s' d' Hin); [by left|right; by right].
    + destruct Hp as (_ & _ & out1 & Hi1 & Ho1).
      assert (Ht1 : ∀ d, d ∈ taken → d ∈ out1).
      { intros x Hx. rewrite Ho1. case_decide; [apply elem_of_app; left|]; by apply Ht. }
      destruct (IH _ _ _ _ Hi1 Ht1 Hok' Hr) as (log' & out' & ? & ? & Hl).
      exists log', out'. split; [done|]. split; [done|]. intros s' d' Hin.
      destruct (Hl s' d' Hin) as [[[= -> ->]|?]%elem_of_cons|?]; [right; by left|by left|right; by right].
  - assert (Hok' : term_events_ok evs) by (intros ???; apply Hok; by right).
    destruct (term_take t) as [[d t1]|] eqn:E.
    + destruct (term_take_inv _ _ _ _ _ Hi E) as [Hi1 Hd].
      assert (Ht1 : ∀ x, x ∈ taken ++ [d] → x ∈ out)
        by (intros x [?| ->%list_elem_of_singleton]%elem_of_app; auto).
      destruct (IH _ _ _ _ Hi1 Ht1 Hok' Hr) as (log' & out' & ? & ? & Hl).
      exists log', out'. split; [done|]. split; [done|]. intros s' d' Hin.
      destruct (Hl s' d' Hin); [by left|right; by right].
    + destruct (IH _ _ _ _ Hi Ht Hok' Hr) as (log' & out' & ? & ? & Hl).
      exists log', out'. split; [done|]. split; [done|]. intros s' d' Hin.
      destruct (Hl s' d' Hin); [by left|right; by right].
Qed.

(** When the correct senders announce one value only, nothing blocks. *)
Lemma term_run_returns v evs log out t taken :
  term_inv mb log out t → term_events_ok evs →
  (∀ s d, (s, d) ∈ log ∨ TSubmit d s ∈ evs → s ∈ faulty mb ∨ d = v) →
  returns (term_run evs t taken).
Proof.
  revert log out t taken. induction evs as [|[d s|] evs IH]; intros log out t taken Hi Hok Hv; simpl.
  - by eexists.
  - destruct (Hok d s) as [Hd Hs]; [by left|].
    assert (Hok' : term_events_ok evs) by (intros ???; apply Hok; by right).
    destruct (decide (s ∈ t_received t)) as [Hin|Hin].
    { unfold term_submitDecision. rewrite decide_True by done. simpl. apply (IH log out); [done..|].
      intros s' d' [?|?]; apply Hv; [by left|right; by right]. }
    assert (Hsmall : ∀ w, w ≠ v → Z.of_nat (size (announced log w)) ≤ f).
    { intros w Hw. destruct Resilient0. etrans; [|exact rs_f]. apply Nat2Z.inj_le, subseteq_size.
      intros x Hx. apply elem_of_announced in Hx. destruct (Hv x w (or_introl Hx)); [done|congruence]. }
    destruct (post_returns _ _ _ (term_submitDecision_spec mb log out t d s Hi Hs Hd))
      as ([t1 e] & -> & Hp).
    { intros (Hfull & Hbit & Hcnt). assert (∃ w, w ∈ out) as [w Hw].
      { destruct (ti_suffix _ _ _ _ Hi) as [k Hk]. destruct (t_deliverDecision t) as [|w q]; [done|].
        exists w. rewrite Hk. set_solver. }
      apply (ti_out _ _ _ _ Hi) in Hw. destruct (decide (w = v)) as [->|Hwv]; [|specialize (Hsmall w Hwv); lia].
      assert (Hdv : d ≠ v) by (intros ->; lia).
      destruct Resilient0. assert (size ({[s]} ∪ announced log d) ≤ size (faulty mb))%nat as Hl.
      { apply subseteq_size. intros x [->%elem_of_singleton|Hx]%elem_of_union.
        - destruct (Hv s d) as [?|?]; [right; by left|done|congruence].
        - apply elem_of_announced in Hx. destruct (Hv x d (or_introl Hx)); [done|congruence]. }
      rewrite size_add_new in Hl; [lia|]. intros Hx. apply Hin. rewrite (ti_received _ _ _ _ Hi).
      destruct Hbit as [-> | ->]; set_solver. }
    cbn [mbind outcome_bind]. simpl in Hp. destruct e as [e|].
    + destruct Hp as [-> _]. apply (IH log out); [done..|].
      intros s' d' [?|?]; apply Hv; [by left|right; by right].
    + destruct Hp as (_ & _ & out1 & Hi1 & _). apply (IH _ _ _ _ Hi1 Hok').
      intros s' d' [[[= -> ->]|?]%elem_of_cons|?]; apply Hv;
        [right; by left|by left|right; by right].
  - assert (Hok' : term_events_ok evs) by (intros ???; apply Hok; by right).
    assert (Hv' : ∀ s d, (s, d) ∈ log ∨ TSubmit d s ∈ evs → s ∈ faulty mb ∨ d = v)
      by (intros s' d' [?|?]; apply Hv; [by left|right; by right]).
    destruct (term_take t) as [[d t1]|] eqn:E; [|by apply (IH log out)].
    destruct (term_take_inv _ _ _ _ _ Hi E) as [Hi1 _]. by apply (IH log out).
Qed.
End runs.

(** ** Theorems *)

Module TermExample.
Import Example4.
(** [p4] announces 0, then [p1] and [p2] announce 1, [p4] tries again. *)
Definition evs : list term_event :=
  [TSubmit 0 p4; TSubmit 1 p1; TTake; TSubmit 1 p2; TSubmit 1 p4; TTake; TSubmit 1 p3].
Definition result : mmrTermination * list Z :=
  done_or (newMmrTermination 4 1, []) (term_run evs (newMmrTermination 4 1) []).

Lemma evs_ok : term_events_ok mb4 evs.
Proof.
  intros d s Hin. unfold evs in Hin.
  repeat (apply elem_of_cons in Hin as [Hin|Hin];
    [first [discriminate Hin|injection Hin as -> ->; split; [lia|simpl; set_solver]]|]).
  by apply not_elem_of_nil in Hin.
Qed.
Lemma runs_ok : term_run evs (newMmrTermination 4 1) [] = Done result.
Proof. apply done_or_eq. vm_compute. reflexivity. Qed.
Lemma taken_one : 1 ∈ result.2.
Proof. apply (bool_decide_eq_true_1 (1 ∈ result.2)). vm_compute. reflexivity. Qed.
Lemma correct_say_one s d : TSubmit d s ∈ evs → s ∈ faulty mb4 ∨ d = 1.
Proof.
  intros Hin. unfold evs in Hin.
  repeat (apply elem_of_cons in Hin as [Hin|Hin];
    [first [discriminate Hin|injection Hin as -> ->; first [by right|left; simpl; set_solver]]|]).
  by apply not_elem_of_nil in Hin.
Qed.
End TermExample.
Import Example4 TermExample.

(** C21: the termination gadget only delivers what a correct process announced,
    for any sequence of announcements and receives. *)
Theorem termination_genuine (mb : membership UUID) `{!Resilient mb} evs t taken d :
  term_events_ok mb evs → term_run evs (newMmrTermination (mb_n mb) (mb_f mb)) [] = Done (t, taken) →
  d ∈ taken → ∃ s, (s ∉ faulty mb) ∧ TSubmit d s ∈ evs.
Proof.
  intros Hok Hr Hd.
  destruct (term_run_inv mb evs [] [] _ [] t taken (term_inv_init mb)) as (log & out & Hi & Ht & Hl);
    [intros x Hx; by apply not_elem_of_nil in Hx|done|done|].
  destruct (correct_witness mb (announced log d)) as (s & Hs & Hf).
  - assert (mb_f mb + 1 ≤ Z.of_nat (size (announced log d))) by (by apply (ti_out _ _ _ _ Hi), Ht). lia.
  - exists s. split; [done|]. apply elem_of_announced in Hs.
    destruct (Hl s d Hs) as [Hn|]; [by apply not_elem_of_nil in Hn|done].
Qed.

Lemma termination_genuine_witness : ∃ s, (s ∉ faulty mb4) ∧ TSubmit 1 s ∈ evs.
Proof.
  apply (termination_genuine mb4 evs result.1 result.2 1).
  - exact evs_ok.
  - rewrite <-surjective_pairing. exact runs_ok.
  - exact taken_one.
Defined.

(** The termination gadget never blocks or panics as long as the correct
    processes announce one and the same value, whatever the faulty ones do and
    even if nothing is received from its channels. *)
Theorem termination_returns (mb : membership UUID) `{!Resilient mb} v evs :
  term_events_ok mb evs → (∀ s d, TSubmit d s ∈ evs → s ∈ faulty mb ∨ d = v) →
  returns (term_run evs (newMmrTermination (mb_n mb) (mb_f mb)) []).
Proof.
  intros Hok Hv. apply (term_run_returns mb v evs [] []); [apply term_inv_init; done|done|].
  intros s d [Hn|]; [by apply not_elem_of_nil in Hn|by apply Hv].
Qed.

Lemma termination_returns_witness : returns (term_run evs (newMmrTermination 4 1) []).
Proof. exact (termination_returns mb4 1 evs evs_ok correct_say_one). Defined.
