(* ===== verification/Mmr.v ===== *)
(** * [mmr.go] and [concurrentMMR.go]: the rounds of the binary agreement

    An [mmr] holds a map from round numbers to rounds, created on first use,
    the termination gadget and the channels to its owner.  [concurrentMMR] runs
    every operation on the executor, one at a time, so an operation is a
    transition of the record.  [listenRequests] forwards what a round produces;
    it starts one goroutine per value, so the channels [deliverEcho], ...,
    [coinReq] are bags of values waiting for the owner. *)

From stdpp Require Import base tactics numbers list fin_sets gmap functions.
From S2P Require Import Prelude Utils Bca BcaNet Ivbca Evbca Round Termination.

Local Open Scope Z_scope.

Definition firstRound : Z := 0.

Record roundMsg := RoundMsg { val : Z; rnum : Z }.

(** [reachDecision]: waits for a decision, forwards it, ends. *)
Inductive reach_pc := R_wait | R_send (decision : Z) | R_done.

Record mmr := Mmr {
  m_n : Z;
  m_f : Z;
  deliverEcho : list roundMsg;
  deliverVote : list roundMsg;
  deliverBind : list roundMsg;
  deliverExternallyValid : list roundMsg;
  reachedDecision : list Z;
  deliverDecision : list Z;
  hasDecided : bool;
  coinReq : list Z;
  rounds : gmap Z mmrRound;
  termGadget : mmrTermination;
  m_reach : reach_pc;
}.

Definition newMMR (n f : Z) : mmr :=
  Mmr n f [] [] [] [] [] [] false [] {[firstRound := newFirstRound n f]}
    (newMmrTermination n f) R_wait.

Definition set_rounds x (m : mmr) : mmr :=
  Mmr (m_n m) (m_f m) (deliverEcho m) (deliverVote m) (deliverBind m) (deliverExternallyValid m)
    (reachedDecision m) (deliverDecision m) (hasDecided m) (coinReq m) x (termGadget m) (m_reach m).

(** [deliverEcho], ... by the channel of the round they forward. *)
Definition push_msg (c : bca_chan) (x : roundMsg) (m : mmr) : mmr :=
  let add c' q := if decide (c = c') then q ++ [x] else q in
  Mmr (m_n m) (m_f m) (add CEcho (deliverEcho m)) (add CVote (deliverVote m))
    (add CBind (deliverBind m)) (add CExt (deliverExternallyValid m))
    (reachedDecision m) (deliverDecision m) (hasDecided m) (coinReq m) (rounds m)
    (termGadget m) (m_reach m).
Definition push_coinReq (r : Z) (m : mmr) : mmr :=
  Mmr (m_n m) (m_f m) (deliverEcho m) (deliverVote m) (deliverBind m) (deliverExternallyValid m)
    (reachedDecision m) (deliverDecision m) (hasDecided m) (coinReq m ++ [r]) (rounds m)
    (termGadget m) (m_reach m).
Definition set_external x (m : mmr) : mmr :=
  Mmr (m_n m) (m_f m) (deliverEcho m) (deliverVote m) (deliverBind m) x
    (reachedDecision m) (deliverDecision m) (hasDecided m) (coinReq m) (rounds m)
    (termGadget m) (m_reach m).
Definition set_term x (m : mmr) : mmr :=
  Mmr (m_n m) (m_f m) (deliverEcho m) (deliverVote m) (deliverBind m) (deliverExternallyValid m)
    (reachedDecision m) (deliverDecision m) (hasDecided m) (coinReq m) (rounds m) x (m_reach m).
Definition set_decision reached delivered decided pc (m : mmr) : mmr :=
  Mmr (m_n m) (m_f m) (deliverEcho m) (deliverVote m) (deliverBind m) (deliverExternallyValid m)
    reached delivered decided (coinReq m) (rounds m) (termGadget m) pc.

(** ** Rounds *)

(** [newRound]: a later round; [listenRequests] starts with it. *)
Definition mmr_newRound (m : mmr) : mmrRound := newRound (m_n m) (m_f m).

Definition getRound (r : Z) (m : mmr) : mmr * mmrRound :=
  match rounds m !! r with
  | Some round => (m, round)
  | None => (set_rounds (<[r := mmr_newRound m]> (rounds m)) m, mmr_newRound m)
  end.

Definition put_round (r : Z) (round : mmrRound) (m : mmr) : mmr :=
  set_rounds (<[r := round]> (rounds m)) m.

Inductive mmr_err :=
| RoundErr (r : Z) (e : bca_err)
| CoinErr (r : Z) (e : round_err)
| TermErr (e : term_err).

(** A method of round [r]; its error is wrapped. *)
Definition on_round (r : Z) (op : ∀ T, BCA T → T → outcome (T * option bca_err)) (m : mmr) :
    outcome (mmr * option mmr_err) :=
  let '(m, round) := getRound r m in
  '(round, err) ← round_call op round;
  Done (put_round r round m, option_map (RoundErr r) err).

Definition mmr_propose (est prevCoin r : Z) (m : mmr) : outcome (mmr * option mmr_err) :=
  on_round r (λ T _, bca_propose est prevCoin) m.
Definition mmr_submitEcho (echo : Z) (sender : UUID) (r : Z) (m : mmr) :=
  on_round r (λ T _, bca_submitEcho echo sender) m.
Definition mmr_submitVote (vote : Z) (sender : UUID) (r : Z) (m : mmr) :=
  on_round r (λ T _, bca_submitVote vote sender) m.
Definition mmr_submitBind (bind : Z) (sender : UUID) (r : Z) (m : mmr) :=
  on_round r (λ T _, bca_submitBind bind sender) m.

(** The next round is [r + 1] on 16 bits. *)
Definition mmr_submitExternallyValid (v r : Z) (m : mmr) : outcome mmr :=
  '(m, _) ← on_round (uint16_add r 1)
              (λ T _ t, t ← bca_submitExternallyValid v t; Done (t, None)) m;
  Done m.

Definition mmr_submitCoin (coin r : Z) (m : mmr) : outcome (mmr * option mmr_err) :=
  let '(m, round) := getRound r m in
  '(round, res) ← round_submitCoin coin round;
  let m := put_round r round m in
  match res with
  | Err e => Done (m, Some (CoinErr r e))
  | Ok t =>
    if decided t && negb (hasDecided m) then
      match reachedDecision m with
      | [] => Done (set_decision [estimate t] (deliverDecision m) true (m_reach m) m, None)
      | _ => Block
      end
    else mmr_propose (estimate t) coin (uint16_add r 1) m
  end.

(** ** Goroutines *)

(** One iteration of [listenRequests] for round [r], by the channel it reads:
    [inl c] is the output channel [c] of the round, [inr tt] is [coinReqChan]. *)
Definition listenRequests (r : Z) (br : bca_chan + unit) (m : mmr) : option (mmr * option Z) :=
  round ← rounds m !! r;
  match br with
  | inl c =>
    if decide (c ∈ [CEcho; CVote; CBind; CExt]) then
      '(round, v) ← round_try (λ T _ t, '(v, t) ← bca_take c t; Some (t, v)) round;
      Some (push_msg c (RoundMsg v r) (put_round r round m), Some v)
    else None
  | inr _ =>
    match coinReqChan round with
    | _ :: q =>
      Some (push_coinReq r (put_round r (MmrRound (rd_bca round) q (coinReceiveChan round)
              (internalTransition round) (rd_pc round)) m), None)
    | [] => None
    end
  end.

(** A step of the goroutines of round [r]: those of its crusader agreement and
    [execRound]. *)
Definition mmr_go (r : Z) (g : bca_go) (br : bca_chan) (m : mmr) : option mmr :=
  round ← rounds m !! r;
  '(round, _) ← round_try (λ T _ t, t ← bca_step g br t; Some (t, tt)) round;
  Some (put_round r round m).
Definition mmr_execRound (r : Z) (m : mmr) : option (mmr * option Z) :=
  round ← rounds m !! r;
  '(round, dec) ← execRound round;
  Some (put_round r round m, dec).

Definition mmr_submitDecision (decision : Z) (sender : UUID) (m : mmr) :
    outcome (mmr * option mmr_err) :=
  '(t, err) ← term_submitDecision decision sender (termGadget m);
  Done (set_term t m, option_map TermErr err).

(** [reachDecision]: [true] is the branch of [reachedDecision], [false] that of
    the termination gadget. *)
Definition reachDecision (br : bool) (m : mmr) : option mmr :=
  match m_reach m with
  | R_wait =>
    if br then
      match reachedDecision m with
      | d :: q => Some (set_decision q (deliverDecision m) (hasDecided m) (R_send d) m)
      | [] => None
      end
    else
      '(d, t) ← term_take (termGadget m);
      Some (set_decision (reachedDecision m) (deliverDecision m) (hasDecided m) (R_send d) (set_term t m))
  | R_send d =>
    match deliverDecision m with
    | [] => Some (set_decision (reachedDecision m) [d] (hasDecided m) R_done m)
    | _ => None
    end
  | R_done => None
  end.

(** ** [concurrentMMR] *)

Definition conc_propose (est : Z) (m : mmr) : outcome (mmr * option mmr_err) :=
  mmr_propose est bot firstRound m.

(** [listenExternallyValid] and the command it schedules, for the [i]-th value
    waiting. *)
Definition listenExternallyValid (i : nat) (m : mmr) : option (outcome mmr) :=
  x ← deliverExternallyValid m !! i;
  Some (mmr_submitExternallyValid (val x) (rnum x)
          (set_external (delete i (deliverExternallyValid m)) m)).
