(* ===== verification/AbaNetwork.v ===== *)
(** * The binary agreement among [n] processes

    Every correct process runs an [mmr].  A configuration gives, per process,
    the state and what has left it: the values its rounds produced, the
    proposals its rounds accepted and the decisions it has output.  The coin is
    a function of the round, the same at all processes (what the coin tosser
    promises), and otherwise arbitrary. *)

From stdpp Require Import base tactics numbers list fin_sets gmap functions relations.
From Stdlib Require Import FunctionalExtensionality.
From S2P Require Import Prelude Utils Bca BcaNet Ivbca IvbcaCorrect Evbca EvbcaCorrect.
From S2P Require Import Round Termination Mmr.

Local Open Scope Z_scope.

Record aba_node := AbaNode {
  ab_mmr : mmr;
  ab_taken : Z → bca_chans;
  ab_proposed : Z → list (Z * Z);
  ab_out : list Z;
}.

Abbreviation aba_config := (UUID → aba_node).

Inductive aba_event :=
| APropose (est : Z)
| AMsg (k : bca_kind) (v : Z) (sender : UUID) (r : Z)
| AGo (r : Z) (g : bca_go) (br : bca_chan)
| AListen (r : Z) (br : bca_chan + unit)
| AExec (r : Z)
| ACoin (r : Z)
| AExternal (i : nat)
| ADecision (d : Z) (sender : UUID)
| AReach (br : bool)
| AOutput.

Definition log_taken (r : Z) (c : bca_chan) (v : Z) (tk : Z → bca_chans) : Z → bca_chans :=
  <[r := <[c := tk r c ++ [v]]> (tk r)]> tk.
Definition log_proposal (r : Z) (p : Z * Z) (pr : Z → list (Z * Z)) : Z → list (Z * Z) :=
  <[r := p :: pr r]> pr.

(** The proposal [submitCoin] makes to the next round, if it makes one. *)
Definition coin_proposal (c r : Z) (m : mmr) : option (Z * Z) :=
  round ← rounds m !! r;
  match rd_pc round with
  | X_coin dec =>
    let t := transition dec c in
    if decided t && negb (hasDecided m) then None else Some (estimate t, c)
  | _ => None
  end.

Section exec.
Context (coin : Z → Z).

Definition mmr_submit (k : bca_kind) (v : Z) (s : UUID) (r : Z) : mmr → outcome (mmr * option mmr_err) :=
  match k with
  | KEcho => mmr_submitEcho v s r
  | KVote => mmr_submitVote v s r
  | KBind => mmr_submitBind v s r
  end.

(** The receive of [deliverDecision] by the owner. *)
Definition take_decision (m : mmr) : option (mmr * Z) :=
  match deliverDecision m with
  | d :: q => Some (set_decision (reachedDecision m) q (hasDecided m) (m_reach m) m, d)
  | [] => None
  end.

Definition aba_exec (e : aba_event) (nd : aba_node) : option aba_node :=
  let m := ab_mmr nd in
  match e with
  | APropose est =>
    '(m, err) ← done_opt (conc_propose est m);
    Some (AbaNode m (ab_taken nd)
            (if err is Some _ then ab_proposed nd
             else log_proposal firstRound (est, bot) (ab_proposed nd)) (ab_out nd))
  | AMsg k v s r =>
    '(m, _) ← done_opt (mmr_submit k v s r m);
    Some (AbaNode m (ab_taken nd) (ab_proposed nd) (ab_out nd))
  | AGo r g br =>
    m ← mmr_go r g br m; Some (AbaNode m (ab_taken nd) (ab_proposed nd) (ab_out nd))
  | AListen r br =>
    '(m, v) ← listenRequests r br m;
    Some (AbaNode m (match br, v with
                     | inl c, Some v => log_taken r c v (ab_taken nd)
                     | _, _ => ab_taken nd end) (ab_proposed nd) (ab_out nd))
  | AExec r =>
    '(m, dec) ← mmr_execRound r m;
    Some (AbaNode m (if dec is Some d then log_taken r COut d (ab_taken nd) else ab_taken nd)
            (ab_proposed nd) (ab_out nd))
  | ACoin r =>
    '(m', err) ← done_opt (mmr_submitCoin (coin r) r m);
    Some (AbaNode m' (ab_taken nd)
            (match err, coin_proposal (coin r) r m with
             | None, Some p => log_proposal (uint16_add r 1) p (ab_proposed nd)
             | _, _ => ab_proposed nd end) (ab_out nd))
  | AExternal i =>
    o ← listenExternallyValid i m;
    m ← done_opt o; Some (AbaNode m (ab_taken nd) (ab_proposed nd) (ab_out nd))
  | ADecision d s =>
    '(m, _) ← done_opt (mmr_submitDecision d s m);
    Some (AbaNode m (ab_taken nd) (ab_proposed nd) (ab_out nd))
  | AReach br =>
    m ← reachDecision br m; Some (AbaNode m (ab_taken nd) (ab_proposed nd) (ab_out nd))
  | AOutput =>
    '(m, d) ← take_decision m; Some (AbaNode m (ab_taken nd) (ab_proposed nd) (ab_out nd ++ [d]))
  end.

Definition aba_start (n f : Z) : aba_node := AbaNode (newMMR n f) (λ _ _, []) (λ _, []) [].

(** *** The network *)

Context (mb : membership UUID) (inputs : UUID → Z → Prop).

Definition is_round (r : Z) : Prop := 0 ≤ r < 2 ^ 16.

Definition aba_event_ok (C : aba_config) (j : UUID) (e : aba_event) : Prop :=
  match e with
  | APropose est => inputs j est
  | AMsg k v s r => is_round r ∧ s ∈ peers mb ∧ (s ∈ faulty mb ∨ v ∈ ab_taken (C s) r (kind_chan k))
  | ACoin r => is_round r
  | ADecision d s => 0 ≤ d ∧ s ∈ peers mb ∧ (s ∈ faulty mb ∨ d ∈ ab_out (C s))
  | _ => True
  end.

Inductive aba_net_step (C : aba_config) : aba_config → Prop :=
| aba_net_event j e nd :
    bca_correct mb j → aba_event_ok C j e → aba_exec e (C j) = Some nd →
    aba_net_step C (<[j := nd]> C).

Definition aba_net_init : aba_config := λ _, aba_start (mb_n mb) (mb_f mb).
Definition aba_reachable (C : aba_config) : Prop := rtc aba_net_step aba_net_init C.

Definition Outputs (C : aba_config) (j : UUID) (d : Z) : Prop := d ∈ ab_out (C j).
End exec.

Lemma done_opt_inv {A} (o : outcome A) a : done_opt o = Some a → o = Done a.
Proof. destruct o; simpl; [by intros [= ->]|done..]. Qed.

(** ** The cases of a step

    Each event with what its code has found and changed. *)
Inductive aba_case (coin : Z → Z) (nd : aba_node) : aba_event → aba_node → Prop :=
| case_propose est m err :
    mmr_propose est bot firstRound (ab_mmr nd) = Done (m, err) →
    aba_case coin nd (APropose est) (AbaNode m (ab_taken nd)
      (if err is Some _ then ab_proposed nd
       else log_proposal firstRound (est, bot) (ab_proposed nd)) (ab_out nd))
| case_msg k v s r m err :
    on_round r (λ T _, bca_submit k v s) (ab_mmr nd) = Done (m, err) →
    aba_case coin nd (AMsg k v s r) (AbaNode m (ab_taken nd) (ab_proposed nd) (ab_out nd))
| case_go r g br rd rd' :
    rounds (ab_mmr nd) !! r = Some rd →
    round_try (λ T _ t, t ← bca_step g br t; Some (t, tt)) rd = Some (rd', tt) →
    aba_case coin nd (AGo r g br)
      (AbaNode (put_round r rd' (ab_mmr nd)) (ab_taken nd) (ab_proposed nd) (ab_out nd))
| case_take r c rd rd' v :
    rounds (ab_mmr nd) !! r = Some rd → c ∈ [CEcho; CVote; CBind; CExt] →
    round_try (λ T _ t, '(v, t) ← bca_take c t; Some (t, v)) rd = Some (rd', v) →
    aba_case coin nd (AListen r (inl c))
      (AbaNode (push_msg c (RoundMsg v r) (put_round r rd' (ab_mmr nd)))
         (log_taken r c v (ab_taken nd)) (ab_proposed nd) (ab_out nd))
| case_request r rd u q :
    rounds (ab_mmr nd) !! r = Some rd → coinReqChan rd = u :: q →
    aba_case coin nd (AListen r (inr tt))
      (AbaNode (push_coinReq r (put_round r (MmrRound (rd_bca rd) q (coinReceiveChan rd)
         (internalTransition rd) (rd_pc rd)) (ab_mmr nd))) (ab_taken nd) (ab_proposed nd) (ab_out nd))
| case_round r rd rd' dec :
    rounds (ab_mmr nd) !! r = Some rd → execRound rd = Some (rd', dec) →
    aba_case coin nd (AExec r)
      (AbaNode (put_round r rd' (ab_mmr nd))
         (if dec is Some d then log_taken r COut d (ab_taken nd) else ab_taken nd)
         (ab_proposed nd) (ab_out nd))
| case_coin r m err :
    mmr_submitCoin (coin r) r (ab_mmr nd) = Done (m, err) →
    aba_case coin nd (ACoin r) (AbaNode m (ab_taken nd)
      (match err, coin_proposal (coin r) r (ab_mmr nd) with
       | None, Some p => log_proposal (uint16_add r 1) p (ab_proposed nd)
       | _, _ => ab_proposed nd end) (ab_out nd))
| case_external i x m err :
    deliverExternallyValid (ab_mmr nd) !! i = Some x →
    on_round (uint16_add (rnum x) 1)
      (λ T _ t, t ← bca_submitExternallyValid (val x) t; Done (t, None))
      (set_external (delete i (deliverExternallyValid (ab_mmr nd))) (ab_mmr nd)) = Done (m, err) →
    aba_case coin nd (AExternal i) (AbaNode m (ab_taken nd) (ab_proposed nd) (ab_out nd))
| case_decision d s t err :
    term_submitDecision d s (termGadget (ab_mmr nd)) = Done (t, err) →
    aba_case coin nd (ADecision d s)
      (AbaNode (set_term t (ab_mmr nd)) (ab_taken nd) (ab_proposed nd) (ab_out nd))
| case_reached d q :
    m_reach (ab_mmr nd) = R_wait → reachedDecision (ab_mmr nd) = d :: q →
    aba_case coin nd (AReach true)
      (AbaNode (set_decision q (deliverDecision (ab_mmr nd)) (hasDecided (ab_mmr nd)) (R_send d)
         (ab_mmr nd)) (ab_taken nd) (ab_proposed nd) (ab_out nd))
| case_terminated d t :
    m_reach (ab_mmr nd) = R_wait → term_take (termGadget (ab_mmr nd)) = Some (d, t) →
    aba_case coin nd (AReach false)
      (AbaNode (set_decision (reachedDecision (ab_mmr nd)) (deliverDecision (ab_mmr nd))
         (hasDecided (ab_mmr nd)) (R_send d) (set_term t (ab_mmr nd)))
         (ab_taken nd) (ab_proposed nd) (ab_out nd))
| case_deliver br d :
    m_reach (ab_mmr nd) = R_send d → deliverDecision (ab_mmr nd) = [] →
    aba_case coin nd (AReach br)
      (AbaNode (set_decision (reachedDecision (ab_mmr nd)) [d] (hasDecided (ab_mmr nd)) R_done
         (ab_mmr nd)) (ab_taken nd) (ab_proposed nd) (ab_out nd))
| case_output d q :
    deliverDecision (ab_mmr nd) = d :: q →
    aba_case coin nd AOutput
      (AbaNode (set_decision (reachedDecision (ab_mmr nd)) q (hasDecided (ab_mmr nd))
         (m_reach (ab_mmr nd)) (ab_mmr nd)) (ab_taken nd) (ab_proposed nd) (ab_out nd ++ [d])).

Lemma aba_exec_case coin e nd nd' : aba_exec coin e nd = Some nd' → aba_case coin nd e nd'.
Proof.
  intros Hex. destruct e as [est|k v s r|r g br|r br|r|r|i|d s|br|]; cbn [aba_exec] in Hex;
    apply bind_Some in Hex as (x & Hx & Hex);
    match type of x with prod _ _ => destruct x as [m y]; injection Hex as <- | _ => idtac end;
    try apply done_opt_inv in Hx.
  - by constructor.
  - econstructor. by destruct k.
  - injection Hex as <-. apply bind_Some in Hx as (rd & Hrd & ([rd' []] & Ht & [= <-])%bind_Some).
    by econstructor.
  - apply bind_Some in Hx as (rd & Hrd & Hx). destruct br as [c|[]].
    + case_decide; [|done]. apply bind_Some in Hx as ([rd' v] & Ht & [= <- <-]). by econstructor.
    + destruct (coinReqChan rd) eqn:Hq; [done|]. injection Hx as <- <-. by econstructor.
  - apply bind_Some in Hx as (rd & Hrd & ([rd' dec] & Ht & [= <- <-])%bind_Some). by econstructor.
  - by constructor.
  - apply bind_Some in Hex as (m & Hm%done_opt_inv & [= <-]). subst x.
    apply bind_Some in Hx as (x & Hi & [= Hx]). unfold mmr_submitExternallyValid in Hx.
    destruct (on_round _ _ _) as [[m' err]| |] eqn:Hon; [|done..]. injection Hx as ->. by econstructor.
  - unfold mmr_submitDecision in Hx. destruct (term_submitDecision _ _ _) as [[t e]| |] eqn:Ht; [|done..].
    injection Hx as <- <-. by econstructor.
  - injection Hex as <-. unfold reachDecision in Hx. destruct (m_reach (ab_mmr nd)) eqn:Hm; [destruct br|..].
    + destruct (reachedDecision (ab_mmr nd)) eqn:Hq; [done|]. injection Hx as <-. by econstructor.
    + apply bind_Some in Hx as ([d t] & Ht & [= <-]). by econstructor.
    + destruct (deliverDecision (ab_mmr nd)) eqn:Hq; [|done]. injection Hx as <-. by constructor.
    + done.
  - unfold take_decision in Hx. destruct (deliverDecision (ab_mmr nd)) eqn:Hq; [done|].
    injection Hx as <- <-. by constructor.
Qed.

(** ** Projection on one round *)

Definition kind_ok (r : Z) (b : round_bca) : Prop :=
  match b with IV _ => r = 0 | EV _ => r ≠ 0 end.

(** Rounds of one kind: round 0 runs [ivbca], the others [evbca]. *)
Class RoundKind (T : Set) `{!BCA T} : Type := {
  rk_round : Z → Prop;
  rk_inj : T → round_bca;
  rk_of : round_bca → option T;
  rk_of_inj t : rk_of (rk_inj t) = Some t;
  rk_kind r b : rk_round r → kind_ok r b → ∃ t, b = rk_inj t;
  rk_kind_inj r t : rk_round r → kind_ok r (rk_inj t);
  rk_first r n f t : rk_round r → rk_inj t = IV (newBCA n f) → t = bca_new n f;
  rk_new r n f : rk_round r → r ≠ 0 → rd_bca (newRound n f) = rk_inj (bca_new n f);
  rk_call {X} (op : ∀ T, BCA T → T → outcome (T * X)) t :
    rb_call op (rk_inj t) = ('(t, x) ← op T _ t; Done (rk_inj t, x));
  rk_try {X} (op : ∀ T, BCA T → T → option (T * X)) t :
    rb_try op (rk_inj t) = ('(t, x) ← op T _ t; Some (rk_inj t, x));
  rk_propose_err est c (t t' : T) err : bca_propose est c t = Done (t', Some err) → t' = t;
}.

#[export] Program Instance ivbca_kind : RoundKind ivbca := {
  rk_round r := r = 0;
  rk_inj := IV;
  rk_of b := match b with IV b => Some b | EV _ => None end;
}.
Solve Obligations with try done.
Next Obligation. intros r [b|b] -> Hk; [by exists b|by destruct Hk]. Qed.
Next Obligation. by intros r n f t _ [= ->]. Qed.
Next Obligation.
  intros est c t t' err. simpl. unfold ivbca_propose.
  repeat (case_match; try done); try (by intros [= <-]).
  - destruct (slice_get (sentEchoes t) est) as [[]| |]; simpl; try done.
    by destruct (ivbca_broadcastEcho est t).
Qed.

#[export] Program Instance evbca_kind : RoundKind evbca := {
  rk_round r := r ≠ 0;
  rk_inj := EV;
  rk_of b := match b with EV b => Some b | IV _ => None end;
}.
Solve Obligations with try done.
Next Obligation. intros r [b|b] Hr Hk; [by destruct Hr|by exists b]. Qed.
Next Obligation.
  intros est c t t' err. simpl. unfold evbca_propose.
  case_match; [by intros [= <-]|]. case_match; [by intros [= <-]|].
  case_match; [by destruct (fastForward est t)|]. case_match; [by destruct (voteOnCoin c t)|].
  destruct (slice_get (ev_sentEchoes t) est) as [b| |]; simpl; try done.
  destruct (if b then _ else _); simpl; try done. by destruct (ev_send _ _ _).
Qed.

Section project.
Context {T : Set} `{!BCA T, !RoundKind T} (mb : membership UUID).

#[local] Abbreviation n := (mb_n mb).
#[local] Abbreviation f := (mb_f mb).

Definition round_state (r : Z) (m : mmr) : T :=
  match rounds m !! r with
  | Some rd => default (bca_new n f) (rk_of (rd_bca rd))
  | None => bca_new n f
  end.

Definition project (r : Z) (nd : aba_node) : bca_node T :=
  BcaNode (round_state r (ab_mmr nd)) (ab_taken nd r) (ab_proposed nd r).

(** *** Well-formed instances *)

Record mmr_ok (m : mmr) : Prop := {
  mo_conf : m_n m = n ∧ m_f m = f;
  mo_first : is_Some (rounds m !! firstRound);
  mo_kind r rd : rounds m !! r = Some rd → kind_ok r (rd_bca rd);
}.

(** What [execRound] and [submitCoin] know of a round. *)
Definition round_info (m : mmr) (r : Z) : round_pc * list Z * list roundTransitionResult :=
  match rounds m !! r with
  | Some rd => (rd_pc rd, coinReceiveChan rd, internalTransition rd)
  | None => (X_dec, [], [])
  end.

Lemma round_state_put r r' rd m t :
  rd_bca rd = rk_inj t →
  round_state r' (put_round r rd m) = if decide (r = r') then t else round_state r' m.
Proof.
  intros Ht. unfold round_state, put_round. simpl. case_decide as E.
  - subst. by rewrite lookup_insert_eq, Ht, rk_of_inj.
  - by rewrite lookup_insert_ne.
Qed.

Lemma round_state_put_ne r r' rd m :
  r ≠ r' → round_state r' (put_round r rd m) = round_state r' m.
Proof. intros. unfold round_state, put_round. simpl. by rewrite lookup_insert_ne. Qed.

Lemma round_info_put r r' rd m :
  round_info (put_round r rd m) r' =
  if decide (r = r') then (rd_pc rd, coinReceiveChan rd, internalTransition rd) else round_info m r'.
Proof.
  unfold round_info, put_round. simpl. case_decide as E.
  - subst. by rewrite lookup_insert_eq.
  - by rewrite lookup_insert_ne.
Qed.

Lemma mmr_ok_put r rd m : mmr_ok m → kind_ok r (rd_bca rd) → mmr_ok (put_round r rd m).
Proof.
  intros [? ? ?] Hk. split; simpl; [done| |].
  - destruct (decide (r = firstRound)) as [->|]; [rewrite lookup_insert_eq; by eexists|].
    by rewrite lookup_insert_ne.
  - intros r' rd'. destruct (decide (r = r')) as [->|].
    + rewrite lookup_insert_eq. by intros [= <-].
    + rewrite lookup_insert_ne by done. auto.
Qed.

(** A state seen by none of the rounds. *)
Definition same_rounds (m m' : mmr) : Prop := rounds m' = rounds m ∧ m_n m' = m_n m ∧ m_f m' = m_f m.

Lemma same_rounds_ok m m' : same_rounds m m' → mmr_ok m → mmr_ok m'.
Proof. intros (Hr & Hn & Hf) []. split; rewrite ?Hr, ?Hn, ?Hf; done. Qed.
Lemma same_rounds_state m m' r : same_rounds m m' → round_state r m' = round_state r m.
Proof. intros (Hr & _). unfold round_state. by rewrite Hr. Qed.
Lemma same_rounds_info m m' r : same_rounds m m' → round_info m' r = round_info m r.
Proof. intros (Hr & _). unfold round_info. by rewrite Hr. Qed.

(** Looking a round up creates it in the state a new one has. *)
Lemma getRound_spec r m m1 rd :
  mmr_ok m → getRound r m = (m1, rd) →
  (∃ x, m1 = set_rounds x m) ∧ mmr_ok m1 ∧ kind_ok r (rd_bca rd) ∧
  (∀ r', round_info m1 r' = round_info m r') ∧
  (rd_pc rd, coinReceiveChan rd, internalTransition rd) = round_info m r ∧
  (∀ r', rk_round r' → round_state r' m1 = round_state r' m) ∧
  (rk_round r → rd_bca rd = rk_inj (round_state r m)).
Proof.
  intros Hok. unfold getRound. destruct (rounds m !! r) as [rd0|] eqn:E.
  - intros [= <- <-]. pose proof (mo_kind _ Hok r rd0 E) as Hk.
    split; [exists (rounds m); by destruct m|]. split; [done|]. split; [done|]. split; [done|].
    split; [unfold round_info; by rewrite E|]. split; [done|]. intros Hr.
    destruct (rk_kind r _ Hr Hk) as [t Ht]. unfold round_state. by rewrite E, Ht, rk_of_inj.
  - intros [= <- <-]. assert (Hr0 : r ≠ 0).
    { intros ->. destruct (mo_first _ Hok) as [x Hx]. unfold firstRound in Hx. congruence. }
    destruct (mo_conf _ Hok) as [Hn Hf].
    split; [by eexists|]. split; [by apply (mmr_ok_put r (mmr_newRound m))|]. split; [done|].
    split; [|split; [unfold round_info; by rewrite E|split]].
    + intros r'. unfold round_info. simpl. destruct (decide (r = r')) as [->|].
      * rewrite lookup_insert_eq, E. done.
      * by rewrite lookup_insert_ne.
    + intros r' Hr'. unfold round_state. simpl. destruct (decide (r = r')) as [->|].
      * rewrite lookup_insert_eq, E. unfold mmr_newRound.
        by rewrite Hn, Hf, (rk_new r' n f Hr' Hr0), rk_of_inj.
      * by rewrite lookup_insert_ne.
    + intros Hr. unfold round_state. rewrite E. unfold mmr_newRound. rewrite Hn, Hf. by apply (rk_new r).
Qed.

(** A call through the interface on a round of this kind. *)
Lemma round_call_spec {X} (op : ∀ T, BCA T → T → outcome (T * X)) rd rd' x :
  round_call op rd = Done (rd', x) →
  (rd_pc rd', coinReceiveChan rd', internalTransition rd') =
    (rd_pc rd, coinReceiveChan rd, internalTransition rd) ∧
  (∀ r, kind_ok r (rd_bca rd) → kind_ok r (rd_bca rd')) ∧
  ∀ t, rd_bca rd = rk_inj t → ∃ t', op T _ t = Done (t', x) ∧ rd_bca rd' = rk_inj t'.
Proof.
  unfold round_call. intros Hc.
  destruct (rb_call op (rd_bca rd)) as [[b y]| |] eqn:E; [|done..]. injection Hc as <- <-.
  split; [done|]. split.
  - intros r. simpl. unfold rb_call in E. destruct (rd_bca rd) as [b0|b0];
      destruct (op _ _ b0) as [[b1 y1]| |]; try done; injection E as <- <-; done.
  - intros t Ht. rewrite Ht, rk_call in E. destruct (op T _ t) as [[t' y']| |]; try done.
    injection E as <- <-. by exists t'.
Qed.

Lemma round_try_spec {X} (op : ∀ T, BCA T → T → option (T * X)) rd rd' x :
  round_try op rd = Some (rd', x) →
  (rd_pc rd', coinReceiveChan rd', internalTransition rd') =
    (rd_pc rd, coinReceiveChan rd, internalTransition rd) ∧
  (∀ r, kind_ok r (rd_bca rd) → kind_ok r (rd_bca rd')) ∧
  ∀ t, rd_bca rd = rk_inj t → ∃ t', op T _ t = Some (t', x) ∧ rd_bca rd' = rk_inj t'.
Proof.
  unfold round_try. intros ([b y] & E & [= <- <-])%bind_Some.
  split; [done|]. split.
  - intros r. simpl. unfold rb_try in E. destruct (rd_bca rd) as [b0|b0];
      apply bind_Some in E as ([b1 y1] & _ & [= <- <-]); done.
  - intros t Ht. rewrite Ht, rk_try in E. apply bind_Some in E as ([t' y'] & E & [= <- <-]).
    by exists t'.
Qed.

Lemma on_round_spec r (op : ∀ T, BCA T → T → outcome (T * option bca_err)) m m' err :
  mmr_ok m → on_round r op m = Done (m', err) →
  (∃ x, m' = set_rounds x m) ∧ mmr_ok m' ∧ (∀ r', round_info m' r' = round_info m r') ∧
  (∀ r', rk_round r' → r' ≠ r → round_state r' m' = round_state r' m) ∧
  (rk_round r → ∃ e, op T _ (round_state r m) = Done (round_state r m', e) ∧
                     err = option_map (RoundErr r) e).
Proof.
  intros Hok Hon. unfold on_round in Hon. destruct (getRound r m) as [m1 rd] eqn:Hg.
  destruct (getRound_spec r m m1 rd Hok Hg) as ([x ->] & Hok1 & Hk & Hinf & Hrd & Hst & Hrk).
  destruct (round_call op rd) as [[rd' e]| |] eqn:Hc; [|done..]. injection Hon as <- <-.
  destruct (round_call_spec op rd rd' e Hc) as (Hpc & Hk' & Hop).
  split; [by eexists|]. split; [apply mmr_ok_put; auto|]. split; [|split].
  - intros r'. rewrite round_info_put. case_decide; [subst; congruence|apply Hinf].
  - intros r' Hr' Hne. rewrite round_state_put_ne by done. by apply Hst.
  - intros Hr. destruct (Hop _ (Hrk Hr)) as (t' & Ht' & Hb'). exists e. split; [|done].
    rewrite (round_state_put r r rd' _ t' Hb'), decide_True by done. done.
Qed.

(** The outcomes of [submitCoin]. *)
Lemma mmr_submitCoin_spec c r m m' err :
  mmr_ok m → mmr_submitCoin c r m = Done (m', err) →
  ∃ m2 x, m2 = set_rounds x m ∧ mmr_ok m2 ∧
    (∀ r', rk_round r' → round_state r' m2 = round_state r' m) ∧
    (err ≠ None ∧ m' = m2 ∧ (∀ r', round_info m2 r' = round_info m r') ∨
     ∃ dec, (c = 0 ∨ c = 1) ∧ round_info m r = (X_coin dec, [], []) ∧
       (∀ r', round_info m2 r' = if decide (r = r') then (X_done, [], []) else round_info m r') ∧
       let t := transition dec c in
       (decided t = true ∧ hasDecided m = false ∧ err = None ∧ reachedDecision m = [] ∧
          m' = set_decision [estimate t] (deliverDecision m2) true (m_reach m2) m2 ∨
        decided t && negb (hasDecided m) = false ∧
          mmr_propose (estimate t) c (uint16_add r 1) m2 = Done (m', err))).
Proof.
  intros Hok Hs. unfold mmr_submitCoin in Hs. destruct (getRound r m) as [m1 rd] eqn:Hg.
  destruct (getRound_spec r m m1 rd Hok Hg) as ([x ->] & Hok1 & Hk & Hinf & Hrd & Hst & Hrk).
  destruct (round_submitCoin c rd) as [[rd' res]| |] eqn:Hc; [|done..].
  cbn [mbind outcome_bind] in Hs.
  assert (Hb : rd_bca rd' = rd_bca rd).
  { destruct (round_submitCoin_inv _ _ _ _ Hc) as [[-> _]|(d & _ & _ & _ & Hb & _)]; done. }
  assert (Hst' : ∀ r', rk_round r' → round_state r' (put_round r rd' (set_rounds x m)) = round_state r' m).
  { intros r' Hr'. rewrite <-(Hst r' Hr'). destruct (decide (r = r')) as [<-|];
      [|by rewrite round_state_put_ne].
    rewrite (round_state_put r r rd' _ (round_state r m)), decide_True by (rewrite ?Hb; auto).
    symmetry. by apply Hst. }
  exists (put_round r rd' (set_rounds x m)), (<[r := rd']> x). split; [done|].
  split; [apply mmr_ok_put; [done|by rewrite Hb]|]. split; [done|].
  destruct (round_submitCoin_inv _ _ _ _ Hc)
    as [[-> [e ->]]|(d & Hpc & Hbit & Hit & _ & Hpc' & Hit' & Hcr & ->)].
  - injection Hs as <- <-. left. split; [done|]. split; [done|]. intros r'.
    rewrite round_info_put. case_decide; [subst; congruence|apply Hinf].
  - right. exists d. split; [done|]. rewrite Hpc, Hcr, Hit in Hrd. split; [done|]. split.
    + intros r'. rewrite round_info_put. case_decide; [|apply Hinf].
      rewrite Hpc', Hit'. rewrite (round_submitCoin_spec rd d c) in Hc by done.
      injection Hc as <-. done.
    + change (hasDecided (put_round r rd' (set_rounds x m))) with (hasDecided m) in Hs.
      change (reachedDecision (put_round r rd' (set_rounds x m))) with (reachedDecision m) in Hs.
      destruct (decided (transition d c)) eqn:Hd, (hasDecided m) eqn:Hh; simpl in Hs.
      * right. rewrite Hd. by split.
      * left. destruct (reachedDecision m); [|done]. injection Hs as <- <-. done.
      * right. rewrite Hd. by split.
      * right. rewrite Hd. by split.
Qed.

Lemma coin_proposal_spec c r m dec :
  round_info m r = (X_coin dec, [], []) →
  coin_proposal c r m =
    (if decided (transition dec c) && negb (hasDecided m) then None
     else Some (estimate (transition dec c), c)).
Proof.
  unfold round_info, coin_proposal. destruct (rounds m !! r) as [rd|]; [|done].
  simpl. by intros [= -> _ _].
Qed.

(** A round that exists is this one, of this kind, or another one. *)
Lemma rk_kind_or r r0 rd m :
  mmr_ok m → rounds m !! r0 = Some rd → rk_round r → (r = r0 ∧ ∃ t, rd_bca rd = rk_inj t) ∨ r0 ≠ r.
Proof.
  intros Hok Hrd Hr. destruct (decide (r0 = r)) as [->|]; [left|by right].
  split; [done|]. by apply (rk_kind r), (mo_kind _ Hok).
Qed.

(** [execRound] touches the crusader agreement only to take its decision. *)
Lemma execRound_bca rd rd' dec t :
  execRound rd = Some (rd', dec) → rd_bca rd = rk_inj t →
  (dec = None ∧ rd_bca rd' = rk_inj t) ∨
  ∃ d t', dec = Some d ∧ bca_take COut t = Some (d, t') ∧ rd_bca rd' = rk_inj t'.
Proof.
  intros He Hb. unfold execRound in He. destruct (rd_pc rd).
  - apply bind_Some in He as ([b d] & He & [= <- <-]). right.
    rewrite Hb, rk_try in He. apply bind_Some in He as ([t' d'] & He & [= <- <-]).
    apply bind_Some in He as ([d1 t1] & He & [= -> ->]). by exists d', t'.
  - destruct (coinReqChan rd); [|done]. injection He as <- <-. by left.
  - destruct (coinReceiveChan rd); [done|]. injection He as <- <-. by left.
  - destruct (internalTransition rd); [|done]. injection He as <- <-. by left.
  - done.
Qed.

(** *** Each event is one event, or none, of each round *)

Context (coin : Z → Z).

Definition is_proposal (be : bca_event) : option (Z * Z) :=
  match be with EvPropose est c => Some (est, c) | _ => None end.

(** [x'] is [x] after one event or none; [nd'] has logged what was proposed. *)
Definition round_event (r : Z) (e : aba_event) (nd' : aba_node) (x x' : bca_node T) : Prop :=
  x' = x ∨
  ∃ be, bca_exec be x = Some x' ∧
    match be with
    | EvPropose est c => (est, c) ∈ ab_proposed nd' r
    | EvMsg k v s => e = AMsg k v s r
    | _ => True
    end.

Definition projected (r : Z) (e : aba_event) (nd nd' : aba_node) : Prop :=
  round_event r e nd' (project r nd) (project r nd').

(** A step that replaces round [r0], without a proposal. *)
Lemma put_projected r0 rd rd' e nd nd' r :
  mmr_ok (ab_mmr nd) → rk_round r → rounds (ab_mmr nd) !! r0 = Some rd →
  same_rounds (put_round r0 rd' (ab_mmr nd)) (ab_mmr nd') →
  (∀ r, r0 ≠ r → ab_taken nd' r = ab_taken nd r) → ab_proposed nd' = ab_proposed nd →
  (∀ t, rd_bca rd = rk_inj t → ∃ t', rd_bca rd' = rk_inj t' ∧
     round_event r0 e nd' (BcaNode t (ab_taken nd r0) (ab_proposed nd r0))
       (BcaNode t' (ab_taken nd' r0) (ab_proposed nd r0))) →
  projected r e nd nd'.
Proof.
  intros Hok Hr Hrd Hsame Htk Hpr Hop. unfold projected, project.
  rewrite Hpr, (same_rounds_state _ _ _ Hsame).
  destruct (rk_kind_or r r0 rd _ Hok Hrd Hr) as [[-> [t Hb]]|Hrr].
  - destruct (Hop t Hb) as (t' & Hb' & Hev). rewrite (round_state_put r0 r0 rd' _ t' Hb'), decide_True by done.
    unfold round_state. rewrite Hrd, Hb, rk_of_inj. exact Hev.
  - left. by rewrite round_state_put_ne, Htk.
Qed.

Lemma log_taken_ne r c v tk r' : r ≠ r' → log_taken r c v tk r' = tk r'.
Proof. intros. unfold log_taken. by rewrite fn_lookup_insert_ne. Qed.
Lemma log_taken_eq r c v tk : log_taken r c v tk r = <[c := tk r c ++ [v]]> (tk r).
Proof. unfold log_taken. by rewrite fn_lookup_insert. Qed.

(** A proposal to round [r0], logged when it is accepted. *)
Lemma propose_projected r0 est c m m' err nd e tk out :
  mmr_ok m → mmr_propose est c r0 m = Done (m', err) →
  (∀ r, rk_round r → round_state r m = round_state r (ab_mmr nd)) → tk = ab_taken nd →
  ∀ r, rk_round r →
  projected r e nd (AbaNode m' tk
    (if err is Some _ then ab_proposed nd else log_proposal r0 (est, c) (ab_proposed nd)) out).
Proof.
  intros Hok Hp Hst -> r Hr. destruct (on_round_spec _ _ _ _ _ Hok Hp) as (_ & _ & _ & Hne & Heq).
  unfold projected, round_event, project. simpl. destruct (decide (r = r0)) as [->|Hrr].
  - destruct (Heq Hr) as (er & Hop & ->). rewrite Hst in Hop by done. destruct er as [er|]; simpl.
    + left. by rewrite (rk_propose_err _ _ _ _ _ Hop).
    + right. exists (EvPropose est c). unfold log_proposal. rewrite fn_lookup_insert. simpl.
      rewrite Hop. split; [done|]. by left.
  - left. rewrite (Hne r Hr Hrr), Hst by done. destruct err; [done|].
    unfold log_proposal. by rewrite fn_lookup_insert_ne.
Qed.

(** A call on round [r0] that proposes nothing. *)
Lemma call_projected r0 op m m1 m' err nd e r be :
  mmr_ok (ab_mmr nd) → rk_round r → same_rounds (ab_mmr nd) m1 →
  on_round r0 op m1 = Done (m', err) →
  (∀ t t' err, op T _ t = Done (t', err) →
     bca_exec be (BcaNode t (ab_taken nd r) (ab_proposed nd r)) =
     Some (BcaNode t' (ab_taken nd r) (ab_proposed nd r))) →
  match be with EvPropose _ _ => False | EvMsg k v s => e = AMsg k v s r0 | _ => True end →
  m = AbaNode m' (ab_taken nd) (ab_proposed nd) (ab_out nd) → projected r e nd m.
Proof.
  intros Hok Hr Hsame Hon Hop Hbe ->.
  destruct (on_round_spec _ _ _ _ _ (same_rounds_ok _ _ Hsame Hok) Hon) as (_ & _ & _ & Hne & Heq).
  unfold projected, round_event, project. simpl. destruct (decide (r = r0)) as [->|Hrr].
  - destruct (Heq Hr) as (er & Ho & _). rewrite (same_rounds_state _ _ _ Hsame) in Ho.
    right. exists be. split; [by eapply Hop|]. by destruct be.
  - left. by rewrite (Hne r Hr Hrr), (same_rounds_state _ _ _ Hsame).
Qed.

Lemma coin_projected r0 m err nd r :
  mmr_ok (ab_mmr nd) → rk_round r → mmr_submitCoin (coin r0) r0 (ab_mmr nd) = Done (m, err) →
  projected r (ACoin r0) nd (AbaNode m (ab_taken nd)
    (match err, coin_proposal (coin r0) r0 (ab_mmr nd) with
     | None, Some p => log_proposal (uint16_add r0 1) p (ab_proposed nd)
     | _, _ => ab_proposed nd end) (ab_out nd)).
Proof.
  intros Hok Hr Hp. destruct (mmr_submitCoin_spec _ _ _ _ _ Hok Hp) as (m2 & x & Hm2 & Hok2 & Hst & Hc).
  destruct Hc as [(He & -> & _)|(dec & _ & Hinf & _ & Ht)].
  { left. unfold project. simpl. rewrite Hst by done. by destruct err. }
  rewrite (coin_proposal_spec _ _ _ dec Hinf). destruct Ht as [(Hd & Hh & -> & _ & ->)|[Hd Hpr]].
  - left. rewrite Hd, Hh. simpl. unfold project. simpl.
    change (round_state r (set_decision ?a ?b ?c ?d ?m)) with (round_state r m). by rewrite Hst.
  - rewrite Hd. pose proof (propose_projected _ _ _ _ _ _ nd (ACoin r0) _ (ab_out nd)
      Hok2 Hpr Hst eq_refl r Hr) as Hproj. by destruct err.
Qed.

Lemma aba_exec_projected e nd nd' r :
  mmr_ok (ab_mmr nd) → rk_round r → aba_exec coin e nd = Some nd' → projected r e nd nd'.
Proof.
  intros Hok Hr Hex%aba_exec_case.
  destruct Hex as [est m err Hp|k v s r0 m err Hp|r0 g br rd rd' Hrd Ht|r0 c rd rd' v Hrd Hc Ht
    |r0 rd u q Hrd Hq|r0 rd rd' dec Hrd He|r0 m err Hp|i x m err Hx Hon|d s t err Hp| | | |].
  - by apply (propose_projected firstRound est bot (ab_mmr nd)).
  - apply (call_projected r0 _ _ _ _ _ _ _ _ (EvMsg k v s) Hok Hr (conj eq_refl (conj eq_refl eq_refl)) Hp);
      [|done..]. intros t t' er Hop. simpl. by rewrite Hop.
  - apply (put_projected r0 rd rd'); try done. intros t Hb.
    destruct (round_try_spec _ _ _ _ Ht) as (_ & _ & Hop). destruct (Hop t Hb) as (t' & Hs & Hb').
    exists t'. split; [done|]. right. exists (EvGo g br). simpl.
    apply bind_Some in Hs as (t1 & Hs & [= ->]). by rewrite Hs.
  - apply (put_projected r0 rd rd'); try done; [intros; by apply log_taken_ne|]. intros t Hb.
    destruct (round_try_spec _ _ _ _ Ht) as (_ & _ & Hop). destruct (Hop t Hb) as (t' & Hs & Hb').
    exists t'. split; [done|]. right. exists (EvTake c). simpl. rewrite log_taken_eq.
    apply bind_Some in Hs as ([w t1] & Hs & [= -> ->]). by rewrite Hs.
  - eapply (put_projected r0 rd); try done. intros t Hb. exists t. split; [done|by left].
  - apply (put_projected r0 rd rd'); try done.
    { intros. destruct dec; [by apply log_taken_ne|done]. }
    intros t Hb. destruct (execRound_bca rd rd' dec t He Hb) as [[-> Hb']|(d & t' & -> & Htk & Hb')].
    + exists t. split; [done|by left].
    + exists t'. split; [done|]. right. exists (EvTake COut). simpl. by rewrite log_taken_eq, Htk.
  - by apply coin_projected.
  - refine (call_projected _ _ _ _ _ _ _ _ _ (EvExternal (val x)) Hok Hr _ Hon _ I eq_refl); [done|].
    intros t t' er Hop. simpl. destruct (bca_submitExternallyValid (val x) t); [|done..]. by injection Hop as ->.
  - by left.
  - by left.
  - by left.
  - by left.
  - by left.
Qed.
End project.

(** ** The invariant of one process *)

Section node.
Context (mb : membership UUID) `{!Resilient mb} (coin : Z → Z).

(** [d] was decided by round [r] and agrees with its coin. *)
Definition lucky (nd : aba_node) (d : Z) : Prop :=
  ∃ r, is_round r ∧ d ∈ ab_taken nd r COut ∧ d = coin r ∧ (d = 0 ∨ d = 1).

(** A proposal to round [r]: the first one, or what round [r - 1] gave. *)
Definition proposal_ok (nd : aba_node) (r : Z) (p : Z * Z) : Prop :=
  (r = 0 ∧ p.2 = bot) ∨
  ∃ r0 d, is_round r0 ∧ r = r0 + 1 ∧ is_round r ∧ d ∈ ab_taken nd r0 COut ∧
          p = (estimate (transition d (coin r0)), coin r0).

Definition exec_ok (nd : aba_node) (r : Z)
    (i : round_pc * list Z * list roundTransitionResult) : Prop :=
  i.1.2 = [] ∧ i.2 = [] ∧
  match i.1.1 with
  | X_req d | X_coin d => d ∈ ab_taken nd r COut
  | X_send _ => False
  | X_dec | X_done => True
  end.

Record node_inv (nd : aba_node) : Prop := {
  ai_ok : mmr_ok mb (ab_mmr nd);
  ai_exec r : exec_ok nd r (round_info (ab_mmr nd) r);
  ai_prop r p : p ∈ ab_proposed nd r → proposal_ok nd r p;
  ai_reached d : d ∈ reachedDecision (ab_mmr nd) → lucky nd d;
}.

Lemma node_inv_init : node_inv (aba_start (mb_n mb) (mb_f mb)).
Proof.
  split.
  - split; simpl; [done|by eexists|]. intros r rd.
    destruct (decide (r = firstRound)) as [->|]; [rewrite lookup_singleton_eq; by intros [= <-]|].
    by rewrite lookup_singleton_ne.
  - intros r. unfold round_info, exec_ok. simpl. destruct (decide (r = firstRound)) as [->|].
    + by rewrite lookup_singleton_eq.
    + by rewrite lookup_singleton_ne.
  - intros r p Hp. by apply not_elem_of_nil in Hp.
  - intros d Hd. by apply not_elem_of_nil in Hd.
Qed.

(** Logs only grow. *)
Definition log_grows (nd nd' : aba_node) : Prop :=
  (∀ r c v, v ∈ ab_taken nd r c → v ∈ ab_taken nd' r c) ∧
  (∀ r p, p ∈ ab_proposed nd r → p ∈ ab_proposed nd' r) ∧
  (∀ d, d ∈ ab_out nd → d ∈ ab_out nd').

Lemma log_taken_grows r c v tk r' c' v' :
  v' ∈ tk r' c' → v' ∈ log_taken r c v tk r' c'.
Proof.
  intros Hv. unfold log_taken. destruct (decide (r = r')) as [<-|]; [|by rewrite fn_lookup_insert_ne].
  rewrite fn_lookup_insert, chan_upd_lookup. case_decide; [|done]. subst. apply elem_of_app. by left.
Qed.

Lemma log_proposal_grows r p pr r' p' : p' ∈ pr r' → p' ∈ log_proposal r p pr r'.
Proof.
  intros Hp. unfold log_proposal. destruct (decide (r = r')) as [<-|]; [|by rewrite fn_lookup_insert_ne].
  rewrite fn_lookup_insert. by right.
Qed.

Lemma aba_exec_grows e nd nd' : aba_exec coin e nd = Some nd' → log_grows nd nd'.
Proof.
  intros Hex. destruct e as [est|k v s r0|r0 g br|r0 br|r0|r0|i|d s|br|]; cbn [aba_exec] in Hex;
    apply bind_Some in Hex as (x & _ & Hex); try destruct x as [m err];
    try (injection Hex as <-); unfold log_grows; cbn [ab_taken ab_proposed ab_out].
  - split; [done|]. split; [|done]. intros r p Hp. destruct err; [done|by apply log_proposal_grows].
  - done.
  - done.
  - split; [|done]. intros r c v Hv. destruct br; [|done]. destruct err; [by apply log_taken_grows|done].
  - split; [|done]. intros r c v Hv. destruct err; [by apply log_taken_grows|done].
  - split; [done|]. split; [|done]. intros r p Hp. destruct err; [done|].
    destruct (coin_proposal _ _ _); [by apply log_proposal_grows|done].
  - apply bind_Some in Hex as (m & _ & [= <-]). done.
  - done.
  - done.
  - split; [done|]. split; [done|]. intros d Hd. apply elem_of_app. by left.
Qed.

Lemma proposal_ok_grows nd nd' r p : log_grows nd nd' → proposal_ok nd r p → proposal_ok nd' r p.
Proof.
  intros (Ht & _ & _) [?|(r0 & d & ? & ? & ? & ? & ?)]; [by left|]. right. exists r0, d. split_and!; auto.
Qed.
Lemma lucky_grows nd nd' d : log_grows nd nd' → lucky nd d → lucky nd' d.
Proof. intros (Ht & _ & _) (r & ? & ? & ? & ?). exists r. split_and!; auto. Qed.
Lemma exec_ok_grows nd nd' r i : log_grows nd nd' → exec_ok nd r i → exec_ok nd' r i.
Proof. intros (Ht & _ & _) (? & ? & Hm). split; [done|]. split; [done|]. destruct i.1.1; auto. Qed.

(** A step keeps the invariant when what it changes satisfies it. *)
Lemma node_inv_same nd nd' :
  node_inv nd → log_grows nd nd' → mmr_ok mb (ab_mmr nd') →
  (∀ r, round_info (ab_mmr nd') r = round_info (ab_mmr nd) r ∨
        exec_ok nd' r (round_info (ab_mmr nd') r)) →
  (∀ r p, p ∈ ab_proposed nd' r → p ∈ ab_proposed nd r ∨ proposal_ok nd' r p) →
  (∀ d, d ∈ reachedDecision (ab_mmr nd') → d ∈ reachedDecision (ab_mmr nd) ∨ lucky nd' d) →
  node_inv nd'.
Proof.
  intros Hi Hg Hok Hinf Hpr Hre. split; [done|..].
  - intros r. destruct (Hinf r) as [->|]; [|done]. apply (exec_ok_grows nd); [done|by apply Hi].
  - intros r p Hp. destruct (Hpr r p Hp) as [?|]; [|done]. apply (proposal_ok_grows nd); [done|by apply Hi].
  - intros d Hd. destruct (Hre d Hd) as [?|]; [|done]. apply (lucky_grows nd); [done|by apply Hi].
Qed.

(** A proposal in the first round is accepted only without a coin. *)
Lemma first_round_coin est c m m' :
  mmr_ok mb m → mmr_propose est c firstRound m = Done (m', None) → c = bot.
Proof.
  intros Hok Hp. destruct (on_round_spec (T := ivbca) mb _ _ _ _ _ Hok Hp) as (_ & _ & _ & _ & Heq).
  destruct (Heq eq_refl) as (e & Hop & He). destruct e; [done|]. simpl in Hop.
  unfold ivbca_propose in Hop. destruct (negb (isInputValid est)); [done|].
  destruct (Z.eqb_spec c bot); [done|]. done.
Qed.

Lemma round_put_same r rd rd' m :
  mmr_ok mb m → rounds m !! r = Some rd → (∀ r, kind_ok r (rd_bca rd) → kind_ok r (rd_bca rd')) →
  mmr_ok mb (put_round r rd' m) ∧
  ∀ r', round_info (put_round r rd' m) r' =
    if decide (r = r') then (rd_pc rd', coinReceiveChan rd', internalTransition rd') else round_info m r'.
Proof.
  intros Hok Hrd Hk. split; [|intros; apply round_info_put].
  apply mmr_ok_put; [done|]. by apply Hk, (mo_kind mb m Hok).
Qed.

Lemma round_info_at r rd m :
  rounds m !! r = Some rd → round_info m r = (rd_pc rd, coinReceiveChan rd, internalTransition rd).
Proof. intros Hrd. unfold round_info. by rewrite Hrd. Qed.

Lemma log_proposal_in r p pr r' p' :
  p' ∈ log_proposal r p pr r' → p' ∈ pr r' ∨ (r' = r ∧ p' = p).
Proof.
  unfold log_proposal. destruct (decide (r = r')) as [<-|]; [|rewrite fn_lookup_insert_ne by done; by left].
  rewrite fn_lookup_insert. intros [->|]%elem_of_cons; [by right|by left].
Qed.

Lemma execRound_inv nd r rd rd' dec :
  node_inv nd → rounds (ab_mmr nd) !! r = Some rd → execRound rd = Some (rd', dec) →
  ∀ nd', log_grows nd nd' → (∀ d, dec = Some d → d ∈ ab_taken nd' r COut) →
  exec_ok nd' r (rd_pc rd', coinReceiveChan rd', internalTransition rd') ∧
  ∀ r, kind_ok r (rd_bca rd) → kind_ok r (rd_bca rd').
Proof.
  intros Hi Hrd He nd' (Hg & _) Hdec. destruct (ai_exec _ Hi r) as (Hc & Ht & Hpc).
  rewrite (round_info_at _ _ _ Hrd) in Hc, Ht, Hpc. simpl in Hc, Ht, Hpc.
  unfold execRound in He. destruct (rd_pc rd) as [|d|d|t|] eqn:Hp.
  - apply bind_Some in He as ([b d] & He & [= <- <-]). simpl.
    split; [split_and!; [done..|by apply Hdec]|]. intros r' Hk. unfold rb_try in He.
    destruct (rd_bca rd) as [b0|b0]; apply bind_Some in He as ([b1 y1] & _ & [= <- _]); done.
  - destruct (coinReqChan rd); [|done]. injection He as <- <-. simpl. split; [|done].
    split; [done|]. split; [done|]. by apply Hg.
  - rewrite Hc in He. done.
  - done.
  - done.
Qed.

(** A step that replaces round [r0]. *)
Lemma put_node_inv nd nd' r0 rd rd' :
  node_inv nd → log_grows nd nd' → rounds (ab_mmr nd) !! r0 = Some rd →
  same_rounds (put_round r0 rd' (ab_mmr nd)) (ab_mmr nd') →
  ab_proposed nd' = ab_proposed nd → reachedDecision (ab_mmr nd') = reachedDecision (ab_mmr nd) →
  (∀ r, kind_ok r (rd_bca rd) → kind_ok r (rd_bca rd')) →
  (rd_pc rd', coinReceiveChan rd', internalTransition rd') =
    (rd_pc rd, coinReceiveChan rd, internalTransition rd) ∨
  exec_ok nd' r0 (rd_pc rd', coinReceiveChan rd', internalTransition rd') →
  node_inv nd'.
Proof.
  intros Hi Hg Hrd Hsame Hpr Hre Hk Hex. destruct (round_put_same r0 rd rd' _ (ai_ok _ Hi) Hrd Hk) as [Hok Hinf].
  apply (node_inv_same nd); try done.
  - by eapply same_rounds_ok.
  - intros r. rewrite (same_rounds_info _ _ _ Hsame), Hinf. case_decide; [|by left].
    subst. rewrite (round_info_at _ _ _ Hrd). exact Hex.
  - rewrite Hpr. by left.
  - rewrite Hre. by left.
Qed.

Lemma next_round_add r est c m m' :
  mmr_ok mb m → is_round r → c ≠ bot → mmr_propose est c (uint16_add r 1) m = Done (m', None) →
  uint16_add r 1 = r + 1.
Proof.
  intros Hok Hr Hc Hp. unfold is_round in Hr. unfold uint16_add. apply Z.mod_small.
  destruct (decide (r = 65535)) as [->|]; [|lia]. destruct Hc. by apply (first_round_coin est c m m').
Qed.

Lemma coin_node_inv nd r0 m err nd' :
  node_inv nd → is_round r0 → mmr_submitCoin (coin r0) r0 (ab_mmr nd) = Done (m, err) →
  nd' = AbaNode m (ab_taken nd)
    (match err, coin_proposal (coin r0) r0 (ab_mmr nd) with
     | None, Some p => log_proposal (uint16_add r0 1) p (ab_proposed nd)
     | _, _ => ab_proposed nd end) (ab_out nd) →
  log_grows nd nd' → node_inv nd'.
Proof.
  intros Hi Hr Hp -> Hg. pose proof (ai_ok _ Hi) as Hok.
  destruct (mmr_submitCoin_spec (T := ivbca) mb _ _ _ _ _ Hok Hp) as (m2 & y & -> & Hok2 & _ & Hc).
  destruct Hc as [(He & -> & Hinf)|(dec & Hbit & Hcur & Hinf & Ht)].
  { apply (node_inv_same nd); simpl; auto. intros r p Hin. left. by destruct err. }
  destruct (ai_exec _ Hi r0) as (_ & _ & Hdec). rewrite Hcur in Hdec. simpl in Hdec.
  assert (Hinf' : ∀ nd' r, round_info (set_rounds y (ab_mmr nd)) r = round_info (ab_mmr nd) r ∨
      exec_ok nd' r (round_info (set_rounds y (ab_mmr nd)) r)).
  { intros nd' r. rewrite Hinf. case_decide; [by right|by left]. }
  rewrite (coin_proposal_spec _ _ _ _ Hcur) in *. destruct Ht as [(Hd & Hh & -> & _ & ->)|[Hd Hpr]].
  - rewrite Hd, Hh in *. apply (node_inv_same nd); cbn [ab_mmr ab_proposed]; auto.
    + by apply (same_rounds_ok mb _ _) with (2 := Hok2).
    + intros r. apply Hinf'.
    + intros d Hin. right. simpl in Hin. apply list_elem_of_singleton in Hin as ->.
      unfold transition in *. destruct (Z.eqb_spec dec bot); [done|]. simpl in *.
      apply Z.eqb_eq in Hd. exists r0. split; [done|]. split; [done|]. simpl. lia.
  - rewrite Hd in *. destruct (on_round_spec (T := ivbca) mb _ _ _ _ _ Hok2 Hpr) as ([z ->] & Hok3 & Hinf3 & _).
    apply (node_inv_same nd); simpl; auto.
    + intros r. rewrite Hinf3. apply Hinf'.
    + intros r p Hin. destruct err; [by left|].
      destruct (log_proposal_in _ _ _ _ _ Hin) as [?|[-> ->]]; [by left|right].
      assert (Hr1 : is_round (uint16_add r0 1)) by apply uint16_add_range.
      assert (Hcb : coin r0 ≠ bot) by (unfold bot; lia).
      rewrite (next_round_add _ _ _ _ _ Hok2 Hr Hcb Hpr) in *.
      right. by exists r0, dec.
Qed.

Lemma aba_exec_inv e nd nd' :
  node_inv nd → (∀ r, e = ACoin r → is_round r) → aba_exec coin e nd = Some nd' → node_inv nd'.
Proof.
  intros Hi Hr Hex. pose proof (aba_exec_grows _ _ _ Hex) as Hg. pose proof (ai_ok _ Hi) as Hok.
  apply aba_exec_case in Hex.
  destruct Hex as [est m err Hp|k v s r0 m err Hp|r0 g br rd rd' Hrd Ht|r0 c rd rd' v Hrd Hc Ht
    |r0 rd u q Hrd Hq|r0 rd rd' dec Hrd He|r0 m err Hp|i x m err Hx Hon|d s t err Hp|d q Hm Hq|d t Hm Ht|br d Hm Hq|d q Hq].
  - destruct (on_round_spec (T := ivbca) mb _ _ _ _ _ Hok Hp) as ([y ->] & Hok' & Hinf & _).
    apply (node_inv_same nd); simpl; auto. intros r p Hin. destruct err; [by left|].
    destruct (log_proposal_in _ _ _ _ _ Hin) as [?|[-> ->]]; [by left|]. right. by left.
  - destruct (on_round_spec (T := ivbca) mb _ _ _ _ _ Hok Hp) as ([y ->] & Hok' & Hinf & _).
    apply (node_inv_same nd); simpl; auto.
  - destruct (round_try_spec (T := ivbca) _ _ _ _ Ht) as (Hpc & Hk & _).
    apply (put_node_inv nd _ r0 rd rd'); [done..|by left].
  - destruct (round_try_spec (T := ivbca) _ _ _ _ Ht) as (Hpc & Hk & _).
    apply (put_node_inv nd _ r0 rd rd'); [done..|by left].
  - eapply (put_node_inv nd _ r0 rd); [done..|by left].
  - destruct (execRound_inv nd r0 rd rd' dec Hi Hrd He _ Hg) as [Hnew Hk].
    { intros d ->. simpl. rewrite log_taken_eq, chan_upd_lookup, decide_True by done.
      apply elem_of_app. right. by left. }
    apply (put_node_inv nd _ r0 rd rd'); [done..|by right].
  - by apply (coin_node_inv nd r0 m err); auto.
  - set (m1 := set_external _ _) in Hon. assert (Hok1 : mmr_ok mb m1) by (by apply (same_rounds_ok mb (ab_mmr nd))).
    destruct (on_round_spec (T := ivbca) mb _ _ _ _ _ Hok1 Hon) as ([z ->] & Hok' & Hinf & _).
    apply (node_inv_same nd); simpl; auto.
  - apply (node_inv_same nd); simpl; auto. by apply (same_rounds_ok mb (ab_mmr nd)).
  - apply (node_inv_same nd); simpl; auto; [by apply (same_rounds_ok mb (ab_mmr nd))|].
    intros w Hw. left. rewrite Hq. by right.
  - apply (node_inv_same nd); simpl; auto. by apply (same_rounds_ok mb (ab_mmr nd)).
  - apply (node_inv_same nd); simpl; auto. by apply (same_rounds_ok mb (ab_mmr nd)).
  - apply (node_inv_same nd); simpl; auto. by apply (same_rounds_ok mb (ab_mmr nd)).
Qed.
End node.

(** ** The network invariant *)

Section network.
Context (mb : membership UUID) `{!Resilient mb} (coin : Z → Z).
Context (inputs : UUID → Z → Prop).

#[local] Abbreviation n := (mb_n mb).
#[local] Abbreviation f := (mb_f mb).
#[local] Abbreviation Correct := (bca_correct mb).
#[local] Abbreviation step := (aba_net_step coin mb inputs).
#[local] Abbreviation reachable := (aba_reachable coin mb inputs).
Implicit Types C : aba_config.

(** Decisions on their way out of a process. *)
Definition pending (nd : aba_node) : list Z :=
  let m := ab_mmr nd in
  reachedDecision m ++ t_deliverDecision (termGadget m) ++
  (match m_reach m with R_send d => [d] | _ => [] end) ++ deliverDecision m ++ ab_out nd.

Definition justified_decision C (d : Z) : Prop := ∃ i, Correct i ∧ lucky coin (C i) d.

Record aba_net_ok C : Prop := {
  an_node j : Correct j → node_inv mb coin (C j);
  an_term j : Correct j → ∃ log out, term_inv mb log out (termGadget (ab_mmr (C j))) ∧
    ∀ s d, (s, d) ∈ log → s ∉ faulty mb → d ∈ ab_out (C s);
  an_input j p : Correct j → p ∈ ab_proposed (C j) 0 → inputs j p.1;
  an_just j d : Correct j → d ∈ pending (C j) → justified_decision C d;
}.

Lemma on_round_rest r op m m' err :
  on_round r op m = Done (m', err) → ∃ x, m' = set_rounds x m.
Proof.
  unfold on_round, getRound. destruct (rounds m !! r) as [rd|].
  - destruct (round_call op rd) as [[rd' e]| |]; [|done..]. intros [= <- <-]. by eexists.
  - destruct (round_call op _) as [[rd' e]| |]; [|done..]. intros [= <- <-]. by eexists.
Qed.

(** What a step does to the pending decisions and to the termination gadget. *)
Lemma aba_exec_pending e nd nd' :
  node_inv mb coin nd → aba_exec coin e nd = Some nd' →
  (∀ d, d ∈ pending nd' → d ∈ pending nd ∨ d ∈ reachedDecision (ab_mmr nd') ∨
     ∃ x s, e = ADecision x s ∧ d ∈ t_deliverDecision (termGadget (ab_mmr nd'))) ∧
  (termGadget (ab_mmr nd') = termGadget (ab_mmr nd) ∨
   (∃ d, term_take (termGadget (ab_mmr nd)) = Some (d, termGadget (ab_mmr nd'))) ∨
   ∃ x s err, e = ADecision x s ∧
     term_submitDecision x s (termGadget (ab_mmr nd)) = Done (termGadget (ab_mmr nd'), err)).
Proof.
  intros Hi Hex%aba_exec_case.
  assert (Hsame : ∀ x, ab_mmr nd' = set_rounds x (ab_mmr nd) → ab_out nd' = ab_out nd →
    (∀ d, d ∈ pending nd' → d ∈ pending nd) ∧ termGadget (ab_mmr nd') = termGadget (ab_mmr nd)).
  { intros x Hx Ho. unfold pending. by rewrite Hx, Ho. }
  destruct Hex as [est m err Hp|k v s r0 m err Hp|r0 g br rd rd' Hrd Ht|r0 c rd rd' v Hrd Hc Ht
    |r0 rd u q Hrd Hq|r0 rd rd' dec Hrd He|r0 m err Hp|i x m err Hx Hon|d s t err Hp|d q Hm Hq|d t Hm Ht|br d Hm Hq|d q Hq];
    try (split; [by left|by left]).
  - destruct (on_round_rest _ _ _ _ _ Hp) as [y ->]. destruct (Hsame y) as [Hd Ht]; [done..|].
    split; [intros; left; by apply Hd|by left].
  - destruct (on_round_rest _ _ _ _ _ Hp) as [y ->]. split; [by left|by left].
  - destruct (mmr_submitCoin_spec (T := ivbca) mb _ _ _ _ _ (ai_ok _ _ _ Hi) Hp) as (m2 & y & -> & Hok2 & _ & Hc).
    destruct Hc as [(He & -> & Hinf)|(dec & Hbit & Hcur & Hinf & Ht)]; [split; [by left|by left]|].
    destruct Ht as [(Hd & Hh & -> & Hq & ->)|[Hd Hpr]].
    + unfold pending. simpl. split; [|by left]. rewrite Hq. simpl. set_solver.
    + destruct (on_round_rest _ _ _ _ _ Hpr) as [z ->]. split; [by left|by left].
  - destruct (on_round_rest _ _ _ _ _ Hon) as [z ->]. split; [by left|by left].
  - split; [|right; right; by exists d, s, err].
    intros w Hw. unfold pending in *. simpl in *. rewrite !elem_of_app in *.
    destruct Hw as [?|[?|?]]; [by auto| |by auto]. right. right. by exists d, s.
  - split; [|by left]. unfold pending. simpl. rewrite Hm, Hq. set_solver.
  - split; [|right; left; by exists d].
    unfold term_take in Ht. unfold pending. simpl. rewrite Hm.
    destruct (t_deliverDecision (termGadget (ab_mmr nd))) as [|w q]; [done|].
    injection Ht as -> <-. simpl. set_solver.
  - split; [|by left]. unfold pending. simpl. rewrite Hm, Hq. set_solver.
  - split; [|by left]. unfold pending. simpl. rewrite Hq. set_solver.
Qed.

Lemma justified_grows C C' d :
  (∀ j, log_grows (C j) (C' j)) → justified_decision C d → justified_decision C' d.
Proof. intros Hg (i & Hi & Hl). exists i. split; [done|]. by eapply lucky_grows. Qed.

Lemma step_grows C C' j : step C C' → log_grows (C j) (C' j).
Proof.
  intros [j' e nd Hj Hok Hex]. destruct (decide (j' = j)) as [<-|].
  - rewrite fn_lookup_insert. by eapply aba_exec_grows.
  - by rewrite fn_lookup_insert_ne.
Qed.

Lemma aba_net_ok_init : aba_net_ok (aba_net_init mb).
Proof.
  split.
  - intros. apply node_inv_init.
  - intros j _. exists [], []. split; [by apply term_inv_init|].
    intros s d Hd. by apply not_elem_of_nil in Hd.
  - intros j p _ Hp. by apply not_elem_of_nil in Hp.
  - intros j d _ Hd. unfold pending in Hd. simpl in Hd. by apply not_elem_of_nil in Hd.
Qed.

(** The announcements after a step of [j]. *)
Lemma term_step C j e nd :
  aba_net_ok C → Correct j → aba_event_ok mb inputs C j e → aba_exec coin e (C j) = Some nd →
  ∃ log out, term_inv mb log out (termGadget (ab_mmr nd)) ∧
    ∀ s d, (s, d) ∈ log → s ∉ faulty mb → d ∈ ab_out (C s).
Proof.
  intros [Hn Ht _ _] Hj Hok Hex. destruct (Ht j Hj) as (log & out & Hti & Hlog).
  destruct (aba_exec_pending e _ _ (Hn j Hj) Hex) as [_ [->|[[d Htk]|(x & s & err & -> & Hsub)]]].
  - by exists log, out.
  - exists log, out. split; [by eapply term_take_inv|done].
  - destruct Hok as (Hx & Hs & Hfrom).
    pose proof (term_submitDecision_spec mb log out _ x s Hti Hs Hx) as Hp. rewrite Hsub in Hp.
    simpl in Hp. destruct err as [err|].
    + destruct Hp as [-> _]. by exists log, out.
    + destruct Hp as (_ & _ & out' & Hti' & _). exists ((s, x) :: log), out'. split; [done|].
      intros s' d' [[= -> ->]|Hin]%elem_of_cons Hf; [|by eapply Hlog].
      by destruct Hfrom.
Qed.

(** Proposals to round 0 come from [propose] only. *)
Lemma aba_exec_input e nd nd' p :
  node_inv mb coin nd → node_inv mb coin nd' → aba_exec coin e nd = Some nd' →
  p ∈ ab_proposed nd' 0 → p ∈ ab_proposed nd 0 ∨ e = APropose p.1.
Proof.
  intros Hi Hi' Hex Hp.
  assert (Hbot : p.2 = bot).
  { destruct (ai_prop _ _ _ Hi' 0 p Hp) as [[_ ?]|(r0 & d & Hr & H0 & _)]; [done|].
    unfold is_round in Hr. lia. }
  destruct e as [est|k v s r0|r0 g br|r0 br|r0|r0|i|d s|br|]; cbn [aba_exec] in Hex;
    apply bind_Some in Hex as (x & Hx & Hex); try destruct x as [m err];
    try (injection Hex as <-); cbn [ab_proposed] in Hp; try (by left).
  - destruct err; [by left|]. destruct (log_proposal_in _ _ _ _ _ Hp) as [?|[_ ->] ]; [by left|by right].
  - apply done_opt_inv in Hx. destruct err; [by left|].
    destruct (mmr_submitCoin_spec (T := ivbca) mb _ _ _ _ _ (ai_ok _ _ _ Hi) Hx)
      as (m2 & y & _ & _ & _ & [(? & _)|(dec & Hbit & Hcur & _)]); [done|].
    rewrite (coin_proposal_spec _ _ _ _ Hcur) in Hp. destruct (_ && _); [by left|].
    destruct (log_proposal_in _ _ _ _ _ Hp) as [?|[_ ->] ]; [by left|].
    simpl in Hbot. unfold bot in Hbot. lia.
  - apply bind_Some in Hex as (m & _ & [= <-]). by left.
Qed.

Lemma aba_net_ok_step C C' : aba_net_ok C → step C C' → aba_net_ok C'.
Proof.
  intros Hok Hst. assert (Hg : ∀ j, log_grows (C j) (C' j)) by (intros; by apply step_grows).
  destruct Hst as [j e nd Hj Hev Hex].
  assert (Hnd : node_inv mb coin nd).
  { apply (aba_exec_inv mb coin e (C j) nd); [by apply (an_node C Hok)| |done]. intros r ->. apply Hev. }
  destruct (term_step C j e nd Hok Hj Hev Hex) as (log & out & Hti & Hlog).
  split.
  - intros i Hi. destruct (decide (j = i)) as [<-|]; [by rewrite fn_lookup_insert|].
    rewrite fn_lookup_insert_ne by done. by apply Hok.
  - intros i Hi. destruct (decide (j = i)) as [<-|].
    + rewrite fn_lookup_insert. exists log, out. split; [done|]. intros s d Hin Hf.
      apply (Hg s). by apply Hlog.
    + rewrite fn_lookup_insert_ne by done. destruct (an_term _ Hok i Hi) as (l & o & ? & Hl).
      exists l, o. split; [done|]. intros s d Hin Hf. apply (Hg s). by apply Hl.
  - intros i p Hi Hp. destruct (decide (j = i)) as [<-|];
      [|rewrite fn_lookup_insert_ne in Hp by done; by apply (an_input _ Hok)].
    rewrite fn_lookup_insert in Hp.
    destruct (aba_exec_input e _ _ p (an_node _ Hok j Hj) Hnd Hex Hp) as [?| ->];
      [by apply (an_input _ Hok)|exact Hev].
  - intros i d Hi Hd. destruct (decide (j = i)) as [<-|].
    2: { rewrite fn_lookup_insert_ne in Hd by done. eapply justified_grows; [exact Hg|].
         by apply (an_just _ Hok i). }
    rewrite fn_lookup_insert in Hd.
    destruct (aba_exec_pending e _ _ (an_node _ Hok j Hi) Hex) as [Hp _].
    destruct (Hp d Hd) as [?|[Hre|(x & s & -> & Hdel)]].
    + eapply justified_grows; [exact Hg|]. by apply (an_just _ Hok j).
    + exists j. split; [done|]. rewrite fn_lookup_insert. by apply (ai_reached _ _ _ Hnd).
    + assert (Hout : d ∈ out).
      { destruct (ti_suffix _ _ _ _ Hti) as [k ->]. apply elem_of_app. by right. }
      apply (ti_out _ _ _ _ Hti) in Hout.
      destruct (correct_witness mb (announced log d)) as (s' & Hs' & Hf); [lia|].
      assert (Hp' : Correct s').
      { split; [|done]. by apply (announced_peers mb log out _ d Hti). }
      eapply justified_grows; [exact Hg|]. apply (an_just _ Hok s' d Hp'). unfold pending.
      rewrite !elem_of_app. do 4 right. apply Hlog; [by apply elem_of_announced|done].
Qed.

Lemma aba_reachable_ok C : reachable C → aba_net_ok C.
Proof.
  revert C. apply (rtc_ind_r (R := step) aba_net_ok); [apply aba_net_ok_init|].
  intros C C' _ Hs Hok. by eapply aba_net_ok_step.
Qed.

(** ** A round of the agreement is a run of its crusader agreement *)

Section rounds.
Context {T : Set} `{!BCA T, !RoundKind T}.

Lemma bca_reachable_mono (i1 i2 : UUID → Z * Z → Prop) (H : bca_config T) :
  (∀ j p, i1 j p → i2 j p) → bca_reachable mb i1 H → bca_reachable mb i2 H.
Proof.
  intros Hi. unfold bca_reachable. apply rtc_subrel. intros H1 H2 [j e nd Hj Hok Hex].
  apply (bca_net_event mb i2 H1 j e nd Hj); [|done]. destruct e; simpl in *; auto.
Qed.

Lemma project_start r : rk_round r → project mb r (aba_start n f) = bca_start n f.
Proof.
  intros Hr. unfold project, bca_start, aba_start. simpl. f_equal. unfold round_state. simpl.
  destruct (decide (r = firstRound)) as [->|].
  - rewrite lookup_singleton_eq. destruct (rk_kind firstRound (IV (newBCA n f)) Hr eq_refl) as [t Ht].
    simpl. rewrite Ht, rk_of_inj. simpl. by apply (rk_first firstRound).
  - by rewrite lookup_singleton_ne.
Qed.

Lemma project_reachable r C :
  rk_round r → reachable C →
  bca_reachable mb (λ j p, p ∈ ab_proposed (C j) r) (λ j, project mb r (C j)).
Proof.
  intros Hr. revert C. apply (rtc_ind_r (R := step)
    (λ C, bca_reachable mb (λ j p, p ∈ ab_proposed (C j) r) (λ j, project mb r (C j)))).
  - assert ((λ j, project mb r (aba_net_init mb j)) = bca_net_init mb) as ->; [|constructor].
    apply functional_extensionality. intros j. by apply project_start.
  - intros C C' Hrt Hs IH. pose proof (aba_reachable_ok C Hrt) as Hok.
    apply (bca_reachable_mono _ (λ j p, p ∈ ab_proposed (C' j) r)) in IH;
      [|intros j p; by apply step_grows]. destruct Hs as [j e nd Hj Hev Hex].
    assert (Hfun : (λ i, project mb r ((<[j := nd]> C) i)) =
                   <[j := project mb r nd]> (λ i, project mb r (C i))).
    { apply functional_extensionality. intros i. destruct (decide (j = i)) as [<-|].
      - by rewrite !fn_lookup_insert.
      - by rewrite !fn_lookup_insert_ne. }
    rewrite Hfun.
    destruct (aba_exec_projected mb coin e (C j) nd r) as [Heq|(be & Hbe & Hm)]; [|done|done|..].
    { apply (ai_ok _ _ _ (an_node _ Hok j Hj)). }
    + assert (<[j := project mb r nd]> (λ i, project mb r (C i)) = λ i, project mb r (C i)) as ->; [|done].
      apply functional_extensionality. intros i. destruct (decide (j = i)) as [<-|].
      * by rewrite fn_lookup_insert.
      * by rewrite fn_lookup_insert_ne.
    + eapply rtc_r; [exact IH|]. apply (bca_net_event mb _ _ j be); [done| |exact Hbe].
      destruct be as [est c|v|k v s|g br|c]; simpl; try done.
      * by rewrite fn_lookup_insert.
      * subst e. destruct Hev as (_ & Hs & [?|Hv]); (split; [done|]); [by left|right].
        exact Hv.
Qed.
End rounds.

(** *** Agreement and validity of every round *)

Lemma round_zero : rk_round (T := ivbca) 0.
Proof. done. Qed.
Lemma round_later r : r ≠ 0 → rk_round (T := evbca) r.
Proof. done. Qed.

(** A round hands bits and the default value to the middleware. *)
Lemma bca_sent_value {T : Type} `{!BCA T, !BCALaws T mb} (nd : bca_node T) k v :
  node_ok nd → v ∈ nd_taken nd (kind_chan k) → v = 0 ∨ v = 1 ∨ v = bot.
Proof.
  intros Hn Hv. destruct k; simpl in Hv; [apply law_echo in Hv as [? _]|apply law_vote in Hv as [? _]
    |apply law_bind in Hv as [[? _]|[? _]] ]; auto; tauto.
Qed.

Lemma sent_value C r j k v :
  reachable C → Correct j → v ∈ ab_taken (C j) r (kind_chan k) → v = 0 ∨ v = 1 ∨ v = bot.
Proof.
  intros Hr Hj Hv. destruct (decide (r = 0)) as [->|Hr0].
  - pose proof (reachable_ok (T := ivbca) mb _ _ (project_reachable (T := ivbca) 0 C round_zero Hr)) as Hok.
    by apply (bca_sent_value _ k v (no_node _ _ _ Hok j Hj)).
  - pose proof (reachable_ok (T := evbca) mb _ _ (project_reachable (T := evbca) r C (round_later r Hr0) Hr)) as Hok.
    by apply (bca_sent_value _ k v (no_node _ _ _ Hok j Hj)).
Qed.

Lemma round_agreement C r i j v w :
  reachable C → Correct i → Correct j → v ∈ ab_taken (C i) r COut → w ∈ ab_taken (C j) r COut →
  v ≠ bot → w ≠ bot → v = w.
Proof.
  intros Hr Hi Hj Hv Hw. destruct (decide (r = 0)) as [->|Hr0].
  - pose proof (reachable_ok (T := ivbca) mb _ _ (project_reachable (T := ivbca) 0 C round_zero Hr)) as Hok.
    by apply (crusader_agreement mb _ _ i j v w Hok Hi Hj).
  - pose proof (reachable_ok (T := evbca) mb _ _ (project_reachable (T := evbca) r C (round_later r Hr0) Hr)) as Hok.
    by apply (crusader_agreement mb _ _ i j v w Hok Hi Hj).
Qed.

Lemma round_validity C r v j d :
  reachable C → (v = 0 ∨ v = 1) →
  (∀ i p, Correct i → p ∈ ab_proposed (C i) r → p.1 = v) →
  Correct j → d ∈ ab_taken (C j) r COut → d = v.
Proof.
  intros Hr Hv Hp Hj Hd. destruct (decide (r = 0)) as [->|Hr0].
  - by apply (only_decision (T := ivbca) mb _ v Hv Hp (λ j, project mb 0 (C j)) j d
      (project_reachable (T := ivbca) 0 C round_zero Hr)).
  - by apply (only_decision (T := evbca) mb _ v Hv Hp (λ j, project mb r (C j)) j d
      (project_reachable (T := evbca) r C (round_later r Hr0) Hr)).
Qed.

(** The estimate for the next round when all decide [v] or follow a coin [v]. *)
Lemma estimate_value d c v : (d = v ∧ v ≠ bot) ∨ (d = bot ∧ c = v) → estimate (transition d c) = v.
Proof. unfold transition. intros [[-> ?]|[-> ->]]; [by destruct (Z.eqb_spec v bot)|done]. Qed.

(** After a round whose coin is a correct decision [v], every correct process
    proposes [v]. *)
Lemma proposals_after C r i v k :
  reachable C → Correct i → 0 ≤ r → v ∈ ab_taken (C i) r COut → v = coin r → (v = 0 ∨ v = 1) →
  ∀ j p, Correct j → p ∈ ab_proposed (C j) (r + 1 + Z.of_nat k) → p.1 = v.
Proof.
  intros Hr Hi Hr0 Hv Hc Hbit. assert (Hnb : v ≠ bot) by (unfold bot; lia).
  pose proof (aba_reachable_ok C Hr) as Hok. induction k as [|k IH]; intros j p Hj Hp;
    destruct (ai_prop _ _ _ (an_node _ Hok j Hj) _ p Hp) as [[? _]|(r0 & d & _ & Hr1 & _ & Hd & ->)];
    [lia| |lia|]; simpl; apply estimate_value.
  - assert (r0 = r) as -> by lia. destruct (decide (d = bot)) as [->|Hdb]; [by right|left].
    split; [|done]. by apply (round_agreement C r j i d v).
  - left. split; [|done]. apply (round_validity C r0 v j d); [done..| |done|done].
    assert (r0 = r + 1 + Z.of_nat k) as -> by lia. exact IH.
Qed.

(** Two decisions that agree with the coins of their rounds are equal. *)
Lemma lucky_agree_le C i j r1 r2 v w :
  reachable C → Correct i → Correct j → 0 ≤ r1 → r1 ≤ r2 →
  v ∈ ab_taken (C i) r1 COut → v = coin r1 → (v = 0 ∨ v = 1) →
  w ∈ ab_taken (C j) r2 COut → w = coin r2 → v = w.
Proof.
  intros Hr Hi Hj H0 Hle Hv Hvc Hbit Hw Hwc. destruct (decide (r1 = r2)) as [->|]; [congruence|].
  symmetry. apply (round_validity C r2 v j w); [done..| |done|done].
  pose proof (proposals_after C r1 i v (Z.to_nat (r2 - r1 - 1)) Hr Hi H0 Hv Hvc Hbit) as Hp.
  replace (r1 + 1 + Z.of_nat (Z.to_nat (r2 - r1 - 1))) with r2 in Hp by lia. exact Hp.
Qed.

Lemma output_justified C j d : reachable C → Correct j → Outputs C j d → justified_decision C d.
Proof.
  intros Hr Hj Hd. apply (an_just _ (aba_reachable_ok C Hr) j); [done|]. unfold pending.
  rewrite !elem_of_app. by do 4 right.
Qed.

Lemma output_bit C j d : reachable C → Correct j → Outputs C j d → d = 0 ∨ d = 1.
Proof. intros Hr Hj Hd. destruct (output_justified C j d Hr Hj Hd) as (a & _ & r & _ & _ & _ & ?). done. Qed.

Lemma agreement C i j d d' :
  reachable C → Correct i → Correct j → Outputs C i d → Outputs C j d' → d = d'.
Proof.
  intros Hr Hi Hj Hd Hd'.
  destruct (output_justified C i d Hr Hi Hd) as (a & Ha & r1 & Hr1 & Hda & Hc1 & Hb1).
  destruct (output_justified C j d' Hr Hj Hd') as (b & Hb & r2 & Hr2 & Hdb & Hc2 & Hb2).
  destruct Hr1, Hr2. destruct (Z.le_ge_cases r1 r2) as [Hle|Hle].
  - by apply (lucky_agree_le C a b r1 r2).
  - symmetry. by apply (lucky_agree_le C b a r2 r1).
Qed.

(** When all correct processes propose [v], every round does. *)
Lemma proposals_valid C v k :
  reachable C → (v = 0 ∨ v = 1) → (∀ i p, Correct i → p ∈ ab_proposed (C i) 0 → p.1 = v) →
  ∀ j p, Correct j → p ∈ ab_proposed (C j) (Z.of_nat k) → p.1 = v.
Proof.
  intros Hr Hbit Hin. assert (Hnb : v ≠ bot) by (unfold bot; lia).
  pose proof (aba_reachable_ok C Hr) as Hok. induction k as [|k IH]; intros j p Hj Hp.
  - by apply (Hin j).
  - destruct (ai_prop _ _ _ (an_node _ Hok j Hj) _ p Hp) as [[? _]|(r0 & d & _ & Hr1 & _ & Hd & ->)]; [lia|].
    simpl. apply estimate_value. left. split; [|done].
    apply (round_validity C r0 v j d); [done..| |done|done].
    assert (r0 = Z.of_nat k) as -> by lia. exact IH.
Qed.

Lemma proposed_validity C j d v :
  reachable C → (v = 0 ∨ v = 1) → (∀ i p, Correct i → p ∈ ab_proposed (C i) 0 → p.1 = v) →
  Correct j → Outputs C j d → d = v.
Proof.
  intros Hr Hbit Hin Hj Hd.
  destruct (output_justified C j d Hr Hj Hd) as (a & Ha & r & [Hr0 _] & Hda & _ & _).
  apply (round_validity C r v a d); [done..| |done|done].
  pose proof (proposals_valid C v (Z.to_nat r) Hr Hbit Hin) as Hp.
  replace (Z.of_nat (Z.to_nat r)) with r in Hp by lia. exact Hp.
Qed.

Lemma proposals_of_inputs C v :
  reachable C → (∀ i est, Correct i → inputs i est → est = v) →
  ∀ i p, Correct i → p ∈ ab_proposed (C i) 0 → p.1 = v.
Proof. intros Hr Hin i p Hi Hp. apply (Hin i); [done|]. by apply (an_input _ (aba_reachable_ok C Hr)). Qed.

Lemma validity C j d v :
  reachable C → (v = 0 ∨ v = 1) → (∀ i est, Correct i → inputs i est → est = v) →
  Correct j → Outputs C j d → d = v.
Proof.
  intros Hr Hbit Hin. apply proposed_validity; [done..|by apply proposals_of_inputs].
Qed.

(** A decision was proposed by a correct process. *)
Lemma decided_proposed C j d :
  reachable C → (∀ i est, Correct i → inputs i est → est = 0 ∨ est = 1) →
  Correct j → Outputs C j d → ∃ i, Correct i ∧ inputs i d.
Proof.
  intros Hr Hbits Hj Hd. pose proof (an_input _ (aba_reachable_ok C Hr)) as Hin.
  destruct (decide (set_Exists (λ i, Exists (λ p, p.1 = d) (ab_proposed (C i) 0)) (peers mb ∖ faulty mb)))
    as [(i & [Hi Hf]%elem_of_difference & (p & Hp & <-)%Exists_exists)|Hno].
  - exists i. split; [by split|]. by apply (Hin i).
  - pose proof (output_bit C j d Hr Hj Hd) as Hb. exfalso.
    assert (d = 1 - d); [|lia]. apply (proposed_validity C j d); [done|lia| |done|done].
    intros i p Hi Hp. pose proof (Hbits i p.1 Hi (Hin i p Hi Hp)). destruct (decide (p.1 = d)) as [He|]; [|lia].
    exfalso. apply Hno. exists i. split; [apply elem_of_difference; exact Hi|]. apply Exists_exists. by exists p.
Qed.
End network.
