(* ===== verification/AbaAgreement.v ===== *)
(** * Agreement and validity of the binary agreement

    The theorems on [mmr], with runs of four processes (one faulty) that reach
    decisions: in round 0, and in round 1 after a coin that disagrees. *)

From stdpp Require Import base tactics numbers list fin_sets gmap functions relations.
From S2P Require Import Prelude Utils Bca BcaNet Ivbca IvbcaCorrect Evbca EvbcaCorrect.
From S2P Require Import Round Termination Mmr AbaNetwork.

Local Open Scope Z_scope.

(** ** Executing schedules *)

Section schedules.
Context (coin : Z → Z) (mb : membership UUID) (ins : list (UUID * Z)).

Definition listed (j : UUID) (est : Z) : Prop := (j, est) ∈ ins.

#[export] Instance aba_event_ok_dec C j e : Decision (aba_event_ok mb listed C j e).
Proof. destruct e; simpl; unfold listed, is_round; apply _. Defined.

Fixpoint aba_schedule (l : list (UUID * aba_event)) (C : aba_config) : option aba_config :=
  match l with
  | [] => Some C
  | (j, e) :: l =>
    if decide (bca_correct mb j ∧ aba_event_ok mb listed C j e)
    then nd ← aba_exec coin e (C j); aba_schedule l (<[j := nd]> C) else None
  end.

Lemma aba_schedule_sound l C C' :
  aba_schedule l C = Some C' → rtc (aba_net_step coin mb listed) C C'.
Proof.
  revert C. induction l as [|[j e] l IH]; intros C; simpl.
  - intros [= <-]. constructor.
  - case_decide as Hd; [|done]. destruct Hd. intros (nd & Hex & Hr)%bind_Some.
    eapply rtc_l; [by eapply aba_net_event|by apply IH].
Qed.

Definition aba_config_of (l : list (UUID * aba_event)) : aba_config :=
  default (aba_net_init mb) (aba_schedule l (aba_net_init mb)).

Lemma aba_config_reachable l :
  (if aba_schedule l (aba_net_init mb) is Some _ then true else false) = true →
  aba_reachable coin mb listed (aba_config_of l).
Proof.
  unfold aba_config_of. destruct (aba_schedule l (aba_net_init mb)) as [C|] eqn:E; [|done].
  intros _. by apply aba_schedule_sound in E.
Qed.
End schedules.

Module AbaExample.
Import Example4.

Definition ps : list UUID := [p1; p2; p3].
Definition all_do (es : list aba_event) : list (UUID * aba_event) := p ← ps; e ← es; [(p, e)].
Definition all_receive (k : bca_kind) (v r : Z) : list (UUID * aba_event) :=
  p ← ps; q ← ps; [(p, AMsg k v q r)].

(** One round in which all correct processes echo, vote for, bind and decide
    1; [extra] is the step [waitToVote] has in later rounds only. *)
Definition unanimous (r : Z) (extra : list aba_event) : list (UUID * aba_event) :=
  all_do [AListen r (inl CEcho)] ++
  all_receive KEcho 1 r ++
  all_do ([AGo r GoVote CApprove] ++ extra ++ [AGo r GoVote CVote; AListen r (inl CVote)]) ++
  all_receive KVote 1 r ++
  all_do [AGo r GoBind CBindVal; AGo r GoBind CBind; AListen r (inl CBind)] ++
  all_receive KBind 1 r ++
  all_do [AGo r GoDecide CTermVal; AGo r GoDecide COut; AExec r; AExec r; AListen r (inr tt)].

(** The coin of round 0 is 0, that of round 1 is 1. *)
Definition coin (r : Z) : Z := if r =? 0 then 0 else 1.
Definition ins : list (UUID * Z) := [(p1, 1); (p2, 1); (p3, 1)].

(** Round 0 ends without a decision.  In round 1 [p1] and [p2] decide; [p3]
    learns the decision from the termination gadget. *)
Definition run : list (UUID * aba_event) :=
  all_do [APropose 1] ++ unanimous 0 [] ++ all_do [ACoin 0] ++
  unanimous 1 [AGo 1 GoVote CExt] ++
  [(p1, ACoin 1); (p1, AReach true); (p1, AReach true); (p1, AOutput);
   (p2, ACoin 1); (p2, AReach true); (p2, AReach true); (p2, AOutput);
   (p3, ADecision 0 p4); (p3, ADecision 1 p1); (p3, ADecision 1 p2);
   (p3, AReach false); (p3, AReach false); (p3, AOutput)].

Definition config : aba_config := aba_config_of coin mb4 ins run.

Lemma aba_run_reachable : aba_reachable coin mb4 (listed ins) config.
Proof. apply aba_config_reachable. vm_compute. reflexivity. Qed.

Definition outputs_dec (C : aba_config) (j : UUID) (d : Z) : bool := bool_decide (d ∈ ab_out (C j)).
Lemma outputs_spec C j d : outputs_dec C j d = true → Outputs C j d.
Proof. apply bool_decide_eq_true_1. Qed.

Lemma aba_run_outputs_p1 : Outputs config p1 1.
Proof. apply outputs_spec. vm_compute. reflexivity. Qed.
Lemma aba_run_outputs_p3 : Outputs config p3 1.
Proof. apply outputs_spec. vm_compute. reflexivity. Qed.
Lemma aba_run_correct_p1 : bca_correct mb4 p1.
Proof. split; simpl; set_solver. Qed.
Lemma aba_run_correct_p3 : bca_correct mb4 p3.
Proof. split; simpl; set_solver. Qed.
Lemma ins_one j est : bca_correct mb4 j → listed ins j est → est = 1.
Proof. intros _ Hi. unfold listed, ins in Hi. set_solver. Qed.
End AbaExample.
Import Example4 AbaExample.

(** ** Theorems *)

(** C4: agreement.  Two correct processes never output different decisions,
    over any number of rounds, whatever the faulty processes send in any round,
    and whichever of the rounds or the termination gadget decides, provided
    every round has one coin for all. *)
Theorem aba_agreement (coin : Z → Z) (mb : membership UUID) `{!Resilient mb} inputs (C : aba_config)
    i j d d' :
  aba_reachable coin mb inputs C → bca_correct mb i → bca_correct mb j →
  Outputs C i d → Outputs C j d' → d = d'.
Proof. apply agreement. exact Resilient0. Qed.

Lemma aba_agreement_witness : Outputs config p1 1 ∧ Outputs config p3 1 ∧ 1 = 1.
Proof.
  split; [exact aba_run_outputs_p1|]. split; [exact aba_run_outputs_p3|].
  exact (aba_agreement coin mb4 (listed ins) config p1 p3 1 1 aba_run_reachable aba_run_correct_p1 aba_run_correct_p3
    aba_run_outputs_p1 aba_run_outputs_p3).
Defined.

(** C7: validity.  When all correct processes propose [v], no correct process
    outputs anything but [v]. *)
Theorem aba_validity (coin : Z → Z) (mb : membership UUID) `{!Resilient mb} inputs (C : aba_config)
    j d v :
  aba_reachable coin mb inputs C → v = 0 ∨ v = 1 →
  (∀ i est, bca_correct mb i → inputs i est → est = v) →
  bca_correct mb j → Outputs C j d → d = v.
Proof. apply validity. exact Resilient0. Qed.

Lemma aba_validity_witness : Outputs config p3 1 ∧ 1 = 1.
Proof.
  split; [exact aba_run_outputs_p3|].
  exact (aba_validity coin mb4 (listed ins) config p3 1 1 aba_run_reachable (or_intror eq_refl) ins_one
    aba_run_correct_p3 aba_run_outputs_p3).
Defined.
