(* ===== verification/AbaLive.v ===== *)
(** * Termination of the binary agreement from unanimous proposals

    What a round of an [mmr] has done by the time its goroutines wait, and the
    argument over the rounds: when all correct processes propose [v], every round
    proposes, decides and proposes again [v], until a round whose coin is [v];
    there every correct process decides and outputs it.  A network at rest is one
    where every goroutine of a correct process waits, every message between
    correct processes has been counted and every request for a coin answered. *)

From stdpp Require Import base tactics numbers list fin_sets gmap functions relations.
From S2P Require Import Prelude Utils Bca BcaNet Ivbca IvbcaCorrect IvbcaLive Evbca EvbcaCorrect EvbcaLive.
From S2P Require Import Round Termination Mmr AbaNetwork AbaAgreement.

Local Open Scope Z_scope.

(** ** One process *)

Section node.
Context (mb : membership UUID) `{!Resilient mb} (coin : Z → Z).

(** What [submitCoin] did for a round that decided [dec]. *)
Definition round_settled (nd : aba_node) (r dec : Z) : Prop :=
  bit dec → (dec = coin r → hasDecided (ab_mmr nd) = true) ∧
            (dec ≠ coin r → r + 1 < 2 ^ 16 → (dec, coin r) ∈ ab_proposed nd (r + 1)).

Record aba_node_live (nd : aba_node) : Prop := {
  nl_round r p : p ∈ ab_proposed nd r → is_Some (rounds (ab_mmr nd) !! r);
  nl_taken r c : rounds (ab_mmr nd) !! r = None → ab_taken nd r c = [];
  nl_dec r : (round_info (ab_mmr nd) r).1.1 = X_dec → ab_taken nd r COut = [];
  nl_done r : is_round r → (round_info (ab_mmr nd) r).1.1 = X_done →
    ∃ dec, dec ∈ ab_taken nd r COut ∧ round_settled nd r dec;
  nl_decided : hasDecided (ab_mmr nd) = true → reachedDecision (ab_mmr nd) ≠ [] ∨ m_reach (ab_mmr nd) ≠ R_wait;
  nl_reach : m_reach (ab_mmr nd) = R_done → deliverDecision (ab_mmr nd) ≠ [] ∨ ab_out nd ≠ [];
}.

Lemma aba_node_live_init : aba_node_live (aba_start (mb_n mb) (mb_f mb)).
Proof.
  assert (Hinf : ∀ r, (round_info (newMMR (mb_n mb) (mb_f mb)) r).1.1 = X_dec).
  { intros r. unfold round_info. simpl. destruct (decide (r = firstRound)) as [->|];
      [by rewrite lookup_singleton_eq|by rewrite lookup_singleton_ne]. }
  split; simpl; try done.
  - intros r p Hp. by apply not_elem_of_nil in Hp.
  - intros r _. rewrite Hinf. done.
Qed.

(** Rounds are never removed. *)
Definition rounds_grow (m m' : mmr) : Prop := ∀ r, is_Some (rounds m !! r) → is_Some (rounds m' !! r).

Lemma on_round_exists r op m m' err :
  on_round r op m = Done (m', err) → is_Some (rounds m' !! r) ∧ rounds_grow m m'.
Proof.
  unfold on_round. destruct (getRound r m) as [m1 rd] eqn:Hg.
  destruct (round_call op rd) as [[rd' e]| |]; [|done..]. intros [= <- <-]. split.
  - simpl. rewrite lookup_insert_eq. by eexists.
  - intros r' Hr'. simpl. destruct (decide (r = r')) as [->|]; [rewrite lookup_insert_eq; by eexists|].
    rewrite lookup_insert_ne by done. unfold getRound in Hg. destruct (rounds m !! r); injection Hg as <- <-; [done|].
    simpl. by rewrite lookup_insert_ne.
Qed.

Lemma put_round_grow r rd m : rounds_grow m (put_round r rd m).
Proof.
  intros r' Hr'. simpl. destruct (decide (r = r')) as [->|]; [rewrite lookup_insert_eq; by eexists|].
  by rewrite lookup_insert_ne.
Qed.

Lemma mmr_submitCoin_rounds c r m m' err : mmr_submitCoin c r m = Done (m', err) → rounds_grow m m'.
Proof.
  unfold mmr_submitCoin. destruct (getRound r m) as [m1 rd] eqn:Hg.
  assert (Hg' : rounds_grow m m1).
  { unfold getRound in Hg. destruct (rounds m !! r); injection Hg as <- <-; [by intros ?|]. apply put_round_grow. }
  destruct (round_submitCoin c rd) as [[rd' res]| |]; [|done..]. cbn [mbind outcome_bind].
  assert (Hp : rounds_grow m (put_round r rd' m1)) by (intros x Hx; by apply put_round_grow, Hg').
  destruct res as [t|e]; [|by intros [= <- <-]]. destruct (_ && _).
  - destruct (reachedDecision _); [|done]. by intros [= <- <-].
  - intros Hs. apply on_round_exists in Hs as [_ Hs]. intros x Hx. by apply Hs, Hp.
Qed.

(** A valid estimate and coin are accepted by a later round. *)
Lemma evbca_propose_accepts est c e e' err :
  0 ≤ est ≤ bot → bit c → evbca_propose est c e = Done (e', err) → err = None.
Proof.
  intros He Hc. unfold evbca_propose.
  replace ((bot <? est) || (est <? 0)) with false by (symmetry; apply orb_false_iff; split; apply Z.ltb_ge; lia).
  replace (isInputValid c) with true by (symmetry; by apply isInputValid_spec). simpl.
  destruct (est =? c); [destruct (fastForward est e); [|done..]; by intros [= _ <-]|].
  destruct (est =? bot); [destruct (voteOnCoin c e); [|done..]; by intros [= _ <-]|].
  destruct (slice_get _ _) as [b| |]; [|done..]. simpl. destruct (if b then _ else _); [|done..]. simpl.
  destruct (ev_send _ _ _); [|done..]. by intros [= _ <-].
Qed.

Lemma mmr_propose_accepts est c r m m' err :
  mmr_ok mb m → r ≠ 0 → 0 ≤ est ≤ bot → bit c → mmr_propose est c r m = Done (m', err) → err = None.
Proof.
  intros Hok Hr He Hc Hp. destruct (on_round_spec (T := evbca) mb _ _ _ _ _ Hok Hp) as (_ & _ & _ & _ & Hq).
  destruct (Hq Hr) as (er & Hop & ->). by rewrite (evbca_propose_accepts est c _ _ er He Hc Hop).
Qed.

(** ** Every step keeps the invariant *)

Lemma log_taken_mem r c v tk r' c' : log_taken r c v tk r' c' = if decide (r' = r ∧ c' = c) then tk r' c' ++ [v] else tk r' c'.
Proof.
  destruct (decide (r' = r)) as [->|Hne].
  - rewrite log_taken_eq, chan_upd_lookup. destruct (decide (c = c')) as [->|].
    + by rewrite decide_True.
    + by rewrite decide_False by naive_solver.
  - rewrite log_taken_ne by done. by rewrite decide_False by naive_solver.
Qed.

Lemma round_settled_grows nd nd' r dec :
  log_grows nd nd' → (hasDecided (ab_mmr nd) = true → hasDecided (ab_mmr nd') = true) →
  round_settled nd r dec → round_settled nd' r dec.
Proof. intros (_ & Hp & _) Hh Hs Hb. destruct (Hs Hb) as [H1 H2]. split; [auto|]. intros ??. by apply Hp, H2. Qed.

(** A step keeps the invariant when what it changes satisfies it. *)
Lemma node_live_step nd nd' :
  aba_node_live nd → log_grows nd nd' → rounds_grow (ab_mmr nd) (ab_mmr nd') →
  (hasDecided (ab_mmr nd) = true → hasDecided (ab_mmr nd') = true) →
  (∀ r p, p ∈ ab_proposed nd' r → p ∈ ab_proposed nd r ∨ is_Some (rounds (ab_mmr nd') !! r)) →
  (∀ r c, ab_taken nd' r c = ab_taken nd r c ∨ is_Some (rounds (ab_mmr nd') !! r)) →
  (∀ r, (round_info (ab_mmr nd') r).1.1 = (round_info (ab_mmr nd) r).1.1 ∧ ab_taken nd' r COut = ab_taken nd r COut ∨
        (round_info (ab_mmr nd') r).1.1 ≠ X_dec ∧
        (is_round r → (round_info (ab_mmr nd') r).1.1 = X_done →
           ∃ dec, dec ∈ ab_taken nd' r COut ∧ round_settled nd' r dec)) →
  (hasDecided (ab_mmr nd') = true → reachedDecision (ab_mmr nd') ≠ [] ∨ m_reach (ab_mmr nd') ≠ R_wait) →
  (m_reach (ab_mmr nd') = R_done → deliverDecision (ab_mmr nd') ≠ [] ∨ ab_out nd' ≠ []) →
  aba_node_live nd'.
Proof.
  intros [] Hg Hr Hh Hp Ht Hi Hd Hre. split; [| | | |done..].
  - intros r p Hin. destruct (Hp r p Hin) as [?|]; [|done]. apply Hr. by eapply nl_round0.
  - intros r c Hn. destruct (Ht r c) as [->|Hs]; [|by rewrite Hn in Hs; destruct Hs].
    apply nl_taken0. destruct (rounds (ab_mmr nd) !! r) eqn:E; [|done].
    assert (is_Some (rounds (ab_mmr nd') !! r)) as [? Hx] by (apply Hr; by rewrite E). congruence.
  - intros r Hx. destruct (Hi r) as [[Hsame ->]|[? _]]; [|done]. apply nl_dec0. congruence.
  - intros r Hir Hx. destruct (Hi r) as [[Hsame ->]|[_ Hdone]]; [|auto].
    destruct (nl_done0 r Hir) as (dec & Hdec & Hs); [congruence|]. exists dec. split; [done|].
    by eapply round_settled_grows.
Qed.

(** A step on a round that exists, with nothing decided or proposed. *)
Lemma node_live_put nd nd' r0 rd rd' :
  aba_node_live nd → log_grows nd nd' → rounds (ab_mmr nd) !! r0 = Some rd →
  rounds (ab_mmr nd') = rounds (put_round r0 rd' (ab_mmr nd)) → ab_proposed nd' = ab_proposed nd →
  (∀ r c, r ≠ r0 → ab_taken nd' r c = ab_taken nd r c) →
  hasDecided (ab_mmr nd') = hasDecided (ab_mmr nd) → reachedDecision (ab_mmr nd') = reachedDecision (ab_mmr nd) →
  m_reach (ab_mmr nd') = m_reach (ab_mmr nd) → deliverDecision (ab_mmr nd') = deliverDecision (ab_mmr nd) →
  ab_out nd' = ab_out nd →
  rd_pc rd' = rd_pc rd ∧ ab_taken nd' r0 COut = ab_taken nd r0 COut ∨ (rd_pc rd' ≠ X_dec ∧ rd_pc rd' ≠ X_done) →
  aba_node_live nd'.
Proof.
  intros HL Hg Hrd Hrs Hpr Ht Hh Hre Hm Hd Ho Hpc.
  assert (Hex : is_Some (rounds (ab_mmr nd') !! r0)) by (rewrite Hrs; simpl; rewrite lookup_insert_eq; by eexists).
  apply (node_live_step nd); [done|done| |by rewrite Hh| | | | |].
  - intros r Hx. rewrite Hrs. by apply put_round_grow.
  - rewrite Hpr. by left.
  - intros r c. destruct (decide (r = r0)) as [->|]; [by right|left; auto].
  - intros r. unfold round_info. rewrite Hrs. simpl. destruct (decide (r0 = r)) as [<-|Hne].
    + rewrite lookup_insert_eq, Hrd. simpl. destruct Hpc as [?|[? ?]]; [by left|by right].
    + rewrite lookup_insert_ne by done. left. split; [done|]. by apply Ht.
  - rewrite Hh, Hre, Hm. apply HL.
  - rewrite Hm, Hd, Ho. apply HL.
Qed.

(** A call on a round, with nothing decided. *)
Lemma node_live_call nd nd' r0 op m1 m err :
  mmr_ok mb m1 → aba_node_live nd → log_grows nd nd' → on_round r0 op m1 = Done (m, err) →
  same_rounds (ab_mmr nd) m1 → hasDecided m1 = hasDecided (ab_mmr nd) → reachedDecision m1 = reachedDecision (ab_mmr nd) →
  m_reach m1 = m_reach (ab_mmr nd) → deliverDecision m1 = deliverDecision (ab_mmr nd) →
  ab_mmr nd' = m → ab_taken nd' = ab_taken nd → ab_out nd' = ab_out nd →
  (∀ r p, p ∈ ab_proposed nd' r → p ∈ ab_proposed nd r ∨ r = r0) → aba_node_live nd'.
Proof.
  intros Hok HL Hg Hon Hsame Hh Hre Hm Hd <- Ht Ho Hp.
  destruct (on_round_exists _ _ _ _ _ Hon) as [Hex Hgr].
  destruct (on_round_spec (T := ivbca) mb _ _ _ _ _ Hok Hon) as ([x Hx] & _ & Hinf & _).
  apply (node_live_step nd); [done|done| | | | | | |].
  - intros r Hs. apply Hgr. by rewrite (proj1 Hsame).
  - by rewrite Hx, <-Hh.
  - intros r p Hin. destruct (Hp r p Hin) as [?| ->]; [by left|by right].
  - intros r c. left. by rewrite Ht.
  - intros r. left. rewrite Hinf, (same_rounds_info _ _ _ Hsame), Ht. done.
  - rewrite Hx. simpl. rewrite Hh, Hre, Hm. apply HL.
  - rewrite Hx. simpl. rewrite Hm, Hd, Ho. apply HL.
Qed.

Lemma transition_bit dec c : bit dec → transition dec c = RoundTransitionResult dec (c =? dec).
Proof. intros Hb. unfold transition. destruct (Z.eqb_spec dec bot); [unfold bot in *; lia|done]. Qed.

Lemma coin_node_live nd r0 m err nd' :
  node_inv mb coin nd → aba_node_live nd → mmr_submitCoin (coin r0) r0 (ab_mmr nd) = Done (m, err) →
  nd' = AbaNode m (ab_taken nd)
    (match err, coin_proposal (coin r0) r0 (ab_mmr nd) with
     | None, Some p => log_proposal (uint16_add r0 1) p (ab_proposed nd)
     | _, _ => ab_proposed nd end) (ab_out nd) →
  log_grows nd nd' → aba_node_live nd'.
Proof.
  intros Hi HL Hp -> Hg. pose proof (ai_ok _ _ _ Hi) as Hok. pose proof (mmr_submitCoin_rounds _ _ _ _ _ Hp) as Hgr.
  destruct (mmr_submitCoin_spec (T := ivbca) mb _ _ _ _ _ Hok Hp) as (m2 & y & Hm2 & Hok2 & _ & Hc).
  destruct Hc as [(He & -> & Hinf)|(dec & Hbit & Hcur & Hinf & Ht)].
  { apply (node_live_step nd); simpl; try done; rewrite ?Hm2; try done; try apply HL.
    - intros r p. destruct err; [by left|done].
    - by left.
    - intros r. left. rewrite <-Hm2. by rewrite Hinf. }
  destruct (ai_exec _ _ _ Hi r0) as (_ & _ & Hdec). rewrite Hcur in Hdec. simpl in Hdec.
  assert (Hst : ∀ nd', (∀ r, round_info (ab_mmr nd') r = round_info m2 r) → ab_taken nd' = ab_taken nd →
    (is_round r0 → round_settled nd' r0 dec) →
    ∀ r, (round_info (ab_mmr nd') r).1.1 = (round_info (ab_mmr nd) r).1.1 ∧ ab_taken nd' r COut = ab_taken nd r COut ∨
        (round_info (ab_mmr nd') r).1.1 ≠ X_dec ∧
        (is_round r → (round_info (ab_mmr nd') r).1.1 = X_done →
           ∃ dec, dec ∈ ab_taken nd' r COut ∧ round_settled nd' r dec)).
  { intros nd1 Hi1 Ht1 Hs1 r. rewrite Hi1, Hinf, Ht1. destruct (decide (r0 = r)) as [<-|]; [right|by left].
    split; [done|]. intros Hir _. exists dec. split; [done|auto]. }
  rewrite (coin_proposal_spec _ _ _ _ Hcur) in *. destruct Ht as [(Hd & Hh & -> & Hre & ->)|[Hd Hpr]].
  - rewrite Hd, Hh in *. apply (node_live_step nd); simpl; try done; [by left|by left| | |].
    + refine (Hst (AbaNode _ _ _ _) _ _ _); [done|done|]. intros _ Hb. simpl. split; [done|]. intros Hne _.
      rewrite (transition_bit _ _ Hb) in Hd. simpl in Hd. apply Z.eqb_eq in Hd. congruence.
    + intros _. by left.
    + rewrite Hm2. apply HL.
  - rewrite Hd in *. destruct (on_round_exists _ _ _ _ _ Hpr) as [Hex _].
    destruct (on_round_spec (T := ivbca) mb _ _ _ _ _ Hok2 Hpr) as ([z Hz] & _ & Hinf3 & _).
    assert (Hmm : ∃ w, m = set_rounds w (ab_mmr nd)) by (exists z; by rewrite Hz, Hm2). destruct Hmm as [w Hw].
    apply (node_live_step nd); simpl; try done.
    + by rewrite Hw.
    + intros r p Hin. destruct err; [by left|]. destruct (log_proposal_in _ _ _ _ _ Hin) as [?|[-> _]]; [by left|by right].
    + by left.
    + refine (Hst (AbaNode _ _ _ _) _ _ _); [done|done|]. intros Hir Hb. simpl. rewrite (transition_bit _ _ Hb) in *. simpl in *. split.
      * intros ->. rewrite Z.eqb_refl in Hd. simpl in Hd. rewrite Hw. simpl. by destruct (hasDecided (ab_mmr nd)).
      * intros Hne Hlt. unfold is_round in Hir.
        assert (Hu : uint16_add r0 1 = r0 + 1) by (unfold uint16_add; apply Z.mod_small; lia). rewrite Hu in *.
        assert (err = None) as ->.
        { apply (mmr_propose_accepts dec (coin r0) (r0 + 1) m2 m err Hok2); [lia|unfold bot; lia|exact Hbit|exact Hpr]. }
        unfold log_proposal. rewrite fn_lookup_insert. by left.
    + rewrite Hw. apply HL.
    + rewrite Hw. apply HL.
Qed.

Lemma aba_exec_live e nd nd' :
  node_inv mb coin nd → aba_node_live nd → aba_exec coin e nd = Some nd' → aba_node_live nd'.
Proof.
  intros Hi HL Hex. pose proof (aba_exec_grows _ _ _ _ Hex) as Hg. pose proof (ai_ok _ _ _ Hi) as Hok.
  apply aba_exec_case in Hex.
  destruct Hex as [est m err Hp|k v s r0 m err Hp|r0 g br rd rd' Hrd Ht|r0 c rd rd' v Hrd Hc Ht
    |r0 rd u q Hrd Hq|r0 rd rd' dec Hrd He|r0 m err Hp|i x m err Hx Hon|d s t err Hp|d q Hm Hq|d t Hm Ht|br d Hm Hq|d q Hq].
  - apply (node_live_call nd _ firstRound _ (ab_mmr nd) m err Hok HL Hg Hp); try done.
    intros r p. simpl. destruct err; [by left|]. intros [?|[-> _]]%log_proposal_in; auto.
  - apply (node_live_call nd _ r0 _ (ab_mmr nd) m err Hok HL Hg Hp); try done. by left.
  - destruct (round_try_spec (T := ivbca) _ _ _ _ Ht) as (Hpc & _ & _). injection Hpc as Hpc _ _.
    apply (node_live_put nd _ r0 rd rd'); try done. by left.
  - destruct (round_try_spec (T := ivbca) _ _ _ _ Ht) as (Hpc & _ & _). injection Hpc as Hpc _ _.
    apply (node_live_put nd _ r0 rd rd'); try done; simpl.
    + intros r c' Hne. rewrite log_taken_mem, decide_False by naive_solver. done.
    + left. split; [done|]. rewrite log_taken_mem, decide_False; [done|].
      intros [_ <-]. unfold out_chans in *. set_solver.
  - eapply (node_live_put nd _ r0 rd); try done. by left.
  - apply (node_live_put nd _ r0 rd rd'); try done; simpl.
    + intros r c Hne. destruct dec; [|done]. rewrite log_taken_mem, decide_False by naive_solver. done.
    + unfold execRound in He. destruct (rd_pc rd) eqn:Hpc.
      * apply bind_Some in He as ([b d] & _ & [= <- <-]). by right.
      * destruct (coinReqChan rd); [|done]. injection He as <- <-. by right.
      * destruct (coinReceiveChan rd); [done|]. injection He as <- <-. by right.
      * destruct (ai_exec _ _ _ Hi r0) as (_ & _ & Hx). rewrite (round_info_at _ _ _ Hrd), Hpc in Hx. done.
      * done.
  - by apply (coin_node_live nd r0 m err).
  - set (m1 := set_external _ _) in Hon. assert (Hok1 : mmr_ok mb m1) by (by apply (same_rounds_ok mb (ab_mmr nd))).
    eapply (node_live_call nd _ _ _ m1 m err Hok1 HL Hg Hon); try done. by left.
  - apply (node_live_step nd); simpl; try done; try apply HL; try (by left). by intros ?.
  - apply (node_live_step nd); simpl; try done; try apply HL; try (by left); [by intros ?|]. intros _. by right.
  - apply (node_live_step nd); simpl; try done; try apply HL; try (by left); [by intros ?|]. intros _. by right.
  - apply (node_live_step nd); simpl; try done; try (by left); [by intros ?|]. intros _. by right.
  - apply (node_live_step nd); simpl; try done; try apply HL; try (by left); [by intros ?|]. intros _. right. by intros [_ ?]%app_eq_nil.
Qed.
End node.

(** ** The interface of a round at rest

    What the argument over the rounds needs of a crusader agreement: its counts
    are those of the round, its decision channel is used once, and it decides
    unanimous proposals, which for later rounds must differ from the coin. *)

Definition rb_received (b : round_bca) (k : bca_kind) (v : Z) : gset UUID :=
  match b with IV b => ivbca_received b k v | EV b => evbca_received b k v end.

Class BCAUnanimous (T : Set) `{!BCA T, !RoundKind T} (mb : membership UUID) `{!BCALaws T mb} : Type := {
  bu_ok : Z → Z * Z → Prop;
  bu_ok_val v p : bu_ok v p → p.1 = v;
  bu_received (t : T) k v : rb_received (rk_inj t) k v = received t k v;
  bu_out (t : T) c : c ∉ out_chans → bca_take c t = None;
  bu_once (nd : bca_node T) v : node_ok nd → v ∈ nd_taken nd COut → bca_take COut (nd_st nd) = None;
  bu_decides inputs v (H : bca_config T) :
    bit v → (∀ j p, bca_correct mb j → inputs j p → bu_ok v p) → bca_reachable mb inputs H →
    (∀ j, bca_correct mb j → nd_proposed (H j) ≠ [] ∧ (∀ g br, bca_step g br (nd_st (H j)) = None) ∧
       ∀ c, bca_take c (nd_st (H j)) = None) →
    (∀ i j k w, bca_correct mb i → bca_correct mb j → w ∈ nd_taken (H i) (kind_chan k) →
       i ∈ received (nd_st (H j)) k w) →
    ∀ j, bca_correct mb j → Decides H j v;
}.

(** A decision leaves the channel it was read from empty. *)
Lemma decide_hist_empty pc (tk sn ch : bca_chans) v :
  decide_hist pc tk sn → linked tk sn ch → v ∈ tk COut → ch COut = [].
Proof.
  intros Hh Hl Hv. specialize (Hl COut). apply list_elem_of_split in Hv as (l1 & l2 & Hv). rewrite Hv in Hl.
  destruct pc; simpl in Hh.
  1,2: destruct Hh as (_ & _ & Hs & _).
  3: destruct Hh as (_ & Hs & _).
  4,5: destruct Hh as (d & _ & Hs & _).
  all: rewrite Hs in Hl; apply (f_equal length) in Hl; rewrite !length_app in Hl; simpl in Hl;
    destruct (ch COut); [done|simpl in Hl; lia].
Qed.

Section instances.
Context (mb : membership UUID) `{!Resilient mb}.

#[export] Program Instance ivbca_unanimous : BCAUnanimous ivbca mb := {
  bu_ok v p := p.1 = v;
}.
Solve Obligations with try done.
Next Obligation. intros t c Hc. simpl. unfold ivbca_take. by rewrite decide_False. Qed.
Next Obligation.
  intros nd v (tk & sn & Ht & Hi) Hv. simpl. unfold ivbca_take, chan_recv. case_decide as Hc; [|done].
  by rewrite (decide_hist_empty _ _ _ _ v (v_decide _ _ _ _ _ Hi) (v_link _ _ _ _ _ Hi)) by (rewrite Ht; done).
Qed.
Next Obligation.
  intros inputs v H Hv Hin Hr Hrest Hdel. apply (unanimous_rest_decides mb inputs); [done| |done|done].
  split; [intros j Hj; by apply Hrest| |done]. intros j Hj. split; by apply Hrest.
Qed.

#[export] Program Instance evbca_unanimous : BCAUnanimous evbca mb := {
  bu_ok v p := p.1 = v ∧ p.1 ≠ p.2;
}.
Solve Obligations with try first [done|by intros ?? [? _]].
Next Obligation. intros t c Hc. simpl. unfold evbca_take. by rewrite decide_False. Qed.
Next Obligation.
  intros nd v (tk & sn & Ht & Hi) Hv. simpl. unfold evbca_take, chan_recv. case_decide as Hc; [|done].
  by rewrite (decide_hist_empty _ _ _ _ v (e_decide _ _ _ _ _ Hi) (e_link _ _ _ _ _ Hi)) by (rewrite Ht; done).
Qed.
Next Obligation.
  intros inputs v H Hv Hin Hr Hrest Hdel. apply (ev_unanimous_decides mb inputs v); [done..|].
  split; [intros j Hj; by apply Hrest| |done]. intros j Hj. split; by apply Hrest.
Qed.
End instances.

(** ** A network at rest *)

Section rest.
Context (mb : membership UUID) `{!Resilient mb} (coin : Z → Z) (inputs : UUID → Z → Prop).

#[local] Abbreviation Correct := (bca_correct mb).
Implicit Types C : aba_config.

Definition round_counted (m : mmr) (r : Z) (k : bca_kind) (v : Z) (s : UUID) : Prop :=
  match rounds m !! r with Some rd => s ∈ rb_received (rd_bca rd) k v | None => False end.

(** The steps a process makes on its own. *)
Definition internal (e : aba_event) : Prop :=
  match e with
  | AGo _ _ _ | AListen _ _ | AExec _ | AReach _ | AOutput => True
  | _ => False
  end.

Definition waits_for_coin (m : mmr) (r : Z) : Prop :=
  match (round_info m r).1.1 with X_coin _ => True | _ => False end.

Record aba_at_rest C : Prop := {
  as_proposed j : Correct j → ab_proposed (C j) firstRound ≠ [];
  as_idle j e : Correct j → internal e → aba_exec coin e (C j) = None;
  as_delivered i j r k v : Correct i → Correct j → is_round r → v ∈ ab_taken (C i) r (kind_chan k) →
    round_counted (ab_mmr (C j)) r k v i;
  as_coin j r : Correct j → is_round r → ¬ waits_for_coin (ab_mmr (C j)) r;
}.

Lemma aba_net_live C : aba_reachable coin mb inputs C → ∀ j, Correct j → aba_node_live coin (C j).
Proof.
  revert C. apply (rtc_ind_r (R := aba_net_step coin mb inputs) (λ C, ∀ j, Correct j → aba_node_live coin (C j))).
  - intros j _. apply aba_node_live_init.
  - intros C C' Hrt [j e nd Hj Hok Hex] HL i Hi. destruct (decide (j = i)) as [<-|].
    + rewrite fn_lookup_insert. apply (aba_exec_live mb coin e (C j)); [|by apply HL|done].
      by apply (an_node _ _ _ _ (aba_reachable_ok mb coin inputs C Hrt)).
    + rewrite fn_lookup_insert_ne by done. by apply HL.
Qed.

Section config.
Context (C : aba_config) (Hr : aba_reachable coin mb inputs C) (Hrest : aba_at_rest C).

Lemma rest_node_inv j : Correct j → node_inv mb coin (C j).
Proof. by apply (an_node _ _ _ _ (aba_reachable_ok mb coin inputs C Hr)). Qed.

(** What [execRound] waits for. *)
Lemma rest_pc j r rd :
  Correct j → is_round r → rounds (ab_mmr (C j)) !! r = Some rd →
  rd_pc rd = X_dec ∨ rd_pc rd = X_done.
Proof.
  intros Hj Hir Hrd. pose proof (round_info_at _ _ _ Hrd) as Hinf.
  destruct (ai_exec _ _ _ (rest_node_inv j Hj) r) as (_ & _ & Hx). rewrite Hinf in Hx. simpl in Hx.
  pose proof (as_coin C Hrest j r Hj Hir) as Hc. unfold waits_for_coin in Hc. rewrite Hinf in Hc. simpl in Hc.
  pose proof (as_idle C Hrest j (AExec r) Hj I) as He. pose proof (as_idle C Hrest j (AListen r (inr tt)) Hj I) as Hl.
  simpl in He, Hl. unfold mmr_execRound, execRound in He. unfold listenRequests in Hl.
  rewrite Hrd in He, Hl. simpl in He, Hl.
  destruct (rd_pc rd) as [|d|d|t|]; [by left| |by destruct Hc|done|by right].
  by destruct (coinReqChan rd).
Qed.

Section round.
Context {T : Set} `{!BCA T, !RoundKind T, !BCALaws T mb, !BCAUnanimous T mb}.

Lemma round_inst j r rd : Correct j → rk_round r → rounds (ab_mmr (C j)) !! r = Some rd →
  rd_bca rd = rk_inj (round_state mb r (ab_mmr (C j)) : T).
Proof.
  intros Hj Hk Hrd. destruct (rk_kind_or (T := T) mb r r rd _ (ai_ok _ _ _ (rest_node_inv j Hj)) Hrd Hk)
    as [[_ [t Ht]]|]; [|done]. unfold round_state. by rewrite Hrd, Ht, rk_of_inj.
Qed.

(** The crusader agreement of the round is idle. *)
Lemma rest_round_idle j r :
  Correct j → is_round r → rk_round r → node_ok (project mb r (C j) : bca_node T) →
  ab_proposed (C j) r ≠ [] →
  (∀ g br, bca_step g br (round_state mb r (ab_mmr (C j)) : T) = None) ∧
  ∀ c, bca_take c (round_state mb r (ab_mmr (C j)) : T) = None.
Proof.
  intros Hj Hir Hk Hok Hp. pose proof (aba_net_live C Hr j Hj) as HL.
  destruct (ab_proposed (C j) r) as [|p l] eqn:Hpr; [done|].
  destruct (nl_round _ _ HL r p) as [rd Hrd]; [rewrite Hpr; by left|].
  pose proof (round_inst j r rd Hj Hk Hrd) as Hb. split.
  - intros g br. pose proof (as_idle C Hrest j (AGo r g br) Hj I) as Hi. simpl in Hi. unfold mmr_go in Hi.
    rewrite Hrd in Hi. simpl in Hi. unfold round_try in Hi. rewrite Hb, rk_try in Hi.
    by destruct (bca_step g br _).
  - intros c. destruct (decide (c ∈ out_chans)) as [Hc|]; [|by apply bu_out].
    destruct (decide (c = COut)) as [->|Hne].
    + destruct (rest_pc j r rd Hj Hir Hrd) as [Hpc|Hpc].
      * pose proof (as_idle C Hrest j (AExec r) Hj I) as Hi. simpl in Hi. unfold mmr_execRound, execRound in Hi.
        rewrite Hrd in Hi. simpl in Hi. rewrite Hpc, Hb, rk_try in Hi. by destruct (bca_take COut _) as [[]|].
      * destruct (nl_done _ _ HL r Hir) as (d & Hd & _); [by rewrite (round_info_at _ _ _ Hrd)|].
        by apply (bu_once (project mb r (C j)) d).
    + pose proof (as_idle C Hrest j (AListen r (inl c)) Hj I) as Hi. simpl in Hi. unfold listenRequests in Hi.
      rewrite Hrd in Hi. simpl in Hi.
      rewrite decide_True in Hi by (unfold out_chans in Hc; set_solver). unfold round_try in Hi.
      rewrite Hb, rk_try in Hi. by destruct (bca_take c _) as [[]|].
Qed.

(** So a round with unanimous proposals decides. *)
Lemma rest_round_decides r v :
  is_round r → rk_round r → bit v →
  (∀ j, Correct j → ab_proposed (C j) r ≠ []) →
  (∀ j p, Correct j → p ∈ ab_proposed (C j) r → bu_ok v p) →
  ∀ j, Correct j → v ∈ ab_taken (C j) r COut.
Proof.
  intros Hir Hk Hv Hp Hall. pose proof (project_reachable mb coin inputs r C Hk Hr) as Hpr.
  apply (bu_decides _ v _ Hv Hall Hpr).
  - intros j Hj. split; [by apply Hp|]. apply rest_round_idle; [done..| |by apply Hp].
    by apply (no_node _ _ _ (reachable_ok mb _ _ Hpr)).
  - intros i j k w Hi Hj Hw. pose proof (as_delivered C Hrest i j r k w Hi Hj Hir Hw) as Hc.
    unfold round_counted in Hc. destruct (rounds (ab_mmr (C j)) !! r) as [rd|] eqn:Hrd; [|done].
    rewrite (round_inst j r rd Hj Hk Hrd), bu_received in Hc. exact Hc.
Qed.
End round.
End config.
End rest.

(** ** The rounds *)

Section unanimous.
Context (mb : membership UUID) `{!Resilient mb} (coin : Z → Z) (inputs : UUID → Z → Prop).
Context (C : aba_config) (Hr : aba_reachable coin mb inputs C) (Hrest : aba_at_rest mb coin C).
Context (v : Z) (Hv : bit v) (Hin : ∀ i est, bca_correct mb i → inputs i est → est = v).

#[local] Abbreviation Correct := (bca_correct mb).

(** All correct processes have proposed to round [r], and the coin before it was
    not [v]. *)
Definition round_started (r : Z) : Prop :=
  ∀ j, Correct j → ab_proposed (C j) r ≠ [] ∧ ∀ p, p ∈ ab_proposed (C j) r → p.1 = v ∧ (r ≠ 0 → p.2 ≠ v).

Lemma started_decides r : is_round r → round_started r → ∀ j, Correct j → v ∈ ab_taken (C j) r COut.
Proof.
  intros Hir Hs. destruct (decide (r = 0)) as [->|Hr0].
  - apply (rest_round_decides (T := ivbca) mb coin inputs C Hr Hrest 0 v Hir (round_zero) Hv).
    + intros j Hj. by apply Hs.
    + intros j p Hj Hp. by apply (Hs j Hj).
  - apply (rest_round_decides (T := evbca) mb coin inputs C Hr Hrest r v Hir (round_later r Hr0) Hv).
    + intros j Hj. by apply Hs.
    + intros j p Hj Hp. destruct (Hs j Hj) as [_ Ha]. destruct (Ha p Hp) as [He Hne].
      split; [done|]. rewrite He. symmetry. by apply Hne.
Qed.

(** Then every one of them has handled the coin with the decision [v]. *)
Lemma started_settled r : is_round r → round_started r → ∀ j, Correct j → round_settled coin (C j) r v.
Proof.
  intros Hir Hs j Hj. pose proof (aba_net_live mb coin inputs C Hr j Hj) as HL.
  pose proof (started_decides r Hir Hs j Hj) as Hd.
  destruct (rounds (ab_mmr (C j)) !! r) as [rd|] eqn:Hrd.
  2:{ rewrite (nl_taken _ _ HL r COut Hrd) in Hd. by apply not_elem_of_nil in Hd. }
  pose proof (round_info_at _ _ _ Hrd) as Hinf.
  destruct (rest_pc mb coin inputs C Hr Hrest j r rd Hj Hir Hrd) as [Hpc|Hpc].
  - rewrite (nl_dec _ _ HL r) in Hd by (by rewrite Hinf). by apply not_elem_of_nil in Hd.
  - destruct (nl_done _ _ HL r Hir) as (dec & Hdec & Hset); [by rewrite Hinf|].
    rewrite <-(round_validity mb coin inputs C r v j dec Hr Hv); [done| |done|done].
    intros i p Hi Hp. by apply (Hs i Hi).
Qed.

(** Every round starts, until all have decided. *)
Lemma started_or_decided k :
  Z.of_nat k < 2 ^ 16 →
  (∀ j, Correct j → hasDecided (ab_mmr (C j)) = true) ∨ round_started (Z.of_nat k).
Proof.
  induction k as [|k IH]; intros Hk.
  - right. intros j Hj. split; [by apply (as_proposed _ _ C Hrest)|]. intros p Hp. split; [|done].
    apply (Hin j); [done|]. by apply (an_input _ _ _ _ (aba_reachable_ok mb coin inputs C Hr)).
  - destruct IH as [?|Hs]; [lia|by left|]. assert (Hir : is_round (Z.of_nat k)) by (unfold is_round; lia).
    pose proof (started_settled _ Hir Hs) as Hset. destruct (decide (v = coin (Z.of_nat k))) as [Hc|Hc].
    + left. intros j Hj. by apply (Hset j Hj).
    + right. intros j Hj. replace (Z.of_nat (S k)) with (Z.of_nat k + 1) in * by lia. split.
      * destruct (Hset j Hj Hv) as [_ Hp]. specialize (Hp Hc Hk). intros He. rewrite He in Hp.
        by apply not_elem_of_nil in Hp.
      * intros p Hp. split.
        { apply (proposals_valid mb coin inputs C v (S k) Hr Hv (proposals_of_inputs mb coin inputs C v Hr Hin) j p Hj).
          by replace (Z.of_nat (S k)) with (Z.of_nat k + 1) by lia. }
        intros _. pose proof (rest_node_inv mb coin inputs C Hr j Hj) as Hi.
        destruct (ai_prop _ _ _ Hi _ p Hp) as [[? _]|(r0 & d & _ & Hr1 & _ & _ & ->)]; [lia|]. simpl.
        assert (r0 = Z.of_nat k) as -> by lia. congruence.
Qed.

Lemma lucky_round_decides r :
  is_round r → coin r = v → ∀ j, Correct j → hasDecided (ab_mmr (C j)) = true.
Proof.
  intros Hir Hc. pose proof Hir as [H0 H1].
  destruct (started_or_decided (Z.to_nat r)) as [?|Hs]; [lia|done|].
  rewrite Z2Nat.id in Hs by done. intros j Hj. by apply (started_settled r Hir Hs j Hj).
Qed.

(** A decision leaves the process. *)
Lemma decided_outputs j : Correct j → hasDecided (ab_mmr (C j)) = true → ∃ d, Outputs C j d.
Proof.
  intros Hj Hd. pose proof (aba_net_live mb coin inputs C Hr j Hj) as HL.
  pose proof (as_idle _ _ C Hrest j (AReach true) Hj I) as Ht. pose proof (as_idle _ _ C Hrest j AOutput Hj I) as Ho.
  simpl in Ht, Ho. unfold reachDecision in Ht. unfold take_decision in Ho.
  destruct (deliverDecision (ab_mmr (C j))) as [|x q] eqn:Hq; [|done].
  destruct (m_reach (ab_mmr (C j))) eqn:Hm.
  - destruct (nl_decided _ _ HL Hd) as [Hne|]; [|done]. by destruct (reachedDecision (ab_mmr (C j))).
  - done.
  - destruct (nl_reach _ _ HL Hm) as [?|Hne]; [done|]. unfold Outputs.
    destruct (ab_out (C j)) as [|d l]; [done|]. exists d. by left.
Qed.
End unanimous.

(** ** Configurations at rest *)

Module AbaRestExample.
Import Example4 IvbcaExample IvbcaRestExample AbaExample.

Definition keys (nd : aba_node) : list Z := (map_to_list (rounds (ab_mmr nd))).*1.

Definition all_internal (r : Z) : list aba_event :=
  (g ← all_gos; c ← all_chans; [AGo r g c]) ++ ((λ c, AListen r (inl c)) <$> all_chans) ++
  [AListen r (inr tt); AExec r].
Definition owner_events : list aba_event := [AReach true; AReach false; AOutput].

Definition waits_for_coinb (m : mmr) (r : Z) : bool :=
  match (round_info m r).1.1 with X_coin _ => true | _ => false end.
Definition round_countedb (m : mmr) r k v s : bool :=
  match rounds m !! r with Some rd => bool_decide (s ∈ rb_received (rd_bca rd) k v) | None => false end.

Definition aba_at_restb (C : aba_config) : bool :=
  forallb (λ j, negb (bool_decide (ab_proposed (C j) firstRound = [])) &&
    forallb (λ e, is_none (aba_exec coin e (C j))) owner_events &&
    forallb (λ r, forallb (λ e, is_none (aba_exec coin e (C j))) (all_internal r) &&
      negb (waits_for_coinb (ab_mmr (C j)) r)) (keys (C j)) &&
    forallb (λ i, forallb (λ r, forallb (λ k, forallb (λ v, round_countedb (ab_mmr (C j)) r k v i)
      (ab_taken (C i) r (kind_chan k))) all_kinds) (keys (C i))) ps) ps.

Lemma in_keys nd r : is_Some (rounds (ab_mmr nd) !! r) → In r (keys nd).
Proof.
  intros [rd Hrd]. apply list_elem_of_In, list_elem_of_fmap. exists (r, rd). split; [done|].
  by apply elem_of_map_to_list.
Qed.

Lemma absent_round (C : aba_config) j r e :
  rounds (ab_mmr (C j)) !! r = None → In e (all_internal r) → aba_exec coin e (C j) = None.
Proof.
  intros Hn He. assert (Hx : ∀ e, In e (all_internal r) →
    (∃ g c, e = AGo r g c) ∨ (∃ b, e = AListen r b) ∨ e = AExec r).
  { unfold all_internal. intros x. rewrite !in_app_iff. intros [Hx|[Hx|Hx]].
    - left. apply list_elem_of_In, list_elem_of_bind in Hx as (g & Hx & _).
      apply list_elem_of_bind in Hx as (c & ->%list_elem_of_singleton & _). by do 2 eexists.
    - right; left. apply list_elem_of_In, list_elem_of_fmap in Hx as (c & -> & _). by eexists.
    - destruct Hx as [<-|[<-|[]]]; [right; left; by eexists|by right; right]. }
  destruct (Hx e He) as [(g & c & ->)|[(b & ->)| ->]]; simpl.
  - unfold mmr_go. by rewrite Hn.
  - unfold listenRequests. by rewrite Hn.
  - unfold mmr_execRound. by rewrite Hn.
Qed.

Lemma internal_listed e : internal e → In e owner_events ∨ ∃ r, In e (all_internal r).
Proof.
  assert (Hc : ∀ c, c ∈ all_chans) by (intros c; apply list_elem_of_In; destruct c; simpl; tauto).
  destruct e as [est|k v s r|r g br|r br|r|r|i|d s|br|]; try done; intros _.
  - right. exists r. apply in_app_iff. left. apply list_elem_of_In, list_elem_of_bind. exists g.
    split; [|apply list_elem_of_In; destruct g; simpl; tauto]. apply list_elem_of_bind. exists br.
    split; [by left|done].
  - right. exists r. apply in_app_iff. right. apply in_app_iff. destruct br as [c|[]]; [left|right; by left].
    apply list_elem_of_In, list_elem_of_fmap. by exists c.
  - right. exists r. apply in_app_iff. right. apply in_app_iff. right. right. by left.
  - left. destruct br; simpl; tauto.
  - left. simpl. tauto.
Qed.

Lemma aba_at_restb_spec C :
  aba_reachable coin mb4 (listed ins) C → aba_at_restb C = true → aba_at_rest mb4 coin C.
Proof.
  intros Hr Hb. pose proof (aba_net_live mb4 coin (listed ins) C Hr) as HL.
  unfold aba_at_restb in Hb. rewrite forallb_forall in Hb.
  assert (Hps : ∀ j, bca_correct mb4 j → In j ps) by (intros j Hj; by apply list_elem_of_In, correct_ps).
  assert (Hj : ∀ j, bca_correct mb4 j → ab_proposed (C j) firstRound ≠ [] ∧
    (∀ e, In e owner_events → aba_exec coin e (C j) = None) ∧
    (∀ r, In r (keys (C j)) → (∀ e, In e (all_internal r) → aba_exec coin e (C j) = None) ∧
       ¬ waits_for_coin (ab_mmr (C j)) r) ∧
    ∀ i r k v, bca_correct mb4 i → In r (keys (C i)) → v ∈ ab_taken (C i) r (kind_chan k) →
      round_counted (ab_mmr (C j)) r k v i).
  { intros j Hc. specialize (Hb j (Hps j Hc)). rewrite !andb_true_iff, !forallb_forall, negb_true_iff in Hb.
    destruct Hb as [[[Hp Ho] Hk] Hd]. split_and!.
    - by apply bool_decide_eq_false_1 in Hp.
    - intros e He. by apply is_none_spec, Ho.
    - intros r Hin. specialize (Hk r Hin). rewrite andb_true_iff, forallb_forall, negb_true_iff in Hk.
      destruct Hk as [Hk Hw]. split; [intros e He; by apply is_none_spec, Hk|].
      unfold waits_for_coin, waits_for_coinb in *. intros Hx. by destruct ((round_info (ab_mmr (C j)) r).1.1).
    - intros i r k v Hi Hin Hv. specialize (Hd i (Hps i Hi)). rewrite forallb_forall in Hd.
      specialize (Hd r Hin). rewrite forallb_forall in Hd.
      assert (Hkk : In k all_kinds) by (destruct k; simpl; tauto).
      specialize (Hd k Hkk). rewrite forallb_forall in Hd. apply list_elem_of_In in Hv. specialize (Hd v Hv).
      unfold round_countedb in Hd. unfold round_counted. destruct (rounds _ !! r); [|done].
      by apply bool_decide_eq_true_1 in Hd. }
  split.
  - intros j Hc. by apply Hj.
  - intros j e Hc [He|[r He]]%internal_listed; [by apply (proj1 (proj2 (Hj j Hc)))|].
    destruct (rounds (ab_mmr (C j)) !! r) eqn:Hrd; [|by apply (absent_round C j r)].
    destruct (Hj j Hc) as (_ & _ & Hk & _).
    refine (proj1 (Hk r _) e He). apply in_keys. by rewrite Hrd.
  - intros i j r k v Hi Hc _ Hv. destruct (Hj j Hc) as (_ & _ & _ & Hd). apply (Hd i); [done| |done]. apply in_keys.
    destruct (rounds (ab_mmr (C i)) !! r) eqn:Hrd; [by eexists|].
    rewrite (nl_taken _ _ (HL i Hi) r (kind_chan k) Hrd) in Hv. by apply not_elem_of_nil in Hv.
  - intros j r Hc _. destruct (rounds (ab_mmr (C j)) !! r) eqn:Hrd.
    + destruct (Hj j Hc) as (_ & _ & Hk & _). refine (proj2 (Hk r _)). apply in_keys. by rewrite Hrd.
    + unfold waits_for_coin, round_info. rewrite Hrd. by intros [].
Qed.

(** The enabled events of a schedule. *)
Fixpoint aba_enabled (l : list (UUID * aba_event)) (C : aba_config) : list (UUID * aba_event) :=
  match l with
  | [] => []
  | (j, e) :: l =>
    match (if decide (bca_correct mb4 j ∧ aba_event_ok mb4 (listed ins) C j e)
           then aba_exec coin e (C j) else None) with
    | Some nd => (j, e) :: aba_enabled l (<[j := nd]> C)
    | None => aba_enabled l C
    end
  end.

Definition aba_sweep (r : Z) : list (UUID * aba_event) :=
  all_do (all_internal r ++ [ACoin r] ++ owner_events) ++
  (k ← all_kinds; v ← [0; 1; bot]; all_receive k v r).

(** Both rounds to their end: the coin of round 0 is 0, that of round 1 is 1. *)
Definition rest_run : list (UUID * aba_event) :=
  aba_enabled (all_do [APropose 1] ++ unanimous 0 [] ++ all_do [ACoin 0] ++ unanimous 1 [AGo 1 GoVote CExt] ++
    all_do [ACoin 1; AReach true; AReach true; AOutput] ++
    aba_sweep 0 ++ aba_sweep 0 ++ aba_sweep 1 ++ aba_sweep 1) (aba_net_init mb4).

Definition rest_config : aba_config := aba_config_of coin mb4 ins rest_run.

Lemma rest_run_reachable : aba_reachable coin mb4 (listed ins) rest_config.
Proof. apply aba_config_reachable. vm_compute. reflexivity. Qed.

Lemma rest_run_rest : aba_at_rest mb4 coin rest_config.
Proof. apply aba_at_restb_spec; [exact rest_run_reachable|]. vm_compute. reflexivity. Qed.

Lemma is_round_one : is_round 1.
Proof. unfold is_round. lia. Qed.
End AbaRestExample.
Import Example4 AbaExample AbaRestExample.

(** ** Theorem *)

(** C8: termination from unanimous proposals.  When all correct processes propose
    [v], in every reachable network at rest every correct process has output
    [v], and nothing else, provided one of the 65536 rounds has the coin [v];
    whatever the faulty processes send, and however many rounds it takes. *)
Theorem aba_unanimous_terminates (coin : Z → Z) (mb : membership UUID) `{!Resilient mb} inputs (C : aba_config) v r :
  aba_reachable coin mb inputs C → aba_at_rest mb coin C → v = 0 ∨ v = 1 →
  (∀ i est, bca_correct mb i → inputs i est → est = v) → is_round r → coin r = v →
  ∀ j, bca_correct mb j → Outputs C j v ∧ ∀ d, Outputs C j d → d = v.
Proof.
  intros Hr Hrest Hv Hin Hir Hc j Hj.
  assert (Hval : ∀ d, Outputs C j d → d = v) by (intros d; by apply (validity mb coin inputs C j d v)).
  split; [|done]. destruct (decided_outputs mb coin inputs C Hr Hrest j Hj) as [d Hd].
  - by apply (lucky_round_decides mb coin inputs C Hr Hrest v Hv Hin r).
  - by rewrite <-(Hval d Hd).
Qed.

Lemma aba_unanimous_terminates_witness : aba_at_rest mb4 coin rest_config ∧ Outputs rest_config p3 1.
Proof.
  split; [exact rest_run_rest|].
  exact (proj1 (aba_unanimous_terminates coin mb4 (listed ins) rest_config 1 1 rest_run_reachable rest_run_rest
    (or_intror eq_refl) ins_one is_round_one eq_refl p3 aba_run_correct_p3)).
Defined.
