(* ===== verification/AbaWire.v ===== *)
(** * Message formats of the binary agreement

    [abaMiddleware.go], [terminationMiddleware.go] and the seed of a coin in
    [abaNetworkedInstance.go]: what is written to the broadcast channel and how
    it is read back.  The readers look at a prefix and ignore what follows. *)

From stdpp Require Import base tactics numbers list.
From Stdlib Require Import Init.Byte.
From S2P Require Import Prelude Utils Bca.

Local Open Scope Z_scope.

(** [middlewareCode]: ['a' + iota]. *)
Definition aba_code (k : bca_kind) : byte :=
  match k with KEcho => "a"%byte | KVote => "b"%byte | KBind => "c"%byte end.

(** [kind] is any byte of the wire; [processMiddlewareMsg] looks for the three
    codes. *)
Record abaMsg := AbaMsg {
  am_sender : UUID;
  am_instance : UUID;
  am_kind : byte;
  am_round : Z;
  am_val : Z;
}.

Record terminationMsg := TerminationMsg {
  tm_sender : UUID;
  tm_instance : UUID;
  tm_decision : Z;
}.

Inductive aba_wire_err :=
| WireNoKey
| WireId (e : extract_err)
| WireKind (e : io_err)
| WireRound (e : io_err)
| WireVal (e : io_err).

(** ** Writers *)

Definition broadcastMsg (instance : UUID) (kind : byte) (round val : Z) : bytes :=
  uuid_bytes instance ++ [kind] ++ le_encode 2 round ++ [Z_byte val].

Definition broadcastEcho (instance : UUID) (round val : Z) : bytes :=
  broadcastMsg instance (aba_code KEcho) round val.
Definition broadcastVote (instance : UUID) (round val : Z) : bytes :=
  broadcastMsg instance (aba_code KVote) round val.
Definition broadcastBind (instance : UUID) (round val : Z) : bytes :=
  broadcastMsg instance (aba_code KBind) round val.

Definition broadcastDecision (instance : UUID) (decision : Z) : bytes :=
  uuid_bytes instance ++ le_encode 1 decision.

Definition makeCoinSeed (id : UUID) (round : Z) : bytes :=
  uuid_bytes id ++ le_encode 2 round.

(** ** Readers *)

Section readers.
Context {PublicKey : Type} (SerializePublicKey : PublicKey → option bytes).

Definition aba_parseMsg (msg : bytes) (sender : PublicKey) : result aba_wire_err abaMsg :=
  match PkToUUID SerializePublicKey sender with
  | None => Err WireNoKey
  | Some senderId =>
    match ExtractIdFromMessage msg with
    | Err e => Err (WireId e)
    | Ok (id, reader) =>
      match reader_ReadByte reader with
      | Err e => Err (WireKind e)
      | Ok (kind, reader) =>
        match binary_Read 2 reader with
        | Err e => Err (WireRound e)
        | Ok (round, reader) =>
          match binary_Read 1 reader with
          | Err e => Err (WireVal e)
          | Ok (val, _) => Ok (AbaMsg senderId id kind round val)
          end
        end
      end
    end
  end.

Definition term_parseMsg (msg : bytes) (sender : UUID) : result aba_wire_err terminationMsg :=
  match ExtractIdFromMessage msg with
  | Err e => Err (WireId e)
  | Ok (id, reader) =>
    match binary_Read 1 reader with
    | Err e => Err (WireVal e)
    | Ok (decision, _) => Ok (TerminationMsg sender id decision)
    end
  end.

(** [processMsg] of the termination middleware. *)
Definition term_processMsg (msg : bytes) (sender : PublicKey) : result aba_wire_err terminationMsg :=
  match PkToUUID SerializePublicKey sender with
  | None => Err WireNoKey
  | Some senderId => term_parseMsg msg senderId
  end.
End readers.

(** ** Lemmas *)

Lemma binary_Read_Ok w r z r' :
  binary_Read w r = Ok (z, r') ↔ r = le_encode w z ++ r' ∧ 0 ≤ z < 256 ^ Z.of_nat w.
Proof.
  split; [|intros [-> Hz]; by apply binary_Read_app].
  unfold binary_Read. destruct (read_full w r) as [[b r1]|e] eqn:E; [|done]. simpl.
  intros [= <- <-]. apply read_full_spec in E as [-> <-].
  split; [by rewrite le_encode_decode|apply le_decode_range].
Qed.

Lemma le_encode_one z : le_encode 1 z = [Z_byte z].
Proof. done. Qed.

Lemma le_encode_inj w z z' :
  0 ≤ z < 256 ^ Z.of_nat w → 0 ≤ z' < 256 ^ Z.of_nat w → le_encode w z = le_encode w z' → z = z'.
Proof. intros Hz Hz' He. by rewrite <-(le_decode_encode_small w z), He, le_decode_encode_small. Qed.

(** A call of the three broadcasters that the writer can make. *)
Definition on_wire (m : abaMsg) : Prop := 0 ≤ am_round m < 2 ^ 16 ∧ 0 ≤ am_val m < 2 ^ 8.

Lemma aba_parseMsg_Ok {PublicKey : Type} (ser : PublicKey → option bytes) msg pk m :
  aba_parseMsg ser msg pk = Ok m ↔
  PkToUUID ser pk = Some (am_sender m) ∧ on_wire m ∧
  ∃ rest, msg = broadcastMsg (am_instance m) (am_kind m) (am_round m) (am_val m) ++ rest.
Proof.
  unfold aba_parseMsg, broadcastMsg, on_wire. destruct m as [s id k r v]; simpl.
  destruct (PkToUUID ser pk) as [s'|]; [|naive_solver]. split.
  - destruct (ExtractIdFromMessage msg) as [[id' r1]|e] eqn:E; [|done].
    apply ExtractIdFromMessage_Ok in E as ->.
    destruct r1 as [|k' r1]; [done|]. cbn [reader_ReadByte].
    destruct (binary_Read 2 r1) as [[r' r2]|e] eqn:E2; [|done].
    destruct (binary_Read 1 r2) as [[v' r3]|e] eqn:E3; [|done].
    intros [= -> -> -> -> ->]. apply binary_Read_Ok in E2 as [-> Hr]. apply binary_Read_Ok in E3 as [-> Hv].
    split; [done|]. split; [done|]. exists r3. rewrite le_encode_one. by rewrite <-!(assoc_L (++)).
  - intros ([= ->] & [Hr Hv] & rest & ->).
    rewrite <-!(assoc_L (++)), ExtractIdFromMessage_app. cbn [app reader_ReadByte].
    change (Z_byte r :: Z_byte (r / 256) :: Z_byte v :: rest)
      with (le_encode 2 r ++ le_encode 1 v ++ rest).
    by rewrite !binary_Read_app.
Qed.

Lemma term_parseMsg_Ok msg s m :
  term_parseMsg msg s = Ok m ↔
  tm_sender m = s ∧ 0 ≤ tm_decision m < 2 ^ 8 ∧
  ∃ rest, msg = broadcastDecision (tm_instance m) (tm_decision m) ++ rest.
Proof.
  unfold term_parseMsg, broadcastDecision. destruct m as [s' id d]; simpl. split.
  - destruct (ExtractIdFromMessage msg) as [[id' r1]|e] eqn:E; [|done].
    apply ExtractIdFromMessage_Ok in E as ->.
    destruct (binary_Read 1 r1) as [[v' r3]|e] eqn:E3; [|done].
    intros [= -> -> ->]. apply binary_Read_Ok in E3 as [-> Hv].
    split; [done|]. split; [done|]. exists r3. by rewrite <-(assoc_L (++)).
  - intros (-> & Hv & rest & ->).
    rewrite <-(assoc_L (++)), ExtractIdFromMessage_app.
    change (binary_Read 1 _) with (binary_Read 1 (le_encode 1 d ++ rest)).
    by rewrite binary_Read_app.
Qed.

(** ** Theorems *)

(** Exact parsing of agreement messages.  [parseMsg] accepts exactly the
    byte strings that start with what [broadcastMsg] writes for some instance,
    kind, round and value, and returns these and the sender's identifier; it
    fails on everything else and never panics. *)
Theorem aba_wire_exact {PublicKey : Type} (SerializePublicKey : PublicKey → option bytes)
    (msg : bytes) (pk : PublicKey) (m : abaMsg) :
  aba_parseMsg SerializePublicKey msg pk = Ok m ↔
  PkToUUID SerializePublicKey pk = Some (am_sender m) ∧ on_wire m ∧
  ∃ rest, msg = broadcastMsg (am_instance m) (am_kind m) (am_round m) (am_val m) ++ rest.
Proof. apply aba_parseMsg_Ok. Qed.

(** Exact parsing of decisions.  [processMsg] of the termination
    middleware accepts exactly the byte strings that start with what
    [broadcastDecision] writes. *)
Theorem term_wire_exact {PublicKey : Type} (SerializePublicKey : PublicKey → option bytes)
    (msg : bytes) (pk : PublicKey) (m : terminationMsg) :
  term_processMsg SerializePublicKey msg pk = Ok m ↔
  PkToUUID SerializePublicKey pk = Some (tm_sender m) ∧ 0 ≤ tm_decision m < 2 ^ 8 ∧
  ∃ rest, msg = broadcastDecision (tm_instance m) (tm_decision m) ++ rest.
Proof.
  unfold term_processMsg. destruct (PkToUUID SerializePublicKey pk) as [s|]; [|naive_solver].
  rewrite term_parseMsg_Ok. naive_solver.
Qed.

(** Every round of every instance has a coin seed of its own. *)
Theorem coin_seed_injective (id id' : UUID) (r r' : Z) :
  0 ≤ r < 2 ^ 16 → 0 ≤ r' < 2 ^ 16 → makeCoinSeed id r = makeCoinSeed id' r' → id = id' ∧ r = r'.
Proof.
  intros Hr Hr' He. unfold makeCoinSeed in He. apply app_inj_1 in He as [Hid He].
  - split; [by apply (inj uuid_bytes)|]. by apply (le_encode_inj 2).
  - by rewrite !uuid_length.
Qed.

Lemma coin_seed_injective_witness : uuid_Nil = uuid_Nil ∧ 513 = 513.
Proof. apply (coin_seed_injective uuid_Nil uuid_Nil 513 513); [lia|lia|reflexivity]. Defined.
