(* ===== verification/AbaChannel.v ===== *)
(** * [abaChannel.go] and [abaNetworkedInstance.go]: many agreements, one node

    An [AbaChannel] creates the instances on demand, routes the messages of the
    middlewares to them by their identifier, and broadcasts what they produce.
    An instance owns a [concurrentMMR]; its goroutine [listener] broadcasts and
    tosses coins, the goroutine [handleAsyncResultDelivery] of the channel
    hands its decision to the client.

    The invoker runs one command at a time, so a command is a transition of the
    channel.  A message starts a goroutine that submits it later: [pending] are
    the submissions under way.  What is given to the layers below is recorded in
    [aba_beb], [term_beb] (the bytes broadcast) and [ct_tossed] (the seeds). *)

From stdpp Require Import base tactics numbers list fin_sets gmap functions relations.
From Stdlib Require Import Init.Byte.
From S2P Require Import Prelude Utils Bca Ivbca Evbca Round Termination Mmr AbaWire.

Local Open Scope Z_scope.

(** ** Instances *)

(** [handleAsyncResultDelivery]. *)
Inductive async_pc :=
| H_decision
| H_output (d : Z)
| H_terminated
| H_command
| H_done.

Record AbaInstance := MkAbaInstance {
  ai_mmr : mmr;
  decisionChan : list Z;
  terminatedChan : list unit;
  ai_output : list Z;
  ai_listening : bool;
  ai_coins : list Z;
  ai_async : async_pc;
}.

Definition newAbaNetworkedInstance (n f : Z) : AbaInstance :=
  MkAbaInstance (newMMR n f) [] [] [] true [] H_decision.

Definition set_ai_mmr m (a : AbaInstance) : AbaInstance :=
  MkAbaInstance m (decisionChan a) (terminatedChan a) (ai_output a) (ai_listening a) (ai_coins a)
    (ai_async a).

(** The channels [deliverEcho], [deliverVote], [deliverBind] of an [mmr]. *)
Definition deliver_bag (k : bca_kind) (m : mmr) : list roundMsg :=
  match k with KEcho => deliverEcho m | KVote => deliverVote m | KBind => deliverBind m end.
Definition set_deliver_bag (k : bca_kind) (q : list roundMsg) (m : mmr) : mmr :=
  Mmr (m_n m) (m_f m)
    (match k with KEcho => q | _ => deliverEcho m end)
    (match k with KVote => q | _ => deliverVote m end)
    (match k with KBind => q | _ => deliverBind m end)
    (deliverExternallyValid m) (reachedDecision m) (deliverDecision m) (hasDecided m) (coinReq m)
    (rounds m) (termGadget m) (m_reach m).
Definition set_coinReq (q : list Z) (m : mmr) : mmr :=
  Mmr (m_n m) (m_f m) (deliverEcho m) (deliverVote m) (deliverBind m) (deliverExternallyValid m)
    (reachedDecision m) (deliverDecision m) (hasDecided m) q (rounds m) (termGadget m) (m_reach m).

(** What an instance gives to the layers below. *)
Inductive aba_effect :=
| Beb (b : bytes)
| TermBeb (b : bytes)
| Toss (seed : bytes).

(** The branches of [listener]; the number chooses among the waiting values. *)
Inductive listen_branch :=
| L_bcast (k : bca_kind) (i : nat)
| L_decision
| L_coin (i : nat).

Definition bcast_of (k : bca_kind) (id : UUID) (x : roundMsg) : bytes :=
  match k with
  | KEcho => broadcastEcho id (rnum x) (val x)
  | KVote => broadcastVote id (rnum x) (val x)
  | KBind => broadcastBind id (rnum x) (val x)
  end.

(** [outputDecision]: blocks when [decisionChan] is full. *)
Definition outputDecision (id : UUID) (d : Z) (a : AbaInstance) : outcome (AbaInstance * aba_effect) :=
  match decisionChan a with
  | [] => Done (MkAbaInstance (ai_mmr a) [d] (terminatedChan a) (ai_output a) (ai_listening a)
                  (ai_coins a) (ai_async a), TermBeb (broadcastDecision id d))
  | _ => Block
  end.

(** One iteration of [listener].  [getCoin] tosses and waits for the coin: the
    round is then among [ai_coins]. *)
Definition aba_listener (id : UUID) (br : listen_branch) (a : AbaInstance) :
    option (outcome (AbaInstance * aba_effect)) :=
  if negb (ai_listening a) then None else
  match br with
  | L_bcast k i =>
    x ← deliver_bag k (ai_mmr a) !! i;
    Some (Done (set_ai_mmr (set_deliver_bag k (delete i (deliver_bag k (ai_mmr a))) (ai_mmr a)) a,
                Beb (bcast_of k id x)))
  | L_decision =>
    match deliverDecision (ai_mmr a) with
    | d :: q =>
      Some (outputDecision id d
              (set_ai_mmr (set_decision (reachedDecision (ai_mmr a)) q (hasDecided (ai_mmr a))
                             (m_reach (ai_mmr a)) (ai_mmr a)) a))
    | [] => None
    end
  | L_coin i =>
    r ← coinReq (ai_mmr a) !! i;
    Some (Done (MkAbaInstance (set_coinReq (delete i (coinReq (ai_mmr a))) (ai_mmr a)) (decisionChan a)
                  (terminatedChan a) (ai_output a) (ai_listening a) (ai_coins a ++ [r]) (ai_async a),
                Toss (makeCoinSeed id r)))
  end.

(** The coin of the [i]-th toss arrives: [getCoin] returns it as a byte and the
    goroutine submits it. *)
Definition coin_byte (coin : bool) : Z := if coin then 1 else 0.
Definition aba_coin (i : nat) (coin : bool) (a : AbaInstance) : option (outcome AbaInstance) :=
  r ← ai_coins a !! i;
  Some ('(m, _) ← mmr_submitCoin (coin_byte coin) r (ai_mmr a);
        Done (MkAbaInstance m (decisionChan a) (terminatedChan a) (ai_output a) (ai_listening a)
                (delete i (ai_coins a)) (ai_async a))).

(** ** The channel *)

Inductive submission :=
| SubBca (k : bca_kind) (v : Z) (sender : UUID) (r : Z)
| SubDecision (d : Z) (sender : UUID).

(** [heap] are the instances ever created, one per identifier; those whose
    entry of the map [instances] is not nil are in [ch_instances]. *)
Record AbaChannel := MkAbaChannel {
  ch_n : Z;
  ch_f : Z;
  heap : gmap UUID AbaInstance;
  ch_instances : gset UUID;
  ch_finished : gset UUID;
  pending : list (UUID * submission);
  aba_beb : list bytes;
  term_beb : list bytes;
  ct_tossed : list bytes;
}.

Definition NewAbaChannel (n f : Z) : AbaChannel := MkAbaChannel n f ∅ ∅ ∅ [] [] [] [].

Definition set_heap x (c : AbaChannel) : AbaChannel :=
  MkAbaChannel (ch_n c) (ch_f c) x (ch_instances c) (ch_finished c) (pending c) (aba_beb c)
    (term_beb c) (ct_tossed c).
Definition set_pending x (c : AbaChannel) : AbaChannel :=
  MkAbaChannel (ch_n c) (ch_f c) (heap c) (ch_instances c) (ch_finished c) x (aba_beb c)
    (term_beb c) (ct_tossed c).
Definition put_instance (id : UUID) (a : AbaInstance) (c : AbaChannel) : AbaChannel :=
  set_heap (<[id := a]> (heap c)) c.

Definition do_effect (e : aba_effect) (c : AbaChannel) : AbaChannel :=
  MkAbaChannel (ch_n c) (ch_f c) (heap c) (ch_instances c) (ch_finished c) (pending c)
    (if e is Beb b then aba_beb c ++ [b] else aba_beb c)
    (if e is TermBeb b then term_beb c ++ [b] else term_beb c)
    (if e is Toss s then ct_tossed c ++ [s] else ct_tossed c).

Definition newAbaInstance (id : UUID) (c : AbaChannel) : AbaChannel :=
  MkAbaChannel (ch_n c) (ch_f c) (<[id := newAbaNetworkedInstance (ch_n c) (ch_f c)]> (heap c))
    ({[id]} ∪ ch_instances c) (ch_finished c) (pending c) (aba_beb c) (term_beb c) (ct_tossed c).

Inductive aba_chan_err := InstanceFinished | AlreadyClosed | NoInstance.

Definition getInstance (id : UUID) (c : AbaChannel) : AbaChannel * option aba_chan_err :=
  if decide (id ∈ ch_finished c) then (c, Some InstanceFinished)
  else if decide (id ∈ ch_instances c) then (c, None)
  else (newAbaInstance id c, None).

Definition processTermMsg (term : terminationMsg) (c : AbaChannel) : AbaChannel * option aba_chan_err :=
  let '(c, err) := getInstance (tm_instance term) c in
  match err with
  | Some _ => (c, err)
  | None =>
    (set_pending (pending c ++ [(tm_instance term, SubDecision (tm_decision term) (tm_sender term))]) c,
     None)
  end.

Definition kind_of (b : byte) : option bca_kind :=
  if decide (b = aba_code KEcho) then Some KEcho
  else if decide (b = aba_code KVote) then Some KVote
  else if decide (b = aba_code KBind) then Some KBind else None.

(** A message of another kind creates the instance and is dropped. *)
Definition processMiddlewareMsg (msg : abaMsg) (c : AbaChannel) : AbaChannel * option aba_chan_err :=
  let '(c, err) := getInstance (am_instance msg) c in
  match err with
  | Some _ => (c, err)
  | None =>
    match kind_of (am_kind msg) with
    | Some k =>
      (set_pending (pending c ++
         [(am_instance msg, SubBca k (am_val msg) (am_sender msg) (am_round msg))]) c, None)
    | None => (c, None)
    end
  end.

(** The goroutine of a submission. *)
Definition submit (s : submission) (a : AbaInstance) : outcome AbaInstance :=
  '(m, _) ← (match s with
             | SubBca KEcho v sender r => mmr_submitEcho v sender r (ai_mmr a)
             | SubBca KVote v sender r => mmr_submitVote v sender r (ai_mmr a)
             | SubBca KBind v sender r => mmr_submitBind v sender r (ai_mmr a)
             | SubDecision d sender => mmr_submitDecision d sender (ai_mmr a)
             end);
  Done (set_ai_mmr m a).

(** One channel operation of [handleAsyncResultDelivery]. *)
Definition handleAsyncResultDelivery (a : AbaInstance) : option AbaInstance :=
  match ai_async a with
  | H_decision =>
    match decisionChan a with
    | d :: q => Some (MkAbaInstance (ai_mmr a) q (terminatedChan a) (ai_output a) (ai_listening a)
                        (ai_coins a) (H_output d))
    | [] => None
    end
  | H_output d =>
    match ai_output a with
    | [] => Some (MkAbaInstance (ai_mmr a) (decisionChan a) (terminatedChan a) [d] (ai_listening a)
                    (ai_coins a) H_terminated)
    | _ => None
    end
  | H_terminated =>
    match terminatedChan a with
    | _ :: q => Some (MkAbaInstance (ai_mmr a) (decisionChan a) q (ai_output a) (ai_listening a)
                        (ai_coins a) H_command)
    | [] => None
    end
  | _ => None
  end.

(** [close] ends the listener; the rest of it only ends goroutines later. *)
Definition closeWrappedInstance (id : UUID) (c : AbaChannel) : AbaChannel * option aba_chan_err :=
  if decide (id ∈ ch_finished c) then (c, Some AlreadyClosed)
  else if decide (id ∈ ch_instances c) then
    (MkAbaChannel (ch_n c) (ch_f c)
       (alter (λ a, MkAbaInstance (ai_mmr a) (decisionChan a) (terminatedChan a) (ai_output a) false
                      (ai_coins a) (ai_async a)) id (heap c))
       (ch_instances c ∖ {[id]}) ({[id]} ∪ ch_finished c) (pending c) (aba_beb c) (term_beb c)
       (ct_tossed c), None)
  else (c, Some NoInstance).

(** ** Runs *)

(** The goroutines of an [mmr]. *)
Inductive mmr_inner :=
| I_go (r : Z) (g : bca_go) (br : bca_chan)
| I_listen (r : Z) (br : bca_chan + unit)
| I_exec (r : Z)
| I_external (i : nat)
| I_reach (br : bool).

Definition mmr_inner_step (e : mmr_inner) (m : mmr) : option (outcome mmr) :=
  match e with
  | I_go r g br => m ← mmr_go r g br m; Some (Done m)
  | I_listen r br => '(m, _) ← listenRequests r br m; Some (Done m)
  | I_exec r => '(m, _) ← mmr_execRound r m; Some (Done m)
  | I_external i => listenExternallyValid i m
  | I_reach br => m ← reachDecision br m; Some (Done m)
  end.

Inductive chan_event :=
| CNew (id : UUID)
| CMsg (msg : abaMsg)
| CTerm (msg : terminationMsg)
| CSubmit (i : nat)
| CPropose (id : UUID) (est : Z)
| CInner (id : UUID) (e : mmr_inner)
| CListen (id : UUID) (br : listen_branch)
| CCoin (id : UUID) (i : nat) (coin : bool)
| CAsync (id : UUID)
| CGet (id : UUID)
| CClose (id : UUID).

Definition done_some {A} (o : outcome A) : option A := match o with Done a => Some a | _ => None end.

(** [AbaInstance.Propose] and [AbaInstance.GetOutput]. *)
Definition Propose (est : Z) (a : AbaInstance) : outcome AbaInstance :=
  '(m, _) ← conc_propose est (ai_mmr a); Done (set_ai_mmr m a).
Definition GetOutput (a : AbaInstance) : option (AbaInstance * Z) :=
  match ai_output a with
  | d :: q => Some (MkAbaInstance (ai_mmr a) (decisionChan a) (terminatedChan a) q (ai_listening a)
                      (ai_coins a) (ai_async a), d)
  | [] => None
  end.

(** The channel and the decisions the clients have received. *)
Definition chan_exec (e : chan_event) (st : AbaChannel * list (UUID * Z)) :
    option (AbaChannel * list (UUID * Z)) :=
  let '(c, got) := st in
  match e with
  | CNew id => Some ((getInstance id c).1, got)
  | CMsg msg => Some ((processMiddlewareMsg msg c).1, got)
  | CTerm msg => Some ((processTermMsg msg c).1, got)
  | CSubmit i =>
    '(id, s) ← pending c !! i; a ← heap c !! id; a ← done_some (submit s a);
    Some (put_instance id a (set_pending (delete i (pending c)) c), got)
  | CPropose id est =>
    a ← heap c !! id; a ← done_some (Propose est a); Some (put_instance id a c, got)
  | CInner id e =>
    a ← heap c !! id; o ← mmr_inner_step e (ai_mmr a); m ← done_some o;
    Some (put_instance id (set_ai_mmr m a) c, got)
  | CListen id br =>
    a ← heap c !! id; o ← aba_listener id br a; '(a, eff) ← done_some o;
    Some (do_effect eff (put_instance id a c), got)
  | CCoin id i coin =>
    a ← heap c !! id; o ← aba_coin i coin a; a ← done_some o; Some (put_instance id a c, got)
  | CAsync id =>
    a ← heap c !! id; a ← handleAsyncResultDelivery a; Some (put_instance id a c, got)
  | CGet id =>
    a ← heap c !! id; '(a, d) ← GetOutput a; Some (put_instance id a c, got ++ [(id, d)])
  | CClose id =>
    a ← heap c !! id;
    match ai_async a with
    | H_command =>
      let c := put_instance id (MkAbaInstance (ai_mmr a) (decisionChan a) (terminatedChan a)
                 (ai_output a) (ai_listening a) (ai_coins a) H_done) c in
      Some ((closeWrappedInstance id c).1, got)
    | _ => None
    end
  end.

Definition chan_step (st st' : AbaChannel * list (UUID * Z)) : Prop := ∃ e, chan_exec e st = Some st'.
Definition chan_reachable (n f : Z) (st : AbaChannel * list (UUID * Z)) : Prop :=
  rtc chan_step (NewAbaChannel n f, []) st.

(** ** What an [mmr] operation leaves alone *)

Definition same_delivery (m m' : mmr) : Prop :=
  m_reach m' = m_reach m ∧ deliverDecision m' = deliverDecision m.

Lemma on_round_delivery r op m m' err : on_round r op m = Done (m', err) → same_delivery m m'.
Proof.
  unfold on_round, getRound. destruct (rounds m !! r) as [round|]; intros H.
  - destruct (round_call op round) as [[rd e]| |]; try done. by injection H as <- <-.
  - destruct (round_call op (mmr_newRound m)) as [[rd e]| |]; try done. by injection H as <- <-.
Qed.

Lemma submitCoin_delivery coin r m m' err :
  mmr_submitCoin coin r m = Done (m', err) → same_delivery m m'.
Proof.
  unfold mmr_submitCoin. intros H. destruct (getRound r m) as [m1 round] eqn:Hg.
  assert (same_delivery m m1) as Hs.
  { unfold getRound in Hg. by destruct (rounds m !! r); injection Hg as <- <-. }
  destruct (round_submitCoin coin round) as [[rd res]| |]; try done. cbn [mbind outcome_bind] in H.
  destruct res as [t|e]; [|by injection H as <- <-].
  destruct (decided t && _).
  - destruct (reachedDecision _); [|done]. by injection H as <- <-.
  - apply on_round_delivery in H as [H1 H2]. destruct Hs as [H3 H4]. split; simpl in *; congruence.
Qed.

Lemma submitDecision_delivery d s m m' err :
  mmr_submitDecision d s m = Done (m', err) → same_delivery m m'.
Proof.
  unfold mmr_submitDecision. destruct (term_submitDecision d s (termGadget m)) as [[t e]| |]; try done.
  by intros [= <- <-].
Qed.

Lemma submit_delivery s a a' : submit s a = Done a' → ∃ m, a' = set_ai_mmr m a ∧ same_delivery (ai_mmr a) m.
Proof.
  unfold submit. intros H.
  destruct s as [[| |] v sender r|d sender];
    match type of H with mbind _ ?o = _ => destruct o as [[m e]| |] eqn:Hop; try done end;
    injection H as <-; exists m; split; [done|by eapply on_round_delivery|done|by eapply on_round_delivery
      |done|by eapply on_round_delivery|done|by eapply submitDecision_delivery].
Qed.

Lemma Propose_delivery est a a' : Propose est a = Done a' → ∃ m, a' = set_ai_mmr m a ∧ same_delivery (ai_mmr a) m.
Proof.
  unfold Propose, conc_propose, mmr_propose. intros H.
  match type of H with mbind _ ?o = _ => destruct o as [[m e]| |] eqn:Hop; try done end.
  injection H as <-. exists m. split; [done|]. by eapply on_round_delivery.
Qed.

Lemma inner_delivery e m o m' :
  mmr_inner_step e m = Some o → o = Done m' →
  same_delivery m m' ∨
  (∃ d, m_reach m ≠ R_done ∧ m_reach m' = R_send d ∧ deliverDecision m' = deliverDecision m) ∨
  (∃ d, m_reach m ≠ R_done ∧ m_reach m' = R_done ∧ deliverDecision m = [] ∧ deliverDecision m' = [d]).
Proof.
  intros Hs ->. destruct e as [r g br|r br|r|i|br]; simpl in Hs.
  - apply bind_Some in Hs as (m1 & Hs & [= ->]). unfold mmr_go in Hs.
    apply bind_Some in Hs as (rd & _ & Hs). apply bind_Some in Hs as ([rd' u] & _ & [= <-]). by left.
  - apply bind_Some in Hs as ([m1 v] & Hs & [= ->]). unfold listenRequests in Hs.
    apply bind_Some in Hs as (rd & _ & Hs). destruct br as [ch|u].
    + case_decide; [|done]. apply bind_Some in Hs as ([rd' x] & _ & [= <- _]). by left.
    + destruct (coinReqChan rd); [done|]. injection Hs as <- _. by left.
  - apply bind_Some in Hs as ([m1 v] & Hs & [= ->]). unfold mmr_execRound in Hs.
    apply bind_Some in Hs as (rd & _ & Hs). apply bind_Some in Hs as ([rd' x] & _ & [= <- _]). by left.
  - unfold listenExternallyValid in Hs. apply bind_Some in Hs as (x & _ & Hs). injection Hs as Hs.
    unfold mmr_submitExternallyValid in Hs.
    match type of Hs with mbind _ ?o = _ => destruct o as [[m1 u]| |] eqn:Hop; try done end.
    injection Hs as <-. left. by apply on_round_delivery in Hop.
  - apply bind_Some in Hs as (m1 & Hs & [= ->]). unfold reachDecision in Hs. right.
    destruct (m_reach m) as [|d|] eqn:Hr; [| |done].
    + left. destruct br; [destruct (reachedDecision m) as [|d q]; [done|]|
        apply bind_Some in Hs as ([d t] & _ & Hs)]; injection Hs as <-; by exists d.
    + right. exists d. destruct (deliverDecision m); [|done]. by injection Hs as <-.
Qed.

(** ** Invariant *)

Definition got_of (id : UUID) (got : list (UUID * Z)) : list Z := (filter (λ p, p.1 = id) got).*2.

(** The decision of an instance, once it has left the [mmr]. *)
Definition announced_by (id : UUID) (a : AbaInstance) (got : list (UUID * Z)) : list Z :=
  decisionChan a ++ (if ai_async a is H_output d then [d] else []) ++ ai_output a ++ got_of id got.

Record inst_inv (tb : list bytes) (got : list (UUID * Z)) (id : UUID) (a : AbaInstance) : Prop := {
  ii_count : length (deliverDecision (ai_mmr a) ++ announced_by id a got) =
             (if m_reach (ai_mmr a) is R_done then 1 else 0)%nat;
  ii_sent d : d ∈ announced_by id a got → broadcastDecision id d ∈ tb;
  ii_open : terminatedChan a = [] ∧ ai_listening a = true ∧
            match ai_async a with H_command | H_done => False | _ => True end;
}.

Record chan_inv (c : AbaChannel) (got : list (UUID * Z)) : Prop := {
  ci_finished : ch_finished c = ∅;
  ci_heap id : id ∈ ch_instances c ↔ is_Some (heap c !! id);
  ci_got id d : (id, d) ∈ got → id ∈ ch_instances c;
  ci_inst id a : heap c !! id = Some a → inst_inv (term_beb c) got id a;
}.

Lemma put_inv c got id a a' :
  chan_inv c got → heap c !! id = Some a → inst_inv (term_beb c) got id a' →
  chan_inv (put_instance id a' c) got.
Proof.
  intros [] Ha Hi. split; simpl; try done.
  - intros id'. rewrite ci_heap0. destruct (decide (id = id')) as [<-|].
    + rewrite lookup_insert_eq. split; [by eexists|intros; by eexists].
    + by rewrite lookup_insert_ne.
  - intros id' a1 [[<- <-]|[_ ?]]%lookup_insert_Some; [done|auto].
Qed.

Lemma inst_same tb got id a m :
  inst_inv tb got id a → same_delivery (ai_mmr a) m → inst_inv tb got id (set_ai_mmr m a).
Proof.
  intros [] [Hr Hd]. split; [|done|done]. simpl. rewrite Hr, Hd.
  unfold announced_by in *. done.
Qed.

Lemma getInstance_inv id c got :
  chan_inv c got → chan_inv (getInstance id c).1 got ∧
  ((getInstance id c).2 = None → id ∈ ch_instances (getInstance id c).1).
Proof.
  intros Hi. unfold getInstance. destruct (decide (id ∈ ch_finished c)); [done|].
  destruct (decide (id ∈ ch_instances c)) as [|Hn]; [done|]. simpl. split; [|set_solver].
  assert (Hg : got_of id got = []).
  { unfold got_of. destruct (filter (λ p, p.1 = id) got) as [|[id' d] l] eqn:E; [done|].
    assert ((id', d) ∈ filter (λ p, p.1 = id) got) as Hin by (rewrite E; by left).
    apply list_elem_of_filter in Hin as [Heq Hin]. simpl in Heq. subst id'.
    by apply (ci_got _ _ Hi) in Hin. }
  destruct Hi. split; simpl; try done.
  - intros id'. rewrite elem_of_union, elem_of_singleton, ci_heap0.
    destruct (decide (id = id')) as [<-|].
    + rewrite lookup_insert_eq. split; [by eexists|by left].
    + rewrite lookup_insert_ne by done. set_solver.
  - intros id' d Hd. apply elem_of_union_r. by eapply ci_got0.
  - intros id' a1 [[<- <-]|[_ ?]]%lookup_insert_Some; [|auto].
    split; [|intros d|by split_and!]; unfold announced_by; simpl; rewrite Hg; [done|].
    intros Hd. by apply not_elem_of_nil in Hd.
Qed.

Lemma set_pending_inv x c got : chan_inv c got → chan_inv (set_pending x c) got.
Proof. by intros []. Qed.

Lemma do_effect_inv e c got : chan_inv c got → chan_inv (do_effect e c) got.
Proof.
  intros []. split; simpl; try done. intros id a Ha. destruct (ci_inst0 id a Ha). split; [done| |done].
  intros d Hd. specialize (ii_sent0 d Hd). destruct e; [done|apply elem_of_app; by left|done].
Qed.

(** Moving the decision. *)
Lemma inst_move tb tb' got got' id a a' :
  inst_inv tb got id a → m_reach (ai_mmr a') = m_reach (ai_mmr a) →
  length (deliverDecision (ai_mmr a') ++ announced_by id a' got') =
    length (deliverDecision (ai_mmr a) ++ announced_by id a got) →
  (∀ d, d ∈ announced_by id a' got' → d ∈ announced_by id a got ∨ broadcastDecision id d ∈ tb') →
  (∀ b, b ∈ tb → b ∈ tb') →
  terminatedChan a' = [] ∧ ai_listening a' = true ∧
    match ai_async a' with H_command | H_done => False | _ => True end →
  inst_inv tb' got' id a'.
Proof.
  intros [] Hr Hl Hd Ht Ho. split; [by rewrite Hl, Hr| |done].
  intros d [?|?]%Hd; [apply Ht; auto|done].
Qed.

Lemma got_of_snoc id id' d got :
  got_of id (got ++ [(id', d)]) = got_of id got ++ (if decide (id' = id) then [d] else []).
Proof.
  unfold got_of. rewrite list.filter_app, fmap_app, filter_cons, filter_nil. simpl.
  by destruct (decide (id' = id)).
Qed.

Lemma inst_eq tb got id a a' :
  inst_inv tb got id a → same_delivery (ai_mmr a) (ai_mmr a') →
  decisionChan a' = decisionChan a → terminatedChan a' = terminatedChan a → ai_output a' = ai_output a →
  ai_listening a' = ai_listening a → ai_async a' = ai_async a → inst_inv tb got id a'.
Proof.
  intros [] [Hr Hd] H1 H2 H3 H4 H5. unfold announced_by in *.
  split; unfold announced_by; rewrite ?Hr, ?Hd, ?H1, ?H2, ?H3, ?H4, ?H5; done.
Qed.

Lemma listener_inv c got id a br a' eff :
  chan_inv c got → heap c !! id = Some a → aba_listener id br a = Some (Done (a', eff)) →
  chan_inv (do_effect eff (put_instance id a' c)) got.
Proof.
  intros Hc Ha Hl. pose proof (ci_inst _ _ Hc id a Ha) as Hi. unfold aba_listener in Hl.
  destruct (negb (ai_listening a)); [done|]. destruct br as [k i| |i].
  - apply bind_Some in Hl as (x & _ & [= <- <-]). apply do_effect_inv. apply (put_inv c got id a); [done|done|].
    by apply (inst_eq _ _ _ a).
  - destruct (deliverDecision (ai_mmr a)) as [|d q] eqn:Hd; [done|]. injection Hl as Hl.
    unfold outputDecision in Hl. simpl in Hl. destruct (decisionChan a) eqn:Hdc; [|done].
    injection Hl as <- <-.
    assert (Hall : ∀ id' a1, heap c !! id' = Some a1 →
      inst_inv (term_beb c ++ [broadcastDecision id d]) got id' a1).
    { intros id' a1 Ha1. destruct (ci_inst _ _ Hc id' a1 Ha1). split; [done| |done].
      intros d' Hd'. apply elem_of_app. left. auto. }
    pose proof (Hall id a Ha) as Hi'. destruct Hc. split; simpl; try done.
    + intros id'. rewrite ci_heap0. destruct (decide (id = id')) as [<-|].
      * rewrite lookup_insert_eq. split; [by eexists|intros; by eexists].
      * by rewrite lookup_insert_ne.
    + intros id' a1 [[<- <-]|[_ ?]]%lookup_insert_Some; [|auto].
      eapply (inst_move _ _ got got id a); [exact Hi'|done| | |done|by destruct Hi as [_ _ [? ?]]].
      * rewrite Hd. unfold announced_by. simpl. rewrite Hdc. simpl. rewrite ?length_app. simpl. rewrite ?length_app. lia.
      * unfold announced_by. simpl. rewrite Hdc. intros d' [->|?]%elem_of_cons; [right|by left].
        apply elem_of_app. right. by left.
  - apply bind_Some in Hl as (r & _ & [= <- <-]). apply do_effect_inv. apply (put_inv c got id a); [done|done|].
    by apply (inst_eq _ _ _ a).
Qed.

Lemma async_inv c got id a a' :
  chan_inv c got → heap c !! id = Some a → handleAsyncResultDelivery a = Some a' →
  chan_inv (put_instance id a' c) got.
Proof.
  intros Hc Ha Hs. pose proof (ci_inst _ _ Hc id a Ha) as Hi. apply (put_inv c got id a); [done|done|].
  unfold handleAsyncResultDelivery in Hs. pose proof (ii_open _ _ _ _ Hi) as (Ht & Hl & _).
  destruct (ai_async a) eqn:Hp; [| | |done|done].
  - destruct (decisionChan a) as [|d q] eqn:Hd; [done|]. injection Hs as <-.
    apply (inst_move _ _ got got id a _ Hi); simpl; try done.
    + unfold announced_by. simpl. rewrite Hd, Hp, !length_app. simpl. rewrite ?length_app. simpl. lia.
    + unfold announced_by. simpl. rewrite Hd, Hp. intros d'. rewrite !elem_of_app, !elem_of_cons. set_solver.
  - destruct (ai_output a) eqn:Ho; [|done]. injection Hs as <-.
    apply (inst_move _ _ got got id a _ Hi); simpl; try done.
    + unfold announced_by. simpl. rewrite Ho, Hp, ?length_app. simpl. rewrite ?length_app. lia.
    + unfold announced_by. simpl. rewrite Ho, Hp. intros d'. rewrite !elem_of_app, !elem_of_cons. set_solver.
  - by rewrite Ht in Hs.
Qed.

Lemma get_inv c got id a a' d :
  chan_inv c got → heap c !! id = Some a → GetOutput a = Some (a', d) →
  chan_inv (put_instance id a' c) (got ++ [(id, d)]).
Proof.
  intros Hc Ha Hg. pose proof (ci_inst _ _ Hc id a Ha) as Hi. unfold GetOutput in Hg.
  destruct (ai_output a) as [|d' q] eqn:Ho; [done|]. injection Hg as <- ->.
  assert (Hmove : inst_inv (term_beb c) (got ++ [(id, d)]) id
    (MkAbaInstance (ai_mmr a) (decisionChan a) (terminatedChan a) q (ai_listening a) (ai_coins a) (ai_async a))).
  { apply (inst_move _ _ got _ id a _ Hi); simpl; try done; [| |by destruct Hi].
    - unfold announced_by. simpl. rewrite got_of_snoc, decide_True, Ho by done.
      rewrite ?length_app. simpl. rewrite ?length_app. simpl. lia.
    - unfold announced_by. simpl. rewrite got_of_snoc, decide_True, Ho by done. intros d1.
      rewrite !elem_of_app, !elem_of_cons. set_solver. }
  destruct Hc. split; simpl; try done.
  - intros id'. rewrite ci_heap0. destruct (decide (id = id')) as [<-|].
    + rewrite lookup_insert_eq. split; [by eexists|intros; by eexists].
    + by rewrite lookup_insert_ne.
  - intros id' d1 [?|[= -> ->]%list_elem_of_singleton]%elem_of_app; [by eapply ci_got0|].
    apply ci_heap0. by eexists.
  - intros id' a1 [[<- <-]|[Hne Ha1]]%lookup_insert_Some; [done|].
    destruct (ci_inst0 id' a1 Ha1). unfold announced_by in *.
    split; unfold announced_by; rewrite ?got_of_snoc, ?decide_False, ?app_nil_r by done; done.
Qed.

Lemma done_some_inv {A} (o : outcome A) a : done_some o = Some a → o = Done a.
Proof. by destruct o; simpl; [intros [= ->]|..]. Qed.

Lemma inner_inv c got id a e o m :
  chan_inv c got → heap c !! id = Some a → mmr_inner_step e (ai_mmr a) = Some o → o = Done m →
  chan_inv (put_instance id (set_ai_mmr m a) c) got.
Proof.
  intros Hc Ha Hs Ho. pose proof (ci_inst _ _ Hc id a Ha) as Hi. apply (put_inv c got id a); [done|done|].
  destruct (inner_delivery e (ai_mmr a) o m Hs Ho) as [?|[(d & Hr & Hr' & Hd)|(d & Hr & Hr' & Hd & Hd')]].
  - by apply inst_same.
  - destruct Hi. split; [|done|done]. simpl. rewrite Hr', Hd. change (announced_by id (set_ai_mmr m a) got)
      with (announced_by id a got). rewrite ii_count0. by destruct (m_reach (ai_mmr a)).
  - destruct Hi. split; [|done|done]. simpl. rewrite Hr', Hd'. change (announced_by id (set_ai_mmr m a) got)
      with (announced_by id a got). rewrite Hd in ii_count0. simpl in *. rewrite ii_count0.
    by destruct (m_reach (ai_mmr a)).
Qed.

Lemma chan_exec_inv e c got c' got' :
  chan_inv c got → chan_exec e (c, got) = Some (c', got') → chan_inv c' got'.
Proof.
  intros Hc Hex. destruct e as [id|msg|msg|i|id est|id e|id br|id i coin|id|id|id]; simpl in Hex.
  - injection Hex as <- <-. by apply getInstance_inv.
  - injection Hex as <- <-. unfold processMiddlewareMsg.
    destruct (getInstance_inv (am_instance msg) c got Hc) as [Hg _].
    destruct (getInstance (am_instance msg) c) as [c1 [err|]]; [done|].
    destruct (kind_of _); [by apply set_pending_inv|done].
  - injection Hex as <- <-. unfold processTermMsg.
    destruct (getInstance_inv (tm_instance msg) c got Hc) as [Hg _].
    destruct (getInstance (tm_instance msg) c) as [c1 [err|]]; [done|by apply set_pending_inv].
  - apply bind_Some in Hex as ([id s] & _ & Hex). apply bind_Some in Hex as (a & Ha & Hex).
    apply bind_Some in Hex as (a' & Hs%done_some_inv & [= <- <-]).
    apply submit_delivery in Hs as (m & -> & Hsame).
    apply (put_inv _ got id a); [by apply set_pending_inv|done|].
    apply inst_same; [|done]. by apply (ci_inst c got Hc).
  - apply bind_Some in Hex as (a & Ha & Hex). apply bind_Some in Hex as (a' & Hs%done_some_inv & [= <- <-]).
    apply Propose_delivery in Hs as (m & -> & Hsame). apply (put_inv c got id a); [done|done|].
    apply inst_same; [|done]. by apply (ci_inst c got Hc).
  - apply bind_Some in Hex as (a & Ha & Hex). apply bind_Some in Hex as (o & Ho & Hex).
    apply bind_Some in Hex as (m & Hm%done_some_inv & [= <- <-]). by eapply inner_inv.
  - apply bind_Some in Hex as (a & Ha & Hex). apply bind_Some in Hex as (o & Ho & Hex).
    apply bind_Some in Hex as ([a' eff] & ->%done_some_inv & [= <- <-]). by eapply listener_inv.
  - apply bind_Some in Hex as (a & Ha & Hex). apply bind_Some in Hex as (o & Ho & Hex).
    apply bind_Some in Hex as (a' & ->%done_some_inv & [= <- <-]). unfold aba_coin in Ho.
    apply bind_Some in Ho as (r & _ & Ho). injection Ho as Ho.
    destruct (mmr_submitCoin _ _ _) as [[m err]| |] eqn:Hm; try done. injection Ho as <-.
    apply (put_inv c got id a); [done|done|]. apply submitCoin_delivery in Hm.
    apply (inst_eq _ _ _ a); try done. by apply (ci_inst c got Hc).
  - apply bind_Some in Hex as (a & Ha & Hex). apply bind_Some in Hex as (a' & Hs & [= <- <-]).
    by eapply async_inv.
  - apply bind_Some in Hex as (a & Ha & Hex). apply bind_Some in Hex as ([a' d] & Hs & [= <- <-]).
    by eapply get_inv.
  - apply bind_Some in Hex as (a & Ha & Hex).
    pose proof (ii_open _ _ _ _ (ci_inst _ _ Hc id a Ha)) as (_ & _ & Hp). by destruct (ai_async a).
Qed.

Lemma chan_inv_init n f : chan_inv (NewAbaChannel n f) [].
Proof.
  split; simpl; [done| | |done].
  - intros id. rewrite lookup_empty. split; [set_solver|by intros [? ?]].
  - intros id d Hd. by apply not_elem_of_nil in Hd.
Qed.

Lemma chan_reachable_inv n f c got : chan_reachable n f (c, got) → chan_inv c got.
Proof.
  intros Hr. cut (chan_inv (c, got).1 (c, got).2); [done|]. revert Hr. generalize (c, got).
  apply (rtc_ind_r (R := chan_step) (λ st, chan_inv st.1 st.2)); [apply chan_inv_init|].
  intros [c1 got1] [c2 got2] _ [e He] Hi. by eapply chan_exec_inv.
Qed.

(** ** Theorems *)

(** A client receives one decision of an instance, which has been announced. *)
Lemma got_sent c got id d :
  chan_inv c got → (id, d) ∈ got → got_of id got = [d] ∧ broadcastDecision id d ∈ term_beb c.
Proof.
  intros Hc Hd. pose proof (ci_got _ _ Hc id d Hd) as Hin. apply (ci_heap _ _ Hc) in Hin as [a Ha].
  pose proof (ci_inst _ _ Hc id a Ha) as [Hcount Hsent _].
  assert (Hg : d ∈ got_of id got).
  { unfold got_of. apply list_elem_of_fmap. exists (id, d). split; [done|]. by apply list_elem_of_filter. }
  split; [|apply Hsent; unfold announced_by; rewrite !elem_of_app; auto].
  unfold announced_by in Hcount. rewrite !length_app in Hcount.
  destruct (got_of id got) as [|d1 [|d2 l]]; [by apply not_elem_of_nil in Hg| |].
  - by apply list_elem_of_singleton in Hg as ->.
  - simpl in Hcount. destruct (m_reach (ai_mmr a)); simpl in Hcount; lia.
Qed.

Module AbaChannelExample.
Import Example4.

Fixpoint chan_run (l : list chan_event) (st : AbaChannel * list (UUID * Z)) :
    option (AbaChannel * list (UUID * Z)) :=
  match l with
  | [] => Some st
  | e :: l => st ← chan_exec e st; chan_run l st
  end.

Lemma chan_run_sound l st st' : chan_run l st = Some st' → rtc chan_step st st'.
Proof.
  revert st. induction l as [|e l IH]; intros st; simpl; [intros [= <-]; constructor|].
  intros (st1 & He & Hr)%bind_Some. eapply rtc_l; [by exists e|by apply IH].
Qed.

(** [f + 1] processes announce 1 to an instance nobody has opened. *)
Definition chan_events : list chan_event :=
  [CTerm (TerminationMsg p1 p4 1); CTerm (TerminationMsg p2 p4 1); CNew p3; CSubmit 1; CSubmit 0;
   CInner p4 (I_reach false); CInner p4 (I_reach false); CListen p4 L_decision;
   CAsync p4; CAsync p4; CGet p4].
Definition chan_end : AbaChannel * list (UUID * Z) :=
  default (NewAbaChannel 4 1, []) (chan_run chan_events (NewAbaChannel 4 1, [])).

Lemma chan_end_reachable : chan_reachable 4 1 (chan_end.1, chan_end.2).
Proof.
  rewrite <-surjective_pairing. unfold chan_end.
  destruct (chan_run chan_events (NewAbaChannel 4 1, [])) as [st|] eqn:E; [|constructor].
  by apply chan_run_sound in E.
Qed.
Lemma chan_end_got : (p4, 1) ∈ chan_end.2.
Proof. assert (chan_end.2 = [(p4, 1)]) as ->; [vm_compute; reflexivity|by left]. Qed.
End AbaChannelExample.
Import Example4 AbaChannelExample.

(** One decision per instance.  The client of an instance receives at most
    one value, and by then the decision has been broadcast to the others, under
    the instance's identifier. *)
Theorem aba_instance_outputs_once n f (c : AbaChannel) got id d :
  chan_reachable n f (c, got) → (id, d) ∈ got →
  got_of id got = [d] ∧ broadcastDecision id d ∈ term_beb c.
Proof.
  intros Hr Hd. pose proof (chan_reachable_inv n f c got Hr) as Hc. by apply got_sent.
Qed.

Lemma aba_instance_outputs_once_witness :
  got_of p4 chan_end.2 = [1] ∧ broadcastDecision p4 1 ∈ term_beb chan_end.1.
Proof.
  exact (aba_instance_outputs_once 4 1 chan_end.1 chan_end.2 p4 1 chan_end_reachable chan_end_got).
Defined.

(** No instance is ever closed.  Nothing sends on [terminatedChan] (the
    signal of the termination gadget, [notifyTermination], is not connected to
    it), so [handleAsyncResultDelivery] stays at its receive, no entry of
    [finished] is ever set, and every instance and its listener live for ever. *)
Theorem aba_channel_never_closes n f (c : AbaChannel) got :
  chan_reachable n f (c, got) →
  ch_finished c = ∅ ∧
  ∀ id a, heap c !! id = Some a → id ∈ ch_instances c ∧ ai_listening a = true ∧ terminatedChan a = [].
Proof.
  intros Hr. pose proof (chan_reachable_inv n f c got Hr) as Hc. split; [by apply (ci_finished _ _ Hc)|].
  intros id a Ha. pose proof (ii_open _ _ _ _ (ci_inst _ _ Hc id a Ha)) as (Ht & Hl & _).
  split; [|done]. apply (ci_heap _ _ Hc). by exists a.
Qed.

Lemma aba_channel_never_closes_witness : ch_finished chan_end.1 = ∅.
Proof. apply (aba_channel_never_closes 4 1 chan_end.1 chan_end.2 chan_end_reachable). Defined.

(** Routing.  What a process broadcasts for instance [id], kind [k], round
    [r] and value [v] is, at every receiver, submitted to the instance [id]
    (created if it is not there) as a message of that kind, round and value from
    that sender, and nothing else is submitted. *)
Theorem aba_message_routed {PublicKey : Type} (SerializePublicKey : PublicKey → option bytes)
    (pk : PublicKey) sender n f (c : AbaChannel) got id k r v :
  chan_reachable n f (c, got) → PkToUUID SerializePublicKey pk = Some sender →
  0 ≤ r < 2 ^ 16 → 0 ≤ v < 2 ^ 8 →
  ∃ m c', aba_parseMsg SerializePublicKey (bcast_of k id (RoundMsg v r)) pk = Ok m ∧
    processMiddlewareMsg m c = (c', None) ∧ is_Some (heap c' !! id) ∧
    pending c' = pending c ++ [(id, SubBca k v sender r)] ∧
    (∀ id', id' ≠ id → heap c' !! id' = heap c !! id') ∧
    (id ∈ ch_instances c → heap c' = heap c).
Proof.
  intros Hr Hpk Hrr Hv. pose proof (chan_reachable_inv n f c got Hr) as Hc.
  exists (AbaMsg sender id (aba_code k) r v).
  assert (Hproc : processMiddlewareMsg (AbaMsg sender id (aba_code k) r v) c =
    (set_pending (pending c ++ [(id, SubBca k v sender r)]) (getInstance id c).1, None)).
  { unfold processMiddlewareMsg. cbn [am_instance am_kind am_val am_sender am_round]. unfold getInstance.
    rewrite decide_False by (rewrite (ci_finished _ _ Hc); set_solver).
    destruct (decide (id ∈ ch_instances c)); by destruct k. }
  exists (set_pending (pending c ++ [(id, SubBca k v sender r)]) (getInstance id c).1).
  split.
  { apply aba_parseMsg_Ok. split; [done|]. split; [done|]. exists []. rewrite app_nil_r. by destruct k. }
  split; [done|]. destruct (getInstance_inv id c got Hc) as [Hg Hin]. simpl.
  split; [apply (ci_heap _ _ Hg), Hin|split; [done|]]; unfold getInstance;
    rewrite decide_False by (rewrite (ci_finished _ _ Hc); set_solver);
    destruct (decide (id ∈ ch_instances c)); simpl; try done.
  split; [|done]. intros id' Hne. by rewrite lookup_insert_ne.
Qed.

Lemma aba_message_routed_witness :
  ∃ m c', aba_parseMsg (λ b : bytes, Some b) (bcast_of KVote p3 (RoundMsg 1 258)) [] = Ok m ∧
    processMiddlewareMsg m chan_end.1 = (c', None) ∧ is_Some (heap c' !! p3) ∧
    pending c' = pending chan_end.1 ++ [(p3, SubBca KVote 1 (BytesToUUID []) 258)] ∧
    (∀ id', id' ≠ p3 → heap c' !! id' = heap chan_end.1 !! id') ∧
    (p3 ∈ ch_instances chan_end.1 → heap c' = heap chan_end.1).
Proof.
  apply (aba_message_routed (λ b : bytes, Some b) [] (BytesToUUID []) 4 1 chan_end.1 chan_end.2 p3 KVote 258 1
    chan_end_reachable); [reflexivity|lia|lia].
Defined.
