(* ===== verification/AbaProject.v ===== *)
(** * An instance of an [AbaChannel] is a process of the agreement network

    The instances of [AbaChannel] hand what their rounds produce to the
    middlewares; the processes of [AbaNetwork] keep it in their logs.  An instance
    is related to a process that has the same rounds, gadget and decisions, and
    whose logs hold everything the instance has waiting or has handed on.  Every
    step of an instance is then a step of the process, or none. *)

From stdpp Require Import base tactics numbers list fin_sets gmap functions relations.
From Stdlib Require Import Init.Byte.
From S2P Require Import Prelude Utils Bca BcaNet Ivbca Evbca Round Termination Mmr AbaNetwork AbaWire AbaChannel.

Local Open Scope Z_scope.

(** ** The values waiting for the owner play no part in an [mmr] *)

Record bags := Bags { bg_echo : list roundMsg; bg_vote : list roundMsg; bg_bind : list roundMsg; bg_coin : list Z }.

Definition with_bags (b : bags) (m : mmr) : mmr :=
  Mmr (m_n m) (m_f m) (bg_echo b) (bg_vote b) (bg_bind b) (deliverExternallyValid m) (reachedDecision m)
    (deliverDecision m) (hasDecided m) (bg_coin b) (rounds m) (termGadget m) (m_reach m).

Definition bags_of (m : mmr) : bags := Bags (deliverEcho m) (deliverVote m) (deliverBind m) (coinReq m).

Lemma with_bags_of m : with_bags (bags_of m) m = m.
Proof. by destruct m. Qed.
Lemma with_bags_twice b b' m : with_bags b (with_bags b' m) = with_bags b m.
Proof. done. Qed.

Lemma on_round_bags b r op m m' err :
  on_round r op m = Done (m', err) → on_round r op (with_bags b m) = Done (with_bags b m', err).
Proof.
  unfold on_round, getRound. simpl. destruct (rounds m !! r) as [rd|].
  - destruct (round_call op rd) as [[rd' e]| |]; [|done..]. by intros [= <- <-].
  - change (mmr_newRound (with_bags b m)) with (mmr_newRound m).
    destruct (round_call op (mmr_newRound m)) as [[rd' e]| |]; [|done..]. by intros [= <- <-].
Qed.

Lemma submitCoin_bags b c r m m' err :
  mmr_submitCoin c r m = Done (m', err) → mmr_submitCoin c r (with_bags b m) = Done (with_bags b m', err).
Proof.
  unfold mmr_submitCoin. assert (Hg : getRound r (with_bags b m) = (with_bags b (getRound r m).1, (getRound r m).2)).
  { unfold getRound. simpl. by destruct (rounds m !! r). }
  rewrite Hg. destruct (getRound r m) as [m1 rd]. simpl.
  destruct (round_submitCoin c rd) as [[rd' res]| |]; [|done..]. simpl. destruct res as [t|e]; [|by intros [= <- <-]].
  destruct (decided t && _).
  - destruct (reachedDecision m1); [|done]. by intros [= <- <-].
  - intros Hp. by apply (on_round_bags b) in Hp.
Qed.

Lemma external_bags b i m m' :
  listenExternallyValid i m = Some (Done m') →
  listenExternallyValid i (with_bags b m) = Some (Done (with_bags b m')).
Proof.
  unfold listenExternallyValid. simpl. destruct (deliverExternallyValid m !! i) as [x|]; [|done]. simpl.
  intros [= Hx]. f_equal. unfold mmr_submitExternallyValid in *.
  destruct (on_round _ _ (set_external _ m)) as [[m1 e]| |] eqn:Hon; [|done..]. injection Hx as <-.
  apply (on_round_bags b) in Hon. change (set_external ?x (with_bags b m)) with (with_bags b (set_external x m)).
  by rewrite Hon.
Qed.

Lemma go_bags b r g br m m' : mmr_go r g br m = Some m' → mmr_go r g br (with_bags b m) = Some (with_bags b m').
Proof.
  unfold mmr_go. simpl. destruct (rounds m !! r) as [rd|]; [|done]. simpl.
  destruct (round_try _ rd) as [[rd' []]|]; [|done]. by intros [= <-].
Qed.

Lemma execRound_bags b r m m' d :
  mmr_execRound r m = Some (m', d) → mmr_execRound r (with_bags b m) = Some (with_bags b m', d).
Proof.
  unfold mmr_execRound. simpl. destruct (rounds m !! r) as [rd|]; [|done]. simpl.
  destruct (execRound rd) as [[rd' d']|]; [|done]. by intros [= <- <-].
Qed.

Lemma reach_bags b br m m' : reachDecision br m = Some m' → reachDecision br (with_bags b m) = Some (with_bags b m').
Proof.
  unfold reachDecision. simpl. destruct (m_reach m); [destruct br|..]; try done.
  - destruct (reachedDecision m); [done|]. by intros [= <-].
  - destruct (term_take (termGadget m)) as [[d t]|]; [|done]. by intros [= <-].
  - destruct (deliverDecision m); [|done]. by intros [= <-].
Qed.

(** [listenRequests] puts a value, or a request, in one of the bags. *)
Lemma listen_bags b r br m m' v :
  listenRequests r br m = Some (m', v) →
  ∃ b', listenRequests r br (with_bags b m) = Some (with_bags b' m', v).
Proof.
  unfold listenRequests. simpl. destruct (rounds m !! r) as [rd|]; [|done]. simpl. destruct br as [c|u].
  - case_decide; [|done]. destruct (round_try _ rd) as [[rd' x]|]; [|done]. intros [= <- <-]. simpl.
    eexists (bags_of (push_msg c (RoundMsg x r) (put_round r rd' (with_bags b m)))). f_equal.
  - destruct (coinReqChan rd) as [|u' q]; [done|]. intros [= <- <-].
    eexists (Bags (bg_echo b) (bg_vote b) (bg_bind b) (bg_coin b ++ [r])). done.
Qed.

(** ** The relation *)

(** The decision of an instance, from [decisionChan] to its client. *)
Definition handed (a : AbaInstance) : list Z :=
  decisionChan a ++ (if ai_async a is H_output d then [d] else []) ++ ai_output a.

Record inst_rel (nd : aba_node) (a : AbaInstance) : Prop := {
  ir_mmr : ∃ b, ab_mmr nd = with_bags b (ai_mmr a);
  ir_bag k x : x ∈ deliver_bag k (ai_mmr a) → is_round (rnum x) ∧ val x ∈ ab_taken nd (rnum x) (kind_chan k);
  ir_coin r : r ∈ coinReq (ai_mmr a) ++ ai_coins a → is_round r;
  ir_round r : is_Some (rounds (ai_mmr a) !! r) → is_round r;
  ir_handed d : d ∈ handed a → d ∈ ab_out nd;
}.

Lemma inst_rel_start n f : inst_rel (aba_start n f) (newAbaNetworkedInstance n f).
Proof.
  split; simpl.
  - exists (bags_of (newMMR n f)). done.
  - intros k x Hx. by destruct k; apply not_elem_of_nil in Hx.
  - intros r Hr. by apply not_elem_of_nil in Hr.
  - intros r [rd Hr]. apply lookup_singleton_Some in Hr as [<- _]. unfold firstRound, is_round. lia.
  - intros d Hd. by apply not_elem_of_nil in Hd.
Qed.

(** What changes when the [mmr] makes a step that hands nothing on. *)
Lemma inst_rel_mmr nd nd' a m :
  inst_rel nd a → log_grows nd nd' → (∃ b, ab_mmr nd' = with_bags b m) →
  (∀ k x, x ∈ deliver_bag k m → x ∈ deliver_bag k (ai_mmr a) ∨
     (is_round (rnum x) ∧ val x ∈ ab_taken nd' (rnum x) (kind_chan k))) →
  (∀ r, r ∈ coinReq m → r ∈ coinReq (ai_mmr a) ∨ is_round r) →
  (∀ r, is_Some (rounds m !! r) → is_Some (rounds (ai_mmr a) !! r) ∨ is_round r) →
  inst_rel nd' (set_ai_mmr m a).
Proof.
  intros [] (Ht & _ & Ho) Hm Hb Hc Hr. split; simpl; try done.
  - intros k x Hx. destruct (Hb k x Hx) as [Hx'|?]; [|done]. destruct (ir_bag0 k x Hx') as [? ?]. auto.
  - intros r [Hx|Hx]%elem_of_app; [destruct (Hc r Hx) as [Hx'|?]; [|done]|]; apply ir_coin0, elem_of_app; auto.
  - intros r Hx. destruct (Hr r Hx); auto.
  - intros d Hd. apply Ho, ir_handed0, Hd.
Qed.

Lemma on_round_rounds r op m m' err :
  on_round r op m = Done (m', err) → ∀ r', is_Some (rounds m' !! r') → is_Some (rounds m !! r') ∨ r' = r.
Proof.
  unfold on_round. destruct (getRound r m) as [m1 rd] eqn:Hg.
  destruct (round_call op rd) as [[rd' e]| |]; [|done..]. intros [= <- _] r'. simpl.
  destruct (decide (r = r')) as [->|]; [by right|]. rewrite lookup_insert_ne by done. left.
  unfold getRound in Hg. destruct (rounds m !! r); injection Hg as <- <-; [done|].
  revert H. simpl. by rewrite lookup_insert_ne.
Qed.

(** ** Steps *)

(** Same rounds as far as the relation looks, and the same bags. *)
Definition keeps (nd' : aba_node) (m m' : mmr) : Prop :=
  bags_of m' = bags_of m ∧ ∀ r, is_Some (rounds m' !! r) → is_Some (rounds m !! r) ∨ is_round r.

Lemma inst_rel_keeps nd nd' a m :
  inst_rel nd a → log_grows nd nd' → (∃ b, ab_mmr nd' = with_bags b m) → keeps nd' (ai_mmr a) m →
  inst_rel nd' (set_ai_mmr m a).
Proof.
  intros Hr Hg Hm [Hb Hk]. injection Hb as H1 H2 H3 H4.
  apply (inst_rel_mmr nd); [done|done|done| | |done].
  - intros k x Hx. left. by destruct k; simpl in *; rewrite ?H1, ?H2, ?H3 in Hx.
  - intros r Hx. left. by rewrite H4 in Hx.
Qed.

Lemma on_round_keeps nd r op m m' err : is_round r → on_round r op m = Done (m', err) → keeps nd m m'.
Proof.
  intros Hr Hon. split.
  - unfold on_round in Hon. destruct (getRound r m) as [m1 rd] eqn:Hg.
    destruct (round_call op rd) as [[rd' e]| |]; [|done..]. injection Hon as <- _.
    unfold getRound in Hg. by destruct (rounds m !! r); injection Hg as <- <-.
  - intros r' Hs. destruct (on_round_rounds r op m m' err Hon r' Hs) as [?| ->]; auto.
Qed.

Lemma put_round_keeps nd r rd rd' m : rounds m !! r = Some rd → keeps nd m (put_round r rd' m).
Proof.
  intros Hrd. split; [done|]. intros r'. simpl. destruct (decide (r = r')) as [->|];
    [rewrite Hrd; by left|rewrite lookup_insert_ne by done; by left].
Qed.

Lemma keeps_rounds nd m m' : bags_of m' = bags_of m → rounds m' = rounds m → keeps nd m m'.
Proof. intros Hb Hr. split; [done|]. intros r. rewrite Hr. by left. Qed.

Lemma keeps_trans nd m1 m2 m3 : keeps nd m1 m2 → keeps nd m2 m3 → keeps nd m1 m3.
Proof. intros [H1 K1] [H2 K2]. split; [congruence|]. intros r Hr. destruct (K2 r Hr); auto. Qed.

Lemma submitCoin_keeps nd c r m m' err :
  is_round r → mmr_submitCoin c r m = Done (m', err) → keeps nd m m'.
Proof.
  intros Hr. unfold mmr_submitCoin. destruct (getRound r m) as [m1 rd] eqn:Hg.
  assert (H1 : keeps nd m m1).
  { unfold getRound in Hg. destruct (rounds m !! r) eqn:Hrd; injection Hg as <- <-; [by apply keeps_rounds|].
    split; [done|]. intros r'. simpl. destruct (decide (r = r')) as [<-|]; [by right|rewrite lookup_insert_ne by done; by left]. }
  destruct (round_submitCoin c rd) as [[rd' res]| |]; [|done..]. simpl.
  assert (H2 : keeps nd m (put_round r rd' m1)).
  { split; [apply H1|]. intros r'. simpl. destruct (decide (r = r')) as [<-|]; [by right|].
    rewrite lookup_insert_ne by done. apply H1. }
  destruct res as [t|e]; [|by intros [= <- _]]. destruct (decided t && _).
  - destruct (reachedDecision _); [|done]. intros [= <- _]. eapply keeps_trans; [exact H2|by apply keeps_rounds].
  - intros Hp. eapply keeps_trans; [exact H2|]. by eapply on_round_keeps; [apply uint16_add_range|].
Qed.

Section sim.
Context (coin : Z → Z) (nd : aba_node) (a : AbaInstance) (Hrel : inst_rel nd a).

Definition simulated (e : aba_event) (a' : AbaInstance) : Prop :=
  ∃ nd', aba_exec coin e nd = Some nd' ∧ inst_rel nd' a'.

(** A step of the [mmr] that keeps the bags. *)
Lemma sim_keeps e m nd' :
  aba_exec coin e nd = Some nd' → (∃ b, ab_mmr nd' = with_bags b m) → keeps nd' (ai_mmr a) m →
  simulated e (set_ai_mmr m a).
Proof.
  intros Hex Hm Hk. exists nd'. split; [done|]. apply (inst_rel_keeps nd); [done| |done..]. by eapply aba_exec_grows.
Qed.

Lemma sim_submit s a' :
  submit s a = Done a' → (match s with SubBca _ _ _ r => is_round r | _ => True end) →
  simulated (match s with SubBca k v x r => AMsg k v x r | SubDecision d x => ADecision d x end) a'.
Proof.
  destruct (ir_mmr _ _ Hrel) as [b Hb]. intros Hs Hr. destruct s as [k v x r|d x].
  - assert (∃ m e, on_round r (λ T _, bca_submit k v x) (ai_mmr a) = Done (m, e) ∧ a' = set_ai_mmr m a)
      as (m & e & Hon & ->).
    { unfold submit in Hs.
      assert (∀ o : outcome (mmr * option mmr_err), ('(m, _) ← o; Done (set_ai_mmr m a)) = Done a' →
        ∃ m e, o = Done (m, e) ∧ a' = set_ai_mmr m a) as Hgen.
      { intros [[m e]| |]; simpl; intros [= <-]. by exists m, e. }
      destruct k; exact (Hgen _ Hs). }
    assert (Hm : mmr_submit k v x r (with_bags b (ai_mmr a)) = Done (with_bags b m, e)) by (destruct k; by apply on_round_bags).
    eapply sim_keeps; [simpl; rewrite Hb, Hm; done|by exists b|by eapply on_round_keeps].
  - unfold submit in Hs. destruct (mmr_submitDecision d x (ai_mmr a)) as [[m e]| |] eqn:Hd; [|done..].
    injection Hs as <-. unfold mmr_submitDecision in Hd.
    destruct (term_submitDecision d x (termGadget (ai_mmr a))) as [[t e']| |] eqn:Ht; [|done..]. injection Hd as <- <-.
    eapply sim_keeps; [simpl; rewrite Hb; unfold mmr_submitDecision; simpl; rewrite Ht; done|by exists b|by apply keeps_rounds].
Qed.

Lemma sim_propose est a' : Propose est a = Done a' → simulated (APropose est) a'.
Proof.
  destruct (ir_mmr _ _ Hrel) as [b Hb]. unfold Propose. intros Hs.
  destruct (conc_propose est (ai_mmr a)) as [[m e]| |] eqn:Hp; [|done..]. injection Hs as <-.
  unfold conc_propose, mmr_propose in Hp.
  eapply sim_keeps; [simpl; rewrite Hb; unfold conc_propose, mmr_propose; rewrite (on_round_bags b _ _ _ _ _ Hp); done
    |by exists b|eapply on_round_keeps; [|exact Hp]; unfold firstRound, is_round; lia].
Qed.

(** The goroutines of an [mmr], and the events they are. *)
Definition inner_event (e : mmr_inner) : aba_event :=
  match e with
  | I_go r g br => AGo r g br
  | I_listen r br => AListen r br
  | I_exec r => AExec r
  | I_external i => AExternal i
  | I_reach br => AReach br
  end.

Lemma listen_rel r br m v :
  listenRequests r br (ai_mmr a) = Some (m, v) → simulated (AListen r br) (set_ai_mmr m a).
Proof.
  destruct (ir_mmr _ _ Hrel) as [b Hb]. intros Hl. destruct (listen_bags b r br _ m v Hl) as [b' Hl'].
  assert (Hir : is_round r).
  { unfold listenRequests in Hl. apply (ir_round _ _ Hrel). destruct (rounds (ai_mmr a) !! r); [by eexists|done]. }
  eexists. split; [simpl; rewrite Hb, Hl'; done|].
  assert (Hgr : ∀ r', is_Some (rounds m !! r') → is_Some (rounds (ai_mmr a) !! r') ∨ is_round r').
  { unfold listenRequests in Hl. destruct (rounds (ai_mmr a) !! r) as [rd|] eqn:Hrd; [|done]. simpl in Hl.
    destruct br as [c|u].
    - case_decide; [|done]. destruct (round_try _ rd) as [[rd' x]|]; [|done]. injection Hl as <- _.
      by apply (put_round_keeps nd r rd).
    - destruct (coinReqChan rd); [done|]. injection Hl as <- _. by apply (put_round_keeps nd r rd). }
  assert (Hlog : log_grows nd (AbaNode (with_bags b' m) (match br, v with inl c, Some v => log_taken r c v (ab_taken nd)
      | _, _ => ab_taken nd end) (ab_proposed nd) (ab_out nd))).
  { apply (aba_exec_grows coin (AListen r br)). simpl. by rewrite Hb, Hl'. }
  apply (inst_rel_mmr nd); [done|exact Hlog|by exists b'| | |done].
  - intros k x Hx. unfold listenRequests in Hl. destruct (rounds (ai_mmr a) !! r) as [rd|]; [|done]. simpl in Hl.
    destruct br as [c|u]; [|destruct (coinReqChan rd); [done|]; injection Hl as <- <-; left; by destruct k].
    case_decide as Hc; [|done]. destruct (round_try _ rd) as [[rd' w]|]; [|done]. injection Hl as <- <-.
    assert (x ∈ deliver_bag k (ai_mmr a) ∨ (c = kind_chan k ∧ x = RoundMsg w r)) as [?|[-> ->]]; [|by left|].
    { destruct k; simpl in Hx; case_decide; try (by left);
        apply elem_of_app in Hx as [?|?%list_elem_of_singleton]; auto. }
    right. split; [done|]. simpl. rewrite log_taken_eq, fn_lookup_insert. apply elem_of_app. right. by left.
  - intros r' Hx. unfold listenRequests in Hl. destruct (rounds (ai_mmr a) !! r) as [rd|]; [|done]. simpl in Hl.
    destruct br as [c|u].
    + case_decide; [|done]. destruct (round_try _ rd) as [[rd' w]|]; [|done]. injection Hl as <- _. by left.
    + destruct (coinReqChan rd); [done|]. injection Hl as <- _. simpl in Hx.
      apply elem_of_app in Hx as [?| ->%list_elem_of_singleton]; auto.
Qed.

Lemma exec_keeps r m m' d : mmr_execRound r m = Some (m', d) → keeps nd m m'.
Proof.
  unfold mmr_execRound. destruct (rounds m !! r) as [rd|] eqn:Hrd; [|done]. simpl.
  destruct (execRound rd) as [[rd' d']|]; [|done]. intros [= <- _]. by eapply put_round_keeps.
Qed.

Lemma sim_inner e m :
  mmr_inner_step e (ai_mmr a) = Some (Done m) → simulated (inner_event e) (set_ai_mmr m a).
Proof.
  destruct (ir_mmr _ _ Hrel) as [b Hb]. intros Hs. destruct e as [r g br|r br|r|i|br]; simpl in Hs.
  - destruct (mmr_go r g br (ai_mmr a)) as [m'|] eqn:Hg; [|done]. injection Hs as ->.
    eapply sim_keeps; [simpl; rewrite Hb, (go_bags b _ _ _ _ _ Hg); done|by exists b|].
    unfold mmr_go in Hg. destruct (rounds (ai_mmr a) !! r) as [rd|] eqn:Hrd; [|done]. simpl in Hg.
    destruct (round_try _ rd) as [[rd' []]|]; [|done]. injection Hg as <-. by eapply put_round_keeps.
  - destruct (listenRequests r br (ai_mmr a)) as [[m' v]|] eqn:Hl; [|done]. injection Hs as ->. by eapply listen_rel.
  - destruct (mmr_execRound r (ai_mmr a)) as [[m' d]|] eqn:He; [|done]. injection Hs as ->.
    eapply sim_keeps; [simpl; rewrite Hb, (execRound_bags b _ _ _ _ He); done|by exists b|].
    destruct (exec_keeps r _ _ _ He) as [? ?]. done.
  - eapply sim_keeps; [simpl; rewrite Hb, (external_bags b _ _ _ Hs); done|by exists b|].
    unfold listenExternallyValid in Hs. destruct (deliverExternallyValid (ai_mmr a) !! i) as [x|]; [|done].
    simpl in Hs. injection Hs as Hs. unfold mmr_submitExternallyValid in Hs.
    destruct (on_round _ _ _) as [[m1 e]| |] eqn:Hon; [|done..]. injection Hs as <-.
    eapply (keeps_trans _ _ (set_external (delete i (deliverExternallyValid (ai_mmr a))) (ai_mmr a))); [by apply keeps_rounds|].
    eapply on_round_keeps; [apply uint16_add_range|exact Hon].
  - destruct (reachDecision br (ai_mmr a)) as [m'|] eqn:Hr; [|done]. injection Hs as ->.
    eapply sim_keeps; [simpl; rewrite Hb, (reach_bags b _ _ _ Hr); done|by exists b|].
    unfold reachDecision in Hr. destruct (m_reach (ai_mmr a)); [destruct br|..]; [| | |done].
    + destruct (reachedDecision (ai_mmr a)); [done|]. injection Hr as <-. by apply keeps_rounds.
    + destruct (term_take _) as [[d t]|]; [|done]. injection Hr as <-. by apply keeps_rounds.
    + destruct (deliverDecision (ai_mmr a)); [|done]. injection Hr as <-. by apply keeps_rounds.
Qed.
End sim.

(** ** Steps of the instance itself *)

Section own.
Context (coin : Z → Z) (nd : aba_node) (a : AbaInstance) (Hrel : inst_rel nd a).

(** A coin arrives. *)
Lemma sim_coin i c r a' :
  ai_coins a !! i = Some r → coin_byte c = coin r → aba_coin i c a = Some (Done a') →
  is_round r ∧ simulated coin nd (ACoin r) a'.
Proof.
  intros Hi Hc Hs. unfold aba_coin in Hs. rewrite Hi in Hs. simpl in Hs. rewrite Hc in Hs.
  assert (Hir : is_round r).
  { apply (ir_coin _ _ Hrel), elem_of_app. right. by eapply list_elem_of_lookup_2. }
  split; [done|]. destruct (mmr_submitCoin (coin r) r (ai_mmr a)) as [[m e]| |] eqn:Hm; [|done..].
  injection Hs as <-. destruct (ir_mmr _ _ Hrel) as [b Hb].
  assert (simulated coin nd (ACoin r) (set_ai_mmr m a)) as (nd' & Hex & Hr').
  { eapply (sim_keeps coin nd a Hrel); [simpl; rewrite Hb, (submitCoin_bags b _ _ _ _ _ Hm); done|by exists b|].
    by eapply submitCoin_keeps. }
  exists nd'. split; [done|]. destruct Hr'. split; simpl in *; try done.
  intros r' [?|?]%elem_of_app; apply ir_coin0, elem_of_app; [by left|right; by eapply list_elem_of_delete_inv].
Qed.

(** What the listener hands on. *)
Lemma sim_listener id br a' eff :
  aba_listener id br a = Some (Done (a', eff)) →
  match br with
  | L_bcast k _ => inst_rel nd a' ∧ ∃ x, eff = Beb (bcast_of k id x) ∧ is_round (rnum x) ∧
                     val x ∈ ab_taken nd (rnum x) (kind_chan k)
  | L_decision => ∃ d nd', eff = TermBeb (broadcastDecision id d) ∧ aba_exec coin AOutput nd = Some nd' ∧
                     inst_rel nd' a' ∧ d ∈ ab_out nd'
  | L_coin _ => inst_rel nd a' ∧ ∃ r, eff = Toss (makeCoinSeed id r) ∧ is_round r
  end.
Proof.
  pose proof Hrel as [[b Hb] Hbag Hcoin Hround Hhand]. unfold aba_listener. destruct (negb (ai_listening a)); [done|].
  destruct br as [k i| |i].
  - destruct (deliver_bag k (ai_mmr a) !! i) as [x|] eqn:Hx; [|done]. simpl. intros [= <- <-].
    apply list_elem_of_lookup_2 in Hx. split; [|exists x; split; [done|by apply Hbag]]. split; simpl; try done.
    + exists b. by rewrite Hb.
    + intros k' y Hy. apply Hbag. destruct k, k'; simpl in *; try done; by eapply list_elem_of_delete_inv.
  - destruct (deliverDecision (ai_mmr a)) as [|d q] eqn:Hd; [done|]. intros [= Ho]. unfold outputDecision in Ho.
    simpl in Ho. destruct (decisionChan a) eqn:Hdc; [|done]. injection Ho as <- <-.
    eexists d, _. split; [done|]. split; [simpl; unfold take_decision; rewrite Hb; simpl; rewrite Hd; done|].
    split; [|apply elem_of_app; right; by left]. split; simpl; try done.
    + by exists b.
    + intros d'. unfold handed. simpl. intros [->|Hin]%elem_of_cons; [apply elem_of_app; right; by left|].
      apply elem_of_app. left. apply Hhand. unfold handed. by rewrite Hdc.
  - destruct (coinReq (ai_mmr a) !! i) as [r|] eqn:Hr; [|done]. simpl. intros [= <- <-].
    apply list_elem_of_lookup_2 in Hr.
    assert (Hir : is_round r) by (apply Hcoin, elem_of_app; by left).
    split; [|by exists r]. split; simpl; try done.
    + exists b. by rewrite Hb.
    + intros r' [Hx|[Hx|Hx]%elem_of_app]%elem_of_app.
      * apply Hcoin, elem_of_app. left. by eapply list_elem_of_delete_inv.
      * apply Hcoin, elem_of_app. by right.
      * by apply list_elem_of_singleton in Hx as ->.
Qed.

End own.

(** *** Handing the decision to the client *)

Section handing.
Context (nd : aba_node) (a : AbaInstance) (Hrel : inst_rel nd a).

Lemma inst_rel_handed a' :
  ai_mmr a' = ai_mmr a → ai_coins a' = ai_coins a → (∀ d, d ∈ handed a' → d ∈ handed a) → inst_rel nd a'.
Proof.
  intros Hm Hc Hh. destruct Hrel. split; rewrite ?Hm, ?Hc; try done. intros d Hd. by apply ir_handed0, Hh.
Qed.

Lemma rel_async a' : handleAsyncResultDelivery a = Some a' → inst_rel nd a'.
Proof.
  unfold handleAsyncResultDelivery. destruct (ai_async a) as [|d| | |] eqn:Hp; [| | |done|done].
  - destruct (decisionChan a) as [|d q] eqn:Hd; [done|]. intros [= <-]. apply inst_rel_handed; [done..|].
    unfold handed. simpl. rewrite Hd, Hp. set_solver.
  - destruct (ai_output a) eqn:Ho; [|done]. intros [= <-]. apply inst_rel_handed; [done..|].
    unfold handed. simpl. rewrite Ho, Hp. set_solver.
  - destruct (terminatedChan a); [done|]. intros [= <-]. apply inst_rel_handed; [done..|].
    unfold handed. simpl. by rewrite Hp.
Qed.

Lemma rel_get a' d : GetOutput a = Some (a', d) → inst_rel nd a' ∧ d ∈ ab_out nd.
Proof.
  unfold GetOutput. destruct (ai_output a) as [|d' q] eqn:Ho; [done|]. intros [= <- ->]. split.
  - apply inst_rel_handed; [done..|]. unfold handed. simpl. rewrite Ho. set_solver.
  - apply (ir_handed _ _ Hrel). unfold handed. rewrite Ho. set_solver.
Qed.
End handing.
