(* ===== verification/Acs.v ===== *)
(** * Package [agreementCommonSubset]: one BKR instance

    [proposalAcceptor.go] and [bkr.go].  Each proposer has an acceptor with a
    binary agreement of its own: accept (1) when its proposal arrives, reject
    (0) for the proposers that have not been heard once [n - f] proposals are
    accepted.  The instance collects one response per acceptor.

    A binary agreement is the list of the estimates proposed to it so far; its
    decision arrives as an event.  Goroutines are program counters as in
    [Ivbca]; the lock of an acceptor makes each of its methods one step. *)

From stdpp Require Import base tactics numbers list fin_sets gmap.
From Stdlib Require Import Init.Byte.
From S2P Require Import Prelude Utils.

Local Open Scope Z_scope.

Definition accept : Z := 1.
Definition reject : Z := 0.

(** The goroutine [waitResponse] of an acceptor. *)
Inductive resp_pc :=
| W_decision
| W_input
| W_send (o : option bytes)
| W_done.

Record proposalAcceptor := ProposalAcceptor {
  proposer : UUID;
  pa_abaId : UUID;
  aba : list Z;
  input : option bytes;
  inputChan : list bytes;
  proposed : bool;
  pa_output : list (option bytes);
  pa_pc : resp_pc;
}.

Definition newProposalAcceptor (abaId proposer : UUID) : proposalAcceptor :=
  ProposalAcceptor proposer abaId [] None [] false [] W_decision.

Inductive acs_err := InputAlreadySubmitted | UnknownProposer (p : UUID).

(** [p.aba.Propose(est)], when nothing was proposed yet. *)
Definition pa_propose (est : Z) (p : proposalAcceptor) : proposalAcceptor :=
  if proposed p then p else
  ProposalAcceptor (proposer p) (pa_abaId p) (aba p ++ [est]) (input p) (inputChan p) true
    (pa_output p) (pa_pc p).

(** [inputChan] has room for one. *)
Definition submitInput (x : bytes) (p : proposalAcceptor) :
    outcome (proposalAcceptor * option acs_err) :=
  if input p is Some _ then Done (p, Some InputAlreadySubmitted) else
  match inputChan p with
  | [] => Done (pa_propose accept
                 (ProposalAcceptor (proposer p) (pa_abaId p) (aba p) (Some x) [x] (proposed p)
                    (pa_output p) (pa_pc p)), None)
  | _ => Block
  end.

Definition rejectProposal (p : proposalAcceptor) : proposalAcceptor * option acs_err :=
  if input p is Some _ then (p, Some InputAlreadySubmitted) else (pa_propose reject p, None).

Definition hasProposed (p : proposalAcceptor) : bool := proposed p.

(** [waitResponse]: the decision of the agreement arrives; the input is read
    when the proposal is accepted; the response is sent. *)
Definition pa_set (ic : list bytes) (out : list (option bytes)) (pc : resp_pc)
    (p : proposalAcceptor) : proposalAcceptor :=
  ProposalAcceptor (proposer p) (pa_abaId p) (aba p) (input p) ic (proposed p) out pc.

Definition waitResponse_decide (res : Z) (p : proposalAcceptor) : option proposalAcceptor :=
  match pa_pc p with
  | W_decision =>
    Some (pa_set (inputChan p) (pa_output p) (if res =? accept then W_input else W_send None) p)
  | _ => None
  end.
Definition waitResponse_step (p : proposalAcceptor) : option proposalAcceptor :=
  match pa_pc p with
  | W_input =>
    match inputChan p with
    | x :: q => Some (pa_set q (pa_output p) (W_send (Some x)) p)
    | [] => None
    end
  | W_send o =>
    match pa_output p with
    | [] => Some (pa_set (inputChan p) [o] W_done p)
    | _ => None
    end
  | _ => None
  end.

(** ** The instance *)

(** [waitAcceptorResponse] for one acceptor. *)
Inductive fwd_pc := F_wait | F_send (o : option bytes) | F_done.

(** [processResponses]: [i] responses processed; in [P_reject i k] the loop
    over the acceptors has reached [k]. *)
Inductive proc_pc := P_recv (i : nat) | P_reject (i k : nat) | P_output | P_done.

Record bkr := Bkr {
  bkr_id : UUID;
  bkr_f : Z;
  acceptors : list proposalAcceptor;
  resultsChan : list (option bytes * nat);
  results : list (option bytes);
  output : list (list bytes);
  fwd : list fwd_pc;
  proc : proc_pc;
}.

(** [utils.BytesToUUID(append(bkrId[:], proposer[:]...))] *)
Definition computeAcceptors (bkrId : UUID) (proposers : list UUID) : list proposalAcceptor :=
  (λ p, newProposalAcceptor (BytesToUUID (uuid_bytes bkrId ++ uuid_bytes p)) p) <$> proposers.

(** The loop of [processResponses], before its [i]-th receive. *)
Definition proc_head (i n : nat) : proc_pc := if decide (i < n)%nat then P_recv i else P_output.

Definition newBKR (id : UUID) (f : Z) (proposers : list UUID) : bkr :=
  Bkr id f (computeAcceptors id proposers) [] (replicate (length proposers) None) []
    (replicate (length proposers) F_wait) (proc_head 0 (length proposers)).

(** [r != nil]: an accepted proposal is never a nil slice. *)
Definition getAccepted (b : bkr) : list bytes := omap id (results b).

Definition set_acceptors x (b : bkr) : bkr :=
  Bkr (bkr_id b) (bkr_f b) x (resultsChan b) (results b) (output b) (fwd b) (proc b).
Definition set_proc x (b : bkr) : bkr :=
  Bkr (bkr_id b) (bkr_f b) (acceptors b) (resultsChan b) (results b) (output b) (fwd b) x.

Definition getAcceptor (p : UUID) (b : bkr) : option (nat * proposalAcceptor) :=
  list_find (λ a, proposer a = p) (acceptors b).

Definition receiveInput (x : bytes) (p : UUID) (b : bkr) : outcome (bkr * option acs_err) :=
  match getAcceptor p b with
  | None => Done (b, Some (UnknownProposer p))
  | Some (k, a) =>
    '(a, err) ← submitInput x a;
    Done (set_acceptors (<[k := a]> (acceptors b)) b, err)
  end.

(** A step of the [k]-th [waitResponse]. *)
Definition acceptor_decide (k : nat) (res : Z) (b : bkr) : option bkr :=
  a ← acceptors b !! k; a ← waitResponse_decide res a;
  Some (set_acceptors (<[k := a]> (acceptors b)) b).
Definition acceptor_step (k : nat) (b : bkr) : option bkr :=
  a ← acceptors b !! k; a ← waitResponse_step a;
  Some (set_acceptors (<[k := a]> (acceptors b)) b).

(** A step of the [k]-th [waitAcceptorResponse]; [resultsChan] has room for
    one response per proposer. *)
Definition waitAcceptorResponse (k : nat) (b : bkr) : option bkr :=
  pc ← fwd b !! k; a ← acceptors b !! k;
  match pc with
  | F_wait =>
    match pa_output a with
    | o :: q =>
      Some (Bkr (bkr_id b) (bkr_f b) (<[k := pa_set (inputChan a) q (pa_pc a) a]> (acceptors b))
              (resultsChan b) (results b) (output b) (<[k := F_send o]> (fwd b)) (proc b))
    | [] => None
    end
  | F_send o =>
    if decide (length (resultsChan b) < length (acceptors b))%nat then
      Some (Bkr (bkr_id b) (bkr_f b) (acceptors b) (resultsChan b ++ [(o, k)]) (results b)
              (output b) (<[k := F_done]> (fwd b)) (proc b))
    else None
  | F_done => None
  end.

(** A step of [processResponses]: one receive, one acceptor of the rejection
    loop, or the output. *)
Definition processResponses (b : bkr) : option bkr :=
  match proc b with
  | P_recv i =>
    match resultsChan b with
    | (proposal, idx) :: q =>
      if decide (idx < length (results b))%nat then
        let b := Bkr (bkr_id b) (bkr_f b) (acceptors b) q (<[idx := proposal]> (results b))
                   (output b) (fwd b) (proc b) in
        let full := Z.of_nat (length (getAccepted b)) =?
                    Z.of_nat (length (acceptors b)) - int_of_uint (bkr_f b) in
        Some (set_proc (if (if proposal is Some _ then true else false) && full
                        then P_reject i 0 else proc_head (S i) (length (acceptors b))) b)
      else None
    | [] => None
    end
  | P_reject i k =>
    match acceptors b !! k with
    | Some a =>
      let a := if hasProposed a then a else (rejectProposal a).1 in
      Some (set_proc (P_reject i (S k)) (set_acceptors (<[k := a]> (acceptors b)) b))
    | None => Some (set_proc (proc_head (S i) (length (acceptors b))) b)
    end
  | P_output =>
    match output b with
    | [] => Some (Bkr (bkr_id b) (bkr_f b) (acceptors b) (resultsChan b) (results b)
                    [getAccepted b] (fwd b) P_done)
    | _ => None
    end
  | P_done => None
  end.
