(* ===== verification/AcsNetwork.v ===== *)
(** * The common subset among [n] processes

    Every correct process runs a [bkr] instance.  The network stands for the
    layers below, by what they promise: [bc] are the proposals the reliable
    broadcasts deliver, to each process in its own order; the binary agreement
    of acceptor [k] decides [dec k] at every process (agreement), and only if a
    correct process proposed that value to it (validity). *)

From stdpp Require Import base tactics numbers list fin_sets gmap functions relations.
From Stdlib Require Import Init.Byte.
From S2P Require Import Prelude Utils Acs.

Local Open Scope Z_scope.

Inductive acs_event :=
| EInput (x : bytes) (p : UUID)
| EDecide (k : nat)
| EWait (k : nat)
| EForward (k : nat)
| EProcess.

Abbreviation acs_config := (UUID → bkr).

Lemma nodup_app_one {A} (l : list A) x : NoDup l → x ∉ l → NoDup (l ++ [x]).
Proof.
  intros Hd Hx. apply list.NoDup_app. split; [done|]. split; [|apply NoDup_singleton].
  by intros y Hy ->%list_elem_of_singleton.
Qed.
Lemma elem_of_app_snoc {A} (l k : list A) x y : y ∈ l ++ k ++ [x] → y ∈ l ++ k ∨ y ∈ [x].
Proof. rewrite (assoc_L (++)), elem_of_app. done. Qed.

Section network.
Context (mb : membership UUID) (bid : UUID) (ps : list UUID).
Context (bc : list (UUID * bytes)) (dec : nat → Z).

#[local] Abbreviation n := (length ps).

Definition acs_correct (j : UUID) : Prop := j ∈ peers mb ∧ j ∉ faulty mb.

Definition acs_exec (e : acs_event) (b : bkr) : option bkr :=
  match e with
  | EInput x p => match receiveInput x p b with Done (b, _) => Some b | _ => None end
  | EDecide k => acceptor_decide k (dec k) b
  | EWait k => acceptor_step k b
  | EForward k => waitAcceptorResponse k b
  | EProcess => processResponses b
  end.

Definition proposed_to (b : bkr) (k : nat) (est : Z) : Prop :=
  ∃ a, acceptors b !! k = Some a ∧ est ∈ aba a.

Definition acs_event_ok (C : acs_config) (e : acs_event) : Prop :=
  match e with
  | EInput x p => (p, x) ∈ bc
  | EDecide k => ∃ i, acs_correct i ∧ proposed_to (C i) k (dec k)
  | _ => True
  end.

Inductive acs_net_step (C : acs_config) : acs_config → Prop :=
| acs_net_event j e b :
    acs_correct j → acs_event_ok C e → acs_exec e (C j) = Some b → acs_net_step C (<[j := b]> C).

Definition acs_net_init : acs_config := λ _, newBKR bid (mb_f mb) ps.
Definition acs_reachable (C : acs_config) : Prop := rtc acs_net_step acs_net_init C.

(** The instance at [j] has output [l]. *)
Definition AcsOutputs (C : acs_config) (j : UUID) (l : list bytes) : Prop := l ∈ output (C j).

(** ** The invariant of one instance *)

Definition opt_list {A} (o : option A) : list A := match o with Some x => [x] | None => [] end.

(** The response of acceptor [k]. *)
Definition resp_ok (k : nat) (a : proposalAcceptor) (o : option bytes) : Prop :=
  (dec k ≠ accept ∧ o = None) ∨ (dec k = accept ∧ is_Some o ∧ input a = o).

Definition acceptor_ok (k : nat) (a : proposalAcceptor) (w : fwd_pc) : Prop :=
  (input a = None → inputChan a = []) ∧
  match pa_pc a with
  | W_decision => inputChan a = opt_list (input a) ∧ pa_output a = [] ∧ w = F_wait
  | W_input => dec k = accept ∧ inputChan a = opt_list (input a) ∧ pa_output a = [] ∧ w = F_wait
  | W_send o => resp_ok k a o ∧ pa_output a = [] ∧ w = F_wait
  | W_done => ∃ o, resp_ok k a o ∧
      ((pa_output a = [o] ∧ w = F_wait) ∨ (pa_output a = [] ∧ (w = F_send o ∨ w = F_done)))
  end.

Definition log_length (b : bkr) : nat :=
  match proc b with P_recv i => i | P_reject i _ => S i | P_output | P_done => n end.

(** [log]: the responses processed so far. *)
Record acs_inv (log : list (option bytes * nat)) (b : bkr) : Prop := {
  i_conf : bkr_f b = mb_f mb;
  i_len : length (acceptors b) = n ∧ length (results b) = n ∧ length (fwd b) = n;
  i_proposer k a : acceptors b !! k = Some a → ps !! k = Some (proposer a);
  i_input k a x : acceptors b !! k = Some a → input a = Some x → (proposer a, x) ∈ bc;
  i_acc k a w : acceptors b !! k = Some a → fwd b !! k = Some w → acceptor_ok k a w;
  i_aba k a est : acceptors b !! k = Some a → est ∈ aba a → est = accept ∨ est = reject;
  i_nodup : NoDup (log ++ resultsChan b).*2;
  i_sent o k : (o, k) ∈ log ++ resultsChan b →
    fwd b !! k = Some F_done ∧ ∃ a, acceptors b !! k = Some a ∧ resp_ok k a o;
  i_results k o : (o, k) ∈ log → results b !! k = Some o;
  i_accepted k x : results b !! k = Some (Some x) → (Some x, k) ∈ log;
  i_log : length log = log_length b ∧ match proc b with P_recv i | P_reject i _ => (i < n)%nat | _ => True end;
  i_reject k a : acceptors b !! k = Some a → reject ∈ aba a →
    Z.of_nat n - mb_f mb ≤ Z.of_nat (length (getAccepted b));
  i_full i k : proc b = P_reject i k → Z.of_nat n - mb_f mb ≤ Z.of_nat (length (getAccepted b));
  i_forwarded k : fwd b !! k = Some F_done → k ∈ (log ++ resultsChan b).*2;
  i_output : output b = if proc b is P_done then [getAccepted b] else [];
}.

Lemma computeAcceptors_lookup k a :
  computeAcceptors bid ps !! k = Some a →
  ∃ p, ps !! k = Some p ∧ a = newProposalAcceptor (BytesToUUID (uuid_bytes bid ++ uuid_bytes p)) p.
Proof. unfold computeAcceptors. rewrite list_lookup_fmap. intros (p & ? & ->)%fmap_Some. by exists p. Qed.

Lemma acs_inv_init : acs_inv [] (newBKR bid (mb_f mb) ps).
Proof.
  split; simpl.
  - done.
  - unfold computeAcceptors. by rewrite length_fmap, !length_replicate.
  - by intros k a (p & Hp & ->)%computeAcceptors_lookup.
  - by intros k a x (p & Hp & ->)%computeAcceptors_lookup.
  - intros k a w (p & Hp & ->)%computeAcceptors_lookup (-> & _)%lookup_replicate. by split_and!.
  - intros k a est (p & Hp & ->)%computeAcceptors_lookup He. by apply not_elem_of_nil in He.
  - constructor.
  - intros o k Hk. by apply not_elem_of_nil in Hk.
  - intros k o Hk. by apply not_elem_of_nil in Hk.
  - intros k x (? & _)%lookup_replicate. done.
  - unfold log_length. cbn [proc newBKR length]. unfold proc_head. case_decide; simpl; (split; [lia|done || lia]).
  - intros k a (p & Hp & ->)%computeAcceptors_lookup He. by apply not_elem_of_nil in He.
  - intros i k. unfold proc_head. by case_decide.
  - by intros k [? _]%lookup_replicate.
  - unfold proc_head. by case_decide.
Qed.

Lemma surjective_bkr (b : bkr) : set_acceptors (acceptors b) b = b.
Proof. by destruct b. Qed.

(** Changing one acceptor. *)
Lemma set_acceptor_inv log b k a a' :
  acs_inv log b → acceptors b !! k = Some a →
  proposer a' = proposer a → (∀ x, input a' = Some x → (proposer a, x) ∈ bc) →
  (∀ x, input a = Some x → input a' = Some x) →
  (∀ w, fwd b !! k = Some w → acceptor_ok k a' w) →
  (∀ est, est ∈ aba a' → est ∈ aba a ∨ est = accept ∨
     (est = reject ∧ Z.of_nat n - mb_f mb ≤ Z.of_nat (length (getAccepted b)))) →
  acs_inv log (set_acceptors (<[k := a']> (acceptors b)) b).
Proof.
  intros [] Hk Hp Hin Hmono Hacc Haba.
  assert (Hkl : (k < length (acceptors b))%nat) by (by eapply lookup_lt_Some).
  split; simpl; try done.
  - by rewrite length_insert.
  - intros k' a1 [(-> & <- & _)|[_ ?]]%list_lookup_insert_Some; [rewrite Hp; auto|auto].
  - intros k' a1 x [(-> & <- & _)|[_ ?]]%list_lookup_insert_Some; [rewrite Hp; auto|eauto].
  - intros k' a1 w [(-> & <- & _)|[_ ?]]%list_lookup_insert_Some; [auto|eauto].
  - intros k' a1 est [(-> & <- & _)|[_ ?]]%list_lookup_insert_Some; [|eauto].
    intros [?|[?|[? _]]]%Haba; [by eapply i_aba0|by left|by right].
  - intros o k' Hs. destruct (i_sent0 o k' Hs) as (? & a1 & Ha1 & Hr). split; [done|].
    destruct (decide (k = k')) as [<-|].
    + exists a'. rewrite list_lookup_insert_eq by done. split; [done|].
      rewrite Hk in Ha1. injection Ha1 as ->.
      destruct Hr as [?|(? & [x ->] & ?)]; [by left|right]. split_and!; [done|by eexists|auto].
    + exists a1. by rewrite list_lookup_insert_ne.
  - intros k' a1 [(-> & <- & _)|[_ ?]]%list_lookup_insert_Some; [|eauto].
    intros [?|[?|[_ ?]]]%Haba; [by eapply i_reject0|done|done].
Qed.

Lemma getAcceptor_spec p b k a :
  getAcceptor p b = Some (k, a) → acceptors b !! k = Some a ∧ proposer a = p.
Proof. unfold getAcceptor. intros (? & ? & _)%list_find_Some. done. Qed.

Lemma pa_propose_spec est a :
  proposer (pa_propose est a) = proposer a ∧ input (pa_propose est a) = input a ∧
  inputChan (pa_propose est a) = inputChan a ∧ pa_output (pa_propose est a) = pa_output a ∧
  pa_pc (pa_propose est a) = pa_pc a ∧ (∀ e, e ∈ aba (pa_propose est a) → e ∈ aba a ∨ e = est).
Proof.
  unfold pa_propose. destruct (proposed a); simpl; [split_and!; auto|]. split_and!; try done.
  intros e [?| ->%list_elem_of_singleton]%elem_of_app; auto.
Qed.

Lemma acceptor_ok_ext k a a' w :
  pa_pc a' = pa_pc a → input a' = input a → inputChan a' = inputChan a → pa_output a' = pa_output a →
  acceptor_ok k a w → acceptor_ok k a' w.
Proof.
  intros H1 H2 H3 H4. unfold acceptor_ok. rewrite H1, H3, H4. unfold resp_ok. by rewrite H2.
Qed.

(** The input arrives. *)
Lemma acceptor_ok_input k a a' w x :
  acceptor_ok k a w → input a = None → pa_pc a' = pa_pc a → input a' = Some x → inputChan a' = [x] →
  pa_output a' = pa_output a → acceptor_ok k a' w.
Proof.
  intros [_ Hok] Hi Hpc Hi' Hc' Ho'. unfold acceptor_ok. rewrite Hpc, Hi', Hc', Ho'.
  split; [done|]. destruct (pa_pc a).
  - by destruct Hok as (_ & ? & ?).
  - by destruct Hok as (? & _ & ? & ?).
  - destruct Hok as ([[? ->]|(_ & [y Hy] & Hio)] & ? & ?); [|congruence]. split; [by left|done].
  - destruct Hok as (o & [[? ->]|(_ & [y Hy] & Hio)] & ?); [|congruence].
    exists None. split; [by left|done].
Qed.

Lemma receiveInput_inv log b x p b' err :
  acs_inv log b → (p, x) ∈ bc → receiveInput x p b = Done (b', err) → acs_inv log b'.
Proof.
  intros Hi Hbc Hr. unfold receiveInput in Hr.
  destruct (getAcceptor p b) as [[k a]|] eqn:Hg; [|by injection Hr as <- <-].
  apply getAcceptor_spec in Hg as [Hk Hp]. unfold submitInput in Hr.
  destruct (input a) as [y|] eqn:Hin.
  { injection Hr as <- <-. by rewrite list_insert_id, (surjective_bkr b). }
  destruct (inputChan a) eqn:Hc; [|done]. injection Hr as <- <-.
  set (a1 := ProposalAcceptor _ _ _ _ _ _ _ _).
  destruct (pa_propose_spec accept a1) as (H1 & H2 & H3 & H4 & H5 & H6).
  apply (set_acceptor_inv log b k a); [done|done|by rewrite H1| | | |].
  - rewrite H2. simpl. intros z [= <-]. by rewrite Hp.
  - by rewrite Hin.
  - intros w Hw. apply (acceptor_ok_input k a _ w x); [by eapply i_acc|done|by rewrite H5|
      by rewrite H2|by rewrite H3|by rewrite H4].
  - intros est He. destruct (H6 est He); [by left|right; by left].
Qed.

Lemma acceptor_decide_inv log b k b' :
  acs_inv log b → acceptor_decide k (dec k) b = Some b' → acs_inv log b'.
Proof.
  intros Hi Hd. unfold acceptor_decide in Hd. apply bind_Some in Hd as (a & Hk & Hd).
  apply bind_Some in Hd as (a' & Hd & [= <-]). unfold waitResponse_decide in Hd.
  destruct (pa_pc a) eqn:Hpc; try done. injection Hd as <-.
  apply (set_acceptor_inv log b k a); simpl; try done.
  - intros x. by apply (i_input _ _ Hi k).
  - intros w Hw. pose proof (i_acc _ _ Hi k a w Hk Hw) as [Hn Hok]. rewrite Hpc in Hok.
    destruct Hok as (Hc & Ho & Hw'). split; [done|]. simpl.
    destruct (Z.eqb_spec (dec k) accept); [by split_and!|]. split; [by left|done].
  - by left.
Qed.

Lemma acceptor_step_inv log b k b' :
  acs_inv log b → acceptor_step k b = Some b' → acs_inv log b'.
Proof.
  intros Hi Hd. unfold acceptor_step in Hd. apply bind_Some in Hd as (a & Hk & Hd).
  apply bind_Some in Hd as (a' & Hd & [= <-]). unfold waitResponse_step in Hd.
  destruct (pa_pc a) eqn:Hpc; try done.
  - destruct (inputChan a) as [|x q] eqn:Hc; [done|]. injection Hd as <-.
    apply (set_acceptor_inv log b k a); simpl; try done.
    + intros y. by apply (i_input _ _ Hi k).
    + intros w Hw. pose proof (i_acc _ _ Hi k a w Hk Hw) as [Hn Hok]. rewrite Hpc in Hok.
      destruct Hok as (Hdec & Hc' & Ho & Hw'). destruct (input a) as [y|] eqn:Hin; [|by rewrite Hc in Hc'].
      rewrite Hc in Hc'. injection Hc' as -> ->. split; [simpl; by rewrite Hin|]. simpl.
      split; [|done]. right. by split_and!.
    + by left.
  - destruct (pa_output a) eqn:Ho; [|done]. injection Hd as <-.
    apply (set_acceptor_inv log b k a); simpl; try done.
    + intros y. by apply (i_input _ _ Hi k).
    + intros w Hw. pose proof (i_acc _ _ Hi k a w Hk Hw) as [Hn Hok]. rewrite Hpc in Hok.
      destruct Hok as (Hr & _ & Hw'). split; [done|]. simpl. exists o. split; [done|]. by left.
    + by left.
Qed.

Lemma lookup_same_length {A B} (l : list A) (l' : list B) k x :
  length l = length l' → l !! k = Some x → is_Some (l' !! k).
Proof. intros Hl Hk. apply lookup_lt_is_Some_2. apply lookup_lt_Some in Hk. lia. Qed.

Lemma waitAcceptorResponse_inv log b k b' :
  acs_inv log b → waitAcceptorResponse k b = Some b' → acs_inv log b'.
Proof.
  intros Hi Hw. unfold waitAcceptorResponse in Hw. apply bind_Some in Hw as (w & Hk & Hw).
  apply bind_Some in Hw as (a & Ha & Hw). pose proof (i_acc _ _ Hi k a w Ha Hk) as [Hn Hok].
  pose proof (lookup_lt_Some _ _ _ Hk) as Hlt.
  destruct w as [|o|]; [| |done].
  - destruct (pa_output a) as [|o q] eqn:Ho; [done|]. injection Hw as <-.
    destruct (pa_pc a) eqn:Hpc; try (destruct_and?; congruence).
    destruct Hok as (o' & Hr & [[[= -> ->] _]|[? _]]); [|done].
    set (a' := pa_set _ _ _ _).
    destruct Hi. split; simpl; try done.
    + by rewrite !length_insert.
    + intros k' a1 [(-> & <- & _)|[_ ?]]%list_lookup_insert_Some; [by apply (i_proposer0 k' a)|auto].
    + intros k' a1 x [(-> & <- & _)|[_ ?]]%list_lookup_insert_Some; [by apply (i_input0 k' a)|eauto].
    + intros k' a1 w [(-> & <- & _)|[Hne Hk1]]%list_lookup_insert_Some
        [(? & <- & _)|[? Hk2]]%list_lookup_insert_Some; try done; [|by eapply i_acc0].
      subst. unfold acceptor_ok, a'. simpl. split; [done|].
      exists o'. split; [done|]. right. split; [done|by left].
    + intros k' a1 est [(-> & <- & _)|[_ ?]]%list_lookup_insert_Some; [by apply (i_aba0 k' a)|eauto].
    + intros o1 k1 Hs. destruct (i_sent0 o1 k1 Hs) as (Hf & a1 & Ha1 & Hr1).
      assert (k ≠ k1) by (intros ->; congruence). rewrite !list_lookup_insert_ne by done. eauto.
    + intros k' a1 [(-> & <- & _)|[_ ?]]%list_lookup_insert_Some; [by apply (i_reject0 k' a)|eauto].
    + intros k' [(_ & ? & _)|[_ ?]]%list_lookup_insert_Some; [done|auto].
  - case_decide; [|done]. injection Hw as <-.
    assert (Hr : resp_ok k a o).
    { destruct (pa_pc a) eqn:Hpc; try (destruct_and?; congruence).
      destruct Hok as (o' & Hr & [[_ ?]|[_ [[= ->]|?]]]); done. }
    assert (Hni : ∀ o1, (o1, k) ∉ log ++ resultsChan b).
    { intros o1 Hin. destruct (i_sent _ _ Hi o1 k Hin) as [? _]. congruence. }
    destruct Hi. split; simpl; try done.
    + by rewrite length_insert.
    + intros k' a1 w Ha1 [(<- & <- & _)|[Hne Hk1]]%list_lookup_insert_Some; [|by eapply i_acc0].
      rewrite Ha in Ha1. injection Ha1 as <-. split; [done|].
      destruct (pa_pc a) eqn:Hpc; try (destruct_and?; congruence).
      destruct Hok as (o' & Hr' & [[_ ?]|[? [[= ->]|?]]]); try done.
      exists o'. split; [done|]. right. split; [done|by right].
    + rewrite (assoc_L (++)), fmap_app. simpl. apply nodup_app_one; [done|].
      intros ([o1 k1] & Heq & Hin)%list_elem_of_fmap. simpl in Heq. subst k1. by apply (Hni o1).
    + intros o1 k1 [Hin|[= -> ->]%list_elem_of_singleton]%elem_of_app_snoc.
      * destruct (i_sent0 o1 k1 Hin) as (Hf & a1 & Ha1 & Hr1). split; [|by exists a1].
        rewrite list_lookup_insert_ne; [done|]. intros ->. by apply (Hni o1).
      * rewrite list_lookup_insert_eq by done. split; [done|]. by exists a.
    + intros k' Hk'. rewrite (assoc_L (++)), fmap_app. simpl. apply elem_of_app.
      apply list_lookup_insert_Some in Hk' as [(<- & _ & _)|[_ ?]]; [right; by left|left; auto].
Qed.

Lemma accepted_grows (l : list (option bytes)) k x :
  l !! k = Some None → (length (omap id l) ≤ length (omap id (<[k := x]> l)))%nat.
Proof.
  revert k. induction l as [|y l IH]; intros [|k] Hk; simpl in *; try done.
  - injection Hk as ->. destruct x; simpl; lia.
  - destruct y; [apply le_n_S|]; by apply IH.
Qed.

(** Moving [processResponses]. *)
Lemma set_proc_inv log b pc :
  acs_inv log b → proc b ≠ P_done → pc ≠ P_done → log_length (set_proc pc b) = log_length b →
  match pc with P_recv i | P_reject i _ => (i < n)%nat | _ => True end →
  (∀ i k, pc = P_reject i k → Z.of_nat n - mb_f mb ≤ Z.of_nat (length (getAccepted b))) →
  acs_inv log (set_proc pc b).
Proof.
  intros [] Hnd Hnd' Hl Hpc Hfull. split; try done.
  - split; [by rewrite Hl; apply i_log0|done].
  - simpl. rewrite i_output0. destruct (proc b), pc; done.
Qed.

Lemma proc_head_length i b : (i < n)%nat → log_length (set_proc (proc_head (S i) n) b) = S i.
Proof. intros. unfold log_length, proc_head. simpl. case_decide; lia. Qed.

Lemma proc_head_small i m : match proc_head i m with P_recv i | P_reject i _ => (i < m)%nat | _ => True end.
Proof. unfold proc_head. by case_decide. Qed.

(** Recording a response. *)
Lemma receive_inv log b i proposal idx q :
  acs_inv log b → proc b = P_recv i → resultsChan b = (proposal, idx) :: q →
  (length (getAccepted b) ≤ length (omap id (<[idx := proposal]> (results b))))%nat ∧
  ∀ pc, pc ≠ P_done → log_length (set_proc pc b) = S i →
    match pc with P_recv i | P_reject i _ => (i < n)%nat | _ => True end →
    (∀ i k, pc = P_reject i k →
      Z.of_nat n - mb_f mb ≤ Z.of_nat (length (omap id (<[idx := proposal]> (results b))))) →
    acs_inv (log ++ [(proposal, idx)])
      (Bkr (bkr_id b) (bkr_f b) (acceptors b) q (<[idx := proposal]> (results b))
         (output b) (fwd b) pc).
Proof.
  intros [] Hp Hq. rewrite Hq in i_nodup0, i_sent0, i_forwarded0. rewrite Hp in i_log0, i_output0.
  assert (Hni : ∀ o, (o, idx) ∉ log).
  { intros o Ho. rewrite fmap_app in i_nodup0. apply list.NoDup_app in i_nodup0 as (_ & Hdis & _).
    apply (Hdis idx); [by apply (list_elem_of_fmap_2 snd _ (o, idx))|]. simpl. by left. }
  destruct (i_sent0 proposal idx) as (Hf & a & Ha & Hr).
  { apply elem_of_app. right. by left. }
  assert (Hidx : (idx < length (results b))%nat) by (apply lookup_lt_Some in Hf; lia).
  destruct (lookup_lt_is_Some_2 _ _ Hidx) as [r Hres].
  assert (r = None) as -> by (destruct r as [x|]; [|done]; destruct (Hni (Some x)); by apply i_accepted0).
  pose proof (accepted_grows (results b) idx proposal Hres) as Hgrow. split; [done|].
  intros pc Hnd Hl Hpc Hfull. split; simpl; try done.
  - by rewrite length_insert.
  - by rewrite <-(assoc_L (++)).
  - intros o k. rewrite <-(assoc_L (++)). apply i_sent0.
  - intros k o [Hin|[= -> ->]%list_elem_of_singleton]%elem_of_app.
    + rewrite list_lookup_insert_ne; [by apply i_results0|]. intros ->. by apply (Hni o).
    + by apply list_lookup_insert_eq.
  - intros k x [(<- & <- & _)|[_ ?]]%list_lookup_insert_Some; apply elem_of_app; [right; by left|left; auto].
  - rewrite length_app. unfold log_length in *. simpl in *. rewrite Hp in i_log0. split; [lia|done].
  - intros k a1 Ha1 Hrej. pose proof (i_reject0 k a1 Ha1 Hrej). unfold getAccepted in *. simpl. lia.
  - intros k Hk. rewrite <-(assoc_L (++)). by apply i_forwarded0.
  - rewrite i_output0. by destruct pc.
Qed.

Lemma rejectProposal_spec (a : proposalAcceptor) :
  let a' := if hasProposed a then a else (rejectProposal a).1 in
  proposer a' = proposer a ∧ input a' = input a ∧ inputChan a' = inputChan a ∧
  pa_output a' = pa_output a ∧ pa_pc a' = pa_pc a ∧ (∀ e, e ∈ aba a' → e ∈ aba a ∨ e = reject).
Proof.
  unfold hasProposed. destruct (proposed a) eqn:Hp; simpl; [split_and!; auto|].
  unfold rejectProposal. destruct (input a) eqn:Hi; simpl; [split_and!; auto|].
  rewrite <-Hi. apply pa_propose_spec.
Qed.

Lemma processResponses_inv `{!Resilient mb} log b b' :
  acs_inv log b → processResponses b = Some b' → ∃ log', acs_inv log' b'.
Proof.
  intros Hi Hstep. unfold processResponses in Hstep. destruct (proc b) as [i|i k| |] eqn:Hp; [| | |done].
  - destruct (resultsChan b) as [|[proposal idx] q] eqn:Hq; [done|].
    destruct (receive_inv log b i proposal idx q Hi Hp Hq) as [_ Hr].
    destruct (i_log _ _ Hi) as [_ Hin]. rewrite Hp in Hin. destruct (i_len _ _ Hi) as (Hla & _).
    case_decide; [|done]. cbn zeta in Hstep. cbn [acceptors getAccepted results bkr_f] in Hstep.
    assert (Hf : int_of_uint (bkr_f b) = mb_f mb).
    { rewrite (i_conf _ _ Hi). apply int_of_uint_small. destruct (rs_arith mb) as (? & ? & ? & _). lia. }
    rewrite Hla, Hf in Hstep.
    exists (log ++ [(proposal, idx)]).
    match type of Hstep with context [if ?c then P_reject _ _ else _] => destruct c eqn:Hc end;
      injection Hstep as <-; apply Hr; try done.
    + intros i' k' _. apply andb_prop in Hc as [_ Hc%Z.eqb_eq]. unfold getAccepted in Hc.
      simpl in Hc. lia.
    + unfold proc_head. by case_decide.
    + by apply proc_head_length.
    + apply proc_head_small.
    + intros i' k'. unfold proc_head. by case_decide.
  - destruct (i_log _ _ Hi) as [_ Hin]. rewrite Hp in Hin. destruct (i_len _ _ Hi) as (Hla & _).
    pose proof (i_full _ _ Hi i k Hp) as Hfull.
    exists log. destruct (acceptors b !! k) as [a|] eqn:Ha; injection Hstep as <-.
    + destruct (rejectProposal_spec a) as (H1 & H2 & H3 & H4 & H5 & H6).
      apply set_proc_inv; [|simpl; by rewrite Hp|done|unfold log_length; simpl; by rewrite Hp|done|done].
      apply (set_acceptor_inv log b k a); try done.
      * intros x Hx. rewrite H2 in Hx. by apply (i_input _ _ Hi k).
      * intros x Hx. by rewrite H2.
      * intros w Hw. apply (acceptor_ok_ext k a); try done. by apply (i_acc _ _ Hi).
      * intros e He. destruct (H6 e He); [by left|right; by right].
    + rewrite Hla. apply set_proc_inv; [done|by rewrite Hp| | |apply proc_head_small|].
      * unfold proc_head. by case_decide.
      * rewrite proc_head_length by done. unfold log_length. by rewrite Hp.
      * intros i' k'. unfold proc_head. by case_decide.
  - destruct (output b) eqn:Ho; [|done]. injection Hstep as <-. exists log.
    destruct Hi. split; simpl; try done.
    + split; [|done]. destruct i_log0 as [-> _]. unfold log_length. simpl. by rewrite Hp.
Qed.

Lemma acs_exec_inv `{!Resilient mb} C e log b b' :
  acs_event_ok C e → acs_inv log b → acs_exec e b = Some b' → ∃ log', acs_inv log' b'.
Proof.
  intros Hok Hi Hex. destruct e; simpl in *.
  - destruct (receiveInput x p b) as [[b1 err]| |] eqn:Hr; try done. injection Hex as <-.
    exists log. by eapply receiveInput_inv.
  - exists log. by eapply acceptor_decide_inv.
  - exists log. by eapply acceptor_step_inv.
  - exists log. by eapply waitAcceptorResponse_inv.
  - by eapply processResponses_inv.
Qed.

(** ** The network invariant *)

(** What a step does to acceptor [k]. *)
Definition acceptor_le (e : acs_event) (k : nat) (a a' : proposalAcceptor) : Prop :=
  aba a ⊆ aba a' ∧ pa_abaId a' = pa_abaId a ∧ (pa_pc a = W_decision → pa_pc a' = W_decision ∨ e = EDecide k).

Definition acceptors_le (e : acs_event) (b b' : bkr) : Prop :=
  length (acceptors b') = length (acceptors b) ∧
  ∀ k a a', acceptors b !! k = Some a → acceptors b' !! k = Some a' → acceptor_le e k a a'.

Lemma acceptors_le_refl e b b' : acceptors b' = acceptors b → acceptors_le e b b'.
Proof.
  unfold acceptors_le. intros ->. split; [done|]. intros k a a' Ha Ha'. rewrite Ha in Ha'. injection Ha' as <-.
  split_and!; [done|done|by left].
Qed.

Lemma acceptors_le_insert e b b' k a a' :
  acceptors b !! k = Some a → acceptor_le e k a a' →
  acceptors b' = <[k := a']> (acceptors b) → acceptors_le e b b'.
Proof.
  unfold acceptors_le. intros Ha Hle ->. split; [by rewrite length_insert|].
  intros k1 a1 a1' Ha1 [(<- & <- & _)|[_ Ha1']]%list_lookup_insert_Some.
  - rewrite Ha in Ha1. by injection Ha1 as <-.
  - rewrite Ha1 in Ha1'. injection Ha1' as <-. split_and!; [done|done|by left].
Qed.

Lemma pa_propose_le est a :
  aba a ⊆ aba (pa_propose est a) ∧ pa_abaId (pa_propose est a) = pa_abaId a ∧ pa_pc (pa_propose est a) = pa_pc a.
Proof. unfold pa_propose. destruct (proposed a); simpl; split_and!; set_solver. Qed.

Lemma acs_exec_le e b b' : acs_exec e b = Some b' → acceptors_le e b b'.
Proof.
  destruct e as [x p|k|k|k|]; simpl; intros Hex.
  - destruct (receiveInput x p b) as [[b1 err]| |] eqn:Hr; try done. injection Hex as <-.
    unfold receiveInput in Hr. destruct (getAcceptor p b) as [[k a]|] eqn:Hg;
      [|injection Hr as <- <-; by apply acceptors_le_refl].
    apply getAcceptor_spec in Hg as [Hk Hp]. unfold submitInput in Hr.
    destruct (input a); [|destruct (inputChan a); [|done]]; injection Hr as <- <-.
    + apply acceptors_le_refl. simpl. by rewrite list_insert_id.
    + eapply acceptors_le_insert; [done| |done].
      set (a1 := ProposalAcceptor _ _ _ _ _ _ _ _). destruct (pa_propose_le accept a1) as (H1 & H2 & H3).
      split_and!; [done|done|]. rewrite H3. by left.
  - unfold acceptor_decide in Hex. apply bind_Some in Hex as (a & Ha & Hex).
    apply bind_Some in Hex as (a' & Hd & [= <-]). apply (acceptors_le_insert _ _ _ k a a'); try done.
    unfold waitResponse_decide in Hd. destruct (pa_pc a); try done. injection Hd as <-.
    split_and!; [done|done|by right].
  - unfold acceptor_step in Hex. apply bind_Some in Hex as (a & Ha & Hex).
    apply bind_Some in Hex as (a' & Hd & [= <-]). apply (acceptors_le_insert _ _ _ k a a'); try done.
    unfold waitResponse_step in Hd. destruct (pa_pc a) eqn:Hpc; try done; case_match; try done;
      injection Hd as <-; split_and!; try done; congruence.
  - unfold waitAcceptorResponse in Hex. apply bind_Some in Hex as (w & Hw & Hex).
    apply bind_Some in Hex as (a & Ha & Hex). destruct w as [|o|]; [| |done].
    + destruct (pa_output a) as [|o q]; [done|]. injection Hex as <-.
      eapply acceptors_le_insert; [done| |done]. split_and!; [done|done|by left].
    + case_decide; [|done]. injection Hex as <-. by apply acceptors_le_refl.
  - unfold processResponses in Hex. destruct (proc b) as [i|i k| |] eqn:Hp; [| | |done].
    + destruct (resultsChan b) as [|[o idx] q]; [done|]. case_decide; [|done].
      injection Hex as <-. by apply acceptors_le_refl.
    + destruct (acceptors b !! k) as [a|] eqn:Ha; injection Hex as <-; [|by apply acceptors_le_refl].
      eapply acceptors_le_insert; [done| |done]. destruct (pa_propose_le reject a) as (H1 & H2 & H3).
      unfold hasProposed, rejectProposal. destruct (proposed a); [|destruct (input a)]; simpl;
        (split_and!; [done|done|]); rewrite ?H3; by left.
    + destruct (output b); [|done]. injection Hex as <-. by apply acceptors_le_refl.
Qed.

(** What has been output stays. *)
Lemma acs_exec_output e b b' l : acs_exec e b = Some b' → l ∈ output b → l ∈ output b'.
Proof.
  destruct e as [x p|k|k|k|]; simpl; intros Hex Hl.
  - destruct (receiveInput x p b) as [[b1 err]| |] eqn:Hr; try done. injection Hex as <-.
    unfold receiveInput in Hr. destruct (getAcceptor p b) as [[k a]|]; [|by injection Hr as <- <-].
    destruct (submitInput x a) as [[a' e]| |]; try done. by injection Hr as <- <-.
  - unfold acceptor_decide in Hex. by apply bind_Some in Hex as (a & Ha & (a' & Hd & [= <-])%bind_Some).
  - unfold acceptor_step in Hex. by apply bind_Some in Hex as (a & Ha & (a' & Hd & [= <-])%bind_Some).
  - unfold waitAcceptorResponse in Hex. apply bind_Some in Hex as (w & Hw & Hex).
    apply bind_Some in Hex as (a & Ha & Hex). destruct w as [|o|]; [| |done].
    + destruct (pa_output a) as [|o q]; [done|]. by injection Hex as <-.
    + case_decide; [|done]. by injection Hex as <-.
  - unfold processResponses in Hex. destruct (proc b) as [i|i k| |]; [| | |done].
    + destruct (resultsChan b) as [|[o idx] q]; [done|]. case_decide; [|done]. by injection Hex as <-.
    + by destruct (acceptors b !! k) as [a|]; injection Hex as <-.
    + destruct (output b); [by apply not_elem_of_nil in Hl|done].
Qed.

(** A decision of acceptor [k] was received somewhere. *)
Definition backed (C : acs_config) (k : nat) : Prop :=
  ∃ i, acs_correct i ∧ proposed_to (C i) k (dec k).

Definition net_inv (C : acs_config) : Prop :=
  (∀ j, acs_correct j → ∃ log, acs_inv log (C j)) ∧
  (∀ j k a, acs_correct j → acceptors (C j) !! k = Some a → pa_pc a ≠ W_decision → backed C k).

Lemma proposed_to_le e b b' k est : acceptors_le e b b' → proposed_to b k est → proposed_to b' k est.
Proof.
  intros [Hl Hle] (a & Ha & Hest).
  destruct (lookup_lt_is_Some_2 (acceptors b') k) as [a' Ha'].
  { rewrite Hl. by apply lookup_lt_Some in Ha. }
  exists a'. split; [done|]. destruct (Hle k a a' Ha Ha') as [Hs _]. by apply Hs.
Qed.

Lemma backed_le e C j b k :
  acceptors_le e (C j) b → backed C k → backed (<[j := b]> C) k.
Proof.
  intros Hle (i & Hi & Hp). exists i. split; [done|].
  destruct (decide (i = j)) as [->|].
  - rewrite fn_lookup_insert. by eapply proposed_to_le.
  - by rewrite fn_lookup_insert_ne.
Qed.

Lemma acs_net_inv_init : net_inv acs_net_init.
Proof.
  split.
  - intros j _. exists []. apply acs_inv_init.
  - intros j k a _ (p & _ & ->)%computeAcceptors_lookup. done.
Qed.

Lemma acs_net_inv_step `{!Resilient mb} C C' : net_inv C → acs_net_step C C' → net_inv C'.
Proof.
  intros [Hinv Hback] [j e b Hj Hok Hex]. pose proof (acs_exec_le e _ _ Hex) as Hle. split.
  - intros i Hi. destruct (decide (i = j)) as [->|]; [|rewrite fn_lookup_insert_ne by done; auto].
    rewrite fn_lookup_insert. destruct (Hinv j Hj) as [log Hlog]. by eapply acs_exec_inv.
  - intros i k a' Hi Ha' Hpc. apply (backed_le e); [done|].
    destruct (decide (i = j)) as [->|];
      [|rewrite fn_lookup_insert_ne in Ha' by done; by eapply (Hback i)].
    rewrite fn_lookup_insert in Ha'. destruct Hle as [Hl Hle].
    destruct (lookup_lt_is_Some_2 (acceptors (C j)) k) as [a Ha].
    { rewrite <-Hl. by apply lookup_lt_Some in Ha'. }
    destruct (Hle k a a' Ha Ha') as (_ & _ & Hd). destruct (pa_pc a) eqn:Hpa;
      try (by apply (Hback j k a); [..|rewrite Hpa]).
    destruct (Hd eq_refl) as [?| ->]; [done|]. exact Hok.
Qed.

Lemma acs_net_inv_reachable `{!Resilient mb} C : acs_reachable C → net_inv C.
Proof.
  revert C. apply (rtc_ind_r (R := acs_net_step) net_inv); [apply acs_net_inv_init|].
  intros C C' _ Hs Hok. by eapply acs_net_inv_step.
Qed.

(** ** What an output contains *)

Lemma omap_id_le (l l' : list (option bytes)) :
  length l = length l' → (∀ k x, l !! k = Some (Some x) → ∃ y, l' !! k = Some (Some y)) →
  (length (omap Datatypes.id l) ≤ length (omap Datatypes.id l'))%nat.
Proof.
  revert l'. induction l as [|o l IH]; intros [|o' l'] Hl Hs; try done.
  assert (Hle : (length (omap Datatypes.id l) ≤ length (omap Datatypes.id l'))%nat).
  { apply IH; [by injection Hl|]. intros k x. apply (Hs (S k) x). }
  destruct o as [x|].
  - destruct (Hs 0%nat x eq_refl) as [y [= ->]]. by apply le_n_S.
  - destruct o'; [by apply le_S|done].
Qed.

Lemma omap_id_length (l : list (option bytes)) : (length (omap Datatypes.id l) ≤ length l)%nat.
Proof. induction l as [|[x|] l IH]; [done|by apply le_n_S|by apply le_S]. Qed.

Lemma omap_id_full (l : list (option bytes)) :
  (∀ k, (k < length l)%nat → ∃ y, l !! k = Some (Some y)) → length (omap Datatypes.id l) = length l.
Proof.
  induction l as [|o l IH]; intros Hs; [done|].
  destruct (Hs 0%nat) as [y [= ->]]; [simpl; lia|]. simpl. f_equal. apply IH.
  intros k Hk. apply (Hs (S k)). simpl. lia.
Qed.

(** A finished instance has processed the response of every acceptor. *)
Lemma finished_results log b k :
  acs_inv log b → proc b = P_done → (k < n)%nat →
  fwd b !! k = Some F_done ∧
  ∃ a o, acceptors b !! k = Some a ∧ results b !! k = Some o ∧ resp_ok k a o.
Proof.
  intros [] Hd Hk. unfold log_length in i_log0. rewrite Hd in i_log0. destruct i_log0 as [Hlen _].
  assert (Hin : k ∈ log.*2).
  { assert (Hnd : NoDup log.*2).
    { rewrite fmap_app in i_nodup0. by apply list.NoDup_app in i_nodup0 as (? & _ & _). }
    assert (Hsub : log.*2 ⊆ seq 0 n).
    { intros k' ([o k1] & Heq & Ho)%list_elem_of_fmap. simpl in Heq. subst k1.
      destruct (i_sent0 o k') as [Hf _]; [apply elem_of_app; by left|].
      apply elem_of_seq. apply lookup_lt_Some in Hf. lia. }
    assert (Hperm : log.*2 ≡ₚ seq 0 n).
    { apply submseteq_length_Permutation; [by apply NoDup_submseteq|].
      by rewrite length_fmap, length_seq, Hlen. }
    rewrite Hperm. apply elem_of_seq. lia. }
  apply list_elem_of_fmap in Hin as ([o k1] & Heq & Ho). simpl in Heq. subst k1.
  destruct (i_sent0 o k) as (? & a & Ha & Hr); [apply elem_of_app; by left|].
  split; [done|]. exists a, o. split_and!; [done|by apply i_results0|done].
Qed.

(** The result of acceptor [k] is fixed by the decision and the broadcast. *)
Lemma finished_result log b k p :
  acs_inv log b → proc b = P_done → ps !! k = Some p →
  ∃ o, results b !! k = Some o ∧
    ((dec k ≠ accept ∧ o = None) ∨ (dec k = accept ∧ ∃ x, o = Some x ∧ (p, x) ∈ bc)).
Proof.
  intros Hi Hd Hp. destruct (finished_results log b k Hi Hd) as (_ & a & o & Ha & Ho & Hr).
  { by apply lookup_lt_Some in Hp. }
  exists o. split; [done|]. destruct Hr as [?|(Hdec & [x ->] & Hin)]; [by left|].
  right. split; [done|]. exists x. split; [done|].
  pose proof (i_proposer _ _ Hi k a Ha) as Hp'. rewrite Hp in Hp'. injection Hp' as ->.
  by apply (i_input _ _ Hi k).
Qed.

Lemma outputs_done `{!Resilient mb} C j l :
  acs_reachable C → acs_correct j → AcsOutputs C j l →
  ∃ log, acs_inv log (C j) ∧ proc (C j) = P_done ∧ l = getAccepted (C j).
Proof.
  intros Hr Hj Ho. destruct (acs_net_inv_reachable C Hr) as [Hinv _].
  destruct (Hinv j Hj) as [log Hlog]. exists log. split; [done|].
  unfold AcsOutputs in Ho. rewrite (i_output _ _ Hlog) in Ho.
  destruct (proc (C j)); try by apply not_elem_of_nil in Ho. by apply list_elem_of_singleton in Ho.
Qed.

Lemma acs_agree `{!Resilient mb} C i j l l' :
  acs_reachable C → (∀ p x y, (p, x) ∈ bc → (p, y) ∈ bc → x = y) →
  acs_correct i → acs_correct j → AcsOutputs C i l → AcsOutputs C j l' → l = l'.
Proof.
  intros Hr Huniq Hi Hj Ho Ho'.
  destruct (outputs_done C i l Hr Hi Ho) as (log & Hinv & Hd & ->).
  destruct (outputs_done C j l' Hr Hj Ho') as (log' & Hinv' & Hd' & ->).
  unfold getAccepted. f_equal. destruct (i_len _ _ Hinv) as (_ & Hl & _).
  destruct (i_len _ _ Hinv') as (_ & Hl' & _).
  apply (list_eq_same_length _ _ n); [done|done|]. intros k o o' Hk Hres Hres'.
  destruct (lookup_lt_is_Some_2 ps k Hk) as [p Hp].
  destruct (finished_result _ _ k p Hinv Hd Hp) as (o1 & H1 & Hc1).
  destruct (finished_result _ _ k p Hinv' Hd' Hp) as (o2 & H2 & Hc2).
  rewrite Hres in H1. rewrite Hres' in H2. injection H1 as <-. injection H2 as <-.
  destruct Hc1 as [[? ->]|(Hdec & x & -> & Hx)], Hc2 as [[? ->]|(? & y & -> & Hy)]; try done.
  by rewrite (Huniq p x y).
Qed.

(** Accepted results have an accepting decision. *)
Lemma accepted_dec log b k x : acs_inv log b → results b !! k = Some (Some x) → dec k = accept.
Proof.
  intros [] Hres. apply i_accepted0 in Hres.
  destruct (i_sent0 (Some x) k) as (_ & a & _ & [[_ ?]|[? _]]); [apply elem_of_app; by left|done|done].
Qed.

Lemma acs_size_ok `{!Resilient mb} C j l :
  acs_reachable C → acs_correct j → AcsOutputs C j l →
  Z.of_nat n - mb_f mb ≤ Z.of_nat (length l) ≤ Z.of_nat n.
Proof.
  intros Hr Hj Ho. destruct (outputs_done C j l Hr Hj Ho) as (log & Hinv & Hd & ->).
  destruct (acs_net_inv_reachable C Hr) as [Hall Hback]. destruct (i_len _ _ Hinv) as (Hla & Hlr & _).
  pose proof (rs_arith mb) as Hf. unfold getAccepted.
  assert (Hall_dec : ∀ k, (k < n)%nat → dec k = accept → ∃ y, results (C j) !! k = Some (Some y)).
  { intros k Hk Hdec. destruct (lookup_lt_is_Some_2 ps k Hk) as [p Hp].
    destruct (finished_result _ _ k p Hinv Hd Hp) as (o & Hres & [[? _]|(_ & x & -> & _)]); [done|eauto]. }
  assert (Hup : (length (omap Datatypes.id (results (C j))) ≤ n)%nat).
  { rewrite <-Hlr. apply omap_id_length. }
  split; [|lia].
  destruct (decide (Forall (λ k, dec k = accept) (seq 0 n))) as [Hacc|Hrej].
  - rewrite omap_id_full, Hlr; [lia|]. intros k Hk. apply Hall_dec; [lia|].
    rewrite Forall_forall in Hacc. apply Hacc, elem_of_seq. lia.
  - apply not_Forall_Exists in Hrej; [|apply _]. apply Exists_exists in Hrej as (k & Hk & Hne).
    apply elem_of_seq in Hk. simpl in Hne.
    destruct (finished_results _ _ k Hinv Hd ltac:(lia)) as (Hfw & a & o & Ha & _ & _).
    destruct (Hback j k a Hj Ha) as (i & Hi & a' & Ha' & Hprop).
    { intros Hw. pose proof (i_acc _ _ Hinv k a F_done Ha Hfw) as [_ Hok]. rewrite Hw in Hok.
      by destruct Hok as (_ & _ & ?). }
    destruct (Hall i Hi) as [log' Hinv'].
    destruct (i_aba _ _ Hinv' k a' (dec k) Ha' Hprop) as [?|Hdec]; [done|]. rewrite Hdec in Hprop.
    pose proof (i_reject _ _ Hinv' k a' Ha' Hprop) as Hge. unfold getAccepted in Hge.
    destruct (i_len _ _ Hinv') as (_ & Hlr' & _).
    assert (length (omap Datatypes.id (results (C i))) ≤
            length (omap Datatypes.id (results (C j))))%nat; [|lia].
    apply omap_id_le; [lia|]. intros k' x Hx. apply Hall_dec; [|by eapply accepted_dec].
    apply lookup_lt_Some in Hx. lia.
Qed.

Lemma acs_content `{!Resilient mb} C j l x :
  acs_reachable C → acs_correct j → AcsOutputs C j l → x ∈ l → ∃ p, p ∈ ps ∧ (p, x) ∈ bc.
Proof.
  intros Hr Hj Ho Hx. destruct (outputs_done C j l Hr Hj Ho) as (log & Hinv & Hd & ->).
  unfold getAccepted in Hx. apply list_elem_of_omap in Hx as (o & Hin & Heq).
  cbn in Heq. subst o.
  apply list_elem_of_lookup in Hin as [k Hk]. destruct (i_len _ _ Hinv) as (_ & Hlr & _).
  destruct (lookup_lt_is_Some_2 ps k) as [p Hp].
  { apply lookup_lt_Some in Hk. lia. }
  destruct (finished_result _ _ k p Hinv Hd Hp) as (o' & Hres & Hc). rewrite Hk in Hres.
  injection Hres as <-. destruct Hc as [[_ ?]|(_ & y & [= <-] & ?)]; [done|].
  exists p. split; [|done]. by eapply list_elem_of_lookup_2.
Qed.
End network.
