(* ===== verification/AcsCorrect.v ===== *)
(** * Correctness of the common subset

    The safety theorems on [bkr], with runs of four processes (one faulty), and
    the run of a proposer that broadcasts twice. *)

From stdpp Require Import base tactics numbers list fin_sets gmap functions relations.
From Stdlib Require Import Init.Byte.
From S2P Require Import Prelude Utils Acs AcsNetwork.

Local Open Scope Z_scope.

(** ** Executing schedules *)

Section schedules.
Context (mb : membership UUID) (bid : UUID) (ps : list UUID).
Context (bc : list (UUID * bytes)) (dec : nat → Z).

(** The check of a decision looks for the proposal among the given processes. *)
Definition acs_event_check (C : acs_config) (e : acs_event) : bool :=
  match e with
  | EInput x p => bool_decide ((p, x) ∈ bc)
  | EDecide k => existsb (λ i, bool_decide (acs_correct mb i) &&
      match acceptors (C i) !! k with Some a => bool_decide (dec k ∈ aba a) | None => false end) ps
  | _ => true
  end.

Lemma acs_event_check_ok C e : acs_event_check C e = true → acs_event_ok mb bc dec C e.
Proof.
  destruct e; simpl; try done; [by intros ?%bool_decide_eq_true_1|].
  intros (i & _ & [Hi%bool_decide_eq_true_1 Hp]%andb_prop)%existsb_exists. exists i. split; [done|].
  unfold proposed_to. destruct (acceptors (C i) !! k) as [a|]; [|done].
  exists a. split; [done|]. by apply bool_decide_eq_true_1 in Hp.
Qed.

Fixpoint acs_schedule (l : list (UUID * acs_event)) (C : acs_config) : option acs_config :=
  match l with
  | [] => Some C
  | (j, e) :: l =>
    if bool_decide (acs_correct mb j) && acs_event_check C e
    then b ← acs_exec dec e (C j); acs_schedule l (<[j := b]> C) else None
  end.

Lemma acs_schedule_sound l C C' :
  acs_schedule l C = Some C' → rtc (acs_net_step mb bc dec) C C'.
Proof.
  revert C. induction l as [|[j e] l IH]; intros C; simpl.
  - intros [= <-]. constructor.
  - destruct (bool_decide _ && _) eqn:Hd; [|done].
    apply andb_prop in Hd as [Hj%bool_decide_eq_true_1 He%acs_event_check_ok].
    intros (b & Hex & Hr)%bind_Some. eapply rtc_l; [by eapply acs_net_event|by apply IH].
Qed.

Definition acs_config_of (l : list (UUID * acs_event)) : acs_config :=
  default (acs_net_init mb bid ps) (acs_schedule l (acs_net_init mb bid ps)).

Lemma acs_config_reachable l :
  (if acs_schedule l (acs_net_init mb bid ps) is Some _ then true else false) = true →
  acs_reachable mb bid ps bc dec (acs_config_of l).
Proof.
  unfold acs_config_of. destruct (acs_schedule l (acs_net_init mb bid ps)) as [C|] eqn:E; [|done].
  intros _. by apply acs_schedule_sound in E.
Qed.

Definition outputs_check (C : acs_config) (j : UUID) (l : list bytes) : bool :=
  bool_decide (l ∈ output (C j)).
Lemma outputs_check_ok C j l : outputs_check C j l = true → AcsOutputs C j l.
Proof. apply bool_decide_eq_true_1. Qed.
End schedules.

Module AcsExample.
Import Example4.

Definition ps : list UUID := [p1; p2; p3; p4].
Definition x1 : bytes := ["a"%byte].
Definition x2 : bytes := ["b"%byte].
Definition x3 : bytes := ["c"%byte].
Definition x4 : bytes := ["d"%byte].
Definition bc : list (UUID * bytes) := [(p1, x1); (p2, x2); (p3, x3)].
(** The proposals of the first three are accepted. *)
Definition dec (k : nat) : Z := if decide (k < 3)%nat then accept else reject.

(** Acceptor [k] accepts at [j] and its response is processed. *)
Definition accepts (j : UUID) (k : nat) (x : bytes) (p : UUID) : list (UUID * acs_event) :=
  (λ e, (j, e)) <$>
    [EInput x p; EDecide k; EWait k; EWait k; EForward k; EForward k; EProcess].
(** The other proposers are rejected, and acceptor 3 decides so. *)
Definition rejects (j : UUID) : list (UUID * acs_event) :=
  (λ e, (j, e)) <$>
    [EProcess; EProcess; EProcess; EProcess; EProcess;
     EDecide 3; EWait 3; EForward 3; EForward 3; EProcess; EProcess].

Definition run : list (UUID * acs_event) :=
  accepts p1 0 x1 p1 ++ accepts p2 2 x3 p3 ++ accepts p1 1 x2 p2 ++ accepts p2 0 x1 p1 ++
  accepts p1 2 x3 p3 ++ accepts p2 1 x2 p2 ++ rejects p2 ++ rejects p1.
Definition config : acs_config := acs_config_of mb4 uuid_Nil ps bc dec run.

Lemma acs_run_reachable : acs_reachable mb4 uuid_Nil ps bc dec config.
Proof. apply acs_config_reachable. vm_compute. reflexivity. Qed.
Lemma acs_run_outputs_p1 : AcsOutputs config p1 [x1; x2; x3].
Proof. apply outputs_check_ok. vm_compute. reflexivity. Qed.
Lemma acs_run_outputs_p2 : AcsOutputs config p2 [x1; x2; x3].
Proof. apply outputs_check_ok. vm_compute. reflexivity. Qed.
Lemma acs_run_correct_p1 : acs_correct mb4 p1.
Proof. split; simpl; set_solver. Qed.
Lemma acs_run_correct_p2 : acs_correct mb4 p2.
Proof. split; simpl; set_solver. Qed.
Lemma bc_unique p x y : (p, x) ∈ bc → (p, y) ∈ bc → x = y.
Proof. unfold bc, p1, p2, p3. set_solver. Qed.

(** The faulty [p4] broadcasts twice; [p1] receives one content first, [p2]
    the other. *)
Definition bc2 : list (UUID * bytes) := (p4, x1) :: (p4, x4) :: bc.
Definition dec2 (k : nat) : Z := if decide (k = 0)%nat then reject else accept.
Definition run2 : list (UUID * acs_event) :=
  accepts p1 3 x1 p4 ++ accepts p1 1 x2 p2 ++ accepts p1 2 x3 p3 ++
  accepts p2 3 x4 p4 ++ accepts p2 1 x2 p2 ++ accepts p2 2 x3 p3 ++
  (j ← [p1; p2]; (λ e, (j, e)) <$>
    [EProcess; EProcess; EProcess; EProcess; EProcess;
     EDecide 0; EWait 0; EForward 0; EForward 0; EProcess; EProcess]).
Definition config2 : acs_config := acs_config_of mb4 uuid_Nil ps bc2 dec2 run2.

Lemma reachable2 : acs_reachable mb4 uuid_Nil ps bc2 dec2 config2.
Proof. apply acs_config_reachable. vm_compute. reflexivity. Qed.
Lemma outputs2_p1 : AcsOutputs config2 p1 [x2; x3; x1].
Proof. apply outputs_check_ok. vm_compute. reflexivity. Qed.
Lemma outputs2_p2 : AcsOutputs config2 p2 [x2; x3; x4].
Proof. apply outputs_check_ok. vm_compute. reflexivity. Qed.
End AcsExample.
Import Example4 AcsExample.

(** ** Theorems *)

(** C6: agreement.  When no proposer has two contents delivered, the outputs
    of two correct processes are equal: the same proposals in the same order. *)
Theorem acs_agreement (mb : membership UUID) `{!Resilient mb} bid ps bc dec (C : acs_config) i j l l' :
  acs_reachable mb bid ps bc dec C →
  (∀ p x y, (p, x) ∈ bc → (p, y) ∈ bc → x = y) →
  acs_correct mb i → acs_correct mb j → AcsOutputs C i l → AcsOutputs C j l' → l = l'.
Proof. by apply acs_agree. Qed.

Lemma acs_agreement_witness :
  AcsOutputs config p1 [x1; x2; x3] ∧ AcsOutputs config p2 [x1; x2; x3] ∧ [x1; x2; x3] = [x1; x2; x3].
Proof.
  split; [exact acs_run_outputs_p1|]. split; [exact acs_run_outputs_p2|].
  exact (acs_agreement mb4 uuid_Nil ps bc dec config p1 p2 _ _ acs_run_reachable bc_unique
    acs_run_correct_p1 acs_run_correct_p2 acs_run_outputs_p1 acs_run_outputs_p2).
Defined.

(** C10: size.  An output holds at least [n - f] and at most [n] proposals,
    whatever the faulty processes do: a rejection is only proposed after
    [n - f] proposals were accepted. *)
Theorem acs_size (mb : membership UUID) `{!Resilient mb} bid ps bc dec (C : acs_config) j l :
  acs_reachable mb bid ps bc dec C → acs_correct mb j → AcsOutputs C j l →
  Z.of_nat (length ps) - mb_f mb ≤ Z.of_nat (length l) ≤ Z.of_nat (length ps).
Proof. by apply acs_size_ok. Qed.

Lemma acs_size_witness : AcsOutputs config p1 [x1; x2; x3] ∧ 4 - 1 ≤ 3 ≤ 4.
Proof.
  split; [exact acs_run_outputs_p1|].
  exact (acs_size mb4 uuid_Nil ps bc dec config p1 _ acs_run_reachable acs_run_correct_p1 acs_run_outputs_p1).
Defined.

(** Integrity.  Every proposal of an output was delivered from one of the
    proposers. *)
Theorem acs_integrity (mb : membership UUID) `{!Resilient mb} bid ps bc dec (C : acs_config) j l x :
  acs_reachable mb bid ps bc dec C → acs_correct mb j → AcsOutputs C j l → x ∈ l →
  ∃ p, p ∈ ps ∧ (p, x) ∈ bc.
Proof. by apply acs_content. Qed.

Lemma acs_integrity_witness : AcsOutputs config p1 [x1; x2; x3] ∧ ∃ p, p ∈ ps ∧ (p, x2) ∈ bc.
Proof.
  split; [exact acs_run_outputs_p1|].
  apply (acs_integrity mb4 uuid_Nil ps bc dec config p1 [x1; x2; x3] x2 acs_run_reachable acs_run_correct_p1 acs_run_outputs_p1).
  right. left.
Defined.

(** C22: a proposer that broadcasts twice breaks agreement.  The instance takes
    the first content it receives from a proposer, and the reliable broadcast
    does not order two broadcasts of one sender, so two correct processes can
    output different sets although every layer below keeps its promise. *)
Theorem acs_equivocation :
  ∃ (C : acs_config) l l',
    acs_reachable mb4 uuid_Nil ps bc2 dec2 C ∧ acs_correct mb4 p1 ∧ acs_correct mb4 p2 ∧
    AcsOutputs C p1 l ∧ AcsOutputs C p2 l' ∧ l ≠ l'.
Proof.
  exists config2, [x2; x3; x1], [x2; x3; x4]. split; [exact reachable2|].
  split; [exact acs_run_correct_p1|]. split; [exact acs_run_correct_p2|]. split; [exact outputs2_p1|].
  split; [exact outputs2_p2|done].
Qed.
