(* ===== verification/AcsLive.v ===== *)
(** * Progress of the common subset

    Once every binary agreement has decided and the accepted proposals have
    arrived, the goroutines of an instance bring it to its output, and they do
    so in a bounded number of steps; when [n - f] proposals are accepted, every
    agreement gets a proposal. *)

From stdpp Require Import base tactics numbers list fin_sets gmap functions relations.
From Stdlib Require Import Init.Byte.
From S2P Require Import Prelude Utils Acs AcsNetwork AcsCorrect.

Local Open Scope Z_scope.

(** ** The internal steps and their measure *)

(** Steps that need no message: the goroutines of the instance. *)
Definition internal (e : acs_event) : bool :=
  match e with EWait _ | EForward _ | EProcess => true | _ => false end.

Section progress.
Context (mb : membership UUID) `{!Resilient mb} (bid : UUID) (ps : list UUID).
Context (bc : list (UUID * bytes)) (dec : nat → Z).

#[local] Abbreviation n := (length ps).
#[local] Abbreviation inv := (acs_inv mb ps bc dec).

Inductive internal_step (b b' : bkr) : Prop :=
| internal_intro e : internal e = true → acs_exec dec e b = Some b' → internal_step b b'.

Definition resp_weight (a : proposalAcceptor) : nat :=
  match pa_pc a with W_decision => 3 | W_input => 2 | W_send _ => 1 | W_done => 0 end.
Definition fwd_weight (w : fwd_pc) : nat :=
  match w with F_wait => 2 | F_send _ => 1 | F_done => 0 end.
Definition proc_weight (m : nat) (pc : proc_pc) : nat :=
  match pc with
  | P_recv i => (m - i) * (m + 2) + 1
  | P_reject i k => (m - S i) * (m + 2) + 2 + (m - k)
  | P_output => 1
  | P_done => 0
  end.
Definition acs_measure (b : bkr) : nat :=
  sum_list_with resp_weight (acceptors b) + sum_list_with fwd_weight (fwd b) +
  proc_weight (length (acceptors b)) (proc b).

Lemma sum_insert {A} (f : A → nat) l k x y :
  l !! k = Some x → (sum_list_with f (<[k := y]> l) + f x = sum_list_with f l + f y)%nat.
Proof.
  revert k. induction l as [|z l IH]; intros [|k] Hk; simpl in *; try done.
  - injection Hk as ->. lia.
  - specialize (IH k Hk). lia.
Qed.

Lemma proc_head_weight i m : (i < m)%nat → (proc_weight m (proc_head (S i) m) ≤ (m - S i) * (m + 2) + 1)%nat.
Proof. intros. unfold proc_head. case_decide; simpl; lia. Qed.

Lemma measure_acceptor b k a a' :
  acceptors b !! k = Some a → (resp_weight a' < resp_weight a)%nat →
  (acs_measure (set_acceptors (<[k := a']> (acceptors b)) b) < acs_measure b)%nat.
Proof.
  intros Ha Hw. unfold acs_measure. simpl. rewrite length_insert.
  pose proof (sum_insert resp_weight _ k a a' Ha). lia.
Qed.

(** Every internal step decreases the measure. *)
Lemma internal_decreases log b b' :
  inv log b → internal_step b b' → (acs_measure b' < acs_measure b)%nat.
Proof.
  intros Hi [e He Hex]. destruct e as [|k|k|k|]; try done; simpl in Hex.
  - unfold acceptor_step in Hex. apply bind_Some in Hex as (a & Ha & Hex).
    apply bind_Some in Hex as (a' & Hd & [= <-]). apply (measure_acceptor b k a); [done|].
    unfold waitResponse_step in Hd. unfold resp_weight.
    destruct (pa_pc a); try done; case_match; try done; injection Hd as <-; simpl; lia.
  - unfold waitAcceptorResponse in Hex. apply bind_Some in Hex as (w & Hw & Hex).
    apply bind_Some in Hex as (a & Ha & Hex). unfold acs_measure. destruct w as [|o|]; [| |done].
    + destruct (pa_output a) as [|o q]; [done|]. injection Hex as <-. simpl. rewrite length_insert.
      pose proof (sum_insert resp_weight _ k a (pa_set (inputChan a) q (pa_pc a) a) Ha) as H1.
      pose proof (sum_insert fwd_weight _ k _ (F_send o) Hw) as H2. unfold resp_weight in H1 at 2 4.
      simpl in H1, H2. fold (resp_weight a) in H1. lia.
    + case_decide; [|done]. injection Hex as <-. simpl.
      pose proof (sum_insert fwd_weight _ k _ F_done Hw) as H2. simpl in H2. lia.
  - unfold processResponses in Hex. destruct (i_log _ _ _ _ _ _ Hi) as [_ Hpc].
    destruct (i_len _ _ _ _ _ _ Hi) as (Hla & _). rewrite <-Hla in Hpc. unfold acs_measure.
    destruct (proc b) as [i|i k| |] eqn:Hp; [| | |done].
    + destruct (resultsChan b) as [|[o idx] q]; [done|]. case_decide; [|done]. cbn zeta in Hex.
      match type of Hex with context [if ?c then P_reject _ _ else _] => destruct c end;
        injection Hex as <-; simpl; [|pose proof (proc_head_weight i _ Hpc)];
        replace (length (acceptors b) - i)%nat with (S (length (acceptors b) - S i)) by lia; simpl; lia.
    + destruct (acceptors b !! k) as [a|] eqn:Ha; injection Hex as <-; simpl.
      * rewrite length_insert.
        pose proof (sum_insert resp_weight _ k a (if hasProposed a then a else (rejectProposal a).1) Ha) as H1.
        destruct (rejectProposal_spec a) as (_ & _ & _ & _ & H5 & _). unfold resp_weight in H1 at 2 4.
        rewrite H5 in H1. apply lookup_lt_Some in Ha. lia.
      * pose proof (proc_head_weight i _ Hpc). lia.
    + destruct (output b); [|done]. injection Hex as <-. simpl. lia.
Qed.

Lemma internal_inv log b b' : inv log b → internal_step b b' → ∃ log', inv log' b'.
Proof.
  intros Hi [e He Hex]. eapply (acs_exec_inv mb ps bc dec (λ _, b)); [|exact Hi|exact Hex].
  by destruct e.
Qed.

(** Every agreement has decided, and the accepted proposals have arrived. *)
Definition ready (b : bkr) : Prop :=
  ∀ k a, acceptors b !! k = Some a → pa_pc a ≠ W_decision ∧ (dec k = accept → is_Some (input a)).

Lemma ready_insert b b' k a a' :
  ready b → acceptors b !! k = Some a → acceptors b' = <[k := a']> (acceptors b) →
  pa_pc a' ≠ W_decision → input a' = input a → ready b'.
Proof.
  intros Hr Ha Heq Hpc Hin k1 a1. rewrite Heq.
  intros [(<- & <- & _)|[_ Ha1]]%list_lookup_insert_Some; [|by apply Hr].
  split; [done|]. rewrite Hin. by apply (Hr k a Ha).
Qed.

Lemma ready_step b b' : ready b → internal_step b b' → ready b'.
Proof.
  intros Hr [e He Hex]. destruct e as [|k|k|k|]; try done; simpl in Hex.
  - unfold acceptor_step in Hex. apply bind_Some in Hex as (a & Ha & Hex).
    apply bind_Some in Hex as (a' & Hd & [= <-]).
    unfold waitResponse_step in Hd. destruct (pa_pc a); try done; case_match; try done;
      injection Hd as <-; by eapply ready_insert.
  - unfold waitAcceptorResponse in Hex. apply bind_Some in Hex as (w & Hw & Hex).
    apply bind_Some in Hex as (a & Ha & Hex). destruct w as [|o|]; [| |done].
    + destruct (pa_output a) as [|o q]; [done|]. injection Hex as <-.
      eapply ready_insert; [done..| |done]. simpl. by apply (Hr k a Ha).
    + case_decide; [|done]. by injection Hex as <-.
  - unfold processResponses in Hex. destruct (proc b) as [i|i k| |] eqn:Hp; [| | |done].
    + destruct (resultsChan b) as [|[o idx] q]; [done|]. case_decide; [|done].
      by injection Hex as <-.
    + destruct (acceptors b !! k) as [a|] eqn:Ha; injection Hex as <-; [|done].
      destruct (rejectProposal_spec a) as (_ & H2 & _ & _ & H5 & _).
      eapply ready_insert; [done|done|done| |done]. rewrite H5. by apply (Hr k a Ha).
    + destruct (output b); [|done]. by injection Hex as <-.
Qed.

Definition stuck (b : bkr) : Prop := ∀ b', ¬ internal_step b b'.

Lemma stuck_exec b e : stuck b → internal e = true → acs_exec dec e b = None.
Proof.
  intros Hs He. destruct (acs_exec dec e b) as [b'|] eqn:Hex; [|done].
  destruct (Hs b'). by econstructor.
Qed.

(** A stuck [waitResponse] has ended. *)
Lemma stuck_acceptor log b k a w :
  inv log b → ready b → stuck b → acceptors b !! k = Some a → fwd b !! k = Some w → pa_pc a = W_done.
Proof.
  intros Hi Hr Hs Ha Hw. pose proof (stuck_exec b (EWait k) Hs eq_refl) as Hex. simpl in Hex.
  unfold acceptor_step in Hex. rewrite Ha in Hex. cbn [mbind option_bind] in Hex.
  destruct (Hr k a Ha) as [Hpc Hin]. pose proof (i_acc _ _ _ _ _ _ Hi k a w Ha Hw) as [_ Hok].
  unfold waitResponse_step in Hex. destruct (pa_pc a) as [| |o|]; try done.
  - destruct Hok as (Hdec & Hc & _). destruct (Hin Hdec) as [x Hx]. by rewrite Hc, Hx in Hex.
  - destruct Hok as (_ & Ho & _). by rewrite Ho in Hex.
Qed.

Lemma fwd_room log b k o :
  inv log b → fwd b !! k = Some (F_send o) → (length (resultsChan b) < length (acceptors b))%nat.
Proof.
  intros Hi Hk. destruct (i_len _ _ _ _ _ _ Hi) as (-> & _ & Hlf).
  assert (Hni : k ∉ (resultsChan b).*2).
  { intros ([o1 k1] & Heq & Hin)%list_elem_of_fmap. simpl in Heq. subst k1.
    destruct (i_sent _ _ _ _ _ _ Hi o1 k) as [Hf _]; [apply elem_of_app; by right|congruence]. }
  assert (Hnd : NoDup (k :: (resultsChan b).*2)).
  { apply list.NoDup_cons. split; [done|]. pose proof (i_nodup _ _ _ _ _ _ Hi) as Hnd.
    rewrite fmap_app in Hnd. by apply list.NoDup_app in Hnd as (_ & _ & ?). }
  assert (Hsub : k :: (resultsChan b).*2 ⊆ seq 0 n).
  { intros k' [->|Hin]%elem_of_cons.
    - apply elem_of_seq. apply lookup_lt_Some in Hk. lia.
    - apply list_elem_of_fmap in Hin as ([o1 k1] & Heq & Hin). simpl in Heq. subst k1.
      destruct (i_sent _ _ _ _ _ _ Hi o1 k') as [Hf _]; [apply elem_of_app; by right|].
      apply elem_of_seq. apply lookup_lt_Some in Hf. lia. }
  pose proof (submseteq_length _ _ (NoDup_submseteq _ _ Hnd Hsub)) as Hl.
  rewrite length_seq in Hl. simpl in Hl. rewrite length_fmap in Hl. lia.
Qed.

(** A stuck [waitAcceptorResponse] has ended. *)
Lemma stuck_forward log b k w :
  inv log b → ready b → stuck b → fwd b !! k = Some w → w = F_done.
Proof.
  intros Hi Hr Hs Hw. destruct (i_len _ _ _ _ _ _ Hi) as (Hla & _ & Hlf).
  destruct (lookup_same_length _ (acceptors b) _ _ (eq_trans Hlf (eq_sym Hla)) Hw) as [a Ha].
  pose proof (stuck_acceptor log b k a w Hi Hr Hs Ha Hw) as Hpc.
  pose proof (stuck_exec b (EForward k) Hs eq_refl) as Hex. simpl in Hex.
  unfold waitAcceptorResponse in Hex. rewrite Hw in Hex. cbn [mbind option_bind] in Hex.
  rewrite Ha in Hex. cbn [mbind option_bind] in Hex.
  pose proof (i_acc _ _ _ _ _ _ Hi k a w Ha Hw) as [_ Hok]. rewrite Hpc in Hok.
  destruct Hok as (o & _ & [[Ho ->]|[_ [->| ->]]]); [by rewrite Ho in Hex| |done].
  rewrite decide_True in Hex by (by eapply fwd_room). done.
Qed.

Lemma stuck_done log b : inv log b → ready b → stuck b → proc b = P_done.
Proof.
  intros Hi Hr Hs. pose proof (stuck_exec b EProcess Hs eq_refl) as Hex. simpl in Hex.
  destruct (i_len _ _ _ _ _ _ Hi) as (Hla & Hlr & Hlf). destruct (i_log _ _ _ _ _ _ Hi) as [Hll Hlt].
  unfold processResponses in Hex. unfold log_length in Hll.
  destruct (proc b) as [i|i k| |] eqn:Hp; [| | |done].
  - destruct (resultsChan b) as [|[o idx] q] eqn:Hq.
    + assert (Hsub : seq 0 n ⊆ log.*2).
      { intros k Hk%elem_of_seq. destruct (lookup_lt_is_Some_2 (fwd b) k) as [w Hw]; [lia|].
        pose proof (stuck_forward log b k w Hi Hr Hs Hw) as ->.
        pose proof (i_forwarded _ _ _ _ _ _ Hi k Hw) as Hin. by rewrite Hq, app_nil_r in Hin. }
      pose proof (submseteq_length _ _ (NoDup_submseteq _ _ (NoDup_seq 0 n) Hsub)) as Hl.
      rewrite length_seq, length_fmap in Hl. lia.
    + rewrite decide_True in Hex; [done|].
      destruct (i_sent _ _ _ _ _ _ Hi o idx) as [Hf _].
      { rewrite Hq. apply elem_of_app. right. by left. }
      apply lookup_lt_Some in Hf. lia.
  - by destruct (acceptors b !! k).
  - pose proof (i_output _ _ _ _ _ _ Hi) as Ho. rewrite Hp in Ho. by rewrite Ho in Hex.
Qed.

Lemma ready_reachable log b b' :
  inv log b → ready b → rtc internal_step b b' → (∃ log', inv log' b') ∧ ready b'.
Proof.
  intros Hi Hr Hs. revert log Hi Hr.
  induction Hs as [b|b b1 b' Hs Hss IH]; intros log Hi Hr; [split; [by exists log|done]|].
  destruct (internal_inv log b b1 Hi Hs) as [log1 Hi1].
  apply (IH log1 Hi1). by eapply ready_step.
Qed.

Lemma internal_bounded log b b' m :
  inv log b → nsteps internal_step m b b' → (m + acs_measure b' ≤ acs_measure b)%nat.
Proof.
  intros Hi Hs. revert log Hi.
  induction Hs as [b|m b b1 b' Hs Hss IH]; intros log Hi; [lia|].
  destruct (internal_inv log b b1 Hi Hs) as [log1 Hi1].
  pose proof (internal_decreases log b b1 Hi Hs). specialize (IH log1 Hi1). lia.
Qed.

(** ** Every agreement gets a proposal *)

(** Acceptor [k] is behind the rejection loop. *)
Definition loop_done (pc : proc_pc) (k : nat) : Prop :=
  match pc with P_reject _ k' => (k < k')%nat | _ => True end.

Record prop_inv (b : bkr) : Prop := {
  l_prop k a : acceptors b !! k = Some a → proposed a = true → ∃ est, est ∈ aba a;
  l_input k a : acceptors b !! k = Some a → is_Some (input a) → proposed a = true;
  l_all k a : Z.of_nat n - mb_f mb ≤ Z.of_nat (length (getAccepted b)) →
    acceptors b !! k = Some a → loop_done (proc b) k → proposed a = true;
}.

(** Changing one acceptor. *)
Lemma prop_insert b b' k a a' :
  prop_inv b → acceptors b !! k = Some a → acceptors b' = <[k := a']> (acceptors b) →
  results b' = results b → (proposed a = true → proposed a' = true) →
  (proposed a' = true → ∃ est, est ∈ aba a') → (is_Some (input a') → proposed a' = true) →
  (∀ k', k' ≠ k → loop_done (proc b') k' → loop_done (proc b) k') →
  (loop_done (proc b') k → ¬ loop_done (proc b) k → proposed a' = true) → prop_inv b'.
Proof.
  intros [] Ha Heq Hres Hmono Hp Hin Hloop Hk. unfold getAccepted in *. split; rewrite Heq; [..|unfold getAccepted; rewrite Hres].
  - intros k1 a1 [(_ & <- & _)|[_ Ha1]]%list_lookup_insert_Some; [done|by eapply l_prop0].
  - intros k1 a1 [(_ & <- & _)|[_ Ha1]]%list_lookup_insert_Some; [done|by eapply l_input0].
  - intros k1 a1 Hge [(<- & <- & _)|[Hne Ha1]]%list_lookup_insert_Some Hl.
    + assert (loop_done (proc b) k ∨ ¬ loop_done (proc b) k) as [Hd|Hd];
        [unfold loop_done; destruct (proc b); try (by left); lia| |by apply Hk].
      apply Hmono. by apply (l_all0 k).
    + apply (l_all0 k1); [done|done|]. by apply Hloop.
Qed.

Lemma pa_propose_proposed est a : proposed (pa_propose est a) = true.
Proof. unfold pa_propose. by destruct (proposed a) eqn:?. Qed.

Lemma pa_propose_some est a :
  (proposed a = true → ∃ e, e ∈ aba a) → ∃ e, e ∈ aba (pa_propose est a).
Proof.
  unfold pa_propose. destruct (proposed a) eqn:Hp; [auto|]. intros _. exists est. simpl.
  apply elem_of_app. right. by left.
Qed.

Lemma accepted_one (l : list (option bytes)) k o :
  l !! k = Some None →
  length (omap Datatypes.id (<[k := o]> l)) =
  (length (omap Datatypes.id l) + if o is Some _ then 1 else 0)%nat.
Proof.
  revert k. induction l as [|y l IH]; intros [|k] Hk; try done.
  - injection Hk as ->. destruct o; simpl; lia.
  - specialize (IH k Hk).
    destruct y; [|done]. change (S (length (omap Datatypes.id (<[k := o]> l))) =
      (S (length (omap Datatypes.id l)) + if o is Some _ then 1 else 0)%nat). lia.
Qed.

Lemma loop_done_head i m k : loop_done (proc_head i m) k.
Proof. unfold proc_head. by case_decide. Qed.

(** The response that makes [n - f] starts the rejection loop. *)
Lemma prop_receive log b b' i :
  inv log b → prop_inv b → proc b = P_recv i → processResponses b = Some b' → prop_inv b'.
Proof.
  intros Hi [] Hp Hstep. unfold processResponses in Hstep. rewrite Hp in Hstep.
  destruct (resultsChan b) as [|[o idx] q] eqn:Hq; [done|]. case_decide as Hidx; [|done].
  cbn zeta in Hstep.
  assert (Hres : results b !! idx = Some None).
  { destruct (lookup_lt_is_Some_2 _ _ Hidx) as [[x|] Hr]; [|done].
    apply (i_accepted _ _ _ _ _ _ Hi) in Hr. pose proof (i_nodup _ _ _ _ _ _ Hi) as Hnd.
    rewrite Hq, fmap_app in Hnd. apply list.NoDup_app in Hnd as (_ & Hdis & _).
    destruct (Hdis idx); [by apply (list_elem_of_fmap_2 snd _ (Some x, idx))|]. simpl. by left. }
  pose proof (accepted_one _ _ o Hres) as Hone. destruct (i_len _ _ _ _ _ _ Hi) as (Hla & _).
  assert (Hf : int_of_uint (bkr_f b) = mb_f mb).
  { rewrite (i_conf _ _ _ _ _ _ Hi). apply int_of_uint_small. destruct (rs_arith mb) as (? & ? & ? & _). lia. }
  unfold getAccepted in Hstep, l_all0. cbn [acceptors results bkr_f] in Hstep. rewrite Hla, Hf, Hone in Hstep.
  match type of Hstep with context [if ?c then P_reject _ _ else _] => destruct c eqn:Hc end;
    injection Hstep as <-; split; simpl; try done; intros k a Hge Ha Hl; [lia|].
  apply (l_all0 k a); [|done|by rewrite Hp]. unfold getAccepted in Hge. simpl in Hge. rewrite Hone in Hge.
  destruct o as [x|]; [|lia]. simpl in Hc. apply Z.eqb_neq in Hc. lia.
Qed.

Lemma prop_exec log e b b' :
  inv log b → prop_inv b → acs_exec dec e b = Some b' → prop_inv b'.
Proof.
  intros Hi Hpi Hex. destruct e as [x p|k|k|k|]; simpl in Hex.
  - destruct (receiveInput x p b) as [[b1 err]| |] eqn:Hr; try done. injection Hex as <-.
    unfold receiveInput in Hr. destruct (getAcceptor p b) as [[k a]|] eqn:Hg;
      [|by injection Hr as <- <-].
    apply getAcceptor_spec in Hg as [Hk Hp]. unfold submitInput in Hr.
    destruct (input a); [|destruct (inputChan a); [|done]]; injection Hr as <- <-.
    + by rewrite list_insert_id, surjective_bkr.
    + eapply (prop_insert b); [done|done|done|done|by rewrite pa_propose_proposed| |
        by rewrite pa_propose_proposed|done|by rewrite pa_propose_proposed].
      intros _. apply pa_propose_some. simpl. by apply (l_prop _ Hpi k).
  - unfold acceptor_decide in Hex. apply bind_Some in Hex as (a & Ha & Hex).
    apply bind_Some in Hex as (a' & Hd & [= <-]). unfold waitResponse_decide in Hd.
    destruct (pa_pc a); try done. injection Hd as <-.
    eapply (prop_insert b _ k a _ Hpi Ha); [reflexivity|reflexivity|..]; simpl; try done;
      [by apply (l_prop _ Hpi k)|by apply (l_input _ Hpi k)].
  - unfold acceptor_step in Hex. apply bind_Some in Hex as (a & Ha & Hex).
    apply bind_Some in Hex as (a' & Hd & [= <-]). unfold waitResponse_step in Hd.
    destruct (pa_pc a); try done; case_match; try done; injection Hd as <-;
      (eapply (prop_insert b _ k a _ Hpi Ha); [reflexivity|reflexivity|..]; simpl; try done;
        [by apply (l_prop _ Hpi k)|by apply (l_input _ Hpi k)]).
  - unfold waitAcceptorResponse in Hex. apply bind_Some in Hex as (w & Hw & Hex).
    apply bind_Some in Hex as (a & Ha & Hex). destruct w as [|o|]; [| |done].
    + destruct (pa_output a) as [|o q]; [done|]. injection Hex as <-.
      eapply (prop_insert b _ k a _ Hpi Ha); [reflexivity|reflexivity|..]; simpl; try done;
        [by apply (l_prop _ Hpi k)|by apply (l_input _ Hpi k)].
    + case_decide; [|done]. injection Hex as <-. by destruct Hpi.
  - destruct (proc b) as [i|i k| |] eqn:Hp; [by eapply prop_receive|..];
      unfold processResponses in Hex; rewrite Hp in Hex; [| |done].
    + destruct (acceptors b !! k) as [a|] eqn:Ha; injection Hex as <-.
      * pose proof (l_prop _ Hpi k a Ha) as H1. pose proof (l_input _ Hpi k a Ha) as H2.
        assert (Hpr : proposed (if hasProposed a then a else (rejectProposal a).1) = true).
        { unfold hasProposed. destruct (proposed a) eqn:E; [done|]. unfold rejectProposal.
          destruct (input a); [|apply pa_propose_proposed]. by rewrite <-H2. }
        eapply (prop_insert b _ k a _ Hpi Ha); [reflexivity|reflexivity|..]; simpl; try done.
        -- unfold hasProposed, rejectProposal. intros _. destruct (proposed a) eqn:E; [auto|].
           destruct (input a); [by discriminate H2|]. apply pa_propose_some. by rewrite E.
        -- intros k' Hne. rewrite Hp. simpl. lia.
      * destruct Hpi. split; simpl; try done. intros k1 a1 Hge Ha1 _.
        apply (l_all0 k1 a1); [done|done|]. rewrite Hp. simpl.
        apply lookup_lt_Some in Ha1. apply lookup_ge_None in Ha. lia.
    + destruct (output b); [|done]. injection Hex as <-. destruct Hpi. split; simpl; try done.
      intros k1 a1 Hge Ha1 _. apply (l_all0 k1 a1); [done|done|]. by rewrite Hp.
Qed.

Lemma prop_inv_init : mb_f mb < Z.of_nat n → prop_inv (newBKR bid (mb_f mb) ps).
Proof.
  intros Hn. split; simpl.
  - by intros k a (p & Hp & ->)%computeAcceptors_lookup.
  - by intros k a (p & Hp & ->)%computeAcceptors_lookup [? ?].
  - intros k a. assert (Hz : omap Datatypes.id (replicate n (@None bytes)) = []).
    { clear. by induction n. }
    unfold getAccepted. simpl. rewrite Hz. simpl. lia.
Qed.

Lemma prop_reachable C j :
  mb_f mb < Z.of_nat n → acs_reachable mb bid ps bc dec C → prop_inv (C j).
Proof.
  intros Hn Hr. revert j. cut (net_inv mb ps bc dec C ∧ ∀ j, prop_inv (C j)); [by intros []|].
  revert C Hr. apply (rtc_ind_r (R := acs_net_step mb bc dec)
    (λ C, net_inv mb ps bc dec C ∧ ∀ j, prop_inv (C j))).
  - split; [apply acs_net_inv_init|]. intros j. by apply prop_inv_init.
  - intros C C' _ Hs [Hni Hp]. split; [by eapply acs_net_inv_step|]. intros i.
    destruct Hs as [j e b Hj Hok Hex]. destruct (decide (i = j)) as [->|];
      [|by rewrite fn_lookup_insert_ne].
    rewrite fn_lookup_insert. destruct Hni as [Hinv _]. destruct (Hinv j Hj) as [log Hlog].
    by eapply prop_exec.
Qed.

(** The check of [ready] on a concrete instance. *)
Fixpoint ready_from (k : nat) (l : list proposalAcceptor) : bool :=
  match l with
  | [] => true
  | a :: l =>
    (if pa_pc a is W_decision then false else true) &&
    (negb (dec k =? accept) || if input a is Some _ then true else false) && ready_from (S k) l
  end.

Lemma ready_from_ok b : ready_from 0 (acceptors b) = true → ready b.
Proof.
  unfold ready. intros Hc k a Ha. change k with (0 + k)%nat. revert Hc. generalize 0%nat. revert k a Ha.
  induction (acceptors b) as [|a1 l IH]; intros [|k] a Ha m; simpl; try done;
    intros [[Hpc Hin]%andb_prop Hl]%andb_prop.
  - injection Ha as ->. rewrite Nat.add_0_r. split; [by destruct (pa_pc a)|].
    intros Hd. apply orb_prop in Hin as [Hin|Hin].
    + by rewrite Hd in Hin.
    + by destruct (input a).
  - rewrite Nat.add_succ_r. by apply (IH k a Ha (S m)).
Qed.
End progress.

Module LiveExample.
Import Example4 AcsExample.

(** [p2] has output; [p1] has the proposals and the decisions, and has not
    processed any response. *)
Definition run3 : list (UUID * acs_event) :=
  accepts p2 2 x3 p3 ++ accepts p2 0 x1 p1 ++ accepts p2 1 x2 p2 ++ rejects p2 ++
  ((λ e, (p1, e)) <$>
     [EInput x1 p1; EInput x2 p2; EInput x3 p3; EDecide 0; EDecide 1; EDecide 2; EDecide 3]).
Definition config3 : acs_config := acs_config_of mb4 uuid_Nil ps bc dec run3.

Lemma reachable3 : acs_reachable mb4 uuid_Nil ps bc dec config3.
Proof. apply acs_config_reachable. vm_compute. reflexivity. Qed.
Lemma ready3 : ready dec (config3 p1).
Proof. apply ready_from_ok. vm_compute. reflexivity. Qed.
Lemma accepted_p1 : Z.of_nat (length ps) - mb_f mb4 ≤ Z.of_nat (length (getAccepted (config p1))).
Proof. vm_compute. discriminate. Qed.
Lemma loop_p1 k : loop_done (proc (config p1)) k.
Proof. assert (proc (config p1) = P_done) as ->; [vm_compute; reflexivity|done]. Qed.
End LiveExample.
Import Example4 AcsExample LiveExample.

(** ** Theorems *)

(** C9: termination.  Once every agreement has decided and the accepted
    proposals have arrived, the goroutines of the instance can take only a
    bounded number of steps, and where they can take none the instance has its
    output: no goroutine waits for ever, no channel fills up. *)
Theorem acs_terminates (mb : membership UUID) `{!Resilient mb} bid ps bc dec (C : acs_config) j :
  acs_reachable mb bid ps bc dec C → acs_correct mb j → ready dec (C j) →
  (∀ m b, nsteps (internal_step dec) m (C j) b → (m ≤ acs_measure (C j))%nat) ∧
  (∀ b, rtc (internal_step dec) (C j) b → stuck dec b → output b = [getAccepted b]).
Proof.
  intros Hr Hj Hready. destruct (acs_net_inv_reachable mb bid ps bc dec C Hr) as [Hinv _].
  destruct (Hinv j Hj) as [log Hlog]. split.
  - intros m b Hs. pose proof (internal_bounded mb ps bc dec log _ b m Hlog Hs). lia.
  - intros b Hs Hst. destruct (ready_reachable mb ps bc dec log _ b Hlog Hready Hs) as [[log' Hi] Hrb].
    rewrite (i_output _ _ _ _ _ _ Hi), (stuck_done mb ps bc dec log' b Hi Hrb Hst). done.
Qed.

Lemma acs_terminates_witness :
  (∀ m b, nsteps (internal_step dec) m (config3 p1) b → (m ≤ acs_measure (config3 p1))%nat) ∧
  (∀ b, rtc (internal_step dec) (config3 p1) b → stuck dec b → output b = [getAccepted b]).
Proof. exact (acs_terminates mb4 uuid_Nil ps bc dec config3 p1 reachable3 acs_run_correct_p1 ready3). Defined.

(** C11: every agreement gets a proposal.  Once [n - f] proposals are accepted
    and the rejection loop has run, the instance has proposed to the agreement
    of every proposer, those that never sent anything included. *)
Theorem acs_all_propose (mb : membership UUID) `{!Resilient mb} bid ps bc dec (C : acs_config) j k :
  acs_reachable mb bid ps bc dec C → acs_correct mb j → mb_f mb < Z.of_nat (length ps) →
  Z.of_nat (length ps) - mb_f mb ≤ Z.of_nat (length (getAccepted (C j))) →
  loop_done (proc (C j)) k → (k < length ps)%nat → ∃ est, proposed_to (C j) k est.
Proof.
  intros Hr Hj Hn Hge Hl Hk. pose proof (prop_reachable mb bid ps bc dec C j Hn Hr) as Hp.
  destruct (acs_net_inv_reachable mb bid ps bc dec C Hr) as [Hinv _]. destruct (Hinv j Hj) as [log Hlog].
  destruct (i_len _ _ _ _ _ _ Hlog) as (Hla & _).
  destruct (lookup_lt_is_Some_2 (acceptors (C j)) k) as [a Ha]; [lia|].
  destruct (l_prop _ _ _ Hp k a Ha) as [est He]; [by apply (l_all _ _ _ Hp k)|]. by exists est, a.
Qed.

Lemma acs_all_propose_witness : ∃ est, proposed_to (config p1) 3 est.
Proof.
  refine (acs_all_propose mb4 uuid_Nil ps bc dec config p1 3 acs_run_reachable acs_run_correct_p1 _ accepted_p1 (loop_p1 3) _).
  - reflexivity.
  - simpl. lia.
Defined.
