(* ===== verification/BkrChannel.v ===== *)
(** * [bkrChannel.go]: many common subsets, one node

    A [BKRChannel] broadcasts its client's proposals, creates the instances on
    demand and gives each delivered proposal to the instance it names.  The
    invoker runs one command at a time; [commands] are the submissions that wait
    for it, in no particular order, because each is sent by a goroutine of its
    own.

    The second half composes it with [AcsNetwork]: in a network of channels,
    every instance identifier is a run of the common subset network whose
    proposals are those the reliable broadcasts carry for it. *)

From stdpp Require Import base tactics numbers list fin_sets gmap functions relations.
From Stdlib Require Import Init.Byte FunctionalExtensionality.
From S2P Require Import Prelude Utils BrbInstance Acs AcsNetwork AcsCorrect.

Local Open Scope Z_scope.

(** ** Messages *)

Record bkrProposalMsg := BkrProposalMsg { bm_bkrId : UUID; bm_proposal : bytes }.

Inductive bkr_chan_err :=
| TooShort (len : nat)
| Finished (id : UUID)
| SubmitErr (e : acs_err)
| BroadcastErr.

Definition bkr_marshal (m : bkrProposalMsg) : bytes := uuid_bytes (bm_bkrId m) ++ bm_proposal m.

(** The conversion to an array panics when the slice is too short. *)
Definition bkr_unmarshal (data : bytes) : outcome (result bkr_chan_err bkrProposalMsg) :=
  if decide (length data < uuid_size)%nat then Done (Err (TooShort (length data))) else
  id ← UUID_of_slice (take uuid_size data);
  Done (Ok (BkrProposalMsg id (drop uuid_size data))).

(** ** The channel *)

Record BKRChannel := MkBKRChannel {
  bc_f : Z;
  participants : list UUID;
  instances : gmap UUID bkr;
  finished : gset UUID;
  commands : list (UUID * bytes * UUID);
}.

Definition NewBKRChannel (f : Z) (participants : list UUID) : BKRChannel :=
  MkBKRChannel f participants ∅ ∅ [].

Definition set_instances x (c : BKRChannel) : BKRChannel :=
  MkBKRChannel (bc_f c) (participants c) x (finished c) (commands c).
Definition set_commands x (c : BKRChannel) : BKRChannel :=
  MkBKRChannel (bc_f c) (participants c) (instances c) (finished c) x.

Definition createNewInstance (bkrId : UUID) (c : BKRChannel) : BKRChannel * bkr :=
  match instances c !! bkrId with
  | Some b => (c, b)
  | None =>
    let b := newBKR bkrId (bc_f c) (participants c) in
    (set_instances (<[bkrId := b]> (instances c)) c, b)
  end.

Definition bkr_getInstance (bkrId : UUID) (c : BKRChannel) : BKRChannel * bkr :=
  match instances c !! bkrId with
  | Some b => (c, b)
  | None => createNewInstance bkrId c
  end.

(** [BRBroadcast] may fail; [sent] tells whether it did not.  The bytes it is
    given are the second result. *)
Definition bkr_Propose (id : UUID) (proposal : bytes) (sent : bool) (c : BKRChannel) :
    BKRChannel * bytes * option bkr_chan_err :=
  let data := bkr_marshal (BkrProposalMsg id proposal) in
  if sent then ((bkr_getInstance id c).1, data, None) else (c, data, Some BroadcastErr).

Definition processBroadcast (msg : BRBMsg) (c : BKRChannel) :
    outcome (BKRChannel * option bkr_chan_err) :=
  r ← bkr_unmarshal (Content msg);
  match r with
  | Err e => Done (c, Some e)
  | Ok m => Done (set_commands (commands c ++ [(bm_bkrId m, bm_proposal m, Sender msg)]) c, None)
  end.

Definition submitProposal (bkrId : UUID) (proposal : bytes) (sender : UUID) (c : BKRChannel) :
    outcome (BKRChannel * option bkr_chan_err) :=
  if decide (bkrId ∈ finished c) then Done (c, Some (Finished bkrId)) else
  let '(c, b) := bkr_getInstance bkrId c in
  '(b, err) ← receiveInput proposal sender b;
  Done (set_instances (<[bkrId := b]> (instances c)) c, option_map SubmitErr err).

(** ** Parsing *)

Lemma bkr_unmarshal_spec data :
  bkr_unmarshal data =
  Done (if decide (length data < uuid_size)%nat then Err (TooShort (length data))
        else match FromBytes (take uuid_size data) with
             | Some id => Ok (BkrProposalMsg id (drop uuid_size data))
             | None => Err (TooShort (length data))
             end).
Proof.
  unfold bkr_unmarshal. case_decide as Hl; [done|]. unfold UUID_of_slice.
  rewrite take_take, Nat.min_id.
  destruct (FromBytes (take uuid_size data)) as [id|] eqn:E; [done|].
  apply FromBytes_None in E. rewrite length_take in E. lia.
Qed.

Lemma bkr_unmarshal_Ok data m : bkr_unmarshal data = Done (Ok m) ↔ data = bkr_marshal m.
Proof.
  rewrite bkr_unmarshal_spec. unfold bkr_marshal. split.
  - intros [= H]. case_decide as Hl; [done|].
    destruct (FromBytes (take uuid_size data)) as [id|] eqn:E; [|done]. injection H as <-.
    apply FromBytes_Some in E. simpl. by rewrite E, take_drop.
  - intros ->. pose proof (uuid_length (bm_bkrId m)) as Hu.
    rewrite decide_False by (rewrite length_app; lia).
    rewrite take_app_length', drop_app_length', FromBytes_uuid by done. by destruct m.
Qed.

Lemma bkr_marshal_inj m m' : bkr_marshal m = bkr_marshal m' → m = m'.
Proof.
  intros H. apply bkr_unmarshal_Ok in H. pose proof (proj2 (bkr_unmarshal_Ok (bkr_marshal m) m) eq_refl) as H'.
  rewrite H in H'. by injection H' as ->.
Qed.

(** ** The network of channels *)

Inductive bkr_event :=
| NPropose (id : UUID) (proposal : bytes)
| NDeliver (msg : BRBMsg)
| NCommand (i : nat)
| NInner (id : UUID) (e : acs_event).

Abbreviation bkr_config := (UUID → BKRChannel).

Section network.
Context (mb : membership UUID) (ps : list UUID).
(** [brbs]: what the reliable broadcasts deliver.  [dec id k]: the decision of
    acceptor [k] of instance [id]. *)
Context (brbs : list BRBMsg) (dec : UUID → nat → Z).

Definition bkr_exec (e : bkr_event) (c : BKRChannel) : option BKRChannel :=
  match e with
  | NPropose id x => Some (bkr_Propose id x true c).1.1
  | NDeliver msg => match processBroadcast msg c with Done (c, _) => Some c | _ => None end
  | NCommand i =>
    '(id, x, s) ← commands c !! i;
    match submitProposal id x s (set_commands (delete i (commands c)) c) with
    | Done (c, _) => Some c
    | _ => None
    end
  | NInner id e =>
    b ← instances c !! id; b ← acs_exec (dec id) e b;
    Some (set_instances (<[id := b]> (instances c)) c)
  end.

(** The instance [id] at [j]; before it is created it is the new instance. *)
Definition bkr_project (id : UUID) (C : bkr_config) : acs_config := λ j,
  default (newBKR id (mb_f mb) ps) (instances (C j) !! id).

(** The proposals the broadcasts carry for [id]. *)
Definition carried (id : UUID) : list (UUID * bytes) :=
  omap (λ msg, match bkr_unmarshal (Content msg) with
               | Done (Ok m) => if decide (bm_bkrId m = id) then Some (Sender msg, bm_proposal m) else None
               | _ => None
               end) brbs.

Definition bkr_event_ok (C : bkr_config) (e : bkr_event) : Prop :=
  match e with
  | NDeliver msg => msg ∈ brbs
  | NInner id e => match e with
                   | EInput _ _ => False
                   | _ => acs_event_ok mb [] (dec id) (bkr_project id C) e
                   end
  | _ => True
  end.

Inductive bkr_net_step (C : bkr_config) : bkr_config → Prop :=
| bkr_net_event j e c :
    acs_correct mb j → bkr_event_ok C e → bkr_exec e (C j) = Some c → bkr_net_step C (<[j := c]> C).

Definition bkr_net_init : bkr_config := λ _, NewBKRChannel (mb_f mb) ps.
Definition bkr_reachable (C : bkr_config) : Prop := rtc bkr_net_step bkr_net_init C.

(** The instance [id] at [j] has output [l]. *)
Definition BkrOutputs (C : bkr_config) (id j : UUID) (l : list bytes) : Prop :=
  ∃ b, instances (C j) !! id = Some b ∧ l ∈ output b.

Lemma elem_of_carried id p x :
  (p, x) ∈ carried id ↔ MkBRBMsg (bkr_marshal (BkrProposalMsg id x)) p ∈ brbs.
Proof.
  unfold carried. rewrite list_elem_of_omap. split.
  - intros ([c s] & Hin & Hm). simpl in Hm.
    destruct (bkr_unmarshal c) as [[m|e]| |] eqn:E; try done. case_decide as Hid; [|done].
    injection Hm as <- <-. apply bkr_unmarshal_Ok in E as ->. subst id. by destruct m.
  - intros Hin. eexists. split; [exact Hin|]. simpl.
    rewrite (proj2 (bkr_unmarshal_Ok _ (BkrProposalMsg id x)) eq_refl). simpl. by rewrite decide_True.
Qed.

Record bkr_chan_ok (c : BKRChannel) : Prop := {
  bk_conf : bc_f c = mb_f mb ∧ participants c = ps;
  bk_commands id x s : (id, x, s) ∈ commands c → (s, x) ∈ carried id;
  bk_finished : finished c = ∅;
}.

(** Creating an instance does not change what it is. *)
Definition same_instances (c c' : BKRChannel) : Prop := ∀ id,
  default (newBKR id (mb_f mb) ps) (instances c' !! id) = default (newBKR id (mb_f mb) ps) (instances c !! id).

Lemma bkr_getInstance_spec id c :
  bkr_chan_ok c →
  let '(c', b) := bkr_getInstance id c in
  bkr_chan_ok c' ∧ same_instances c c' ∧ instances c' !! id = Some b ∧ commands c' = commands c.
Proof.
  intros [[Hf Hp] Hc Hfin]. unfold bkr_getInstance, createNewInstance.
  destruct (instances c !! id) as [b|] eqn:E; [by split_and!|]. rewrite Hf, Hp. split_and!; try done.
  - intros id'. simpl. destruct (decide (id = id')) as [<-|]; [by rewrite lookup_insert_eq, E|].
    by rewrite lookup_insert_ne.
  - simpl. by rewrite lookup_insert_eq.
Qed.

Lemma bkr_project_upd id C j c :
  bkr_project id (<[j := c]> C) =
  <[j := default (newBKR id (mb_f mb) ps) (instances c !! id)]> (bkr_project id C).
Proof.
  apply functional_extensionality. intros i. unfold bkr_project.
  destruct (decide (i = j)) as [->|]; [by rewrite !fn_lookup_insert|by rewrite !fn_lookup_insert_ne].
Qed.

Lemma bkr_project_same id C j c :
  same_instances (C j) c → bkr_project id (<[j := c]> C) = bkr_project id C.
Proof.
  intros Hs. rewrite bkr_project_upd, Hs. apply functional_extensionality. intros i.
  destruct (decide (i = j)) as [->|]; [by rewrite fn_lookup_insert|by rewrite fn_lookup_insert_ne].
Qed.

Lemma set_commands_ok x c :
  bkr_chan_ok c → (∀ id y s, (id, y, s) ∈ x → (s, y) ∈ carried id) → bkr_chan_ok (set_commands x c).
Proof. intros []. by split. Qed.

Lemma set_instances_ok x c : bkr_chan_ok c → bkr_chan_ok (set_instances x c).
Proof. by intros []. Qed.

Lemma processBroadcast_ok msg c c' err :
  bkr_chan_ok c → msg ∈ brbs → processBroadcast msg c = Done (c', err) →
  bkr_chan_ok c' ∧ instances c' = instances c.
Proof.
  intros Hc Hm Hp. unfold processBroadcast in Hp. rewrite bkr_unmarshal_spec in Hp. cbn [mbind outcome_bind] in Hp.
  destruct (bkr_unmarshal (Content msg)) as [[m|e]| |] eqn:E; rewrite bkr_unmarshal_spec in E; try done;
    injection E as E; rewrite E in Hp; injection Hp as <- <-; [|done].
  split; [|done]. apply set_commands_ok; [done|]. intros id y s [Hin|Hin]%elem_of_app.
  - by apply (bk_commands _ Hc).
  - apply list_elem_of_singleton in Hin. injection Hin as -> -> ->. apply elem_of_carried.
    assert (Content msg = bkr_marshal m) as Hcont.
    { apply bkr_unmarshal_Ok. by rewrite bkr_unmarshal_spec, E. }
    destruct m. simpl in *. rewrite <-Hcont. by destruct msg.
Qed.

(** A step of the channel at [j] is at most one step of each instance. *)
Definition projects (id : UUID) (e : option acs_event) (c c' : BKRChannel) : Prop :=
  let b := default (newBKR id (mb_f mb) ps) (instances c !! id) in
  let b' := default (newBKR id (mb_f mb) ps) (instances c' !! id) in
  match e with None => b' = b | Some e => acs_exec (dec id) e b = Some b' end.

Lemma submitProposal_projects c id x s c' err :
  bkr_chan_ok c → submitProposal id x s c = Done (c', err) →
  bkr_chan_ok c' ∧ projects id (Some (EInput x s)) c c' ∧
  ∀ id', id' ≠ id → projects id' None c c'.
Proof.
  intros Hc Hs. unfold submitProposal in Hs. rewrite decide_False in Hs.
  2: { rewrite (bk_finished _ Hc). set_solver. }
  pose proof (bkr_getInstance_spec id c Hc) as Hg.
  destruct (bkr_getInstance id c) as [c1 b]. destruct Hg as (Hc1 & Hsame & Hb & _).
  destruct (receiveInput x s b) as [[b' e]| |] eqn:Hr; try done. injection Hs as <- <-.
  split; [by apply set_instances_ok|]. split.
  - unfold projects. simpl. rewrite lookup_insert_eq. specialize (Hsame id). rewrite Hb in Hsame.
    simpl in Hsame. rewrite <-Hsame. by rewrite Hr.
  - intros id' Hne. unfold projects. simpl. rewrite lookup_insert_ne by done. apply Hsame.
Qed.

Lemma bkr_exec_projects C j e c' :
  bkr_chan_ok (C j) → bkr_event_ok C e → bkr_exec e (C j) = Some c' →
  bkr_chan_ok c' ∧ ∀ id, ∃ ae, projects id ae (C j) c' ∧
    (if ae is Some ae then acs_event_ok mb (carried id) (dec id) (bkr_project id C) ae else True).
Proof.
  intros Hc Hok Hex. destruct e as [id x|msg|i|id e]; simpl in Hex, Hok.
  - injection Hex as <-. pose proof (bkr_getInstance_spec id (C j) Hc) as Hg.
    destruct (bkr_getInstance id (C j)) as [c1 b]. destruct Hg as (Hc1 & Hsame & _).
    split; [done|]. intros id'. exists None. split; [|done]. apply Hsame.
  - destruct (processBroadcast msg (C j)) as [[c1 err]| |] eqn:Hp; try done. injection Hex as <-.
    apply processBroadcast_ok in Hp as [? Heq]; [|done|done]. split; [done|].
    intros id. exists None. split; [|done]. unfold projects. by rewrite Heq.
  - apply bind_Some in Hex as ([[id x] s] & Hi & Hex).
    destruct (submitProposal id x s _) as [[c1 err]| |] eqn:Hs; try done. injection Hex as <-.
    pose proof (list_elem_of_lookup_2 _ _ _ Hi) as Hin.
    apply submitProposal_projects in Hs as (Hc1 & Hp & Hne).
    + split; [done|]. intros id'. destruct (decide (id' = id)) as [->|Hd].
      * exists (Some (EInput x s)). split; [done|]. by apply (bk_commands _ Hc).
      * exists None. split; [|done]. by apply (Hne id').
    + apply set_commands_ok; [done|]. intros id' y t Ht. apply (bk_commands _ Hc).
      apply list_elem_of_lookup in Ht as [k Hk]. apply list_elem_of_lookup.
      destruct (decide (k < i)%nat); [rewrite list_lookup_delete_lt in Hk by done|
        rewrite list_lookup_delete_ge in Hk by lia]; by eexists.
  - apply bind_Some in Hex as (b & Hb & Hex). apply bind_Some in Hex as (b' & Hb' & [= <-]).
    split; [by apply set_instances_ok|]. intros id'. destruct (decide (id' = id)) as [->|Hd].
    + exists (Some e). unfold projects. simpl. rewrite lookup_insert_eq, Hb. split; [done|].
      by destruct e.
    + exists None. unfold projects. simpl. by rewrite lookup_insert_ne.
Qed.

(** Every identifier is a run of the common subset network. *)
Lemma bkr_project_reachable C :
  bkr_reachable C →
  (∀ j, bkr_chan_ok (C j)) ∧ ∀ id, acs_reachable mb id ps (carried id) (dec id) (bkr_project id C).
Proof.
  revert C. apply (rtc_ind_r (R := bkr_net_step)
    (λ C, (∀ j, bkr_chan_ok (C j)) ∧ ∀ id, acs_reachable mb id ps (carried id) (dec id) (bkr_project id C))).
  - split; [intros j; split; [done| |done]; by intros id x s ?%not_elem_of_nil|].
    intros id. unfold acs_reachable.
    assert (bkr_project id bkr_net_init = acs_net_init mb id ps) as ->; [|constructor].
    apply functional_extensionality. done.
  - intros C C' _ [j e c Hj Hok Hex] [Hall Hr].
    destruct (bkr_exec_projects C j e c (Hall j) Hok Hex) as [Hc Hp]. split.
    + intros i. destruct (decide (i = j)) as [->|]; [by rewrite fn_lookup_insert|by rewrite fn_lookup_insert_ne].
    + intros id. destruct (Hp id) as ([ae|] & Hpr & Hae).
      * eapply rtc_r; [apply Hr|]. rewrite bkr_project_upd. by econstructor.
      * assert (bkr_project id (<[j:=c]> C) = bkr_project id C) as ->; [|apply Hr].
        rewrite bkr_project_upd. unfold projects in Hpr. rewrite Hpr.
        apply functional_extensionality. intros i.
        destruct (decide (i = j)) as [->|]; [by rewrite fn_lookup_insert|by rewrite fn_lookup_insert_ne].
Qed.

(** A command touches one instance. *)
Lemma bkr_step_frame e c c' id :
  match e with NPropose i _ | NInner i _ => i = id | NCommand k => (commands c !! k) ≫= (λ x, Some x.1.1) = Some id | NDeliver _ => True end →
  bkr_exec e c = Some c' → ∀ id', id' ≠ id → instances c' !! id' = instances c !! id'.
Proof.
  assert (Hget : ∀ c0 i, instances (bkr_getInstance i c0).1 !! i = Some (bkr_getInstance i c0).2 ∧
    ∀ i', i' ≠ i → instances (bkr_getInstance i c0).1 !! i' = instances c0 !! i').
  { intros c0 i. unfold bkr_getInstance, createNewInstance. destruct (instances c0 !! i) eqn:E; [done|]. simpl.
    rewrite lookup_insert_eq. split; [done|]. intros. by rewrite lookup_insert_ne. }
  destruct e as [i x|msg|k|i e]; simpl; intros He Hex id' Hne.
  - injection Hex as <-. subst i. unfold bkr_Propose. simpl. by apply Hget.
  - unfold processBroadcast in Hex. destruct (bkr_unmarshal (Content msg)) as [[m|err]| |]; simpl in Hex; try done;
      by injection Hex as <-.
  - destruct (commands c !! k) as [[[i x] s]|]; [|done]. simpl in *. injection He as ->. unfold submitProposal in Hex.
    case_decide; [by injection Hex as <-|]. destruct (Hget (set_commands (delete k (commands c)) c) id) as [_ Hg].
    destruct (bkr_getInstance id _) as [c1 b]. simpl in *.
    destruct (receiveInput x s b) as [[b' err]| |]; simpl in Hex; try done. injection Hex as <-. simpl.
    rewrite lookup_insert_ne by done. by apply Hg.
  - subst i. apply bind_Some in Hex as (b & Hb & Hex). apply bind_Some in Hex as (b' & Hb' & [= <-]). simpl.
    by rewrite lookup_insert_ne.
Qed.

(** *** Instances only grow *)

Definition instance_le (b b' : bkr) : Prop :=
  output b ⊆ output b' ∧ length (acceptors b') = length (acceptors b) ∧
  ∀ k a a', acceptors b !! k = Some a → acceptors b' !! k = Some a' →
    aba a ⊆ aba a' ∧ pa_abaId a' = pa_abaId a.

Lemma projects_le id e c c' :
  projects id e c c' →
  instance_le (default (newBKR id (mb_f mb) ps) (instances c !! id)) (default (newBKR id (mb_f mb) ps) (instances c' !! id)).
Proof.
  unfold projects. destruct e as [e|].
  - intros He. pose proof (acs_exec_le _ _ _ _ He) as [Hl Hle]. split_and!; [|done|].
    + intros l. by apply (acs_exec_output _ _ _ _ _ He).
    + intros k a a' Ha Ha'. by destruct (Hle k a a' Ha Ha') as (? & ? & _).
  - intros ->. split_and!; [done|done|]. intros k a a' -> [= <-]. done.
Qed.

Lemma bkr_exec_dom e c c' id :
  bkr_exec e c = Some c' → is_Some (instances c !! id) → is_Some (instances c' !! id).
Proof.
  assert (Hget : ∀ c0 i, is_Some (instances c0 !! id) → is_Some (instances (bkr_getInstance i c0).1 !! id)).
  { intros c0 i Hs. unfold bkr_getInstance, createNewInstance. destruct (instances c0 !! i) eqn:E; [done|].
    simpl. rewrite lookup_insert_is_Some'. by right. }
  destruct e as [i x|msg|k|i e]; simpl; intros Hex Hs.
  - injection Hex as <-. unfold bkr_Propose. simpl. by apply Hget.
  - unfold processBroadcast in Hex. destruct (bkr_unmarshal (Content msg)) as [[m|err]| |]; simpl in Hex; try done;
      by injection Hex as <-.
  - destruct (commands c !! k) as [[[i x] s]|]; [|done]. simpl in *. unfold submitProposal in Hex.
    case_decide; [by injection Hex as <-|]. pose proof (Hget (set_commands (delete k (commands c)) c) i Hs) as Hg.
    destruct (bkr_getInstance i _) as [c1 b]. simpl in *.
    destruct (receiveInput x s b) as [[b' err]| |]; simpl in Hex; try done. injection Hex as <-. simpl.
    rewrite lookup_insert_is_Some'. by right.
  - apply bind_Some in Hex as (b & Hb & Hex). apply bind_Some in Hex as (b' & Hb' & [= <-]). simpl.
    rewrite lookup_insert_is_Some'. by right.
Qed.

Lemma bkr_net_step_le C C' j id b :
  bkr_reachable C → bkr_net_step C C' → instances (C j) !! id = Some b →
  ∃ b', instances (C' j) !! id = Some b' ∧ instance_le b b'.
Proof.
  intros [Hc _]%bkr_project_reachable [i e c Hi Hok Hex] Hb. destruct (decide (j = i)) as [->|].
  2: { rewrite fn_lookup_insert_ne by done. exists b. split; [done|]. split_and!; [done|done|].
       intros k a a' -> [= <-]. done. }
  rewrite fn_lookup_insert. destruct (bkr_exec_projects C i e c (Hc i) Hok Hex) as [_ Hp].
  destruct (Hp id) as (ae & Hpr & _). apply projects_le in Hpr.
  destruct (bkr_exec_dom e _ _ id Hex) as [b' Hb']; [by eexists|]. exists b'. split; [done|].
  by rewrite Hb, Hb' in Hpr.
Qed.

(** The acceptors keep their names. *)
Lemma bkr_names C :
  bkr_reachable C → ∀ j id b k a, instances (C j) !! id = Some b → acceptors b !! k = Some a →
  ∃ p, ps !! k = Some p ∧ pa_abaId a = BytesToUUID (uuid_bytes id ++ uuid_bytes p).
Proof.
  revert C. apply (rtc_ind_r (R := bkr_net_step) (λ C, ∀ j id b k a, instances (C j) !! id = Some b →
    acceptors b !! k = Some a → ∃ p, ps !! k = Some p ∧ pa_abaId a = BytesToUUID (uuid_bytes id ++ uuid_bytes p))); [done|].
  intros C C' [Hc _]%bkr_project_reachable [i e c Hi Hok Hex] IH j id b' k a'. destruct (decide (j = i)) as [->|].
  2: { rewrite fn_lookup_insert_ne by done. apply IH. }
  rewrite fn_lookup_insert. intros Hb' Ha'. destruct (bkr_exec_projects C i e c (Hc i) Hok Hex) as [_ Hp].
  destruct (Hp id) as (ae & Hpr & _). apply projects_le in Hpr as (_ & Hl & Hle). rewrite Hb' in Hl, Hle. simpl in Hl, Hle.
  destruct (lookup_lt_is_Some_2 (acceptors (default (newBKR id (mb_f mb) ps) (instances (C i) !! id))) k) as [a Ha].
  { rewrite <-Hl. by eapply lookup_lt_Some. }
  destruct (Hle k a a' Ha Ha') as [_ ->]. destruct (instances (C i) !! id) as [b|] eqn:Hb; simpl in Ha; [by eapply IH|].
  apply computeAcceptors_lookup in Ha as (p & Hp' & ->). by exists p.
Qed.

Lemma bkr_outputs_project C id j l : BkrOutputs C id j l → AcsOutputs (bkr_project id C) j l.
Proof. intros (b & Hb & Hl). unfold AcsOutputs, bkr_project. by rewrite Hb. Qed.
End network.

(** More broadcasts may be made. *)
Lemma bkr_reachable_brbs mb ps brbs brbs' dec C :
  brbs ⊆ brbs' → bkr_reachable mb ps brbs dec C → bkr_reachable mb ps brbs' dec C.
Proof.
  intros Hs. unfold bkr_reachable. apply rtc_subrel. intros C1 C2 [j e c Hj Hok Hex].
  econstructor; [done| |done]. destruct e; simpl in *; auto.
Qed.

(** ** A run of two instances *)

Module BkrExample.
Import Example4 AcsExample.

Fixpoint bkr_schedule (mb : membership UUID) (ps : list UUID) (brbs : list BRBMsg) (dec : UUID → nat → Z)
    (l : list (UUID * bkr_event)) (C : bkr_config) : option bkr_config :=
  match l with
  | [] => Some C
  | (j, e) :: l =>
    if bool_decide (acs_correct mb j) &&
       match e with
       | NDeliver msg => bool_decide (msg ∈ brbs)
       | NInner id (EInput _ _) => false
       | NInner id e => acs_event_check mb ps [] (dec id) (bkr_project mb ps id C) e
       | _ => true
       end
    then c ← bkr_exec dec e (C j); bkr_schedule mb ps brbs dec l (<[j := c]> C) else None
  end.

Lemma bkr_schedule_sound mb ps brbs dec l C C' :
  bkr_schedule mb ps brbs dec l C = Some C' → rtc (bkr_net_step mb ps brbs dec) C C'.
Proof.
  revert C. induction l as [|[j e] l IH]; intros C; simpl.
  - intros [= <-]. constructor.
  - match goal with |- context [if ?b then _ else _] => destruct b eqn:Hd end; [|done].
    apply andb_prop in Hd as [Hj%bool_decide_eq_true_1 He].
    intros (c & Hex & Hr)%bind_Some. eapply rtc_l; [|by apply IH].
    apply (bkr_net_event mb ps brbs dec C j e c); [done| |done].
    destruct e as [| |i|id e]; simpl; try done; [by apply bool_decide_eq_true_1 in He|].
    destruct e; try done; by apply acs_event_check_ok in He.
Qed.

Definition bid : UUID := uuid_of_byte "009".
(** Three proposals for [bid], one message nobody can parse. *)
Definition brbs : list BRBMsg :=
  MkBRBMsg ["z"%byte] p4 ::
  ((λ '(p, x), MkBRBMsg (bkr_marshal (BkrProposalMsg bid x)) p) <$> bc).
Definition bdec (_ : UUID) : nat → Z := dec.

(** The run of [AcsExample], with the proposals delivered by the broadcasts. *)
Definition of_acs (x : UUID * acs_event) : list (UUID * bkr_event) :=
  match x.2 with
  | EInput y p =>
    [(x.1, NDeliver (MkBRBMsg (bkr_marshal (BkrProposalMsg bid y)) p)); (x.1, NCommand 0)]
  | e => [(x.1, NInner bid e)]
  end.
Definition brun : list (UUID * bkr_event) :=
  [(p1, NPropose bid x1); (p2, NDeliver (MkBRBMsg ["z"%byte] p4))] ++ (run ≫= of_acs).
Definition bconfig : bkr_config :=
  default (bkr_net_init mb4 ps) (bkr_schedule mb4 ps brbs bdec brun (bkr_net_init mb4 ps)).

Lemma bconfig_reachable : bkr_reachable mb4 ps brbs bdec bconfig.
Proof.
  unfold bconfig. destruct (bkr_schedule mb4 ps brbs bdec brun (bkr_net_init mb4 ps)) as [C|] eqn:E;
    [|constructor]. by apply bkr_schedule_sound in E.
Qed.

Definition bkr_outputs_check (C : bkr_config) (id j : UUID) (l : list bytes) : bool :=
  match instances (C j) !! id with Some b => bool_decide (l ∈ output b) | None => false end.
Lemma bkr_outputs_check_ok C id j l : bkr_outputs_check C id j l = true → BkrOutputs C id j l.
Proof.
  unfold bkr_outputs_check, BkrOutputs. destruct (instances (C j) !! id) as [b|]; [|done].
  intros ?%bool_decide_eq_true_1. by exists b.
Qed.
Lemma bconfig_p1 : BkrOutputs bconfig bid p1 [x1; x2; x3].
Proof. apply bkr_outputs_check_ok. vm_compute. reflexivity. Qed.
Lemma bconfig_p2 : BkrOutputs bconfig bid p2 [x1; x2; x3].
Proof. apply bkr_outputs_check_ok. vm_compute. reflexivity. Qed.
Lemma brbs_unique p x y :
  MkBRBMsg (bkr_marshal (BkrProposalMsg bid x)) p ∈ brbs →
  MkBRBMsg (bkr_marshal (BkrProposalMsg bid y)) p ∈ brbs → x = y.
Proof.
  rewrite <-!elem_of_carried. assert (carried brbs bid = bc) as ->; [vm_compute; reflexivity|].
  apply bc_unique.
Qed.
End BkrExample.
Import Example4 AcsExample BkrExample.

(** ** Theorems *)

(** Agreement of the channels.  In a network of [BKRChannel]s, for every
    instance identifier for which no participant has two proposals delivered,
    two correct processes output the same set, of at least [n - f] proposals. *)
Theorem bkr_channel_agreement (mb : membership UUID) `{!Resilient mb} ps brbs dec (C : bkr_config)
    id i j l l' :
  bkr_reachable mb ps brbs dec C →
  (∀ p x y, MkBRBMsg (bkr_marshal (BkrProposalMsg id x)) p ∈ brbs →
            MkBRBMsg (bkr_marshal (BkrProposalMsg id y)) p ∈ brbs → x = y) →
  acs_correct mb i → acs_correct mb j → BkrOutputs C id i l → BkrOutputs C id j l' →
  l = l' ∧ Z.of_nat (length ps) - mb_f mb ≤ Z.of_nat (length l).
Proof.
  intros Hr Hu Hi Hj Ho Ho'. destruct (bkr_project_reachable mb ps brbs dec C Hr) as [_ Hp].
  apply (bkr_outputs_project mb ps) in Ho, Ho'. split.
  - eapply (acs_agree mb id ps (carried brbs id) (dec id)); [apply Hp| |exact Hi|exact Hj|done|done].
    intros p x y. rewrite !elem_of_carried. apply Hu.
  - eapply (acs_size_ok mb id ps (carried brbs id) (dec id)); [apply Hp|exact Hi|done].
Qed.

Lemma bkr_channel_agreement_witness :
  [x1; x2; x3] = [x1; x2; x3] ∧ 4 - 1 ≤ Z.of_nat (length [x1; x2; x3]).
Proof.
  exact (bkr_channel_agreement mb4 ps brbs bdec bconfig bid p1 p2 _ _ bconfig_reachable brbs_unique
    acs_run_correct_p1 acs_run_correct_p2 bconfig_p1 bconfig_p2).
Defined.

(** Exact parsing of proposals.  [unmarshal] never panics, and accepts
    exactly what [marshal] writes. *)
Theorem bkr_proposal_exact (data : bytes) (m : bkrProposalMsg) :
  returns (bkr_unmarshal data) ∧ (bkr_unmarshal data = Done (Ok m) ↔ data = bkr_marshal m).
Proof. split; [eexists; apply bkr_unmarshal_spec|apply bkr_unmarshal_Ok]. Qed.
