(* ===== verification/CoinGroup.v ===== *)
(** * The group of the coin tosser

    [arithmetic.go] and the interpolation of [ss.go], over the operations of
    CIRCL's [group.Ristretto255], which are a parameter: a record of functions.
    This file uses the Standard Library only, so that both the files on maps and
    lists and the one on polynomials can build on it. *)

From Stdlib Require Import List ZArith.
From Stdlib Require Import Init.Byte.
Import ListNotations.

(** [group.Scalar], [group.Element] and their methods; [None] is an error. *)
Record CirclGroup : Type := MkCirclGroup {
  Scalar : Type;
  Element : Type;
  s_New : Scalar;
  e_New : Element;
  s_SetUint64 : Z -> Scalar;
  s_Mul : Scalar -> Scalar -> Scalar;
  s_Sub : Scalar -> Scalar -> Scalar;
  s_Neg : Scalar -> Scalar;
  s_Inv : Scalar -> Scalar;
  s_IsEqual : Scalar -> Scalar -> bool;
  s_MarshalBinary : Scalar -> option (list byte);
  s_UnmarshalBinary : list byte -> option Scalar;
  e_Mul : Element -> Scalar -> Element;
  e_Add : Element -> Element -> Element;
  e_MarshalBinary : Element -> option (list byte);
  e_UnmarshalBinary : list byte -> option Element;
}.

Arguments s_New {_}.
Arguments e_New {_}.
Arguments s_SetUint64 {_}.
Arguments s_Mul {_}.
Arguments s_Sub {_}.
Arguments s_Neg {_}.
Arguments s_Inv {_}.
Arguments s_IsEqual {_}.
Arguments s_MarshalBinary {_}.
Arguments s_UnmarshalBinary {_}.
Arguments e_Mul {_}.
Arguments e_Add {_}.
Arguments e_MarshalBinary {_}.
Arguments e_UnmarshalBinary {_}.

(** [ss.Share] of CIRCL. *)
Record Share (G : CirclGroup) : Type := MkShare { share_ID : Scalar G; share_Value : Scalar G }.
Arguments MkShare {_}.
Arguments share_ID {_}.
Arguments share_Value {_}.

Record pointShare (G : CirclGroup) : Type := PointShare { ps_id : Scalar G; ps_point : Element G }.
Arguments PointShare {_}.
Arguments ps_id {_}.
Arguments ps_point {_}.

Section arithmetic.
Context {G : CirclGroup}.

(** ** [arithmetic.go] *)

Definition mulScalar (a b : Scalar G) : Scalar G := s_Mul a b.
Definition NewScalar (n : Z) : Scalar G := s_SetUint64 n.
Definition sub (a b : Scalar G) : Scalar G := s_Sub a b.
Definition neg (a : Scalar G) : Scalar G := s_Neg a.
Definition inv (a : Scalar G) : Scalar G := s_Inv a.
Definition mulPoint (a : Element G) (b : Scalar G) : Element G := e_Mul a b.
Definition addPoint (a b : Element G) : Element G := e_Add a b.

Definition shareToPoint (share : Share G) (base : Element G) : pointShare G :=
  PointShare (share_ID share) (mulPoint base (share_Value share)).

(** ** Interpolation at zero *)

Definition lagrangeCoefficient (i : Scalar G) (indices : list (Scalar G)) : Scalar G :=
  let filteredIndices := filter (fun j => negb (s_IsEqual i j)) indices in
  let numerators := fold_left (fun acc j => mulScalar (neg j) acc) filteredIndices (NewScalar 1) in
  let denominators := fold_left (fun acc j => mulScalar acc (sub i j)) filteredIndices (NewScalar 1) in
  mulScalar numerators (inv denominators).

(** [terms[1:]] panics when there is no share: [None]. *)
Definition recoverSecretFromPoints (shares : list (pointShare G)) : option (Element G) :=
  let indices := map ps_id shares in
  let coefficients := map (fun i => lagrangeCoefficient i indices) indices in
  let terms := map (fun '(share, coeff) => mulPoint (ps_point share) coeff) (combine shares coefficients) in
  match terms with
  | [] => None
  | t :: terms => Some (fold_left (fun acc term => addPoint acc term) terms t)
  end.

(** What the shares of a secret promise to the coin: for each base there is one
    point, and any [t + 1] of the shares recover it. *)
Class SharedSecret (t : nat) (shares : list (Share G)) : Prop := {
  shared_ids : NoDup (map share_ID shares);
  shared_point (base : Element G) : exists p, forall picked,
    (forall s, In s picked -> In s shares) -> NoDup (map share_ID picked) -> t < length picked ->
    recoverSecretFromPoints (map (fun s => shareToPoint s base) picked) = Some p;
}.
End arithmetic.
