(* ===== verification/CoinShamir.v ===== *)
(** * Recovery of the coin's secret point

    The interpolation of [CoinGroup] over a prime-order group.  What is relied
    on of the group is its documented behaviour: the scalars are a field and the
    elements a vector space over it.  The proofs go through the polynomials of
    MathComp. *)

From Stdlib Require Import ZArith.
From Stdlib Require List.
Set Warnings "-notation-overridden,-ambiguous-paths".
From HB Require Import structures.
From mathcomp Require Import boot ssralg poly zmodp.
From S2P Require Import CoinGroup.

Set Implicit Arguments.
Unset Strict Implicit.
Unset Printing Implicit Defensive.

Import GRing.Theory.
Local Open Scope ring_scope.

(** The group of a field [F] and a vector space [V] over it; the encodings to
    bytes are any functions. *)
Section field_group.
Variables (F : fieldType) (V : lmodType F).
Variables (sm : F -> option (list Byte.byte)) (su : list Byte.byte -> option F).
Variables (em : V -> option (list Byte.byte)) (eu : list Byte.byte -> option V).

Definition field_group : CirclGroup :=
  @MkCirclGroup F V 0 0 (fun n => (Z.to_nat n)%:R) (fun a b => a * b) (fun a b => a - b) (fun a => - a)
    (fun a => a^-1) (fun a b => a == b) sm su (fun e s => s *: e) (fun a b => a + b) em eu.

Abbreviation G := field_group.

(** The polynomial that is one at [i] and zero at the other indices. *)
Definition basis (i : F) (xs : seq F) : {poly F} :=
  \prod_(j <- xs | i != j) ((i - j)^-1 *: ('X - j%:P)).

Lemma fold_left_num (i : F) (xs : seq F) (acc : F) :
  List.fold_left (fun acc j => (- j) * acc) (List.filter (fun j => ~~ (i == j)) xs) acc =
  acc * \prod_(j <- xs | i != j) (- j).
Proof.
elim: xs acc => [|x xs IH] acc; first by rw big_nil mulr1.
rw big_cons /=; case: (i != x) => //=.
by rw IH mulrA [acc * _]mulrC.
Qed.

Lemma fold_left_den (i : F) (xs : seq F) (acc : F) :
  List.fold_left (fun acc j => acc * (i - j)) (List.filter (fun j => ~~ (i == j)) xs) acc =
  acc * \prod_(j <- xs | i != j) (i - j).
Proof.
elim: xs acc => [|x xs IH] acc; first by rw big_nil mulr1.
rw big_cons /=; case: (i != x) => //=.
by rw IH mulrA.
Qed.

(** The coefficient the code computes is the basis polynomial at zero. *)
Lemma lagrangeCoefficient_basis (i : F) (xs : seq F) :
  @lagrangeCoefficient G i xs = (basis i xs).[0].
Proof.
rw /lagrangeCoefficient /mulScalar /neg /sub /inv /NewScalar /=.
rw fold_left_num fold_left_den /= !mul1r -prodfV -big_split /= /basis.
rw horner_prod; apply: eq_bigr => j _.
by rw hornerZ !hornerE ?sub0r mulrC.
Qed.

Lemma basis_at (i j : F) (xs : seq F) : j \in xs -> (basis i xs).[j] = (i == j)%:R.
Proof.
move=> jxs; rw /basis horner_prod; case: eqP => [<-|/eqP nij].
  by rw big1 // => k nik; rw hornerZ !hornerE mulVf // subr_eq0.
rw (big_rem j) //= nij hornerZ !hornerE subrr mulr0; by rw mul0r.
Qed.

Lemma size_basis (i : F) (xs : seq F) : uniq xs -> i \in xs -> (size (basis i xs) <= size xs)%N.
Proof.
move=> uxs ixs; rw /basis -big_filter.
have -> : size xs = (size [seq j <- xs | i != j]).+1.
  have -> : [seq j <- xs | i != j] = rem i xs.
    by rw rem_filter //; apply: eq_filter => j; rw /= eq_sym.
  by rw size_rem // prednK //; case: (xs) ixs.
elim: [seq j <- xs | i != j] => [|x s IH]; first by rw big_nil size_poly1.
rw big_cons; apply: (leq_trans (size_polyMleq _ _)).
have hs : (size ((i - x)^-1 *: ('X - x%:P)) <= 2)%N.
  by apply: (leq_trans (size_scale_leq _ _)); rw size_XsubC.
have := leq_add hs IH; by rw -subn1 leq_subLR add1n.
Qed.

(** Two small polynomials that agree on [xs] are equal. *)
Lemma poly_eq_on (p q : {poly F}) (xs : seq F) :
  uniq xs -> (size p <= size xs)%N -> (size q <= size xs)%N ->
  {in xs, forall x, p.[x] = q.[x]} -> p = q.
Proof.
move=> uxs sp sq heq; apply/eqP; rw -subr_eq0; apply/eqP.
apply: (@roots_geq_poly_eq0 _ _ xs) => //.
  by apply/allP => x xin; rw /root !hornerE heq // subrr.
by apply: (leq_trans (size_polyD _ _)); rw size_polyN geq_max sp sq.
Qed.

Lemma interpolate (p : {poly F}) (xs : seq F) :
  uniq xs -> (size p <= size xs)%N -> p = \sum_(i <- xs) p.[i] *: basis i xs.
Proof.
move=> uxs sp; apply: (poly_eq_on uxs sp) => [|x xin].
  rw big_seq; elim/big_rec: _ => [|i q ixs hq]; first by rw size_poly0.
  apply: (leq_trans (size_polyD _ _)); rw geq_max hq andbT.
  by apply: (leq_trans (size_scale_leq _ _)); exact: size_basis.
rw horner_sum (bigD1_seq x) //= hornerZ basis_at // eqxx mulr1.
rw big1 ?addr0 // => i nix; by rw hornerZ basis_at // (negbTE nix) mulr0.
Qed.

(** The shares of the polynomial [p] for the indices [xs], in the exponent. *)
Definition shares_of (p : {poly F}) (B : V) (xs : seq F) : list (pointShare G) :=
  [seq @shareToPoint G (@MkShare G x p.[x]) B | x <- xs].

Lemma fold_left_add (l : seq V) (a : V) :
  List.fold_left (fun acc t => acc + t) l a = a + \sum_(t <- l) t.
Proof.
elim: l a => [|x l IH] a /=; first by rw big_nil addr0.
by rw IH big_cons addrA.
Qed.

Lemma map_map_seq (A B : Type) (f : A -> B) (l : seq A) : List.map f l = [seq f x | x <- l].
Proof. by []. Qed.

Lemma combine_map (A B C : Type) (f : A -> B) (g : A -> C) (l : seq A) :
  List.combine [seq f x | x <- l] [seq g x | x <- l] = [seq (f x, g x) | x <- l].
Proof. by elim: l => //= x l ->. Qed.

Lemma recover_sum (p : {poly F}) (B : V) (xs : seq F) :
  xs <> [::] ->
  recoverSecretFromPoints (shares_of p B xs) =
  Some (\sum_(i <- xs) (basis i xs).[0] *: (p.[i] *: B)).
Proof.
have hid : List.map ps_id (shares_of p B xs) = xs.
  by rw /shares_of map_map_seq -map_comp; apply: map_id_in => x _.
have hco : List.map (fun i => @lagrangeCoefficient G i xs) xs = [seq (basis i xs).[0] | i <- xs].
  by apply: eq_map => i; exact: lagrangeCoefficient_basis.
case: xs hid hco => [//|x xs] hid hco _.
rw /recoverSecretFromPoints hid hco /shares_of combine_map map_map_seq -map_comp /=.
by rw fold_left_add big_cons big_map.
Qed.

Lemma recover_secret (p : {poly F}) (B : V) (xs : seq F) :
  xs <> [::] -> uniq xs -> (size p <= size xs)%N ->
  recoverSecretFromPoints (shares_of p B xs) = Some (p.[0] *: B).
Proof.
move=> nxs uxs sp; rw recover_sum //; congr Some.
rw [in RHS](interpolate uxs sp) horner_sum scaler_suml.
apply: eq_bigr => i _; rw scalerA hornerZ [in LHS]mulrC //.
Qed.

(** ** The shares of a polynomial of degree at most [t] keep the promise *)

Definition deal_of (p : {poly F}) (xs : seq F) : list (Share G) :=
  [seq @MkShare G x p.[x] | x <- xs].

Lemma In_mem (T : eqType) (x : T) (l : seq T) : List.In x l <-> x \in l.
Proof.
elim: l => [|y l IH] //=; rw in_cons; split.
  by case=> [->|/IH ->]; rw ?eqxx ?orbT.
by case/orP => [/eqP ->|/IH]; [left|right].
Qed.

Lemma uniq_NoDup (T : eqType) (l : seq T) : uniq l <-> List.NoDup l.
Proof.
elim: l => [|x l IH] /=; first by split => // _; constructor.
split=> [/andP[xl ul]|nd].
  by constructor; [move/In_mem; apply/negP|apply/IH].
inversion_clear nd as [|? ? nin nd'].
apply/andP; split; last by apply/IH.
by apply/negP => /In_mem.
Qed.

Lemma deal_picked (p : {poly F}) (xs : seq F) (picked : list (Share G)) :
  (forall s, List.In s picked -> List.In s (deal_of p xs)) ->
  picked = deal_of p [seq share_ID s | s <- picked].
Proof.
elim: picked => [|s picked IH] sub //=.
have e := IH (fun s' ins => sub s' (or_intror ins)).
have [x [es _]] := proj1 (List.in_map_iff _ _ _) (sub s (or_introl erefl)).
by congr cons; [rw -es|exact: e].
Qed.

Instance shamir_shared (p : {poly F}) (xs : seq F) (t : nat) :
  (size p <= t.+1)%N -> uniq xs -> @SharedSecret G t (deal_of p xs).
Proof.
move=> sp ux; split.
  by apply/uniq_NoDup; rw /deal_of map_map_seq -map_comp map_id.
move=> B; exists (p.[0] *: B) => picked sub nd lt.
rw (deal_picked sub) /deal_of map_map_seq -map_comp.
have uids : uniq [seq share_ID s | s <- picked] by apply/uniq_NoDup.
have sids : (size p <= size [seq share_ID s | s <- picked])%N.
  by rw size_map; apply: (leq_trans sp); apply/ltP.
apply: (recover_secret B _ uids sids).
by case: (picked) lt => //= /ltP.
Qed.
End field_group.

(** The integers modulo 7, as a vector space over themselves. *)
Definition group7 : CirclGroup :=
  @field_group 'F_7 ('F_7)^o (fun _ => None) (fun _ => None) (fun _ => None) (fun _ => None).

Definition secret7 : {poly 'F_7} := Poly [:: 3%:R; 2%:R].

Lemma size_secret7 : (size secret7 <= 2)%N.
Proof. exact: size_Poly. Qed.

(** ** Theorems *)

(** C24: recovery of the coin.  When the shares are those of a polynomial of
    degree at most [t] (the dealer's), the point recovered from [t + 1] or more
    shares with different indices is the secret times the base of the coin:
    whichever peers' shares arrive first, every process gets the same point,
    and so the same coin. *)
Theorem coin_recovered (F : fieldType) (V : lmodType F) sm su em eu
    (p : {poly F}) (B : V) (t : nat) (xs : seq F) :
  (size p <= t.+1)%N -> (t < size xs)%N -> uniq xs ->
  @recoverSecretFromPoints (@field_group F V sm su em eu) (shares_of sm su em eu p B xs) = Some (p.[0] *: B).
Proof.
move=> sp st uxs; apply: recover_secret => //; first by case: (xs) st.
exact: leq_trans sp st.
Qed.

Lemma coin_recovered_witness :
  @recoverSecretFromPoints group7
    (shares_of (fun _ => None) (fun _ => None) (fun _ => None) (fun _ => None)
       secret7 (1 : ('F_7)^o) [:: 5%:R; 2%:R]) = Some (secret7.[0] *: (1 : ('F_7)^o)).
Proof.
exact: (@coin_recovered 'F_7 ('F_7)^o (fun _ => None) (fun _ => None) (fun _ => None) (fun _ => None)
  secret7 (1 : ('F_7)^o) 1 [:: 5%:R; 2%:R] size_secret7 isT isT).
Defined.
