(* ===== verification/CoinWire.v ===== *)
(** * Message formats of the coin tosser

    [pointShare.go], [ctShare.go], the marshalling of [ss.go] and of the deal in
    [dealer.go], and [processMsg] and [bebDeliver] of [middleware.go].  The group
    and the proofs of discrete-logarithm equality (CIRCL) are parameters: records
    of functions, with the law that what is encoded decodes. *)

From stdpp Require Import base tactics numbers list gmap.
From Stdlib Require Import Init.Byte.
From S2P Require Import Prelude Utils CoinGroup.

Local Open Scope Z_scope.

(** [dleq.Proof] and its encoding. *)
Record DleqProof (G : CirclGroup) : Type := MkDleqProof {
  Proof : Type;
  pr_MarshalBinary : Proof → option bytes;
  pr_UnmarshalBinary : bytes → option Proof;
}.
Arguments Proof {_}.
Arguments pr_MarshalBinary {_ _}.
Arguments pr_UnmarshalBinary {_ _}.

(** Encodings have a fixed length and decode to what was encoded. *)
Class GroupEncoding (G : CirclGroup) (ssize esize : nat) : Prop := {
  enc_scalar (s : Scalar G) :
    ∃ b, s_MarshalBinary s = Some b ∧ length b = ssize ∧ s_UnmarshalBinary b = Some s;
  enc_element (e : Element G) :
    ∃ b, e_MarshalBinary e = Some b ∧ length b = esize ∧ e_UnmarshalBinary b = Some e;
}.
Class ProofEncoding {G : CirclGroup} (D : DleqProof G) : Prop := {
  enc_proof (p : Proof D) :
    ∃ b, pr_MarshalBinary p = Some b ∧ pr_UnmarshalBinary b = Some p;
}.

Inductive ct_err :=
| SizeErr
| WrongSize (got : nat)
| BadScalar
| BadElement
| BadProof
| BadId (e : extract_err)
| NoSenderKey
| NoShare (e : io_err).

Section formats.
Context (G : CirclGroup) (D : DleqProof G).

(** ** Sizes *)

Definition GetScalarSize : option nat := length <$> s_MarshalBinary (s_New (c := G)).
Definition getElementSize : option nat := length <$> e_MarshalBinary (e_New (c := G)).
Definition getPointShareSize : option nat :=
  scalarSize ← GetScalarSize; elementSize ← getElementSize; Some (scalarSize + elementSize)%nat.

(** ** Shares *)

Definition marshalShare (share : Share G) : option bytes :=
  idBytes ← s_MarshalBinary (share_ID share);
  valueBytes ← s_MarshalBinary (share_Value share);
  Some (idBytes ++ valueBytes).

Definition unmarshalShare (data : bytes) : result ct_err (Share G) :=
  match GetScalarSize with
  | None => Err SizeErr
  | Some scalarSize =>
    if decide (length data ≠ scalarSize * 2)%nat then Err (WrongSize (length data)) else
    match s_UnmarshalBinary (take scalarSize data) with
    | None => Err BadScalar
    | Some id =>
      match s_UnmarshalBinary (drop scalarSize data) with
      | None => Err BadScalar
      | Some value => Ok (MkShare id value)
      end
    end
  end.

Definition pointShare_marshalBinary (ps : pointShare G) : option bytes :=
  idBytes ← s_MarshalBinary (ps_id ps);
  pointBytes ← e_MarshalBinary (ps_point ps);
  Some (idBytes ++ pointBytes).

Definition pointShare_unmarshalBinary (data : bytes) : result ct_err (pointShare G) :=
  match GetScalarSize, getElementSize with
  | Some idSize, Some pointSize =>
    if decide (length data ≠ idSize + pointSize)%nat then Err (WrongSize (length data)) else
    match s_UnmarshalBinary (take idSize data) with
    | None => Err BadScalar
    | Some id =>
      match e_UnmarshalBinary (drop idSize data) with
      | None => Err BadElement
      | Some point => Ok (PointShare id point)
      end
    end
  | _, _ => Err SizeErr
  end.

Record ctShare := CtShare { ct_pt : pointShare G; ct_proof : Proof D }.

Definition ctShare_marshalBinary (s : ctShare) : option bytes :=
  ptBytes ← pointShare_marshalBinary (ct_pt s);
  proofBytes ← pr_MarshalBinary (ct_proof s);
  Some (ptBytes ++ proofBytes).

(** [data[:ptSize]] panics on a shorter slice (its capacity is its length:
    [processMsg] makes it). *)
Definition ctShare_unmarshalBinary (data : bytes) : outcome (result ct_err ctShare) :=
  match getPointShareSize with
  | None => Done (Err SizeErr)
  | Some ptSize =>
    if decide (length data < ptSize)%nat then Panic else
    match pointShare_unmarshalBinary (take ptSize data) with
    | Err e => Done (Err e)
    | Ok pt =>
      match pr_UnmarshalBinary (drop ptSize data) with
      | None => Done (Err BadProof)
      | Some proof => Done (Ok (CtShare pt proof))
      end
    end
  end.

(** ** The middleware *)

Record ct_msg := CtMsg { cm_id : UUID; cm_sender : UUID; cm_share : ctShare }.

(** The bytes [broadcastCTShare] gives to the broadcast channel. *)
Definition broadcastCTShare (id : UUID) (share : ctShare) : option bytes :=
  shareBytes ← ctShare_marshalBinary share; Some (uuid_bytes id ++ shareBytes).

Definition ct_processMsg {PublicKey : Type} (SerializePublicKey : PublicKey → option bytes)
    (content : bytes) (sender : PublicKey) : outcome (result ct_err ct_msg) :=
  match ExtractIdFromMessage content with
  | Err e => Done (Err (BadId e))
  | Ok (id, reader) =>
    match PkToUUID SerializePublicKey sender with
    | None => Done (Err NoSenderKey)
    | Some senderId =>
      match reader_Read (length reader) reader with
      | Err e => Done (Err (NoShare e))
      | Ok (shareBytes, _) =>
        r ← ctShare_unmarshalBinary shareBytes;
        match r with
        | Err e => Done (Err e)
        | Ok share => Done (Ok (CtMsg id senderId share))
        end
      end
    end
  end.

(** One message of [bebDeliver].  An error is logged, and then the fields of the
    nil message are read: a panic, in a goroutine that does not recover. *)
Definition ct_bebDeliver {PublicKey : Type} (SerializePublicKey : PublicKey → option bytes)
    (content : bytes) (sender : PublicKey) : outcome ct_msg :=
  r ← ct_processMsg SerializePublicKey content sender;
  match r with
  | Err _ => Panic
  | Ok m => Done m
  end.

(** ** The deal *)

Definition writeCommitment (base : bytes) (commits : list bytes) : bytes :=
  base ++ le_encode 4 (Z.of_nat (length commits)) ++ concat commits.

Definition marshalCommitment (base : Element G) (commits : list (pointShare G)) : option bytes :=
  baseBytes ← e_MarshalBinary base;
  commitsBytes ← mapM pointShare_marshalBinary commits;
  Some (writeCommitment baseBytes commitsBytes).

Definition computeCommitment (base : Element G) (shares : list (Share G)) : option bytes :=
  marshalCommitment base ((λ share, shareToPoint share base) <$> shares).

Record deal := Deal { d_base : Element G; d_share : Share G; d_commits : list (pointShare G) }.

Definition unmarshalBase (dataIn : bytes) : result ct_err (Element G * bytes) :=
  match getElementSize with
  | None => Err SizeErr
  | Some baseLen =>
    if decide (length dataIn < baseLen)%nat then Err (WrongSize (length dataIn)) else
    match e_UnmarshalBinary (take baseLen dataIn) with
    | None => Err BadElement
    | Some base => Ok (base, drop baseLen dataIn)
    end
  end.

Definition unmarshalCommitLen (dataIn : bytes) : result ct_err (Z * bytes) :=
  if decide (length dataIn < 4)%nat then Err (WrongSize (length dataIn))
  else Ok (le_decode (take 4 dataIn), drop 4 dataIn).

(** The loop over the [num] shares. *)
Fixpoint unmarshalShares_loop (size num : nat) (dataIn : bytes) : result ct_err (list (pointShare G)) :=
  match num with
  | O => Ok []
  | S num =>
    ps ← pointShare_unmarshalBinary (take size dataIn);
    pss ← unmarshalShares_loop size num (drop size dataIn);
    Ok (ps :: pss)
  end.

(** [num] is below [2 ^ 32], so the product does not overflow an [int]. *)
Definition unmarshalPointShares (dataIn : bytes) (num : Z) : result ct_err (list (pointShare G)) :=
  match getPointShareSize with
  | None => Err SizeErr
  | Some size =>
    if decide (Z.of_nat (length dataIn) ≠ num * Z.of_nat size) then Err (WrongSize (length dataIn))
    else unmarshalShares_loop size (Z.to_nat num) dataIn
  end.

Definition unmarshalCommitment (data : bytes) : result ct_err (Element G * list (pointShare G)) :=
  '(base, data) ← unmarshalBase data;
  '(commitLen, data) ← unmarshalCommitLen data;
  pointShares ← unmarshalPointShares data commitLen;
  Ok (base, pointShares).

(** [listenDeal] on a message without an error. *)
Definition listenDeal (share : Share G) (commitment : bytes) : result ct_err deal :=
  '(base, commits) ← unmarshalCommitment commitment; Ok (Deal base share commits).

(** ** Lemmas *)

Context (ssize esize : nat) `{!GroupEncoding G ssize esize} `{!ProofEncoding D}.

Lemma scalar_size : GetScalarSize = Some ssize.
Proof. unfold GetScalarSize. destruct (enc_scalar (s_New (c := G))) as (b & -> & <- & _). done. Qed.
Lemma element_size : getElementSize = Some esize.
Proof. unfold getElementSize. destruct (enc_element (e_New (c := G))) as (b & -> & <- & _). done. Qed.
Lemma pointShare_size : getPointShareSize = Some (ssize + esize)%nat.
Proof. unfold getPointShareSize. by rewrite scalar_size, element_size. Qed.

Lemma pointShare_roundtrip ps : ∃ b,
  pointShare_marshalBinary ps = Some b ∧ length b = (ssize + esize)%nat ∧
  pointShare_unmarshalBinary b = Ok ps.
Proof.
  destruct ps as [i p]. destruct (enc_scalar i) as (bi & Hi & Hli & Hui).
  destruct (enc_element p) as (bp & Hp & Hlp & Hup).
  exists (bi ++ bp). unfold pointShare_marshalBinary, pointShare_unmarshalBinary. simpl. rewrite Hi, Hp. simpl.
  split; [done|]. split; [by rewrite length_app, Hli, Hlp|].
  rewrite scalar_size, element_size, length_app, Hli, Hlp.
  rewrite decide_False by naive_solver.
  rewrite take_app_length', drop_app_length' by done. by rewrite Hui, Hup.
Qed.

Lemma share_roundtrip share : ∃ b, marshalShare share = Some b ∧ unmarshalShare b = Ok share.
Proof.
  destruct share as [i v]. destruct (enc_scalar i) as (bi & Hi & Hli & Hui).
  destruct (enc_scalar v) as (bv & Hv & Hlv & Huv).
  exists (bi ++ bv). unfold marshalShare, unmarshalShare. simpl. rewrite Hi, Hv. simpl. split; [done|].
  rewrite scalar_size, length_app, Hli, Hlv. rewrite decide_False by (intros Hn; apply Hn; lia).
  rewrite take_app_length', drop_app_length' by done. by rewrite Hui, Huv.
Qed.

Lemma ctShare_roundtrip s : ∃ b,
  ctShare_marshalBinary s = Some b ∧ (ssize + esize ≤ length b)%nat ∧ ctShare_unmarshalBinary b = Done (Ok s).
Proof.
  destruct s as [pt pr]. destruct (pointShare_roundtrip pt) as (bp & Hp & Hl & Hu).
  destruct (enc_proof pr) as (bq & Hq & Huq). exists (bp ++ bq).
  unfold ctShare_marshalBinary, ctShare_unmarshalBinary. simpl. rewrite Hp, Hq. simpl.
  split; [done|]. rewrite length_app. split; [lia|]. rewrite pointShare_size.
  rewrite decide_False by lia. rewrite take_app_length', drop_app_length' by done. by rewrite Hu, Huq.
Qed.

Lemma loop_roundtrip commits : ∃ bs,
  mapM pointShare_marshalBinary commits = Some bs ∧ length bs = length commits ∧
  length (concat bs) = (length commits * (ssize + esize))%nat ∧
  unmarshalShares_loop (ssize + esize) (length commits) (concat bs) = Ok commits.
Proof.
  induction commits as [|ps commits (bs & Hm & Hl & Hc & Hu)]; [by exists []|].
  destruct (pointShare_roundtrip ps) as (b & Hp & Hlb & Hub). exists (b :: bs). simpl.
  rewrite Hp. simpl. rewrite Hm. simpl. split; [done|]. split; [by rewrite Hl|].
  rewrite length_app, Hlb, Hc. split; [lia|].
  rewrite take_app_length', drop_app_length' by done. by rewrite Hub; simpl; rewrite Hu.
Qed.

Lemma commitment_roundtrip base commits :
  Z.of_nat (length commits) < 2 ^ 32 → ∃ b,
  marshalCommitment base commits = Some b ∧ unmarshalCommitment b = Ok (base, commits).
Proof.
  intros Hn. destruct (enc_element base) as (bb & Hb & Hlb & Hub).
  destruct (loop_roundtrip commits) as (bs & Hm & Hl & Hc & Hu).
  exists (writeCommitment bb bs). unfold marshalCommitment. rewrite Hb. cbn [mbind option_bind]. rewrite Hm. cbn [mbind option_bind].
  split; [done|]. unfold unmarshalCommitment, unmarshalBase, writeCommitment.
  rewrite element_size, decide_False by (rewrite length_app; lia).
  rewrite take_app_length', drop_app_length' by done. rewrite Hub. cbn [mbind result_bind].
  unfold unmarshalCommitLen. rewrite decide_False by (rewrite length_app, length_le_encode; lia).
  rewrite take_app_length', drop_app_length' by (by rewrite length_le_encode).
  rewrite Hl, le_decode_encode_small by lia. cbn [mbind result_bind]. unfold unmarshalPointShares.
  rewrite pointShare_size, Hc, decide_False by (intros Hx; apply Hx; lia).
  rewrite Nat2Z.id, Hu. done.
Qed.

Lemma computeCommitment_some base shares :
  Z.of_nat (length shares) < 2 ^ 32 → ∃ c,
  computeCommitment base shares = Some c ∧
  length c = (esize + 4 + length shares * (ssize + esize))%nat ∧
  ∀ share, listenDeal share c = Ok (Deal base share ((λ s, shareToPoint s base) <$> shares)).
Proof.
  intros Hn. unfold computeCommitment. set (commits := (λ s, shareToPoint s base) <$> shares).
  assert (Hlen : length commits = length shares) by apply length_fmap.
  destruct (commitment_roundtrip base commits) as (c & Hc & Hu); [by rewrite Hlen|].
  exists c. split; [done|]. split; [|intros share; unfold listenDeal; by rewrite Hu].
  destruct (enc_element base) as (bb & Hb & Hlb & _). destruct (loop_roundtrip commits) as (bs & Hm & _ & Hcc & _).
  unfold marshalCommitment in Hc. rewrite Hb in Hc. cbn [mbind option_bind] in Hc. rewrite Hm in Hc.
  injection Hc as <-. unfold writeCommitment. rewrite !length_app, length_le_encode, Hcc, Hlb, Hlen. lia.
Qed.
End formats.

(** ** A concrete group: the field with two elements over itself *)

Module Gf2.
Definition gf2_marshal (b : bool) : option bytes := Some [if b then "001"%byte else "000"%byte].
Definition gf2_unmarshal (l : bytes) : option bool :=
  match l with
  | ["000"%byte] => Some false
  | ["001"%byte] => Some true
  | _ => None
  end.
Definition gf2 : CirclGroup :=
  MkCirclGroup bool bool false false Z.odd andb xorb (λ b, b) (λ b, b) eqb gf2_marshal gf2_unmarshal
    andb xorb gf2_marshal gf2_unmarshal.
(** Proofs are arbitrary byte strings. *)
Definition any_proof : DleqProof gf2 := MkDleqProof gf2 bytes Some Some.

#[export] Instance gf2_encoding : GroupEncoding gf2 1 1.
Proof. split; intros [|]; by eexists. Qed.
#[export] Instance any_proof_encoding : ProofEncoding any_proof.
Proof. split. intros p. by exists p. Qed.

Definition share1 : ctShare gf2 any_proof :=
  CtShare gf2 any_proof (PointShare (true : Scalar gf2) (false : Element gf2)) ["007"%byte].
End Gf2.
Import Gf2.

(** ** Theorems *)

(** Round trip of coin shares.  What [broadcastCTShare] writes is read back
    by every receiver as the same share of the same instance, from the sender
    whose key authenticated it. *)
Theorem ct_message_roundtrip (G : CirclGroup) (D : DleqProof G) ssize esize
    `{!GroupEncoding G ssize esize} `{!ProofEncoding D}
    {PublicKey : Type} (SerializePublicKey : PublicKey → option bytes) pk sender id share :
  PkToUUID SerializePublicKey pk = Some sender → (0 < ssize)%nat →
  ∃ b, broadcastCTShare G D id share = Some b ∧
       ct_bebDeliver G D SerializePublicKey b pk = Done (CtMsg G D id sender share).
Proof.
  intros Hpk Hs. destruct (ctShare_roundtrip G D ssize esize share) as (b & Hb & Hl & Hu).
  exists (uuid_bytes id ++ b). unfold broadcastCTShare. rewrite Hb. split; [done|].
  unfold ct_bebDeliver, ct_processMsg. rewrite ExtractIdFromMessage_app, Hpk.
  destruct b as [|x b]; [simpl in Hl; lia|]. unfold reader_Read. rewrite firstn_all.
  cbn [mbind outcome_bind]. by rewrite Hu.
Qed.

Lemma ct_message_roundtrip_witness :
  ∃ b, broadcastCTShare gf2 any_proof uuid_Nil share1 = Some b ∧
       ct_bebDeliver gf2 any_proof (λ k : bytes, Some k) b [] =
       Done (CtMsg gf2 any_proof uuid_Nil (BytesToUUID []) share1).
Proof.
  apply (ct_message_roundtrip gf2 any_proof 1 1 (λ k : bytes, Some k) [] (BytesToUUID []) uuid_Nil share1);
    [reflexivity|lia].
Defined.

(** A short message crashes its receivers.  A broadcast message that is
    shorter than an identifier and a point share panics the goroutine
    [bebDeliver], and with it the process: a slice out of range in
    [unmarshalBinary], or the fields of a nil message read after an error. *)
Theorem ct_short_message_panics (G : CirclGroup) (D : DleqProof G) ssize esize
    `{!GroupEncoding G ssize esize}
    {PublicKey : Type} (SerializePublicKey : PublicKey → option bytes) pk content :
  (length content < uuid_size + (ssize + esize))%nat →
  ct_bebDeliver G D SerializePublicKey content pk = Panic.
Proof.
  intros Hl. unfold ct_bebDeliver, ct_processMsg.
  destruct (ExtractIdFromMessage content) as [[id r]|e] eqn:E; [|done].
  apply ExtractIdFromMessage_Ok in E as ->. rewrite length_app, uuid_length in Hl.
  destruct (PkToUUID SerializePublicKey pk); [|done].
  destruct r as [|x r]; [done|]. unfold reader_Read. rewrite firstn_all.
  unfold ctShare_unmarshalBinary. rewrite (pointShare_size G ssize esize).
  by rewrite decide_True by lia.
Qed.

Lemma ct_short_message_panics_witness :
  ct_bebDeliver gf2 any_proof (λ k : bytes, Some k) (uuid_bytes uuid_Nil ++ ["000"%byte]) [] = Panic.
Proof.
  apply (ct_short_message_panics gf2 any_proof 1 1 (λ k : bytes, Some k) []). vm_compute. lia.
Defined.

(** Round trip of the deal.  The commitment the dealer broadcasts is read
    back by every participant, and so is the share it is sent. *)
Theorem deal_roundtrip (G : CirclGroup) ssize esize `{!GroupEncoding G ssize esize}
    (base : Element G) (shares : list (Share G)) (share : Share G) :
  Z.of_nat (length shares) < 2 ^ 32 →
  ∃ c b, computeCommitment G base shares = Some c ∧ marshalShare G share = Some b ∧
    unmarshalShare G b = Ok share ∧
    listenDeal G share c = Ok (Deal G base share ((λ s, shareToPoint s base) <$> shares)).
Proof.
  intros Hn. unfold computeCommitment.
  destruct (commitment_roundtrip G ssize esize base ((λ s, shareToPoint s base) <$> shares))
    as (c & Hc & Hu); [by rewrite length_fmap|].
  destruct (share_roundtrip G ssize esize share) as (b & Hb & Hub).
  exists c, b. split_and!; try done. unfold listenDeal. by rewrite Hu.
Qed.

Lemma deal_roundtrip_witness :
  let s0 := @MkShare gf2 true false in let s1 := @MkShare gf2 true true in let base : Element gf2 := true in
  ∃ c b, computeCommitment gf2 base [s0] = Some c ∧ marshalShare gf2 s1 = Some b ∧
    unmarshalShare gf2 b = Ok s1 ∧
    listenDeal gf2 s1 c = Ok (Deal gf2 base s1 ((λ s, shareToPoint s base) <$> [s0])).
Proof.
  apply (deal_roundtrip gf2 1 1 (true : Element gf2) [@MkShare gf2 true false] (@MkShare gf2 true true)).
  reflexivity.
Defined.
