(* ===== verification/CoinToss.v ===== *)
(** * [instance.go] and [channel.go] of the coin tosser

    A [coinToss] checks the shares it is sent against the commitments of the
    deal; its [shareProcessor] collects them and outputs the coin on the
    [t + 1]-th.  A [CTChannel] keeps the tosses by the identifier of their seed.

    Each executor runs one command at a time, so a command is a transition.
    [processShare] answers on an unbuffered channel that its caller reads once:
    a command that answers twice leaves the executor waiting for ever, which is
    the flag [sp_stuck]. *)

From stdpp Require Import base tactics numbers list fin_sets gmap.
From Stdlib Require Import Init.Byte.
From S2P Require Import Prelude Sha256 Utils CoinGroup CoinWire.

Local Open Scope Z_scope.

Inductive toss_err :=
| MarshalErr
| NoCommitment
| ProofErr
| InvalidShare (sender : UUID)
| ShareAlreadySent (sender : UUID)
| HashErr
| TossNotFound.

Section toss.
Context (G : CirclGroup) (D : DleqProof G).
(** CIRCL's [dleq]: [Prove k a ka b kb rnd], [Verify a ka b kb proof]; and
    [HashToElement]. *)
Context (Prove : Scalar G → Element G → Element G → Element G → Element G → Scalar G → option (Proof D)).
Context (Verify : Element G → Element G → Element G → Element G → Proof D → bool).
Context (HashToElement : bytes → Element G).

(** ** [ss.go] *)

Definition byte_sum (l : bytes) : Z := foldl (λ acc b, acc + byte_Z b) 0 l.

Definition hashPointToBool (point : Element G) : result toss_err bool :=
  match e_MarshalBinary point with
  | None => Err MarshalErr
  | Some pointMarshal => Ok (byte_sum (Sum256 pointMarshal) mod 2 =? 0)
  end.

Definition areScalarEquals (a b : Scalar G) : result toss_err bool :=
  match s_MarshalBinary a, s_MarshalBinary b with
  | Some aBytes, Some bBytes => Ok (bool_decide (aBytes = bBytes))
  | _, _ => Err MarshalErr
  end.

(** ** The share processor *)

(** [sp_output]: the goroutines that send the coin. *)
Record shareProcessor := ShareProcessor {
  sp_t : Z;
  sp_shares : list (pointShare G);
  sp_receivedFrom : gset UUID;
  sp_output : list bool;
  sp_stuck : bool;
}.

Definition newShareProcessor (t : Z) : shareProcessor := ShareProcessor t [] ∅ [] false.

(** The caller gets the first of the answers of the command: the error of a
    sender seen before, the error of the hash, or nil.  A further answer leaves
    the executor stuck; what it would do after it is not done. *)
Definition processShare (share : pointShare G) (senderId : UUID) (sp : shareProcessor) :
    outcome (shareProcessor * option toss_err) :=
  if sp_stuck sp then Block else
  let dup := bool_decide (senderId ∈ sp_receivedFrom sp) in
  let received := {[senderId]} ∪ sp_receivedFrom sp in
  let shares := sp_shares sp ++ [share] in
  let answer := if dup then Some (ShareAlreadySent senderId) else None in
  if Z.of_nat (length shares) =? int_of_uint (uint_add (sp_t sp) 1) then
    match recoverSecretFromPoints shares with
    | None => Panic
    | Some secretPoint =>
      match hashPointToBool secretPoint with
      | Ok coin => Done (ShareProcessor (sp_t sp) shares received (sp_output sp ++ [coin]) dup, answer)
      | Err _ =>
        if dup then Done (ShareProcessor (sp_t sp) shares received (sp_output sp) true, answer)
        else Done (ShareProcessor (sp_t sp) shares received (sp_output sp ++ [false]) true, Some HashErr)
      end
    end
  else Done (ShareProcessor (sp_t sp) shares received (sp_output sp) dup, answer).

(** ** A toss *)

Record coinToss := CoinToss {
  ct_base : Element G;
  ct_d : deal G;
  ct_sp : shareProcessor;
}.

Definition newCoinToss (threshold : Z) (base : Element G) (d : deal G) : coinToss :=
  CoinToss base d (newShareProcessor threshold).

(** The first commitment with that identifier. *)
Fixpoint getCommit_loop (idx : Scalar G) (commits : list (pointShare G)) : result toss_err (Element G) :=
  match commits with
  | [] => Err NoCommitment
  | commit :: commits =>
    ok ← areScalarEquals (ps_id commit) idx;
    if ok : bool then Ok (ps_point commit) else getCommit_loop idx commits
  end.
Definition getCommit (idx : Scalar G) (d : deal G) : result toss_err (Element G) :=
  getCommit_loop idx (d_commits G d).

(** [seed] is the random scalar of [computeProofSeed]. *)
Definition genProof (valToProve : Element G) (seed : Scalar G) (ct : coinToss) : result toss_err (Proof D) :=
  myCommit ← getCommit (share_ID (d_share G (ct_d ct))) (ct_d ct);
  match Prove (share_Value (d_share G (ct_d ct))) (ct_base ct) valToProve (d_base G (ct_d ct)) myCommit seed with
  | None => Err ProofErr
  | Some proof => Ok proof
  end.

Definition tossCoin (seed : Scalar G) (ct : coinToss) : result toss_err (ctShare G D) :=
  let share := shareToPoint (d_share G (ct_d ct)) (ct_base ct) in
  proof ← genProof (ps_point share) seed ct;
  Ok (CtShare G D share proof).

Definition isTossValid (share : ctShare G D) (ct : coinToss) : result toss_err bool :=
  peerCommit ← getCommit (ps_id (ct_pt G D share)) (ct_d ct);
  Ok (Verify (ct_base ct) (ps_point (ct_pt G D share)) (d_base G (ct_d ct)) peerCommit (ct_proof G D share)).

Definition coin_submitShare (share : ctShare G D) (senderId : UUID) (ct : coinToss) :
    outcome (coinToss * option toss_err) :=
  match isTossValid share ct with
  | Err e => Done (ct, Some e)
  | Ok false => Done (ct, Some (InvalidShare senderId))
  | Ok true =>
    '(sp, err) ← processShare (ct_pt G D share) senderId (ct_sp ct);
    Done (CoinToss (ct_base ct) (ct_d ct) sp, err)
  end.

(** ** The channel *)

(** [ct_sent]: the shares given to [broadcastCTShare].  The map
    [outputChannels] is never filled and [finished] never set. *)
Record CTChannel := MkCTChannel {
  ctc_instances : gmap UUID coinToss;
  ctc_finished : gset UUID;
  ctc_unordered : gmap UUID (list (UUID * ctShare G D));
  ctc_t : Z;
  ctc_deal : deal G;
  ct_sent : list (UUID * ctShare G D);
}.

(** The channel once [initializeChannel] has received the deal. *)
Definition initializeChannel (t : Z) (d : deal G) : CTChannel := MkCTChannel ∅ ∅ ∅ t d [].

Definition set_toss (id : UUID) (ct : coinToss) (c : CTChannel) : CTChannel :=
  MkCTChannel (<[id := ct]> (ctc_instances c)) (ctc_finished c) (ctc_unordered c) (ctc_t c) (ctc_deal c)
    (ct_sent c).
Definition set_unordered x (c : CTChannel) : CTChannel :=
  MkCTChannel (ctc_instances c) (ctc_finished c) x (ctc_t c) (ctc_deal c) (ct_sent c).

Definition ct_submitShare (id senderId : UUID) (share : ctShare G D) (c : CTChannel) :
    outcome (CTChannel * option toss_err) :=
  if decide (id ∈ ctc_finished c) then Done (c, None) else
  match ctc_instances c !! id with
  | None => Done (c, Some TossNotFound)
  | Some ct =>
    '(ct, err) ← coin_submitShare share senderId ct;
    Done (set_toss id ct c, err)
  end.

(** An error is sent on the nil channel [outputChannels[id]], by a goroutine
    that waits for ever. *)
Fixpoint processUnordered_loop (id : UUID) (l : list (UUID * ctShare G D)) (c : CTChannel) : outcome CTChannel :=
  match l with
  | [] => Done c
  | (sender, share) :: l =>
    '(c, _) ← ct_submitShare id sender share c; processUnordered_loop id l c
  end.
Definition processUnordered (id : UUID) (c : CTChannel) : outcome CTChannel :=
  c ← processUnordered_loop id (default [] (ctc_unordered c !! id)) c;
  Done (set_unordered (delete id (ctc_unordered c)) c).

(** The command of [TossCoin]; a toss with the same identifier is replaced. *)
Definition TossCoin (seed : bytes) (proofSeed : Scalar G) (c : CTChannel) :
    outcome (CTChannel * option toss_err) :=
  let id := BytesToUUID seed in
  let ct := newCoinToss (ctc_t c) (HashToElement seed) (ctc_deal c) in
  let c := set_toss id ct c in
  match tossCoin proofSeed ct with
  | Err e => Done (c, Some e)
  | Ok share =>
    let c := MkCTChannel (ctc_instances c) (ctc_finished c) (ctc_unordered c) (ctc_t c) (ctc_deal c)
               (ct_sent c ++ [(id, share)]) in
    c ← processUnordered id c; Done (c, None)
  end.

(** The command of [scheduleShareSubmission]. *)
Definition scheduleShareSubmission (id senderId : UUID) (share : ctShare G D) (c : CTChannel) :
    outcome (CTChannel * option toss_err) :=
  if decide (id ∈ ctc_finished c) then Done (c, None) else
  match ctc_instances c !! id with
  | None =>
    Done (set_unordered (<[id := default [] (ctc_unordered c !! id) ++ [(senderId, share)]]> (ctc_unordered c)) c,
          None)
  | Some _ => ct_submitShare id senderId share c
  end.

(** ** The share processor collects [t + 1] shares *)

Fixpoint process_all (l : list (pointShare G * UUID)) (sp : shareProcessor) : outcome shareProcessor :=
  match l with
  | [] => Done sp
  | (share, sender) :: l => '(sp, _) ← processShare share sender sp; process_all l sp
  end.

Lemma process_all_snoc l share sender sp :
  process_all (l ++ [(share, sender)]) sp =
  sp ← process_all l sp; '(sp, _) ← processShare share sender sp; Done sp.
Proof.
  revert sp. induction l as [|[sh s] l IH]; intros sp; simpl.
  - by destruct (processShare share sender sp) as [[??]| |].
  - destruct (processShare sh s sp) as [[sp' ?]| |]; simpl; [apply IH|done..].
Qed.

Lemma recover_some (l : list (pointShare G)) : l ≠ [] → ∃ p, recoverSecretFromPoints l = Some p.
Proof. destruct l as [|sh l]; [done|]. intros _. unfold recoverSecretFromPoints. simpl. by eexists. Qed.

Record sp_inv (t : nat) (l : list (pointShare G * UUID)) (sp : shareProcessor) : Prop := {
  spi_t : sp_t sp = Z.of_nat t;
  spi_shares : sp_shares sp = l.*1;
  spi_received : sp_receivedFrom sp = list_to_set l.*2;
  spi_stuck : sp_stuck sp = false;
  spi_before : (length l ≤ t)%nat → sp_output sp = [];
  spi_after : (t < length l)%nat → ∃ p coin, recoverSecretFromPoints (take (S t) l.*1) = Some p ∧
    hashPointToBool p = Ok coin ∧ sp_output sp = [coin];
}.

Lemma processShare_inv t l sp share sender :
  (∀ e : Element G, is_Some (e_MarshalBinary e)) → Z.of_nat t + 1 < 2 ^ 63 →
  sp_inv t l sp → sender ∉ l.*2 →
  ∃ sp', processShare share sender sp = Done (sp', None) ∧ sp_inv t (l ++ [(share, sender)]) sp'.
Proof.
  intros Hm Ht [] Hs. unfold processShare. rewrite spi_stuck0, spi_t0, spi_shares0.
  rewrite uint_add_small, int_of_uint_small by lia.
  assert (Hd : bool_decide (sender ∈ sp_receivedFrom sp) = false).
  { apply bool_decide_eq_false. by rewrite spi_received0, elem_of_list_to_set. }
  rewrite Hd, length_app, length_fmap. simpl.
  assert (Hset : {[sender]} ∪ sp_receivedFrom sp = list_to_set (l ++ [(share, sender)]).*2).
  { rewrite fmap_app, list_to_set_app_L, spi_received0. simpl. set_solver. }
  assert (Hsh : l.*1 ++ [share] = (l ++ [(share, sender)]).*1) by (by rewrite fmap_app).
  destruct (Z.eqb_spec (Z.of_nat (length l + 1)) (Z.of_nat t + 1)) as [Heq|Hne].
  - destruct (recover_some (l.*1 ++ [share])) as [p Hp]; [by destruct (l.*1)|]. rewrite Hp.
    unfold hashPointToBool. destruct (Hm p) as [b Hb]. rewrite Hb. eexists. split; [done|].
    split; simpl; try done; [rewrite length_app; simpl; lia|]. intros _. eexists p, _. split.
    + rewrite take_ge; [by rewrite <-Hsh|]. rewrite length_fmap, length_app. simpl. lia.
    + unfold hashPointToBool. rewrite Hb. split; [done|]. by rewrite spi_before0 by lia.
  - eexists. split; [done|]. split; simpl; try done; rewrite length_app; simpl.
    + intros Hl. apply spi_before0. lia.
    + intros Hl. destruct spi_after0 as (p & coin & Hp & Hc & Ho); [lia|]. exists p, coin.
      split; [|done]. rewrite fmap_app, take_app_le; [done|]. rewrite length_fmap. lia.
Qed.

Lemma process_all_inv t l :
  (∀ e : Element G, is_Some (e_MarshalBinary e)) → Z.of_nat t + 1 < 2 ^ 63 → NoDup l.*2 →
  ∃ sp, process_all l (newShareProcessor (Z.of_nat t)) = Done sp ∧ sp_inv t l sp.
Proof.
  intros Hm Ht. induction l as [|[share sender] l IH] using rev_ind; intros Hd.
  - eexists. split; [done|]. split; simpl; try done. lia.
  - rewrite fmap_app in Hd. apply list.NoDup_app in Hd as (Hd & Hdis & _).
    destruct (IH Hd) as (sp & Hsp & Hi).
    destruct (processShare_inv t l sp share sender Hm Ht Hi) as (sp' & Hps & Hi').
    { intros Hin. apply (Hdis sender Hin). by left. }
    exists sp'. split; [|done]. rewrite process_all_snoc, Hsp. simpl. by rewrite Hps.
Qed.

(** ** A sender that is heard twice *)

Lemma processShare_twice share sender sp :
  sp_stuck sp = false → sender ∈ sp_receivedFrom sp →
  ∃ sp', processShare share sender sp = Done (sp', Some (ShareAlreadySent sender)) ∧ sp_stuck sp' = true.
Proof.
  intros Hst Hin. unfold processShare. rewrite Hst, bool_decide_eq_true_2 by done.
  case_match; [|by eexists].
  destruct (recover_some (sp_shares sp ++ [share])) as [p ->]; [by destruct (sp_shares sp)|].
  destruct (hashPointToBool p); by eexists.
Qed.

(** ** A share sent by two peers *)

Lemma recover_replayed (pt : pointShare G) :
  s_IsEqual (ps_id pt) (ps_id pt) = true →
  recoverSecretFromPoints [pt; pt] =
  Some (let one := mulScalar (NewScalar 1) (inv (NewScalar 1)) in
        addPoint (mulPoint (ps_point pt) one) (mulPoint (ps_point pt) one)).
Proof. intros He. unfold recoverSecretFromPoints, lagrangeCoefficient. simpl. by rewrite He. Qed.

Lemma schedule_valid id sender share c ct :
  id ∉ ctc_finished c → ctc_instances c !! id = Some ct → isTossValid share ct = Ok true →
  scheduleShareSubmission id sender share c =
  '(sp, err) ← processShare (ct_pt G D share) sender (ct_sp ct);
  Done (set_toss id (CoinToss (ct_base ct) (ct_d ct) sp) c, err).
Proof.
  intros Hf Hct Hv. unfold scheduleShareSubmission. rewrite decide_False, Hct by done.
  unfold ct_submitShare. rewrite decide_False, Hct by done. unfold coin_submitShare. rewrite Hv.
  by destruct (processShare (ct_pt G D share) sender (ct_sp ct)) as [[??]| |].
Qed.

(** ** Shares that arrive early *)

Fixpoint schedule_all (id : UUID) (l : list (UUID * ctShare G D)) (c : CTChannel) : outcome CTChannel :=
  match l with
  | [] => Done c
  | (sender, share) :: l => '(c, _) ← scheduleShareSubmission id sender share c; schedule_all id l c
  end.

Lemma schedule_early id l c :
  id ∉ ctc_finished c → ctc_instances c !! id = None →
  schedule_all id l c =
  Done (match l with
        | [] => c
        | _ => set_unordered (<[id := default [] (ctc_unordered c !! id) ++ l]> (ctc_unordered c)) c
        end).
Proof.
  revert c. induction l as [|[s sh] l IH]; intros c Hf Hn; [done|]. simpl.
  unfold scheduleShareSubmission. rewrite decide_False, Hn by done. cbn [mbind outcome_bind].
  rewrite IH by done. f_equal. destruct l as [|p l]; [done|]. unfold set_unordered. simpl. f_equal.
  rewrite lookup_insert_eq, insert_insert_eq. simpl. by rewrite <-(assoc_L (++)).
Qed.

Lemma ct_submitShare_keeps id s sh c c' e ct :
  ctc_instances c !! id = Some ct → ct_submitShare id s sh c = Done (c', e) →
  is_Some (ctc_instances c' !! id) ∧ ctc_finished c' = ctc_finished c ∧ ctc_unordered c' = ctc_unordered c.
Proof.
  intros Hct. unfold ct_submitShare. case_decide; [intros [= <- <-]; by rewrite Hct|].
  rewrite Hct. destruct (coin_submitShare sh s ct) as [[ct' e']| |]; try done. intros [= <- <-].
  simpl. rewrite lookup_insert_eq. done.
Qed.

Lemma schedule_late id l c :
  id ∉ ctc_finished c → is_Some (ctc_instances c !! id) →
  schedule_all id l c = processUnordered_loop id l c.
Proof.
  revert c. induction l as [|[s sh] l IH]; intros c Hf [ct Hct]; [done|]. simpl.
  unfold scheduleShareSubmission. rewrite decide_False, Hct by done.
  destruct (ct_submitShare id s sh c) as [[c' e]| |] eqn:Hs; [|done..]. simpl.
  destruct (ct_submitShare_keeps id s sh c c' e ct Hct Hs) as (? & Hf' & _). apply IH; [by rewrite Hf'|done].
Qed.

(** The loop does not look at [unordered]. *)
Lemma loop_set_unordered id l u c :
  processUnordered_loop id l (set_unordered u c) =
  c ← processUnordered_loop id l c; Done (set_unordered u c).
Proof.
  revert c. induction l as [|[s sh] l IH]; intros c; simpl; [done|].
  unfold ct_submitShare. simpl. case_decide; simpl; [apply IH|].
  destruct (ctc_instances c !! id) as [ct|]; simpl; [|apply IH].
  destruct (coin_submitShare sh s ct) as [[ct' e]| |]; simpl; [|done..].
  by rewrite <-IH.
Qed.

Lemma loop_unordered id l c c' :
  processUnordered_loop id l c = Done c' → ctc_unordered c' = ctc_unordered c.
Proof.
  intros Hl. pose proof (loop_set_unordered id l (ctc_unordered c) c) as H.
  assert (set_unordered (ctc_unordered c) c = c) as Hid by (by destruct c). rewrite Hid, Hl in H.
  simpl in H. injection H as H. by rewrite H.
Qed.
End toss.

(** ** A toss with one commitment, over the field with two elements *)

Module TossExample.
Import Gf2 Example4.

Definition prove1 (k : Scalar gf2) (a ka b kb : Element gf2) (r : Scalar gf2) : option (Proof any_proof) :=
  Some [].
Definition verify1 (a ka b kb : Element gf2) (p : Proof any_proof) : bool := true.
Definition hash1 (b : bytes) : Element gf2 := true.

Definition pt1 : pointShare gf2 := @PointShare gf2 true true.
Definition pt0 : pointShare gf2 := @PointShare gf2 false true.
Definition deal1 : deal gf2 := Deal gf2 true (@MkShare gf2 true true) [pt1; pt0].
Definition early : list (UUID * ctShare gf2 any_proof) :=
  [(p2, CtShare gf2 any_proof pt1 []); (p3, CtShare gf2 any_proof pt0 [])].
Definition chan1 : CTChannel gf2 any_proof := initializeChannel gf2 any_proof 2 deal1.

Definition toss1 : coinToss gf2 :=
  CoinToss gf2 true deal1 (ShareProcessor gf2 (Z.of_nat 2) [pt1] {[p4]} [] false).
Definition chan2 : CTChannel gf2 any_proof := set_toss gf2 any_proof uuid_Nil toss1 chan1.

Definition toss0 : coinToss gf2 := newCoinToss gf2 1 true deal1.
Definition chan3 : CTChannel gf2 any_proof := set_toss gf2 any_proof uuid_Nil toss0 (initializeChannel gf2 any_proof 1 deal1).

Lemma gf2_marshals (e : Element gf2) : is_Some (e_MarshalBinary e).
Proof. by eexists. Qed.
Lemma early_senders : NoDup [(pt1, p1); (pt0, p2)].*2.
Proof.
  apply list.NoDup_cons. split; [|apply list.NoDup_singleton]. apply not_elem_of_cons.
  split; [discriminate|apply not_elem_of_nil].
Qed.
End TossExample.
Import Gf2 Example4 TossExample.

(** ** Theorems *)

(** C25: the coin of [t + 1] shares.  Fed shares of different senders, a share
    processor answers every call, outputs nothing up to [t] shares, and from the
    [t + 1]-th on has output exactly one coin: the hash of the point recovered
    from the first [t + 1] shares. *)
Theorem coin_output_once (G : CirclGroup) (t : nat) (l : list (pointShare G * UUID)) :
  (∀ e : Element G, is_Some (e_MarshalBinary e)) → Z.of_nat t + 1 < 2 ^ 63 → NoDup l.*2 →
  ∃ sp, process_all G l (newShareProcessor G (Z.of_nat t)) = Done sp ∧ sp_stuck G sp = false ∧
    ((length l ≤ t)%nat → sp_output G sp = []) ∧
    ((t < length l)%nat → ∃ p coin, recoverSecretFromPoints (take (S t) l.*1) = Some p ∧
       hashPointToBool G p = Ok coin ∧ sp_output G sp = [coin]).
Proof.
  intros Hm Ht Hd. destruct (process_all_inv G t l Hm Ht Hd) as (sp & Hsp & []). exists sp. by split_and!.
Qed.

Lemma coin_output_once_witness :
  ∃ sp, process_all gf2 [(pt1, p1); (pt0, p2)] (newShareProcessor gf2 (Z.of_nat 1)) = Done sp ∧
    sp_stuck gf2 sp = false ∧
    ((2 ≤ 1)%nat → sp_output gf2 sp = []) ∧
    ((1 < 2)%nat → ∃ p coin, recoverSecretFromPoints [pt1; pt0] = Some p ∧
       hashPointToBool gf2 p = Ok coin ∧ sp_output gf2 sp = [coin]).
Proof.
  apply (coin_output_once gf2 1 [(pt1, p1); (pt0, p2)] gf2_marshals); [reflexivity|exact early_senders].
Defined.

(** C27: a share sent twice stops every coin.  When a peer whose share was
    processed sends a valid share again, the command answers its caller with an
    error and goes on to a second answer nobody reads; the next valid share for
    this coin then blocks the executor of the channel for ever, so no coin of
    any instance is tossed any more. *)
Theorem ct_duplicate_share_blocks (G : CirclGroup) (D : DleqProof G)
    (Verify : Element G → Element G → Element G → Element G → Proof D → bool)
    (c : CTChannel G D) id ct sender share sender' share' :
  id ∉ ctc_finished G D c → ctc_instances G D c !! id = Some ct →
  sp_stuck G (ct_sp G ct) = false → sender ∈ sp_receivedFrom G (ct_sp G ct) →
  isTossValid G D Verify share ct = Ok true → isTossValid G D Verify share' ct = Ok true →
  ∃ c', scheduleShareSubmission G D Verify id sender share c = Done (c', Some (ShareAlreadySent sender)) ∧
        scheduleShareSubmission G D Verify id sender' share' c' = Block.
Proof.
  intros Hf Hct Hst Hin Hv Hv'. unfold scheduleShareSubmission at 1. rewrite decide_False, Hct by done.
  unfold ct_submitShare. rewrite decide_False, Hct by done. unfold coin_submitShare at 1. rewrite Hv.
  destruct (processShare_twice G (ct_pt G D share) sender (ct_sp G ct) Hst Hin) as (sp' & Hp & Hs').
  rewrite Hp. simpl. eexists. split; [done|]. unfold scheduleShareSubmission. simpl.
  rewrite decide_False, lookup_insert_eq by done. unfold ct_submitShare. simpl.
  rewrite decide_False, lookup_insert_eq by done. unfold coin_submitShare.
  assert (isTossValid G D Verify share' (CoinToss G (ct_base G ct) (ct_d G ct) sp') = Ok true) as ->.
  { by rewrite <-Hv'. }
  unfold processShare. simpl. by rewrite Hs'.
Qed.

Lemma ct_duplicate_share_blocks_witness :
  ∃ c', scheduleShareSubmission gf2 any_proof verify1 uuid_Nil p4 (CtShare gf2 any_proof pt1 []) chan2 =
          Done (c', Some (ShareAlreadySent p4)) ∧
        scheduleShareSubmission gf2 any_proof verify1 uuid_Nil p1 (CtShare gf2 any_proof pt0 []) c' = Block.
Proof.
  apply (ct_duplicate_share_blocks gf2 any_proof verify1 chan2 uuid_Nil toss1 p4
    (CtShare gf2 any_proof pt1 []) p1 (CtShare gf2 any_proof pt0 [])).
  - unfold chan2. simpl. apply not_elem_of_empty.
  - unfold chan2. simpl. apply lookup_insert_eq.
  - reflexivity.
  - simpl. by apply elem_of_singleton.
  - reflexivity.
  - reflexivity.
Defined.

(** C28: early shares are not lost.  Shares that arrive before the toss and are
    kept until it give the same channel as the same shares arriving, in the same
    order, right after the toss. *)
Theorem ct_early_shares_equivalent (G : CirclGroup) (D : DleqProof G) Prove
    (Verify : Element G → Element G → Element G → Element G → Proof D → bool) HashToElement
    (c : CTChannel G D) seed proofSeed early share :
  BytesToUUID seed ∉ ctc_finished G D c → ctc_instances G D c !! BytesToUUID seed = None →
  ctc_unordered G D c !! BytesToUUID seed = None →
  tossCoin G D Prove proofSeed (newCoinToss G (ctc_t G D c) (HashToElement seed) (ctc_deal G D c)) = Ok share →
  (c1 ← schedule_all G D Verify (BytesToUUID seed) early c;
   '(c1, _) ← TossCoin G D Prove Verify HashToElement seed proofSeed c1; Done c1) =
  ('(c2, _) ← TossCoin G D Prove Verify HashToElement seed proofSeed c;
   schedule_all G D Verify (BytesToUUID seed) early c2).
Proof.
  set (id := BytesToUUID seed). intros Hf Hn Hu Htoss. rewrite schedule_early by done.
  cbn [mbind outcome_bind]. unfold TossCoin. fold id.
  set (ct := newCoinToss _ _ _ _) in Htoss |- *.
  set (tossed := λ u : gmap UUID (list (UUID * ctShare G D)),
    MkCTChannel G D (<[id := ct]> (ctc_instances G D c)) (ctc_finished G D c) u (ctc_t G D c)
      (ctc_deal G D c) (ct_sent G D c ++ [(id, share)])).
  assert (Hright : processUnordered G D Verify id (tossed (ctc_unordered G D c)) = Done (tossed (ctc_unordered G D c))).
  { unfold processUnordered. simpl. rewrite Hu. simpl. unfold set_unordered, tossed. simpl.
    by rewrite delete_id. }
  assert (Hleft : processUnordered G D Verify id (tossed (<[id := early]> (ctc_unordered G D c))) =
    processUnordered_loop G D Verify id early (tossed (ctc_unordered G D c))).
  { unfold processUnordered. simpl. rewrite lookup_insert_eq. simpl.
    change (tossed (<[id:=early]> (ctc_unordered G D c))) with
      (set_unordered G D (<[id:=early]> (ctc_unordered G D c)) (tossed (ctc_unordered G D c))).
    rewrite loop_set_unordered.
    destruct (processUnordered_loop G D Verify id early (tossed (ctc_unordered G D c))) as [c'| |] eqn:Hl; [|done..].
    simpl. pose proof (loop_unordered G D Verify _ _ _ _ Hl) as Hun. simpl in Hun.
    rewrite delete_insert_id by done. unfold set_unordered. simpl. rewrite <-Hun. by destruct c'. }
  assert (Hlate : schedule_all G D Verify id early (tossed (ctc_unordered G D c)) =
    processUnordered_loop G D Verify id early (tossed (ctc_unordered G D c))).
  { apply schedule_late; [done|]. simpl. rewrite lookup_insert_eq. by eexists. }
  rewrite Htoss. cbn [mbind outcome_bind].
  destruct early as [|p early'].
  - simpl. fold ct. rewrite Htoss. simpl. fold (tossed (ctc_unordered G D c)). by rewrite Hright.
  - rewrite Hu. cbn [default Datatypes.id app ctc_t ctc_deal set_unordered]. fold ct. rewrite Htoss.
    change (set_toss G D id ct (set_unordered G D (<[id:=p :: early']> (ctc_unordered G D c)) c)) with
      (MkCTChannel G D (<[id := ct]> (ctc_instances G D c)) (ctc_finished G D c)
        (<[id := p :: early']> (ctc_unordered G D c)) (ctc_t G D c) (ctc_deal G D c) (ct_sent G D c)).
    cbn [ctc_instances ctc_finished ctc_unordered ctc_t ctc_deal ct_sent set_toss].
    fold (tossed (<[id := p :: early']> (ctc_unordered G D c))) (tossed (ctc_unordered G D c)).
    rewrite Hleft, Hright. cbn [mbind outcome_bind]. rewrite Hlate.
    by destruct (processUnordered_loop G D Verify id (p :: early') _).
Qed.

Lemma ct_early_shares_equivalent_witness :
  (c1 ← schedule_all gf2 any_proof verify1 (BytesToUUID []) early chan1;
   '(c1, _) ← TossCoin gf2 any_proof prove1 verify1 hash1 [] true c1; Done c1) =
  ('(c2, _) ← TossCoin gf2 any_proof prove1 verify1 hash1 [] true chan1;
   schedule_all gf2 any_proof verify1 (BytesToUUID []) early c2).
Proof.
  apply (ct_early_shares_equivalent gf2 any_proof prove1 verify1 hash1 chan1 [] true early
    (CtShare gf2 any_proof (@PointShare gf2 true true) [])); simpl.
  - apply not_elem_of_empty.
  - apply lookup_empty.
  - apply lookup_empty.
  - reflexivity.
Defined.

(** C26: the sender of a share is not checked against it.  A share that is valid
    for its identifier is accepted from any peer: when a second peer repeats the
    share of the first, a toss with threshold one counts two shares, no call
    reports an error, and the coin is the hash of twice that one point instead of
    the point interpolated from two shares. *)
Theorem coin_share_replayed (G : CirclGroup) (D : DleqProof G)
    (Verify : Element G → Element G → Element G → Element G → Proof D → bool)
    (c : CTChannel G D) id ct s1 s2 share :
  id ∉ ctc_finished G D c → ctc_instances G D c !! id = Some ct →
  ct_sp G ct = newShareProcessor G 1 → isTossValid G D Verify share ct = Ok true → s1 ≠ s2 →
  s_IsEqual (ps_id (ct_pt G D share)) (ps_id (ct_pt G D share)) = true →
  (∀ e : Element G, is_Some (e_MarshalBinary e)) →
  ∃ c1 c2 ct2 coin,
    scheduleShareSubmission G D Verify id s1 share c = Done (c1, None) ∧
    scheduleShareSubmission G D Verify id s2 share c1 = Done (c2, None) ∧
    ctc_instances G D c2 !! id = Some ct2 ∧ sp_output G (ct_sp G ct2) = [coin] ∧
    (let one := mulScalar (NewScalar 1) (inv (NewScalar 1)) in
     let point := ps_point (ct_pt G D share) in
     hashPointToBool G (addPoint (mulPoint point one) (mulPoint point one)) = Ok coin).
Proof.
  intros Hf Hct Hsp Hv Hne He Hm. destruct (Hm (let one := mulScalar (NewScalar 1) (inv (NewScalar 1)) in
    addPoint (mulPoint (ps_point (ct_pt G D share)) one) (mulPoint (ps_point (ct_pt G D share)) one))) as [b Hb].
  rewrite (schedule_valid G D Verify id s1 share c ct Hf Hct Hv), Hsp. unfold processShare at 1. simpl.
  do 4 eexists. split; [done|]. split.
  - erewrite schedule_valid; [|exact Hf|simpl; by apply lookup_insert_eq|by rewrite <-Hv].
    unfold processShare. cbn [sp_stuck sp_receivedFrom sp_shares ct_sp app length sp_t].
    rewrite bool_decide_eq_false_2 by set_solver.
    change (Z.of_nat 2 =? int_of_uint (uint_add 1 1)) with true. cbn iota.
    rewrite (recover_replayed G) by done. unfold hashPointToBool. cbn zeta in Hb |- *. rewrite Hb. simpl.
    rewrite !bool_decide_eq_false_2 by set_solver. reflexivity.
  - simpl. rewrite lookup_insert_eq. split; [done|]. split; [done|].
    unfold hashPointToBool. simpl in *. by rewrite Hb.
Qed.

Lemma coin_share_replayed_witness :
  ∃ c1 c2 ct2 coin,
    scheduleShareSubmission gf2 any_proof verify1 uuid_Nil p1 (CtShare gf2 any_proof pt1 []) chan3 = Done (c1, None) ∧
    scheduleShareSubmission gf2 any_proof verify1 uuid_Nil p2 (CtShare gf2 any_proof pt1 []) c1 = Done (c2, None) ∧
    ctc_instances gf2 any_proof c2 !! uuid_Nil = Some ct2 ∧ sp_output gf2 (ct_sp gf2 ct2) = [coin] ∧
    (let one := mulScalar (NewScalar 1) (inv (NewScalar 1)) in
     let point := ps_point (ct_pt gf2 any_proof (CtShare gf2 any_proof pt1 [])) in
     hashPointToBool gf2 (addPoint (mulPoint point one) (mulPoint point one)) = Ok coin).
Proof.
  apply (coin_share_replayed gf2 any_proof verify1 chan3 uuid_Nil toss0 p1 p2 (CtShare gf2 any_proof pt1 [])).
  - unfold chan3. simpl. apply not_elem_of_empty.
  - unfold chan3. simpl. apply lookup_insert_eq.
  - reflexivity.
  - reflexivity.
  - discriminate.
  - reflexivity.
  - exact gf2_marshals.
Defined.
