(* ===== verification/CoinAgree.v ===== *)
(** * The coin is common

    Two processes that toss the coin of the same seed, with the commitments of
    the same deal, output the same value.  The dealer's side is the interface
    [SharedSecret] of [CoinGroup] (which [CoinShamir] discharges for polynomials
    over a field); the soundness of the proofs of discrete-logarithm equality
    is a class as well.  [CoinChannel] does the same for whole channels. *)

From stdpp Require Import base tactics numbers list fin_sets gmap.
From Stdlib Require Import Init.Byte.
From S2P Require Import Prelude Utils CoinGroup CoinWire CoinToss.

Local Open Scope Z_scope.

(** A proof that verifies is one of equal logarithms. *)
Class DleqSound (G : CirclGroup) (D : DleqProof G)
    (Verify : Element G → Element G → Element G → Element G → Proof D → bool) : Prop :=
  dleq_sound a ka b kb p : Verify a ka b kb p = true → ∃ k, ka = e_Mul a k ∧ kb = e_Mul b k.

(** A multiple of the base determines the scalar. *)
Class Generator {G : CirclGroup} (b : Element G) : Prop :=
  generator_inj k k' : e_Mul b k = e_Mul b k' → k = k'.

Section agree.
Context (G : CirclGroup) (D : DleqProof G).
Context (Verify : Element G → Element G → Element G → Element G → Proof D → bool).

(** The shares that reach a toss, in order, with their senders. *)
Fixpoint submit_all (l : list (ctShare G D * UUID)) (ct : coinToss G) : outcome (coinToss G) :=
  match l with
  | [] => Done ct
  | (share, sender) :: l => '(ct, _) ← coin_submitShare G D Verify share sender ct; submit_all l ct
  end.

Definition valid_share (ct : coinToss G) (share : ctShare G D) : bool :=
  match isTossValid G D Verify share ct with Ok b => b | Err _ => false end.
Definition accepted (ct : coinToss G) (l : list (ctShare G D * UUID)) : list (ctShare G D * UUID) :=
  filter (λ x, valid_share ct x.1 = true) l.

Lemma submit_all_process l ct :
  submit_all l ct =
  sp ← process_all G ((λ x, (ct_pt G D x.1, x.2)) <$> accepted ct l) (ct_sp G ct);
  Done (CoinToss G (ct_base G ct) (ct_d G ct) sp).
Proof.
  revert ct. induction l as [|[share sender] l IH]; intros ct; [by destruct ct|].
  cbn [submit_all]. unfold accepted in *. rewrite filter_cons. cbn [fst].
  assert (Hval : ∀ b, valid_share ct share = b ↔
    match isTossValid G D Verify share ct with Ok b => b | Err _ => false end = b) by done.
  unfold coin_submitShare.
  destruct (isTossValid G D Verify share ct) as [[|]|e] eqn:Hv; cbn [mbind outcome_bind].
  - rewrite decide_True by by apply Hval. simpl.
    destruct (processShare G (ct_pt G D share) sender (ct_sp G ct)) as [[sp err]| |]; [|done..].
    cbn [mbind outcome_bind]. by rewrite IH.
  - rewrite decide_False; [apply IH|]. by rewrite (proj2 (Hval false)).
  - rewrite decide_False; [apply IH|]. by rewrite (proj2 (Hval false)).
Qed.

Context (ssize esize : nat) `{!GroupEncoding G ssize esize} `{!DleqSound G D Verify}.

Lemma areScalarEquals_spec (a b : Scalar G) : areScalarEquals G a b = Ok true → a = b.
Proof.
  unfold areScalarEquals. destruct (enc_scalar a) as (ba & -> & _ & Ha). destruct (enc_scalar b) as (bb & -> & _ & Hb).
  intros [= Heq%bool_decide_eq_true_1]. subst bb. congruence.
Qed.

Lemma getCommit_spec idx (d : deal G) e :
  getCommit G idx d = Ok e → ∃ c, c ∈ d_commits G d ∧ ps_id c = idx ∧ ps_point c = e.
Proof.
  unfold getCommit. induction (d_commits G d) as [|c cs IH]; [done|]. simpl.
  destruct (areScalarEquals G (ps_id c) idx) as [[|]|] eqn:He; [|intros H|done].
  - intros [= <-]. exists c. split; [by left|]. split; [by apply areScalarEquals_spec|done].
  - destruct (IH H) as (c' & ? & ?). exists c'. split; [by right|done].
Qed.

Section dealt.
Context (shares : list (Share G)) (dbase base : Element G) `{!Generator dbase}.
Context (ct : coinToss G).
Context (Hbase : ct_base G ct = base) (Hdbase : d_base G (ct_d G ct) = dbase).
Context (Hcommits : d_commits G (ct_d G ct) = (λ s, shareToPoint s dbase) <$> shares).

(** Only the points of dealt shares are valid. *)
Lemma valid_share_dealt share :
  valid_share ct share = true → ∃ s, s ∈ shares ∧ ct_pt G D share = shareToPoint s base.
Proof.
  unfold valid_share, isTossValid. destruct (getCommit G _ _) as [e|] eqn:Hc; [|done]. simpl. intros Hv.
  apply getCommit_spec in Hc as (c & Hc & Hi & <-). rewrite Hcommits in Hc.
  apply list_elem_of_fmap in Hc as (s & -> & Hs). exists s. split; [done|].
  apply (dleq_sound (G := G) (D := D)) in Hv as (k & Hk & Hk'). rewrite Hdbase in Hk'. simpl in Hk', Hi.
  unfold mulPoint in Hk'. apply generator_inj in Hk'. unfold shareToPoint, mulPoint.
  rewrite Hk', Hi, <-Hbase, <-Hk. by destruct (ct_pt G D share).
Qed.

Lemma accepted_picked l : ∃ picked,
  (λ x, ct_pt G D x.1) <$> accepted ct l = map (λ s, shareToPoint s base) picked ∧ ∀ s, s ∈ picked → s ∈ shares.
Proof.
  unfold accepted. induction l as [|x l (picked & Hp & Hin)]; [exists []; split; [done|]; intros s Hs; by apply not_elem_of_nil in Hs|].
  rewrite filter_cons. destruct (decide (valid_share ct x.1 = true)) as [Hv|]; [|by exists picked].
  destruct (valid_share_dealt _ Hv) as (s & Hs & Heq). exists (s :: picked). split.
  - rewrite fmap_cons, Hp, Heq. done.
  - intros s' [->|?]%elem_of_cons; [done|by apply Hin].
Qed.
End dealt.

(** [take] of the recovered shares has one point. *)
Lemma recover_take t shares base p picked :
  (∀ picked, (∀ s, List.In s picked → List.In s shares) → List.NoDup (map share_ID picked) → (t < length picked)%nat →
     recoverSecretFromPoints (map (λ s, shareToPoint s base) picked) = Some p) →
  (∀ s, s ∈ picked → s ∈ shares) → NoDup (map ps_id (map (λ s, shareToPoint s base) picked) : list (Scalar G)) →
  (t < length picked)%nat →
  recoverSecretFromPoints (take (S t) (map (λ s, shareToPoint s base) picked)) = Some p.
Proof.
  intros Hp Hin Hnd Hl. rewrite firstn_map. apply Hp.
  - intros s Hs. apply list_elem_of_In, Hin. apply list_elem_of_In in Hs. by eapply elem_of_take in Hs as (? & ? & _); eapply list_elem_of_lookup_2.
  - apply NoDup_ListNoDup. rewrite <-firstn_map. rewrite map_map in Hnd.
    apply (sublist_NoDup _ (map share_ID picked)); [done|]. apply sublist_take.
  - rewrite length_take. lia.
Qed.
End agree.

(** ** The field with three elements, and a secret shared by a line *)

Module Gf3.
Inductive f3 : Set := F0 | F1 | F2.
#[export] Instance f3_eq_dec : EqDecision f3.
Proof. solve_decision. Defined.

Definition f3_Z (x : f3) : Z := match x with F0 => 0 | F1 => 1 | F2 => 2 end.
Definition Z_f3 (z : Z) : f3 := match z mod 3 with 0 => F0 | 1 => F1 | _ => F2 end.
Definition f3_mul (a b : f3) : f3 := Z_f3 (f3_Z a * f3_Z b).
Definition f3_marshal (x : f3) : option bytes := Some [Z_byte (f3_Z x)].
Definition f3_unmarshal (l : bytes) : option f3 :=
  match l with [b] => Some (Z_f3 (byte_Z b)) | _ => None end.

(** Every element other than zero is its own inverse. *)
Definition gf3 : CirclGroup :=
  MkCirclGroup f3 f3 F0 F0 Z_f3 f3_mul (λ a b, Z_f3 (f3_Z a - f3_Z b)) (λ a, Z_f3 (- f3_Z a)) (λ a, a)
    (λ a b, bool_decide (a = b)) f3_marshal f3_unmarshal f3_mul (λ a b, Z_f3 (f3_Z a + f3_Z b))
    f3_marshal f3_unmarshal.

#[export] Instance gf3_encoding : GroupEncoding gf3 1 1.
Proof. split; intros []; eexists; split_and!; reflexivity. Qed.

Definition no_proof : DleqProof gf3 := MkDleqProof gf3 unit (λ _, Some []) (λ _, Some tt).
Definition f3_verify (a ka b kb : f3) (_ : unit) : bool :=
  existsb (λ k, bool_decide (ka = f3_mul a k) && bool_decide (kb = f3_mul b k)) [F0; F1; F2].

#[export] Instance gf3_sound : DleqSound gf3 no_proof f3_verify.
Proof.
  intros a ka b kb p Hv. apply existsb_exists in Hv as (k & _ & Hk). exists k.
  apply andb_true_iff in Hk as [?%bool_decide_eq_true_1 ?%bool_decide_eq_true_1]. done.
Qed.

#[export] Instance gf3_generator : @Generator gf3 F2.
Proof. intros [] [] Hk; done. Qed.

(** The shares of [1 + 2 x] for the holders 1 and 2. *)
Definition s1 : Share gf3 := @MkShare gf3 F1 F0.
Definition s2 : Share gf3 := @MkShare gf3 F2 F2.

#[export] Instance gf3_shared : @SharedSecret gf3 1 [s1; s2].
Proof.
  split.
  - apply NoDup_ListNoDup. apply (bool_decide_eq_true_1 (NoDup [F1; F2])). reflexivity.
  - intros base. exists base. intros picked Hin Hnd Hl.
    assert (Hp : picked = [s1; s2] ∨ picked = [s2; s1]).
    { assert (Hs : ∀ s, List.In s picked → s = s1 ∨ s = s2) by (intros s Hs; apply Hin in Hs; simpl in Hs; naive_solver).
      pose proof (List.NoDup_incl_length (List.NoDup_map_inv _ _ Hnd) Hin) as Hle. simpl in Hle.
      destruct picked as [|a [|b [|c l]]]; simpl in Hl, Hle; try lia. inversion_clear Hnd as [|?? Hni _].
      destruct (Hs a) as [-> | ->]; [by left|..|]; destruct (Hs b) as [-> | ->]; simpl; auto;
        destruct Hni; by left. }
    destruct Hp as [-> | ->], base; reflexivity.
Qed.

Definition tossed (s : Share gf3) (base : f3) (sender : UUID) : ctShare gf3 no_proof * UUID :=
  (CtShare gf3 no_proof (@shareToPoint gf3 s base) tt, sender).
End Gf3.

(** ** Theorem *)

(** A toss is common.  For one deal and one seed there is a coin such that
    every process, whatever shares reach it, from whom and in what order, outputs
    that coin as soon as more than [t] of them are valid, and nothing before,
    provided the valid ones have different senders and different identifiers.
    Invalid shares have no effect. *)
Theorem coin_agreement (G : CirclGroup) (D : DleqProof G)
    (Verify : Element G → Element G → Element G → Element G → Proof D → bool)
    ssize esize `{!GroupEncoding G ssize esize} `{!DleqSound G D Verify}
    (t : nat) (shares : list (Share G)) (dbase base : Element G) `{!Generator dbase} `{!SharedSecret t shares} :
  Z.of_nat t + 1 < 2 ^ 63 →
  ∃ coin, ∀ (d : deal G) (l : list (ctShare G D * UUID)),
    d_base G d = dbase → d_commits G d = (λ s, shareToPoint s dbase) <$> shares →
    let ct := newCoinToss G (Z.of_nat t) base d in
    let acc := accepted G D Verify ct l in
    NoDup acc.*2 → NoDup ((λ x, ps_id (ct_pt G D x.1)) <$> acc) →
    ∃ ct', submit_all G D Verify l ct = Done ct' ∧
      sp_output G (ct_sp G ct') = if decide (t < length acc)%nat then [coin] else [].
Proof.
  intros Ht. destruct (shared_point (t := t) (shares := shares) base) as [p Hp].
  assert (Hm : ∀ e : Element G, is_Some (e_MarshalBinary e)).
  { intros e. destruct (enc_element e) as (b & -> & _). by eexists. }
  destruct (Hm p) as [b Hb]. exists (byte_sum (Sha256.Sum256 b) mod 2 =? 0).
  intros d l Hd Hc ct acc Hsn Hidn. rewrite submit_all_process. fold acc.
  set (pts := (λ x, (ct_pt G D x.1, x.2)) <$> acc).
  assert (Hp1 : pts.*1 = (λ x, ct_pt G D x.1) <$> acc) by (unfold pts; by rewrite <-list_fmap_compose).
  assert (Hp2 : pts.*2 = acc.*2) by (unfold pts; by rewrite <-list_fmap_compose).
  destruct (process_all_inv G t pts Hm Ht) as (sp & Hsp & []); [by rewrite Hp2|].
  simpl. rewrite Hsp. simpl. eexists. split; [done|]. simpl.
  assert (Hlen : length pts = length acc) by apply length_fmap. rewrite Hlen in *.
  destruct (decide (t < length acc)%nat) as [Hlt|]; [|apply spi_before; lia].
  destruct (spi_after Hlt) as (p' & coin & Hr & Hh & ->). f_equal.
  destruct (accepted_picked G D Verify ssize esize shares dbase base ct eq_refl Hd Hc l) as (picked & Hpk & Hin).
  fold acc in Hpk. rewrite Hp1, Hpk in Hr.
  assert (Hlp : length picked = length acc).
  { apply (f_equal length) in Hpk. by rewrite length_fmap, length_map in Hpk. }
  assert (Hnd : NoDup (map ps_id (map (λ s, shareToPoint s base) picked) : list (Scalar G))).
  { rewrite <-Hpk. change (NoDup (ps_id <$> ((λ x, ct_pt G D x.1) <$> acc))). by rewrite <-list_fmap_compose. }
  rewrite (recover_take G t shares base p picked Hp Hin Hnd) in Hr by lia. injection Hr as <-.
  unfold hashPointToBool in Hh. rewrite Hb in Hh. by injection Hh.
Qed.

Import Gf3 Example4.

Lemma coin_agreement_witness :
  ∃ coin, ∀ (d : deal gf3) (l : list (ctShare gf3 no_proof * UUID)),
    d_base gf3 d = F2 → d_commits gf3 d = (λ s, @shareToPoint gf3 s F2) <$> [s1; s2] →
    let ct := newCoinToss gf3 (Z.of_nat 1) F1 d in
    let acc := accepted gf3 no_proof f3_verify ct l in
    NoDup acc.*2 → NoDup ((λ x, ps_id (ct_pt gf3 no_proof x.1)) <$> acc) →
    ∃ ct', submit_all gf3 no_proof f3_verify l ct = Done ct' ∧
      sp_output gf3 (ct_sp gf3 ct') = if decide (1 < length acc)%nat then [coin] else [].
Proof. apply (coin_agreement gf3 no_proof f3_verify 1 1 1 [s1; s2] F2 F1). reflexivity. Defined.

(** Two shares, the second one first. *)
Example coin_agreement_run :
  accepted gf3 no_proof f3_verify (newCoinToss gf3 1 F1 (Deal gf3 F2 s1 [@shareToPoint gf3 s1 F2; @shareToPoint gf3 s2 F2]))
    [tossed s2 F1 p2; tossed (@MkShare gf3 F1 F1) F1 p3; tossed s1 F1 p1] = [tossed s2 F1 p2; tossed s1 F1 p1].
Proof. reflexivity. Qed.
