(* ===== verification/Overlay.v ===== *)
(** * Package [overlayNetwork]: messages

    [msg.go] (frames on a connection), [processMessage] and the reading loop of
    [node.go], [bebChannel.go] and [ssChannel.go].  A connection is the sequence
    of the bytes that arrive on it before it closes.  The group of the secret
    shares and the public keys are parameters. *)

From stdpp Require Import base tactics numbers list gmap.
From Stdlib Require Import Init.Byte.
From S2P Require Import Prelude Utils CoinGroup CoinWire.

Local Open Scope Z_scope.

(** ** [msg.go] *)

(** [msgType]: [membership] is 'A', [generic] is 'B'. *)
Definition membership_code : byte := "A".
Definition generic : byte := "B".

(** The bytes [send] writes, in one write: the buffer holds all of them. *)
Definition ov_send (msg : bytes) : bytes := le_encode 4 (Z.of_nat (length msg) mod 2 ^ 32) ++ msg.

Inductive receive_err := connCloseError (e : io_err) | ReadErr (e : io_err).

(** One [receive], with what is left of the connection. *)
Definition receive (conn : bytes) : result receive_err bytes * bytes :=
  match binary_Read 4 conn with
  | Err e => (Err (connCloseError e), [])
  | Ok (length, conn) =>
    match read_full (Z.to_nat length) conn with
    | Err e => (Err (ReadErr e), [])
    | Ok (msg, conn) => (Ok msg, conn)
    end
  end.

(** The messages the loop of [readFromConnection] gives to [processMessage]
    before it returns. *)
Fixpoint readFromConnection (fuel : nat) (conn : bytes) : option (list bytes) :=
  match fuel with
  | O => None
  | S fuel =>
    match receive conn with
    | (Err (connCloseError _), _) => Some []
    | (Err (ReadErr _), conn) => readFromConnection fuel conn
    | (Ok msg, conn) => msgs ← readFromConnection fuel conn; Some (msg :: msgs)
    end
  end.

Lemma receive_send msg rest :
  Z.of_nat (length msg) < 2 ^ 32 → receive (ov_send msg ++ rest) = (Ok msg, rest).
Proof.
  intros Hl. unfold receive, ov_send. rewrite Z.mod_small by lia.
  rewrite <-(assoc_L (++)), binary_Read_app by (simpl; lia).
  by rewrite Nat2Z.id, read_full_app by done.
Qed.

Lemma receive_shorter conn r conn' :
  receive conn = (Ok r, conn') → (length conn' < length conn)%nat.
Proof.
  unfold receive, binary_Read. destruct (read_full 4 conn) as [[b l]|] eqn:E; [|done]. simpl.
  apply read_full_spec in E as [-> Hb].
  destruct (read_full (Z.to_nat (le_decode b)) l) as [[m l']|] eqn:E2; [|done].
  intros [= -> ->]. apply read_full_spec in E2 as [-> _]. rewrite !length_app. lia.
Qed.

(** Two more than the length of the stream is enough fuel. *)
Lemma readFromConnection_returns fuel conn :
  (length conn + 1 < fuel)%nat → ∃ msgs, readFromConnection fuel conn = Some msgs.
Proof.
  revert conn. induction fuel as [|fuel IH]; intros conn Hf; [lia|]. simpl.
  destruct (receive conn) as [[m|[e|e]] conn'] eqn:E.
  - apply receive_shorter in E. destruct (IH conn') as [ms ->]; [lia|]. by eexists.
  - by eexists.
  - assert (conn' = [] ∧ conn ≠ []) as [-> Hne].
    { unfold receive in E. destruct (binary_Read 4 conn) as [[z l]|] eqn:Hb; [|done].
      destruct (read_full (Z.to_nat z) l) as [[??]|]; [done|]. simplify_eq. by destruct conn. }
    destruct fuel as [|fuel]; [destruct conn; simpl in *; [done|lia]|]. apply IH. destruct conn; simpl in *; [done|lia].
Qed.

Lemma readFromConnection_send fuel msg rest :
  Z.of_nat (length msg) < 2 ^ 32 →
  readFromConnection (S fuel) (ov_send msg ++ rest) = msgs ← readFromConnection fuel rest; Some (msg :: msgs).
Proof. intros Hl. cbn [readFromConnection]. by rewrite receive_send. Qed.

(** A frame that is cut off is dropped. *)
Lemma readFromConnection_cut fuel msg k :
  (k < length (ov_send msg))%nat → Z.of_nat (length msg) < 2 ^ 32 →
  readFromConnection (S (S fuel)) (take k (ov_send msg)) = Some [].
Proof.
  intros Hk Hl. cbn [readFromConnection]. unfold receive, ov_send in *.
  rewrite Z.mod_small in * by lia. rewrite length_app, length_le_encode in Hk.
  destruct (decide (k < 4)%nat) as [Hlt|Hge].
  - unfold binary_Read, read_full.
    assert (Hlen : (length (take k (le_encode 4 (Z.of_nat (length msg)) ++ msg)) < 4)%nat) by (rewrite length_take; lia).
    rewrite decide_False by lia.
    destruct (take k _) as [|x l] eqn:E; [done|]. rewrite decide_True by done. done.
  - rewrite take_app_ge, length_le_encode by (rewrite length_le_encode; lia).
    rewrite binary_Read_app, Nat2Z.id by (simpl; lia). unfold read_full.
    rewrite decide_False by lia.
    destruct (take (k - 4) msg) as [|x l] eqn:E; [done|].
    rewrite decide_True by (rewrite <-E, length_take; lia). done.
Qed.

(** ** Nodes *)

Section node.
Context {PublicKey : Type} (G : CirclGroup).

(** [net.Conn] is an interface: [None] is nil.  A connection is named by a
    number. *)
Record peer := Peer {
  p_conn : option nat;
  p_name : bytes;
  p_pk : option PublicKey;
  p_pkId : UUID;
}.

(** What a node registers with [attachMessageObserver]: broadcast channels and
    secret-sharing channels, each with its [listenCode]. *)
Inductive observer := BEBChannel (listenCode : byte) | SSChannel (listenCode : byte).
Definition listenCode (o : observer) : byte :=
  match o with BEBChannel c => c | SSChannel c => c end.

#[export] Instance observer_eq_dec : EqDecision observer.
Proof. solve_decision. Defined.

(** [memChan]: the number of goroutines that wait to send on it. *)
Record Node := MkNode {
  n_address : bytes;
  n_contact : bytes;
  hasJoined : bool;
  n_peers : list peer;
  msgObservers : list observer;
  memChan : nat;
  n_pk : PublicKey;
}.

Inductive net_err := NotJoined | AlreadyJoined | ContactErr | CommitErr | WrapErr.

(** [unicast]: what is written to the connection.  An error of the write is
    logged only; the log reads [c.RemoteAddr()], which panics on a nil
    connection. *)
Definition unicast (msg : bytes) (c : option nat) (n : Node) : outcome (result net_err (nat * bytes)) :=
  if negb (hasJoined n) then Done (Err NotJoined) else
  match c with
  | None => Panic
  | Some c => Done (Ok (c, ov_send (generic :: msg)))
  end.

(** [unicastSelf]: the message its goroutine gives to [processMessage]. *)
Definition unicastSelf (msg : bytes) (n : Node) : result net_err bytes :=
  if negb (hasJoined n) then Err NotJoined else Ok (generic :: msg).

Definition getPeers (n : Node) : list peer := n_peers n.

(** ** [bebChannel.go] *)

Record BEBMsg := MkBEBMsg { beb_Content : bytes; beb_Sender : PublicKey }.

(** The writes of the loop of [BEBroadcast]; an error is logged. *)
Fixpoint unicast_all (wrappedMsg : bytes) (peers : list peer) (n : Node) : outcome (list (nat * bytes)) :=
  match peers with
  | [] => Done []
  | peer :: peers =>
    r ← unicast wrappedMsg (p_conn peer) n;
    ws ← unicast_all wrappedMsg peers n;
    Done (match r with Ok w => w :: ws | Err _ => ws end)
  end.

(** The message to itself, and the writes to the peers. *)
Definition BEBroadcast (code : byte) (msg : bytes) (n : Node) :
    outcome (result net_err (bytes * list (nat * bytes))) :=
  let wrappedMsg := code :: msg in
  let peers := getPeers n in
  match unicastSelf wrappedMsg n with
  | Err e => Done (Err e)
  | Ok self => ws ← unicast_all wrappedMsg peers n; Done (Ok (self, ws))
  end.

(** [msg[0]] panics on an empty message. *)
Definition beb_bebDeliver (code : byte) (msg : bytes) (sender : PublicKey) : outcome (option BEBMsg) :=
  match msg with
  | [] => Panic
  | b :: content => Done (if bool_decide (b = code) then Some (MkBEBMsg content sender) else None)
  end.

(** ** [ssChannel.go] *)

Inductive SSMsg :=
| SSErr (e : ct_err)
| SSOk (share : Share G) (commitment : bytes) (sender : PublicKey).

Definition wrapMsg (code : byte) (share : Share G) (commitment : bytes) : option bytes :=
  idBytes ← s_MarshalBinary (share_ID share);
  contentBytes ← s_MarshalBinary (share_Value share);
  Some (code :: idBytes ++ contentBytes ++ commitment).

Definition ss_bebDeliver (code : byte) (msg : bytes) (sender : PublicKey) : outcome (option SSMsg) :=
  match msg with
  | [] => Panic
  | b :: msg =>
    if bool_decide (b = code) then
      Done (Some
        match GetScalarSize G with
        | None => SSErr SizeErr
        | Some scalarSize =>
          if decide (length msg < 2 * scalarSize)%nat then SSErr (WrongSize (length msg)) else
          match s_UnmarshalBinary (take scalarSize msg) with
          | None => SSErr BadScalar
          | Some id =>
            match s_UnmarshalBinary (take scalarSize (drop scalarSize msg)) with
            | None => SSErr BadScalar
            | Some val => SSOk (MkShare id val) (drop (2 * scalarSize) msg) sender
            end
          end
        end)
    else Done None
  end.

(** [lo.Zip2] pads the shorter list with zero values: a nil peer, a nil slice. *)
Fixpoint Zip2 {A B} (l : list A) (k : list B) : list (option A * option B) :=
  match l, k with
  | [], k => (λ b, (None, Some b)) <$> k
  | a :: l, [] => (Some a, None) :: Zip2 l []
  | a :: l, b :: k => (Some a, Some b) :: Zip2 l k
  end.

(** [peer.conn] panics on a nil peer. *)
Fixpoint unicast_zip (l : list (option peer * option bytes)) (n : Node) : outcome (list (nat * bytes)) :=
  match l with
  | [] => Done []
  | (None, _) :: _ => Panic
  | (Some peer, msg) :: l =>
    r ← unicast (default [] msg) (p_conn peer) n;
    ws ← unicast_zip l n;
    Done (match r with Ok w => w :: ws | Err _ => ws end)
  end.

(** [secretSharing k] are the shares CIRCL computes for [k] holders. *)
Definition SSBroadcast (code : byte) (secretSharing : nat → list (Share G))
    (commitMaker : list (Share G) → option bytes) (n : Node) :
    outcome (result net_err (bytes * list (nat * bytes))) :=
  let peers := getPeers n in
  let shares := secretSharing (length peers + 1)%nat in
  match commitMaker shares with
  | None => Done (Err CommitErr)
  | Some commitment =>
    match mapM (λ share, wrapMsg code share commitment) shares with
    | None => Done (Err WrapErr)
    | Some [] => Panic
    | Some (msg0 :: shareMsgs) =>
      match unicastSelf msg0 n with
      | Err e => Done (Err e)
      | Ok self => ws ← unicast_zip (Zip2 peers shareMsgs) n; Done (Ok (self, ws))
      end
    end
  end.

(** [DealSecret] of the coin tosser, with the random base of the commitment. *)
Definition DealSecret (code : byte) (secretSharing : nat → list (Share G)) (base : Element G) (n : Node) :=
  SSBroadcast code secretSharing (computeCommitment G base) n.

(** ** [processMessage] *)

Inductive delivery := DBeb (m : BEBMsg) | DSs (m : SSMsg).

Definition obs_bebDeliver (o : observer) (content : bytes) (sender : PublicKey) : outcome (option delivery) :=
  match o with
  | BEBChannel code => r ← beb_bebDeliver code content sender; Done (option_map DBeb r)
  | SSChannel code => r ← ss_bebDeliver code content sender; Done (option_map DSs r)
  end.

(** The goroutines of the observers, each with its observer; a panic of one ends
    the process. *)
Fixpoint observe (obs : list observer) (content : bytes) (sender : PublicKey) :
    outcome (list (observer * delivery)) :=
  match obs with
  | [] => Done []
  | o :: obs =>
    d ← obs_bebDeliver o content sender;
    ds ← observe obs content sender;
    Done (match d with Some d => (o, d) :: ds | None => ds end)
  end.

Inductive processed :=
| ToMembership (content : bytes)
| ToObservers (ds : list (observer * delivery))
| Unhandled.

Definition processMessage (msg : bytes) (sender : PublicKey) (n : Node) : outcome processed :=
  match msg with
  | [] => Panic
  | msgType :: content =>
    if bool_decide (msgType = membership_code) then Done (ToMembership content)
    else if bool_decide (msgType = generic) then
      ds ← observe (msgObservers n) content sender; Done (ToObservers ds)
    else Done Unhandled
  end.

(** ** Lemmas *)

Lemma unicast_all_sends wrappedMsg n peers :
  hasJoined n = true → Forall (λ p, is_Some (p_conn p)) peers →
  unicast_all wrappedMsg peers n =
  Done ((λ c, (c, ov_send (generic :: wrappedMsg))) <$> omap p_conn peers).
Proof.
  intros Hj. induction 1 as [|p ps [c Hc] _ IH]; [done|]. simpl. unfold unicast. rewrite Hj, Hc. simpl.
  by rewrite IH.
Qed.

Lemma observe_none obs content sender b :
  b ∉ listenCode <$> obs → observe obs (b :: content) sender = Done [].
Proof.
  induction obs as [|o obs IH]; intros Hb; [done|]. apply not_elem_of_cons in Hb as [Hne Hb].
  simpl. assert (obs_bebDeliver o (b :: content) sender = Done None) as ->.
  { destruct o; simpl in *; rewrite bool_decide_eq_false_2 by done; done. }
  simpl. by rewrite IH.
Qed.

(** With distinct codes a message reaches the one observer of its code. *)
Lemma observe_one obs content sender o :
  NoDup (listenCode <$> obs) → o ∈ obs →
  observe obs (listenCode o :: content) sender =
  d ← obs_bebDeliver o (listenCode o :: content) sender; Done (match d with Some d => [(o, d)] | None => [] end).
Proof.
  induction obs as [|o' obs IH]; intros Hd Hin; [by apply not_elem_of_nil in Hin|].
  apply list.NoDup_cons in Hd as [Hn Hd]. apply elem_of_cons in Hin as [<-|Hin].
  - simpl. rewrite observe_none by done. by destruct (obs_bebDeliver o _ sender) as [[d|]| |].
  - simpl. assert (obs_bebDeliver o' (listenCode o :: content) sender = Done None) as ->.
    { assert (listenCode o ≠ listenCode o').
      { intros Heq. apply Hn. rewrite <-Heq. by apply list_elem_of_fmap_2. }
      destruct o'; simpl in *; rewrite bool_decide_eq_false_2 by done; done. }
    simpl. rewrite IH by done. by destruct (obs_bebDeliver o _ sender) as [[d|]| |].
Qed.

Lemma processMessage_beb code content sender n :
  NoDup (listenCode <$> msgObservers n) → BEBChannel code ∈ msgObservers n →
  processMessage (generic :: code :: content) sender n =
  Done (ToObservers [(BEBChannel code, DBeb (MkBEBMsg content sender))]).
Proof.
  intros Hd Hin. unfold processMessage. rewrite bool_decide_eq_false_2, bool_decide_eq_true_2 by done.
  change code with (listenCode (BEBChannel code)) at 1. rewrite observe_one by done. simpl.
  by rewrite bool_decide_eq_true_2.
Qed.

Section deal.
Context (ssize esize : nat) `{!GroupEncoding G ssize esize}.

Lemma wrapMsg_some code share commitment : ∃ m,
  wrapMsg code share commitment = Some (code :: m) ∧
  length m = (2 * ssize + length commitment)%nat ∧
  ∀ sender, ss_bebDeliver code (code :: m) sender = Done (Some (SSOk share commitment sender)).
Proof.
  destruct share as [i v]. destruct (enc_scalar i) as (bi & Hi & Hli & Hui).
  destruct (enc_scalar v) as (bv & Hv & Hlv & Huv). exists (bi ++ bv ++ commitment).
  unfold wrapMsg. simpl. rewrite Hi, Hv. simpl. split; [done|]. split; [rewrite !length_app; lia|]. intros sender.
  rewrite bool_decide_eq_true_2, (scalar_size G ssize esize) by done.
  rewrite decide_False by (rewrite !length_app; lia).
  rewrite take_app_length', drop_app_length' by done. rewrite Hui, take_app_length' by done. rewrite Huv.
  rewrite (assoc_L (++)), drop_app_length' by (rewrite length_app; lia). done.
Qed.

Lemma processMessage_ss code share commitment m sender n :
  NoDup (listenCode <$> msgObservers n) → SSChannel code ∈ msgObservers n →
  wrapMsg code share commitment = Some m →
  processMessage (generic :: m) sender n =
  Done (ToObservers [(SSChannel code, DSs (SSOk share commitment sender))]).
Proof.
  intros Hd Hin Hm. destruct (wrapMsg_some code share commitment) as (m' & Hm' & _ & Hs).
  rewrite Hm in Hm'. injection Hm' as ->.
  unfold processMessage. rewrite bool_decide_eq_false_2, bool_decide_eq_true_2 by done.
  change code with (listenCode (SSChannel code)) at 1. rewrite observe_one by done.
  cbn [obs_bebDeliver listenCode]. by rewrite Hs.
Qed.

Lemma mapM_wrapMsg code shares commitment : ∃ ms,
  mapM (λ share, wrapMsg code share commitment) shares = Some ms ∧ length ms = length shares.
Proof.
  induction shares as [|s shares (ms & Hm & Hl)]; [by exists []|].
  destruct (wrapMsg_some code s commitment) as (m & Hw & _). exists ((code :: m) :: ms).
  cbn [mapM]. rewrite Hw. cbn [mbind option_bind]. rewrite Hm. simpl. by rewrite Hl.
Qed.
End deal.

Lemma Zip2_same {A B} (l : list A) (k : list B) :
  length l = length k → Zip2 l k = zip (Some <$> l) (Some <$> k).
Proof. revert k. induction l as [|a l IH]; intros [|b k]; simpl; try done. intros [= Hl]. by rewrite IH. Qed.

Lemma unicast_zip_sends n peers ms :
  hasJoined n = true → Forall (λ p, is_Some (p_conn p)) peers → length peers = length ms →
  unicast_zip (Zip2 peers ms) n = Done (zip (omap p_conn peers) ((λ m, ov_send (generic :: m)) <$> ms)).
Proof.
  intros Hj Hp Hl. rewrite Zip2_same by done. revert ms Hl.
  induction Hp as [|p ps [c Hc] _ IH]; intros [|m ms] Hl; try done. injection Hl as Hl.
  simpl. unfold unicast. rewrite Hj, Hc. simpl. by rewrite IH.
Qed.
End node.


(** ** Three nodes, over the field with two elements *)

Module OverlayExample.
Import Gf2.
Definition peer1 : peer := Peer (PublicKey := bytes) (Some 1%nat) ["001"%byte] (Some ["001"%byte]) uuid_Nil.
Definition peer2 : peer := Peer (PublicKey := bytes) (Some 2%nat) ["002"%byte] (Some ["002"%byte]) uuid_Nil.
Definition node0 : Node :=
  MkNode [] [] true [peer1; peer2] [BEBChannel "A"; SSChannel "D"] 0 (["000"%byte] : bytes).
Definition shares2 (k : nat) : list (Share gf2) := (λ i, MkShare (G := gf2) (Nat.odd i) true) <$> seq 0 k.
End OverlayExample.
Import Gf2 OverlayExample.

(** ** Theorems *)

(** Framing.  Messages sent one after the other on a connection that breaks
    in the middle of the next one are read back by [readFromConnection], exactly
    those, in that order, and the loop then ends. *)
Theorem frames_exact (msgs : list bytes) (msg : bytes) (k fuel : nat) :
  Forall (λ m, Z.of_nat (length m) < 2 ^ 32) (msg :: msgs) → (k < length (ov_send msg))%nat →
  (length msgs + 2 ≤ fuel)%nat →
  readFromConnection fuel (concat (ov_send <$> msgs) ++ take k (ov_send msg)) = Some msgs.
Proof.
  intros Hl Hk. apply Forall_cons in Hl as [Hm Hl]. revert fuel.
  induction Hl as [|m msgs Hm' _ IH]; intros [|fuel] Hf; simpl in Hf; try lia.
  - destruct fuel as [|fuel]; [lia|]. by apply readFromConnection_cut.
  - cbn [fmap list_fmap concat]. rewrite <-(assoc_L (++)), readFromConnection_send by done.
    rewrite IH by lia. done.
Qed.

Lemma frames_exact_witness :
  readFromConnection 4 (concat (ov_send <$> [["001"%byte]; []]) ++ take 3 (ov_send ["002"%byte])) =
  Some [["001"%byte]; []].
Proof.
  apply (frames_exact [["001"%byte]; []] ["002"%byte] 3 4);
    [repeat (apply Forall_cons_2; [simpl; lia|]); apply Forall_nil_2|vm_compute; lia|simpl; lia].
Defined.

(** Broadcast.  A node that has joined writes one frame to each of its
    peers.  Whoever reads that frame off the connection, and the node itself,
    gets the message through the one broadcast channel of the same code, with
    its exact content and the key of the connection. *)
Theorem beb_broadcast_exact (PublicKey : Type) (G : CirclGroup) (code : byte) (msg : bytes) (n : @Node PublicKey) :
  hasJoined n = true → Forall (λ p, is_Some (p_conn p)) (n_peers n) → Z.of_nat (length msg) + 2 < 2 ^ 32 →
  ∃ self ws, BEBroadcast code msg n = Done (Ok (self, ws)) ∧ ws.*1 = omap p_conn (n_peers n) ∧
    (∀ b rest, b ∈ ws.*2 → receive (b ++ rest) = (Ok self, rest)) ∧
    (∀ (q : @Node PublicKey) sender, NoDup (listenCode <$> msgObservers q) → BEBChannel code ∈ msgObservers q →
       processMessage G self sender q =
       Done (ToObservers G [(BEBChannel code, DBeb G (MkBEBMsg msg sender))])).
Proof.
  intros Hj Hp Hl. unfold BEBroadcast, unicastSelf, getPeers. rewrite Hj, unicast_all_sends by done. simpl.
  do 2 eexists. split; [done|]. split; [|split].
  - rewrite <-list_fmap_compose. apply list_fmap_id.
  - intros b rest Hb. rewrite <-list_fmap_compose in Hb. apply list_elem_of_fmap in Hb as (c & -> & _).
    apply receive_send. simpl. lia.
  - intros q sender Hd Hin. by apply processMessage_beb.
Qed.

Lemma beb_broadcast_exact_witness :
  ∃ self ws, BEBroadcast "A" ["007"%byte] node0 = Done (Ok (self, ws)) ∧ ws.*1 = [1; 2]%nat ∧
    (∀ b rest, b ∈ ws.*2 → receive (b ++ rest) = (Ok self, rest)) ∧
    (∀ (q : @Node bytes) sender, NoDup (listenCode <$> msgObservers q) → BEBChannel "A" ∈ msgObservers q →
       processMessage gf2 self sender q =
       Done (ToObservers gf2 [(BEBChannel "A", DBeb gf2 (MkBEBMsg ["007"%byte] sender))])).
Proof.
  apply (beb_broadcast_exact bytes gf2 "A" ["007"%byte] node0);
    [reflexivity|repeat constructor; by eexists|simpl; lia].
Defined.

(** The deal reaches everyone.  [DealSecret] at a node that has joined sends
    each peer, and the node itself, a share of its own.  Each of them reads its
    frame, gets the message through its secret-sharing channel, and makes of it
    the deal with that share and the same commitments to all the shares. *)
Theorem deal_distributed (PublicKey : Type) (G : CirclGroup) ssize esize `{!GroupEncoding G ssize esize}
    (code : byte) (secretSharing : nat → list (Share G)) (base : Element G) (n : @Node PublicKey) :
  hasJoined n = true → Forall (λ p, is_Some (p_conn p)) (n_peers n) →
  (∀ k, length (secretSharing k) = k) →
  Z.of_nat (6 + 2 * ssize + esize + (length (n_peers n) + 1) * (ssize + esize)) < 2 ^ 32 →
  Z.of_nat (length (n_peers n)) + 1 < 2 ^ 32 →
  let shares := secretSharing (length (n_peers n) + 1)%nat in
  ∃ self ms, DealSecret G code secretSharing base n =
      Done (Ok (self, zip (omap p_conn (n_peers n)) (ov_send <$> ms))) ∧
    length ms = length (n_peers n) ∧
    ∀ i m share, (self :: ms) !! i = Some m → shares !! i = Some share →
      (∀ rest, receive (ov_send m ++ rest) = (Ok m, rest)) ∧
      ∃ commitment, listenDeal G share commitment = Ok (Deal G base share ((λ s, shareToPoint s base) <$> shares)) ∧
        ∀ (q : @Node PublicKey) sender, NoDup (listenCode <$> msgObservers q) → SSChannel code ∈ msgObservers q →
          processMessage G m sender q =
          Done (ToObservers G [(SSChannel code, DSs G (SSOk G share commitment sender))]).
Proof.
  intros Hj Hp Hk Hsz Hn shares. assert (Hls : length shares = (length (n_peers n) + 1)%nat) by apply Hk.
  destruct (computeCommitment_some G ssize esize base shares) as (c & Hc & Hlc & Hld); [rewrite Hls; lia|].
  destruct (mapM_wrapMsg (PublicKey := PublicKey) G ssize esize code shares c) as (ms & Hms & Hlm).
  unfold DealSecret, SSBroadcast, getPeers. fold shares. rewrite Hc, Hms.
  destruct ms as [|m0 ms]; [simpl in *; lia|]. unfold unicastSelf. rewrite Hj. simpl in Hlm. simpl.
  rewrite unicast_zip_sends by (done || lia). simpl. exists (generic :: m0), (cons generic <$> ms).
  split; [by rewrite <-list_fmap_compose|]. split; [rewrite length_fmap; lia|].
  intros i m share Hm Hs.
  change ((generic :: m0) :: (cons generic <$> ms)) with (cons generic <$> m0 :: ms) in Hm.
  rewrite list_lookup_fmap in Hm. destruct ((m0 :: ms) !! i) as [m'|] eqn:Hm'; [|done]. injection Hm as <-.
  apply mapM_Some_1 in Hms. destruct (Forall2_lookup_l _ _ _ _ _ Hms Hs) as (m'' & Hm'' & Hw).
  rewrite Hm' in Hm''. injection Hm'' as <-. split.
  - intros rest. apply receive_send. destruct (wrapMsg_some (PublicKey := PublicKey) G ssize esize code share c) as (b & Hb & Hlb & _).
    rewrite Hw in Hb. injection Hb as ->. simpl. rewrite Hlb, Hlc, Hls. lia.
  - exists c. split; [apply Hld|]. intros q sender Hd Hin. by apply (processMessage_ss G ssize esize).
Qed.

Lemma deal_distributed_witness :
  ∃ self ms, DealSecret gf2 "D" shares2 (true : Element gf2) node0 =
      Done (Ok (self, zip [1; 2]%nat (ov_send <$> ms))) ∧
    length ms = 2%nat ∧
    ∀ i m share, (self :: ms) !! i = Some m → shares2 3 !! i = Some share →
      (∀ rest, receive (ov_send m ++ rest) = (Ok m, rest)) ∧
      ∃ commitment, listenDeal gf2 share commitment =
          Ok (Deal gf2 (true : Element gf2) share ((λ s, shareToPoint s (true : Element gf2)) <$> shares2 3)) ∧
        ∀ (q : @Node bytes) sender, NoDup (listenCode <$> msgObservers q) → SSChannel "D" ∈ msgObservers q →
          processMessage gf2 m sender q =
          Done (ToObservers gf2 [(SSChannel "D", DSs gf2 (SSOk gf2 share commitment sender))]).
Proof.
  apply (deal_distributed bytes gf2 1 1 "D" shares2 (true : Element gf2) node0).
  - reflexivity.
  - repeat constructor; by eexists.
  - intros k. unfold shares2. rewrite length_fmap. apply length_seq.
  - reflexivity.
  - reflexivity.
Defined.

(** An empty message ends the process of its receiver.  Any connected peer
    can send a frame without content, or with a type and nothing else: the
    receiver reads it off the connection and indexes an empty slice in a
    goroutine that does not recover. *)
Theorem short_frame_panics (PublicKey : Type) (G : CirclGroup) (m : bytes) (rest : bytes) sender (n : @Node PublicKey) :
  m = [] ∨ m = [generic] → msgObservers n ≠ [] →
  receive (ov_send m ++ rest) = (Ok m, rest) ∧ processMessage G m sender n = Panic.
Proof.
  intros Hm Ho. split; [apply receive_send; destruct Hm as [-> | ->]; simpl; lia|].
  destruct Hm as [-> | ->]; [done|]. unfold processMessage.
  rewrite bool_decide_eq_false_2, bool_decide_eq_true_2 by done.
  destruct (msgObservers n) as [|[c|c] obs]; done.
Qed.

Lemma short_frame_panics_witness :
  receive (ov_send [generic] ++ []) = (Ok [generic], []) ∧ processMessage gf2 [generic] [] node0 = Panic.
Proof. apply (short_frame_panics bytes gf2 [generic] [] [] node0); [by right|discriminate]. Defined.
