(* ===== verification/BebNetwork.v ===== *)
(** * Package [overlayNetwork]: best-effort broadcast among the nodes

    The nodes of [Overlay], connected by byte streams.  [BEBroadcast] hands the
    message to its own node and writes a frame to each connection, one write at a
    time; the reading loop of the other end takes one frame off the stream and
    gives it to [processMessage].  A faulty process writes any bytes.  All the
    channels of a node share its connections, so one network carries the traffic
    of every [BEBChannel], with the other frames of a correct node (membership,
    secret shares) as [TRaw].

    [tr_sent] and [tr_got] record the frames correct processes have sent, with
    their destination, and those every process has read; a [cast] records a call
    of [BEBroadcast], from its arguments and the peers of the node.  The code does
    not keep them. *)

From stdpp Require Import base tactics numbers list gmap functions relations.
From Stdlib Require Import Init.Byte.
From S2P Require Import Prelude Utils CoinGroup CoinWire Overlay.

Local Open Scope Z_scope.

Section transport.
Context {PublicKey : Type} (G : CirclGroup) (mb : membership UUID).
(** The key of a process, and the other end of its connections. *)
Context (pk_of : UUID → PublicKey) (remote : UUID → nat → UUID).

#[local] Abbreviation Node := (@Node PublicKey).

Record beb_net := BebNet {
  tr_sent : list (UUID * UUID * bytes);
  tr_out : UUID → list (list (nat * bytes));
  tr_self : UUID → list bytes;
  tr_stream : UUID * UUID → bytes;
  tr_got : UUID → list (UUID * bytes);
  tr_inbox : UUID → list (byte * BEBMsg (PublicKey := PublicKey));
}.

Definition beb_net_init : beb_net := BebNet [] (λ _, []) (λ _, []) (λ _, []) (λ _, []) (λ _, []).

(** ** The operations of a correct node *)

(** A call of [BEBroadcast]: its message to itself, and the writes left to do.
    The length of a message fits its header. *)
Definition beb_cast (j : UUID) (code : byte) (msg : bytes) (n : Node) (T : beb_net) : option beb_net :=
  if decide (Z.of_nat (length msg) + 2 < 2 ^ 32) then
    match BEBroadcast code msg n with
    | Done (Ok (self, ws)) =>
      Some (BebNet (tr_sent T ++ (j, j, self) :: ((λ w, (j, remote j w.1, self)) <$> ws))
              (<[j := tr_out T j ++ [ws]]> (tr_out T)) (<[j := tr_self T j ++ [self]]> (tr_self T))
              (tr_stream T) (tr_got T) (tr_inbox T))
    | Done (Err _) => Some T
    | _ => None
    end
  else None.

(** The next write of the [g]-th call. *)
Definition beb_write (j : UUID) (g : nat) (T : beb_net) : option beb_net :=
  ws ← tr_out T j !! g;
  match ws with
  | [] => None
  | (c, fr) :: ws =>
    Some (BebNet (tr_sent T) (<[j := <[g := ws]> (tr_out T j)]> (tr_out T)) (tr_self T)
            (<[(j, remote j c) := tr_stream T (j, remote j c) ++ fr]> (tr_stream T)) (tr_got T) (tr_inbox T))
  end.

(** Another frame of a correct node: [send] of a message that fits. *)
Definition beb_raw (j k : UUID) (msg : bytes) (T : beb_net) : option beb_net :=
  if decide (Z.of_nat (length msg) < 2 ^ 32) then
    Some (BebNet (tr_sent T ++ [(j, k, msg)]) (tr_out T) (tr_self T)
            (<[(j, k) := tr_stream T (j, k) ++ ov_send msg]> (tr_stream T)) (tr_got T) (tr_inbox T))
  else None.

(** What the observers that are broadcast channels put on [deliverChan]. *)
Definition beb_deliveries (ds : list (observer * delivery G)) : list (byte * BEBMsg (PublicKey := PublicKey)) :=
  omap (λ d, match d with (BEBChannel code, DBeb _ m) => Some (code, m) | _ => None end) ds.

(** [processMessage] at [k] of a message that came from [s]. *)
Definition beb_process (k s : UUID) (msg : bytes) (n : Node) (T : beb_net) : option beb_net :=
  match processMessage G msg (pk_of s) n with
  | Done p =>
    let ds := match p with ToObservers _ ds => beb_deliveries ds | _ => [] end in
    Some (BebNet (tr_sent T) (tr_out T) (tr_self T) (tr_stream T)
            (<[k := tr_got T k ++ [(s, msg)]]> (tr_got T)) (<[k := tr_inbox T k ++ ds]> (tr_inbox T)))
  | _ => None
  end.

(** The goroutine of [unicastSelf]. *)
Definition beb_self (k : UUID) (x : nat) (n : Node) (T : beb_net) : option beb_net :=
  msg ← tr_self T k !! x;
  beb_process k k msg n
    (BebNet (tr_sent T) (tr_out T) (<[k := delete x (tr_self T k)]> (tr_self T)) (tr_stream T)
       (tr_got T) (tr_inbox T)).

(** One turn of [readFromConnection] at [k], on the connection from [s]. *)
Definition beb_read (s k : UUID) (n : Node) (T : beb_net) : option beb_net :=
  match receive (tr_stream T (s, k)) with
  | (Ok msg, rest) =>
    beb_process k s msg n
      (BebNet (tr_sent T) (tr_out T) (tr_self T) (<[(s, k) := rest]> (tr_stream T)) (tr_got T) (tr_inbox T))
  | (Err _, _) => None
  end.

(** The client of a broadcast channel receives from [GetBEBChan()]. *)
Definition beb_take (k : UUID) (x : nat) (T : beb_net) : option (byte * BEBMsg (PublicKey := PublicKey) * beb_net) :=
  d ← tr_inbox T k !! x;
  Some (d, BebNet (tr_sent T) (tr_out T) (tr_self T) (tr_stream T) (tr_got T)
             (<[k := delete x (tr_inbox T k)]> (tr_inbox T))).

(** Bytes a faulty process writes. *)
Definition beb_bytes (i k : UUID) (bs : bytes) (T : beb_net) : beb_net :=
  BebNet (tr_sent T) (tr_out T) (tr_self T) (<[(i, k) := tr_stream T (i, k) ++ bs]> (tr_stream T))
    (tr_got T) (tr_inbox T).

Inductive beb_event :=
| TWrite (j : UUID) (g : nat)
| TRaw (j k : UUID) (msg : bytes)
| TSelf (k : UUID) (x : nat) (n : Node)
| TRead (s k : UUID) (n : Node)
| TBytes (i k : UUID) (bs : bytes).

(** The steps that do not involve a client. *)
Definition beb_exec (e : beb_event) (T : beb_net) : option beb_net :=
  match e with
  | TWrite j g => beb_write j g T
  | TRaw j k msg => if decide (j ∈ faulty mb) then None else beb_raw j k msg T
  | TSelf k x n => beb_self k x n T
  | TRead s k n => if decide (s ∈ peers mb) then beb_read s k n T else None
  | TBytes i k bs => if decide (i ∈ faulty mb) then Some (beb_bytes i k bs T) else None
  end.

(** ** Invariant *)

Definition frames (T : beb_net) (j k : UUID) (fs : list bytes) : Prop :=
  tr_stream T (j, k) = concat (ov_send <$> fs).

Record beb_inv (T : beb_net) : Prop := {
  tv_short j k m : (j, k, m) ∈ tr_sent T → Z.of_nat (length m) < 2 ^ 32;
  tv_out j ws w : j ∉ faulty mb → ws ∈ tr_out T j → w ∈ ws →
    ∃ m, w.2 = ov_send m ∧ (j, remote j w.1, m) ∈ tr_sent T;
  tv_self j m : j ∉ faulty mb → m ∈ tr_self T j → (j, j, m) ∈ tr_sent T;
  tv_stream j k : j ∉ faulty mb → ∃ fs, frames T j k fs ∧ ∀ m, m ∈ fs → (j, k, m) ∈ tr_sent T;
  tv_got s k m : (s, m) ∈ tr_got T k → s ∉ faulty mb → (s, k, m) ∈ tr_sent T;
  tv_inbox k code m : (code, m) ∈ tr_inbox T k →
    ∃ s, beb_Sender m = pk_of s ∧ (s, generic :: code :: beb_Content m) ∈ tr_got T k ∧
      (s = k ∨ s ∈ peers mb);
}.

Lemma beb_inv_init : beb_inv beb_net_init.
Proof.
  split; simpl.
  1-3,5,6: intros; exfalso; by eapply not_elem_of_nil.
  intros j k _. exists []. split; [done|]. intros m Hm. by apply not_elem_of_nil in Hm.
Qed.

(** What a broadcast writes. *)
Lemma unicast_all_frames wrappedMsg ps (n : Node) ws :
  unicast_all wrappedMsg ps n = Done ws → ∀ w, w ∈ ws → w.2 = ov_send (generic :: wrappedMsg).
Proof.
  revert ws. induction ps as [|p ps IH]; intros ws; simpl.
  - intros [= <-] w Hw. by apply not_elem_of_nil in Hw.
  - unfold unicast. destruct (negb (hasJoined n)); simpl.
    + destruct (unicast_all wrappedMsg ps n) as [ws'| |]; simpl; try done. intros [= <-]. by apply IH.
    + destruct (p_conn p) as [c|]; simpl; [|done].
      destruct (unicast_all wrappedMsg ps n) as [ws'| |]; simpl; try done. intros [= <-] w Hw.
      apply elem_of_cons in Hw as [->|Hw]; [done|]. by eapply IH.
Qed.

Lemma BEBroadcast_frames code msg (n : Node) self ws :
  BEBroadcast code msg n = Done (Ok (self, ws)) →
  self = generic :: code :: msg ∧ ∀ w, w ∈ ws → w.2 = ov_send self.
Proof.
  unfold BEBroadcast, unicastSelf. destruct (negb (hasJoined n)); [done|].
  destruct (unicast_all _ _ _) as [ws'| |] eqn:E; simpl; try done. intros [= <- <-].
  split; [done|]. by eapply unicast_all_frames.
Qed.

(** A delivery of a broadcast channel is a generic message of its code. *)
Lemma observe_beb obs content sender ds code (m : BEBMsg) :
  observe (PublicKey := PublicKey) G obs content sender = Done ds → (BEBChannel code, DBeb G m) ∈ ds →
  content = code :: beb_Content m ∧ beb_Sender m = sender.
Proof.
  revert ds. induction obs as [|o obs IH]; intros ds; simpl.
  - intros [= <-] Hin. by apply not_elem_of_nil in Hin.
  - destruct (obs_bebDeliver G o content sender) as [d| |] eqn:Ho; simpl; try done.
    destruct (observe G obs content sender) as [ds'| |]; simpl; try done. intros [= <-] Hin.
    destruct d as [d|]; [|by eapply IH]. apply elem_of_cons in Hin as [[= <- <-]|Hin]; [|by eapply IH].
    simpl in Ho. destruct content as [|b content]; simpl in Ho; [done|].
    destruct (bool_decide (b = code)) eqn:Hb; simpl in Ho; [|done].
    apply bool_decide_eq_true_1 in Hb. by injection Ho as <-; subst.
Qed.

Lemma processMessage_deliveries msg sender (n : Node) ds code (m : BEBMsg) :
  processMessage G msg sender n = Done (ToObservers G ds) → (code, m) ∈ beb_deliveries ds →
  msg = generic :: code :: beb_Content m ∧ beb_Sender m = sender.
Proof.
  unfold processMessage. destruct msg as [|t content]; [done|].
  destruct (bool_decide (t = membership_code)); [done|].
  destruct (bool_decide (t = generic)) eqn:Ht; [|done]. apply bool_decide_eq_true_1 in Ht.
  destruct (observe G (msgObservers n) content sender) as [ds'| |] eqn:Ho; simpl; try done.
  intros [= <-] Hin. unfold beb_deliveries in Hin. apply list_elem_of_omap in Hin as ([o d] & Hin & Hd).
  destruct o as [c|c]; [|done]. destruct d as [m'|m']; [|done]. injection Hd as -> ->.
  destruct (observe_beb _ _ _ _ _ _ Ho Hin) as [-> ?]. by subst.
Qed.

Lemma beb_process_inv k s msg n T T' :
  beb_inv T → (s = k ∨ s ∈ peers mb) → (s ∉ faulty mb → (s, k, msg) ∈ tr_sent T) →
  beb_process k s msg n T = Some T' → beb_inv T'.
Proof.
  intros [] Hs Hsent. unfold beb_process.
  destruct (processMessage G msg (pk_of s) n) as [p| |] eqn:Hp; try done. intros [= <-].
  split; simpl; try done.
  - intros s' k' m. destruct (decide (k' = k)) as [->|];
      [rewrite fn_lookup_insert|rewrite fn_lookup_insert_ne by done; eauto].
    intros [?|[= -> ->]%list_elem_of_singleton]%elem_of_app; eauto.
  - intros k' code m. destruct (decide (k' = k)) as [->|];
      [rewrite !fn_lookup_insert|rewrite !fn_lookup_insert_ne by done; eauto].
    intros [Hin|Hin]%elem_of_app.
    + destruct (tv_inbox0 _ _ _ Hin) as (s' & ? & ? & ?). exists s'. split_and!; [done| |done].
      apply elem_of_app. by left.
    + destruct p as [|ds|]; [by apply not_elem_of_nil in Hin| |by apply not_elem_of_nil in Hin].
      destruct (processMessage_deliveries _ _ _ _ _ _ Hp Hin) as [-> Hm]. exists s.
      split_and!; [done| |done]. apply elem_of_app. right. by apply list_elem_of_singleton.
Qed.

(** Removing what is in transit, or adding to a faulty process's stream. *)
Lemma beb_inv_sub T out self stream :
  beb_inv T → (∀ j ws w, j ∉ faulty mb → ws ∈ out j → w ∈ ws → ∃ ws', ws' ∈ tr_out T j ∧ w ∈ ws') →
  (∀ j m, m ∈ self j → m ∈ tr_self T j) →
  (∀ j k, j ∉ faulty mb → ∃ fs, stream (j, k) = concat (ov_send <$> fs) ∧ ∀ m, m ∈ fs → (j, k, m) ∈ tr_sent T) →
  beb_inv (BebNet (tr_sent T) out self stream (tr_got T) (tr_inbox T)).
Proof.
  intros [] Ho Hs Hst. split; simpl; try done; [|by eauto].
  intros j ws w Hj Hws Hw. destruct (Ho j ws w Hj Hws Hw) as (ws' & ? & ?). by eapply tv_out0.
Qed.

(** Sending more. *)
Lemma beb_inv_send T new :
  beb_inv T → (∀ j k m, (j, k, m) ∈ new → Z.of_nat (length m) < 2 ^ 32) →
  beb_inv (BebNet (tr_sent T ++ new) (tr_out T) (tr_self T) (tr_stream T) (tr_got T) (tr_inbox T)).
Proof.
  intros [] Hn. split; simpl; try done.
  - intros j k m [?|?]%elem_of_app; eauto.
  - intros j ws w Hj Hws Hw. destruct (tv_out0 j ws w Hj Hws Hw) as (m & ? & ?). exists m.
    split; [done|]. apply elem_of_app. by left.
  - intros. apply elem_of_app. left. by apply tv_self0.
  - intros j k Hj. destruct (tv_stream0 j k Hj) as (fs & ? & Hfs). exists fs. split; [done|].
    intros m Hm. apply elem_of_app. left. auto.
  - intros. apply elem_of_app. left. by apply tv_got0.
Qed.

Lemma receive_frames fs msg rest :
  (∀ m, m ∈ fs → Z.of_nat (length m) < 2 ^ 32) →
  receive (concat (ov_send <$> fs)) = (Ok msg, rest) →
  ∃ fs', fs = msg :: fs' ∧ rest = concat (ov_send <$> fs').
Proof.
  intros Hs. destruct fs as [|m fs]; [done|]. cbn [fmap list_fmap concat].
  rewrite receive_send by (apply Hs; by left). intros [= <- <-]. by eexists.
Qed.

Lemma beb_cast_inv j code msg n T T' : beb_inv T → beb_cast j code msg n T = Some T' → beb_inv T'.
Proof.
  intros HT. unfold beb_cast. case_decide as Hl; [|done].
  destruct (BEBroadcast code msg n) as [[[self ws]|?]| |] eqn:Hb; try done; [|by intros [= <-]].
  destruct (BEBroadcast_frames _ _ _ _ _ Hb) as [-> Hw]. intros [= <-].
  set (self := generic :: code :: msg) in *.
  pose proof (beb_inv_send T ((j, j, self) :: ((λ w, (j, remote j w.1, self)) <$> ws)) HT) as HT'.
  destruct HT' as [].
  { intros j' k' m. rewrite elem_of_cons, list_elem_of_fmap.
    assert (Z.of_nat (length self) < 2 ^ 32) by (simpl; lia). intros [[= -> -> ->]|(w & [= -> -> ->] & _)]; done. }
  split; try done.
  - simpl. intros j' ws' w Hj. destruct (decide (j' = j)) as [->|];
      [rewrite fn_lookup_insert|rewrite fn_lookup_insert_ne by done; by apply tv_out0].
    intros [?| ->%list_elem_of_singleton]%elem_of_app Hin; [by eapply tv_out0|].
    exists self. split; [by apply Hw|]. apply elem_of_app. right. apply elem_of_cons. right.
    apply list_elem_of_fmap. by exists w.
  - simpl. intros j' m Hj. destruct (decide (j' = j)) as [->|];
      [rewrite fn_lookup_insert|rewrite fn_lookup_insert_ne by done; by apply tv_self0].
    intros [?| ->%list_elem_of_singleton]%elem_of_app; [by apply tv_self0|].
    apply elem_of_app. right. by left.
Qed.

(** Appending a sent message to a stream. *)
Lemma stream_snoc T j k m :
  (∃ fs, frames T j k fs ∧ ∀ m, m ∈ fs → (j, k, m) ∈ tr_sent T) → (j, k, m) ∈ tr_sent T →
  ∃ fs, tr_stream T (j, k) ++ ov_send m = concat (ov_send <$> fs) ∧ ∀ m, m ∈ fs → (j, k, m) ∈ tr_sent T.
Proof.
  intros (fs & Hf & Hs) Hm. exists (fs ++ [m]). split.
  - rewrite Hf, fmap_app, concat_app. cbn [fmap list_fmap concat]. by rewrite app_nil_r.
  - intros m' [?| ->%list_elem_of_singleton]%elem_of_app; auto.
Qed.

Lemma beb_exec_inv e T T' : beb_inv T → beb_exec e T = Some T' → beb_inv T'.
Proof.
  intros HT. pose proof HT as []. destruct e as [j g|j k msg|k x n|s k n|i k bs]; simpl.
  - unfold beb_write. intros (ws & Hg & Hx)%bind_Some. destruct ws as [|[c fr] ws]; [done|].
    injection Hx as <-. apply list_elem_of_lookup_2 in Hg as Hin.
    apply beb_inv_sub; [done| |done|].
    + intros j' ws' w Hj. destruct (decide (j' = j)) as [->|];
        [rewrite fn_lookup_insert|rewrite fn_lookup_insert_ne by done; eauto].
      intros (g' & Hg')%list_elem_of_lookup. apply list_lookup_insert_Some in Hg' as [(_ & <- & _)|[_ Hg']];
        [|apply list_elem_of_lookup_2 in Hg'; eauto]. intros Hw. exists ((c, fr) :: ws). split; [done|]. by right.
    + intros j' k' Hj. destruct (decide ((j', k') = (j, remote j c))) as [[= -> ->]|];
        [rewrite fn_lookup_insert|rewrite fn_lookup_insert_ne by done; by apply tv_stream0].
      destruct (tv_out0 j _ (c, fr) Hj Hin) as (m & Hfr & Hs); [by left|]. simpl in Hfr, Hs. subst fr.
      apply (stream_snoc T); auto.
  - case_decide as Hj; [done|]. unfold beb_raw. case_decide as Hl; [|done]. intros [= <-].
    assert (HT' : beb_inv (BebNet (tr_sent T ++ [(j, k, msg)]) (tr_out T) (tr_self T) (tr_stream T) (tr_got T) (tr_inbox T))).
    { apply beb_inv_send; [done|]. intros j' k' m [= -> -> ->]%list_elem_of_singleton. done. }
    apply (beb_inv_sub _ _ _ _ HT'); [eauto|done|].
    intros j' k' Hj'. pose proof (tv_stream _ HT' j' k' Hj') as Hst.
    destruct (decide ((j', k') = (j, k))) as [[= -> ->]|];
      [rewrite fn_lookup_insert|by rewrite fn_lookup_insert_ne].
    apply (stream_snoc (BebNet _ _ _ _ _ _) j k msg Hst). simpl. apply elem_of_app. right. by left.
  - unfold beb_self. intros (msg & Hx & Hp)%bind_Some. apply list_elem_of_lookup_2 in Hx as Hin.
    refine (beb_process_inv k k msg n _ T' _ _ _ Hp); [|by left|intros; by apply tv_self0].
    apply beb_inv_sub; [done|eauto| |done].
    intros j m. destruct (decide (j = k)) as [->|];
      [rewrite fn_lookup_insert|by rewrite fn_lookup_insert_ne].
    intros Hm. by eapply list_elem_of_delete_inv.
  - case_decide as Hs; [|done]. unfold beb_read.
    destruct (receive (tr_stream T (s, k))) as [[msg|?] rest] eqn:Hr; [|done]. intros Hp.
    assert (Hfs : s ∉ faulty mb → (s, k, msg) ∈ tr_sent T ∧
      ∃ fs, rest = concat (ov_send <$> fs) ∧ ∀ m, m ∈ fs → (s, k, m) ∈ tr_sent T).
    { intros Hsf. destruct (tv_stream0 s k Hsf) as (fs & Hf & Hfs). rewrite Hf in Hr.
      destruct (receive_frames fs msg rest) as (fs' & -> & ->); [|done|].
      { intros m Hm. by eapply tv_short0, Hfs. }
      split; [apply Hfs; by left|]. exists fs'. split; [done|]. intros m Hm. apply Hfs. by right. }
    refine (beb_process_inv k s msg n _ T' _ _ _ Hp); [|by right|by apply Hfs].
    apply beb_inv_sub; [done|eauto|done|].
    intros j' k' Hj. destruct (decide ((j', k') = (s, k))) as [[= -> ->]|];
      [rewrite fn_lookup_insert; by apply Hfs|rewrite fn_lookup_insert_ne by done; by apply tv_stream0].
  - case_decide as Hi; [|done]. intros [= <-]. apply beb_inv_sub; [done|eauto|done|].
    intros j' k' Hj. rewrite fn_lookup_insert_ne by congruence. by apply tv_stream0.
Qed.

Lemma beb_take_inv k x T d T' : beb_inv T → beb_take k x T = Some (d, T') → beb_inv T'.
Proof.
  intros [] Ht. unfold beb_take in Ht. apply bind_Some in Ht as (d' & Hx & Ht). injection Ht as -> <-.
  split; simpl; try done. intros k' code m.
  destruct (decide (k' = k)) as [->|]; [rewrite fn_lookup_insert|rewrite fn_lookup_insert_ne by done; eauto].
  intros Hin. eapply tv_inbox0. by eapply list_elem_of_delete_inv.
Qed.

(** What a broadcast adds to the sent messages, and what another frame does. *)
Lemma beb_cast_sent j code p (n : Node) T T' j' k m :
  beb_cast j code p n T = Some T' → (j', k, m) ∈ tr_sent T' →
  (j', k, m) ∈ tr_sent T ∨ (j' = j ∧ m = generic :: code :: p).
Proof.
  unfold beb_cast. case_decide; [|done].
  destruct (BEBroadcast code p n) as [[[self ws]|?]| |] eqn:Hb; try done; [|intros [= <-]; by left].
  destruct (BEBroadcast_frames _ _ _ _ _ Hb) as [-> _]. intros [= <-]. simpl.
  rewrite elem_of_app, elem_of_cons, list_elem_of_fmap. intros [?|[[= -> _ ->]|(w & [= -> _ ->] & _)]]; auto.
Qed.

Lemma beb_exec_sent (e : beb_event) T T' j k m :
  beb_exec e T = Some T' → (j, k, m) ∈ tr_sent T' → (j, k, m) ∈ tr_sent T ∨ e = TRaw j k m.
Proof.
  intros He Hp.
  assert (Hproc : ∀ k s m n T0 T1, beb_process k s m n T0 = Some T1 → tr_sent T1 = tr_sent T0).
  { intros k0 s m0 n T0 T1. unfold beb_process. destruct (processMessage G m0 (pk_of s) n); try done. by intros [= <-]. }
  destruct e as [j' g|j' k' m'|k' x n|s k' n|i k' bs]; simpl in He.
  - unfold beb_write in He. apply bind_Some in He as (ws & _ & He). destruct ws as [|[c fr] ws]; [done|].
    injection He as <-. by left.
  - case_decide; [done|]. unfold beb_raw in He. case_decide; [|done]. injection He as <-. simpl in Hp.
    apply elem_of_app in Hp as [?|[= <- <- <-]%list_elem_of_singleton]; [by left|by right].
  - unfold beb_self in He. apply bind_Some in He as (m' & _ & He). rewrite (Hproc _ _ _ _ _ _ He) in Hp. by left.
  - case_decide; [|done]. unfold beb_read in He. destruct (receive _) as [[m'|?] rest]; [|done].
    rewrite (Hproc _ _ _ _ _ _ He) in Hp. by left.
  - case_decide; [|done]. injection He as <-. by left.
Qed.

Lemma beb_take_sent k x T d T' : beb_take k x T = Some (d, T') → tr_sent T' = tr_sent T.
Proof. unfold beb_take. by intros (? & _ & [= _ <-])%bind_Some. Qed.

(** What a receive finds. *)
Lemma beb_take_from k x T code m T' :
  beb_inv T → beb_take k x T = Some (code, m, T') →
  ∃ s, beb_Sender m = pk_of s ∧ (s = k ∨ s ∈ peers mb) ∧
    (s ∉ faulty mb → (s, k, generic :: code :: beb_Content m) ∈ tr_sent T).
Proof.
  unfold beb_take. intros HT ([c' m'] & Hx & [= -> -> _])%bind_Some.
  destruct (tv_inbox _ HT k code m) as (s & Hs & Hg & Hor); [by eapply list_elem_of_lookup_2|].
  exists s. split; [done|]. split; [done|]. by apply tv_got.
Qed.

(** ** Nothing a correct process sends is lost *)

(** A message of [j] for [k] that has not arrived: still to be written, on
    the stream, or on its way to its own node. *)
Definition unwritten (T : beb_net) (j k : UUID) (m : bytes) : Prop :=
  ∃ ws w, ws ∈ tr_out T j ∧ w ∈ ws ∧ remote j w.1 = k ∧ w.2 = ov_send m.
Definition unread (stream : bytes) (m : bytes) : Prop :=
  ∃ fs, stream = concat (ov_send <$> fs) ∧ (∀ m', m' ∈ fs → Z.of_nat (length m') < 2 ^ 32) ∧ m ∈ fs.
Definition in_transit (T : beb_net) (j k : UUID) (m : bytes) : Prop :=
  unwritten T j k m ∨ unread (tr_stream T (j, k)) m ∨ (k = j ∧ m ∈ tr_self T j).

Definition beb_kept (T : beb_net) : Prop :=
  ∀ j k m, (j, k, m) ∈ tr_sent T → j ∉ faulty mb → in_transit T j k m ∨ (j, m) ∈ tr_got T k.

(** All writes done, all frames of correct processes read. *)
Definition beb_at_rest (T : beb_net) : Prop :=
  set_Forall (λ j, Forall (λ ws, ws = []) (tr_out T j) ∧ tr_self T j = [] ∧
    set_Forall (λ k, tr_stream T (j, k) = []) (peers mb)) (peers mb ∖ faulty mb).

Lemma unread_app st m m' :
  Z.of_nat (length m') < 2 ^ 32 → unread st m → unread (st ++ ov_send m') m.
Proof.
  intros Hl (fs & -> & Hs & Hm). exists (fs ++ [m']). split_and!.
  - rewrite fmap_app, concat_app. cbn [fmap list_fmap concat]. by rewrite app_nil_r.
  - intros m2 [?| ->%list_elem_of_singleton]%elem_of_app; auto.
  - apply elem_of_app. by left.
Qed.

Lemma unread_new T j k m :
  beb_inv T → j ∉ faulty mb → Z.of_nat (length m) < 2 ^ 32 → unread (tr_stream T (j, k) ++ ov_send m) m.
Proof.
  intros HT Hj Hl. destruct (tv_stream _ HT j k Hj) as (fs & Hf & Hs). exists (fs ++ [m]). split_and!.
  - rewrite Hf, fmap_app, concat_app. cbn [fmap list_fmap concat]. by rewrite app_nil_r.
  - intros m2 [?| ->%list_elem_of_singleton]%elem_of_app; [|done]. by eapply tv_short, Hs.
  - apply elem_of_app. right. by left.
Qed.

Lemma unread_receive st msg rest m :
  receive st = (Ok msg, rest) → unread st m → m = msg ∨ unread rest m.
Proof.
  intros Hr (fs & -> & Hs & Hm). destruct (receive_frames fs msg rest Hs Hr) as (fs' & -> & ->).
  apply elem_of_cons in Hm as [->|Hm]; [by left|]. right. exists fs'. split_and!; [done| |done].
  intros m' ?. apply Hs. by right.
Qed.

Lemma beb_process_kept k s msg n T T' :
  (∀ j k' m, (j, k', m) ∈ tr_sent T → j ∉ faulty mb →
     in_transit T j k' m ∨ (j, m) ∈ tr_got T k' ∨ (j, k', m) = (s, k, msg)) →
  beb_process k s msg n T = Some T' → beb_kept T'.
Proof.
  intros HT. unfold beb_process. destruct (processMessage G msg (pk_of s) n); try done. intros [= <-].
  intros j k' m Hm Hj. destruct (HT j k' m Hm Hj) as [?|Hg]; [by left|]. right. simpl.
  destruct (decide (k' = k)) as [->|Hne]; [rewrite fn_lookup_insert|rewrite fn_lookup_insert_ne by done].
  - apply elem_of_app. destruct Hg as [?|[= -> ->]]; [by left|]. right. by left.
  - by destruct Hg as [?|[= -> -> ->]].
Qed.

Lemma beb_write_kept j g T T' : beb_inv T → beb_kept T → beb_write j g T = Some T' → beb_kept T'.
Proof.
  intros HT HK. unfold beb_write. intros (ws & Hg & Hx)%bind_Some. destruct ws as [|[c fr] ws]; [done|].
  injection Hx as <-. apply list_elem_of_lookup_2 in Hg as Hin. intros j' k' m Hm Hj'. simpl in Hm.
  assert (Hsm : Z.of_nat (length m) < 2 ^ 32) by (by eapply tv_short).
  destruct (HK j' k' m Hm Hj') as [Ht|?]; [|by right].
  assert (Hor : j' = j ∧ k' = remote j c ∧ fr = ov_send m ∨ in_transit (BebNet (tr_sent T)
    (<[j := <[g := ws]> (tr_out T j)]> (tr_out T)) (tr_self T) (tr_stream T) (tr_got T) (tr_inbox T)) j' k' m).
  { destruct Ht as [(ws' & w & Hws & Hw & Hr & Hfr)|Ht]; [|right; by right].
    destruct (decide (j' = j)) as [->|].
    2: { right. left. exists ws', w. simpl. by rewrite fn_lookup_insert_ne. }
    apply list_elem_of_lookup in Hws as [g' Hg']. destruct (decide (g' = g)) as [->|].
    - rewrite Hg in Hg'. injection Hg' as <-. apply elem_of_cons in Hw as [->|Hw]; [by left|].
      right. left. exists ws, w. simpl. rewrite fn_lookup_insert. split; [|done].
      eapply list_elem_of_insert, lookup_lt_Some, Hg.
    - right. left. exists ws', w. simpl. rewrite fn_lookup_insert. split; [|done].
      apply (list_elem_of_lookup_2 _ g'). by rewrite list_lookup_insert_ne. }
  left. destruct Hor as [(-> & -> & ->)|[?|[Hu|?]]]; [|by left| |right; by right].
  - right. left. simpl. rewrite fn_lookup_insert. by apply unread_new.
  - right. left. simpl. destruct (decide ((j', k') = (j, remote j c))) as [[= -> ->]|];
      [rewrite fn_lookup_insert|by rewrite fn_lookup_insert_ne].
    destruct (tv_out _ HT j _ (c, fr) Hj' Hin) as (m' & Hfr & Hs); [by left|]. simpl in Hfr, Hs. subst fr.
    apply unread_app; [by eapply tv_short|done].
Qed.

Lemma beb_exec_kept e T T' : beb_inv T → beb_kept T → beb_exec e T = Some T' → beb_kept T'.
Proof.
  intros HT HK. destruct e as [j g|j k msg|k x n|s k n|i k bs]; simpl; [by apply beb_write_kept|..].
  - case_decide as Hj; [done|]. unfold beb_raw. case_decide as Hl; [|done]. intros [= <-].
    intros j' k' m Hm Hj'. simpl in Hm |- *. apply elem_of_app in Hm as [Hm|[= -> -> ->]%list_elem_of_singleton].
    + destruct (HK j' k' m Hm Hj') as [[?|[Hu|?]]|?]; [left; by left| |left; right; by right|by right].
      left; right; left. simpl. destruct (decide ((j', k') = (j, k))) as [[= -> ->]|];
        [rewrite fn_lookup_insert; by apply unread_app|by rewrite fn_lookup_insert_ne].
    + left; right; left. simpl. rewrite fn_lookup_insert. by apply unread_new.
  - unfold beb_self. intros (msg & Hx & Hp)%bind_Some. refine (beb_process_kept k k msg n _ T' _ Hp).
    intros j k' m Hm Hj. simpl in Hm |- *. destruct (HK j k' m Hm Hj) as [[?|[?|[-> Hin]]]|?];
      [left; by left|left; right; by left| |by right; left].
    destruct (decide (j = k)) as [->|]; [|left; right; right; simpl; by rewrite fn_lookup_insert_ne].
    rewrite (delete_Permutation _ _ _ Hx) in Hin. apply elem_of_cons in Hin as [->|Hin]; [by right; right|].
    left; right; right. simpl. by rewrite fn_lookup_insert.
  - case_decide as Hs; [|done]. unfold beb_read.
    destruct (receive (tr_stream T (s, k))) as [[msg|?] rest] eqn:Hr; [|done]. intros Hp.
    refine (beb_process_kept k s msg n _ T' _ Hp). intros j k' m Hm Hj. simpl in Hm |- *.
    destruct (HK j k' m Hm Hj) as [[?|[Hu|?]]|?]; [left; by left| |left; right; by right|by right; left].
    destruct (decide ((j, k') = (s, k))) as [[= -> ->]|Hne].
    + destruct (unread_receive _ _ _ _ Hr Hu) as [->|Hu']; [by right; right|].
      left; right; left. simpl. by rewrite fn_lookup_insert.
    + left; right; left. simpl. by rewrite fn_lookup_insert_ne.
  - case_decide as Hi; [|done]. intros [= <-] j' k' m Hm Hj. destruct (HK j' k' m Hm Hj) as [[?|[?|?]]|?];
      [left; by left| |left; right; by right|by right].
    left; right; left. simpl. by rewrite fn_lookup_insert_ne by congruence.
Qed.

Lemma beb_cast_kept j code msg n T T' : beb_kept T → beb_cast j code msg n T = Some T' → beb_kept T'.
Proof.
  intros HK. unfold beb_cast. case_decide; [|done].
  destruct (BEBroadcast code msg n) as [[[self ws]|?]| |] eqn:Hb; try done; [|by intros [= <-]].
  destruct (BEBroadcast_frames _ _ _ _ _ Hb) as [-> Hw]. intros [= <-].
  intros j' k' m Hm Hj. simpl in Hm |- *. apply elem_of_app in Hm as [Hm|Hm].
  - destruct (HK j' k' m Hm Hj) as [[(ws' & w & Hws & Hw')|[?|[? Hin]]]|?];
      [|left; right; by left| |by right]; left.
    + left. exists ws', w. split; [|done]. simpl. destruct (decide (j' = j)) as [->|];
        [rewrite fn_lookup_insert; apply elem_of_app; by left|by rewrite fn_lookup_insert_ne].
    + right; right. split; [done|]. simpl. destruct (decide (j' = j)) as [->|];
        [rewrite fn_lookup_insert; apply elem_of_app; by left|by rewrite fn_lookup_insert_ne].
  - left. apply elem_of_cons in Hm as [[= -> -> ->]|Hm].
    + right; right. split; [done|]. simpl. rewrite fn_lookup_insert. apply elem_of_app. right. by left.
    + apply list_elem_of_fmap in Hm as (w & [= -> -> ->] & Hin). left. exists ws, w. simpl.
      rewrite fn_lookup_insert. split_and!; [apply elem_of_app; right; by left|done|done|by apply Hw].
Qed.

(** ** The network with its clients *)

(** The connections to the peers of a node. *)
Definition connections (n : Node) : list nat := omap p_conn (getPeers n).

(** A call of [BEBroadcast] that its client has made, at a node that has joined;
    [ca_conns]: the connections to the peers of the node at that time. *)
Record cast := Cast { ca_from : UUID; ca_code : byte; ca_msg : bytes; ca_conns : list nat }.
Definition client_call (j : UUID) (code : byte) (msg : bytes) (n : Node) : list cast :=
  if hasJoined n then [Cast j code msg (connections n)] else [].
Definition addressed (ca : cast) (k : UUID) : Prop :=
  k = ca_from ca ∨ ∃ c, c ∈ ca_conns ca ∧ remote (ca_from ca) c = k.
Definition frame_of (ca : cast) : bytes := generic :: ca_code ca :: ca_msg ca.

(** The codes of the secret-sharing channels. *)
Context (ss : list byte).

(** What a correct node sends besides broadcasts: the names of its peers
    ([sendMembership]), and shares of a secret ([SSBroadcast]). *)
Definition raw_frame (msg : bytes) : Prop :=
  match msg with
  | [] => False
  | t :: rest => t = membership_code ∨ t = generic ∧ match rest with c :: _ => c ∈ ss | [] => False end
  end.

(** A call of [BEBroadcast] by a correct process, a receive from a channel, or
    a step of the nodes; with the calls made so far. *)
Inductive beb_step : list cast * beb_net → list cast * beb_net → Prop :=
| beb_cast_step C T j code msg n T' :
    j ∉ faulty mb → beb_cast j code msg n T = Some T' → beb_step (C, T) (C ++ client_call j code msg n, T')
| beb_take_step C T k x d T' : beb_take k x T = Some (d, T') → beb_step (C, T) (C, T')
| beb_exec_step C T e T' :
    (∀ j k msg, e = TRaw j k msg → raw_frame msg) → beb_exec e T = Some T' → beb_step (C, T) (C, T').

Definition beb_reachable (C : list cast) (T : beb_net) : Prop := rtc beb_step ([], beb_net_init) (C, T).

(** A broadcast is one frame to the node itself and to each of its peers. *)
Lemma unicast_all_conns wrappedMsg ps (n : Node) ws :
  hasJoined n = true → unicast_all wrappedMsg ps n = Done ws →
  ws = (λ c, (c, ov_send (generic :: wrappedMsg))) <$> omap p_conn ps.
Proof.
  intros Hj. revert ws. induction ps as [|p ps IH]; intros ws; simpl; [by intros [= <-]|].
  unfold unicast. rewrite Hj. simpl. destruct (p_conn p) as [c|]; [|done]. simpl.
  destruct (unicast_all wrappedMsg ps n) as [ws'| |]; simpl; try done. intros [= <-]. f_equal. by apply IH.
Qed.

(** What a call adds to the messages sent. *)
Lemma beb_cast_adds j code msg n T T' :
  beb_cast j code msg n T = Some T' → ∃ new, tr_sent T' = tr_sent T ++ new ∧
  ∀ j' k m, (j', k, m) ∈ new ↔ ∃ ca, ca ∈ client_call j code msg n ∧ j' = ca_from ca ∧ m = frame_of ca ∧ addressed ca k.
Proof.
  unfold beb_cast, client_call. case_decide; [|done].
  destruct (BEBroadcast code msg n) as [[[self ws]|?]| |] eqn:Hb; try done; unfold BEBroadcast, unicastSelf in Hb;
    destruct (hasJoined n) eqn:Hj; simpl in Hb; try done.
  - destruct (unicast_all (code :: msg) (getPeers n) n) as [ws'| |] eqn:Hu; simpl in Hb; try done.
    injection Hb as <- <-. apply unicast_all_conns in Hu as ->; [|done]. intros [= <-]. eexists. split; [done|].
    intros j' k m. rewrite elem_of_cons, list_elem_of_fmap. setoid_rewrite list_elem_of_fmap.
    setoid_rewrite list_elem_of_singleton. unfold addressed, frame_of, connections. split.
    + intros [[= -> -> ->]|(w & [= -> -> ->] & (c & -> & Hc))]; eexists; (split; [done|]); simpl; split_and!; eauto.
    + intros (ca & -> & -> & -> & [->|(c & Hc & <-)]); simpl; [by left|right]. exists (c, ov_send (generic :: code :: msg)).
      split; [done|]. by exists c.
  - by destruct (unicast_all (code :: msg) (getPeers n) n).
  - intros [= <-]. exists []. split; [by rewrite app_nil_r|]. intros j' k m. split.
    + intros H'. by apply not_elem_of_nil in H'.
    + intros (ca & H' & _). by apply not_elem_of_nil in H'.
Qed.

(** What has been sent is what was client_call, and other frames. *)
Record cast_inv (C : list cast) (T : beb_net) : Prop := {
  ci_called j k code m : (j, k, generic :: code :: m) ∈ tr_sent T → code ∉ ss →
    ∃ ca, ca ∈ C ∧ ca_from ca = j ∧ ca_code ca = code ∧ ca_msg ca = m ∧ addressed ca k;
  ci_sent ca k : ca ∈ C → addressed ca k → (ca_from ca, k, frame_of ca) ∈ tr_sent T;
}.

Lemma cast_inv_cast C T j code msg n T' :
  cast_inv C T → beb_cast j code msg n T = Some T' → cast_inv (C ++ client_call j code msg n) T'.
Proof.
  intros [Hc Hs] (new & Hsent & Hnew)%beb_cast_adds. split.
  - intros j' k c m. rewrite Hsent. intros [Hin|Hin]%elem_of_app Hss.
    + destruct (Hc _ _ _ _ Hin Hss) as (ca & ? & ?). exists ca. split; [apply elem_of_app; by left|done].
    + apply Hnew in Hin as (ca & Hca & -> & [= -> ->] & Hto). exists ca. split; [apply elem_of_app; by right|done].
  - intros ca k [Hca|Hca]%elem_of_app Hto; rewrite Hsent; apply elem_of_app; [left; by apply Hs|right].
    apply Hnew. by exists ca.
Qed.

Lemma cast_inv_sent C T T' : cast_inv C T → tr_sent T' = tr_sent T → cast_inv C T'.
Proof. intros [Hc Hs] He. split; by rewrite He. Qed.

Lemma beb_exec_grows e T T' x : beb_exec e T = Some T' → x ∈ tr_sent T → x ∈ tr_sent T'.
Proof.
  assert (Hproc : ∀ k s m n T0 T1, beb_process k s m n T0 = Some T1 → tr_sent T1 = tr_sent T0).
  { intros k0 s m0 n T0 T1. unfold beb_process. destruct (processMessage G m0 (pk_of s) n); try done. by intros [= <-]. }
  destruct e as [j' g|j' k' m'|k' y n|s k' n|i k' bs]; simpl.
  - unfold beb_write. intros (ws & _ & He)%bind_Some. destruct ws as [|[c fr] ws]; [done|]. by injection He as <-.
  - case_decide; [done|]. unfold beb_raw. case_decide; [|done]. intros [= <-] Hx. apply elem_of_app. by left.
  - unfold beb_self. intros (m & _ & He)%bind_Some. by rewrite (Hproc _ _ _ _ _ _ He).
  - case_decide; [|done]. unfold beb_read. destruct (receive _) as [[m|?] rest]; [|done].
    intros He. by rewrite (Hproc _ _ _ _ _ _ He).
  - case_decide; [|done]. by intros [= <-].
Qed.

Lemma cast_inv_exec C T e T' :
  cast_inv C T → (∀ j k msg, e = TRaw j k msg → raw_frame msg) → beb_exec e T = Some T' → cast_inv C T'.
Proof.
  intros [Hc Hs] Hraw He. split.
  - intros j k code m Hin Hss. destruct (beb_exec_sent _ _ _ _ _ _ He Hin) as [?|Hr]; [by eapply Hc|].
    destruct (Hraw _ _ _ Hr) as [[=]|[_ Hin']]. done.
  - intros ca k Hca Hto. eapply beb_exec_grows; [done|by apply Hs].
Qed.

Lemma beb_reachable_ok C T : beb_reachable C T → beb_inv T ∧ beb_kept T ∧ cast_inv C T.
Proof.
  apply (rtc_ind_r (R := beb_step) (λ h, beb_inv h.2 ∧ beb_kept h.2 ∧ cast_inv h.1 h.2) ([], beb_net_init)) with (z := (C, T)).
  - split_and!; [apply beb_inv_init|intros j k m Hm; by apply not_elem_of_nil in Hm|].
    split; [intros j k c m Hm|intros ca k Hm]; by apply not_elem_of_nil in Hm.
  - clear C T. intros h h' _ Hs (HT & HK & HC). destruct Hs as [C T j code msg n T' Hj Hs|C T k x d T' Hs|C T e T' Hraw Hs];
      simpl in *.
    + split_and!; [by eapply beb_cast_inv|by eapply beb_cast_kept|by eapply cast_inv_cast].
    + split_and!; [by eapply beb_take_inv| |by eapply cast_inv_sent, beb_take_sent]. unfold beb_take in Hs.
      apply bind_Some in Hs as (? & _ & [= _ <-]). exact HK.
    + split_and!; [by eapply beb_exec_inv|by eapply beb_exec_kept|by eapply cast_inv_exec].
Qed.

Lemma at_rest_got T j k m :
  beb_kept T → beb_at_rest T → j ∈ peers mb ∖ faulty mb → k ∈ peers mb →
  (j, k, m) ∈ tr_sent T → (j, m) ∈ tr_got T k.
Proof.
  intros HK Hr Hj Hk Hm. destruct (Hr j Hj) as (Ho & Hs & Hst). apply elem_of_difference in Hj as [_ Hj].
  rewrite Forall_forall in Ho.
  destruct (HK j k m Hm Hj) as [[(ws & w & Hws & Hw & _)|[(fs & Hf & _ & Hin)|[-> Hin]]]|?]; [| | |done].
  - rewrite (Ho ws Hws) in Hw. by apply not_elem_of_nil in Hw.
  - rewrite (Hst k Hk) in Hf. destruct fs as [|m' fs]; [by apply not_elem_of_nil in Hin|done].
  - rewrite Hs in Hin. by apply not_elem_of_nil in Hin.
Qed.
End transport.

Lemma default_is_some {A} (d : A) (o : option A) :
  (if o is Some _ then true else false) = true → o = Some (default d o).
Proof. by destruct o. Qed.

(** ** A broadcast to three nodes, one of them faulty *)

Module BebExample.
Import Gf2 OverlayExample Example4.
Definition bpk (u : UUID) : bytes := uuid_bytes u.
(** The connections of [p1]: number 2 leads to [p2], number 3 to [p3]. *)
Definition bremote (j : UUID) (c : nat) : UUID := match c with 2%nat => p2 | 3%nat => p3 | _ => p1 end.
Definition bpeer (c : nat) (u : UUID) : peer := Peer (PublicKey := bytes) (Some c) [] (Some (bpk u)) u.
Definition bnode (u : UUID) : Node :=
  MkNode [] [] true [bpeer 2 p2; bpeer 3 p3] [BEBChannel "A"; BEBChannel "B"; SSChannel "D"] 0 (bpk u).
Definition bmsg : bytes := ["007"%byte].

Definition bT1 : beb_net := default beb_net_init (beb_cast bremote p1 "A" bmsg (bnode p1) beb_net_init).
Definition brun : list (@beb_event bytes) :=
  [TWrite p1 0; TBytes p4 p2 (ov_send [generic; "A"%byte; "009"%byte]); TSelf p1 0 (bnode p1); TRead p1 p2 (bnode p2);
   TRead p4 p2 (bnode p2); TWrite p1 0; TRead p1 p3 (bnode p3)].
Definition bexec (l : list beb_event) (T : beb_net) : option beb_net :=
  foldl (λ o e, T ← o; beb_exec gf2 mb4 bpk bremote e T) (Some T) l.
Definition bT : beb_net := default bT1 (bexec brun bT1).

Definition bcalls : list cast := client_call p1 "A" bmsg (bnode p1).
#[local] Abbreviation reachable := (beb_reachable gf2 mb4 bpk bremote ["D"%byte] bcalls).

Lemma bexec_reachable l T T' :
  Forall (λ e : @beb_event bytes, match e with TRaw _ _ _ => False | _ => True end) l →
  reachable T → bexec l T = Some T' → reachable T'.
Proof.
  unfold bexec. intros Hl. revert T. induction Hl as [|e l He Hl IH]; intros T HT; simpl; [by intros [= <-]|].
  destruct (beb_exec gf2 mb4 bpk bremote e T) as [T1|] eqn:E.
  - apply IH. eapply rtc_r; [done|]. eapply beb_exec_step; [|done]. intros j k msg ->. destruct He.
  - intros Hf. assert (∀ l, foldl (λ o e, T ← o; beb_exec gf2 mb4 bpk bremote e T) None l = None) as Hn
      by (clear; intros l; by induction l). by rewrite Hn in Hf.
Qed.

Lemma bT1_eq : beb_cast bremote p1 "A" bmsg (bnode p1) beb_net_init = Some bT1.
Proof. apply default_is_some. vm_compute. reflexivity. Qed.
Lemma bT_eq : bexec brun bT1 = Some bT.
Proof. apply default_is_some. vm_compute. reflexivity. Qed.

Lemma bT_reachable : reachable bT.
Proof.
  apply (bexec_reachable brun bT1); [by repeat constructor| |apply bT_eq]. eapply rtc_r; [constructor|].
  apply (beb_cast_step _ _ _ _ _ [] _ p1 "A" bmsg (bnode p1)); [|apply bT1_eq].
  apply (bool_decide_unpack _). vm_compute. exact I.
Qed.

Lemma bT_at_rest : beb_at_rest mb4 bT.
Proof. apply (bool_decide_unpack _). vm_compute. exact I. Qed.
End BebExample.
Import Gf2 Example4 BebExample.

(** ** Theorems *)

(** C31: best-effort broadcast.  In a network of nodes connected by byte streams,
    a message of a correct process that a broadcast channel hands to its client
    was given to [BEBroadcast] by that process, with the code of the channel, and
    the receiver is the process itself or one of the peers it had then.  And when
    every write has been done and every frame read, each call of [BEBroadcast] by
    a correct process has reached the process itself and all the peers it had.
    The other frames of correct nodes are names of peers and shares of secrets;
    the codes [ss] of the secret-sharing channels are not those of a broadcast
    channel. *)
Theorem beb_network_exact (PublicKey : Type) (G : CirclGroup) (mb : membership UUID)
    (pk_of : UUID → PublicKey) (remote : UUID → nat → UUID) (ss : list byte) (calls : list cast) (T : beb_net) :
  beb_reachable G mb pk_of remote ss calls T →
  (∀ k code m, (code, m) ∈ tr_inbox T k → code ∉ ss → ∃ s, beb_Sender m = pk_of s ∧ (s = k ∨ s ∈ peers mb) ∧
     (s ∉ faulty mb → ∃ ca, ca ∈ calls ∧ ca_from ca = s ∧ ca_code ca = code ∧ ca_msg ca = beb_Content m ∧
        addressed remote ca k)) ∧
  (beb_at_rest mb T → ∀ ca k, ca ∈ calls → ca_from ca ∈ peers mb ∖ faulty mb → k ∈ peers mb →
     addressed remote ca k → (ca_from ca, generic :: ca_code ca :: ca_msg ca) ∈ tr_got T k).
Proof.
  intros (HT & HK & HC)%beb_reachable_ok. split.
  - intros k code m Hm Hss. destruct (tv_inbox _ _ _ _ HT k code m Hm) as (s & Hs & Hg & Hk). exists s.
    split_and!; [done|done|]. intros Hf.
    apply (ci_called _ _ _ _ HC s k code); [|done]. by apply (tv_got _ _ _ _ HT).
  - intros Hr ca k Hca Hj Hk Hto. eapply at_rest_got; [done..|]. by apply (ci_sent _ _ _ _ HC).
Qed.

Lemma beb_network_exact_witness :
  (∃ s, beb_Sender (MkBEBMsg bmsg (bpk p1)) = bpk s ∧ (s = p2 ∨ s ∈ peers mb4) ∧
     (s ∉ faulty mb4 → ∃ ca, ca ∈ bcalls ∧ ca_from ca = s ∧ ca_code ca = "A"%byte ∧ ca_msg ca = bmsg ∧
        addressed bremote ca p2)) ∧
  (p1, [generic; "A"; "007"]%byte) ∈ tr_got bT p3.
Proof.
  destruct (beb_network_exact bytes gf2 mb4 bpk bremote ["D"%byte] bcalls bT bT_reachable) as [H1 H2]. split.
  - apply (H1 p2 "A"%byte (MkBEBMsg bmsg (bpk p1))); [|by apply (bool_decide_unpack _)].
    apply (list_elem_of_lookup_2 _ 0). vm_compute. reflexivity.
  - apply (H2 bT_at_rest (Cast p1 "A" bmsg [2; 3]%nat) p3); [by left|apply (bool_decide_unpack _); vm_compute; exact I..|].
    right. exists 3%nat. split; [by right; left|reflexivity].
Defined.
