(* ===== verification/BrbStack.v ===== *)
(** * [byzantineReliableBroadcast] over [overlayNetwork]

    The middleware of a [BRBChannel] (its two loops and the goroutines that wait
    for an echo or a ready of an instance), composed with the channels of
    [BrbChannel] above and the best-effort broadcast of [BebNetwork] below: the
    whole path of a message from [BRBroadcast] at one process to [BrbDeliver] at
    another, through bytes on a connection.  The composition refines the network
    of [BrbChannel], so its theorems hold of the whole stack.

    [bs_made] records the broadcasts that were made, and those that faulty
    processes pretended to make to a correct one; the code does not keep it. *)

From stdpp Require Import base tactics numbers list gmap functions relations.
From Stdlib Require Import Init.Byte FunctionalExtensionality.
From S2P Require Import Prelude Utils BrbInstance BrbSpec BrbNetwork BrbMiddleware BrbChannel CoinGroup CoinWire Overlay BebNetwork.

Local Open Scope Z_scope.

Section stack.
Context {PublicKey : Type} (SerializePublicKey : PublicKey → option bytes) (G : CirclGroup).
Context (mb : membership UUID) (msgs : list bytes).
Context (pk_of : UUID → PublicKey) (remote : UUID → nat → UUID).
(** The code of the broadcast channel the middleware listens to. *)
Context (listen : byte).

#[local] Abbreviation Node := (@Node PublicKey).
#[local] Abbreviation beb_net := (@beb_net PublicKey).

(** [bs_signals]: the goroutines of [broadcastMsgOnSignal] that wait;
    [bs_deliver]: those that wait to send on [deliverChan]. *)
Record brb_node := BrbNode {
  bs_chan : BRBChannel;
  bs_signals : list (byte * UUID);
  bs_deliver : list brb_msg;
}.

Record brb_stack := BrbStack {
  bs_node : UUID → brb_node;
  bs_net : beb_net;
  bs_made : list (UUID * UUID * bytes);
}.

Definition brb_stack_init : brb_stack :=
  BrbStack (λ _, BrbNode (NewBRBChannel (mb_n mb) (mb_f mb)) [] []) beb_net_init [].

(** ** The middleware *)

(** The goroutines that [makeChannels] starts. *)
Definition makeChannels (id : UUID) : list (byte * UUID) := [(code_echo, id); (code_ready, id)].

Definition brb_broadcastMsg (j : UUID) (code : byte) (id : UUID) (msg : bytes) (n : Node) (T : beb_net) : option beb_net :=
  beb_cast remote j listen (wrapMessage code id msg) n T.

Definition broadcastSend (j : UUID) (nonce : Z) (msg : bytes) (n : Node) (T : beb_net) : option beb_net :=
  beb_cast remote j listen (wrapSend nonce msg) n T.

(** The [x]-th value offered on the channel of a goroutine. *)
Definition signal_value (code : byte) (id : UUID) (x : nat) (c : BRBChannel) : option bytes :=
  a ← brb_heap c !! id;
  (if decide (code = code_echo) then echoed (ic_handler a) else readied (ic_handler a)) !! x.

(** The [g]-th goroutine takes that value and broadcasts it. *)
Definition broadcastMsgOnSignal (j : UUID) (g x : nat) (n : Node) (N : brb_node) (T : beb_net) :
    option (brb_node * beb_net) :=
  '(code, id) ← bs_signals N !! g;
  msg ← signal_value code id x (bs_chan N);
  T ← brb_broadcastMsg j code id msg n T;
  Some (BrbNode (bs_chan N) (delete g (bs_signals N)) (bs_deliver N), T).

(** One turn of the loop of [bebDeliver], with the message it makes of the
    [x]-th goroutine that waits on the channel. *)
Definition mw_bebDeliver (k : UUID) (x : nat) (N : brb_node) (T : beb_net) :
    option (option brb_msg * brb_node * beb_net) :=
  '(code, m, T) ← beb_take k x T;
  if decide (code = listen) then
    match brbMiddleware_processMsg SerializePublicKey (beb_Content m) (beb_Sender m) with
    | Ok bm => Some (Some bm, BrbNode (bs_chan N) (bs_signals N) (bs_deliver N ++ [bm]), T)
    | Err _ => Some (None, N, T)
    end
  else None.

(** ** The channel *)

(** [createInstance] starts the goroutines of a new instance. *)
Definition new_signals (m : brb_msg) (c : BRBChannel) : list (byte * UUID) :=
  if decide (bm_id m ∈ brb_finished c ∨ bm_id m ∈ brb_live c) then [] else makeChannels (bm_id m).

(** [bebDeliver] of the channel, and the command it submits. *)
Definition chan_bebDeliver (x : nat) (N : brb_node) : option brb_node :=
  m ← bs_deliver N !! x;
  Some (BrbNode (brb_processMsg m (bs_chan N)).1 (bs_signals N ++ new_signals m (bs_chan N))
          (delete x (bs_deliver N))).

Definition brb_turn (e : brb_chan_event) (N : brb_node) : option brb_node :=
  match e with
  | DMsg _ => None
  | _ => c ← brb_chan_exec e (bs_chan N); Some (BrbNode c (bs_signals N) (bs_deliver N))
  end.

(** ** The stack *)

(** The messages of the run.  A faulty process sends what it likes, among
    finitely many contents. *)
Definition known (m : brb_msg) : Prop :=
  match input_of m with
  | Some (ISend c s) => send_echo s c ∈ msgs
  | Some (IEcho c _) | Some (IReady c _) => c ∈ msgs
  | None => True
  end.

#[export] Instance known_dec m : Decision (known m).
Proof. unfold known. destruct (input_of m) as [[]|]; apply _. Defined.

Definition made_by (m : option brb_msg) : list (UUID * UUID * bytes) :=
  match m with
  | Some m => if decide (bm_kind m = code_send ∧ bm_sender m ∈ faulty mb)
              then [(bm_id m, bm_sender m, bm_content m)] else []
  | None => []
  end.

(** The frames of the other channels. *)
Definition foreign (m : bytes) : Prop :=
  match m with t :: c :: _ => ¬ (t = generic ∧ c = listen) | _ => True end.

#[export] Instance foreign_dec m : Decision (foreign m).
Proof. unfold foreign. destruct m as [|? [|? ?]]; apply _. Defined.

#[export] Instance all_known_dec m : Decision (∀ bm, m = Some bm → known bm).
Proof. destruct m as [m|]; [destruct (decide (known m)); [left|right]; naive_solver|by left]. Defined.

#[export] Instance raw_foreign_dec (e : @beb_event PublicKey) : Decision (∀ j k m, e = TRaw j k m → foreign m).
Proof. destruct e as [|? ? m| | |]; try (by left). destruct (decide (foreign m)); [left|right]; naive_solver. Defined.

Inductive brb_stack_event :=
| SBroadcast (j : UUID) (nonce : Z) (msg : bytes) (n : Node)
| SSignal (j : UUID) (g x : nat) (n : Node)
| SBebDeliver (k : UUID) (x : nat)
| SDeliver (k : UUID) (x : nat)
| SChan (k : UUID) (e : brb_chan_event)
| SOther (j : UUID) (code : byte) (msg : bytes) (n : Node)
| STake (k : UUID) (x : nat)
| SNet (e : @beb_event PublicKey).

Definition actor (e : brb_stack_event) : option UUID :=
  match e with
  | SBroadcast j _ _ _ | SSignal j _ _ _ | SBebDeliver j _ | SDeliver j _ | SChan j _
  | SOther j _ _ _ | STake j _ => Some j
  | SNet _ => None
  end.

Definition set_node (j : UUID) (N : brb_node) (S : brb_stack) : brb_stack :=
  BrbStack (<[j := N]> (bs_node S)) (bs_net S) (bs_made S).

(** The identifier of a broadcast is the one its receivers compute. *)
Definition stack_exec (e : brb_stack_event) (S : brb_stack) : option brb_stack :=
  match e with
  | SBroadcast j nonce msg n =>
    if decide (0 ≤ nonce < 2 ^ 32 ∧ send_echo j msg ∈ msgs) then
      T ← broadcastSend j nonce msg n (bs_net S);
      match computeInstanceId SerializePublicKey nonce (pk_of j) with
      | Ok id => Some (BrbStack (bs_node S) T (bs_made S ++ [(id, j, msg)]))
      | Err _ => Some (BrbStack (bs_node S) T (bs_made S))
      end
    else None
  | SSignal j g x n =>
    '(N, T) ← broadcastMsgOnSignal j g x n (bs_node S j) (bs_net S);
    Some (BrbStack (<[j := N]> (bs_node S)) T (bs_made S))
  | SBebDeliver k x =>
    '(m, N, T) ← mw_bebDeliver k x (bs_node S k) (bs_net S);
    if decide (∀ bm, m = Some bm → known bm)
    then Some (BrbStack (<[k := N]> (bs_node S)) T (bs_made S ++ made_by m)) else None
  | SDeliver k x => N ← chan_bebDeliver x (bs_node S k); Some (set_node k N S)
  | SChan k e => N ← brb_turn e (bs_node S k); Some (set_node k N S)
  | SOther j code msg n =>
    if decide (code = listen) then None
    else T ← beb_cast remote j code msg n (bs_net S); Some (BrbStack (bs_node S) T (bs_made S))
  | STake k x =>
    '(code, _, T) ← beb_take k x (bs_net S);
    if decide (code = listen) then None else Some (BrbStack (bs_node S) T (bs_made S))
  | SNet e =>
    if decide (∀ j k m, e = TRaw j k m → foreign m)
    then T ← beb_exec G mb pk_of remote e (bs_net S); Some (BrbStack (bs_node S) T (bs_made S))
    else None
  end.

(** Correct processes run the code. *)
Definition may_act (e : brb_stack_event) : Prop :=
  match actor e with Some j => correct mb j | None => True end.

#[export] Instance may_act_dec e : Decision (may_act e).
Proof. unfold may_act. destruct (actor e); apply _. Defined.

Inductive brb_stack_step (S : brb_stack) : brb_stack → Prop :=
| stack_event_step e S' : may_act e → stack_exec e S = Some S' → brb_stack_step S S'.

Definition brb_stack_reachable (S : brb_stack) : Prop := rtc brb_stack_step brb_stack_init S.

(** The channels of a stack, and the broadcasts made under an identifier. *)
Definition stack_chans (S : brb_stack) : brb_chan_config := λ j, bs_chan (bs_node S j).
Definition sends_of (S : brb_stack) (id : UUID) : list (UUID * bytes) :=
  (λ x, (x.1.2, x.2)) <$> filter (λ x, x.1.1 = id) (bs_made S).

(** ** Lemmas *)

(** What has been delivered stays. *)
Lemma brb_chan_exec_delivers e c c' : brb_chan_exec e c = Some c' → BrbDeliver c ⊆ BrbDeliver c'.
Proof.
  destruct e as [m|i|id]; simpl.
  - intros [= <-]. unfold brb_processMsg. case_decide; [done|]. by destruct (input_of m), (decide (bm_id m ∈ brb_live c)).
  - unfold brb_submit. intros ([id x] & _ & (a & _ & Hx)%bind_Some)%bind_Some. destruct (ic_open a); [|done].
    destruct (brbInstance_exec x (ic_handler a)) as [[h r]| |]; try done. by injection Hx as <-.
  - unfold processOutput. intros (a & _ & Hx)%bind_Some. destruct (ic_output a) as [|o|]; [|case_decide|done].
    + destruct (delivered (ic_handler a)); [done|]. by injection Hx as <-.
    + injection Hx as <-. simpl. set_solver.
    + injection Hx as <-. simpl. set_solver.
Qed.

Lemma stack_exec_delivers e S S' j :
  stack_exec e S = Some S' → BrbDeliver (stack_chans S j) ⊆ BrbDeliver (stack_chans S' j).
Proof.
  assert (Hupd : ∀ k N T ms, BrbDeliver (stack_chans S k) ⊆ BrbDeliver (bs_chan N) →
    BrbDeliver (stack_chans S j) ⊆ BrbDeliver (stack_chans (BrbStack (<[k := N]> (bs_node S)) T ms) j)).
  { intros k N T ms HN. unfold stack_chans in *. simpl.
    destruct (decide (j = k)) as [->|]; [by rewrite fn_lookup_insert|by rewrite fn_lookup_insert_ne]. }
  destruct e as [k nonce msg n|k g x n|k x|k x|k e|k code msg n|k x|e]; simpl.
  - case_decide; [|done]. intros (T & _ & Hx)%bind_Some. by destruct (computeInstanceId _ _ _); injection Hx as <-.
  - intros ([N T] & Hx & [= <-])%bind_Some. apply Hupd. unfold broadcastMsgOnSignal in Hx.
    apply bind_Some in Hx as ([code id] & _ & (msg & _ & (T' & _ & [= <- _])%bind_Some)%bind_Some). done.
  - intros ([[m N] T] & Hx & Hs)%bind_Some. case_decide; [|done]. injection Hs as <-. apply Hupd.
    unfold mw_bebDeliver in Hx. apply bind_Some in Hx as ([[code bm] T'] & _ & Hx). case_decide; [|done].
    by destruct (brbMiddleware_processMsg _ _ _); injection Hx as _ <- _.
  - intros (N & Hx & [= <-])%bind_Some. apply Hupd. unfold chan_bebDeliver in Hx.
    apply bind_Some in Hx as (m & _ & [= <-]). exact (brb_chan_exec_delivers (DMsg m) _ _ eq_refl).
  - intros (N & Hx & [= <-])%bind_Some. apply Hupd. unfold brb_turn in Hx.
    destruct e; try done; apply bind_Some in Hx as (c & Hc%brb_chan_exec_delivers & [= <-]); done.
  - case_decide; [done|]. by intros (T & _ & [= <-])%bind_Some.
  - intros ([[code m] T] & _ & Hx)%bind_Some. case_decide; [done|]. by injection Hx as <-.
  - case_decide; [|done]. by intros (T & _ & [= <-])%bind_Some.
Qed.

Lemma elem_of_sends_of S id s c : (s, c) ∈ sends_of S id ↔ (id, s, c) ∈ bs_made S.
Proof.
  unfold sends_of. rewrite list_elem_of_fmap. split.
  - intros ([[i s'] c'] & [= -> ->] & [Hi Hin]%list_elem_of_filter). simpl in Hi. by subst.
  - intros Hin. exists (id, s, c). split; [done|]. by apply list_elem_of_filter.
Qed.

Section refinement.
Context `{!Resilient mb} (Hcf : collision_free msgs).
(** A process is named by the hash of its key. *)
Context (Hpk : ∀ j, j ∈ peers mb → PkToUUID SerializePublicKey (pk_of j) = Some j).

(** A message that can arrive at a channel. *)
Definition arrives (S : brb_stack) (m : brb_msg) : Prop := brb_event_ok mb msgs (sends_of S) (stack_chans S) (DMsg m).

(** What the middleware of [s] has broadcast: its receivers make of it a
    message that can arrive. *)
Definition legit (S : brb_stack) (s : UUID) (p : bytes) : Prop :=
  ∀ m, brbMiddleware_processMsg SerializePublicKey p (pk_of s) = Ok m → arrives S m.

(** An identifier of a process: the hash of its key and a nonce. *)
Definition id_of (s id : UUID) : Prop :=
  s ∈ peers mb ∧ ∃ nonce, 0 ≤ nonce < 2 ^ 32 ∧ computeInstanceId SerializePublicKey nonce (pk_of s) = Ok id.

Record stack_inv (S : brb_stack) : Prop := {
  si_net : beb_inv mb pk_of remote (bs_net S);
  si_chan : brb_chan_reachable mb msgs (sends_of S) (stack_chans S);
  si_sent j k p : j ∉ faulty mb → (j, k, generic :: listen :: p) ∈ tr_sent (bs_net S) → legit S j p;
  si_deliver k m : m ∈ bs_deliver (bs_node S k) → arrives S m;
  si_signals k code id : (code, id) ∈ bs_signals (bs_node S k) → code = code_echo ∨ code = code_ready;
  si_made id s c : (id, s, c) ∈ bs_made S → id_of s id;
}.

(** Broadcasts may be added. *)
Lemma in_network_sends sends sends' H i :
  sends ⊆ sends' → in_network mb msgs sends H i → in_network mb msgs sends' H i.
Proof. intros Hs. destruct i; simpl; [|done..]. intros [? ?]. split; [by apply Hs|done]. Qed.

Lemma brb_chan_reachable_sends sends sends' C :
  (∀ id, sends id ⊆ sends' id) → brb_chan_reachable mb msgs sends C → brb_chan_reachable mb msgs sends' C.
Proof.
  intros Hs. unfold brb_chan_reachable. apply rtc_subrel. intros C1 C2 [j e c Hj Hok Hex].
  econstructor; [done| |done]. destruct e as [m| |]; [|done..]. simpl in Hok |- *.
  destruct (input_of m) as [i|]; [|done]. eapply in_network_sends; [apply Hs|done].
Qed.

(** A step of the stack that makes at most one step of the channels keeps what
    has arrived. *)
Lemma arrives_step S S' m :
  brb_net_ok mb msgs (sends_of S) (stack_chans S) →
  (∀ id, sends_of S id ⊆ sends_of S' id) →
  stack_chans S' = stack_chans S ∨ brb_chan_step mb msgs (sends_of S) (stack_chans S) (stack_chans S') →
  arrives S m → arrives S' m.
Proof.
  intros HC Hs Hc. unfold arrives, brb_event_ok. destruct (input_of m) as [i|]; [|done]. intros Hm.
  eapply in_network_sends; [apply Hs|]. destruct Hc as [->|Hc]; [done|]. by eapply in_network_step.
Qed.

Lemma stack_net_ok S : stack_inv S → brb_net_ok mb msgs (sends_of S) (stack_chans S).
Proof. intros HS. apply brb_net_ok_reachable, HS. Qed.

(** The common part of every step. *)
Lemma stack_inv_step S S' :
  stack_inv S →
  (∀ id, sends_of S id ⊆ sends_of S' id) →
  stack_chans S' = stack_chans S ∨ brb_chan_step mb msgs (sends_of S) (stack_chans S) (stack_chans S') →
  beb_inv mb pk_of remote (bs_net S') →
  (∀ j k p, j ∉ faulty mb → (j, k, generic :: listen :: p) ∈ tr_sent (bs_net S') →
     (j, k, generic :: listen :: p) ∈ tr_sent (bs_net S) ∨ legit S' j p) →
  (∀ k m, m ∈ bs_deliver (bs_node S' k) → m ∈ bs_deliver (bs_node S k) ∨ arrives S' m) →
  (∀ k code id, (code, id) ∈ bs_signals (bs_node S' k) →
     (code, id) ∈ bs_signals (bs_node S k) ∨ code = code_echo ∨ code = code_ready) →
  (∀ id s c, (id, s, c) ∈ bs_made S' → (id, s, c) ∈ bs_made S ∨ id_of s id) →
  stack_inv S'.
Proof.
  intros HS Hs Hc Hnet Hsent Hdel Hsig Hmade.
  pose proof (λ m, arrives_step S S' m (stack_net_ok S HS) Hs Hc) as Harr.
  split; [done| | | | |].
  - apply (brb_chan_reachable_sends (sends_of S)); [done|].
    destruct Hc as [->|Hc]; [apply HS|]. eapply rtc_r; [apply HS|done].
  - intros j k p Hj Hp. destruct (Hsent j k p Hj Hp) as [Ho|?]; [|done].
    intros m Hm. by eapply Harr, si_sent.
  - intros k m Hm. destruct (Hdel k m Hm) as [?|?]; [|done]. by eapply Harr, si_deliver.
  - intros k code id Hk. destruct (Hsig k code id Hk) as [?|?]; [by eapply si_signals|done].
  - intros id s c Hm. destruct (Hmade id s c Hm) as [?|?]; [by eapply si_made|done].
Qed.

Lemma stack_inv_init : stack_inv brb_stack_init.
Proof.
  split; simpl.
  - apply beb_inv_init.
  - constructor.
  - intros j k p _ Hp. by apply not_elem_of_nil in Hp.
  - intros k m Hm. by apply not_elem_of_nil in Hm.
  - intros k code id Hk. by apply not_elem_of_nil in Hk.
  - intros id s c Hm. by apply not_elem_of_nil in Hm.
Qed.

Lemma send_legit S j nonce msg id :
  0 ≤ nonce < 2 ^ 32 → j ∈ peers mb → send_echo j msg ∈ msgs →
  computeInstanceId SerializePublicKey nonce (pk_of j) = Ok id → (id, j, msg) ∈ bs_made S →
  legit S j (wrapSend nonce msg).
Proof.
  intros Hn Hj Hm Hid Hmade m. rewrite (processMsg_wrapSend SerializePublicKey nonce msg _ j id) by auto.
  case_decide; [done|]. intros [= <-]. unfold arrives. simpl. split; [by apply elem_of_sends_of|done].
Qed.

Lemma message_legit S j code id x msg :
  stack_inv S → correct mb j → code = code_echo ∨ code = code_ready →
  signal_value code id x (stack_chans S j) = Some msg → legit S j (wrapMessage code id msg) ∧ msg ∈ msgs.
Proof.
  intros HS Hj Hcode Hv. pose proof (stack_net_ok S HS) as HC.
  pose proof (reachable_inv mb msgs Hcf (sends_of S id) _ (bn_reachable _ _ _ _ HC id)) as Hi.
  unfold signal_value in Hv. apply bind_Some in Hv as (a & Ha & Hv). apply list_elem_of_lookup_2 in Hv.
  assert (Hinst : instance_of mb (brb_project id (stack_chans S)) j = Done (ic_handler a)).
  { destruct (bn_chan _ _ _ _ HC j) as (Hc & Hn & Hf). unfold instance_of, brb_project, log_of. rewrite Ha.
    pose proof (cl_run _ _ _ _ _ _ (bi_cell _ Hc id a Ha)) as Hr. by rewrite Hn, Hf in Hr. }
  assert (Hmm : msg ∈ msgs ∧ (code = code_echo → Echoes mb (brb_project id (stack_chans S)) j msg) ∧
                             (code = code_ready → Readies mb (brb_project id (stack_chans S)) j msg)).
  { destruct Hcode as [-> | ->]; simpl in Hv.
    - assert (HE : Echoes mb (brb_project id (stack_chans S)) j msg) by (by exists (ic_handler a)).
      split_and!; [by apply (ni_echo mb msgs (sends_of S id) _ Hi j msg Hj)|done|done].
    - assert (HR : Readies mb (brb_project id (stack_chans S)) j msg) by (by exists (ic_handler a)).
      split_and!; [by apply (ni_ready mb msgs (sends_of S id) _ Hi j msg Hj)|done|done]. }
  destruct Hmm as (Hmm & HE & HR). split; [|done]. intros m.
  rewrite (processMsg_wrapMessage SerializePublicKey code id msg _ j) by (auto; apply Hpk, Hj).
  destruct (decide (msg = [])) as [|Hne]; [intros ?; congruence|]. intros [= <-]. unfold arrives, brb_event_ok. simpl.
  destruct Hcode as [-> | ->]; simpl; (split_and!; [apply Hj|done|right; auto]).
Qed.

(** One node moves by itself, the others and the network stay. *)
Lemma stack_chans_upd S k N T ms :
  stack_chans (BrbStack (<[k := N]> (bs_node S)) T ms) = <[k := bs_chan N]> (stack_chans S).
Proof.
  apply functional_extensionality. intros i. unfold stack_chans. simpl.
  destruct (decide (i = k)) as [->|]; [by rewrite !fn_lookup_insert|by rewrite !fn_lookup_insert_ne].
Qed.

Lemma stack_chans_same S k N T ms :
  bs_chan N = stack_chans S k → stack_chans (BrbStack (<[k := N]> (bs_node S)) T ms) = stack_chans S.
Proof.
  intros HN. rewrite stack_chans_upd, HN. apply functional_extensionality. intros i.
  destruct (decide (i = k)) as [->|]; [by rewrite fn_lookup_insert|by rewrite fn_lookup_insert_ne].
Qed.

Lemma node_upd_deliver S k N i m :
  m ∈ bs_deliver ((<[k := N]> (bs_node S)) i) → m ∈ bs_deliver (bs_node S i) ∨ m ∈ bs_deliver N ∧ i = k.
Proof.
  destruct (decide (i = k)) as [->|]; [rewrite fn_lookup_insert; by auto|rewrite fn_lookup_insert_ne by done; by left].
Qed.

Lemma node_upd_signals S k N i s :
  s ∈ bs_signals ((<[k := N]> (bs_node S)) i) → s ∈ bs_signals (bs_node S i) ∨ s ∈ bs_signals N ∧ i = k.
Proof.
  destruct (decide (i = k)) as [->|]; [rewrite fn_lookup_insert; by auto|rewrite fn_lookup_insert_ne by done; by left].
Qed.

Lemma sends_of_mono S N T ms id : sends_of S id ⊆ sends_of (BrbStack N T (bs_made S ++ ms)) id.
Proof. intros [s c]. rewrite !elem_of_sends_of. simpl. intros ?. apply elem_of_app. by left. Qed.

(** A step of the network or of another channel. *)
Lemma stack_inv_net S T :
  stack_inv S → beb_inv mb pk_of remote T →
  (∀ j k p, j ∉ faulty mb → (j, k, generic :: listen :: p) ∈ tr_sent T →
     (j, k, generic :: listen :: p) ∈ tr_sent (bs_net S)) →
  stack_inv (BrbStack (bs_node S) T (bs_made S)).
Proof.
  intros HS HT Hs. apply (stack_inv_step S); [done|done|by left|done| |by left|by left|by left].
  intros j k p Hj Hp. left. by apply Hs.
Qed.

(** [BRBroadcast]. *)
Lemma stack_inv_broadcast S j nonce msg n S' :
  stack_inv S → correct mb j → stack_exec (SBroadcast j nonce msg n) S = Some S' → stack_inv S'.
Proof.
  intros HS Hj. simpl. case_decide as Hc; [|done]. destruct Hc as [Hn Hm].
  intros (T & HT & Hx)%bind_Some.
  destruct (computeInstanceId_sender SerializePublicKey nonce (pk_of j) j (Hpk j (proj1 Hj))) as [id Hid].
  rewrite Hid in Hx. injection Hx as <-. pose proof (si_net S HS) as Hnet.
  apply (stack_inv_step S); [done|intros ?; apply sends_of_mono|by left|by eapply beb_cast_inv| |by left|by left|].
  - simpl. intros j' k p Hj' Hp. destruct (beb_cast_sent _ _ _ _ _ _ _ _ _ _ HT Hp) as [?|[-> [= ->]]]; [by left|].
    right. apply (send_legit _ j nonce msg id); [done|apply Hj|done|done|]. simpl. apply elem_of_app. right. by left.
  - simpl. intros i s c [?|[= -> -> ->]%list_elem_of_singleton]%elem_of_app; [by left|]. right.
    split; [apply Hj|]. by exists nonce.
Qed.

(** An echo or a ready. *)
Lemma stack_inv_signal S j g x n S' :
  stack_inv S → correct mb j → stack_exec (SSignal j g x n) S = Some S' → stack_inv S'.
Proof.
  intros HS Hj. simpl. unfold broadcastMsgOnSignal.
  destruct (bs_signals (bs_node S j) !! g) as [[code id]|] eqn:Hg; [|done]. cbn [mbind option_bind].
  destruct (signal_value code id x (bs_chan (bs_node S j))) as [msg|] eqn:Hv; [|done]. cbn [mbind option_bind].
  destruct (brb_broadcastMsg j code id msg n (bs_net S)) as [T|] eqn:HT; [|done]. simpl. intros [= <-].
  apply list_elem_of_lookup_2 in Hg as Hin. pose proof (si_net S HS) as Hnet.
  destruct (message_legit S j code id x msg HS Hj (si_signals S HS j code id Hin) Hv) as [Hl _].
  assert (Hsame : stack_chans (BrbStack (<[j := BrbNode (bs_chan (bs_node S j)) (delete g (bs_signals (bs_node S j)))
    (bs_deliver (bs_node S j))]> (bs_node S)) T (bs_made S)) = stack_chans S) by (by apply stack_chans_same).
  apply (stack_inv_step S); [done|done|by left|by eapply beb_cast_inv| | | |by left].
  - simpl. intros j' k p Hj' Hp. destruct (beb_cast_sent _ _ _ _ _ _ _ _ _ _ HT Hp) as [?|[-> [= ->]]]; [by left|].
    right. intros m Hm. unfold arrives. rewrite Hsame. by apply Hl.
  - intros k m [?|[? ->]]%node_upd_deliver; [by left|]. left.
    done.
  - intros k c i [?|[Hd ->]]%node_upd_signals; [by left|]. left. by eapply list_elem_of_delete_inv.
Qed.

(** Anything can arrive from a faulty process. *)
Lemma faulty_arrives S m :
  bm_sender m ∈ peers mb → bm_sender m ∈ faulty mb → known m →
  (bm_kind m = code_send → (bm_id m, bm_sender m, bm_content m) ∈ bs_made S) → arrives S m.
Proof.
  intros Hp Hf Hkn Hm. unfold arrives, brb_event_ok. unfold known in Hkn. revert Hkn. unfold input_of.
  destruct (decide (bm_kind m = code_send)); [|destruct (decide (bm_kind m = code_echo));
    [|destruct (decide (bm_kind m = code_ready)); [|done]]]; simpl; intros Hkn;
    split_and!; auto. by apply elem_of_sends_of, Hm.
Qed.

(** A turn of the middleware's loop.  A send of a faulty process counts as a
    broadcast of it. *)
Lemma stack_inv_bebDeliver S k x S' :
  stack_inv S → correct mb k → stack_exec (SBebDeliver k x) S = Some S' → stack_inv S'.
Proof.
  intros HS Hk. simpl. unfold mw_bebDeliver.
  destruct (beb_take k x (bs_net S)) as [[[code m] T]|] eqn:Ht; [|done]. cbn [mbind option_bind].
  destruct (decide (code = listen)) as [->|]; [|done].
  pose proof (beb_take_inv mb pk_of remote k x _ _ T (si_net S HS) Ht) as HT.
  unfold beb_take in Ht. apply bind_Some in Ht as ([c' m'] & Hx & [= -> -> HTeq]).
  assert (Hsent : tr_sent T = tr_sent (bs_net S)) by (by rewrite <-HTeq).
  destruct (brbMiddleware_processMsg SerializePublicKey (beb_Content m) (beb_Sender m)) as [bm|?] eqn:Hp;
    cbn [mbind option_bind]; (case_decide as Hkn; [|done]); intros [= <-].
  2: { simpl. rewrite app_nil_r. pose proof (stack_chans_same S k (bs_node S k) T (bs_made S) eq_refl) as Hc.
       apply (stack_inv_step S); [done|done|by left|done| | | |by left].
       - simpl. rewrite Hsent. by left.
       - intros i m0 [?|[? ->]]%node_upd_deliver; by left.
       - intros i c i' [?|[? ->]]%node_upd_signals; by left. }
  specialize (Hkn bm eq_refl).
  destruct (tv_inbox _ _ _ _ (si_net S HS) k listen m) as (s & Hs & Hg & Hor);
    [by eapply list_elem_of_lookup_2|].
  assert (Hsp : s ∈ peers mb) by (destruct Hor as [->|?]; [apply Hk|done]). rewrite Hs in Hp.
  apply (stack_inv_step S); [done|intros ?; apply sends_of_mono|left; by apply stack_chans_same|done| | | |].
  - simpl. rewrite Hsent. by left.
  - intros i m0 [?|[Hin ->]]%node_upd_deliver; [by left|]. simpl in Hin.
    apply elem_of_app in Hin as [?| ->%list_elem_of_singleton]; [by left|]. right.
    destruct (decide (s ∈ faulty mb)) as [Hf|Hf].
    + apply processMsg_Ok_inv in Hp as (_ & Hid & _). rewrite Hpk in Hid by done. injection Hid as Hid.
      apply faulty_arrives; rewrite <-?Hid; [done..|]. intros Hkind. simpl.
      rewrite decide_True by done. apply elem_of_app. right. by left.
    + eapply arrives_step; [by apply stack_net_ok|intros ?; apply sends_of_mono|left; by apply stack_chans_same|].
      apply (si_sent S HS s k (beb_Content m) Hf); [|done]. by apply (tv_got _ _ _ _ (si_net S HS)).
  - intros i c i' [?|[? ->]]%node_upd_signals; by left.
  - simpl. intros i s' c [?|Hin]%elem_of_app; [by left|]. right. case_decide as Hd; [|by apply not_elem_of_nil in Hin].
    apply list_elem_of_singleton in Hin as [= -> -> ->].
    apply processMsg_Ok_inv in Hp as (_ & Hid & [(_ & nonce & Hn & Hc & _)|[[Hk'|Hk'] _]]);
      [|by rewrite Hk' in Hd; destruct Hd..].
    rewrite Hpk in Hid by done. injection Hid as Hid. rewrite <-Hid. split; [done|]. by exists nonce.
Qed.

(** A command of the channel. *)
Lemma stack_inv_chan S k x e S' :
  stack_inv S → correct mb k →
  stack_exec (SDeliver k x) S = Some S' ∨ stack_exec (SChan k e) S = Some S' → stack_inv S'.
Proof.
  intros HS Hk [He|He]; simpl in He.
  - unfold chan_bebDeliver in He. destruct (bs_deliver (bs_node S k) !! x) as [m|] eqn:Hx; [|done].
    injection He as <-. apply list_elem_of_lookup_2 in Hx.
    apply (stack_inv_step S); [done|done| |apply HS|by left| | |by left].
    + right. unfold set_node. rewrite stack_chans_upd. simpl.
      apply (brb_chan_event_step mb msgs (sends_of S) (stack_chans S) k (DMsg m)); [done| |done].
      by apply (si_deliver S HS k).
    + intros i m0 [?|[Hd ->]]%node_upd_deliver; [by left|]. left. by eapply list_elem_of_delete_inv.
    + intros i c i' [?|[Hs ->]]%node_upd_signals; [by left|]. simpl in Hs.
      apply elem_of_app in Hs as [?|Hs]; [by left|]. right. unfold new_signals in Hs.
      case_decide; [by apply not_elem_of_nil in Hs|].
      apply elem_of_cons in Hs as [[= -> ->]|[= -> ->]%list_elem_of_singleton]; auto.
  - assert (∃ c, brb_chan_exec e (stack_chans S k) = Some c ∧ (∀ m, e ≠ DMsg m) ∧
      S' = set_node k (BrbNode c (bs_signals (bs_node S k)) (bs_deliver (bs_node S k))) S) as (c & Hex & Hne & ->).
    { unfold brb_turn in He. destruct e as [m|i|id]; [done|..];
        apply bind_Some in He as (N & (c & Hc & [= <-])%bind_Some & [= <-]); by exists c. }
    apply (stack_inv_step S); [done|done| |apply HS|by left| | |by left].
    + right. unfold set_node. rewrite stack_chans_upd. simpl.
      apply (brb_chan_event_step mb msgs (sends_of S) (stack_chans S) k e); [done| |done].
      destruct e as [m| |]; [by destruct (Hne m)|done..].
    + intros i m0 [?|[Hd ->]]%node_upd_deliver; by left.
    + intros i c' i' [?|[Hs ->]]%node_upd_signals; by left.
Qed.

Lemma stack_inv_exec S e S' : stack_inv S → may_act e → stack_exec e S = Some S' → stack_inv S'.
Proof.
  intros HS Ha He. destruct e as [j nonce msg n|j g x n|k x|k x|k e|j code msg n|k x|e].
  - exact (stack_inv_broadcast _ _ _ _ _ _ HS Ha He).
  - exact (stack_inv_signal _ _ _ _ _ _ HS Ha He).
  - exact (stack_inv_bebDeliver _ _ _ _ HS Ha He).
  - eapply (stack_inv_chan S k x (DMsg (BrbMsg code_send uuid_Nil uuid_Nil []))); eauto.
  - eapply (stack_inv_chan S k 0 e); eauto.
  - simpl in He. destruct (decide (code = listen)) as [|Hne]; [done|].
    apply bind_Some in He as (T & HT & [= <-]). apply stack_inv_net; [done| |].
    + eapply beb_cast_inv; [apply HS|done].
    + intros j' k p _ Hp. destruct (beb_cast_sent _ _ _ _ _ _ _ _ _ _ HT Hp) as [?|[_ [= ? _]]]; [done|congruence].
  - simpl in He. destruct (beb_take k x (bs_net S)) as [[[code m] T]|] eqn:Ht; [|done]. simpl in He.
    case_decide; [done|]. injection He as <-. apply stack_inv_net; [done| |].
    + eapply beb_take_inv; [apply HS|done].
    + unfold beb_take in Ht. by apply bind_Some in Ht as (d & _ & [= _ <-]).
  - simpl in He. case_decide as Hf; [|done]. apply bind_Some in He as (T & HT & [= <-]).
    apply stack_inv_net; [done| |].
    + eapply beb_exec_inv; [apply HS|done].
    + intros j k p _ Hp. destruct (beb_exec_sent _ _ _ _ _ _ _ _ _ _ HT Hp) as [?|He]; [done|].
      exfalso. by apply (Hf _ _ _ He).
Qed.

Lemma stack_reachable_inv S : brb_stack_reachable S → stack_inv S.
Proof.
  revert S. apply (rtc_ind_r (R := brb_stack_step) stack_inv); [apply stack_inv_init|].
  intros S S' _ [e S1 Ha He] HS. by eapply stack_inv_exec.
Qed.

(** What a client receives was broadcast. *)
Lemma stack_delivered S i id o :
  brb_stack_reachable S → ChannelDelivers (stack_chans S) i id o → (id, Sender o, Content o) ∈ bs_made S.
Proof.
  intros HS%stack_reachable_inv Ho. pose proof (stack_net_ok S HS) as HC.
  pose proof (channel_agreement mb msgs (sends_of S) _ i i id o o Hcf HC Ho Ho) as (_ & _ & H).
  by apply elem_of_sends_of.
Qed.
End refinement.
End stack.

(** ** Four processes named by the hashes of their keys *)

Module StackExample.
Import Gf2.
Definition key (x : byte) : bytes := [x].
Definition ser (pk : bytes) : option bytes := Some pk.
Definition k1 : UUID := BytesToUUID (key "001").
Definition k2 : UUID := BytesToUUID (key "002").
Definition k3 : UUID := BytesToUUID (key "003").
Definition k4 : UUID := BytesToUUID (key "004").
Definition mbk : membership UUID := Membership 4 1 {[k1; k2; k3; k4]} {[k4]}.

Definition key_of (j : UUID) : bytes :=
  if decide (j = k1) then key "001" else if decide (j = k2) then key "002"
  else if decide (j = k3) then key "003" else key "004".
Definition kremote (j : UUID) (c : nat) : UUID :=
  match c with 1%nat => k1 | 2%nat => k2 | 3%nat => k3 | _ => k4 end.
Definition kpeer (c : nat) : peer := Peer (PublicKey := bytes) (Some c) [] None uuid_Nil.
(** The node of [j] is connected to the others; its broadcast channel listens
    to 'A', others to 'B' and 'D'. *)
Definition knode (j : UUID) : Node :=
  MkNode [] [] true (kpeer <$> filter (λ c, kremote j c ≠ j) [1; 2; 3; 4]%nat)
    [BEBChannel "A"; BEBChannel "B"; SSChannel "D"] 0 (key_of j).

Definition smsg : bytes := ["h"; "i"]%byte.
Definition smsgs : list bytes := [send_echo k1 smsg].
Definition sid : UUID := match computeInstanceId ser 7 (key_of k1) with Ok id => id | Err _ => uuid_Nil end.

(** Everything [j] can do in one round. *)
Definition sturn (j : UUID) : list (brb_stack_event (PublicKey := bytes)) :=
  ((λ i, SNet (TRead i j (knode j))) <$> [k1; k2; k3; k4]) ++
  [SNet (TSelf j 0 (knode j)); SBebDeliver j 0; SBebDeliver j 0; SBebDeliver j 0; SBebDeliver j 0;
   SDeliver j 0; SDeliver j 0; SDeliver j 0; SDeliver j 0] ++
  (SChan j <$> [DSubmit 0; DSubmit 0; DSubmit 0; DSubmit 0; DOutput sid; DOutput sid]) ++
  [SSignal j 0 0 (knode j); SSignal j 0 0 (knode j)] ++
  ('(g, _) ← [(0, 0); (0, 1); (0, 2); (1, 0); (1, 1); (1, 2); (2, 0); (2, 1); (2, 2)]%nat; [SNet (TWrite j g)]).
Definition sround : list (brb_stack_event (PublicKey := bytes)) := k ← [k1; k2; k3]; sturn k.
(** The faulty process writes an echo of its own, and something unreadable. *)
Definition srun : list (brb_stack_event (PublicKey := bytes)) :=
  [SBroadcast k1 7 smsg (knode k1);
   SNet (TBytes k4 k2 (ov_send (generic :: "A"%byte :: wrapMessage code_echo sid (send_echo k1 smsg))));
   SNet (TBytes k4 k2 (ov_send [generic; "A"; "z"]%byte))] ++ sround ++ sround ++ sround ++ sround ++ sround.

#[local] Abbreviation exec := (stack_exec ser gf2 mbk smsgs key_of kremote "A"%byte).
(** Events that are not enabled are left out. *)
Definition sexec (l : list brb_stack_event) (S : brb_stack) : brb_stack :=
  foldl (λ S e, if bool_decide (may_act mbk e) then default S (exec e S) else S) S l.
Definition sS : brb_stack := sexec srun (brb_stack_init mbk).

Lemma sexec_reachable l S :
  brb_stack_reachable ser gf2 mbk smsgs key_of kremote "A"%byte S →
  brb_stack_reachable ser gf2 mbk smsgs key_of kremote "A"%byte (sexec l S).
Proof.
  unfold sexec. revert S. induction l as [|e l IH]; intros S HS; simpl; [done|]. apply IH.
  destruct (bool_decide (may_act mbk e)) eqn:Ha; [|done]. apply bool_decide_eq_true_1 in Ha.
  destruct (exec e S) as [S'|] eqn:E; [|done]. simpl. eapply rtc_r; [done|]. by econstructor.
Qed.

Lemma sS_reachable : brb_stack_reachable ser gf2 mbk smsgs key_of kremote "A"%byte sS.
Proof. apply sexec_reachable. constructor. Qed.

#[export] Instance mbk_resilient : Resilient mbk.
Proof.
  split; [vm_compute; reflexivity| |vm_compute; discriminate|vm_compute; reflexivity..].
  unfold mbk. simpl. set_solver.
Qed.

Lemma collision_free_s : collision_free smsgs.
Proof. by intros a b ->%list_elem_of_singleton ->%list_elem_of_singleton. Qed.

Lemma key_names j : j ∈ peers mbk → PkToUUID ser (key_of j) = Some j.
Proof.
  unfold mbk. simpl. rewrite !elem_of_union, !elem_of_singleton.
  intros [[[-> | ->]| ->]| ->]; vm_compute; reflexivity.
Qed.

Definition sout : BRBMsg := MkBRBMsg smsg k1.
Lemma sS_delivers : ChannelDelivers (stack_chans sS) k2 sid sout ∧ ChannelDelivers (stack_chans sS) k3 sid sout.
Proof. split; apply (list_elem_of_lookup_2 _ 0); vm_compute; reflexivity. Qed.
End StackExample.
Import Gf2 StackExample.

(** ** Theorems *)

(** C32: the stack implements the network of channels.  The channels of the
    processes, fed by the middleware from the bytes that arrive on their
    connections, do only what the network of [BRBChannel]s allows: a message of
    a correct process reaches a channel only if an instance of that process has
    sent it, or that process has called [BRBroadcast]. *)
Theorem brb_stack_refines {PublicKey : Type} (SerializePublicKey : PublicKey → option bytes) (G : CirclGroup)
    (mb : membership UUID) `{!Resilient mb} (msgs : list bytes) (pk_of : UUID → PublicKey)
    (remote : UUID → nat → UUID) (listen : byte) (S : brb_stack) :
  collision_free msgs → (∀ j, j ∈ peers mb → PkToUUID SerializePublicKey (pk_of j) = Some j) →
  brb_stack_reachable SerializePublicKey G mb msgs pk_of remote listen S →
  brb_chan_reachable mb msgs (sends_of S) (stack_chans S).
Proof. intros Hcf Hpk HS. eapply si_chan, stack_reachable_inv; done. Qed.

Lemma brb_stack_refines_witness :
  brb_chan_reachable mbk smsgs (sends_of sS) (stack_chans sS) ∧ ChannelDelivers (stack_chans sS) k2 sid sout.
Proof.
  split; [|exact (proj1 sS_delivers)].
  exact (brb_stack_refines ser gf2 mbk smsgs key_of kremote "A"%byte sS collision_free_s key_names sS_reachable).
Defined.

(** C2: agreement and integrity of reliable broadcast, from bytes to clients.
    What two correct processes deliver under one identifier is the same message,
    each delivers it once, and it is a broadcast that was made, under an
    identifier computed from the key of the process it names as its sender. *)
Theorem brb_stack_agreement {PublicKey : Type} (SerializePublicKey : PublicKey → option bytes) (G : CirclGroup)
    (mb : membership UUID) `{!Resilient mb} (msgs : list bytes) (pk_of : UUID → PublicKey)
    (remote : UUID → nat → UUID) (listen : byte) (S : brb_stack) i j id o o' :
  collision_free msgs → (∀ j, j ∈ peers mb → PkToUUID SerializePublicKey (pk_of j) = Some j) →
  brb_stack_reachable SerializePublicKey G mb msgs pk_of remote listen S →
  ChannelDelivers (stack_chans S) i id o → ChannelDelivers (stack_chans S) j id o' →
  o = o' ∧ from_id id (BrbDeliver (stack_chans S i)) = [o] ∧ (id, Sender o, Content o) ∈ bs_made S ∧
  ∃ nonce, 0 ≤ nonce < 2 ^ 32 ∧ computeInstanceId SerializePublicKey nonce (pk_of (Sender o)) = Ok id.
Proof.
  intros Hcf Hpk HS Ho Ho'.
  assert (Hinv : stack_inv SerializePublicKey mb msgs pk_of remote listen S) by (eapply stack_reachable_inv; done).
  pose proof (stack_net_ok _ _ _ _ _ _ S Hinv) as HC.
  pose proof (channel_agreement mb msgs (sends_of S) _ i j id o o' Hcf HC Ho Ho') as (-> & H1 & H2%elem_of_sends_of).
  split_and!; [done..|]. by eapply si_made.
Qed.

Lemma brb_stack_agreement_witness :
  sout = sout ∧ from_id sid (BrbDeliver (stack_chans sS k2)) = [sout] ∧ (sid, Sender sout, Content sout) ∈ bs_made sS ∧
  ∃ nonce, 0 ≤ nonce < 2 ^ 32 ∧ computeInstanceId ser nonce (key_of (Sender sout)) = Ok sid.
Proof.
  exact (brb_stack_agreement ser gf2 mbk smsgs key_of kremote "A"%byte sS k2 k3 sid sout sout
    collision_free_s key_names sS_reachable (proj1 sS_delivers) (proj2 sS_delivers)).
Defined.
