(* ===== verification/AbaStack.v ===== *)
(** * [asynchronousBinaryAgreement] over [overlayNetwork]

    The two middlewares of an [AbaChannel] ([abaMiddleware.go] and
    [terminationMiddleware.go]) and its listener ([abaChannel.go]), composed with
    the channels of [AbaChannel] above and the best-effort broadcast of
    [BebNetwork] below: the whole path of an echo, a vote, a bind or a decision
    from an instance at one process to the same instance at another, through
    bytes on a connection.  Every identifier is then a run of the agreement
    network of [AbaNetwork], so agreement and validity hold of the decisions the
    clients receive. *)

From stdpp Require Import base tactics numbers list gmap functions relations.
From Stdlib Require Import Init.Byte FunctionalExtensionality.
From S2P Require Import Prelude Utils Bca BcaNet Ivbca IvbcaCorrect Evbca EvbcaCorrect Round Termination Mmr AbaNetwork AbaAgreement AbaWire AbaChannel AbaProject CoinGroup CoinWire Overlay BebNetwork BrbStack.

Local Open Scope Z_scope.

Section stack.
Context {PublicKey : Type} (SerializePublicKey : PublicKey → option bytes) (G : CirclGroup).
Context (mb : membership UUID).
Context (pk_of : UUID → PublicKey) (remote : UUID → nat → UUID).
(** The codes of the two broadcast channels, and the coin that the coin channel
    of a process outputs for an instance and a round. *)
Context (mcode tcode : byte) (coin : UUID → UUID → Z → bool).

#[local] Abbreviation Node := (@Node PublicKey).
#[local] Abbreviation beb_net := (@beb_net PublicKey).
#[local] Abbreviation BEBMsg := (@BEBMsg PublicKey).

(** ** The middlewares *)

(** [mw_output]: the goroutines that wait to send on [output]. *)
Record abaMiddleware := MkAbaMiddleware { mw_beb : byte; mw_output : list abaMsg }.
Record terminationMiddleware := MkTerminationMiddleware { tw_beb : byte; tw_output : list terminationMsg }.

Definition newABAMiddleware (beb : byte) : abaMiddleware := MkAbaMiddleware beb [].
Definition newTerminationMiddleware (beb : byte) : terminationMiddleware := MkTerminationMiddleware beb [].

Definition aba_mw_processMsg (bebMsg : BEBMsg) (m : abaMiddleware) : abaMiddleware :=
  match aba_parseMsg SerializePublicKey (beb_Content bebMsg) (beb_Sender bebMsg) with
  | Ok amsg => MkAbaMiddleware (mw_beb m) (mw_output m ++ [amsg])
  | Err _ => m
  end.

Definition term_mw_processMsg (brbMsg : BEBMsg) (m : terminationMiddleware) : terminationMiddleware :=
  match term_processMsg SerializePublicKey (beb_Content brbMsg) (beb_Sender brbMsg) with
  | Ok tm => MkTerminationMiddleware (tw_beb m) (tw_output m ++ [tm])
  | Err _ => m
  end.

(** One turn of [bebDeliver] and of [brbDeliver], with the [x]-th goroutine that
    waits on the channel. *)
Definition aba_mw_bebDeliver (k : UUID) (x : nat) (m : abaMiddleware) (T : beb_net) :
    option (abaMiddleware * beb_net) :=
  '(code, bebMsg, T) ← beb_take k x T;
  if decide (code = mw_beb m) then Some (aba_mw_processMsg bebMsg m, T) else None.

Definition term_mw_brbDeliver (k : UUID) (x : nat) (m : terminationMiddleware) (T : beb_net) :
    option (terminationMiddleware * beb_net) :=
  '(code, brbMsg, T) ← beb_take k x T;
  if decide (code = tw_beb m) then Some (term_mw_processMsg brbMsg m, T) else None.

(** ** A process *)

Record abc_node := AbcNode {
  ap_chan : AbaChannel;
  ap_got : list (UUID * Z);
  ap_mw : abaMiddleware;
  ap_tw : terminationMiddleware;
}.

Definition set_chan (c : AbaChannel) (N : abc_node) : abc_node := AbcNode c (ap_got N) (ap_mw N) (ap_tw N).

(** One turn of the listener of the channel, and the command it submits. *)
Definition abc_listener (br : nat + nat) (N : abc_node) : option abc_node :=
  match br with
  | inl x =>
    abamsg ← mw_output (ap_mw N) !! x;
    Some (AbcNode (processMiddlewareMsg abamsg (ap_chan N)).1 (ap_got N)
            (MkAbaMiddleware (mw_beb (ap_mw N)) (delete x (mw_output (ap_mw N)))) (ap_tw N))
  | inr x =>
    term ← tw_output (ap_tw N) !! x;
    Some (AbcNode (processTermMsg term (ap_chan N)).1 (ap_got N) (ap_mw N)
            (MkTerminationMiddleware (tw_beb (ap_tw N)) (delete x (tw_output (ap_tw N)))))
  end.

(** The broadcast an instance makes; what [BEBroadcast] refuses is lost. *)
Definition cast_effect (j : UUID) (n : Node) (e : aba_effect) (N : abc_node) (T : beb_net) : option beb_net :=
  match e with
  | Beb b => beb_cast remote j (mw_beb (ap_mw N)) b n T
  | TermBeb b => beb_cast remote j (tw_beb (ap_tw N)) b n T
  | Toss _ => Some T
  end.

(** One turn of the listener of the instance [id]. *)
Definition instance_listener (j id : UUID) (br : listen_branch) (n : Node) (N : abc_node) (T : beb_net) :
    option (abc_node * beb_net) :=
  a ← heap (ap_chan N) !! id; o ← aba_listener id br a; '(a, eff) ← done_some o;
  T ← cast_effect j n eff N T;
  Some (set_chan (do_effect eff (put_instance id a (ap_chan N))) N, T).

(** The commands and goroutines that touch the channel only. *)
Definition chan_turn (e : chan_event) (N : abc_node) : option abc_node :=
  match e with
  | CMsg _ | CTerm _ | CListen _ _ | CCoin _ _ _ => None
  | _ => '(c, got) ← chan_exec e (ap_chan N, ap_got N); Some (AbcNode c got (ap_mw N) (ap_tw N))
  end.

(** The coin the [i]-th goroutine of [getCoin] waits for. *)
Definition coin_turn (j id : UUID) (i : nat) (N : abc_node) : option abc_node :=
  a ← heap (ap_chan N) !! id; r ← ai_coins a !! i;
  '(c, got) ← chan_exec (CCoin id i (coin j id r)) (ap_chan N, ap_got N);
  Some (AbcNode c got (ap_mw N) (ap_tw N)).

(** ** The stack *)

Record abc_stack := AbcStack { ap_node : UUID → abc_node; ap_net : beb_net }.

Definition abc_init : abc_stack :=
  AbcStack (λ _, AbcNode (NewAbaChannel (mb_n mb) (mb_f mb)) [] (newABAMiddleware mcode) (newTerminationMiddleware tcode))
    beb_net_init.

Inductive abc_event :=
| AMiddleware (k : UUID) (x : nat)
| ATermidware (k : UUID) (x : nat)
| AListener (k : UUID) (br : nat + nat)
| AInstance (j id : UUID) (br : listen_branch) (n : Node)
| AChan (j : UUID) (e : chan_event)
| AToss (j id : UUID) (i : nat)
| AOther (j : UUID) (code : byte) (msg : bytes) (n : Node)
| ATake (k : UUID) (x : nat)
| ANet (e : @beb_event PublicKey).

Definition abc_actor (e : abc_event) : option UUID :=
  match e with
  | AMiddleware j _ | ATermidware j _ | AListener j _ | AInstance j _ _ _ | AChan j _ | AToss j _ _
  | AOther j _ _ _ | ATake j _ => Some j
  | ANet _ => None
  end.

(** The frames of the other channels. *)
Definition elsewhere (m : bytes) : Prop :=
  match m with t :: c :: _ => ¬ (t = generic ∧ (c = mcode ∨ c = tcode)) | _ => True end.

#[export] Instance elsewhere_dec m : Decision (elsewhere m).
Proof. unfold elsewhere. destruct m as [|? [|? ?]]; apply _. Defined.

#[export] Instance raw_elsewhere_dec (e : @beb_event PublicKey) : Decision (∀ j k m, e = TRaw j k m → elsewhere m).
Proof. destruct e as [|? ? m| | |]; try (by left). destruct (decide (elsewhere m)); [left|right]; naive_solver. Defined.

Definition set_abc (j : UUID) (N : abc_node) (T : beb_net) (S : abc_stack) : abc_stack :=
  AbcStack (<[j := N]> (ap_node S)) T.

Definition abc_exec (e : abc_event) (S : abc_stack) : option abc_stack :=
  match e with
  | AMiddleware k x =>
    '(m, T) ← aba_mw_bebDeliver k x (ap_mw (ap_node S k)) (ap_net S);
    Some (set_abc k (AbcNode (ap_chan (ap_node S k)) (ap_got (ap_node S k)) m (ap_tw (ap_node S k))) T S)
  | ATermidware k x =>
    '(m, T) ← term_mw_brbDeliver k x (ap_tw (ap_node S k)) (ap_net S);
    Some (set_abc k (AbcNode (ap_chan (ap_node S k)) (ap_got (ap_node S k)) (ap_mw (ap_node S k)) m) T S)
  | AListener k br => N ← abc_listener br (ap_node S k); Some (set_abc k N (ap_net S) S)
  | AInstance j id br n =>
    '(N, T) ← instance_listener j id br n (ap_node S j) (ap_net S); Some (set_abc j N T S)
  | AChan j e => N ← chan_turn e (ap_node S j); Some (set_abc j N (ap_net S) S)
  | AToss j id i => N ← coin_turn j id i (ap_node S j); Some (set_abc j N (ap_net S) S)
  | AOther j code msg n =>
    if decide (code = mcode ∨ code = tcode) then None
    else T ← beb_cast remote j code msg n (ap_net S); Some (AbcStack (ap_node S) T)
  | ATake k x =>
    '(code, _, T) ← beb_take k x (ap_net S);
    if decide (code = mcode ∨ code = tcode) then None else Some (AbcStack (ap_node S) T)
  | ANet e =>
    if decide (∀ j k m, e = TRaw j k m → elsewhere m)
    then T ← beb_exec G mb pk_of remote e (ap_net S); Some (AbcStack (ap_node S) T)
    else None
  end.

(** The proposals the clients make. *)
Context (inputs : UUID → UUID → Z → Prop).

(** Correct processes run the code. *)
Definition abc_may (e : abc_event) : Prop :=
  match abc_actor e with Some j => bca_correct mb j | None => True end ∧
  match e with AChan j (CPropose id est) => inputs id j est | _ => True end.

Inductive abc_step (S : abc_stack) : abc_stack → Prop :=
| abc_event_step e S' : abc_may e → abc_exec e S = Some S' → abc_step S S'.

Definition abc_reachable (S : abc_stack) : Prop := rtc abc_step abc_init S.

(** The client at [j] has received the decision [d] of the instance [id]. *)
Definition Receives (S : abc_stack) (j id : UUID) (d : Z) : Prop := (id, d) ∈ ap_got (ap_node S j).

(** The coin channels of the correct processes agree ([CoinChannel]). *)
Definition common_coin (common : UUID → Z → bool) : Prop :=
  ∀ j id r, bca_correct mb j → coin j id r = common id r.

(** ** The networks of the instances

    [A id] is the network of the instance [id]. *)

Section refinement.
Context `{!Resilient mb} (Hcodes : mcode ≠ tcode).
(** A process is named by the hash of its key. *)
Context (Hpk : ∀ j, j ∈ peers mb → PkToUUID SerializePublicKey (pk_of j) = Some j).
(** The correct processes get the same coins. *)
Context (common : UUID → Z → bool) (Hcoin : common_coin common).

#[local] Abbreviation Correct := (bca_correct mb).
#[local] Abbreviation networks := (UUID → aba_config).
Implicit Types (A : networks) (S : abc_stack).

Definition icoin (id : UUID) (r : Z) : Z := coin_byte (common id r).

Definition sub_event (s : submission) : aba_event :=
  match s with SubBca k v x r => AMsg k v x r | SubDecision d x => ADecision d x end.
(** A submission the network allows; who makes it does not matter. *)
Definition sub_ok A (id : UUID) (s : submission) : Prop := ∀ j, aba_event_ok mb (inputs id) (A id) j (sub_event s).
Definition msg_ok A (m : abaMsg) : Prop :=
  ∀ k, kind_of (am_kind m) = Some k → sub_ok A (am_instance m) (SubBca k (am_val m) (am_sender m) (am_round m)).
Definition term_ok A (m : terminationMsg) : Prop := sub_ok A (tm_instance m) (SubDecision (tm_decision m) (tm_sender m)).

(** The bytes [j] has broadcast. *)
Definition aba_legit A (j : UUID) (p : bytes) : Prop :=
  ∃ k id x, p = bcast_of k id x ∧ is_round (rnum x) ∧ 0 ≤ val x ≤ bot ∧
            val x ∈ ab_taken (A id j) (rnum x) (kind_chan k).
Definition term_legit A (j : UUID) (p : bytes) : Prop :=
  ∃ id d, p = broadcastDecision id d ∧ bit d ∧ d ∈ ab_out (A id j).

(** The instances of a channel are processes of the networks. *)
Record chan_rel A (j : UUID) (c : AbaChannel) (got : list (UUID * Z)) : Prop := {
  cr_inst id a : heap c !! id = Some a → inst_rel (A id j) a;
  cr_none id : heap c !! id = None → A id j = aba_start (mb_n mb) (mb_f mb);
  cr_got id d : (id, d) ∈ got → d ∈ ab_out (A id j);
  cr_conf : ch_n c = mb_n mb ∧ ch_f c = mb_f mb;
}.

Record abc_node_ok A (j : UUID) (N : abc_node) : Prop := {
  no_chan : chan_inv (ap_chan N) (ap_got N);
  no_rel : chan_rel A j (ap_chan N) (ap_got N);
  no_beb : mw_beb (ap_mw N) = mcode ∧ tw_beb (ap_tw N) = tcode;
  no_pending id s : (id, s) ∈ pending (ap_chan N) → sub_ok A id s;
  no_mw m : m ∈ mw_output (ap_mw N) → msg_ok A m;
  no_tw m : m ∈ tw_output (ap_tw N) → term_ok A m;
}.

Record abc_inv A S : Prop := {
  av_net : beb_inv mb pk_of remote (ap_net S);
  av_reach id : aba_reachable (icoin id) mb (inputs id) (A id);
  av_node j : abc_node_ok A j (ap_node S j);
  av_sent j k p : j ∉ faulty mb → (j, k, generic :: mcode :: p) ∈ tr_sent (ap_net S) → aba_legit A j p;
  av_tsent j k p : j ∉ faulty mb → (j, k, generic :: tcode :: p) ∈ tr_sent (ap_net S) → term_legit A j p;
}.

(** *** The networks only grow *)

Definition nets_grow A A' : Prop := ∀ id j, log_grows (A id j) (A' id j).

Lemma nets_grow_refl A : nets_grow A A.
Proof. intros id j. done. Qed.

Lemma sub_ok_grows A A' id s : nets_grow A A' → sub_ok A id s → sub_ok A' id s.
Proof.
  intros Hg Hs j. specialize (Hs j). destruct s as [k v x r|d x]; simpl in *.
  - destruct Hs as (? & ? & [?|?]); split_and!; auto. right. by apply (Hg id x).
  - destruct Hs as (? & ? & [?|?]); split_and!; auto. right. by apply (Hg id x).
Qed.
Lemma aba_legit_grows A A' j p : nets_grow A A' → aba_legit A j p → aba_legit A' j p.
Proof. intros Hg (k & id & x & ? & ? & ? & ?). exists k, id, x. do 3 (split; [done|]). by apply (Hg id j). Qed.
Lemma term_legit_grows A A' j p : nets_grow A A' → term_legit A j p → term_legit A' j p.
Proof. intros Hg (id & d & ? & ? & ?). exists id, d. do 2 (split; [done|]). by apply (Hg id j). Qed.

(** The networks after a step of [j] in instance [id]. *)
Definition upd_net A (id j : UUID) (nd : aba_node) : networks := <[id := <[j := nd]> (A id)]> A.

Lemma upd_net_eq A id j nd : upd_net A id j nd id j = nd.
Proof. unfold upd_net. by rewrite !fn_lookup_insert. Qed.
Lemma upd_net_ne A id j nd id' j' : id' ≠ id ∨ j' ≠ j → upd_net A id j nd id' j' = A id' j'.
Proof.
  intros Hne. unfold upd_net. destruct (decide (id = id')) as [<-|]; [|by rewrite fn_lookup_insert_ne].
  rewrite fn_lookup_insert. destruct (decide (j = j')) as [<-|]; [by destruct Hne|by rewrite fn_lookup_insert_ne].
Qed.

Inductive nets_step A (j : UUID) : networks → Prop :=
| nets_same : nets_step A j A
| nets_event id e nd : Correct j → aba_event_ok mb (inputs id) (A id) j e →
    aba_exec (icoin id) e (A id j) = Some nd → nets_step A j (upd_net A id j nd).

Lemma nets_step_grow A j A' : nets_step A j A' → nets_grow A A'.
Proof.
  intros [|id e nd _ _ Hex]; [apply nets_grow_refl|]. intros id' j'.
  destruct (decide (id' = id)) as [->|]; [destruct (decide (j' = j)) as [->|]|]; rewrite ?upd_net_eq, ?upd_net_ne by auto; try done.
  by eapply aba_exec_grows.
Qed.

Lemma nets_step_other A j A' j' id : nets_step A j A' → j' ≠ j → A' id j' = A id j'.
Proof. intros [|id' e nd _ _ _] Hne; [done|]. apply upd_net_ne. by right. Qed.

Lemma nets_step_reach A j A' :
  nets_step A j A' → (∀ id, aba_reachable (icoin id) mb (inputs id) (A id)) →
  ∀ id, aba_reachable (icoin id) mb (inputs id) (A' id).
Proof.
  intros [|id' e nd Hj Hok Hex] Hr id; [done|]. unfold upd_net. destruct (decide (id' = id)) as [<-|];
    [rewrite fn_lookup_insert|by rewrite fn_lookup_insert_ne].
  eapply rtc_r; [apply Hr|]. by econstructor.
Qed.

(** The common part of every step. *)
Lemma abc_inv_step A A' S j N T :
  abc_inv A S → nets_step A j A' → beb_inv mb pk_of remote T →
  (nets_grow A A' → abc_node_ok A' j N) →
  (∀ i k p, i ∉ faulty mb → (i, k, generic :: mcode :: p) ∈ tr_sent T →
     (i, k, generic :: mcode :: p) ∈ tr_sent (ap_net S) ∨ aba_legit A' i p) →
  (∀ i k p, i ∉ faulty mb → (i, k, generic :: tcode :: p) ∈ tr_sent T →
     (i, k, generic :: tcode :: p) ∈ tr_sent (ap_net S) ∨ term_legit A' i p) →
  abc_inv A' (set_abc j N T S).
Proof.
  intros HS Hst HT HN Hm Ht. pose proof (nets_step_grow _ _ _ Hst) as Hg.
  split; simpl; [done|by eapply nets_step_reach; [|apply HS]| | |].
  - intros i. destruct (decide (i = j)) as [->|Hne]; [rewrite fn_lookup_insert; auto|].
    rewrite fn_lookup_insert_ne by done. destruct (av_node _ _ HS i) as [Hc [] Hb Hp Hw Htw].
    assert (Hsame : ∀ id, A' id i = A id i) by (intros; by eapply nets_step_other).
    split; [done| |done|..].
    + split; [intros id; rewrite Hsame; auto|intros id; rewrite Hsame; auto|intros id; rewrite Hsame; auto|done].
    + intros id s Hs. eapply sub_ok_grows; [done|auto].
    + intros m Hin k Hk. eapply sub_ok_grows; [done|by apply Hw].
    + intros m Hin. eapply sub_ok_grows; [done|by apply Htw].
  - intros i k p Hi Hp. destruct (Hm i k p Hi Hp) as [?|?]; [|done]. eapply aba_legit_grows; [done|by eapply av_sent].
  - intros i k p Hi Hp. destruct (Ht i k p Hi Hp) as [?|?]; [|done]. eapply term_legit_grows; [done|by eapply av_tsent].
Qed.

Lemma abc_inv_init : abc_inv (λ _, aba_net_init mb) abc_init.
Proof.
  split; simpl.
  - apply beb_inv_init.
  - intros id. constructor.
  - intros j. split; simpl; [apply chan_inv_init| |done|..].
    + split; simpl; [done|done| |done]. intros id d Hd. by apply not_elem_of_nil in Hd.
    + intros id s Hs. by apply not_elem_of_nil in Hs.
    + intros m Hm. by apply not_elem_of_nil in Hm.
    + intros m Hm. by apply not_elem_of_nil in Hm.
  - intros j k p _ Hp. by apply not_elem_of_nil in Hp.
  - intros j k p _ Hp. by apply not_elem_of_nil in Hp.
Qed.

(** *** Steps of a channel *)

Lemma node_ok_chan A A' j N c got mw tw :
  abc_node_ok A j N → nets_grow A A' → chan_inv c got → chan_rel A' j c got →
  mw_beb mw = mcode → tw_beb tw = tcode →
  (∀ id s, (id, s) ∈ pending c → (id, s) ∈ pending (ap_chan N) ∨ sub_ok A' id s) →
  (∀ m, m ∈ mw_output mw → m ∈ mw_output (ap_mw N) ∨ msg_ok A' m) →
  (∀ m, m ∈ tw_output tw → m ∈ tw_output (ap_tw N) ∨ term_ok A' m) →
  abc_node_ok A' j (AbcNode c got mw tw).
Proof.
  intros [] Hg Hc Hr Hb1 Hb2 Hp Hm Ht. split; simpl; try done.
  - intros id s Hs. destruct (Hp id s Hs) as [?|?]; [|done]. eapply sub_ok_grows; [done|auto].
  - intros m Hs. destruct (Hm m Hs) as [Hx|?]; [|done]. intros k Hk. eapply sub_ok_grows; [done|by apply no_mw0].
  - intros m Hs. destruct (Ht m Hs) as [Hx|?]; [|done]. eapply sub_ok_grows; [done|by apply no_tw0].
Qed.

Lemma chan_rel_ext A j c c' got :
  chan_rel A j c got → heap c' = heap c → ch_n c' = ch_n c → ch_f c' = ch_f c → chan_rel A j c' got.
Proof. intros [] Hh Hn Hf. split; rewrite ?Hh, ?Hn, ?Hf; done. Qed.

Lemma chan_rel_put A A' j c got id a a' :
  chan_rel A j c got → heap c !! id = Some a → (∀ id', id' ≠ id → A' id' j = A id' j) →
  log_grows (A id j) (A' id j) → inst_rel (A' id j) a' → chan_rel A' j (put_instance id a' c) got.
Proof.
  intros [] Ha Hne Hg Hi. split; simpl; [| | |done].
  - intros id' a1. destruct (decide (id' = id)) as [->|Hd]; [rewrite lookup_insert_eq; by intros [= <-]|].
    rewrite lookup_insert_ne, Hne by done. auto.
  - intros id'. destruct (decide (id' = id)) as [->|Hd]; [by rewrite lookup_insert_eq|].
    rewrite lookup_insert_ne, Hne by done. auto.
  - intros id' d Hd. destruct (decide (id' = id)) as [->|Hn]; [by apply Hg, cr_got0|rewrite Hne by done; auto].
Qed.

Lemma chan_rel_same A j c got id a a' :
  chan_rel A j c got → heap c !! id = Some a → inst_rel (A id j) a' → chan_rel A j (put_instance id a' c) got.
Proof. intros Hc Ha Hi. by apply (chan_rel_put A A j c got id a). Qed.

Lemma chan_rel_upd A j c got id a a' e nd :
  chan_rel A j c got → heap c !! id = Some a → aba_exec (icoin id) e (A id j) = Some nd → inst_rel nd a' →
  chan_rel (upd_net A id j nd) j (put_instance id a' c) got.
Proof.
  intros Hc Ha Hex Hi. apply (chan_rel_put A _ j c got id a); [done|done| | |].
  - intros id' Hne. apply upd_net_ne. by left.
  - rewrite upd_net_eq. by eapply aba_exec_grows.
  - by rewrite upd_net_eq.
Qed.

Lemma getInstance_rel A j id c got : chan_inv c got → chan_rel A j c got → chan_rel A j (getInstance id c).1 got.
Proof.
  intros Hc []. unfold getInstance. case_decide; [done|]. case_decide as Hn; [done|].
  assert (Hno : heap c !! id = None).
  { destruct (heap c !! id) eqn:Hh; [|done]. destruct Hn. apply (ci_heap _ _ Hc). by eexists. }
  destruct cr_conf0 as [Hcn Hcf]. split; simpl; [| |done|done].
  - intros id' a [[<- <-]|[_ ?]]%lookup_insert_Some; [|auto]. rewrite cr_none0, Hcn, Hcf by done. apply inst_rel_start.
  - intros id' [? Hne]%lookup_insert_None. auto.
Qed.

Lemma getInstance_pending id c : pending (getInstance id c).1 = pending c.
Proof. unfold getInstance. case_decide; [done|]. by case_decide. Qed.

(** A step of one instance that is a step of its network. *)
Definition turned A (j : UUID) (N : abc_node) : Prop := ∃ A', nets_step A j A' ∧ nets_grow A A' ∧ abc_node_ok A' j N.

Lemma turned_upd A j N c got id a a' e :
  abc_node_ok A j N → Correct j → heap c !! id = Some a → chan_rel A j c (ap_got N) →
  aba_event_ok mb (inputs id) (A id) j e → simulated (icoin id) (A id j) e a' →
  chan_inv (put_instance id a' c) got → got = ap_got N →
  (∀ id s, (id, s) ∈ pending c → (id, s) ∈ pending (ap_chan N)) →
  turned A j (AbcNode (put_instance id a' c) got (ap_mw N) (ap_tw N)).
Proof.
  intros HN Hj Ha Hr Hok (nd & Hex & Hi) Hc -> Hp. exists (upd_net A id j nd).
  assert (Hst : nets_step A j (upd_net A id j nd)) by (by eapply nets_event).
  pose proof (nets_step_grow _ _ _ Hst) as Hg. split; [done|]. split; [done|].
  apply (node_ok_chan A _ j N); [done|done|done| |apply HN|apply HN|by left; auto|by left|by left].
  by eapply chan_rel_upd.
Qed.

Lemma turned_same A j N c got :
  abc_node_ok A j N → chan_inv c got → chan_rel A j c got →
  (∀ id s, (id, s) ∈ pending c → (id, s) ∈ pending (ap_chan N) ∨ sub_ok A id s) →
  turned A j (AbcNode c got (ap_mw N) (ap_tw N)).
Proof.
  intros HN Hc Hr Hp. exists A. split; [constructor|]. split; [apply nets_grow_refl|].
  apply (node_ok_chan A A j N); [done|apply nets_grow_refl|done|done|apply HN|apply HN|done|by left|by left].
Qed.

Lemma inner_event_ok C j id e : aba_event_ok mb (inputs id) C j (inner_event e).
Proof. by destruct e. Qed.

Lemma sub_ok_round A id k v x r : sub_ok A id (SubBca k v x r) → is_round r.
Proof. intros Hs. apply (Hs x). Qed.

Lemma chan_turn_ok A j N e N' :
  abc_node_ok A j N → Correct j → (∀ id est, e = CPropose id est → inputs id j est) →
  chan_turn e N = Some N' → turned A j N'.
Proof.
  intros HN Hj Hin Ht. pose proof (no_chan _ _ _ HN) as Hc. pose proof (no_rel _ _ _ HN) as Hr.
  assert (∃ c got, chan_exec e (ap_chan N, ap_got N) = Some (c, got) ∧ N' = AbcNode c got (ap_mw N) (ap_tw N) ∧
    match e with CMsg _ | CTerm _ | CListen _ _ | CCoin _ _ _ => False | _ => True end) as (c & got & Hex & -> & He).
  { unfold chan_turn in Ht. destruct e; try done; apply bind_Some in Ht as ([c got] & Hx & [= <-]); by exists c, got. }
  pose proof (chan_exec_inv e _ _ _ _ Hc Hex) as Hc'.
  destruct e as [id|msg|msg|i|id est|id e|id br|id i cn|id|id|id]; simpl in Hex; try done.
  - injection Hex as <- <-. apply turned_same; [done|done|by apply getInstance_rel|].
    intros i s. rewrite getInstance_pending. by left.
  - apply bind_Some in Hex as ([id s] & Hi & Hex). apply bind_Some in Hex as (a & Ha & Hex).
    apply bind_Some in Hex as (a' & Hs%done_some_inv & [= <- <-]).
    pose proof (no_pending _ _ _ HN id s (list_elem_of_lookup_2 _ _ _ Hi)) as Hok.
    eapply (turned_upd A j N _ _ id a a' (sub_event s)); [done|done|exact Ha|by eapply chan_rel_ext|apply Hok| |done|done|].
    + pose proof (sim_submit (icoin id) (A id j) a (cr_inst _ _ _ _ Hr id a Ha) s a' Hs) as Hsim.
      destruct s as [k v x r|d x]; apply Hsim; [by eapply sub_ok_round|done].
    + intros id' s' Hp. simpl in Hp. by eapply list_elem_of_delete_inv.
  - apply bind_Some in Hex as (a & Ha & Hex). apply bind_Some in Hex as (a' & Hs%done_some_inv & [= <- <-]).
    eapply (turned_upd A j N _ _ id a a' (APropose est)); [done|done|exact Ha|done|by apply Hin| |done|done|done].
    exact (sim_propose (icoin id) (A id j) a (cr_inst _ _ _ _ Hr id a Ha) est a' Hs).
  - apply bind_Some in Hex as (a & Ha & Hex). apply bind_Some in Hex as (o & Ho & Hex).
    apply bind_Some in Hex as (m & Hm%done_some_inv & [= <- <-]). subst o.
    eapply (turned_upd A j N _ _ id a _ (inner_event e)); [done|done|exact Ha|done|apply inner_event_ok| |done|done|done].
    exact (sim_inner (icoin id) (A id j) a (cr_inst _ _ _ _ Hr id a Ha) e m Ho).
  - apply bind_Some in Hex as (a & Ha & Hex). apply bind_Some in Hex as (a' & Hs & [= <- <-]).
    apply turned_same; [done|done| |by left]. eapply chan_rel_same; [done|exact Ha|].
    exact (rel_async _ a (cr_inst _ _ _ _ Hr id a Ha) a' Hs).
  - apply bind_Some in Hex as (a & Ha & Hex). apply bind_Some in Hex as ([a' d] & Hs & [= <- <-]).
    destruct (rel_get _ _ (cr_inst _ _ _ _ Hr id a Ha) a' d Hs) as [Hi Hd].
    apply turned_same; [done|done| |by left].
    destruct (chan_rel_same A j _ _ id a a' Hr Ha Hi) as [H1 H2 H3 H4]. split; [done|done| |done].
    intros id' d' [?|[= -> ->]%list_elem_of_singleton]%elem_of_app; [auto|done].
  - apply bind_Some in Hex as (a & Ha & Hex).
    pose proof (ii_open _ _ _ _ (ci_inst _ _ Hc id a Ha)) as (_ & _ & Hp). by destruct (ai_async a).
Qed.

Lemma coin_turn_ok A j N id i N' :
  abc_node_ok A j N → Correct j → coin_turn j id i N = Some N' → turned A j N'.
Proof.
  intros HN Hj Ht. pose proof (no_chan _ _ _ HN) as Hc. pose proof (no_rel _ _ _ HN) as Hr. unfold coin_turn in Ht.
  apply bind_Some in Ht as (a & Ha & Ht). apply bind_Some in Ht as (r & Hi & Ht).
  rewrite (Hcoin j id r Hj) in Ht.
  apply bind_Some in Ht as ([c got] & Hex & [= <-]). pose proof (chan_exec_inv _ _ _ _ _ Hc Hex) as Hc'.
  simpl in Hex. rewrite Ha in Hex. simpl in Hex. apply bind_Some in Hex as (o & Ho & Hex).
  apply bind_Some in Hex as (a' & ->%done_some_inv & [= <- <-]).
  destruct (sim_coin (icoin id) (A id j) a (cr_inst _ _ _ _ Hr id a Ha) i (common id r) r a' Hi eq_refl Ho) as [Hir Hs].
  by eapply (turned_upd A j N _ _ id a a' (ACoin r)).
Qed.

Lemma listener_turn_ok A j N br N' :
  abc_node_ok A j N → Correct j → abc_listener br N = Some N' → turned A j N'.
Proof.
  intros HN Hj Ht. pose proof (no_chan _ _ _ HN) as Hc. pose proof (no_rel _ _ _ HN) as Hr. pose proof (no_beb _ _ _ HN) as [Hb1 Hb2].
  exists A. split; [constructor|]. split; [apply nets_grow_refl|]. unfold abc_listener in Ht. destruct br as [x|x].
  - apply bind_Some in Ht as (m & Hm & [= <-]). apply list_elem_of_lookup_2 in Hm.
    pose proof (chan_exec_inv (CMsg m) _ _ _ _ Hc eq_refl) as Hc'.
    apply (node_ok_chan A A j N); [done|apply nets_grow_refl|done| |done|done| | |by left].
    + unfold processMiddlewareMsg. pose proof (getInstance_rel A j (am_instance m) _ _ Hc Hr) as Hg.
      destruct (getInstance (am_instance m) (ap_chan N)) as [c [err|]]; [done|].
      destruct (kind_of (am_kind m)); [|done]. by eapply chan_rel_ext.
    + intros id s. unfold processMiddlewareMsg. pose proof (getInstance_pending (am_instance m) (ap_chan N)) as Hp.
      destruct (getInstance (am_instance m) (ap_chan N)) as [c [err|]]; simpl in *; [rewrite Hp; by left|].
      destruct (kind_of (am_kind m)) as [k|] eqn:Hk; simpl; rewrite Hp; [|by left].
      intros [?|[= -> ->]%list_elem_of_singleton]%elem_of_app; [by left|right]. by apply (no_mw _ _ _ HN m).
    + intros m' Hm'. left. by eapply list_elem_of_delete_inv.
  - apply bind_Some in Ht as (m & Hm & [= <-]). apply list_elem_of_lookup_2 in Hm.
    pose proof (chan_exec_inv (CTerm m) _ _ _ _ Hc eq_refl) as Hc'.
    apply (node_ok_chan A A j N); [done|apply nets_grow_refl|done| |done|done| |by left|].
    + unfold processTermMsg. pose proof (getInstance_rel A j (tm_instance m) _ _ Hc Hr) as Hg.
      destruct (getInstance (tm_instance m) (ap_chan N)) as [c [err|]]; [done|]. by eapply chan_rel_ext.
    + intros id s. unfold processTermMsg. pose proof (getInstance_pending (tm_instance m) (ap_chan N)) as Hp.
      destruct (getInstance (tm_instance m) (ap_chan N)) as [c [err|]]; simpl in *; rewrite Hp; [by left|].
      intros [?|[= -> ->]%list_elem_of_singleton]%elem_of_app; [by left|right]. by apply (no_tw _ _ _ HN m).
    + intros m' Hm'. left. by eapply list_elem_of_delete_inv.
Qed.

(** *** Messages *)

Lemma kind_of_code k : kind_of (aba_code k) = Some k.
Proof. by destruct k. Qed.

Lemma parse_bcast j k id x :
  j ∈ peers mb → is_round (rnum x) → 0 ≤ val x ≤ bot →
  aba_parseMsg SerializePublicKey (bcast_of k id x) (pk_of j) = Ok (AbaMsg j id (aba_code k) (rnum x) (val x)).
Proof.
  intros Hj Hr Hv. apply aba_parseMsg_Ok. split_and!; [by apply Hpk|unfold on_wire, is_round, bot in *; simpl; lia|].
  exists []. rewrite app_nil_r. by destruct k.
Qed.

Lemma parse_decision j id d :
  j ∈ peers mb → bit d →
  term_processMsg SerializePublicKey (broadcastDecision id d) (pk_of j) = Ok (TerminationMsg j id d).
Proof.
  intros Hj Hd. unfold term_processMsg. rewrite (Hpk j Hj). apply term_parseMsg_Ok.
  split_and!; simpl; [done|lia|lia|]. exists []. by rewrite app_nil_r.
Qed.

Lemma taken_msg_ok A S k x m T amsg :
  abc_inv A S → Correct k → beb_take k x (ap_net S) = Some (mcode, m, T) →
  aba_parseMsg SerializePublicKey (beb_Content m) (beb_Sender m) = Ok amsg → msg_ok A amsg.
Proof.
  intros HS Hk Ht Hp k' Hk' j. destruct (beb_take_from _ _ _ _ _ _ _ _ _ (av_net _ _ HS) Ht) as (s & Hs & Hor & Hsent).
  assert (Hsp : s ∈ peers mb) by (destruct Hor as [->|?]; [apply Hk|done]). rewrite Hs in Hp.
  simpl. destruct (decide (s ∈ faulty mb)) as [Hf|Hf].
  - apply aba_parseMsg_Ok in Hp as (Hid & [Hr _] & _). rewrite Hpk in Hid by done. injection Hid as <-.
    split_and!; [exact Hr|done|by left].
  - destruct (av_sent _ _ HS s k _ Hf (Hsent Hf)) as (k0 & id & y & Hc & Hr & Hv & Hin).
    rewrite Hc, parse_bcast in Hp by done. injection Hp as <-. simpl in *.
    rewrite kind_of_code in Hk'. injection Hk' as <-. split_and!; [exact Hr|done|by right].
Qed.

Lemma taken_term_ok A S k x m T tm :
  abc_inv A S → Correct k → beb_take k x (ap_net S) = Some (tcode, m, T) →
  term_processMsg SerializePublicKey (beb_Content m) (beb_Sender m) = Ok tm → term_ok A tm.
Proof.
  intros HS Hk Ht Hp j. destruct (beb_take_from _ _ _ _ _ _ _ _ _ (av_net _ _ HS) Ht) as (s & Hs & Hor & Hsent).
  assert (Hsp : s ∈ peers mb) by (destruct Hor as [->|?]; [apply Hk|done]). rewrite Hs in Hp.
  simpl. destruct (decide (s ∈ faulty mb)) as [Hf|Hf].
  - unfold term_processMsg in Hp. rewrite Hpk in Hp by done. apply term_parseMsg_Ok in Hp as (-> & Hd & _).
    split_and!; [lia|done|by left].
  - destruct (av_tsent _ _ HS s k _ Hf (Hsent Hf)) as (id & d & Hc & Hd & Hin).
    rewrite Hc, parse_decision in Hp by done. injection Hp as <-. simpl. split_and!; [lia|done|by right].
Qed.

(** *** The listener of an instance *)

Lemma cast_effect_sent j n e N T T' i k m :
  cast_effect j n e N T = Some T' → (i, k, m) ∈ tr_sent T' →
  (i, k, m) ∈ tr_sent T ∨
  (i = j ∧ match e with
           | Beb b => m = generic :: mw_beb (ap_mw N) :: b
           | TermBeb b => m = generic :: tw_beb (ap_tw N) :: b
           | Toss _ => False
           end).
Proof. destruct e as [b|b|sd]; simpl; [by apply beb_cast_sent..|intros [= <-]; by left]. Qed.

Lemma cast_effect_inv j n e N T T' :
  beb_inv mb pk_of remote T → cast_effect j n e N T = Some T' → beb_inv mb pk_of remote T'.
Proof. intros HT. destruct e as [b|b|sd]; simpl; [by apply beb_cast_inv..|by intros [= <-]]. Qed.

Lemma do_effect_parts eff c :
  heap (do_effect eff c) = heap c ∧ ch_n (do_effect eff c) = ch_n c ∧ ch_f (do_effect eff c) = ch_f c ∧
  pending (do_effect eff c) = pending c.
Proof. by destruct eff. Qed.

(** What the listener broadcasts is legitimate, and its step is one of the network. *)
Lemma instance_turn_ok A j id br N a a' eff :
  abc_node_ok A j N → Correct j → (∀ id, aba_reachable (icoin id) mb (inputs id) (A id)) →
  heap (ap_chan N) !! id = Some a → aba_listener id br a = Some (Done (a', eff)) →
  ∃ A', nets_step A j A' ∧ nets_grow A A' ∧
    abc_node_ok A' j (set_chan (do_effect eff (put_instance id a' (ap_chan N))) N) ∧
    match eff with Beb b => aba_legit A' j b | TermBeb b => term_legit A' j b | Toss _ => True end.
Proof.
  intros HN Hj Hreach Ha Hl. pose proof (no_chan _ _ _ HN) as Hc. pose proof (no_rel _ _ _ HN) as Hr.
  set (c' := do_effect eff (put_instance id a' (ap_chan N))).
  assert (Hc' : chan_inv c' (ap_got N)).
  { apply (chan_exec_inv (CListen id br) _ _ _ _ Hc). simpl. rewrite Ha. simpl. rewrite Hl. done. }
  destruct (do_effect_parts eff (put_instance id a' (ap_chan N))) as (Hh & Hn & Hf & Hp).
  assert (Hdone : ∀ A', nets_step A j A' → chan_rel A' j (put_instance id a' (ap_chan N)) (ap_got N) →
    nets_step A j A' ∧ nets_grow A A' ∧ abc_node_ok A' j (set_chan c' N)).
  { intros A' Hst Hr'. pose proof (nets_step_grow _ _ _ Hst) as Hg. split; [done|]. split; [done|].
    apply (node_ok_chan A A' j N); [done..| |apply HN|apply HN| |by left|by left].
    - by eapply chan_rel_ext.
    - intros i s. unfold c'. rewrite Hp. by left. }
  pose proof (sim_listener (icoin id) (A id j) a (cr_inst _ _ _ _ Hr id a Ha) id br a' eff Hl) as Hsim.
  destruct br as [k i| |i].
  - destruct Hsim as (Hi & x & -> & Hrx & Hx).
    destruct (Hdone A (nets_same A j) (chan_rel_same A j _ _ id a a' Hr Ha Hi)) as (? & ? & ?).
    exists A. split_and!; [done..|]. exists k, id, x. split_and!; [done|exact Hrx| | |done];
      destruct (sent_value _ _ _ _ _ _ _ _ (Hreach id) Hj Hx) as [Hb|[Hb|Hb] ]; rewrite Hb; unfold bot; lia.
  - destruct Hsim as (d & nd & -> & Hex & Hi & Hd).
    pose proof (nets_event A j id AOutput nd Hj I Hex) as Hst.
    destruct (Hdone _ Hst (chan_rel_upd A j _ _ id a a' AOutput nd Hr Ha Hex Hi)) as (? & ? & ?).
    exists (upd_net A id j nd). split_and!; [done..|]. exists id, d. split; [done|].
    assert (Ho : d ∈ ab_out (upd_net A id j nd id j)) by (by rewrite upd_net_eq). split; [|done].
    exact (output_bit _ _ _ _ j d (nets_step_reach _ _ _ Hst Hreach id) Hj Ho).
  - destruct Hsim as (Hi & r & -> & _).
    destruct (Hdone A (nets_same A j) (chan_rel_same A j _ _ id a a' Hr Ha Hi)) as (? & ? & ?).
    by exists A.
Qed.

(** *** Every step keeps the invariant *)

Lemma abc_inv_turned A S j N :
  abc_inv A S → turned A j N → ∃ A', abc_inv A' (set_abc j N (ap_net S) S).
Proof.
  intros HS (A' & Hst & _ & HN). exists A'.
  apply (abc_inv_step A); [done|done|apply HS|done|by left|by left].
Qed.

Lemma abc_inv_instance A S j id br n S' :
  abc_inv A S → Correct j → abc_exec (AInstance j id br n) S = Some S' → ∃ A', abc_inv A' S'.
Proof.
  intros HS Hj. simpl. intros ([N T] & Hx & [= <-])%bind_Some. unfold instance_listener in Hx.
  apply bind_Some in Hx as (a & Ha & Hx). apply bind_Some in Hx as (o & Ho & Hx).
  apply bind_Some in Hx as ([a' eff] & ->%done_some_inv & Hx). apply bind_Some in Hx as (T' & HT & [= <- <-]).
  destruct (instance_turn_ok A j id br _ a a' eff (av_node _ _ HS j) Hj (av_reach _ _ HS) Ha Ho)
    as (A' & Hst & Hg & HN & Heff).
  exists A'. destruct (no_beb _ _ _ (av_node _ _ HS j)) as [Hb1 Hb2].
  apply (abc_inv_step A); [done|done|by eapply cast_effect_inv; [apply HS|]|done| |].
  - intros i k p _ Hp. destruct (cast_effect_sent _ _ _ _ _ _ _ _ _ HT Hp) as [?|[-> Hm]]; [by left|].
    right. destruct eff as [b|b|sd]; [|congruence|done]. rewrite Hb1 in Hm. by injection Hm as ->.
  - intros i k p _ Hp. destruct (cast_effect_sent _ _ _ _ _ _ _ _ _ HT Hp) as [?|[-> Hm]]; [by left|].
    right. destruct eff as [b|b|sd]; [congruence| |done]. rewrite Hb2 in Hm. by injection Hm as ->.
Qed.

(** A turn of a middleware. *)
Lemma abc_inv_middleware A S k x S' :
  abc_inv A S → Correct k →
  abc_exec (AMiddleware k x) S = Some S' ∨ abc_exec (ATermidware k x) S = Some S' → abc_inv A S'.
Proof.
  intros HS Hk He. pose proof (av_node _ _ HS k) as HN. destruct (no_beb _ _ _ HN) as [Hb1 Hb2].
  assert (∃ d T mw tw, beb_take k x (ap_net S) = Some (d, T) ∧
    S' = set_abc k (AbcNode (ap_chan (ap_node S k)) (ap_got (ap_node S k)) mw tw) T S ∧
    mw_beb mw = mcode ∧ tw_beb tw = tcode ∧
    (∀ m, m ∈ mw_output mw → m ∈ mw_output (ap_mw (ap_node S k)) ∨ msg_ok A m) ∧
    (∀ m, m ∈ tw_output tw → m ∈ tw_output (ap_tw (ap_node S k)) ∨ term_ok A m)) as (d & T & mw & tw & Ht & -> & Hm & Htm & Hmo & Hto).
  { destruct He as [He|He]; simpl in He; apply bind_Some in He as ([m T] & Hx & [= <-]).
    - unfold aba_mw_bebDeliver in Hx. apply bind_Some in Hx as ([[code bm] T1] & Ht & Hx). case_decide as Hcode; [|done].
      injection Hx as <- <-. subst code. rewrite Hb1 in Ht. eexists _, _, _, _. split; [exact Ht|]. split; [done|].
      unfold aba_mw_processMsg. destruct (aba_parseMsg _ _ _) as [am|?] eqn:Hp; (split_and!; [done|done| |by left]); [|by left].
      intros m [?| ->%list_elem_of_singleton]%elem_of_app; [by left|right]. by eapply taken_msg_ok.
    - unfold term_mw_brbDeliver in Hx. apply bind_Some in Hx as ([[code bm] T1] & Ht & Hx). case_decide as Hcode; [|done].
      injection Hx as <- <-. subst code. rewrite Hb2 in Ht. eexists _, _, _, _. split; [exact Ht|]. split; [done|].
      unfold term_mw_processMsg. destruct (term_processMsg _ _ _) as [tm|?] eqn:Hp; (split_and!; [done|done|by left|]); [|by left].
      intros m [?| ->%list_elem_of_singleton]%elem_of_app; [by left|right]. by eapply taken_term_ok. }
  pose proof (beb_take_sent _ _ _ _ _ Ht) as Hsent.
  apply (abc_inv_step A); [done|constructor|by eapply beb_take_inv; [apply HS|]| |rewrite Hsent; by left|rewrite Hsent; by left].
  intros Hg. apply (node_ok_chan A A k (ap_node S k)); try done; [apply HN|apply HN|by left].
Qed.

(** A step of the network or of another channel. *)
Lemma abc_inv_net A S T :
  abc_inv A S → beb_inv mb pk_of remote T →
  (∀ j k code p, code = mcode ∨ code = tcode → (j, k, generic :: code :: p) ∈ tr_sent T →
     (j, k, generic :: code :: p) ∈ tr_sent (ap_net S)) →
  abc_inv A (AbcStack (ap_node S) T).
Proof.
  intros HS HT Hs. destruct HS. split; simpl; [done|done|done|..]; intros j k p Hj Hp; [eapply av_sent0|eapply av_tsent0];
    try done; by eapply Hs; [auto|].
Qed.

Lemma abc_inv_exec A S e S' : abc_inv A S → abc_may e → abc_exec e S = Some S' → ∃ A', abc_inv A' S'.
Proof.
  intros HS [Hj Hin] He. destruct e as [k x|k x|k br|j id br n|j e|j id i|j code msg n|k x|e]; simpl in Hj.
  - exists A. by eapply abc_inv_middleware; eauto.
  - exists A. by eapply abc_inv_middleware; eauto.
  - simpl in He. apply bind_Some in He as (N & HN & [= <-]). eapply abc_inv_turned; [done|].
    eapply listener_turn_ok; [apply HS|done|done].
  - by eapply abc_inv_instance.
  - simpl in He. apply bind_Some in He as (N & HN & [= <-]). eapply abc_inv_turned; [done|].
    eapply chan_turn_ok; [apply HS|done| |done]. by intros id est ->.
  - simpl in He. apply bind_Some in He as (N & HN & [= <-]). eapply abc_inv_turned; [done|].
    eapply coin_turn_ok; [apply HS|done|done].
  - simpl in He. case_decide as Hc; [done|]. apply bind_Some in He as (T & HT & [= <-]).
    exists A. apply abc_inv_net; [done|by eapply beb_cast_inv; [apply HS|]|].
    intros i k c p Hcc Hp. destruct (beb_cast_sent _ _ _ _ _ _ _ _ _ _ HT Hp) as [?|[_ [= -> _]]]; [done|tauto].
  - simpl in He. apply bind_Some in He as ([[code m] T] & HT & He). case_decide; [done|]. injection He as <-.
    exists A. apply abc_inv_net; [done|by eapply beb_take_inv; [apply HS|]|]. by rewrite (beb_take_sent _ _ _ _ _ HT).
  - simpl in He. case_decide as Hf; [|done]. apply bind_Some in He as (T & HT & [= <-]).
    exists A. apply abc_inv_net; [done|by eapply beb_exec_inv; [apply HS|]|].
    intros j k c p Hc Hp. destruct (beb_exec_sent _ _ _ _ _ _ _ _ _ _ HT Hp) as [?|He]; [done|].
    exfalso. by apply (Hf _ _ _ He).
Qed.

Lemma abc_reachable_inv S : abc_reachable S → ∃ A, abc_inv A S.
Proof.
  revert S. apply (rtc_ind_r (R := abc_step) (λ S, ∃ A, abc_inv A S)); [eexists; apply abc_inv_init|].
  intros S S' _ [e S1 Ha He] [A HS]. by eapply abc_inv_exec.
Qed.

(** *** What the clients receive *)

Lemma abc_outputs A S j id d : abc_inv A S → Receives S j id d → Outputs (A id) j d.
Proof. intros HS. apply (no_rel _ _ _ (av_node _ _ HS j)). Qed.

Lemma abc_agree S i j id d d' :
  abc_reachable S → Correct i → Correct j → Receives S i id d → Receives S j id d' → d = d'.
Proof.
  intros [A HS]%abc_reachable_inv Hi Hj Hd%(abc_outputs A) Hd'%(abc_outputs A); [|done..].
  exact (agreement _ _ _ _ i j d d' (av_reach _ _ HS id) Hi Hj Hd Hd').
Qed.

Lemma abc_received_proposed S i id d :
  abc_reachable S → (∀ k est, Correct k → inputs id k est → bit est) → Correct i → Receives S i id d →
  ∃ k, Correct k ∧ inputs id k d.
Proof.
  intros [A HS]%abc_reachable_inv Hb Hi Hd%(abc_outputs A); [|done].
  exact (decided_proposed _ _ _ _ i d (av_reach _ _ HS id) Hb Hi Hd).
Qed.
End refinement.
End stack.

(** More proposals may be made. *)
Lemma abc_reachable_inputs {PublicKey : Type} (ser : PublicKey → option bytes) G mb pk_of remote mcode tcode coin
    (i1 i2 : UUID → UUID → Z → Prop) S :
  (∀ id j est, i1 id j est → i2 id j est) →
  abc_reachable ser G mb pk_of remote mcode tcode coin i1 S →
  abc_reachable ser G mb pk_of remote mcode tcode coin i2 S.
Proof.
  intros Hi. unfold abc_reachable. apply rtc_subrel. intros S1 S2 [e S' [Ha Hin] Hex].
  econstructor; [|done]. split; [done|]. destruct e as [| | | |j e| | | |]; try done. destruct e; try done. by apply Hi.
Qed.

(** ** Four processes, one instance *)

Module AbcExample.
Import Gf2 StackExample.

Definition aid : UUID := BytesToUUID ["a"; "b"; "a"]%byte.
(** The coin is 1; the faulty process would get 0. *)
Definition acoin (id : UUID) (r : Z) : bool := true.
Definition acoins (j id : UUID) (r : Z) : bool := bool_decide (j ≠ k4).
Definition ainputs (id j : UUID) (est : Z) : Prop := est = 1.

#[export] Instance abc_may_dec e : Decision (abc_may mbk (PublicKey := bytes) ainputs e).
Proof.
  unfold abc_may, ainputs. apply and_dec; [destruct (abc_actor e); apply _|].
  destruct e as [| | | |j []| | | |]; apply _.
Defined.

Definition inner_events : list mmr_inner :=
  [I_listen 0 (inl CEcho); I_go 0 GoVote CApprove; I_go 0 GoVote CVote; I_listen 0 (inl CVote);
   I_go 0 GoBind CBindVal; I_go 0 GoBind CBind; I_listen 0 (inl CBind);
   I_go 0 GoDecide CTermVal; I_go 0 GoDecide COut; I_exec 0; I_exec 0; I_listen 0 (inr tt);
   I_reach true; I_reach false].
(** Everything [j] can do in one round. *)
Definition aturn (j : UUID) : list (abc_event (PublicKey := bytes)) :=
  ((λ i, ANet (TRead i j (knode j))) <$> filter (λ i, i ≠ j) [k1; k2; k3; k4]) ++
  [ANet (TSelf j 0 (knode j))] ++
  flat_map (λ _, [AMiddleware j 0; ATermidware j 0; AListener j (inl 0%nat); AListener j (inr 0%nat); AChan j (CSubmit 0)])
    [1; 2; 3; 4]%nat ++
  ((λ e, AChan j (CInner aid e)) <$> inner_events) ++
  [AInstance j aid (L_bcast KEcho 0) (knode j); AInstance j aid (L_bcast KVote 0) (knode j);
   AInstance j aid (L_bcast KBind 0) (knode j); AInstance j aid (L_coin 0) (knode j); AToss j aid 0;
   AInstance j aid L_decision (knode j); AChan j (CAsync aid); AChan j (CAsync aid); AChan j (CGet aid)] ++
  ('(g, _) ← [(0, 0); (0, 1); (0, 2); (1, 0); (1, 1); (1, 2); (2, 0); (2, 1); (2, 2); (3, 0); (3, 1); (3, 2)]%nat;
   [ANet (TWrite j g)]).
Definition around : list (abc_event (PublicKey := bytes)) := k ← [k1; k2; k3]; aturn k.
(** The faulty process votes for 0, and writes something unreadable. *)
Definition arun : list (abc_event (PublicKey := bytes)) :=
  [AChan k1 (CNew aid); AChan k1 (CPropose aid 1); AChan k2 (CNew aid); AChan k2 (CPropose aid 1);
   AChan k3 (CNew aid); AChan k3 (CPropose aid 1);
   ANet (TBytes k4 k2 (ov_send (generic :: "A"%byte :: broadcastVote aid 0 0)));
   ANet (TBytes k4 k2 (ov_send [generic; "B"; "z"]%byte))] ++
  around ++ around ++ around ++ around ++ around ++ around.

#[local] Abbreviation exec := (abc_exec ser gf2 mbk key_of kremote "A"%byte "B"%byte acoins).
#[local] Abbreviation reachable := (abc_reachable ser gf2 mbk key_of kremote "A"%byte "B"%byte acoins ainputs).
(** Events that are not enabled are left out. *)
Definition aexec (l : list abc_event) (S : abc_stack) : abc_stack :=
  foldl (λ S e, if bool_decide (abc_may mbk ainputs e) then default S (exec e S) else S) S l.
Definition aS : abc_stack := aexec arun (abc_init mbk "A" "B").

Lemma aexec_reachable l S : reachable S → reachable (aexec l S).
Proof.
  unfold aexec. revert S. induction l as [|e l IH]; intros S HS; simpl; [done|]. apply IH.
  destruct (bool_decide (abc_may mbk ainputs e)) eqn:Ha; [|done]. apply bool_decide_eq_true_1 in Ha.
  destruct (exec e S) as [S'|] eqn:E; [|done]. simpl. eapply rtc_r; [done|]. by econstructor.
Qed.

Lemma aS_reachable : reachable aS.
Proof. apply aexec_reachable. constructor. Qed.

Lemma acoins_common : common_coin mbk acoins acoin.
Proof.
  intros j id r [_ Hj]. apply bool_decide_eq_true_2. intros ->. apply Hj. by apply elem_of_singleton.
Qed.

Lemma aS_receives : Receives aS k2 aid 1 ∧ Receives aS k3 aid 1.
Proof. split; apply (list_elem_of_lookup_2 _ 0); vm_compute; reflexivity. Qed.
End AbcExample.
Import Gf2 StackExample AbcExample.

(** ** Theorems *)

(** C33: the stack implements the agreement networks.  The channels of the
    processes, fed by their middlewares from the bytes on their connections, are
    for every identifier a run of the network of agreement instances, with the
    coin that the correct processes get for that identifier and the proposals its
    clients make; and a decision a client receives is an output of its process in
    that run.  The condition [common_coin]: the coin channels of the correct
    processes output the same coin for the same instance and round. *)
Theorem aba_stack_refines {PublicKey : Type} (SerializePublicKey : PublicKey → option bytes) (G : CirclGroup)
    (mb : membership UUID) `{!Resilient mb} (pk_of : UUID → PublicKey) (remote : UUID → nat → UUID)
    (mcode tcode : byte) (coin : UUID → UUID → Z → bool) (common : UUID → Z → bool)
    (inputs : UUID → UUID → Z → Prop) (S : abc_stack) :
  mcode ≠ tcode → (∀ j, j ∈ peers mb → PkToUUID SerializePublicKey (pk_of j) = Some j) →
  common_coin mb coin common →
  abc_reachable SerializePublicKey G mb pk_of remote mcode tcode coin inputs S →
  ∃ A : UUID → aba_config, ∀ id,
    aba_reachable (λ r, coin_byte (common id r)) mb (inputs id) (A id) ∧
    ∀ j d, Receives S j id d → Outputs (A id) j d.
Proof.
  intros Hcodes Hpk Hcoin HS. destruct (abc_reachable_inv _ _ _ _ _ _ _ _ _ Hcodes Hpk _ Hcoin S HS) as [A HA].
  exists A. intros id. split; [apply HA|]. intros j d. by eapply abc_outputs.
Qed.

Lemma aba_stack_refines_witness :
  Receives aS k2 aid 1 ∧ ∃ A : UUID → aba_config, ∀ id,
    aba_reachable (λ r, coin_byte (acoin id r)) mbk (ainputs id) (A id) ∧
    ∀ j d, Receives aS j id d → Outputs (A id) j d.
Proof.
  split; [exact (proj1 aS_receives)|].
  exact (aba_stack_refines ser gf2 mbk key_of kremote "A"%byte "B"%byte acoins acoin ainputs aS ltac:(done) key_names acoins_common aS_reachable).
Defined.

(** C3: agreement and validity of binary agreement, from bytes to clients.  The
    decisions that two correct processes receive from their instances of one
    identifier are the same bit, each receives it once, and it is the proposal of
    all correct processes if these have proposed the same; on condition that the
    coin is common ([common_coin]: the coin channels of the correct processes
    output the same coin for the same instance and round). *)
Theorem aba_stack_agreement {PublicKey : Type} (SerializePublicKey : PublicKey → option bytes) (G : CirclGroup)
    (mb : membership UUID) `{!Resilient mb} (pk_of : UUID → PublicKey) (remote : UUID → nat → UUID)
    (mcode tcode : byte) (coin : UUID → UUID → Z → bool) (common : UUID → Z → bool)
    (inputs : UUID → UUID → Z → Prop) (S : abc_stack) i j id d d' :
  mcode ≠ tcode → (∀ j, j ∈ peers mb → PkToUUID SerializePublicKey (pk_of j) = Some j) →
  common_coin mb coin common →
  abc_reachable SerializePublicKey G mb pk_of remote mcode tcode coin inputs S →
  bca_correct mb i → bca_correct mb j → Receives S i id d → Receives S j id d' →
  d = d' ∧ bit d ∧ got_of id (ap_got (ap_node S i)) = [d] ∧
  ∀ v, bit v → (∀ k est, bca_correct mb k → inputs id k est → est = v) → d = v.
Proof.
  intros Hcodes Hpk Hcoin HS Hi Hj Hd Hd'. destruct (abc_reachable_inv _ _ _ _ _ _ _ _ _ Hcodes Hpk _ Hcoin S HS) as [A HA].
  pose proof (av_reach _ _ _ _ _ _ _ _ _ HA id) as Hr. pose proof (av_node _ _ _ _ _ _ _ _ _ HA) as HN.
  assert (Ho : Outputs (A id) i d) by (by eapply abc_outputs).
  split_and!.
  - exact (abc_agree _ _ _ _ _ _ _ _ _ Hcodes Hpk _ Hcoin S i j id d d' HS Hi Hj Hd Hd').
  - exact (output_bit _ _ _ _ i d Hr Hi Ho).
  - exact (proj1 (got_sent _ _ id d (no_chan _ _ _ _ _ _ _ (HN i)) Hd)).
  - intros v Hv Hin. exact (validity _ _ _ _ i d v Hr Hv Hin Hi Ho).
Qed.

Lemma aba_stack_agreement_witness :
  1 = 1 ∧ bit 1 ∧ got_of aid (ap_got (ap_node aS k2)) = [1] ∧
  ∀ v, bit v → (∀ k est, bca_correct mbk k → ainputs aid k est → est = v) → 1 = v.
Proof.
  apply (aba_stack_agreement ser gf2 mbk key_of kremote "A"%byte "B"%byte acoins acoin ainputs aS k2 k3 aid 1 1
    ltac:(done) key_names acoins_common aS_reachable); [apply (bool_decide_unpack _); vm_compute; exact I..
    |exact (proj1 aS_receives)|exact (proj2 aS_receives)].
Defined.

(** C34: the instances are well typed.  In every instance at a correct process,
    round 0 runs the crusader agreement with internal validity and the others the
    one with external validity, all under 16-bit numbers; what waits to be
    broadcast is a bit or the default value of such a round, so it fits the
    message format; and a decision on its way to the client is a bit.  The coin is
    common ([common_coin]). *)
Theorem aba_stack_well_typed {PublicKey : Type} (SerializePublicKey : PublicKey → option bytes) (G : CirclGroup)
    (mb : membership UUID) `{!Resilient mb} (pk_of : UUID → PublicKey) (remote : UUID → nat → UUID)
    (mcode tcode : byte) (coin : UUID → UUID → Z → bool) (common : UUID → Z → bool)
    (inputs : UUID → UUID → Z → Prop) (S : abc_stack) j id a :
  mcode ≠ tcode → (∀ j, j ∈ peers mb → PkToUUID SerializePublicKey (pk_of j) = Some j) →
  common_coin mb coin common →
  abc_reachable SerializePublicKey G mb pk_of remote mcode tcode coin inputs S →
  bca_correct mb j → heap (ap_chan (ap_node S j)) !! id = Some a →
  (∀ r rd, rounds (ai_mmr a) !! r = Some rd →
     is_round r ∧ match rd_bca rd with IV _ => r = 0 | EV _ => r ≠ 0 end) ∧
  (∀ k x, x ∈ deliver_bag k (ai_mmr a) → is_round (rnum x) ∧ (val x = 0 ∨ val x = 1 ∨ val x = bot)) ∧
  (∀ d, d ∈ handed a → bit d).
Proof.
  intros Hcodes Hpk Hcoin HS Hj Ha. destruct (abc_reachable_inv _ _ _ _ _ _ _ _ _ Hcodes Hpk _ Hcoin S HS) as [A HA].
  pose proof (av_reach _ _ _ _ _ _ _ _ _ HA id) as Hr. pose proof (av_node _ _ _ _ _ _ _ _ _ HA j) as HN.
  destruct (cr_inst _ _ _ _ _ (no_rel _ _ _ _ _ _ _ HN) id a Ha) as [[b Hb] Hbag _ Hround Hhand].
  pose proof (mo_kind _ _ (ai_ok _ _ _ (an_node _ _ _ _ (aba_reachable_ok _ _ _ _ Hr) j Hj))) as Hk.
  rewrite Hb in Hk. split_and!.
  - intros r rd Hrd. split; [by apply Hround; exists rd|]. exact (Hk r rd Hrd).
  - intros k x Hx. destruct (Hbag k x Hx) as [Hir Hv]. split; [done|]. exact (sent_value _ _ _ _ _ j k _ Hr Hj Hv).
  - intros d Hd. exact (output_bit _ _ _ _ j d Hr Hj (Hhand d Hd)).
Qed.

Lemma aba_stack_well_typed_witness :
  ∃ a, heap (ap_chan (ap_node aS k2)) !! aid = Some a ∧
    ∀ r rd, rounds (ai_mmr a) !! r = Some rd → is_round r ∧ match rd_bca rd with IV _ => r = 0 | EV _ => r ≠ 0 end.
Proof.
  destruct (heap (ap_chan (ap_node aS k2)) !! aid) as [a|] eqn:Ha.
  - exists a. split; [reflexivity|].
    apply (aba_stack_well_typed ser gf2 mbk key_of kremote "A"%byte "B"%byte acoins acoin ainputs aS k2 aid a
      ltac:(done) key_names acoins_common aS_reachable); [apply (bool_decide_unpack _); vm_compute; exact I|exact Ha].
  - exfalso. assert (H : (if heap (ap_chan (ap_node aS k2)) !! aid is Some _ then true else false) = true)
      by (vm_compute; reflexivity). rewrite Ha in H. discriminate H.
Defined.
