(* ===== verification/System.v ===== *)
(** * The whole program: [main.go]

    A process is a broadcast channel, an agreement channel and a common subset
    channel over one node ([computeBkrChannel]), and the loop that proposes what
    its user types ([participateBKR]).  The stacks of [BrbStack] and [AbaStack]
    share the connections of [BebNetwork]; the common subset channel of
    [BkrChannel] is fed by the deliveries of the first and decides by the second.

    A run of the program is a run of each stack and of the network of common
    subset channels, so the processes that finish an instance print the same
    proposals, whatever the faulty processes write on their connections. *)

From stdpp Require Import base tactics numbers list fin_sets gmap functions relations pretty.
From Stdlib Require Import Init.Byte FunctionalExtensionality.
From Stdlib Require Strings.String.
From S2P Require Import Prelude Utils BrbInstance BrbSpec BrbNetwork BrbMiddleware BrbChannel Bca BcaNet AbaNetwork AbaWire AbaChannel AbaProject Acs AcsNetwork BkrChannel CoinGroup CoinWire Overlay BebNetwork BrbStack AbaStack.

Local Open Scope Z_scope.
Local Open Scope list_scope.

(** [utils.BytesToUUID([]byte(fmt.Sprintf("bkr-%d", i)))] *)
Definition participate_id (i : nat) : UUID :=
  BytesToUUID (String.list_byte_of_string ("bkr-" +:+ pretty (N.of_nat i))).

(** The channels [computeBkrChannel] attaches to its node. *)
Definition main_observers (dealCode ctCode abaCode tCode bkrCode : byte) : list observer :=
  [SSChannel dealCode; BEBChannel ctCode; BEBChannel abaCode; BEBChannel tCode; BEBChannel bkrCode].

(** The binary agreement of a participant's proposal ([computeAcceptors]). *)
Definition acceptor_id (bkrId proposer : UUID) : UUID := BytesToUUID (uuid_bytes bkrId ++ uuid_bytes proposer).

Section system.
Context {PublicKey : Type} (SerializePublicKey : PublicKey → option bytes) (G : CirclGroup).
Context (mb : membership UUID) (msgs : list bytes).
Context (pk_of : UUID → PublicKey) (remote : UUID → nat → UUID).
(** The participants; the identifiers of instances that occur, those of
    [participateBKR] first; the codes of the three broadcast channels; the coins each
    process gets from its coin channel. *)
Context (ps ids : list UUID) (bcode mcode tcode : byte) (coin : UUID → UUID → Z → bool).

#[local] Abbreviation Node := (@Node PublicKey).
#[local] Abbreviation beb_net := (@beb_net PublicKey).
#[local] Abbreviation abc_node := (@abc_node).

(** ** A process *)

(** [sp_inputs]: the proposals its user has typed, one per instance;
    [sp_printed]: the outputs it has printed. *)
Record process := Process {
  sp_brb : brb_node;
  sp_abc : abc_node;
  sp_bkr : BKRChannel;
  sp_inputs : list bytes;
  sp_printed : list (list bytes);
}.

Record system := System {
  sy_proc : UUID → process;
  sy_net : beb_net;
  sy_made : list (UUID * UUID * bytes);
}.

(** What each layer sees. *)
Definition brb_of (S : system) : brb_stack := BrbStack (λ j, sp_brb (sy_proc S j)) (sy_net S) (sy_made S).
Definition abc_of (S : system) : abc_stack := AbcStack (λ j, sp_abc (sy_proc S j)) (sy_net S).
Definition bkr_of (S : system) : bkr_config := λ j, sp_bkr (sy_proc S j).

Definition set_proc (j : UUID) (P : process) (S : system) : system :=
  System (<[j := P]> (sy_proc S)) (sy_net S) (sy_made S).
Definition with_net (T : beb_net) (S : system) : system := System (sy_proc S) T (sy_made S).

Definition with_brb (j : UUID) (B : brb_stack) (S : system) : system :=
  let P := sy_proc S j in
  System (<[j := Process (bs_node B j) (sp_abc P) (sp_bkr P) (sp_inputs P) (sp_printed P)]> (sy_proc S))
    (bs_net B) (bs_made B).
Definition with_abc (j : UUID) (N : abc_node) (T : beb_net) (S : system) : system :=
  let P := sy_proc S j in
  System (<[j := Process (sp_brb P) N (sp_bkr P) (sp_inputs P) (sp_printed P)]> (sy_proc S)) T (sy_made S).
Definition with_bkr (j : UUID) (c : BKRChannel) (N : abc_node) (S : system) : system :=
  let P := sy_proc S j in
  set_proc j (Process (sp_brb P) N c (sp_inputs P) (sp_printed P)) S.

(** [computeBkrChannel], once the node has joined the network. *)
Definition computeBkrChannel : process :=
  Process (BrbNode (NewBRBChannel (mb_n mb) (mb_f mb)) [] [])
    (AbcNode (NewAbaChannel (mb_n mb) (mb_f mb)) [] (newABAMiddleware mcode) (newTerminationMiddleware tcode))
    (NewBKRChannel (mb_f mb) ps) [] [].

Definition sys_init : system := System (λ _, computeBkrChannel) beb_net_init [].

(** ** Calls between the channels *)

Definition instance_at (id : UUID) (c : BKRChannel) : bkr := default (newBKR id (bc_f c) (participants c)) (instances c !! id).

(** What the instance [id] has asked of the agreement channel in a step: its
    acceptors open their agreements when it is created, and propose. *)
Definition opened (id : UUID) (c c' : BKRChannel) : list chan_event :=
  match instances c !! id, instances c' !! id with
  | None, Some b => (λ a, CNew (pa_abaId a)) <$> acceptors b
  | _, _ => []
  end.
Definition proposals (b b' : bkr) : list chan_event :=
  concat (zip_with (λ a a', CPropose (pa_abaId a') <$> drop (length (aba a)) (aba a')) (acceptors b) (acceptors b')).
Definition calls (id : UUID) (c c' : BKRChannel) : list chan_event :=
  opened id c c' ++ proposals (instance_at id c) (instance_at id c').

Fixpoint do_calls (es : list chan_event) (N : abc_node) : option abc_node :=
  match es with
  | [] => Some N
  | e :: es => N ← chan_turn e N; do_calls es N
  end.

(** [listenBroadcasts], on what [BrbDeliver] has handed over. *)
Fixpoint listenBroadcasts (l : list (UUID * BRBMsg)) (c : BKRChannel) : option BKRChannel :=
  match l with
  | [] => Some c
  | (_, o) :: l => '(c, _) ← done_opt (processBroadcast o c); listenBroadcasts l c
  end.

(** [GetOutput] of an acceptor's agreement, and what [waitResponse] does with it. *)
Definition acceptor_output (id : UUID) (k : nat) (P : process) : option (BKRChannel * abc_node) :=
  b ← instances (sp_bkr P) !! id; a ← acceptors b !! k;
  N ← chan_turn (CGet (pa_abaId a)) (sp_abc P);
  '(_, d) ← last (ap_got N);
  b ← acceptor_decide k d b;
  Some (set_instances (<[id := b]> (instances (sp_bkr P))) (sp_bkr P), N).

(** ** The system *)

Inductive sys_event :=
| YInput (j : UUID) (x : bytes) (nonce : Z) (n : Node)
| YOpen (j : UUID)
| YPrint (j : UUID) (l : list bytes)
| YListen (k iid : UUID)
| YCommand (k : UUID) (i : nat)
| YInner (k id : UUID) (e : acs_event)
| YDecide (k id : UUID) (x : nat)
| YBrb (e : @brb_stack_event PublicKey)
| YAbc (e : @abc_event PublicKey)
| YOther (j : UUID) (code : byte) (msg : bytes) (n : Node)
| YTake (k : UUID) (x : nat)
| YNet (e : @beb_event PublicKey).

(** The steps of each stack that are its own. *)
Definition brb_own (e : @brb_stack_event PublicKey) : option UUID :=
  match e with
  | SSignal j _ _ _ | SBebDeliver j _ | SDeliver j _ | SChan j (DSubmit _) => Some j
  | _ => None
  end.
Definition abc_own (e : @abc_event PublicKey) : option UUID :=
  match e with
  | AMiddleware j _ | ATermidware j _ | AListener j _ | AInstance j _ _ _ | AToss j _ _
  | AChan j (CSubmit _ | CInner _ _ | CAsync _ | CClose _) => Some j
  | _ => None
  end.

Definition bkr_own (e : acs_event) : bool := match e with EInput _ _ | EDecide _ => false | _ => true end.

#[local] Abbreviation brb_exec := (stack_exec SerializePublicKey G mb msgs pk_of remote bcode).
#[local] Abbreviation aba_exec := (abc_exec SerializePublicKey G mb pk_of remote mcode tcode coin).

(** Does [BRBroadcast] succeed?  When it does not, [main] panics. *)
Definition broadcasts (nonce : Z) (msg : bytes) (n : Node) : bool :=
  match BEBroadcast bcode (wrapSend nonce msg) n with Done (Ok _) => true | _ => false end.

(** A step of the common subset channel with its calls. *)
Definition bkr_turn (k id : UUID) (e : bkr_event) (S : system) : option system :=
  let c := bkr_of S k in
  c' ← bkr_exec (λ _ _, 0) e c;
  N ← do_calls (calls id c c') (sp_abc (sy_proc S k));
  Some (with_bkr k c' N S).

#[export] Instance raw_other_dec (e : @beb_event PublicKey) :
  Decision (∀ j k m, e = TRaw j k m → foreign bcode m ∧ elsewhere mcode tcode m).
Proof.
  destruct e as [|? ? m| | |]; try (by left).
  destruct (decide (foreign bcode m ∧ elsewhere mcode tcode m)); [left|right]; naive_solver.
Defined.

Definition sys_exec (e : sys_event) (S : system) : option system :=
  match e with
  | YInput j x nonce n =>
    let P := sy_proc S j in
    let i := length (sp_inputs P) in
    if decide (length (sp_printed P) = i ∧ ids !! i = Some (participate_id i) ∧
               broadcasts nonce (bkr_marshal (BkrProposalMsg (participate_id i) x)) n = true) then
      B ← brb_exec (SBroadcast j nonce (bkr_Propose (participate_id i) x true (sp_bkr P)).1.2 n) (brb_of S);
      Some (System (<[j := Process (sp_brb P) (sp_abc P) (sp_bkr P) (sp_inputs P ++ [x]) (sp_printed P)]> (sy_proc S))
              (bs_net B) (bs_made B))
    else None
  | YOpen j =>
    let P := sy_proc S j in
    let i := length (sp_printed P) in
    x ← sp_inputs P !! i; bkr_turn j (participate_id i) (NPropose (participate_id i) x) S
  | YPrint j l =>
    let P := sy_proc S j in
    let i := length (sp_printed P) in
    if decide (length (sp_inputs P) = Datatypes.S i) then
      b ← instances (sp_bkr P) !! participate_id i;
      if decide (l ∈ output b) then
        Some (set_proc j (Process (sp_brb P) (sp_abc P) (sp_bkr P) (sp_inputs P) (sp_printed P ++ [l])) S)
      else None
    else None
  | YListen k iid =>
    let c := sp_bkr (sy_proc S k) in
    B ← brb_exec (SChan k (DOutput iid)) (brb_of S);
    c' ← listenBroadcasts (drop (length (BrbDeliver (stack_chans (brb_of S) k))) (BrbDeliver (stack_chans B k))) c;
    let S := with_brb k B S in Some (with_bkr k c' (sp_abc (sy_proc S k)) S)
  | YCommand k i =>
    '(id, _, _) ← commands (bkr_of S k) !! i;
    if decide (id ∈ ids) then bkr_turn k id (NCommand i) S else None
  | YInner k id e => if bkr_own e then bkr_turn k id (NInner id e) S else None
  | YDecide k id x =>
    '(c, N) ← acceptor_output id x (sy_proc S k); Some (with_bkr k c N S)
  | YBrb e => j ← brb_own e; B ← brb_exec e (brb_of S); Some (with_brb j B S)
  | YAbc e => j ← abc_own e; A ← aba_exec e (abc_of S); Some (with_abc j (ap_node A j) (ap_net A) S)
  | YOther j code msg n =>
    if decide (code = bcode ∨ code = mcode ∨ code = tcode) then None
    else T ← beb_cast remote j code msg n (sy_net S); Some (with_net T S)
  | YTake k x =>
    '(code, _, T) ← beb_take k x (sy_net S);
    if decide (code = bcode ∨ code = mcode ∨ code = tcode) then None else Some (with_net T S)
  | YNet e =>
    if decide (∀ j k m, e = TRaw j k m → foreign bcode m ∧ elsewhere mcode tcode m)
    then T ← beb_exec G mb pk_of remote e (sy_net S); Some (with_net T S)
    else None
  end.

Definition sys_actor (e : sys_event) : option UUID :=
  match e with
  | YInput j _ _ _ | YOpen j | YPrint j _ | YListen j _ | YCommand j _ | YInner j _ _ | YDecide j _ _
  | YOther j _ _ _ | YTake j _ => Some j
  | YBrb e => actor e
  | YAbc e => abc_actor e
  | YNet _ => None
  end.

(** Correct processes run the program. *)
Definition sys_may (e : sys_event) : Prop := match sys_actor e with Some j => correct mb j | None => True end.

#[export] Instance sys_may_dec e : Decision (sys_may e).
Proof. unfold sys_may. destruct (sys_actor e); apply _. Defined.

Inductive sys_step (S : system) : system → Prop :=
| sys_event_step e S' : sys_may e → sys_exec e S = Some S' → sys_step S S'.

Definition sys_reachable (S : system) : Prop := rtc sys_step sys_init S.

(** Process [j] has printed [l] for its [i]-th instance. *)
Definition Prints (S : system) (j : UUID) (i : nat) (l : list bytes) : Prop := sp_printed (sy_proc S j) !! i = Some l.

(** ** Refinement *)

Lemma fn_map_insert {A B} (g : A → B) (k : UUID) (x : A) (f : UUID → A) :
  (λ j, g ((<[k := x]> f) j)) = <[k := g x]> (λ j, g (f j)).
Proof.
  apply functional_extensionality. intros j.
  destruct (decide (j = k)) as [->|]; [by rewrite !fn_lookup_insert|by rewrite !fn_lookup_insert_ne].
Qed.
Lemma fn_insert_same {A} (k : UUID) (x : A) (f : UUID → A) : x = f k → <[k := x]> f = f.
Proof.
  intros ->. apply functional_extensionality. intros j.
  destruct (decide (j = k)) as [->|]; [by rewrite fn_lookup_insert|by rewrite fn_lookup_insert_ne].
Qed.

Section refinement.
Context `{!Resilient mb} (Hcf : collision_free msgs).
(** A process is named by the hash of its key. *)
Context (Hpk : ∀ j, j ∈ peers mb → PkToUUID SerializePublicKey (pk_of j) = Some j).
Context (Hcodes : bcode ≠ mcode ∧ bcode ≠ tcode ∧ mcode ≠ tcode).
(** The hashes that name the acceptors differ. *)
Context (Haccs : NoDup (id ← ids; acceptor_id id <$> ps)).
(** The correct processes get the same coins. *)
Context (common : UUID → Z → bool) (Hcoin : common_coin mb coin common).

#[local] Abbreviation Correct := (correct mb).
#[local] Abbreviation brb_reachable := (brb_stack_reachable SerializePublicKey G mb msgs pk_of remote bcode).
#[local] Abbreviation brb_step := (brb_stack_step SerializePublicKey G mb msgs pk_of remote bcode).
#[local] Abbreviation aba_reachable := (abc_reachable SerializePublicKey G mb pk_of remote mcode tcode coin).
#[local] Abbreviation aba_step := (abc_step SerializePublicKey G mb pk_of remote mcode tcode coin).
Implicit Types (S : system) (c : BKRChannel).

(** The estimates the acceptors have proposed. *)
Definition asked (C : bkr_config) (aid j : UUID) (est : Z) : Prop :=
  ∃ id b k a, instances (C j) !! id = Some b ∧ acceptors b !! k = Some a ∧ pa_abaId a = aid ∧ est ∈ aba a.

(** What the reliable broadcasts have delivered at correct processes, and what the
    agreements decide. *)
Definition brbs_of (S : system) : list BRBMsg :=
  k ← elements (peers mb ∖ faulty mb); (BrbDeliver (stack_chans (brb_of S) k)).*2.
Definition decides (S : system) (dec : UUID → nat → Z) : Prop := ∀ j id k p d,
  Correct j → id ∈ ids → ps !! k = Some p → Receives (abc_of S) j (acceptor_id id p) d → dec id k = d.

Record sys_inv (S : system) : Prop := {
  yv_brb : brb_reachable (brb_of S);
  yv_abc : aba_reachable (asked (bkr_of S)) (abc_of S);
  yv_bkr dec : decides S dec → bkr_reachable mb ps (brbs_of S) dec (bkr_of S);
  yv_ids j id : is_Some (instances (bkr_of S j) !! id) → id ∈ ids;
  yv_made iid j m : j ∉ faulty mb → (iid, j, m) ∈ sy_made S → ∃ i x,
    sp_inputs (sy_proc S j) !! i = Some x ∧ ids !! i = Some (participate_id i) ∧
    m = bkr_marshal (BkrProposalMsg (participate_id i) x);
  yv_input j i x : sp_inputs (sy_proc S j) !! i = Some x → ids !! i = Some (participate_id i);
  yv_printed j i l : Prints S j i l →
    is_Some (sp_inputs (sy_proc S j) !! i) ∧ BkrOutputs (bkr_of S) (participate_id i) j l;
}.

(** An acceptor's agreement is no other's. *)
Lemma acceptor_ids_inj id id' k k' p p' :
  id ∈ ids → id' ∈ ids → ps !! k = Some p → ps !! k' = Some p' → acceptor_id id p = acceptor_id id' p' →
  id = id' ∧ k = k'.
Proof.
  induction ids as [|i l IH]; simpl in *; intros Hi Hi' Hp Hp' He; [by apply not_elem_of_nil in Hi|].
  apply list.NoDup_app in Haccs as (Hd & Hdis & Hrest).
  assert (Hin : ∀ p k, ps !! k = Some p → acceptor_id i p ∈ acceptor_id i <$> ps).
  { intros q kq Hq. apply list_elem_of_fmap. exists q. split; [done|]. by eapply list_elem_of_lookup_2. }
  assert (Hin' : ∀ i' p k, i' ∈ l → ps !! k = Some p → acceptor_id i' p ∈ (id ← l; acceptor_id id <$> ps)).
  { intros i' q kq Hi'' Hq. apply list_elem_of_bind. exists i'. split; [|done]. apply list_elem_of_fmap. exists q.
    split; [done|]. by eapply list_elem_of_lookup_2. }
  apply elem_of_cons in Hi as [->|Hi], Hi' as [->|Hi'].
  - split; [done|]. apply (NoDup_lookup (acceptor_id i <$> ps) k k' (acceptor_id i p)); [done|..];
      rewrite list_lookup_fmap; [by rewrite Hp|rewrite Hp'; simpl; by rewrite He].
  - exfalso. apply (Hdis (acceptor_id i p)); [by eapply Hin|]. rewrite He. by eapply Hin'.
  - exfalso. apply (Hdis (acceptor_id i p')); [by eapply Hin|]. rewrite <-He. by eapply Hin'.
  - by apply IH.
Qed.

(** *** What each layer sees of a step *)

Lemma brb_of_with_brb j B S :
  bs_node B = <[j := bs_node B j]> (bs_node (brb_of S)) → brb_of (with_brb j B S) = B.
Proof. intros HB. unfold brb_of, with_brb. simpl. rewrite (fn_map_insert sp_brb). simpl in *. rewrite <-HB. by destruct B. Qed.
Lemma abc_of_with_brb j B S : abc_of (with_brb j B S) = AbcStack (ap_node (abc_of S)) (bs_net B).
Proof. unfold abc_of, with_brb. simpl. f_equal. rewrite (fn_map_insert sp_abc). by apply fn_insert_same. Qed.
Lemma bkr_of_with_brb j B S : bkr_of (with_brb j B S) = bkr_of S.
Proof. unfold bkr_of, with_brb. simpl. rewrite (fn_map_insert sp_bkr). by apply fn_insert_same. Qed.

Lemma brb_of_with_abc j N T S : brb_of (with_abc j N T S) = BrbStack (bs_node (brb_of S)) T (bs_made (brb_of S)).
Proof. unfold brb_of, with_abc. simpl. f_equal. rewrite (fn_map_insert sp_brb). by apply fn_insert_same. Qed.
Lemma abc_of_with_abc j N T S : abc_of (with_abc j N T S) = AbcStack (<[j := N]> (ap_node (abc_of S))) T.
Proof. unfold abc_of, with_abc. simpl. f_equal. by rewrite (fn_map_insert sp_abc). Qed.
Lemma bkr_of_with_abc j N T S : bkr_of (with_abc j N T S) = bkr_of S.
Proof. unfold bkr_of, with_abc. simpl. rewrite (fn_map_insert sp_bkr). by apply fn_insert_same. Qed.

Lemma brb_of_with_bkr j c N S : brb_of (with_bkr j c N S) = brb_of S.
Proof. unfold brb_of, with_bkr. simpl. f_equal. rewrite (fn_map_insert sp_brb). by apply fn_insert_same. Qed.
Lemma abc_of_with_bkr j c N S : abc_of (with_bkr j c N S) = AbcStack (<[j := N]> (ap_node (abc_of S))) (sy_net S).
Proof. unfold abc_of, with_bkr. simpl. f_equal. by rewrite (fn_map_insert sp_abc). Qed.
Lemma bkr_of_with_bkr j c N S : bkr_of (with_bkr j c N S) = <[j := c]> (bkr_of S).
Proof. unfold bkr_of, with_bkr. simpl. by rewrite (fn_map_insert sp_bkr). Qed.

(** The inputs and outputs of the clients are left alone. *)
Definition same_clients (S S' : system) : Prop := ∀ i,
  sp_inputs (sy_proc S' i) = sp_inputs (sy_proc S i) ∧ sp_printed (sy_proc S' i) = sp_printed (sy_proc S i).

Lemma same_clients_refl S : same_clients S S.
Proof. done. Qed.
Lemma same_clients_trans S1 S2 S3 : same_clients S1 S2 → same_clients S2 S3 → same_clients S1 S3.
Proof. intros H1 H2 i. destruct (H1 i), (H2 i). split; congruence. Qed.
Lemma same_clients_proc S S' j P :
  sy_proc S' = <[j := P]> (sy_proc S) → sp_inputs P = sp_inputs (sy_proc S j) →
  sp_printed P = sp_printed (sy_proc S j) → same_clients S S'.
Proof.
  unfold same_clients. intros -> H1 H2 i. destruct (decide (i = j)) as [->|]; [by rewrite fn_lookup_insert|by rewrite fn_lookup_insert_ne].
Qed.
Lemma same_clients_brb j B S : same_clients S (with_brb j B S).
Proof. by eapply same_clients_proc. Qed.
Lemma same_clients_abc j N T S : same_clients S (with_abc j N T S).
Proof. by eapply same_clients_proc. Qed.
Lemma same_clients_bkr j c N S : same_clients S (with_bkr j c N S).
Proof. by eapply same_clients_proc. Qed.

(** *** A step of one stack is a step of another channel for the other *)

Lemma other_cast_aba I f T T' j code msg n :
  Correct j → code ≠ mcode → code ≠ tcode → beb_cast remote j code msg n T = Some T' →
  rtc (aba_step I) (AbcStack f T) (AbcStack f T').
Proof.
  intros Hj H1 H2 HT. apply rtc_once. apply (abc_event_step _ _ _ _ _ _ _ _ _ _ (AOther j code msg n)); [done|].
  simpl. rewrite decide_False by tauto. by rewrite HT.
Qed.
Lemma other_take_aba I f T T' k x code m :
  Correct k → code ≠ mcode → code ≠ tcode → beb_take k x T = Some (code, m, T') →
  rtc (aba_step I) (AbcStack f T) (AbcStack f T').
Proof.
  intros Hj H1 H2 HT. apply rtc_once. apply (abc_event_step _ _ _ _ _ _ _ _ _ _ (ATake k x)); [done|].
  simpl. rewrite HT. simpl. by rewrite decide_False by tauto.
Qed.
Lemma other_cast_brb f T T' ms j code msg n :
  Correct j → code ≠ bcode → beb_cast remote j code msg n T = Some T' →
  rtc brb_step (BrbStack f T ms) (BrbStack f T' ms).
Proof.
  intros Hj H1 HT. apply rtc_once. apply (stack_event_step _ _ _ _ _ _ _ _ (SOther j code msg n)); [done|].
  simpl. rewrite decide_False by done. by rewrite HT.
Qed.
Lemma other_take_brb f T T' ms k x code m :
  Correct k → code ≠ bcode → beb_take k x T = Some (code, m, T') →
  rtc brb_step (BrbStack f T ms) (BrbStack f T' ms).
Proof.
  intros Hj H1 HT. apply rtc_once. apply (stack_event_step _ _ _ _ _ _ _ _ (STake k x)); [done|].
  simpl. rewrite HT. simpl. by rewrite decide_False by done.
Qed.

(** A step of the broadcast stack of [j]: what the agreement stack sees of it. *)
Definition aba_sees (Bs B : brb_stack) (j : UUID) : Prop :=
  (∀ I f, rtc (aba_step I) (AbcStack f (bs_net Bs)) (AbcStack f (bs_net B))) ∧
  bs_node B = <[j := bs_node B j]> (bs_node Bs) ∧
  (∀ k, BrbDeliver (stack_chans Bs k) ⊆ BrbDeliver (stack_chans B k)) ∧
  (∀ iid i m, i ∉ faulty mb → (iid, i, m) ∈ bs_made B → (iid, i, m) ∈ bs_made Bs).

Lemma brb_own_sees e j Bs B :
  brb_own e = Some j ∨ (∃ iid, e = SChan j (DOutput iid)) → Correct j → brb_exec e Bs = Some B → aba_sees Bs B j.
Proof.
  intros He Hj Hex. unfold aba_sees.
  pose proof (λ k, stack_exec_delivers _ _ _ _ _ _ _ _ _ _ k Hex) as Hdel.
  assert (Hnode : ∀ N, bs_node B = <[j := N]> (bs_node Bs) → bs_node B = <[j := bs_node B j]> (bs_node Bs)).
  { intros N ->. by rewrite fn_lookup_insert. }
  destruct e as [| |k x|k x|k e'| | |]; try (by destruct He as [?|[? ?]]);
    try (destruct He as [[= ->]|[? ?]]; [|done]); simpl in Hex.
  - apply bind_Some in Hex as ([N T] & Hx & [= <-]). split_and!; [|by eapply Hnode|exact Hdel|done].
    intros I f. unfold broadcastMsgOnSignal in Hx. apply bind_Some in Hx as ([code id] & _ & Hx).
    apply bind_Some in Hx as (msg & _ & Hx). apply bind_Some in Hx as (T' & HT & [= <- <-]).
    eapply other_cast_aba; [done| | |exact HT]; tauto.
  - apply bind_Some in Hex as ([[m N] T] & Hx & Hex). case_decide; [|done]. injection Hex as <-.
    unfold mw_bebDeliver in Hx. apply bind_Some in Hx as ([[code bm] T'] & Ht & Hx). case_decide as Hc; [|done]. subst code.
    assert (T' = T) as -> by (by destruct (brbMiddleware_processMsg _ _ _); injection Hx as <- <- <-).
    split_and!; [|by eapply Hnode|exact Hdel|].
    + intros I f. eapply other_take_aba; [done| | |exact Ht]; tauto.
    + simpl. intros iid i m0 Hi [?|Hin]%elem_of_app; [done|]. unfold made_by in Hin. destruct m as [m|];
        [|by apply not_elem_of_nil in Hin]. case_decide as Hd; [|by apply not_elem_of_nil in Hin].
      apply list_elem_of_singleton in Hin as [= -> -> ->]. by destruct Hd.
  - apply bind_Some in Hex as (N & _ & [= <-]). split_and!; [done|by eapply Hnode|exact Hdel|done].
  - assert (k = j) as ->.
    { destruct He as [He|[? [= -> ->]]]; [|done]. destruct e'; try done. by injection He. }
    apply bind_Some in Hex as (N & _ & [= <-]). split_and!; [done|by eapply Hnode|exact Hdel|done].
Qed.

Lemma chan_exec_got e (c c' : AbaChannel) got got' : chan_exec e (c, got) = Some (c', got') → got ⊆ got'.
Proof.
  destruct e as [id|msg|msg|i|id est|id e|id br|id i cn|id|id|id]; simpl; intros Hex; try (by injection Hex as <- <-).
  - apply bind_Some in Hex as ([x s] & _ & (a & _ & (a' & _ & [= _ <-])%bind_Some)%bind_Some). done.
  - by apply bind_Some in Hex as (a & _ & (a' & _ & [= _ <-])%bind_Some).
  - by apply bind_Some in Hex as (a & _ & (o & _ & (m & _ & [= _ <-])%bind_Some)%bind_Some).
  - by apply bind_Some in Hex as (a & _ & (o & _ & ([a' m] & _ & [= _ <-])%bind_Some)%bind_Some).
  - by apply bind_Some in Hex as (a & _ & (o & _ & (a' & _ & [= _ <-])%bind_Some)%bind_Some).
  - by apply bind_Some in Hex as (a & _ & (a' & _ & [= _ <-])%bind_Some).
  - apply bind_Some in Hex as (a & _ & ([a' d] & _ & [= _ <-])%bind_Some). set_solver.
  - apply bind_Some in Hex as (a & _ & Hex). destruct (ai_async a); try done. by injection Hex as _ <-.
Qed.

Lemma chan_turn_got e N N' :
  chan_turn e N = Some N' → ap_got N ⊆ ap_got N' ∧ ap_mw N' = ap_mw N ∧ ap_tw N' = ap_tw N.
Proof.
  unfold chan_turn. destruct e; try done; intros ([c got] & Hex%chan_exec_got & [= <-])%bind_Some; done.
Qed.

(** A step of the agreement stack of [j]: what the broadcast stack sees of it. *)
Definition brb_sees (As A : abc_stack) (j : UUID) : Prop :=
  (∀ f ms, rtc brb_step (BrbStack f (ap_net As) ms) (BrbStack f (ap_net A) ms)) ∧
  ap_node A = <[j := ap_node A j]> (ap_node As) ∧ ap_got (ap_node As j) ⊆ ap_got (ap_node A j).

Lemma abc_own_sees e j As A :
  mw_beb (ap_mw (ap_node As j)) = mcode ∧ tw_beb (ap_tw (ap_node As j)) = tcode →
  abc_own e = Some j → Correct j → aba_exec e As = Some A → brb_sees As A j.
Proof.
  intros [Hm Ht] He Hj Hex.
  assert (Hset : ∀ N T, A = set_abc j N T As → (∀ f ms, rtc brb_step (BrbStack f (ap_net As) ms) (BrbStack f T ms)) →
    ap_got (ap_node As j) ⊆ ap_got N → brb_sees As A j).
  { intros N T -> HT Hg. split; [done|]. simpl. by rewrite fn_lookup_insert. }
  destruct e as [k x|k x|k br|j' id br n|j' e|j' id i|j' code msg n|k x|e]; try done.
  - injection He as ->. simpl in Hex. apply bind_Some in Hex as ([m T] & Hx & [= <-]).
    eapply Hset; [done| |done]. intros f ms. unfold aba_mw_bebDeliver in Hx.
    apply bind_Some in Hx as ([[code bm] T'] & HT & Hx). case_decide as Hc; [|done]. injection Hx as _ <-.
    eapply other_take_brb; [done| |exact HT]. rewrite Hc, Hm. intros ?. by destruct Hcodes.
  - injection He as ->. simpl in Hex. apply bind_Some in Hex as ([m T] & Hx & [= <-]).
    eapply Hset; [done| |done]. intros f ms. unfold term_mw_brbDeliver in Hx.
    apply bind_Some in Hx as ([[code bm] T'] & HT & Hx). case_decide as Hc; [|done]. injection Hx as _ <-.
    eapply other_take_brb; [done| |exact HT]. rewrite Hc, Ht. intros ?. by destruct Hcodes as (_ & ? & _).
  - injection He as ->. simpl in Hex. apply bind_Some in Hex as (N & Hx & [= <-]).
    eapply Hset; [done|done|]. unfold abc_listener in Hx.
    destruct br; by apply bind_Some in Hx as (? & _ & [= <-]).
  - injection He as ->. simpl in Hex. apply bind_Some in Hex as ([N T] & Hx & [= <-]). unfold instance_listener in Hx.
    apply bind_Some in Hx as (a & Ha & Hx). apply bind_Some in Hx as (o & Ho & Hx).
    apply bind_Some in Hx as ([a' eff] & Hd & Hx). apply bind_Some in Hx as (T' & HT & [= <- <-]).
    eapply Hset; [done| |done]. intros f ms. destruct eff as [b|b|sd]; simpl in HT.
    + eapply other_cast_brb; [done| |exact HT]. rewrite Hm. intros ?. by destruct Hcodes.
    + eapply other_cast_brb; [done| |exact HT]. rewrite Ht. intros ?. by destruct Hcodes as (_ & ? & _).
    + by injection HT as <-.
  - assert (j' = j) as -> by (destruct e; simpl in He; congruence).
    simpl in Hex. apply bind_Some in Hex as (N & Hx & [= <-]). eapply Hset; [done|done|]. by eapply chan_turn_got.
  - injection He as ->. simpl in Hex. apply bind_Some in Hex as (N & Hx & [= <-]). eapply Hset; [done|done|].
    unfold coin_turn in Hx. apply bind_Some in Hx as (a & _ & Hx). apply bind_Some in Hx as (r & _ & Hx).
    apply bind_Some in Hx as ([c got] & Hx%chan_exec_got & [= <-]). done.
Qed.

(** *** Calls of the common subset channel *)

Definition call_ok (I : UUID → UUID → Z → Prop) (j : UUID) (e : chan_event) : Prop :=
  match e with CNew _ | CGet _ => True | CPropose aid est => I aid j est | _ => False end.

Lemma do_calls_steps I j es f T N N' :
  Correct j → Forall (call_ok I j) es → do_calls es N = Some N' →
  rtc (aba_step I) (AbcStack (<[j := N]> f) T) (AbcStack (<[j := N']> f) T) ∧ ap_got N ⊆ ap_got N'.
Proof.
  intros Hj Hes. revert N. induction Hes as [|e es He Hes IH]; intros N; simpl; [by intros [= <-]|].
  intros (N1 & H1 & H2)%bind_Some. destruct (IH N1 H2) as [Hr Hg]. split; [|by etrans; [apply (chan_turn_got _ _ _ H1)|]].
  eapply rtc_l; [|exact Hr]. apply (abc_event_step _ _ _ _ _ _ _ _ _ _ (AChan j e)).
  - split; [done|]. by destruct e.
  - simpl. rewrite fn_lookup_insert, H1. simpl. f_equal. unfold set_abc. f_equal. simpl.
    apply functional_extensionality. intros i. destruct (decide (i = j)) as [->|];
      [by rewrite !fn_lookup_insert|by rewrite !fn_lookup_insert_ne].
Qed.

(** *** The decisions of a state *)

Definition final_dec (S : system) (id : UUID) (k : nat) : Z :=
  match ps !! k with
  | Some p => default 0 (head (j ← elements (peers mb ∖ faulty mb); got_of (acceptor_id id p) (ap_got (ap_node (abc_of S) j))))
  | None => 0
  end.

Lemma elem_of_got_of id got d : d ∈ got_of id got ↔ (id, d) ∈ got.
Proof.
  unfold got_of. rewrite list_elem_of_fmap. split.
  - intros ([i x] & -> & [Hi Hin]%list_elem_of_filter). simpl in *. by subst.
  - intros Hin. exists (id, d). split; [done|]. by apply list_elem_of_filter.
Qed.

Lemma final_decides I S : aba_reachable I (abc_of S) → decides S (final_dec S).
Proof.
  intros HS j id k p d Hj Hid Hp Hd. unfold final_dec. rewrite Hp.
  assert (Hin : d ∈ (j ← elements (peers mb ∖ faulty mb); got_of (acceptor_id id p) (ap_got (ap_node (abc_of S) j)))).
  { apply list_elem_of_bind. exists j. split; [by apply elem_of_got_of|]. apply elem_of_elements, elem_of_difference. exact Hj. }
  match goal with |- default 0 (head ?L) = _ => change (d ∈ L) in Hin; destruct L as [|x l] eqn:Hl end;
    [by apply not_elem_of_nil in Hin|]. simpl.
  assert (Hx : x ∈ x :: l) by (by left). rewrite <-Hl in Hx.
  apply list_elem_of_bind in Hx as (i & Hx & Hi). apply elem_of_elements, elem_of_difference in Hi.
  apply elem_of_got_of in Hx. destruct Hcodes as (_ & _ & Hc).
  exact (abc_agree _ _ _ _ _ _ _ _ _ Hc Hpk _ Hcoin (abc_of S) i j (acceptor_id id p) x d HS Hi Hj Hx Hd).
Qed.

(** *** The common part of every step *)

Definition bkr_run (S S' : system) : Prop :=
  ∀ dec, decides S' dec → rtc (bkr_net_step mb ps (brbs_of S') dec) (bkr_of S) (bkr_of S').

(** What has been delivered stays. *)
Definition delivers_more (S S' : system) : Prop :=
  ∀ k, BrbDeliver (stack_chans (brb_of S) k) ⊆ BrbDeliver (stack_chans (brb_of S') k).

Lemma delivers_more_brb S S' : brb_of S' = brb_of S → delivers_more S S'.
Proof. by intros H k; rewrite H. Qed.

Lemma elem_of_brbs_of S o :
  o ∈ brbs_of S ↔ ∃ k iid, Correct k ∧ ChannelDelivers (stack_chans (brb_of S)) k iid o.
Proof.
  unfold brbs_of, ChannelDelivers. rewrite list_elem_of_bind. split.
  - intros (k & Ho & Hk). apply list_elem_of_fmap in Ho as ([iid o'] & -> & Ho). exists k, iid.
    split; [|done]. by apply elem_of_elements, elem_of_difference in Hk.
  - intros (k & iid & Hk & Ho). exists k. split; [apply list_elem_of_fmap; by exists (iid, o)|].
    by apply elem_of_elements, elem_of_difference.
Qed.

Lemma brbs_of_mono S S' : delivers_more S S' → brbs_of S ⊆ brbs_of S'.
Proof. intros Hs m. rewrite !elem_of_brbs_of. intros (k & iid & Hk & Ho). exists k, iid. split; [done|by apply Hs]. Qed.

Lemma decides_before S S' dec :
  (∀ j, ap_got (ap_node (abc_of S) j) ⊆ ap_got (ap_node (abc_of S') j)) → decides S' dec → decides S dec.
Proof. intros Hg Hd j id k p d Hj Hid Hp Hr. by eapply Hd, Hg. Qed.

Lemma instance_le_asked C C' :
  (∀ j id b, instances (C j) !! id = Some b → ∃ b', instances (C' j) !! id = Some b' ∧ instance_le b b') →
  ∀ aid j est, asked C aid j est → asked C' aid j est.
Proof.
  intros Hle aid j est (id & b & k & a & Hb & Ha & Haid & Hest).
  destruct (Hle j id b Hb) as (b' & Hb' & _ & Hl & Hk).
  destruct (lookup_lt_is_Some_2 (acceptors b') k) as [a' Ha']. { rewrite Hl. by eapply lookup_lt_Some. }
  destruct (Hk k a a' Ha Ha') as [Hs Hn]. exists id, b', k, a'. split_and!; [done|done|congruence|by apply Hs].
Qed.

Lemma bkr_run_le brbs dec C C' :
  bkr_reachable mb ps brbs dec C → rtc (bkr_net_step mb ps brbs dec) C C' →
  ∀ j id b, instances (C j) !! id = Some b → ∃ b', instances (C' j) !! id = Some b' ∧ instance_le b b'.
Proof.
  intros HC Hr. induction Hr as [C|C C1 C2 Hs Hr IH]; intros j id b Hb.
  { exists b. split; [done|]. split_and!; [done|done|]. intros k a a' -> [= <-]. done. }
  destruct (bkr_net_step_le _ _ _ _ _ _ j id b HC Hs Hb) as (b1 & Hb1 & Ho1 & Hl1 & Hk1).
  destruct (IH (rtc_r _ _ _ HC Hs) j id b1 Hb1) as (b2 & Hb2 & Ho2 & Hl2 & Hk2). exists b2. split; [done|].
  split_and!; [by etrans|congruence|]. intros k a a2 Ha Ha2.
  destruct (lookup_lt_is_Some_2 (acceptors b1) k) as [a1 Ha1]. { rewrite Hl1. by eapply lookup_lt_Some. }
  destruct (Hk1 k a a1 Ha Ha1), (Hk2 k a1 a2 Ha1 Ha2). split; [by etrans|congruence].
Qed.

(** The run of the common subset channels before the decisions of the step are
    known to the others: any [dec] that agrees with what was received. *)
Lemma yv_bkr_after S S' dec :
  sys_inv S → (∀ j, ap_got (ap_node (abc_of S) j) ⊆ ap_got (ap_node (abc_of S') j)) → delivers_more S S' →
  decides S' dec → bkr_reachable mb ps (brbs_of S') dec (bkr_of S).
Proof.
  intros HS Hg Hm Hd. apply (bkr_reachable_brbs _ _ (brbs_of S)); [by apply brbs_of_mono|].
  apply HS. by eapply decides_before.
Qed.

Lemma sys_inv_step S S' :
  sys_inv S →
  brb_reachable (brb_of S') →
  (∀ I, (∀ aid j est, asked (bkr_of S) aid j est → I aid j est) → (∀ aid j est, asked (bkr_of S') aid j est → I aid j est) →
     rtc (aba_step I) (abc_of S) (abc_of S')) →
  (∀ j, ap_got (ap_node (abc_of S) j) ⊆ ap_got (ap_node (abc_of S') j)) →
  delivers_more S S' → bkr_run S S' →
  (∀ j id, is_Some (instances (bkr_of S' j) !! id) → is_Some (instances (bkr_of S j) !! id) ∨ id ∈ ids) →
  (∀ iid j m, j ∉ faulty mb → (iid, j, m) ∈ sy_made S' → (iid, j, m) ∈ sy_made S ∨ ∃ i x,
     sp_inputs (sy_proc S' j) !! i = Some x ∧ m = bkr_marshal (BkrProposalMsg (participate_id i) x)) →
  (∀ j i x, sp_inputs (sy_proc S j) !! i = Some x → sp_inputs (sy_proc S' j) !! i = Some x) →
  (∀ j i x, sp_inputs (sy_proc S' j) !! i = Some x →
     sp_inputs (sy_proc S j) !! i = Some x ∨ ids !! i = Some (participate_id i)) →
  (∀ j i l, Prints S' j i l → Prints S j i l ∨
     (is_Some (sp_inputs (sy_proc S' j) !! i) ∧ BkrOutputs (bkr_of S') (participate_id i) j l)) →
  sys_inv S'.
Proof.
  intros HS Hbrb Habc Hg Hm Hbkr Hi Hmade Hin Hin' Hpr.
  (* any decisions the new agreements could have made *)
  set (I := λ aid j est, asked (bkr_of S) aid j est ∨ asked (bkr_of S') aid j est).
  assert (Hab : aba_reachable I (abc_of S')).
  { unfold abc_reachable. etrans; [|apply Habc; unfold I; by auto].
    eapply abc_reachable_inputs; [|apply HS]. unfold I. by auto. }
  pose proof (final_decides I S' Hab) as Hfd.
  pose proof (yv_bkr_after S S' _ HS Hg Hm Hfd) as Hbs.
  pose proof (bkr_run_le _ _ _ _ Hbs (Hbkr _ Hfd)) as Hle.
  pose proof (instance_le_asked _ _ Hle) as Hask.
  split.
  - done.
  - unfold abc_reachable. etrans; [|apply Habc; auto]. eapply abc_reachable_inputs; [|apply HS]. exact Hask.
  - intros dec Hd. unfold bkr_reachable. etrans; [by eapply yv_bkr_after|by apply Hbkr].
  - intros j id Hs. destruct (Hi j id Hs) as [?|?]; [by eapply yv_ids|done].
  - intros iid j m Hj Hmd. destruct (Hmade iid j m Hj Hmd) as [Ho|(i & x & Hx & ->)].
    + destruct (yv_made _ HS _ _ _ Hj Ho) as (i & x & Hx & Hp & ->). exists i, x. split_and!; auto.
    + exists i, x. split_and!; [done| |done]. destruct (Hin' j i x Hx) as [?|?]; [by eapply yv_input|done].
  - intros j i x Hx. destruct (Hin' j i x Hx) as [?|?]; [by eapply yv_input|done].
  - intros j i l Hl. destruct (Hpr j i l Hl) as [Ho|?]; [|done].
    destruct (yv_printed _ HS j i l Ho) as [[x Hx] (b & Hb & Hl')]. split; [exists x; auto|].
    destruct (Hle j _ b Hb) as (b' & Hb' & Hout & _). exists b'. split; [done|by apply Hout].
Qed.

(** A step that leaves the common subset channels and the clients alone. *)
Lemma sys_inv_layers S S' :
  sys_inv S → same_clients S S' → bkr_of S' = bkr_of S → brb_reachable (brb_of S') →
  (∀ I, rtc (aba_step I) (abc_of S) (abc_of S')) ∨
    (∀ I, (∀ aid j est, asked (bkr_of S) aid j est → I aid j est) → rtc (aba_step I) (abc_of S) (abc_of S')) →
  (∀ j, ap_got (ap_node (abc_of S) j) ⊆ ap_got (ap_node (abc_of S') j)) →
  delivers_more S S' →
  (∀ iid j m, j ∉ faulty mb → (iid, j, m) ∈ sy_made S' → (iid, j, m) ∈ sy_made S) → sys_inv S'.
Proof.
  intros HS Hc Hb Hr Habc Hg Hm Hm'. apply (sys_inv_step S); try done.
  - intros I H1 H2. destruct Habc as [Ha|Ha]; auto.
  - intros dec _. by rewrite Hb.
  - intros j id. rewrite Hb. by left.
  - intros iid j m Hj Hin. left. by apply Hm'.
  - intros j i x. by destruct (Hc j) as [-> _].
  - intros j i x. destruct (Hc j) as [-> _]. by left.
  - intros j i l. unfold Prints. destruct (Hc j) as [_ ->]. by left.
Qed.

Lemma sys_inv_brb S e j B :
  sys_inv S → brb_own e = Some j ∨ (∃ iid, e = SChan j (DOutput iid)) → Correct j →
  brb_exec e (brb_of S) = Some B → sys_inv (with_brb j B S).
Proof.
  intros HS He Hj Hex. destruct (brb_own_sees e j _ _ He Hj Hex) as (Ha & Hn & Hm & Hm').
  apply (sys_inv_layers S); [done|apply same_clients_brb|apply bkr_of_with_brb| | | | |exact Hm'].
  - rewrite brb_of_with_brb by done. eapply rtc_r; [apply HS|]. econstructor; [|exact Hex].
    unfold may_act. destruct He as [He|[iid ->]]; [|done]. destruct e as [| | | |k []| | |]; simpl in *; naive_solver.
  - left. intros I. rewrite abc_of_with_brb. apply Ha.
  - intros i. by rewrite abc_of_with_brb.
  - intros k. rewrite brb_of_with_brb by done. apply Hm.
Qed.

Lemma sys_codes S j :
  sys_inv S → mw_beb (ap_mw (ap_node (abc_of S) j)) = mcode ∧ tw_beb (ap_tw (ap_node (abc_of S) j)) = tcode.
Proof.
  intros HS. destruct Hcodes as (_ & _ & Hc).
  destruct (abc_reachable_inv _ _ _ _ _ _ _ _ _ Hc Hpk _ Hcoin _ (yv_abc _ HS)) as [A HA].
  exact (no_beb _ _ _ _ _ _ _ (av_node _ _ _ _ _ _ _ _ _ HA j)).
Qed.

Lemma sys_inv_abc S e j A :
  sys_inv S → abc_own e = Some j → Correct j → aba_exec e (abc_of S) = Some A →
  sys_inv (with_abc j (ap_node A j) (ap_net A) S).
Proof.
  intros HS He Hj Hex. destruct (abc_own_sees e j _ _ (sys_codes S j HS) He Hj Hex) as (Hb & Hn & Hg).
  apply (sys_inv_layers S); [done|apply same_clients_abc|apply bkr_of_with_abc| | | | |done].
  - rewrite brb_of_with_abc. unfold brb_reachable. etrans; [apply HS|]. apply Hb.
  - left. intros I. rewrite abc_of_with_abc, <-Hn. apply rtc_once. destruct A as [NA TA].
    apply (abc_event_step _ _ _ _ _ _ _ _ _ _ e); [|exact Hex].
    split; [destruct e as [| | | |k []| | | |]; simpl in *; naive_solver|destruct e as [| | | |k []| | | |]; done].
  - intros i. rewrite abc_of_with_abc. simpl. destruct (decide (i = j)) as [->|];
      [by rewrite fn_lookup_insert|by rewrite fn_lookup_insert_ne].
  - intros k. by rewrite brb_of_with_abc.
Qed.

Lemma sys_inv_net S T :
  sys_inv S → rtc brb_step (brb_of S) (BrbStack (bs_node (brb_of S)) T (sy_made S)) →
  (∀ I, rtc (aba_step I) (abc_of S) (AbcStack (ap_node (abc_of S)) T)) → sys_inv (with_net T S).
Proof.
  intros HS Hb Ha. apply (sys_inv_layers S); try done; [|by left|by intros k].
  unfold brb_reachable. etrans; [apply HS|]. exact Hb.
Qed.

Lemma sys_inv_transport S e S' :
  sys_inv S → sys_may e → match e with YOther _ _ _ _ | YTake _ _ | YNet _ => True | _ => False end →
  sys_exec e S = Some S' → sys_inv S'.
Proof.
  intros HS Hj He Hex. destruct e as [| | | | | | | | |j code msg n|k x|e]; try done; unfold sys_may in Hj; simpl in Hj, Hex.
  - case_decide as Hc; [done|]. apply bind_Some in Hex as (T & HT & [= <-]). apply sys_inv_net; [done|..].
    + eapply other_cast_brb; [done| |exact HT]. tauto.
    + intros I. eapply other_cast_aba; [done| | |exact HT]; tauto.
  - apply bind_Some in Hex as ([[code m] T] & HT & Hex). case_decide as Hc; [done|]. injection Hex as <-.
    apply sys_inv_net; [done|..].
    + eapply other_take_brb; [done| |exact HT]. tauto.
    + intros I. eapply other_take_aba; [done| | |exact HT]; tauto.
  - case_decide as Hf; [|done]. apply bind_Some in Hex as (T & HT & [= <-]). apply sys_inv_net; [done|..].
    + apply rtc_once. apply (stack_event_step _ _ _ _ _ _ _ _ (SNet e)); [done|]. simpl.
      rewrite decide_True by (intros; by eapply Hf). by rewrite HT.
    + intros I. apply rtc_once. apply (abc_event_step _ _ _ _ _ _ _ _ _ _ (ANet e)); [done|]. simpl.
      rewrite decide_True by (intros; by eapply Hf). by rewrite HT.
Qed.

(** *** Turns of the common subset channel *)

(** The command [e] concerns the instance [id], and needs no decision. *)
Definition concerns (c : BKRChannel) (id : UUID) (e : bkr_event) : Prop :=
  match e with
  | NPropose i _ => i = id
  | NCommand k => (commands c !! k) ≫= (λ x, Some x.1.1) = Some id
  | NInner i e => i = id ∧ bkr_own e = true
  | NDeliver _ => False
  end.

Lemma calls_ok C k id c' I :
  (∀ aid j est, asked (<[k := c']> C) aid j est → I aid j est) → Forall (call_ok I k) (calls id (C k) c').
Proof.
  intros HI. unfold calls. apply Forall_app. split.
  - unfold opened. destruct (instances (C k) !! id), (instances c' !! id); try constructor.
    apply Forall_fmap, Forall_true. by intros a.
  - apply Forall_forall. intros e He. unfold proposals in He.
    apply list_elem_of_In, in_concat in He as (l & Hl%list_elem_of_In & He%list_elem_of_In).
    apply list_elem_of_lookup in Hl as [i Hl]. apply lookup_zip_with_Some in Hl as (a & a' & -> & _ & Ha').
    apply list_elem_of_fmap in He as (est & -> & Hest). simpl. apply HI.
    assert (Hin : est ∈ aba a').
    { rewrite <-(take_drop (length (aba a)) (aba a')). apply elem_of_app. by right. }
    unfold instance_at in Ha'. destruct (instances c' !! id) as [b'|] eqn:Hb'; simpl in Ha'.
    + exists id, b', i, a'. by rewrite fn_lookup_insert.
    + apply computeAcceptors_lookup in Ha' as (p & _ & ->). by apply not_elem_of_nil in Hin.
Qed.

Lemma concerns_frame c c' id e dec :
  concerns c id e → bkr_exec dec e c = Some c' → ∀ id', id' ≠ id → instances c' !! id' = instances c !! id'.
Proof. intros He. apply bkr_step_frame. destruct e; [done..|by destruct He]. Qed.

Lemma concerns_exec c id e dec dec' : concerns c id e → bkr_exec dec e c = bkr_exec dec' e c.
Proof. destruct e as [| | |i []]; simpl; try done. by intros [_ ?]. Qed.

Lemma concerns_step S k id e c' brbs dec :
  Correct k → concerns (bkr_of S k) id e → bkr_exec (λ _ _, 0) e (bkr_of S k) = Some c' →
  bkr_net_step mb ps brbs dec (bkr_of S) (<[k := c']> (bkr_of S)).
Proof.
  intros Hk He Hex. apply (bkr_net_event _ _ _ _ _ k e); [done| |by rewrite (concerns_exec _ id e dec (λ _ _, 0))].
  destruct e as [|msg| |i e]; simpl in *; try done. destruct He as [_ He]. by destruct e.
Qed.

Lemma sys_inv_turn S k id e S' :
  sys_inv S → Correct k → id ∈ ids → concerns (bkr_of S k) id e → bkr_turn k id e S = Some S' → sys_inv S'.
Proof.
  intros HS Hk Hid He Ht. unfold bkr_turn in Ht. apply bind_Some in Ht as (c' & Hex & Ht).
  apply bind_Some in Ht as (N & HN & [= <-]).
  assert (Hcalls : ∀ I, (∀ aid j est, asked (bkr_of (with_bkr k c' N S)) aid j est → I aid j est) →
    rtc (aba_step I) (abc_of S) (abc_of (with_bkr k c' N S)) ∧ ap_got (ap_node (abc_of S) k) ⊆ ap_got N).
  { intros I HI. rewrite bkr_of_with_bkr in HI. rewrite abc_of_with_bkr.
    pose proof (calls_ok (bkr_of S) k id c' I HI) as Hok.
    destruct (do_calls_steps I k _ (ap_node (abc_of S)) (sy_net S) _ _ Hk Hok HN) as [Hr Hg]. split; [|done].
    rewrite (fn_insert_same k (sp_abc (sy_proc S k)) (ap_node (abc_of S))) in Hr by done. exact Hr. }
  apply (sys_inv_step S); try done.
  - rewrite brb_of_with_bkr. apply HS.
  - intros I _ HI. by apply Hcalls.
  - intros j. rewrite abc_of_with_bkr. simpl. destruct (decide (j = k)) as [->|];
      [|by rewrite fn_lookup_insert_ne]. rewrite fn_lookup_insert. by eapply (Hcalls (λ _ _ _, True)).
  - apply delivers_more_brb, brb_of_with_bkr.
  - intros dec _. rewrite bkr_of_with_bkr. apply rtc_once. by eapply (concerns_step S k id e).
  - intros j id'. rewrite bkr_of_with_bkr. destruct (decide (j = k)) as [->|]; [|rewrite fn_lookup_insert_ne by done; by left].
    rewrite fn_lookup_insert. destruct (decide (id' = id)) as [->|Hne]; [by right|].
    rewrite (concerns_frame _ _ _ _ _ He Hex) by done. by left.
  - by left.
  - intros j i x. by destruct (same_clients_bkr k c' N S j) as [-> _].
  - intros j i x. destruct (same_clients_bkr k c' N S j) as [-> _]. by left.
  - intros j i l. unfold Prints. destruct (same_clients_bkr k c' N S j) as [_ ->]. by left.
Qed.

(** *** The client *)

Lemma broadcast_sees j nonce msg n Bs B :
  brb_exec (SBroadcast j nonce msg n) Bs = Some B →
  beb_cast remote j bcode (wrapSend nonce msg) n (bs_net Bs) = Some (bs_net B) ∧ bs_node B = bs_node Bs ∧
  ∀ x, x ∈ bs_made B → x ∈ bs_made Bs ∨ ∃ id, x = (id, j, msg).
Proof.
  simpl. case_decide; [|done]. intros (T & HT & Hx)%bind_Some.
  destruct (computeInstanceId _ _ _) as [id|?]; injection Hx as <-; simpl; (split_and!; [done|done|]).
  - intros x [?| ->%list_elem_of_singleton]%elem_of_app; [by left|right; by exists id].
  - by left.
Qed.

Lemma sys_inv_input S j x nonce n S' :
  sys_inv S → Correct j → sys_exec (YInput j x nonce n) S = Some S' → sys_inv S'.
Proof.
  intros HS Hj Hex. cbn [sys_exec] in Hex. case_decide as Hd; [|done]. destruct Hd as (Hl & Hp & _).
  apply bind_Some in Hex as (B & HB & [= <-]). set (i := length (sp_inputs (sy_proc S j))) in *.
  pose proof (broadcast_sees _ _ _ _ _ _ HB) as (HT & Hn & Hm').
  set (P := Process _ _ _ _ _). set (S' := System _ _ _).
  assert (Hother : ∀ k, k ≠ j → sy_proc S' k = sy_proc S k) by (intros; simpl; by rewrite fn_lookup_insert_ne).
  assert (Hself : sy_proc S' j = P) by (simpl; by rewrite fn_lookup_insert).
  assert (Hbkr : bkr_of S' = bkr_of S).
  { unfold bkr_of. simpl. rewrite (fn_map_insert sp_bkr). by apply fn_insert_same. }
  assert (Habc : abc_of S' = AbcStack (ap_node (abc_of S)) (bs_net B)).
  { unfold abc_of. simpl. f_equal. rewrite (fn_map_insert sp_abc). by apply fn_insert_same. }
  assert (Hbrb : brb_of S' = B).
  { transitivity (BrbStack (bs_node B) (bs_net B) (bs_made B)); [|by destruct B]. rewrite Hn. unfold brb_of. simpl. f_equal.
    rewrite (fn_map_insert sp_brb). by apply fn_insert_same. }
  apply (sys_inv_step S); try done.
  - rewrite Hbrb. eapply rtc_r; [apply HS|]. by apply (stack_event_step _ _ _ _ _ _ _ _ (SBroadcast j nonce
      (bkr_Propose (participate_id i) x true (sp_bkr (sy_proc S j))).1.2 n)).
  - intros I _ _. rewrite Habc. destruct Hcodes as (? & ? & _). by eapply other_cast_aba.
  - intros k. by rewrite Habc.
  - intros k. rewrite Hbrb. unfold stack_chans. by rewrite Hn.
  - intros dec _. by rewrite Hbkr.
  - intros k id. rewrite Hbkr. by left.
  - intros iid k m Hk Hin. destruct (Hm' _ Hin) as [?|[id [= -> -> ->]]]; [by left|]. right. exists i, x.
    rewrite Hself. simpl. split; [|done]. by apply list_lookup_middle.
  - intros k i' x' Hx. destruct (decide (k = j)) as [->|]; [|by rewrite Hother]. rewrite Hself. simpl.
    by apply lookup_app_l_Some.
  - intros k i' x' Hx. destruct (decide (k = j)) as [->|]; [|rewrite Hother in Hx by done; by left].
    rewrite Hself in Hx. simpl in Hx. apply lookup_app_Some in Hx as [?|[Hge Hx]]; [by left|]. right.
    apply list_lookup_singleton_Some in Hx as [Hz _]. assert (i' = i) as -> by (unfold i; lia). done.
  - intros k i' l. unfold Prints. destruct (decide (k = j)) as [->|Hne]; [rewrite Hself|rewrite Hother by done]; by left.
Qed.

Lemma sys_inv_print S j l S' : sys_inv S → sys_exec (YPrint j l) S = Some S' → sys_inv S'.
Proof.
  intros HS Hex. simpl in Hex. case_decide as Hl; [|done]. apply bind_Some in Hex as (b & Hb & Hex).
  case_decide as Ho; [|done]. injection Hex as <-. set (P := Process _ _ _ _ _). set (S' := set_proc j P S).
  assert (Hother : ∀ k, k ≠ j → sy_proc S' k = sy_proc S k) by (intros; simpl; by rewrite fn_lookup_insert_ne).
  assert (Hself : sy_proc S' j = P) by (simpl; by rewrite fn_lookup_insert).
  assert (Hbkr : bkr_of S' = bkr_of S).
  { unfold bkr_of. simpl. rewrite (fn_map_insert sp_bkr). by apply fn_insert_same. }
  assert (Habc : abc_of S' = abc_of S).
  { unfold abc_of. simpl. f_equal. rewrite (fn_map_insert sp_abc). by apply fn_insert_same. }
  assert (Hbrb : brb_of S' = brb_of S).
  { unfold brb_of. simpl. f_equal. rewrite (fn_map_insert sp_brb). by apply fn_insert_same. }
  assert (Hin : ∀ k, sp_inputs (sy_proc S' k) = sp_inputs (sy_proc S k)).
  { intros k. destruct (decide (k = j)) as [->|]; [by rewrite Hself|by rewrite Hother]. }
  apply (sys_inv_step S); try done.
  - rewrite Hbrb. apply HS.
  - intros I _ _. by rewrite Habc.
  - intros k. by rewrite Habc.
  - by apply delivers_more_brb.
  - intros dec _. by rewrite Hbkr.
  - intros k id. rewrite Hbkr. by left.
  - by left.
  - intros k i x. by rewrite Hin.
  - intros k i x. rewrite Hin. by left.
  - intros k i l'. unfold Prints. destruct (decide (k = j)) as [->|Hne]; [rewrite Hself|rewrite Hother by done; by left].
    simpl. intros [?|[Hge Hx]]%lookup_app_Some; [by left|]. right.
    apply list_lookup_singleton_Some in Hx as [Hz <-].
    assert (i = length (sp_printed (sy_proc S j))) as -> by lia. split; [apply lookup_lt_is_Some_2; lia|].
    rewrite Hbkr. by exists b.
Qed.

(** *** Deliveries *)

Lemma listen_run brbs dec k C l c c' :
  Correct k → (∀ x, x ∈ l → x.2 ∈ brbs) → listenBroadcasts l c = Some c' →
  rtc (bkr_net_step mb ps brbs dec) (<[k := c]> C) (<[k := c']> C) ∧ instances c' = instances c.
Proof.
  intros Hk. revert c. induction l as [|[i o] l IH]; intros c Hl; simpl; [by intros [= <-]|].
  intros ([c1 err] & Hp%done_opt_inv & Hr)%bind_Some.
  destruct (IH c1) as [Hr' Hi]; [intros x Hx; apply Hl; by right|done|]. split.
  - eapply rtc_l; [|exact Hr'].
    assert (<[k := c1]> C = <[k := c1]> (<[k := c]> C)) as ->.
    { apply functional_extensionality. intros q. destruct (decide (q = k)) as [->|];
        [by rewrite !fn_lookup_insert|by rewrite !fn_lookup_insert_ne]. }
    apply (bkr_net_event _ _ _ _ _ k (NDeliver o)); [done|apply (Hl (i, o)); by left|].
    simpl. by rewrite fn_lookup_insert, Hp.
  - rewrite Hi. unfold processBroadcast in Hp. destruct (bkr_unmarshal (Content o)) as [[m|e]| |]; simpl in Hp; try done;
      by injection Hp as <- _.
Qed.

Lemma sys_inv_listen S k iid S' :
  sys_inv S → Correct k → sys_exec (YListen k iid) S = Some S' → sys_inv S'.
Proof.
  intros HS Hk Hex. cbn [sys_exec] in Hex. apply bind_Some in Hex as (B & HB & Hex). apply bind_Some in Hex as (c' & Hc & [= <-]).
  assert (HS1 : sys_inv (with_brb k B S)) by (eapply sys_inv_brb; [done|by right; eexists|done|exact HB]).
  set (S1 := with_brb k B S) in *.
  assert (Hb1 : brb_of S1 = B).
  { apply brb_of_with_brb. by destruct (brb_own_sees _ k _ _ (or_intror (ex_intro _ iid eq_refl)) Hk HB) as (_ & ? & _). }
  assert (Hk1 : bkr_of S1 k = sp_bkr (sy_proc S k)) by (unfold S1; by rewrite bkr_of_with_brb).
  set (S2 := with_bkr k c' _ S1).
  assert (Hsame : same_clients S1 S2) by apply same_clients_bkr.
  assert (Habc : abc_of S2 = abc_of S1).
  { unfold S2. rewrite abc_of_with_bkr. transitivity (AbcStack (ap_node (abc_of S1)) (sy_net S1)); [|done]. f_equal.
    by apply fn_insert_same. }
  assert (Hrun : ∀ dec, rtc (bkr_net_step mb ps (brbs_of S2) dec) (bkr_of S1) (bkr_of S2) ∧
    instances c' = instances (bkr_of S1 k)).
  { intros dec. unfold S2. rewrite bkr_of_with_bkr. rewrite Hk1. rewrite <-(fn_insert_same k (sp_bkr (sy_proc S k)) (bkr_of S1)) at 1
      by done. eapply listen_run; [done| |exact Hc]. intros [i o] Hin. apply elem_of_brbs_of.
    exists k, i. split; [done|]. rewrite brb_of_with_bkr, Hb1. unfold ChannelDelivers.
    by eapply (subseteq_drop _ _ _ Hin). }
  apply (sys_inv_step S1); try done.
  - unfold S2. rewrite brb_of_with_bkr. apply HS1.
  - intros I _ _. by rewrite Habc.
  - intros j. by rewrite Habc.
  - apply delivers_more_brb, brb_of_with_bkr.
  - intros dec _. apply Hrun.
  - intros j id. unfold S2. rewrite bkr_of_with_bkr. destruct (decide (j = k)) as [->|]; [|rewrite fn_lookup_insert_ne by done; by left].
    rewrite fn_lookup_insert. destruct (Hrun (λ _ _, 0)) as [_ ->]. by left.
  - by left.
  - intros j i x. by destruct (Hsame j) as [-> _].
  - intros j i x. destruct (Hsame j) as [-> _]. by left.
  - intros j i l. unfold Prints. destruct (Hsame j) as [_ ->]. by left.
Qed.

(** *** Decisions *)

Lemma asked_bit S aid j est : sys_inv S → Correct j → asked (bkr_of S) aid j est → bit est.
Proof.
  intros HS Hj (id & b & k & a & Hb & Ha & _ & Hest).
  pose proof (yv_bkr _ HS _ (final_decides _ S (yv_abc _ HS))) as HC.
  destruct (bkr_project_reachable _ _ _ _ _ HC) as [_ Hp].
  destruct (acs_net_inv_reachable _ _ _ _ _ _ (Hp id)) as [Hall _]. destruct (Hall j Hj) as [log Hlog].
  assert (Hproj : bkr_project mb ps id (bkr_of S) j = b) by (unfold bkr_project; by rewrite Hb).
  rewrite Hproj in Hlog. destruct (i_aba _ _ _ _ _ _ Hlog k a est Ha Hest) as [-> | ->]; unfold accept, reject; auto.
Qed.

(** What a correct process has asked for an acceptor's agreement, it has asked
    for that acceptor. *)
Lemma asked_acceptor S id k p j est :
  sys_inv S → id ∈ ids → ps !! k = Some p → asked (bkr_of S) (acceptor_id id p) j est →
  proposed_to (bkr_project mb ps id (bkr_of S) j) k est.
Proof.
  intros HS Hid Hp (id' & b & k' & a & Hb & Ha & Haid & Hest).
  pose proof (yv_bkr _ HS _ (final_decides _ S (yv_abc _ HS))) as HC.
  destruct (bkr_names _ _ _ _ _ HC j id' b k' a Hb Ha) as (p' & Hp' & Hn). rewrite Hn in Haid.
  assert (Hid' : id' ∈ ids) by (eapply (yv_ids _ HS j); by eexists).
  destruct (acceptor_ids_inj id' id k' k p' p Hid' Hid Hp' Hp Haid) as [-> ->].
  exists a. split; [|done]. unfold bkr_project. by rewrite Hb.
Qed.

Lemma CGet_received aid N N' i d :
  chan_turn (CGet aid) N = Some N' → last (ap_got N') = Some (i, d) → (aid, d) ∈ ap_got N'.
Proof.
  unfold chan_turn. intros ([c got] & Hex & [= <-])%bind_Some Hl. simpl in *.
  apply bind_Some in Hex as (a & _ & ([a' d'] & _ & [= _ <-])%bind_Some).
  rewrite last_snoc in Hl. injection Hl as _ ->. apply elem_of_app. right. by left.
Qed.

Lemma sys_inv_decide S k id x S' :
  sys_inv S → Correct k → sys_exec (YDecide k id x) S = Some S' → sys_inv S'.
Proof.
  intros HS Hk Hex. cbn [sys_exec] in Hex. apply bind_Some in Hex as ([c N] & Ha & [= <-]). unfold acceptor_output in Ha.
  apply bind_Some in Ha as (b & Hb & Ha). apply bind_Some in Ha as (a & Hax & Ha). apply bind_Some in Ha as (N' & HN & Ha).
  apply bind_Some in Ha as ([i d] & Hd & Ha). apply bind_Some in Ha as (b' & Hb' & [= <- <-]).
  change (instances (bkr_of S k) !! id = Some b) in Hb. pose proof (CGet_received _ _ _ _ _ HN Hd) as Hrec.
  assert (Hid : id ∈ ids) by (eapply (yv_ids _ HS k); by eexists).
  pose proof (yv_bkr _ HS _ (final_decides _ S (yv_abc _ HS))) as HC.
  destruct (bkr_names _ _ _ _ _ HC k id b x a Hb Hax) as (p & Hp & Hname).
  change (pa_abaId a = acceptor_id id p) in Hname. rewrite Hname in *.
  set (c' := set_instances (<[id := b']> (instances (sp_bkr (sy_proc S k)))) (sp_bkr (sy_proc S k))).
  set (S' := with_bkr k c' N' S).
  assert (Hsame : same_clients S S') by apply same_clients_bkr.
  assert (Habc : ∀ I, rtc (aba_step I) (abc_of S) (abc_of S') ∧ ap_got (ap_node (abc_of S) k) ⊆ ap_got N').
  { intros I. unfold S'. rewrite abc_of_with_bkr.
    destruct (do_calls_steps I k [CGet (acceptor_id id p)] (ap_node (abc_of S)) (sy_net S) (sp_abc (sy_proc S k)) N' Hk)
      as [Hr Hg]; [by apply Forall_singleton|cbn [do_calls]; by rewrite HN|]. split; [|done].
    rewrite (fn_insert_same k (sp_abc (sy_proc S k)) (ap_node (abc_of S))) in Hr by done. exact Hr. }
  assert (Hnode : ap_node (abc_of S') k = N').
  { unfold S'. rewrite abc_of_with_bkr. simpl. by rewrite fn_lookup_insert. }
  assert (Hr : Receives (abc_of S') k (acceptor_id id p) d) by (unfold Receives; by rewrite Hnode).
  assert (Hback : ∃ q, Correct q ∧ proposed_to (bkr_project mb ps id (bkr_of S) q) x d).
  { destruct Hcodes as (_ & _ & Hc).
    assert (HA : aba_reachable (asked (bkr_of S)) (abc_of S')).
    { unfold abc_reachable. etrans; [apply HS|apply Habc]. }
    destruct (abc_received_proposed _ _ _ _ _ _ _ _ _ Hc Hpk _ Hcoin (abc_of S') k (acceptor_id id p) d HA) as (q & Hq & Hask);
      [intros q est; by apply asked_bit|done|done|]. exists q. split; [done|]. by eapply asked_acceptor. }
  apply (sys_inv_step S); try done.
  - unfold S'. rewrite brb_of_with_bkr. apply HS.
  - intros I _ _. apply Habc.
  - intros j. destruct (decide (j = k)) as [->|Hne]; [rewrite Hnode; by apply (Habc (λ _ _ _, True))|].
    unfold S'. rewrite abc_of_with_bkr. simpl. by rewrite fn_lookup_insert_ne.
  - apply delivers_more_brb, brb_of_with_bkr.
  - intros dec Hdec. unfold S' at 2. rewrite bkr_of_with_bkr. apply rtc_once.
    assert (Hdx : dec id x = d) by (by eapply Hdec).
    apply (bkr_net_event _ _ _ _ _ k (NInner id (EDecide x))); [done|simpl; by rewrite Hdx|].
    simpl. rewrite Hb. simpl. rewrite Hdx, Hb'. done.
  - intros j id'. unfold S'. rewrite bkr_of_with_bkr. destruct (decide (j = k)) as [->|];
      [|rewrite fn_lookup_insert_ne by done; by left]. rewrite fn_lookup_insert. simpl.
    destruct (decide (id' = id)) as [->|]; [by right|]. rewrite lookup_insert_ne by done. by left.
  - by left.
  - intros j i' y. by destruct (Hsame j) as [-> _].
  - intros j i' y. destruct (Hsame j) as [-> _]. by left.
  - intros j i' l. unfold Prints. destruct (Hsame j) as [_ ->]. by left.
Qed.

(** *** Every step *)

Lemma sys_inv_init : sys_inv sys_init.
Proof.
  split; simpl.
  - constructor.
  - constructor.
  - intros dec _. constructor.
  - intros j id [b Hb]. by rewrite lookup_empty in Hb.
  - intros iid j m _ Hm. by apply not_elem_of_nil in Hm.
  - done.
  - done.
Qed.

Lemma sys_inv_exec S e S' : sys_inv S → sys_may e → sys_exec e S = Some S' → sys_inv S'.
Proof.
  intros HS Hj Hex. destruct e as [j x nonce n|j|j l|k iid|k i|k id e|k id x|e|e|j code msg n|k x|e].
  - eapply sys_inv_input; [done|exact Hj|exact Hex].
  - cbn [sys_exec] in Hex. apply bind_Some in Hex as (x & Hx & Hex). eapply sys_inv_turn; [done|exact Hj| | |exact Hex]; [|done].
    eapply list_elem_of_lookup_2. by eapply yv_input.
  - eapply sys_inv_print; [done|exact Hex].
  - eapply sys_inv_listen; [done|exact Hj|exact Hex].
  - cbn [sys_exec] in Hex. apply bind_Some in Hex as ([[id x] s] & Hc & Hex). case_decide; [|done].
    eapply sys_inv_turn; [done|exact Hj|done| |exact Hex]. simpl. by rewrite Hc.
  - cbn [sys_exec] in Hex. destruct (bkr_own e) eqn:He; [|done]. eapply sys_inv_turn; [done|exact Hj| | |exact Hex]; [|done].
    unfold bkr_turn in Hex. apply bind_Some in Hex as (c' & Hx & _). simpl in Hx.
    apply bind_Some in Hx as (b & Hb & _). eapply (yv_ids _ HS k). by eexists.
  - eapply sys_inv_decide; [done|exact Hj|exact Hex].
  - cbn [sys_exec] in Hex. apply bind_Some in Hex as (j & He & Hex). apply bind_Some in Hex as (B & HB & [= <-]).
    eapply sys_inv_brb; [done|by left| |exact HB]. unfold sys_may in Hj. simpl in Hj.
    destruct e as [| | | |k []| | |]; simpl in *; naive_solver.
  - cbn [sys_exec] in Hex. apply bind_Some in Hex as (j & He & Hex). apply bind_Some in Hex as (A & HA & [= <-]).
    eapply sys_inv_abc; [done|exact He| |exact HA]. unfold sys_may in Hj. simpl in Hj.
    destruct e as [| | | |k []| | | |]; simpl in *; naive_solver.
  - eapply sys_inv_transport; [done|exact Hj|done|exact Hex].
  - eapply sys_inv_transport; [done|exact Hj|done|exact Hex].
  - eapply sys_inv_transport; [done|exact Hj|done|exact Hex].
Qed.

Lemma sys_reachable_inv S : sys_reachable S → sys_inv S.
Proof.
  revert S. apply (rtc_ind_r (R := sys_step) sys_inv); [apply sys_inv_init|].
  intros S S' _ [e S1 Ha He] HS. by eapply sys_inv_exec.
Qed.

(** *** What is printed *)

(** The broadcast [iid] has delivered at [k] the proposal [x] of [p] for the
    instance [id]. *)
Definition Delivered (S : system) (k iid p id : UUID) (x : bytes) : Prop :=
  ChannelDelivers (stack_chans (brb_of S)) k iid (MkBRBMsg (bkr_marshal (BkrProposalMsg id x)) p).

(** A proposal delivered for an instance was broadcast, and a correct process
    has broadcast one, that its user typed. *)
Lemma delivered_made S k iid p id x :
  sys_inv S → Delivered S k iid p id x →
  (iid, p, bkr_marshal (BkrProposalMsg id x)) ∈ sy_made S ∧
  (p ∉ faulty mb → ∃ i, id = participate_id i ∧ ids !! i = Some id ∧ sp_inputs (sy_proc S p) !! i = Some x).
Proof.
  intros HS Hd. pose proof (stack_delivered SerializePublicKey G mb msgs pk_of remote bcode Hcf Hpk _ _ _ _ (yv_brb _ HS) Hd) as Hin.
  split; [exact Hin|]. intros Hp. destruct (yv_made _ HS _ _ _ Hp Hin) as (i & x' & Hx & Hi & Hm).
  apply bkr_marshal_inj in Hm. injection Hm as -> ->. by exists i.
Qed.

Lemma carried_delivered S id p x :
  (p, x) ∈ carried (brbs_of S) id ↔ ∃ k iid, Correct k ∧ Delivered S k iid p id x.
Proof. by rewrite elem_of_carried, elem_of_brbs_of. Qed.

(** The hashes that name the instances differ. *)
Context (Hids : NoDup ids).

Lemma carried_unique S id p x y :
  sys_inv S →
  (∀ s id k k' iid iid' x y, s ∈ faulty mb → Correct k → Correct k' →
     Delivered S k iid s id x → Delivered S k' iid' s id y → x = y) →
  (p, x) ∈ carried (brbs_of S) id → (p, y) ∈ carried (brbs_of S) id → x = y.
Proof.
  intros HS Hf (k & iid & Hk & Hx)%carried_delivered (k' & iid' & Hk' & Hy)%carried_delivered.
  destruct (decide (p ∈ faulty mb)) as [Hp|Hp]; [exact (Hf p id k k' iid iid' x y Hp Hk Hk' Hx Hy)|].
  destruct (delivered_made S k iid p id x HS Hx) as [_ Hc], (delivered_made S k' iid' p id y HS Hy) as [_ Hc'].
  destruct (Hc Hp) as (i & _ & Hi & Hxi), (Hc' Hp) as (i' & _ & Hi' & Hyi).
  assert (i = i') as -> by (by eapply (NoDup_lookup ids)). congruence.
Qed.
End refinement.
End system.
