(* ===== verification/SystemCorrect.v ===== *)
(** * The whole program: agreement of what the processes print

    The theorems on the composition of [System], and a run of it: four processes
    named by the hashes of their keys, from the proposals three of them type to
    the lists they print, every message through bytes on a connection. *)

From stdpp Require Import base tactics numbers list fin_sets gmap functions relations.
From Stdlib Require Import Init.Byte.
From S2P Require Import Prelude Utils BrbInstance BrbSpec BrbNetwork BrbMiddleware BrbChannel Bca BcaNet AbaNetwork AbaWire AbaChannel AbaProject Acs AcsNetwork BkrChannel CoinGroup CoinWire Overlay BebNetwork BrbStack AbaStack System.

Local Open Scope Z_scope.

(** ** Four processes, one instance *)

Module SysExample.
Import Gf2 StackExample AbcExample.

Definition sps : list UUID := [k1; k2; k3; k4].
Definition sid0 : UUID := participate_id 0.
Definition sids : list UUID := [sid0].
Definition input_for (j : UUID) : bytes :=
  if decide (j = k1) then ["o"; "n"; "e"]%byte else if decide (j = k2) then ["t"; "w"; "o"]%byte else ["3"]%byte.
(** [k4] sends two contents in one broadcast, so neither is delivered. *)
Definition false_input (x : byte) : bytes := bkr_marshal (BkrProposalMsg sid0 [x]).
Definition false_id : UUID := match computeInstanceId ser 9 (key_of k4) with Ok id => id | Err _ => uuid_Nil end.
Definition sysmsgs : list bytes :=
  ((λ j, send_echo j (bkr_marshal (BkrProposalMsg sid0 (input_for j)))) <$> [k1; k2; k3]) ++
  ((λ x, send_echo k4 (false_input x)) <$> ["x"; "y"]%byte).
(** The agreement on the proposal of [k4] has coin 0; [k4] would get other coins. *)
Definition accs : list UUID := acceptor_id sid0 <$> sps.
Definition acc4 : UUID := acceptor_id sid0 k4.
Definition scoin (id : UUID) (r : Z) : bool := bool_decide (id ≠ acc4).
Definition scoins (j id : UUID) (r : Z) : bool := if decide (j = k4) then false else scoin id r.
Definition snode (j : UUID) : Node :=
  MkNode [] [] true (kpeer <$> filter (λ c, kremote j c ≠ j) [1; 2; 3; 4]%nat)
    (main_observers "D" "C" "A" "T" "B") 0 (key_of j).
Definition iid_of (j : UUID) : UUID := match computeInstanceId ser 7 (key_of j) with Ok id => id | Err _ => uuid_Nil end.
Definition iids : list UUID := iid_of <$> [k1; k2; k3].

#[local] Abbreviation event := (@sys_event bytes).
Definition times (n : nat) (l : list event) : list event := concat (replicate n l).
Definition turn (j : UUID) : list event :=
  times 9 ((λ i, YNet (TRead i j (snode j))) <$> filter (λ i, i ≠ j) sps) ++
  times 9 [YNet (TSelf j 0 (snode j))] ++
  times 20 [YBrb (SBebDeliver j 0); YAbc (AMiddleware j 0); YAbc (ATermidware j 0)] ++
  times 20 [YBrb (SDeliver j 0); YAbc (AListener j (inl 0%nat)); YAbc (AListener j (inr 0%nat))] ++
  times 20 [YBrb (SChan j (DSubmit 0)); YAbc (AChan j (CSubmit 0))] ++
  (i ← iids; [YListen j i; YListen j i]) ++ times 3 [YCommand j 0] ++
  (k ← [0; 1; 2; 3]%nat; [YInner j sid0 (EWait k); YInner j sid0 (EWait k); YInner j sid0 (EForward k); YInner j sid0 (EForward k)]) ++
  times 8 [YInner j sid0 EProcess] ++
  (a ← accs; ((λ e, YAbc (AChan j (CInner a e))) <$> inner_events) ++
    [YAbc (AInstance j a (L_bcast KEcho 0) (snode j)); YAbc (AInstance j a (L_bcast KVote 0) (snode j));
     YAbc (AInstance j a (L_bcast KBind 0) (snode j)); YAbc (AInstance j a (L_coin 0) (snode j)); YAbc (AToss j a 0);
     YAbc (AInstance j a L_decision (snode j)); YAbc (AChan j (CAsync a)); YAbc (AChan j (CAsync a))]) ++
  (k ← [0; 1; 2; 3]%nat; [YDecide j sid0 k]) ++
  times 6 ((λ g, YBrb (SSignal j g 0 (snode j))) <$> [0; 1; 2]%nat) ++
  (g ← seq 0 30; times 3 [YNet (TWrite j g)]).
(** What they print. *)
Definition outputs : list bytes := [input_for k1; input_for k2; input_for k3].
Definition round : list event := k ← [k1; k2; k3]; turn k.
Definition run : list event :=
  (j ← [k1; k2; k3]; [YInput j (input_for j) 7 (snode j); YOpen j]) ++
  [YNet (TBytes k4 k2 (ov_send (generic :: "A"%byte :: broadcastVote acc4 0 1)));
   YNet (TBytes k4 k2 (ov_send [generic; "B"; "z"]%byte));
   YNet (TBytes k4 k1 (ov_send (generic :: "B"%byte :: wrapSend 9 (false_input "x"))));
   YNet (TBytes k4 k2 (ov_send (generic :: "B"%byte :: wrapSend 9 (false_input "y"))))] ++
  times 16 round ++ [YPrint k1 outputs; YPrint k2 outputs].

#[local] Abbreviation exec := (sys_exec ser gf2 mbk sysmsgs key_of kremote sids "B"%byte "A"%byte "T"%byte scoins).
(** Events that are not enabled are left out. *)
Definition yexec (l : list event) (S : system) : system :=
  foldl (λ S e, if bool_decide (sys_may mbk e) then default S (exec e S) else S) S l.
Definition yS : system := yexec run (sys_init mbk sps "A" "T").

#[local] Abbreviation reachable := (sys_reachable ser gf2 mbk sysmsgs key_of kremote sps sids "B"%byte "A"%byte "T"%byte scoins).

Lemma yexec_reachable l S : reachable S → reachable (yexec l S).
Proof.
  unfold yexec. revert S. induction l as [|e l IH]; intros S HS; simpl; [done|]. apply IH.
  destruct (bool_decide (sys_may mbk e)) eqn:Ha; [|done]. apply bool_decide_eq_true_1 in Ha.
  destruct (exec e S) as [S'|] eqn:E; [|done]. simpl. eapply rtc_r; [done|]. by econstructor.
Qed.

Lemma yS_reachable : reachable yS.
Proof. apply yexec_reachable. constructor. Qed.

(** Both have printed the three proposals; the contents of [k4] have reached
    correct processes, and no broadcast of a faulty process has been delivered. *)
Definition yS_check : bool :=
  let S := yS in
  bool_decide (sp_printed (sy_proc S k1) = [outputs]) && bool_decide (sp_printed (sy_proc S k2) = [outputs]) &&
  bool_decide ((false_id, k4, false_input "x") ∈ sy_made S) &&
  bool_decide ((false_id, k4, false_input "y") ∈ sy_made S) &&
  forallb (λ k, bool_decide (Forall (λ x, Sender x.2 ∉ faulty mbk) (BrbDeliver (stack_chans (brb_of S) k)))) [k1; k2; k3].
Lemma yS_checked : yS_check = true.
Proof. vm_cast_no_check (@eq_refl bool true). Qed.

Lemma correct_mbk k : correct mbk k → k ∈ [k1; k2; k3].
Proof. intros [Hk Hf]. unfold mbk in *. simpl in *. set_solver. Qed.

Lemma no_false_delivery (S : system (PublicKey := bytes)) :
  forallb (λ k, bool_decide (Forall (λ x, Sender x.2 ∉ faulty mbk) (BrbDeliver (stack_chans (brb_of S) k)))) [k1; k2; k3] = true →
  ∀ k iid s id x, s ∈ faulty mbk → correct mbk k → ¬ Delivered S k iid s id x.
Proof.
  rewrite forallb_forall. intros H k iid s id x Hs Hk%correct_mbk Hd.
  specialize (H k (proj1 (list_elem_of_In _ _) Hk)). rewrite bool_decide_eq_true, Forall_forall in H.
  by apply (H _ Hd).
Qed.

Lemma yS_facts :
  (Prints yS k1 0 outputs ∧ Prints yS k2 0 outputs) ∧
  ((false_id, k4, false_input "x") ∈ sy_made yS ∧ (false_id, k4, false_input "y") ∈ sy_made yS) ∧
  ∀ k iid s id x, s ∈ faulty mbk → correct mbk k → ¬ Delivered yS k iid s id x.
Proof.
  pose proof yS_checked as H. unfold yS_check in H.
  apply andb_prop in H as [[[[H1%bool_decide_eq_true_1 H2%bool_decide_eq_true_1]%andb_prop
    H3%bool_decide_eq_true_1]%andb_prop H4%bool_decide_eq_true_1]%andb_prop H5].
  pose proof (no_false_delivery yS H5) as H6.
  unfold Prints. rewrite H1, H2. split_and!; [reflexivity|reflexivity|exact H3|exact H4|exact H6].
Qed.

Lemma scoins_common : common_coin mbk scoins scoin.
Proof. intros j id r [_ Hj]. unfold scoins. rewrite decide_False; [done|]. intros ->. apply Hj. by apply elem_of_singleton. Qed.

Lemma sys_names : collision_free sysmsgs ∧ NoDup sids ∧ NoDup (id ← sids; acceptor_id id <$> sps).
Proof.
  split_and!; [|apply (bool_decide_unpack _); vm_compute; exact I..].
  intros a b Ha Hb. revert a Ha b Hb.
  assert (H : Forall (λ a, Forall (λ b, BytesToUUID a = BytesToUUID b → a = b) sysmsgs) sysmsgs).
  { apply (bool_decide_unpack _). vm_compute. exact I. }
  rewrite Forall_forall in H. intros a Ha b Hb. specialize (H a Ha). rewrite Forall_forall in H. by apply H.
Qed.
Lemma sys_codes_ok : "B"%byte ≠ "A"%byte ∧ "B"%byte ≠ "T"%byte ∧ "A"%byte ≠ "T"%byte.
Proof. done. Qed.
Lemma sys_correct : correct mbk k1 ∧ correct mbk k2.
Proof. split; apply (bool_decide_unpack _); vm_compute; exact I. Qed.
End SysExample.
Import Gf2 StackExample SysExample.

(** ** Theorems *)

(** C35: the program implements its layers.  In a run of the program, the
    broadcast channels and their middlewares do what the stack of [BrbStack]
    does, the agreement channels what the stack of [AbaStack] does with the
    proposals the acceptors make, and the common subset channels what the network
    of [BkrChannel] does, with what the first delivers at correct processes and
    the decisions of the second.  The coin is common ([common_coin]): the coin
    channels of the correct processes output the same coins. *)
Theorem system_refines {PublicKey : Type} (SerializePublicKey : PublicKey → option bytes) (G : CirclGroup)
    (mb : membership UUID) `{!Resilient mb} (msgs : list bytes) (pk_of : UUID → PublicKey)
    (remote : UUID → nat → UUID) (ps ids : list UUID) (bcode mcode tcode : byte) (coin : UUID → UUID → Z → bool)
    (common : UUID → Z → bool) (S : system) :
  collision_free msgs → (∀ j, j ∈ peers mb → PkToUUID SerializePublicKey (pk_of j) = Some j) →
  bcode ≠ mcode ∧ bcode ≠ tcode ∧ mcode ≠ tcode → NoDup (id ← ids; acceptor_id id <$> ps) →
  common_coin mb coin common →
  sys_reachable SerializePublicKey G mb msgs pk_of remote ps ids bcode mcode tcode coin S →
  brb_stack_reachable SerializePublicKey G mb msgs pk_of remote bcode (brb_of S) ∧
  abc_reachable SerializePublicKey G mb pk_of remote mcode tcode coin (asked (bkr_of S)) (abc_of S) ∧
  ∃ dec, bkr_reachable mb ps (brbs_of mb S) dec (bkr_of S) ∧
    ∀ j id k p d, correct mb j → id ∈ ids → ps !! k = Some p →
      Receives (abc_of S) j (acceptor_id id p) d → dec id k = d.
Proof.
  intros Hcf Hpk Hcodes Haccs Hcoin HS.
  pose proof (sys_reachable_inv _ _ _ _ _ _ _ _ _ _ _ _ Hcf Hpk Hcodes Haccs _ Hcoin S HS) as HI.
  split; [apply HI|]. split; [apply HI|]. exists (final_dec mb ps S).
  assert (Hd : decides mb ps ids S (final_dec mb ps S)) by (eapply final_decides; [done..|apply HI]).
  split; [by apply HI|exact Hd].
Qed.

Lemma system_refines_witness :
  brb_stack_reachable ser gf2 mbk sysmsgs key_of kremote "B"%byte (brb_of yS) ∧
  abc_reachable ser gf2 mbk key_of kremote "A"%byte "T"%byte scoins (asked (bkr_of yS)) (abc_of yS) ∧
  ∃ dec, bkr_reachable mbk sps (brbs_of mbk yS) dec (bkr_of yS) ∧
    ∀ j id k p d, correct mbk j → id ∈ sids → sps !! k = Some p →
      Receives (abc_of yS) j (acceptor_id id p) d → dec id k = d.
Proof.
  exact (system_refines ser gf2 mbk sysmsgs key_of kremote sps sids "B"%byte "A"%byte "T"%byte scoins scoin yS
    (proj1 sys_names) key_names sys_codes_ok (proj2 (proj2 sys_names)) scoins_common yS_reachable).
Defined.

(** C1: the program solves the agreement on a common subset, when the coin is
    common (the coin channels of the correct processes output the same coin for
    the same instance and round) and no faulty process has two different proposals
    delivered at correct processes for one instance.  Two correct processes then
    print the same list for an instance, of at least [n - f] proposals; each of
    them was delivered from a participant at a correct process, and if that
    participant is correct, its user typed it for this instance. *)
Theorem system_agreement {PublicKey : Type} (SerializePublicKey : PublicKey → option bytes) (G : CirclGroup)
    (mb : membership UUID) `{!Resilient mb} (msgs : list bytes) (pk_of : UUID → PublicKey)
    (remote : UUID → nat → UUID) (ps ids : list UUID) (bcode mcode tcode : byte) (coin : UUID → UUID → Z → bool)
    (common : UUID → Z → bool) (S : system) i j r l l' :
  collision_free msgs → (∀ j, j ∈ peers mb → PkToUUID SerializePublicKey (pk_of j) = Some j) →
  bcode ≠ mcode ∧ bcode ≠ tcode ∧ mcode ≠ tcode → NoDup ids → NoDup (id ← ids; acceptor_id id <$> ps) →
  common_coin mb coin common →
  sys_reachable SerializePublicKey G mb msgs pk_of remote ps ids bcode mcode tcode coin S →
  (∀ s id k k' iid iid' x y, s ∈ faulty mb → correct mb k → correct mb k' →
     Delivered S k iid s id x → Delivered S k' iid' s id y → x = y) →
  correct mb i → correct mb j → Prints S i r l → Prints S j r l' →
  l = l' ∧ Z.of_nat (length ps) - mb_f mb ≤ Z.of_nat (length l) ≤ Z.of_nat (length ps) ∧
  ∀ x, x ∈ l → ∃ p k iid, p ∈ ps ∧ correct mb k ∧ Delivered S k iid p (participate_id r) x ∧
    (iid, p, bkr_marshal (BkrProposalMsg (participate_id r) x)) ∈ sy_made S ∧
    (p ∉ faulty mb → sp_inputs (sy_proc S p) !! r = Some x).
Proof.
  intros Hcf Hpk Hcodes Hids Haccs Hcoin HS Hf Hi Hj Hl Hl'.
  pose proof (sys_reachable_inv _ _ _ _ _ _ _ _ _ _ _ _ Hcf Hpk Hcodes Haccs _ Hcoin S HS) as HI.
  assert (Hd : decides mb ps ids S (final_dec mb ps S)) by (eapply final_decides; [done..|apply HI]).
  destruct (bkr_project_reachable _ _ _ _ _ (yv_bkr _ _ _ _ _ _ _ _ _ _ _ _ _ HI _ Hd)) as [_ Hp].
  specialize (Hp (participate_id r)). set (cs := carried (brbs_of mb S) (participate_id r)) in *.
  set (dec := final_dec mb ps S (participate_id r)) in *.
  destruct (yv_printed _ _ _ _ _ _ _ _ _ _ _ _ _ HI i r l Hl) as [[x0 Hx0] Ho].
  destruct (yv_printed _ _ _ _ _ _ _ _ _ _ _ _ _ HI j r l' Hl') as [_ Ho'].
  apply (bkr_outputs_project mb ps) in Ho, Ho'. pose proof (yv_input _ _ _ _ _ _ _ _ _ _ _ _ _ HI i r x0 Hx0) as Hr.
  split; [|split].
  - eapply (acs_agree mb (participate_id r) ps cs dec); [exact Hp| |exact Hi|exact Hj|exact Ho|exact Ho'].
    intros p x y. unfold cs. eapply carried_unique; [apply _|exact Hcf|exact Hpk|exact Hids|exact HI|exact Hf].
  - eapply (acs_size_ok mb (participate_id r) ps cs dec); [exact Hp|exact Hi|exact Ho].
  - intros x Hx. assert (∃ p, p ∈ ps ∧ (p, x) ∈ cs) as (p & Hpp & Hc)
      by (eapply (acs_content mb (participate_id r) ps cs dec); [exact Hp|exact Hi|exact Ho|exact Hx]).
    apply carried_delivered in Hc as (k & iid & Hk & Hdv).
    destruct (delivered_made _ _ _ _ _ _ _ _ _ _ _ _ Hcf Hpk S k iid p _ x HI Hdv) as [Hm Hin].
    exists p, k, iid. split_and!; [done..|]. intros Hpf. destruct (Hin Hpf) as (r' & _ & Hr' & Hx').
    by rewrite (NoDup_lookup ids r r' _ Hids Hr Hr').
Qed.

(** In this run the faulty process sends two proposals for the instance in one
    broadcast. *)
Lemma system_agreement_witness :
  ((false_id, k4, false_input "x") ∈ sy_made yS ∧ (false_id, k4, false_input "y") ∈ sy_made yS) ∧
  outputs = outputs ∧ 4 - 1 ≤ Z.of_nat (length outputs) ≤ 4 ∧
  ∀ x, x ∈ outputs → ∃ p k iid, p ∈ sps ∧ correct mbk k ∧ Delivered yS k iid p (participate_id 0) x ∧
    (iid, p, bkr_marshal (BkrProposalMsg (participate_id 0) x)) ∈ sy_made yS ∧
    (p ∉ faulty mbk → sp_inputs (sy_proc yS p) !! 0%nat = Some x).
Proof.
  destruct yS_facts as ((H1 & H2) & H3 & H4). split; [exact H3|].
  apply (system_agreement ser gf2 mbk sysmsgs key_of kremote sps sids "B"%byte "A"%byte "T"%byte scoins scoin yS k1 k2 0 outputs outputs
    (proj1 sys_names) key_names sys_codes_ok (proj1 (proj2 sys_names)) (proj2 (proj2 sys_names)) scoins_common yS_reachable);
    [|exact (proj1 sys_correct)|exact (proj2 sys_correct)|exact H1|exact H2].
  intros s id k k' iid iid' x y Hs Hk _ Hd _. destruct (H4 _ _ _ _ _ Hs Hk Hd).
Defined.
