(* ===== verification/OverlayMesh.v ===== *)
(** * Package [overlayNetwork]: membership

    [peer.go], the membership of [node.go], and [getParticipantIds] of [main.go].
    The sockets and certificates are inputs of the operations that read them: what
    [tls.Dial], [Accept] and [PeerCertificates] answer.

    The second part composes the operations into the join protocol between
    correct nodes, every goroutine of [maintainConnection] and [processMessage]
    a pending task, in any order. *)

From stdpp Require Import base tactics numbers list fin_sets gmap functions relations sorting.
From Stdlib Require Import Init.Byte.
From S2P Require Import Prelude Utils CoinGroup CoinWire Overlay.

Local Open Scope Z_scope.

(** ** Strings in the order of [slices.Sort] *)

Fixpoint bytes_leb (a b : bytes) : bool :=
  match a, b with
  | [], _ => true
  | _, [] => false
  | x :: a, y :: b => (byte_Z x <? byte_Z y) || ((byte_Z x =? byte_Z y) && bytes_leb a b)
  end.
Definition bytes_le (a b : bytes) : Prop := bytes_leb a b = true.

#[export] Instance bytes_le_dec : RelDecision bytes_le.
Proof. intros a b. unfold bytes_le. apply _. Defined.

#[export] Instance bytes_le_total : Total bytes_le.
Proof.
  intros a. unfold bytes_le. induction a as [|x a IH]; intros [|y b]; simpl; auto.
  destruct (Z.ltb_spec (byte_Z x) (byte_Z y)); simpl; [by left|].
  destruct (Z.ltb_spec (byte_Z y) (byte_Z x)); simpl; [by right|].
  assert (byte_Z x = byte_Z y) as -> by lia. rewrite !Z.eqb_refl. simpl. apply IH.
Qed.

#[export] Instance bytes_le_trans : Transitive bytes_le.
Proof.
  intros a. unfold bytes_le. induction a as [|x a IH]; intros [|y b] [|z c]; simpl; try done.
  rewrite !orb_true_iff, !andb_true_iff, !Z.ltb_lt, !Z.eqb_eq. intros [?|[Hxy ?]] [?|[Hyz ?]]; [left; lia..|].
  right. split; [lia|]. by apply (IH b).
Qed.

#[export] Instance bytes_le_antisymm : AntiSymm (=) bytes_le.
Proof.
  intros a. unfold bytes_le. induction a as [|x a IH]; intros [|y b]; simpl; try done.
  rewrite !orb_true_iff, !andb_true_iff, !Z.ltb_lt, !Z.eqb_eq. intros [?|[Hxy ?]] [?|[Hyz ?]]; [lia..|].
  f_equal; [by apply (inj byte_Z)|by apply IH].
Qed.

Lemma merge_sort_permutation (l k : list bytes) : l ≡ₚ k → merge_sort bytes_le l = merge_sort bytes_le k.
Proof.
  intros Hp. apply (Sorted_unique bytes_le); [apply Sorted_merge_sort, _..|].
  by rewrite !merge_sort_Permutation.
Qed.

(** ** Operations *)

Section node.
Context {PublicKey : Type} (SerializePublicKey : PublicKey → option bytes).
(** [uuid.UUID.String] and [uuid.MustParse], which panics on a bad string. *)
Context (String : UUID → bytes) (MustParse : bytes → option UUID).

#[local] Abbreviation Node := (@Node PublicKey).
#[local] Abbreviation peer := (@peer PublicKey).

Inductive peer_err := DialErr | SendErr | NoCertificates | NoUUID | listenerCloseError | InitErr (e : receive_err).

(** The key of a certificate: the type assertion [.( *ecdsa.PublicKey)] panics
    on any other. *)
Inductive cert_key := EcdsaKey (pk : PublicKey) | OtherKey.

Definition peer_of (conn : nat) (name : bytes) (certs : list cert_key) : outcome (result peer_err peer) :=
  match certs with
  | [] => Done (Err NoCertificates)
  | OtherKey :: _ => Panic
  | EcdsaKey pk :: _ =>
    match PkToUUID SerializePublicKey pk with
    | None => Done (Err NoUUID)
    | Some pkId => Done (Ok (Peer (Some conn) name (Some pk) pkId))
    end
  end.

(** [dial]: nothing, or a connection, whether the write of the name succeeds, and
    the certificates of the other side.  The bytes written are [ov_send myName]. *)
Definition newOutbound (address : bytes) (dial : option (nat * bool * list cert_key)) :
    outcome (result peer_err peer) :=
  match dial with
  | None => Done (Err DialErr)
  | Some (_, false, _) => Done (Err SendErr)
  | Some (conn, true, certs) => peer_of conn address certs
  end.

(** [accepted]: nothing when the listener is closed, or a connection, the bytes
    that arrive on it, and the certificates of the other side. *)
Definition getInbound (accepted : option (nat * bytes * list cert_key)) : outcome (result peer_err peer) :=
  match accepted with
  | None => Done (Err listenerCloseError)
  | Some (conn, stream, certs) =>
    match (receive stream).1 with
    | Err e => Done (Err (InitErr e))
    | Ok name => peer_of conn name certs
    end
  end.

(** The zero value of [peer]. *)
Definition zero_peer : peer := Peer None [] None uuid_Nil.

Definition set_peers (ps : list peer) (n : Node) : Node :=
  MkNode (n_address n) (n_contact n) (hasJoined n) ps (msgObservers n) (memChan n) (n_pk n).

Definition updatePeers (p : peer) (n : Node) : Node := set_peers (n_peers n ++ [p]) n.
Definition forgetPeer (rem : peer) (n : Node) : Node :=
  set_peers (filter (λ p, p_name rem ≠ p_name p) (n_peers n)) n.

(** The peer is forgotten; [Close] of a nil connection panics. *)
Definition closeConnection (p : peer) (n : Node) : outcome Node :=
  match p_conn p with None => Panic | Some _ => Done (forgetPeer p n) end.
Definition closeAllConnections (n : Node) : outcome Node :=
  if decide (Forall (λ p, is_Some (p_conn p)) (n_peers n)) then Done (set_peers [] n) else Panic.

(** The messages given to [send] for the connection of [p]. *)
Definition sendMembership (p : peer) (n : Node) : list bytes :=
  (λ q, membership_code :: p_name q) <$> filter (λ q, p_name q ≠ p_name p) (n_peers n).

(** The goroutine that signals [memChan]. *)
Definition signal (n : Node) : Node :=
  MkNode (n_address n) (n_contact n) (hasJoined n) (n_peers n) (msgObservers n) (S (memChan n)) (n_pk n).
Definition WaitForPeers (numPeers : nat) (n : Node) : option Node :=
  if decide (numPeers ≤ memChan n)%nat then
    Some (MkNode (n_address n) (n_contact n) (hasJoined n) (n_peers n) (msgObservers n)
            (memChan n - numPeers) (n_pk n))
  else None.

(** [maintainConnection] between [updatePeers] and its reading loop, with the
    messages it writes and no failure of a write; reading from a nil connection
    panics. *)
Definition maintain_rest (p : peer) (amContact : bool) (n : Node) : outcome (Node * list bytes) :=
  match p_conn p with
  | None => Panic
  | Some _ => Done (signal n, if amContact then sendMembership p n else [])
  end.
Definition maintainConnection (p : peer) (amContact : bool) (n : Node) : outcome (Node * list bytes) :=
  maintain_rest p amContact (updatePeers p n).

(** An error of [newOutbound] is logged, and the zero peer maintained. *)
Definition processMembershipMsg (msg : bytes) (dial : option (nat * bool * list cert_key)) (n : Node) :
    outcome (Node * list bytes) :=
  r ← newOutbound msg dial;
  maintainConnection (match r with Ok p => p | Err _ => zero_peer end) false n.

(** [Join]: the flag is set after the connection to the contact; the peer is the
    one a goroutine then maintains. *)
Definition Join (dial : option (nat * bool * list cert_key)) (n : Node) :
    outcome (result net_err (Node * option peer)) :=
  let joined := MkNode (n_address n) (n_contact n) true (n_peers n) (msgObservers n) (memChan n) (n_pk n) in
  if hasJoined n then Done (Err AlreadyJoined) else
  if decide (n_address n = n_contact n) then Done (Ok (joined, None)) else
  r ← newOutbound (n_contact n) dial;
  Done (match r with Err _ => Err ContactErr | Ok p => Ok (joined, Some p) end).

(** ** The participants *)

Definition GetId (n : Node) : result peer_err UUID :=
  match PkToUUID SerializePublicKey (n_pk n) with None => Err NoUUID | Some id => Ok id end.

(** A nil key panics in [x509]. *)
Fixpoint GetPeerIds_loop (peers : list peer) : outcome (result peer_err (list UUID)) :=
  match peers with
  | [] => Done (Ok [])
  | p :: peers =>
    match p_pk p with
    | None => Panic
    | Some pk =>
      match PkToUUID SerializePublicKey pk with
      | None => Done (Err NoUUID)
      | Some id =>
        r ← GetPeerIds_loop peers;
        Done (match r with Err e => Err e | Ok ids => Ok (id :: ids) end)
      end
    end
  end.
Definition GetPeerIds (n : Node) : outcome (result peer_err (list UUID)) := GetPeerIds_loop (n_peers n).

Definition getParticipantIds (n : Node) : outcome (result peer_err (list UUID)) :=
  r ← GetPeerIds n;
  match r with
  | Err e => Done (Err e)
  | Ok unsortedIds =>
    match GetId n with
    | Err e => Done (Err e)
    | Ok id =>
      let idsString := merge_sort bytes_le (String <$> unsortedIds ++ [id]) in
      match mapM MustParse idsString with
      | None => Panic
      | Some sortedIds => Done (Ok sortedIds)
      end
    end
  end.

(** ** The join protocol between correct nodes

    [pk_of] gives the key of the node at an address, [id_of] its identifier.
    Dialling a node succeeds. *)

Context (G : CirclGroup) (contact : bytes) (pk_of : bytes → PublicKey) (obs : list observer).

(** [m_starts]: goroutines about to run [maintainConnection], with the node, the
    peer and [amContact]; [m_rests]: those past [updatePeers]; [m_msgs]:
    membership messages in transit, with their receiver. *)
Record mesh := Mesh {
  m_nodes : bytes → Node;
  m_starts : list (bytes * peer * bool);
  m_rests : list (bytes * peer * bool);
  m_msgs : list (bytes * bytes);
  m_next : nat;
}.

Definition mesh_init : mesh := Mesh (λ a, MkNode a contact false [] obs 0 (pk_of a)) [] [] [] 0.

Inductive mesh_event := EJoin (a : bytes) | EStart (k : nat) | ERest (k : nat) | ERecv (k : nat).

(** The two goroutines of a new connection from [a] to [b], whose end at [a] is
    the peer [p]. *)
Definition connected (a : bytes) (p : peer) (b : bytes) (C : mesh) : option (list (bytes * peer * bool)) :=
  match getInbound (Some (m_next C, ov_send (n_address (m_nodes C a)), [EcdsaKey (pk_of a)])) with
  | Done (Ok q) => Some [(a, p, false); (b, q, bool_decide (b = contact))]
  | _ => None
  end.
Definition dial_of (b : bytes) (C : mesh) : option (nat * bool * list cert_key) :=
  Some (m_next C, true, [EcdsaKey (pk_of b)]).

Definition mesh_exec (e : mesh_event) (C : mesh) : option mesh :=
  match e with
  | EJoin a =>
    if decide (2 ^ 32 ≤ Z.of_nat (length a)) then None else
    match Join (dial_of contact C) (m_nodes C a) with
    | Done (Ok (n, None)) => Some (Mesh (<[a := n]> (m_nodes C)) (m_starts C) (m_rests C) (m_msgs C) (m_next C))
    | Done (Ok (n, Some p)) =>
      ts ← connected a p contact C;
      Some (Mesh (<[a := n]> (m_nodes C)) (m_starts C ++ ts) (m_rests C) (m_msgs C) (S (m_next C)))
    | _ => None
    end
  | EStart k =>
    '(a, p, am) ← m_starts C !! k;
    Some (Mesh (<[a := updatePeers p (m_nodes C a)]> (m_nodes C)) (delete k (m_starts C))
      (m_rests C ++ [(a, p, am)]) (m_msgs C) (m_next C))
  | ERest k =>
    '(a, p, am) ← m_rests C !! k;
    match maintain_rest p am (m_nodes C a) with
    | Done (n, ms) =>
      Some (Mesh (<[a := n]> (m_nodes C)) (m_starts C) (delete k (m_rests C))
        (m_msgs C ++ (pair (p_name p) <$> ms)) (m_next C))
    | _ => None
    end
  | ERecv k =>
    '(a, m) ← m_msgs C !! k;
    match processMessage G m (pk_of contact) (m_nodes C a) with
    | Done (ToMembership _ b) =>
      match newOutbound b (dial_of b C) with
      | Done (Ok p) =>
        ts ← connected a p b C;
        Some (Mesh (m_nodes C) (m_starts C ++ ts) (m_rests C) (delete k (m_msgs C)) (S (m_next C)))
      | _ => None
      end
    | _ => None
    end
  end.

Definition mesh_step (C C' : mesh) : Prop := ∃ e, mesh_exec e C = Some C'.
Definition mesh_reachable (C : mesh) : Prop := rtc mesh_step mesh_init C.

Fixpoint mesh_run (es : list mesh_event) (C : mesh) : option mesh :=
  match es with [] => Some C | e :: es => C ← mesh_exec e C; mesh_run es C end.

Lemma mesh_run_reachable es C C' : mesh_reachable C → mesh_run es C = Some C' → mesh_reachable C'.
Proof.
  revert C. induction es as [|e es IH]; simpl; intros C HC Hr; [by injection Hr as <-|].
  destruct (mesh_exec e C) as [C1|] eqn:He; [|done]. apply (IH C1); [|done].
  eapply rtc_r; [done|]. by exists e.
Qed.

(** Every goroutine is in its reading loop and every message processed. *)
Definition quiescent (C : mesh) : Prop := m_starts C = [] ∧ m_rests C = [] ∧ m_msgs C = [].

Definition joined (C : mesh) (a : bytes) : Prop := hasJoined (m_nodes C a) = true.
Definition names (C : mesh) (a : bytes) : list bytes := p_name <$> n_peers (m_nodes C a).
Definition Linked (C : mesh) (a b : bytes) : Prop :=
  b ∈ names C a ∨ ∃ p am, (a, p, am) ∈ m_starts C ∧ p_name p = b.

(** ** Invariant *)

Context (id_of : bytes → UUID) (Hid : ∀ a, PkToUUID SerializePublicKey (pk_of a) = Some (id_of a)).

(** A peer as a node [a] knows it. *)
Definition good (C : mesh) (a : bytes) (p : peer) : Prop :=
  (∃ conn, p = Peer (Some conn) (p_name p) (Some (pk_of (p_name p))) (id_of (p_name p))) ∧
  p_name p ≠ a ∧ (joined C a ∨ a = contact) ∧ (joined C (p_name p) ∨ p_name p = contact).

Record mesh_inv (C : mesh) : Prop := {
  mi_node a : n_address (m_nodes C a) = a ∧ n_contact (m_nodes C a) = contact ∧ n_pk (m_nodes C a) = pk_of a;
  mi_short a : joined C a → Z.of_nat (length a) < 2 ^ 32;
  mi_peers a p : p ∈ n_peers (m_nodes C a) → good C a p;
  mi_starts a p am : (a, p, am) ∈ m_starts C → good C a p ∧ am = bool_decide (a = contact);
  mi_rests a p am : (a, p, am) ∈ m_rests C → good C a p ∧ am = bool_decide (a = contact) ∧ p_name p ∈ names C a;
  mi_sym a b : Linked C a b → Linked C b a;
  mi_contact a : joined C a → a ≠ contact → Linked C contact a;
  mi_msgs a m : (a, m) ∈ m_msgs C → ∃ b, m = membership_code :: b ∧ a ≠ b ∧
    a ≠ contact ∧ b ≠ contact ∧ joined C a ∧ joined C b;
  mi_pairs i j : i ≠ j → i ∈ names C contact → j ∈ names C contact →
    Linked C i j ∨ (i, membership_code :: j) ∈ m_msgs C ∨ (j, membership_code :: i) ∈ m_msgs C ∨
    ∃ p, (contact, p, true) ∈ m_rests C ∧ (p_name p = i ∨ p_name p = j);
}.

Lemma mesh_inv_init : mesh_inv mesh_init.
Proof.
  split; try done; simpl.
  - intros a p Hin. by apply not_elem_of_nil in Hin.
  - intros a p am Hin. by apply not_elem_of_nil in Hin.
  - intros a p am Hin. by apply not_elem_of_nil in Hin.
  - intros a b [Hin|(p & am & Hin & _)]; by apply not_elem_of_nil in Hin.
  - intros a m Hin. by apply not_elem_of_nil in Hin.
  - intros i j _ Hin. by apply not_elem_of_nil in Hin.
Qed.

Lemma elem_of_delete_at {A} (l : list A) k x y : l !! k = Some x → y ∈ l ↔ y = x ∨ y ∈ delete k l.
Proof.
  intros Hx. pose proof (delete_Permutation l k x Hx) as Hp. rewrite <-elem_of_cons.
  generalize dependent (x :: delete k l). intros l' Hp. by rewrite Hp.
Qed.

Lemma connected_spec a p b C :
  n_address (m_nodes C a) = a → Z.of_nat (length a) < 2 ^ 32 →
  connected a p b C = Some [(a, p, false); (b, Peer (Some (m_next C)) a (Some (pk_of a)) (id_of a), bool_decide (b = contact))].
Proof.
  intros Ha Hl. unfold connected, getInbound. rewrite Ha.
  rewrite <-(app_nil_r (ov_send a)), receive_send by done. unfold peer_of. by rewrite Hid.
Qed.

Lemma newOutbound_spec b C :
  newOutbound b (dial_of b C) = Done (Ok (Peer (Some (m_next C)) b (Some (pk_of b)) (id_of b))).
Proof. unfold newOutbound, dial_of, peer_of. by rewrite Hid. Qed.

(** A new connection between [a] and [b]; [a] may be joining. *)
Lemma inv_link C nodes msgs next conn a b :
  mesh_inv C →
  (∀ x, n_peers (nodes x) = n_peers (m_nodes C x) ∧ n_address (nodes x) = n_address (m_nodes C x) ∧
        n_contact (nodes x) = n_contact (m_nodes C x) ∧ n_pk (nodes x) = n_pk (m_nodes C x)) →
  (∀ x, joined C x → hasJoined (nodes x) = true) →
  (∀ x, hasJoined (nodes x) = true → joined C x ∨ x = a ∧ b = contact ∧ Z.of_nat (length a) < 2 ^ 32) →
  a ≠ b → a ≠ contact → hasJoined (nodes a) = true → hasJoined (nodes b) = true ∨ b = contact →
  (∀ x, x ∈ msgs → x ∈ m_msgs C) →
  (∀ x, x ∈ m_msgs C → x ∈ msgs ∨ x = (a, membership_code :: b)) →
  mesh_inv (Mesh nodes (m_starts C ++ [(a, Peer (Some conn) b (Some (pk_of b)) (id_of b), false);
                                       (b, Peer (Some conn) a (Some (pk_of a)) (id_of a), bool_decide (b = contact))])
    (m_rests C) msgs next).
Proof.
  intros HC Hn Hj Hj' Hab Hac Ha Hb Hm Hm'. set (C' := Mesh _ _ _ _ _).
  assert (Hnames : ∀ x, names C' x = names C x) by (intros x; unfold names; simpl; by destruct (Hn x) as [-> _]).
  assert (Hgood : ∀ x p, good C x p → good C' x p).
  { intros x p (? & ? & [?|?] & [?|?]); split_and!; unfold joined; simpl; auto. }
  assert (HL : ∀ x y, Linked C' x y ↔ Linked C x y ∨ (x = a ∧ y = b) ∨ (x = b ∧ y = a)).
  { intros x y. unfold Linked. rewrite Hnames. simpl. setoid_rewrite elem_of_app.
    setoid_rewrite elem_of_cons. setoid_rewrite list_elem_of_singleton. split.
    - intros [?|(p & am & [?|[[= -> -> ->]|[= -> -> ->]]] & <-)]; [by left; left| |by right; left|by right; right].
      left. right. by exists p, am.
    - intros [[?|(p & am & ? & ?)]|[[-> ->]|[-> ->]]]; [by left|..]; right.
      + exists p, am. auto.
      + do 2 eexists. split; [right; left; done|done].
      + do 2 eexists. split; [right; right; done|done]. }
  destruct HC. split.
  - intros x. simpl. destruct (Hn x) as (_ & -> & -> & ->). apply mi_node0.
  - intros x Hx. apply Hj' in Hx as [?|(-> & _ & ?)]; [by apply mi_short0|done].
  - intros x p. simpl. destruct (Hn x) as [-> _]. intros Hp. by apply Hgood, mi_peers0.
  - intros x p am. simpl. rewrite elem_of_app, elem_of_cons, list_elem_of_singleton.
    intros [Hin|[[= -> -> ->]|[= -> -> ->]]].
    + destruct (mi_starts0 _ _ _ Hin) as [? ?]. split; [by apply Hgood|done].
    + split; [|by rewrite bool_decide_eq_false_2]. split_and!; simpl; [by eexists|done|by left|by destruct Hb; [left|right]].
    + split; [|done]. split_and!; simpl; [by eexists|done|by destruct Hb; [left|right]|by left].
  - intros x p am Hin. destruct (mi_rests0 _ _ _ Hin) as (? & ? & ?). rewrite Hnames. split_and!; [by apply Hgood|done..].
  - intros x y. rewrite !HL. intros [?|[[-> ->]|[-> ->]]]; [left; by apply mi_sym0|by right; right|by right; left].
  - intros x Hx Hne. rewrite HL. apply Hj' in Hx as [?|(-> & -> & _)]; [left; by apply mi_contact0|by right; right].
  - intros x m Hin. apply Hm in Hin. destruct (mi_msgs0 _ _ Hin) as (y & -> & ? & ? & ? & ? & ?).
    exists y. unfold joined. simpl. split_and!; auto.
  - intros i j Hij. rewrite !Hnames, HL. intros Hi Hjn. simpl.
    destruct (mi_pairs0 i j Hij Hi Hjn) as [?|[Hin|[Hin|?]]].
    + by left; left.
    + apply Hm' in Hin as [?|[= -> ->]]; [by right; left|by left; right; left].
    + apply Hm' in Hin as [?|[= -> ->]]; [by right; right; left|by left; right; right].
    + by right; right; right.
Qed.

Lemma mesh_join a C C' : mesh_inv C → mesh_exec (EJoin a) C = Some C' → mesh_inv C'.
Proof.
  intros HC. unfold mesh_exec. destruct (decide _) as [|Hlen]; [done|].
  destruct (mi_node C HC a) as (Ha & Hc & Hpk). unfold Join. rewrite Ha, Hc.
  destruct (hasJoined (m_nodes C a)) eqn:Hj; [done|].
  set (n := MkNode _ _ _ _ _ _ _).
  assert (Hn : ∀ x, n_peers ((<[a := n]> (m_nodes C)) x) = n_peers (m_nodes C x) ∧
    n_address ((<[a := n]> (m_nodes C)) x) = n_address (m_nodes C x) ∧
    n_contact ((<[a := n]> (m_nodes C)) x) = n_contact (m_nodes C x) ∧
    n_pk ((<[a := n]> (m_nodes C)) x) = n_pk (m_nodes C x)).
  { intros x. destruct (decide (a = x)) as [<-|]; [rewrite fn_lookup_insert|by rewrite fn_lookup_insert_ne].
    by rewrite Ha, Hc. }
  assert (Hjm : ∀ x, joined C x → hasJoined ((<[a := n]> (m_nodes C)) x) = true).
  { intros x Hx. destruct (decide (a = x)) as [<-|]; [by rewrite fn_lookup_insert|by rewrite fn_lookup_insert_ne]. }
  assert (Hja : ∀ x, hasJoined ((<[a := n]> (m_nodes C)) x) = true → joined C x ∨ x = a).
  { intros x. destruct (decide (a = x)) as [<-|]; [by right|rewrite fn_lookup_insert_ne by done; by left]. }
  destruct (decide (a = contact)) as [->|Hne].
  - intros [= <-]. set (C' := Mesh _ _ _ _ _).
    assert (Hnames : ∀ x, names C' x = names C x) by (intros x; unfold names; simpl; by destruct (Hn x) as [-> _]).
    assert (HL : ∀ x y, Linked C' x y ↔ Linked C x y) by (intros x y; unfold Linked; by rewrite Hnames).
    assert (Hgood : ∀ x p, good C x p → good C' x p).
    { intros x p (? & ? & [?|?] & [?|?]); split_and!; unfold joined; simpl; auto. }
    destruct HC. split.
    + intros x. simpl. destruct (Hn x) as (_ & -> & -> & ->). apply mi_node0.
    + intros x Hx. apply Hja in Hx as [?| ->]; [by apply mi_short0|lia].
    + intros x p. simpl. destruct (Hn x) as [-> _]. intros Hp. by apply Hgood, mi_peers0.
    + intros x p am Hin. destruct (mi_starts0 _ _ _ Hin). split; [by apply Hgood|done].
    + intros x p am Hin. destruct (mi_rests0 _ _ _ Hin) as (? & ? & ?). rewrite Hnames. split_and!; [by apply Hgood|done..].
    + intros x y. rewrite !HL. apply mi_sym0.
    + intros x Hx Hxc. rewrite HL. apply Hja in Hx as [?|?]; [by apply mi_contact0|done].
    + intros x m Hin. destruct (mi_msgs0 _ _ Hin) as (y & -> & ? & ? & ? & ? & ?).
      exists y. unfold joined. simpl. split_and!; auto.
    + intros i j Hij. rewrite !Hnames, HL. by apply mi_pairs0.
  - rewrite newOutbound_spec. cbn [mbind outcome_bind]. rewrite connected_spec by (done || lia).
    cbn [mbind option_bind]. intros [= <-]. apply inv_link; try done.
    + intros x Hx. apply Hja in Hx as [?| ->]; [by left|right; split_and!; [done..|lia]].
    + by rewrite fn_lookup_insert.
    + by right.
    + intros x Hx. by left.
Qed.

Lemma mesh_recv k C C' : mesh_inv C → mesh_exec (ERecv k) C = Some C' → mesh_inv C'.
Proof.
  intros HC. unfold mesh_exec. destruct (m_msgs C !! k) as [[a m]|] eqn:Hk; [|done].
  assert (Hin : (a, m) ∈ m_msgs C) by (by eapply list_elem_of_lookup_2).
  destruct (mi_msgs C HC _ _ Hin) as (b & -> & Hab & Hac & Hbc & Ha & Hb).
  cbn [mbind option_bind]. unfold processMessage. rewrite bool_decide_eq_true_2 by done.
  rewrite newOutbound_spec, connected_spec; [|apply HC|by apply HC].
  simpl. intros [= <-]. apply inv_link; try done.
  - intros x Hx. by left.
  - by left.
  - intros x Hx. apply (elem_of_delete_at _ _ _ _ Hk). by right.
  - intros x Hx. apply (elem_of_delete_at _ _ _ _ Hk) in Hx as [->|Hx]; [by right|by left].
Qed.

Lemma mesh_start k C C' : mesh_inv C → mesh_exec (EStart k) C = Some C' → mesh_inv C'.
Proof.
  intros HC. unfold mesh_exec. destruct (m_starts C !! k) as [[[a p] am]|] eqn:Hk; [|done].
  simpl. intros [= <-]. set (C' := Mesh _ _ _ _ _).
  assert (Hd : ∀ x, x ∈ m_starts C ↔ x = (a, p, am) ∨ x ∈ m_starts C').
  { intros x. by apply (elem_of_delete_at _ _ _ _ Hk). }
  assert (Hnode : ∀ x, n_address (m_nodes C' x) = n_address (m_nodes C x) ∧
    n_contact (m_nodes C' x) = n_contact (m_nodes C x) ∧ n_pk (m_nodes C' x) = n_pk (m_nodes C x) ∧
    hasJoined (m_nodes C' x) = hasJoined (m_nodes C x)).
  { intros x. simpl. destruct (decide (a = x)) as [<-|]; [by rewrite fn_lookup_insert|by rewrite fn_lookup_insert_ne]. }
  assert (Hpeers : ∀ x q, q ∈ n_peers (m_nodes C' x) ↔ q ∈ n_peers (m_nodes C x) ∨ x = a ∧ q = p).
  { intros x q. simpl. destruct (decide (a = x)) as [<-|].
    - rewrite fn_lookup_insert. simpl. rewrite elem_of_app, list_elem_of_singleton. naive_solver.
    - rewrite fn_lookup_insert_ne by done. naive_solver. }
  assert (Hnames : ∀ x y, y ∈ names C' x ↔ y ∈ names C x ∨ x = a ∧ y = p_name p).
  { intros x y. unfold names. rewrite !list_elem_of_fmap. setoid_rewrite Hpeers. naive_solver. }
  assert (HL : ∀ x y, Linked C' x y ↔ Linked C x y).
  { intros x y. unfold Linked. rewrite Hnames. setoid_rewrite Hd. naive_solver. }
  assert (Hjoined : ∀ x, joined C' x ↔ joined C x) by (intros x; unfold joined; by destruct (Hnode x) as (_ & _ & _ & ->)).
  assert (Hgood : ∀ x q, good C x q → good C' x q).
  { intros x q. unfold good. by rewrite !Hjoined. }
  destruct HC. destruct (mi_starts0 a p am) as [Hg ->]; [apply Hd; by left|]. split.
  - intros x. destruct (Hnode x) as (-> & -> & -> & _). apply mi_node0.
  - intros x. rewrite Hjoined. apply mi_short0.
  - intros x q. rewrite Hpeers. intros [Hq|[-> ->]]; [by apply Hgood, mi_peers0|by apply Hgood].
  - intros x q b Hin. destruct (mi_starts0 x q b) as [? ?]; [apply Hd; by right|]. split; [by apply Hgood|done].
  - intros x q b. simpl. rewrite elem_of_app, list_elem_of_singleton, Hnames. intros [Hin|[= -> -> ->]].
    + destruct (mi_rests0 _ _ _ Hin) as (? & ? & ?). split_and!; [by apply Hgood|done|by left].
    + split_and!; [by apply Hgood|done|by right].
  - intros x y. rewrite !HL. apply mi_sym0.
  - intros x. rewrite Hjoined, HL. apply mi_contact0.
  - intros x m Hin. destruct (mi_msgs0 _ _ Hin) as (y & ?). exists y. by rewrite !Hjoined.
  - intros i j Hij. rewrite !Hnames, HL. simpl. setoid_rewrite elem_of_app. setoid_rewrite list_elem_of_singleton.
    intros [Hi|[<- ->]] [Hj|[Ha ->]].
    + destruct (mi_pairs0 i j Hij Hi Hj) as [?|[?|[?|(q & ? & ?)]]]; [naive_solver..|]. right; right; right. exists q. auto.
    + subst a. right; right; right. exists p. rewrite bool_decide_eq_true_2 by done. auto.
    + right; right; right. exists p. rewrite bool_decide_eq_true_2 by done. auto.
    + done.
Qed.

Lemma mesh_rest k C C' : mesh_inv C → mesh_exec (ERest k) C = Some C' → mesh_inv C'.
Proof.
  intros HC. unfold mesh_exec. destruct (m_rests C !! k) as [[[a p] am]|] eqn:Hk; [|done].
  assert (Hin : (a, p, am) ∈ m_rests C) by (by eapply list_elem_of_lookup_2).
  destruct (mi_rests C HC _ _ _ Hin) as (Hg & -> & Hpn). simpl. unfold maintain_rest.
  destruct Hg as ([conn Hp] & Hpa & Hja & Hjp). assert (p_conn p = Some conn) as -> by by rewrite Hp.
  intros [= <-]. set (C' := Mesh _ _ _ _ _).
  assert (Hd : ∀ x, x ∈ m_rests C ↔ x = (a, p, bool_decide (a = contact)) ∨ x ∈ m_rests C').
  { intros x. by apply (elem_of_delete_at _ _ _ _ Hk). }
  assert (Hms : ∀ x m, (x, m) ∈ m_msgs C' ↔ (x, m) ∈ m_msgs C ∨ x = p_name p ∧ a = contact ∧
    ∃ y, m = membership_code :: y ∧ y ∈ names C contact ∧ y ≠ p_name p).
  { intros x m. simpl. rewrite elem_of_app. f_equiv. destruct (decide (a = contact)) as [->|Hne].
    - rewrite bool_decide_eq_true_2, list_elem_of_fmap by done. unfold sendMembership, names.
      setoid_rewrite list_elem_of_fmap. setoid_rewrite list_elem_of_filter. naive_solver.
    - rewrite bool_decide_eq_false_2 by done. simpl. rewrite elem_of_nil. naive_solver. }
  assert (Hnode : ∀ x, n_address (m_nodes C' x) = n_address (m_nodes C x) ∧
    n_contact (m_nodes C' x) = n_contact (m_nodes C x) ∧ n_pk (m_nodes C' x) = n_pk (m_nodes C x) ∧
    hasJoined (m_nodes C' x) = hasJoined (m_nodes C x) ∧ n_peers (m_nodes C' x) = n_peers (m_nodes C x)).
  { intros x. simpl. destruct (decide (a = x)) as [<-|]; [by rewrite fn_lookup_insert|by rewrite fn_lookup_insert_ne]. }
  assert (Hnames : ∀ x, names C' x = names C x) by (intros x; unfold names; by destruct (Hnode x) as (_ & _ & _ & _ & ->)).
  assert (HL : ∀ x y, Linked C' x y ↔ Linked C x y) by (intros x y; unfold Linked; by rewrite Hnames).
  assert (Hjoined : ∀ x, joined C' x ↔ joined C x) by (intros x; unfold joined; by destruct (Hnode x) as (_ & _ & _ & -> & _)).
  assert (Hgood : ∀ x q, good C x q → good C' x q) by (intros x q; unfold good; by rewrite !Hjoined).
  assert (Hold : ∀ i m, (i, m) ∈ m_msgs C → (i, m) ∈ m_msgs C') by (intros i m ?; apply Hms; by left).
  assert (Hnew : ∀ i, i ∈ names C contact → a = contact → i ≠ p_name p →
    (p_name p, membership_code :: i) ∈ m_msgs C').
  { intros i ???. apply Hms. right. split_and!; [done..|]. by exists i. }
  destruct HC. split.
  - intros x. destruct (Hnode x) as (-> & -> & -> & _). apply mi_node0.
  - intros x. rewrite Hjoined. apply mi_short0.
  - intros x q. destruct (Hnode x) as (_ & _ & _ & _ & ->). intros Hq. by apply Hgood, mi_peers0.
  - intros x q b Hq. destruct (mi_starts0 _ _ _ Hq) as [? ?]. split; [by apply Hgood|done].
  - intros x q b Hq. rewrite Hnames. destruct (mi_rests0 x q b) as (? & ? & ?); [apply Hd; by right|].
    split_and!; [by apply Hgood|done..].
  - intros x y. rewrite !HL. apply mi_sym0.
  - intros x. rewrite Hjoined, HL. apply mi_contact0.
  - intros x m. rewrite Hms. intros [Hq|(-> & -> & y & -> & Hy & Hne)].
    + destruct (mi_msgs0 _ _ Hq) as (y & ?). exists y. by rewrite !Hjoined.
    + exists y. unfold names in Hy. apply list_elem_of_fmap in Hy as (q & -> & Hq).
      destruct (mi_peers0 _ _ Hq) as (_ & ? & _ & ?). rewrite !Hjoined. naive_solver.
  - intros i j Hij. rewrite !Hnames, HL. intros Hi Hj.
    destruct (mi_pairs0 i j Hij Hi Hj) as [?|[?|[?|(q & Hq & Hqn)]]];
      [by left|right; left; by apply Hold|right; right; left; by apply Hold|].
    apply Hd in Hq as [[= -> -> ?]|Hq]; [|right; right; right; by exists q].
    destruct Hqn as [<-|<-]; [right; left|right; right; left]; by apply Hnew.
Qed.

Lemma mesh_reachable_inv C : mesh_reachable C → mesh_inv C.
Proof.
  intros HC. revert C HC. apply (rtc_ind_r (R := mesh_step) mesh_inv); [apply mesh_inv_init|].
  intros C C' _ [e He] Hi. destruct e as [a|k|k|k];
    [by eapply mesh_join|by eapply mesh_start|by eapply mesh_rest|by eapply mesh_recv].
Qed.

(** When everything has settled, the joined nodes and the contact know each
    other. *)
Definition member (C : mesh) (a : bytes) : Prop := joined C a ∨ a = contact.

Lemma mesh_settled C a b : mesh_inv C → quiescent C → a ≠ b → member C a → member C b → b ∈ names C a.
Proof.
  intros HC (Hs & Hr & Hm) Hab Ha Hb.
  assert (HL : ∀ x y, Linked C x y → y ∈ names C x).
  { intros x y [?|(p & am & Hin & _)]; [done|]. rewrite Hs in Hin. by apply not_elem_of_nil in Hin. }
  assert (Hc : ∀ x, member C x → x ≠ contact → x ∈ names C contact).
  { intros x [?|?] ?; [|done]. by apply HL, mi_contact. }
  destruct (decide (a = contact)) as [->|]; [by apply Hc|]. apply HL.
  destruct (decide (b = contact)) as [->|].
  { apply mi_sym; [done|]. apply mi_contact; [done| |done]. by destruct Ha. }
  destruct (mi_pairs C HC a b Hab) as [?|[Hin|[Hin|(p & Hin & _)]]]; [by apply Hc..|done| | |].
  - rewrite Hm in Hin. by apply not_elem_of_nil in Hin.
  - rewrite Hm in Hin. by apply not_elem_of_nil in Hin.
  - rewrite Hr in Hin. by apply not_elem_of_nil in Hin.
Qed.

Lemma mesh_names C a b : mesh_inv C → b ∈ names C a → b ≠ a ∧ member C a ∧ member C b.
Proof.
  intros HC Hb. unfold names in Hb. apply list_elem_of_fmap in Hb as (p & -> & Hp).
  destruct (mi_peers C HC a p Hp) as (_ & ? & ? & ?). done.
Qed.

(** The participants a node computes, from the names it knows. *)
Lemma getParticipantIds_names C a : mesh_inv C → (∀ u, MustParse (String u) = Some u) →
  ∃ ids, getParticipantIds (m_nodes C a) = Done (Ok ids) ∧
    String <$> ids = merge_sort bytes_le ((String ∘ id_of) <$> names C a ++ [a]).
Proof.
  intros HC Hp. unfold getParticipantIds, GetPeerIds.
  assert (Hl : ∀ l, (∀ p, p ∈ l → good C a p) → GetPeerIds_loop l = Done (Ok (id_of <$> (p_name <$> l)))).
  { induction l as [|p l IH]; intros Hl; [done|]. simpl. destruct (Hl p) as ([conn ->] & _); [by left|]. simpl.
    rewrite Hid, IH; [done|]. intros q Hq. apply Hl. by right. }
  rewrite Hl by (intros p; apply mi_peers, HC). cbn [mbind outcome_bind].
  unfold GetId. destruct (mi_node C HC a) as (_ & _ & ->). rewrite Hid. fold (names C a).
  assert (Hm : ∀ l, l ⊆ String <$> ((id_of <$> names C a) ++ [id_of a]) →
    ∃ ids, mapM MustParse l = Some ids ∧ String <$> ids = l).
  { induction l as [|x l IH]; intros Hsub; [by exists []|].
    destruct IH as (ids & Hids & Heq); [by intros y Hy; apply Hsub; right|].
    assert (Hx : x ∈ String <$> ((id_of <$> names C a) ++ [id_of a])) by (apply Hsub; by left).
    apply list_elem_of_fmap in Hx as (u & -> & _). exists (u :: ids). cbn [mapM]. rewrite Hp.
    cbn [mbind option_bind]. rewrite Hids. split; [done|].
    rewrite fmap_cons. by f_equal. }
  destruct (Hm (merge_sort bytes_le (String <$> (id_of <$> names C a) ++ [id_of a]))) as (ids & Hids & Heq).
  { intros x. by rewrite merge_sort_Permutation. }
  exists ids. rewrite Hids. split; [done|]. rewrite Heq. by rewrite list_fmap_compose, (fmap_app id_of).
Qed.
End node.

(** ** Three nodes that join *)

Module MeshExample.
Import Gf2.
Definition a1 : bytes := ["001"%byte].
Definition a2 : bytes := ["002"%byte].
Definition a3 : bytes := ["003"%byte].
Definition serialize (k : bytes) : option bytes := Some k.
Definition key (a : bytes) : bytes := a.
Definition id3 (a : bytes) : UUID := BytesToUUID a.

Definition run3 : list mesh_event → option (mesh (PublicKey := bytes)) :=
  λ es, mesh_run serialize gf2 a1 key es (mesh_init a1 key []).

(** The second node has settled before the third joins. *)
Definition in_turn : list mesh_event :=
  [EJoin a1; EJoin a2; EStart 0; EStart 0; ERest 0; ERest 0;
   EJoin a3; EStart 0; EStart 0; ERest 0; ERest 0; ERecv 0; EStart 0; EStart 0; ERest 0; ERest 0].
(** Both are known to the contact before it writes either the membership. *)
Definition at_once : list mesh_event :=
  [EJoin a1; EJoin a2; EJoin a3; EStart 0; EStart 0; EStart 0; EStart 0; ERest 0; ERest 0; ERest 0; ERest 0;
   ERecv 0; ERecv 0; EStart 0; EStart 0; EStart 0; EStart 0; ERest 0; ERest 0; ERest 0; ERest 0].

Lemma key_id a : PkToUUID serialize (key a) = Some (id3 a).
Proof. reflexivity. Qed.

Definition the_mesh (es : list mesh_event) : mesh := default (mesh_init a1 key []) (run3 es).

Lemma the_mesh_reachable es : is_Some (run3 es) → mesh_reachable serialize gf2 a1 key [] (the_mesh es).
Proof.
  intros [C HC]. unfold the_mesh. rewrite HC. eapply (mesh_run_reachable serialize gf2 a1 key [] es); [|exact HC].
  apply rtc_refl.
Qed.

Definition settled (C : mesh (PublicKey := bytes)) : bool :=
  match m_starts C, m_rests C, m_msgs C with [], [], [] => true | _, _, _ => false end.
Lemma settled_spec C : settled C = true → quiescent C.
Proof. unfold settled, quiescent. by destruct (m_starts C), (m_rests C), (m_msgs C). Qed.
End MeshExample.
Import Gf2 MeshExample.

(** ** Theorems *)

(** C29: the mesh is complete.  Whatever the order in which the nodes join and the
    goroutines run, once every membership message is processed each member has a
    connection with every other one, under its key. *)
Theorem mesh_connected (PublicKey : Type) (SerializePublicKey : PublicKey → option bytes) (G : CirclGroup)
    (contact : bytes) (pk_of : bytes → PublicKey) (obs : list observer) (id_of : bytes → UUID)
    (C : mesh (PublicKey := PublicKey)) (a b : bytes) :
  (∀ x, PkToUUID SerializePublicKey (pk_of x) = Some (id_of x)) →
  mesh_reachable SerializePublicKey G contact pk_of obs C → quiescent C →
  a ≠ b → member contact C a → member contact C b →
  ∃ p, p ∈ n_peers (m_nodes C a) ∧ is_Some (p_conn p) ∧ p_name p = b ∧ p_pk p = Some (pk_of b).
Proof.
  intros Hid HC Hq Hab Ha Hb. apply (mesh_reachable_inv _ (λ _, None) _ _ _ _ id_of Hid) in HC.
  pose proof (mesh_settled _ _ _ C a b HC Hq Hab Ha Hb) as Hin.
  apply list_elem_of_fmap in Hin as (p & -> & Hp). exists p. split; [done|].
  destruct (mi_peers _ _ _ C HC a p Hp) as ([conn Heq] & _). split; [rewrite Heq; by eexists|].
  split; [done|]. by rewrite Heq.
Qed.

Lemma mesh_connected_witness :
  ∃ p, p ∈ n_peers (m_nodes (the_mesh in_turn) a2) ∧ is_Some (p_conn p) ∧ p_name p = a3 ∧ p_pk p = Some (key a3).
Proof.
  apply (mesh_connected bytes serialize gf2 a1 key [] id3 (the_mesh in_turn) a2 a3 key_id).
  - apply the_mesh_reachable. vm_compute. by eexists.
  - apply settled_spec. vm_compute. reflexivity.
  - discriminate.
  - left. vm_compute. reflexivity.
  - left. vm_compute. reflexivity.
Defined.

(** C30: the same participants everywhere.  When the mesh has settled, two members
    that have each of the others once as a peer compute the same list of
    participants, in the same order, and it lists the members. *)
Theorem participants_agree (PublicKey : Type) (SerializePublicKey : PublicKey → option bytes)
    (String : UUID → bytes) (MustParse : bytes → option UUID) (G : CirclGroup)
    (contact : bytes) (pk_of : bytes → PublicKey) (obs : list observer) (id_of : bytes → UUID)
    (C : mesh (PublicKey := PublicKey)) (a b : bytes) :
  (∀ x, PkToUUID SerializePublicKey (pk_of x) = Some (id_of x)) → (∀ u, MustParse (String u) = Some u) →
  mesh_reachable SerializePublicKey G contact pk_of obs C → quiescent C →
  member contact C a → member contact C b → NoDup (names C a) → NoDup (names C b) →
  ∃ ids, getParticipantIds SerializePublicKey String MustParse (m_nodes C a) = Done (Ok ids) ∧
         getParticipantIds SerializePublicKey String MustParse (m_nodes C b) = Done (Ok ids) ∧
         ∀ u, u ∈ ids ↔ ∃ x, member contact C x ∧ u = id_of x.
Proof.
  intros Hid Hp HC Hq Ha Hb Hda Hdb. apply (mesh_reachable_inv _ (λ _, None) _ _ _ _ id_of Hid) in HC.
  assert (Hinj : Inj (=) (=) String).
  { intros u v Huv. pose proof (Hp u) as Hu. rewrite Huv, Hp in Hu. by injection Hu. }
  assert (Hall : ∀ x y, member contact C x → y ∈ names C x ++ [x] ↔ member contact C y).
  { intros x y Hx. rewrite elem_of_app, list_elem_of_singleton. split.
    - intros [Hy| ->]; [by apply (mesh_names _ _ _ C _ _ HC) in Hy as (_ & _ & ?)|done].
    - intros Hy. destruct (decide (y = x)) as [->|]; [by right|left]. by apply (mesh_settled _ _ _ C x y HC Hq). }
  assert (Hnd : ∀ x, NoDup (names C x) → NoDup (names C x ++ [x])).
  { intros x Hd. apply list.NoDup_app. split_and!; [done| |apply list.NoDup_singleton].
    intros y Hy ->%list_elem_of_singleton. by apply (mesh_names _ _ _ C _ _ HC) in Hy as [? _]. }
  assert (Hperm : names C a ++ [a] ≡ₚ names C b ++ [b]).
  { apply NoDup_Permutation; [by apply Hnd..|]. intros y. by rewrite !Hall. }
  destruct (getParticipantIds_names _ String MustParse _ _ id_of Hid C a HC Hp) as (ids & Hia & Hsa).
  destruct (getParticipantIds_names _ String MustParse _ _ id_of Hid C b HC Hp) as (ids' & Hib & Hsb).
  assert (ids = ids') as <-.
  { apply (inj (fmap String)). rewrite Hsa, Hsb. apply merge_sort_permutation. by rewrite Hperm. }
  exists ids. split_and!; [done..|]. intros u.
  transitivity (String u ∈ String <$> ids); [symmetry; apply list_elem_of_fmap_inj, Hinj|].
  rewrite Hsa, merge_sort_Permutation, list_elem_of_fmap. split.
  - intros (x & Hx & Hin). exists x. split; [by apply (Hall a)|by apply Hinj].
  - intros (x & Hx & ->). exists x. split; [done|by apply Hall].
Qed.

Lemma participants_agree_witness :
  ∃ ids, getParticipantIds serialize uuid_bytes FromBytes (m_nodes (the_mesh in_turn) a2) = Done (Ok ids) ∧
         getParticipantIds serialize uuid_bytes FromBytes (m_nodes (the_mesh in_turn) a3) = Done (Ok ids) ∧
         ∀ u, u ∈ ids ↔ ∃ x, member a1 (the_mesh in_turn) x ∧ u = id3 x.
Proof.
  apply (participants_agree bytes serialize uuid_bytes FromBytes gf2 a1 key [] id3 (the_mesh in_turn) a2 a3
    key_id FromBytes_uuid).
  - apply the_mesh_reachable. vm_compute. by eexists.
  - apply settled_spec. vm_compute. reflexivity.
  - left. vm_compute. reflexivity.
  - left. vm_compute. reflexivity.
  - apply (bool_decide_eq_true_1 (NoDup (names (the_mesh in_turn) a2))). vm_compute. reflexivity.
  - apply (bool_decide_eq_true_1 (NoDup (names (the_mesh in_turn) a3))). vm_compute. reflexivity.
Defined.

(** Joins that overlap.  When the contact has added two joining nodes before
    it writes either of them the membership, each is told about the other and
    dials it: the nodes end with two connections to each other, and the
    participants they compute are four, although three nodes joined. *)
Theorem overlapping_joins :
  mesh_reachable serialize gf2 a1 key [] (the_mesh at_once) ∧ quiescent (the_mesh at_once) ∧
  names (the_mesh at_once) a2 = [a1; a3; a3] ∧ names (the_mesh at_once) a3 = [a1; a2; a2] ∧
  ∃ ids, getParticipantIds serialize uuid_bytes FromBytes (m_nodes (the_mesh at_once) a2) = Done (Ok ids) ∧
         length ids = 4%nat.
Proof.
  assert (HC : mesh_reachable serialize gf2 a1 key [] (the_mesh at_once)).
  { apply the_mesh_reachable. vm_compute. by eexists. }
  assert (Hn : names (the_mesh at_once) a2 = [a1; a3; a3]) by (vm_compute; reflexivity).
  split_and!; [done|apply settled_spec; vm_compute; reflexivity|done|vm_compute; reflexivity|].
  apply (mesh_reachable_inv _ (λ _, None) _ _ _ _ id3 key_id) in HC.
  destruct (getParticipantIds_names _ uuid_bytes FromBytes _ _ id3 key_id _ a2 HC FromBytes_uuid) as (ids & Hi & Hs).
  exists ids. split; [done|]. apply (f_equal length) in Hs. rewrite length_fmap, merge_sort_Permutation, Hn in Hs.
  exact Hs.
Qed.

(** A peer is forgotten by the name it claimed: a peer that takes the name of
    another and hangs up removes the other one too. *)
Theorem forget_claimed_name (PublicKey : Type) (n : @Node PublicKey) (p q : peer) :
  p_name q = p_name p → p ∉ n_peers (forgetPeer q (updatePeers q n)).
Proof. intros Hn Hin. simpl in Hin. apply list_elem_of_filter in Hin as [Hne _]. done. Qed.

(** A membership message that names an address that cannot be dialled ends the
    process: the zero peer is maintained, and its nil connection read. *)
Theorem membership_dial_fails (PublicKey : Type) (SerializePublicKey : PublicKey → option bytes)
    (n : @Node PublicKey) (msg : bytes) dial e :
  newOutbound SerializePublicKey msg dial = Done (Err e) →
  processMembershipMsg SerializePublicKey msg dial n = Panic.
Proof. intros He. unfold processMembershipMsg. by rewrite He. Qed.
