(* ===== verification/Startup.v ===== *)
(** * [main.go]: the start of a process

    [computeBkrChannel] up to the channels: after its channels are attached to
    the node, a process joins the network, waits for [numNodes - 1] peers, and, if
    it is the contact, deals the secret of the coin.  Here the processes start
    together, over the join protocol of [OverlayMesh]: [boot_exec] is a step of
    one of them or of the goroutines of the nodes.

    The contact deals only when every other node is connected to it, so each
    gets a share, whatever the order in which they join. *)

From stdpp Require Import base tactics numbers list fin_sets functions relations.
From Stdlib Require Import Init.Byte.
From S2P Require Import Prelude Utils CoinGroup CoinWire Overlay OverlayMesh.

Local Open Scope Z_scope.

Section startup.
Context {PublicKey : Type} (SerializePublicKey : PublicKey → option bytes).
Context (G : CirclGroup) (contact : bytes) (pk_of : bytes → PublicKey) (obs : list observer).
(** [numNodes] is a property of the configuration, [nodes] are the addresses of
    the processes; [secretSharing] and [base] as for [DealSecret]. *)
Context (numNodes : Z) (nodes : list bytes).
Context (dealCode : byte) (secretSharing : nat → list (Share G)) (base : Element G).

#[local] Abbreviation mesh := (mesh (PublicKey := PublicKey)).
#[local] Abbreviation mesh_exec := (mesh_exec SerializePublicKey G contact pk_of).

(** About to join, in [WaitForPeers], in [DealSecret], in [NewAbaChannel]. *)
Inductive boot_pc := B_join | B_wait | B_deal | B_aba.

(** [st_dealt]: what [DealSecret] hands to the contact itself and writes to the
    connections of its peers. *)
Record startup := Startup {
  st_mesh : mesh;
  st_pc : bytes → boot_pc;
  st_dealt : option (bytes * list (nat * bytes));
}.

Inductive boot_event := S_mesh (e : mesh_event) | S_join (a : bytes) | S_wait (a : bytes) | S_deal.

Definition set_node (a : bytes) n (C : mesh) : mesh :=
  Mesh (<[a := n]> (m_nodes C)) (m_starts C) (m_rests C) (m_msgs C) (m_next C).

Definition boot_exec (e : boot_event) (st : startup) : option startup :=
  match e with
  | S_mesh (EJoin _) => None
  | S_mesh e => C ← mesh_exec e (st_mesh st); Some (Startup C (st_pc st) (st_dealt st))
  | S_join a =>
    if decide (a ∈ nodes) then
      match st_pc st a with
      | B_join => C ← mesh_exec (EJoin a) (st_mesh st); Some (Startup C (<[a := B_wait]> (st_pc st)) (st_dealt st))
      | _ => None
      end
    else None
  | S_wait a =>
    match st_pc st a with
    | B_wait =>
      n ← WaitForPeers (Z.to_nat (uint_sub numNodes 1)) (m_nodes (st_mesh st) a);
      Some (Startup (set_node a n (st_mesh st))
              (<[a := if decide (a = contact) then B_deal else B_aba]> (st_pc st)) (st_dealt st))
    | _ => None
    end
  | S_deal =>
    match st_pc st contact, DealSecret G dealCode secretSharing base (m_nodes (st_mesh st) contact) with
    | B_deal, Done (Ok dealt) => Some (Startup (st_mesh st) (<[contact := B_aba]> (st_pc st)) (Some dealt))
    | _, _ => None
    end
  end.

Definition boot_init : startup := Startup (mesh_init contact pk_of obs) (λ _, B_join) None.
Definition boot_step (st st' : startup) : Prop := ∃ e, boot_exec e st = Some st'.
Definition boot_reachable (st : startup) : Prop := rtc boot_step boot_init st.

Fixpoint boot_run (es : list boot_event) (st : startup) : option startup :=
  match es with [] => Some st | e :: es => st ← boot_exec e st; boot_run es st end.

Lemma boot_run_reachable es st st' : boot_reachable st → boot_run es st = Some st' → boot_reachable st'.
Proof.
  revert st. induction es as [|e es IH]; simpl; intros st Hst Hr; [by injection Hr as <-|].
  destruct (boot_exec e st) as [st1|] eqn:He; [|done]. apply (IH st1); [|done]. eapply rtc_r; [done|]. by exists e.
Qed.

(** ** Invariant *)

Context (id_of : bytes → UUID) (Hid : ∀ a, PkToUUID SerializePublicKey (pk_of a) = Some (id_of a)).

#[local] Abbreviation mesh_inv := (mesh_inv contact pk_of id_of).

(** The names of the tasks of the contact. *)
Definition of_contact (l : list (bytes * @peer PublicKey * bool)) : list bytes :=
  omap (λ t, if decide (t.1.1 = contact) then Some (p_name t.1.2) else None) l.

Definition waited (pc : boot_pc) : nat := match pc with B_deal | B_aba => Z.to_nat (uint_sub numNodes 1) | _ => 0%nat end.

Definition others : list bytes := filter (λ a, a ≠ contact) nodes.

(** [DealSecret] ran at the contact when it had every other node as a peer. *)
Definition dealt_to_all (dealt : bytes * list (nat * bytes)) : Prop :=
  contact ∈ nodes ∧ ∃ n : @Node PublicKey, hasJoined n = true ∧ p_name <$> n_peers n ≡ₚ others ∧
    (∀ p, p ∈ n_peers n → is_Some (p_conn p) ∧ p_pk p = Some (pk_of (p_name p))) ∧
    DealSecret G dealCode secretSharing base n = Done (Ok dealt).

Record boot_inv (st : startup) : Prop := {
  bo_mesh : mesh_inv (st_mesh st);
  bo_joined a : joined (st_mesh st) a → a ∈ nodes;
  bo_pc a : st_pc st a ≠ B_join → joined (st_mesh st) a;
  bo_nodup : NoDup (names (st_mesh st) contact ++ of_contact (m_starts (st_mesh st)));
  bo_count : (memChan (m_nodes (st_mesh st) contact) + waited (st_pc st contact) +
              length (of_contact (m_rests (st_mesh st))) = length (names (st_mesh st) contact))%nat;
  bo_dealt dealt : st_dealt st = Some dealt → dealt_to_all dealt;
}.

Lemma of_contact_app l1 l2 : of_contact (l1 ++ l2) = of_contact l1 ++ of_contact l2.
Proof. apply omap_app. Qed.

Lemma of_contact_delete k x l : l !! k = Some x → of_contact l ≡ₚ of_contact [x] ++ of_contact (delete k l).
Proof. intros Hk. rewrite <-of_contact_app. unfold of_contact. apply omap_Permutation. exact (delete_Permutation l k x Hk). Qed.

(** The names of the contact's connections are those of other nodes. *)
Lemma contact_names C x : mesh_inv C → x ∈ names C contact ++ of_contact (m_starts C) → x ≠ contact ∧ joined C x.
Proof.
  intros HC [Hx | Hx]%elem_of_app.
  - apply list_elem_of_fmap in Hx as (p & -> & Hp). destruct (mi_peers _ _ _ _ HC _ _ Hp) as (_ & ? & _ & [? | ?]); done.
  - apply list_elem_of_omap in Hx as ([[a p] am] & Hin & Heq). simpl in Heq. destruct (decide (a = contact)) as [->|]; [|done].
    injection Heq as <-. destruct (mi_starts _ _ _ _ HC _ _ _ Hin) as ((_ & ? & _ & [? | ?]) & _); done.
Qed.

(** A change of [memChan] only. *)
Lemma mesh_inv_node C a n :
  mesh_inv C → n_address n = n_address (m_nodes C a) → n_contact n = n_contact (m_nodes C a) →
  n_pk n = n_pk (m_nodes C a) → hasJoined n = hasJoined (m_nodes C a) → n_peers n = n_peers (m_nodes C a) →
  mesh_inv (set_node a n C) ∧ (∀ x, joined (set_node a n C) x ↔ joined C x) ∧ (∀ x, names (set_node a n C) x = names C x).
Proof.
  intros HC Ha Hc Hk Hj Hp. set (C' := set_node a n C).
  assert (Hn : ∀ x, n_address (m_nodes C' x) = n_address (m_nodes C x) ∧ n_contact (m_nodes C' x) = n_contact (m_nodes C x) ∧
    n_pk (m_nodes C' x) = n_pk (m_nodes C x) ∧ hasJoined (m_nodes C' x) = hasJoined (m_nodes C x) ∧
    n_peers (m_nodes C' x) = n_peers (m_nodes C x)).
  { intros x. simpl. destruct (decide (a = x)) as [<-|]; [by rewrite fn_lookup_insert|by rewrite fn_lookup_insert_ne]. }
  assert (Hnames : ∀ x, names C' x = names C x) by (intros x; unfold names; by destruct (Hn x) as (_ & _ & _ & _ & ->)).
  assert (Hjoined : ∀ x, joined C' x ↔ joined C x) by (intros x; unfold joined; by destruct (Hn x) as (_ & _ & _ & -> & _)).
  assert (Hgood : ∀ x q, good contact pk_of id_of C x q → good contact pk_of id_of C' x q).
  { intros x q. unfold good. by rewrite !Hjoined. }
  assert (HL : ∀ x y, Linked C' x y ↔ Linked C x y) by (intros x y; unfold Linked; by rewrite Hnames).
  split; [|done]. destruct HC. split.
  - intros x. destruct (Hn x) as (-> & -> & -> & _). apply mi_node.
  - intros x Hx%Hjoined. by apply mi_short.
  - intros x q. destruct (Hn x) as (_ & _ & _ & _ & ->). intros Hq. by apply Hgood, mi_peers.
  - intros x q b Hq. destruct (mi_starts _ _ _ Hq). split; [by apply Hgood|done].
  - intros x q b Hq. rewrite Hnames. destruct (mi_rests x q b Hq) as (? & ? & ?). split_and!; [by apply Hgood|done..].
  - intros x y. rewrite !HL. apply mi_sym.
  - intros x. rewrite Hjoined, HL. apply mi_contact.
  - intros x m Hm. destruct (mi_msgs _ _ Hm) as (y & ?). exists y. by rewrite !Hjoined.
  - intros i j Hij. rewrite !Hnames, HL. by apply mi_pairs.
Qed.

(** ** Steps of the mesh *)

(** What a step of a goroutine does to the contact. *)
Lemma start_contact k C C' : mesh_exec (EStart k) C = Some C' →
  names C' contact ++ of_contact (m_starts C') ≡ₚ names C contact ++ of_contact (m_starts C) ∧
  (∀ x, joined C' x ↔ joined C x) ∧ memChan (m_nodes C' contact) = memChan (m_nodes C contact) ∧
  (length (names C' contact) = length (names C contact) +
     (length (of_contact (m_rests C')) - length (of_contact (m_rests C))))%nat ∧
  (length (of_contact (m_rests C)) ≤ length (of_contact (m_rests C')))%nat.
Proof.
  unfold OverlayMesh.mesh_exec. intros ([[a p] am] & Hk & [= <-])%bind_Some. simpl. rewrite of_contact_app.
  rewrite (of_contact_delete k (a, p, am) _ Hk). unfold names, joined. simpl.
  assert (Hj : ∀ x, hasJoined (<[a:=updatePeers p (m_nodes C a)]> (m_nodes C) x) = true ↔ hasJoined (m_nodes C x) = true).
  { intros x. destruct (decide (a = x)) as [<-|]; [by rewrite fn_lookup_insert|by rewrite fn_lookup_insert_ne]. }
  destruct (decide (a = contact)) as [->|Hne].
  - rewrite fn_lookup_insert. simpl. rewrite fmap_app, !length_app. simpl. split_and!; [|done|done|lia|lia].
    by rewrite <-app_assoc.
  - rewrite fn_lookup_insert_ne by done. simpl. rewrite app_nil_r. split_and!; [done..|lia|lia].
Qed.

Lemma rest_contact k C C' : mesh_inv C → mesh_exec (ERest k) C = Some C' →
  names C' contact = names C contact ∧ m_starts C' = m_starts C ∧ (∀ x, joined C' x ↔ joined C x) ∧
  (memChan (m_nodes C' contact) + length (of_contact (m_rests C')) =
   memChan (m_nodes C contact) + length (of_contact (m_rests C)))%nat.
Proof.
  intros HC. unfold OverlayMesh.mesh_exec. intros ([[a p] am] & Hk & Hr)%bind_Some.
  destruct (mi_rests _ _ _ _ HC a p am) as (([conn Hp] & _) & _ & _); [by eapply list_elem_of_lookup_2|].
  unfold maintain_rest in Hr. assert (p_conn p = Some conn) as Hpc by by rewrite Hp. rewrite Hpc in Hr.
  injection Hr as <-. simpl.
  assert (Hj : ∀ x, hasJoined (<[a:=signal (m_nodes C a)]> (m_nodes C) x) = true ↔ hasJoined (m_nodes C x) = true).
  { intros x. destruct (decide (a = x)) as [<-|]; [by rewrite fn_lookup_insert|by rewrite fn_lookup_insert_ne]. }
  pose proof (Permutation_length (of_contact_delete k (a, p, am) _ Hk)) as Hl. rewrite length_app in Hl.
  unfold names. simpl. revert Hl. unfold of_contact at 2. simpl.
  destruct (decide (a = contact)) as [->|Hne]; simpl; intros Hl.
  - rewrite fn_lookup_insert. simpl. split_and!; [done..|lia].
  - rewrite fn_lookup_insert_ne by done. split_and!; [done..|lia].
Qed.

Lemma recv_contact k C C' : mesh_inv C → mesh_exec (ERecv k) C = Some C' →
  m_nodes C' = m_nodes C ∧ m_rests C' = m_rests C ∧ of_contact (m_starts C') = of_contact (m_starts C).
Proof.
  intros HC. unfold OverlayMesh.mesh_exec. destruct (m_msgs C !! k) as [[a m]|] eqn:Hk; [|done].
  destruct (mi_msgs _ _ _ _ HC a m) as (b & -> & _ & Hac & Hbc & Ha & _); [by eapply list_elem_of_lookup_2|].
  cbn [mbind option_bind]. unfold processMessage. rewrite bool_decide_eq_true_2 by done.
  rewrite (newOutbound_spec _ _ id_of Hid), (connected_spec _ _ _ id_of Hid); [|apply HC|by apply HC].
  simpl. intros [= <-]. simpl. split_and!; [done..|]. rewrite of_contact_app. unfold of_contact at 2. simpl.
  rewrite !decide_False by done. by rewrite app_nil_r.
Qed.

Lemma join_contact a C C' : mesh_inv C → mesh_exec (EJoin a) C = Some C' →
  ¬ joined C a ∧ (∀ x, joined C' x ↔ joined C x ∨ x = a) ∧ names C' contact = names C contact ∧
  memChan (m_nodes C' contact) = memChan (m_nodes C contact) ∧ m_rests C' = m_rests C ∧
  of_contact (m_starts C') = of_contact (m_starts C) ++ (if decide (a = contact) then [] else [a]).
Proof.
  intros HC. unfold OverlayMesh.mesh_exec. destruct (decide _) as [|Hlen]; [done|].
  destruct (mi_node _ _ _ _ HC a) as (Ha & Hc & _). unfold Join, joined. rewrite Ha, Hc.
  destruct (hasJoined (m_nodes C a)) eqn:Hj; [done|]. set (n := MkNode _ _ _ _ _ _ _).
  assert (Hx : ∀ x, hasJoined (<[a := n]> (m_nodes C) x) = true ↔ hasJoined (m_nodes C x) = true ∨ x = a).
  { intros x. destruct (decide (a = x)) as [<-|]; [rewrite fn_lookup_insert; naive_solver|].
    rewrite fn_lookup_insert_ne by done. naive_solver. }
  assert (Hnm : ∀ (C1 : mesh), m_nodes C1 = <[a := n]> (m_nodes C) → names C1 contact = names C contact ∧
    memChan (m_nodes C1 contact) = memChan (m_nodes C contact)).
  { intros C1 HC1. unfold names. rewrite HC1. destruct (decide (a = contact)) as [->|].
    - rewrite fn_lookup_insert. done.
    - by rewrite fn_lookup_insert_ne. }
  destruct (decide (a = contact)) as [->|Hne].
  - intros [= <-]. simpl. destruct (Hnm (Mesh (<[contact := n]> (m_nodes C)) (m_starts C) (m_rests C) (m_msgs C) (m_next C)) eq_refl).
    rewrite app_nil_r. split_and!; done.
  - rewrite (newOutbound_spec _ _ id_of Hid). cbn [mbind outcome_bind].
    rewrite (connected_spec _ _ _ id_of Hid) by (done || lia). cbn [mbind option_bind]. intros [= <-]. simpl.
    match goal with |- context [names ?C1 contact] => destruct (Hnm C1 eq_refl) end.
    rewrite of_contact_app. unfold of_contact at 2. simpl. rewrite decide_False, decide_True by done.
    split_and!; done.
Qed.

(** ** Steps of a process *)

Lemma boot_inv_init : boot_inv boot_init.
Proof.
  split; simpl; try done.
  - by apply mesh_inv_init.
  - apply NoDup_nil_2.
Qed.

Lemma boot_mesh e st C' : boot_inv st → (∀ a, e ≠ EJoin a) → mesh_exec e (st_mesh st) = Some C' →
  boot_inv (Startup C' (st_pc st) (st_dealt st)).
Proof.
  intros [Hm Hj Hp Hn Hc Hd] He Hex. destruct e as [a|k|k|k]; [by destruct (He a)| | |].
  - pose proof (mesh_start _ (λ _, None) _ _ _ id_of k _ _ Hm Hex) as Hm'.
    destruct (start_contact k _ _ Hex) as (Hperm & Hjo & Hmc & Hl & Hle). split; simpl; try done.
    + intros a Ha%Hjo. by apply Hj.
    + intros a Ha. by apply Hjo, Hp.
    + by rewrite Hperm.
    + lia.
  - pose proof (mesh_rest _ (λ _, None) _ _ _ id_of k _ _ Hm Hex) as Hm'.
    destruct (rest_contact k _ _ Hm Hex) as (Hnm & Hst & Hjo & Hmc). split; simpl; try done.
    + intros a Ha%Hjo. by apply Hj.
    + intros a Ha. by apply Hjo, Hp.
    + by rewrite Hnm, Hst.
    + rewrite Hnm. lia.
  - pose proof (mesh_recv _ _ _ _ id_of Hid k _ _ Hm Hex) as Hm'.
    destruct (recv_contact k _ _ Hm Hex) as (Hno & Hre & Hst).
    assert (Hnm : names C' contact = names (st_mesh st) contact) by (unfold names; by rewrite Hno).
    assert (Hjo : ∀ x, joined C' x ↔ joined (st_mesh st) x) by (intros x; unfold joined; by rewrite Hno).
    split; simpl; try done.
    + intros a Ha%Hjo. by apply Hj.
    + intros a Ha. by apply Hjo, Hp.
    + by rewrite Hnm, Hst.
    + by rewrite Hnm, Hno, Hre.
Qed.

Lemma boot_join a st C' : boot_inv st → a ∈ nodes → st_pc st a = B_join → mesh_exec (EJoin a) (st_mesh st) = Some C' →
  boot_inv (Startup C' (<[a := B_wait]> (st_pc st)) (st_dealt st)).
Proof.
  intros [Hm Hj Hp Hn Hc Hd] Hin Hpc Hex. pose proof (mesh_join _ _ _ _ id_of Hid a _ _ Hm Hex) as Hm'.
  destruct (join_contact a _ _ Hm Hex) as (Hna & Hjo & Hnm & Hmc & Hre & Hst). split; simpl; try done.
  - intros x [? | ->]%Hjo; [by apply Hj|done].
  - intros x Hx. apply Hjo. destruct (decide (a = x)) as [->|]; [by right|]. rewrite fn_lookup_insert_ne in Hx by done.
    left. by apply Hp.
  - rewrite Hnm, Hst, app_assoc. apply list.NoDup_app. split_and!; [done| |destruct (decide _); [apply NoDup_nil_2|apply list.NoDup_singleton]].
    intros x Hx. destruct (decide (a = contact)); [apply not_elem_of_nil|]. intros ->%list_elem_of_singleton.
    by apply (contact_names _ _ Hm) in Hx as [_ ?].
  - rewrite Hnm, Hmc, Hre, <-Hc. do 2 f_equal. destruct (decide (a = contact)) as [->|]; [|by rewrite fn_lookup_insert_ne].
    by rewrite fn_lookup_insert, Hpc.
Qed.

Lemma boot_wait a n st : boot_inv st → st_pc st a = B_wait →
  WaitForPeers (Z.to_nat (uint_sub numNodes 1)) (m_nodes (st_mesh st) a) = Some n →
  boot_inv (Startup (set_node a n (st_mesh st)) (<[a := if decide (a = contact) then B_deal else B_aba]> (st_pc st)) (st_dealt st)).
Proof.
  intros [Hm Hj Hp Hn Hc Hd] Hpc. unfold WaitForPeers. case_decide as Hle; [|done]. intros [= <-].
  set (n := MkNode _ _ _ _ _ _ _).
  destruct (mesh_inv_node (st_mesh st) a n Hm) as (Hm' & Hjo & Hnm); [done..|]. split; cbn [st_mesh st_pc st_dealt]; try done.
  - intros x Hx%Hjo. by apply Hj.
  - intros x Hx. apply Hjo. destruct (decide (a = x)) as [->|]; [apply Hp; by rewrite Hpc|].
    rewrite fn_lookup_insert_ne in Hx by done. by apply Hp.
  - by rewrite Hnm.
  - rewrite Hnm, <-Hc. simpl. destruct (decide (a = contact)) as [->|Hne].
    + rewrite !fn_lookup_insert, Hpc. simpl. lia.
    + by rewrite !fn_lookup_insert_ne.
Qed.

Lemma length_others : NoDup nodes → contact ∈ nodes → length nodes = S (length others).
Proof.
  intros Hnd Hin. unfold others. apply list_elem_of_split in Hin as (l1 & l2 & ->).
  apply list.NoDup_app in Hnd as (_ & Hd1 & [Hd2 _]%NoDup_cons).
  rewrite filter_app, filter_cons_False by (intros Hne; by apply Hne).
  assert (Hf : ∀ l : list bytes, contact ∉ l → filter (λ a, a ≠ contact) l = l).
  { induction l as [|x l IH]; intros Hl; [done|]. apply not_elem_of_cons in Hl as [? ?].
    rewrite filter_cons_True by congruence. by rewrite IH. }
  rewrite (Hf l1), (Hf l2), !length_app; [simpl; lia|done|]. intros Hx. apply (Hd1 contact Hx). by left.
Qed.

(** The contact knows all others once it has waited. *)
Lemma waited_all st : boot_inv st → NoDup nodes → Z.of_nat (length nodes) = numNodes → numNodes < 2 ^ 63 →
  waited (st_pc st contact) = Z.to_nat (uint_sub numNodes 1) → contact ∈ nodes →
  names (st_mesh st) contact ≡ₚ others.
Proof.
  intros [Hm Hj Hp Hn Hc Hd] Hnd Hlen Hw Hpc Hin.
  pose proof (length_others Hnd Hin) as Hlo. assert (1 ≤ numNodes) by lia.
  assert (Hu : uint_sub numNodes 1 = numNodes - 1) by (unfold uint_sub; rewrite Z.mod_small; lia).
  rewrite Hu in Hpc. apply list.NoDup_app in Hn as (Hn & _ & _).
  apply submseteq_length_Permutation.
  - apply NoDup_submseteq; [done|]. intros x Hx. apply list_elem_of_filter.
    destruct (contact_names (st_mesh st) x Hm) as [? ?]; [apply elem_of_app; by left|]. split; [done|by apply Hj].
  - lia.
Qed.

Lemma boot_deal st dealt : boot_inv st → NoDup nodes → Z.of_nat (length nodes) = numNodes → numNodes < 2 ^ 63 →
  boot_exec S_deal st = Some dealt → boot_inv dealt.
Proof.
  intros Hb Hnd Hlen Hw. simpl. destruct (st_pc st contact) eqn:Hpc; [done..| |done].
  destruct (DealSecret _ _ _ _ _) as [[d|]| |] eqn:Hd; [|done..]. intros [= <-].
  assert (Hjo : joined (st_mesh st) contact) by (apply (bo_pc _ Hb); by rewrite Hpc).
  assert (Hall : names (st_mesh st) contact ≡ₚ others).
  { apply (waited_all st Hb); [done..| |]; [by rewrite Hpc|by apply (bo_joined _ Hb)]. }
  destruct Hb as [Hm Hj Hp Hn Hc Hdd]. split; cbn [st_mesh st_pc st_dealt]; try done.
  - intros x Hx. destruct (decide (contact = x)) as [<-|]; [done|]. rewrite fn_lookup_insert_ne in Hx by done. by apply Hp.
  - rewrite fn_lookup_insert. by rewrite Hpc in Hc.
  - intros dealt [= <-]. split; [by apply Hj|]. exists (m_nodes (st_mesh st) contact). split_and!; [done|done| |done].
    intros p Hin. destruct (mi_peers _ _ _ _ Hm _ _ Hin) as ([conn ->] & _). simpl. split; [by eexists|done].
Qed.

Lemma boot_reachable_inv st : NoDup nodes → Z.of_nat (length nodes) = numNodes → numNodes < 2 ^ 63 →
  boot_reachable st → boot_inv st.
Proof.
  intros Hnd Hlen Hw Hst. revert st Hst. apply (rtc_ind_r (R := boot_step) boot_inv); [apply boot_inv_init|].
  intros st st' _ [e He] Hi. destruct e as [e|a|a|].
  - assert (Hne : ∀ a, e ≠ EJoin a) by (intros a ->; done).
    assert (He' : (C ← mesh_exec e (st_mesh st); Some (Startup C (st_pc st) (st_dealt st))) = Some st') by (by destruct e).
    apply bind_Some in He' as (C' & HC & [= <-]). by eapply boot_mesh.
  - simpl in He. case_decide; [|done]. destruct (st_pc st a) eqn:Hpc; [|done..].
    apply bind_Some in He as (C' & HC & [= <-]). by eapply boot_join.
  - simpl in He. destruct (st_pc st a) eqn:Hpc; [done| |done..].
    apply bind_Some in He as (n & Hw' & [= <-]). by eapply boot_wait.
  - by eapply boot_deal.
Qed.
End startup.

(** ** Three processes *)

Module StartExample.
Import Gf2 OverlayExample MeshExample.

Definition three : list bytes := [a1; a2; a3].
Definition start3 : startup := boot_init a1 key [SSChannel "D"].
(** [a1] is the contact. *)
Definition boot3 : list boot_event :=
  [S_join a2; S_join a1; S_mesh (EStart 1); S_mesh (ERest 0); S_join a3; S_mesh (EStart 2); S_mesh (EStart 0);
   S_mesh (ERest 0); S_wait a1; S_deal].
Definition started : startup :=
  default start3 (boot_run serialize gf2 a1 key 3 three "D" shares2 (true : Element gf2) boot3 start3).

Lemma started_reachable : is_Some (st_dealt started) →
  boot_reachable serialize gf2 a1 key [SSChannel "D"] 3 three "D" shares2 (true : Element gf2) started.
Proof.
  unfold started. destruct (boot_run _ _ _ _ _ _ _ _ _ _ _) as [st|] eqn:Hr; [|by intros []].
  intros _. eapply boot_run_reachable; [|exact Hr]. apply rtc_refl.
Qed.
End StartExample.
Import Gf2 OverlayExample MeshExample StartExample.

(** ** Theorem *)

(** C36: the deal at the start.  When [numNodes] processes start, in any order, and
    the contact deals, it has each other process once as a peer; its own message
    and the one written to each connection carry different shares of one sharing,
    and whoever reads such a frame gets, through the observer that is attached
    before the process joins, the deal with its share and the commitments to all. *)
Theorem startup_deal (PublicKey : Type) (SerializePublicKey : PublicKey → option bytes) (G : CirclGroup) ssize esize
    `{!GroupEncoding G ssize esize} (contact : bytes) (pk_of : bytes → PublicKey) (obs : list observer)
    (id_of : bytes → UUID) (numNodes : Z) (nodes : list bytes) (dealCode : byte)
    (secretSharing : nat → list (Share G)) (base : Element G) (st : startup) self ws :
  (∀ x, PkToUUID SerializePublicKey (pk_of x) = Some (id_of x)) →
  NoDup nodes → Z.of_nat (length nodes) = numNodes → numNodes < 2 ^ 32 →
  Z.of_nat (6 + 2 * ssize + esize + length nodes * (ssize + esize)) < 2 ^ 32 →
  (∀ k, length (secretSharing k) = k) →
  boot_reachable SerializePublicKey G contact pk_of obs numNodes nodes dealCode secretSharing base st →
  st_dealt st = Some (self, ws) →
  let shares := secretSharing (length nodes) in
  ∃ (ps : list (@peer PublicKey)) ms,
    p_name <$> ps ≡ₚ filter (λ a, a ≠ contact) nodes ∧
    (∀ p, p ∈ ps → is_Some (p_conn p) ∧ p_pk p = Some (pk_of (p_name p))) ∧
    ws = zip (omap p_conn ps) (ov_send <$> ms) ∧ length ms = length ps ∧
    ∀ i m share, (self :: ms) !! i = Some m → shares !! i = Some share →
      (∀ rest, receive (ov_send m ++ rest) = (Ok m, rest)) ∧
      ∃ commitment, listenDeal G share commitment = Ok (Deal G base share ((λ s, shareToPoint s base) <$> shares)) ∧
        ∀ (q : @Node PublicKey) sender, NoDup (listenCode <$> msgObservers q) → SSChannel dealCode ∈ msgObservers q →
          processMessage G m sender q =
          Done (ToObservers G [(SSChannel dealCode, DSs G (SSOk G share commitment sender))]).
Proof.
  intros Hid Hnd Hlen Hw Hsz Hk Hst Hd shares.
  pose proof (boot_reachable_inv _ _ _ _ _ _ _ _ _ _ id_of Hid st Hnd Hlen ltac:(lia) Hst) as Hb.
  destruct (bo_dealt _ _ _ _ _ _ _ _ _ st Hb _ Hd) as (Hc & n & Hj & Hperm & Hgood & Hdeal).
  pose proof (length_others contact nodes Hnd Hc) as Hlo.
  assert (Hl : (length (n_peers n) + 1)%nat = length nodes).
  { apply Permutation_length in Hperm. rewrite length_fmap in Hperm. unfold others in *. lia. }
  destruct (deal_distributed PublicKey G ssize esize dealCode secretSharing base n) as (self' & ms & Hdeal' & Hms & Hread).
  - done.
  - apply Forall_forall. intros p Hp. by apply Hgood.
  - done.
  - rewrite Hl. done.
  - lia.
  - rewrite Hdeal in Hdeal'. injection Hdeal' as -> ->. exists (n_peers n), ms. rewrite Hl in Hread.
    split_and!; [done|done|done|done|exact Hread].
Qed.

Lemma startup_deal_witness :
  ∃ self ws, st_dealt started = Some (self, ws) ∧ ∃ (ps : list (@peer bytes)) ms,
    p_name <$> ps ≡ₚ filter (λ a, a ≠ a1) three ∧ ws = zip (omap p_conn ps) (ov_send <$> ms) ∧ length ms = length ps.
Proof.
  do 2 eexists. split; [vm_compute; reflexivity|].
  edestruct (startup_deal bytes serialize gf2 1 1 a1 key [SSChannel "D"] id3 3 three "D" shares2 (true : Element gf2) started)
    as (ps & ms & Hp & _ & Hws & Hl & _).
  - exact key_id.
  - apply (bool_decide_unpack _). vm_compute. exact Logic.I.
  - reflexivity.
  - reflexivity.
  - reflexivity.
  - intros k. unfold shares2. rewrite length_fmap. apply length_seq.
  - apply started_reachable. vm_compute. by eexists.
  - vm_compute. reflexivity.
  - exists ps, ms. split; [exact Hp|]. split; [exact Hws|exact Hl].
Defined.
