(* ===== verification/OverlayListen.v ===== *)
(** * [node.go]: the life of a node

    [NewNode], the loop that accepts connections, and [Close].  The loop reads
    the name of a peer before it accepts the next connection: a connection is
    what [Accept] returned, the bytes that have arrived on it, and whether the
    other side may still write. *)

From stdpp Require Import base tactics numbers list.
From Stdlib Require Import Init.Byte.
From S2P Require Import Prelude Utils CoinGroup CoinWire Overlay OverlayMesh.

Local Open Scope Z_scope.

(** [listenConnections] waits for a connection, has ended and signalled
    [closeChan], waits for the name of a peer, or has panicked. *)
Inductive listen_state := L_accept | L_ended | L_name | L_panicked.

Section listen.
Context {PublicKey : Type} (SerializePublicKey : PublicKey → option bytes).

#[local] Abbreviation Node := (@Node PublicKey).
#[local] Abbreviation peer := (@peer PublicKey).
#[local] Abbreviation certs_of := (list (cert_key (PublicKey := PublicKey))).

(** What [Accept] returned: [ac_open] tells that more bytes can arrive. *)
Record accepted := Accepted {
  ac_conn : nat;
  ac_stream : bytes;
  ac_open : bool;
  ac_certs : certs_of;
}.

Definition name_arrived (a : accepted) : bool :=
  match (receive (ac_stream a)).1 with Ok _ => true | Err _ => false end.

(** [getInbound], whose [receive] waits while the name is not complete. *)
Definition getInbound_waiting (a : option accepted) : outcome (result peer_err peer) :=
  match a with
  | None => getInbound SerializePublicKey None
  | Some a =>
    if ac_open a && negb (name_arrived a) then Block
    else getInbound SerializePublicKey (Some (ac_conn a, ac_stream a, ac_certs a))
  end.

Definition isListenerClosed (e : peer_err) : bool :=
  match e with listenerCloseError => true | _ => false end.

(** The peers given to goroutines of [maintainConnection], with [amContact], for
    what successive calls of [Accept] return. *)
Fixpoint listenConnections (amContact : bool) (accepts : list (option accepted)) :
    list (peer * bool) * listen_state :=
  match accepts with
  | [] => ([], L_accept)
  | a :: accepts =>
    match getInbound_waiting a with
    | Done (Ok p) => let '(ps, st) := listenConnections amContact accepts in ((p, amContact) :: ps, st)
    | Done (Err e) => if isListenerClosed e then ([], L_ended) else listenConnections amContact accepts
    | Block => ([], L_name)
    | Panic => ([], L_panicked)
    end
  end.

(** The key and the certificate are made by the standard library; [listening]
    tells whether [tls.Listen] succeeds.  With the node, the argument of the loop
    it starts. *)
Definition NewNode (key : option PublicKey) (cert listening : bool) (address contact : bytes) :
    outcome (option (Node * bool)) :=
  match key with
  | None => Done None
  | Some pk =>
    if negb cert then Done None
    else if negb listening then Panic
    else Done (Some (MkNode address contact false [] [] 0 pk, bool_decide (address = contact)))
  end.

Definition attachMessageObserver (o : observer) (n : Node) : Node :=
  MkNode (n_address n) (n_contact n) (hasJoined n) (n_peers n) (msgObservers n ++ [o]) (memChan n) (n_pk n).

(** [Close] after the connections [accepts]: the listener fails from now on, the
    connections are closed, and the end of the loop is awaited. *)
Definition Close (amContact : bool) (accepts : list (option accepted)) (n : Node) : outcome Node :=
  n ← closeAllConnections n;
  match (listenConnections amContact (accepts ++ [None])).2 with
  | L_ended => Done n
  | L_panicked => Panic
  | L_accept | L_name => Block
  end.

(** ** What the loop does *)

(** The other side has sent a name or hung up, and its key, if any, is ECDSA. *)
Definition prompt (a : accepted) : Prop :=
  (ac_open a = false ∨ name_arrived a = true) ∧
  (name_arrived a = true → ¬ ∃ l, ac_certs a = OtherKey :: l).

Definition inbound_peer (a : accepted) : option peer :=
  match getInbound_waiting (Some a) with Done (Ok p) => Some p | _ => None end.

Lemma prompt_inbound a : prompt a →
  (∃ p, getInbound_waiting (Some a) = Done (Ok p)) ∨
  ∃ e, getInbound_waiting (Some a) = Done (Err e) ∧ isListenerClosed e = false.
Proof.
  intros [Ho Hk]. unfold getInbound_waiting.
  replace (ac_open a && negb (name_arrived a)) with false
    by (destruct Ho as [-> | ->]; by rewrite ?andb_false_r).
  unfold getInbound. unfold name_arrived in Hk. destruct (receive (ac_stream a)).1 as [name|e]; [|right; by eexists].
  unfold peer_of. destruct (ac_certs a) as [|[pk|] l].
  - right. by eexists.
  - destruct (PkToUUID SerializePublicKey pk); [left; by eexists|right; by eexists].
  - destruct Hk; [done|]. by eexists.
Qed.

Lemma listen_cons c a rest :
  listenConnections c (a :: rest) =
    match getInbound_waiting a with
    | Done (Ok p) => let '(ps, st) := listenConnections c rest in ((p, c) :: ps, st)
    | Done (Err e) => if isListenerClosed e then ([], L_ended) else listenConnections c rest
    | Block => ([], L_name)
    | Panic => ([], L_panicked)
    end.
Proof. done. Qed.

(** Prompt connections are served in order; what fails is skipped. *)
Lemma listen_app c l rest : Forall prompt l →
  listenConnections c ((Some <$> l) ++ rest) =
    (((λ p, (p, c)) <$> omap inbound_peer l) ++ (listenConnections c rest).1, (listenConnections c rest).2).
Proof.
  induction 1 as [|a l Ha _ IH]; [apply surjective_pairing|].
  rewrite fmap_cons, <-app_comm_cons, listen_cons, IH.
  assert (Ho : omap inbound_peer (a :: l) =
    match inbound_peer a with Some p => p :: omap inbound_peer l | None => omap inbound_peer l end) by done.
  rewrite Ho. unfold inbound_peer at 1 3. destruct (prompt_inbound a Ha) as [[p Hp]|(e & He & Hc)].
  - by rewrite Hp.
  - by rewrite He, Hc.
Qed.

Lemma close_after c accepts n n' :
  closeAllConnections n = Done n' →
  Close c accepts n =
    match (listenConnections c (accepts ++ [None])).2 with
    | L_ended => Done n' | L_panicked => Panic | L_accept | L_name => Block end.
Proof. intros Hn. unfold Close. by rewrite Hn. Qed.

Lemma listen_closed c rest : listenConnections c (None :: rest) = ([], L_ended).
Proof. done. Qed.
End listen.

(** ** Theorems *)

(** While every peer sends its name or hangs up, each connection with an
    acceptable certificate gets its goroutine, in the order of arrival, the
    others are skipped, and [Close] returns with no peer left. *)
Theorem listen_serves (PublicKey : Type) (SerializePublicKey : PublicKey → option bytes)
    (amContact : bool) (l : list (@accepted PublicKey)) (n n' : @Node PublicKey) :
  Forall prompt l → closeAllConnections n = Done n' →
  listenConnections SerializePublicKey amContact (Some <$> l) =
    ((λ p, (p, amContact)) <$> omap (inbound_peer SerializePublicKey) l, L_accept) ∧
  Close SerializePublicKey amContact (Some <$> l) n = Done n' ∧ n_peers n' = [].
Proof.
  intros Hl Hn. split_and!.
  - rewrite <-(app_nil_r (Some <$> l)), listen_app by done. simpl. by rewrite app_nil_r.
  - rewrite (close_after _ _ _ _ n') by done. by rewrite listen_app.
  - unfold closeAllConnections in Hn. case_decide; [|done]. by injection Hn as <-.
Qed.

(** One peer stops a node: as long as a connection is open and has not sent a
    whole name, no later connection is accepted and [Close] waits for ever; a name
    under a certificate with a key other than ECDSA ends the process. *)
Theorem one_peer_stops (PublicKey : Type) (SerializePublicKey : PublicKey → option bytes)
    (amContact : bool) (l : list (@accepted PublicKey)) (a : accepted) rest (n n' : @Node PublicKey) :
  Forall prompt l → closeAllConnections n = Done n' →
  (ac_open a = true → name_arrived a = false →
   listenConnections SerializePublicKey amContact ((Some <$> l) ++ Some a :: rest) =
     ((λ p, (p, amContact)) <$> omap (inbound_peer SerializePublicKey) l, L_name) ∧
   Close SerializePublicKey amContact ((Some <$> l) ++ Some a :: rest) n = Block) ∧
  (name_arrived a = true → (∃ k, ac_certs a = OtherKey :: k) →
   (listenConnections SerializePublicKey amContact ((Some <$> l) ++ Some a :: rest)).2 = L_panicked).
Proof.
  intros Hl Hn. split.
  - intros Ho Ha. assert (Hg : getInbound_waiting SerializePublicKey (Some a) = Block)
      by (unfold getInbound_waiting; by rewrite Ho, Ha).
    split; [|rewrite (close_after _ _ _ _ n'), <-(assoc_L (++)) by done];
      rewrite listen_app by done; cbn [app]; rewrite listen_cons, Hg; simpl; by rewrite ?app_nil_r.
  - intros Ha [k Hk]. rewrite listen_app by done. rewrite listen_cons.
    assert (getInbound_waiting SerializePublicKey (Some a) = Panic) as ->; [|done].
    unfold getInbound_waiting. rewrite Ha, andb_false_r. unfold getInbound, name_arrived in *.
    destruct (receive (ac_stream a)).1; [|done]. by rewrite Hk.
Qed.

Module ListenExample.
Definition key (b : bytes) : option bytes := Some b.
Definition good_peer : accepted := Accepted 1 (ov_send ["a"%byte]) true [EcdsaKey ["k"%byte]].
Definition silent : @accepted bytes := Accepted 2 [] true [].
Definition node : @Node bytes := MkNode ["n"%byte] ["n"%byte] false [] [] 0 ["x"%byte].

Lemma prompt_good : Forall prompt [good_peer].
Proof.
  constructor; [|constructor]. split; [right; vm_compute; reflexivity|]. intros _ [l Hl]. discriminate Hl.
Qed.
End ListenExample.
Import ListenExample.

Lemma listen_serves_witness : Close key true (Some <$> [good_peer]) node = Done node.
Proof.
  exact (proj1 (proj2 (listen_serves bytes key true [good_peer] node node prompt_good ltac:(vm_compute; reflexivity)))).
Defined.

Lemma one_peer_stops_witness : Close key true ((Some <$> [good_peer]) ++ [Some silent; Some good_peer]) node = Block.
Proof.
  exact (proj2 (proj1 (one_peer_stops bytes key true [good_peer] silent [Some good_peer] node node prompt_good
    ltac:(vm_compute; reflexivity)) ltac:(vm_compute; reflexivity) ltac:(vm_compute; reflexivity))).
Defined.
