(* ===== verification/Executors.v ===== *)
(** * The executors of the components

    [Executor] at each component: which closures its [invoker] runs, how their
    answers reach the callers, and what [Close] signals.  The calls of each
    component are then the transitions its model has. *)

From stdpp Require Import base tactics numbers list gmap functions.
From Stdlib Require Import Init.Byte.
From S2P Require Import Prelude Utils BrbInstance BrbMiddleware BrbChannel Bca Termination Round Mmr AbaNetwork AbaWire AbaChannel Acs BkrChannel CoinGroup CoinWire CoinToss Executor.

Local Open Scope Z_scope.

(** ** Reliable broadcast: [brbInstance] *)

Definition brb_executor : executor brbHandler brb_input (option brb_err) :=
  Executor brbInstance_exec (λ _, true) (λ _, false) id.

(** ** The channel of reliable broadcast: errors are logged *)

Inductive brb_chan_command :=
| BMsg (m : brb_msg)
| BOutput (id : UUID) (output : BRBMsg).

(** The closure [processOutput] posts. *)
Definition output_command (id : UUID) (output : BRBMsg) (c : BRBChannel) : BRBChannel * option brb_chan_err :=
  let c := MkBRBChannel (brb_n c) (brb_f c) (brb_heap c) (brb_live c) (brb_finished c)
             (brb_pending c) (BrbDeliver c ++ [(id, output)]) in
  match brb_heap c !! id with
  | Some a =>
    if decide (id ∈ brb_live c) then
      (MkBRBChannel (brb_n c) (brb_f c) (<[id := InstanceCell (ic_handler a) (ic_log a) O_done false]> (brb_heap c))
         (brb_live c ∖ {[id]}) ({[id]} ∪ brb_finished c) (brb_pending c) (BrbDeliver c), None)
    else (put_cell id (InstanceCell (ic_handler a) (ic_log a) O_done (ic_open a)) c, Some (HandlerNotFound id))
  | None => (c, Some (HandlerNotFound id))
  end.

Definition brb_chan_executor : executor BRBChannel brb_chan_command (option brb_chan_err) :=
  Executor (λ c s, Done (match c with
                         | BMsg m => brb_processMsg m s
                         | BOutput id output => output_command id output s
                         end)) (λ _, false) (λ _, false) id.

(** It is the second step of the goroutine [processOutput]. *)
Lemma output_command_step id o a c :
  brb_heap c !! id = Some a → ic_output a = O_command o →
  processOutput id c = Some (output_command id o c).1.
Proof.
  intros Ha Ho. unfold processOutput, output_command. simpl. rewrite Ha. simpl. rewrite Ho. by case_decide.
Qed.

(** ** The termination gadget: [output] has room for the answer *)

Definition term_executor : executor mmrTermination (Z * UUID) (option term_err) :=
  Executor (λ '(decision, sender), term_submitDecision decision sender) (λ _, false) (λ _, false) id.

(** ** [concurrentMMR]

    The rounds whose [closeChan] holds a signal go with the [mmr].  The closure
    of [listenExternallyValid] has no answer. *)

Inductive conc_command :=
| CPropose (est : Z)
| CSubmit (k : bca_kind) (v : Z) (sender : UUID) (r : Z)
| CCoin (coin r : Z)
| CExternal (v r : Z).

Definition conc_exec (c : conc_command) (s : mmr * gset Z) :
    outcome ((mmr * gset Z) * option mmr_err) :=
  '(m, err) ← (match c with
               | CPropose est => conc_propose est s.1
               | CSubmit k v sender r => mmr_submit k v sender r s.1
               | CCoin coin r => mmr_submitCoin coin r s.1
               | CExternal v r => m ← mmr_submitExternallyValid v r s.1; Done (m, None)
               end);
  Done ((m, s.2), err).

Definition cancelableRound_close (r : Z) (closing : gset Z) : gset Z := {[r]} ∪ closing.

Definition mmr_close (s : mmr * gset Z) : mmr * gset Z :=
  (s.1, set_fold cancelableRound_close s.2 (dom (rounds s.1))).

Definition conc_executor : executor (mmr * gset Z) conc_command (option mmr_err) :=
  Executor conc_exec (λ c, if c is CExternal _ _ then false else true) (λ _, false) mmr_close.

(** ** The agreement channel: errors are logged *)

Inductive aba_chan_command :=
| ANew (id : UUID)
| ATerm (term : terminationMsg)
| AMsg (msg : abaMsg)
| AClose (id : UUID).

Definition aba_chan_command_exec (c : aba_chan_command) (s : AbaChannel) :
    outcome (AbaChannel * option aba_chan_err) :=
  Done (match c with
        | ANew id => getInstance id s
        | ATerm term => processTermMsg term s
        | AMsg msg => processMiddlewareMsg msg s
        | AClose id => closeWrappedInstance id s
        end).

Definition aba_chan_executor : executor AbaChannel aba_chan_command (option aba_chan_err) :=
  Executor aba_chan_command_exec (λ _, false) (λ _, false) id.

(** ** The common subset channel *)

Definition bkr_executor : executor BKRChannel (UUID * bytes * UUID) (option bkr_chan_err) :=
  Executor (λ '(bkrId, proposal, sender), submitProposal bkrId proposal sender)
    (λ _, false) (λ _, false) id.

(** ** The coin *)

Section coin.
Context (G : CirclGroup) (D : DleqProof G).

Definition sp_executor : executor (shareProcessor G) (pointShare G * UUID) (option toss_err) :=
  Executor (λ '(share, sender), processShare G share sender) (λ _, true) (sp_stuck G) id.

Context (Prove : Scalar G → Element G → Element G → Element G → Element G → Scalar G → option (Proof D)).
Context (Verify : Element G → Element G → Element G → Element G → Proof D → bool).
Context (HashToElement : bytes → Element G).

Inductive ct_command :=
| CTToss (seed : bytes) (proofSeed : Scalar G)
| CTSchedule (id sender : UUID) (share : ctShare G D).

Definition ct_command_exec (c : ct_command) (s : CTChannel G D) : outcome (CTChannel G D * option toss_err) :=
  match c with
  | CTToss seed proofSeed => TossCoin G D Prove Verify HashToElement seed proofSeed s
  | CTSchedule id sender share => scheduleShareSubmission G D Verify id sender share s
  end.

(** What [bebDeliver] posts for a message. *)
Definition ct_deliver (m : ct_msg G D) : ct_command := CTSchedule (cm_id G D m) (cm_sender G D m) (cm_share G D m).

Definition ct_executor : executor (CTChannel G D) ct_command (option toss_err) :=
  Executor ct_command_exec (λ _, false) (λ _, false) id.
End coin.

(** ** Closing

    [Close] of a channel sends one signal to each of the loops it names, in that
    order; every closing channel has room for one. *)

Fixpoint signal_all {L} `{EqDecision L} (ls : list L) (s : L → list unit) : outcome (L → list unit) :=
  match ls with
  | [] => Done s
  | l :: ls => s ← chan_send (λ _, 1%nat) l tt s; signal_all ls s
  end.

Inductive chan_loop := LCommands | LDeliver.
#[export] Instance chan_loop_eq_dec : EqDecision chan_loop.
Proof. solve_decision. Defined.

Definition BRBChannel_Close : (chan_loop → list unit) → outcome (chan_loop → list unit) :=
  signal_all [LCommands; LDeliver].
Definition CTChannel_Close : (chan_loop → list unit) → outcome (chan_loop → list unit) :=
  signal_all [LDeliver; LCommands].
(** [listener] is [LDeliver], [invoker] is [LCommands]. *)
Definition AbaChannel_Close : (chan_loop → list unit) → outcome (chan_loop → list unit) :=
  signal_all [LDeliver; LCommands].
(** [listenBroadcasts] is [LDeliver]. *)
Definition BKRChannel_Close : (chan_loop → list unit) → outcome (chan_loop → list unit) :=
  signal_all [LCommands].
(** The goroutine of [close], after its ten seconds; [listenExternallyValid] is
    [LDeliver]. *)
Definition concurrentMMR_close : (chan_loop → list unit) → outcome (chan_loop → list unit) :=
  signal_all [LDeliver; LCommands].

Definition no_signal : chan_loop → list unit := λ _, [].

(** A first [Close] returns and leaves each loop it names a signal. *)
Lemma first_close_signals ls :
  NoDup ls → ∃ s, signal_all ls no_signal = Done s ∧ ∀ l : chan_loop, s l = if decide (l ∈ ls) then [tt] else [].
Proof.
  intros Hnd. cut (∀ s0 : chan_loop → list unit, (∀ l, l ∈ ls → s0 l = []) →
    ∃ s, signal_all ls s0 = Done s ∧ ∀ l, s l = if decide (l ∈ ls) then [tt] else s0 l).
  { intros H. destruct (H no_signal) as (s & Hs & Hl); [done|]. by exists s. }
  induction Hnd as [|l ls Hl Hnd IH]; intros s0 Hs0; simpl; [by exists s0|].
  rewrite chan_send_Done by (rewrite Hs0 by left; simpl; lia). simpl. rewrite Hs0 by left.
  destruct (IH (<[l := [tt]]> s0)) as (s & Hs & Hl').
  { intros l' Hin. rewrite chan_upd_lookup, decide_False by (by intros ->). apply Hs0. by right. }
  exists s. split; [done|]. intros l'. rewrite Hl', chan_upd_lookup. simpl.
  destruct (decide (l' ∈ ls)), (decide (l' ∈ l :: ls)), (decide (l = l')); set_solver.
Qed.

(** No number of [Close] calls ends the loop of [listenBroadcasts]. *)
Lemma bkr_listener_not_signalled s : BKRChannel_Close s = Block ∨ ∃ s', BKRChannel_Close s = Done s' ∧ s' LDeliver = s LDeliver.
Proof.
  unfold BKRChannel_Close. simpl. unfold chan_send. case_decide; [|by left]. right.
  eexists. split; [done|]. by rewrite chan_upd_lookup.
Qed.

(** The signals that [mmr.close] leaves are for the rounds there are. *)
Lemma mmr_close_rounds s r : r ∈ (mmr_close s).2 ↔ r ∈ s.2 ∨ is_Some (rounds s.1 !! r).
Proof.
  unfold mmr_close. simpl. rewrite <-elem_of_dom.
  apply (set_fold_ind_L (λ cl X, r ∈ cl ↔ r ∈ s.2 ∨ r ∈ X)); [set_solver|].
  intros x X cl Hx IH. unfold cancelableRound_close. set_solver.
Qed.

(** ** The calls of a broadcast instance *)

Lemma brb_run_seq ins h :
  brb_run ins h = '(h, _) ← exec_seq brb_executor ins h; Done h.
Proof.
  revert h. induction ins as [|i ins IH]; intros h; simpl; [done|].
  destruct (brbInstance_exec i h) as [[h1 e]| |]; simpl; [|done|done].
  rewrite IH. by destruct (exec_seq brb_executor ins h1) as [[]| |].
Qed.

(** A call whose message holds an identifier. *)
Definition brb_call_ok (i : brb_input) : Prop := if i is IReady msg _ then (uuid_size ≤ length msg)%nat else True.

Lemma brb_exec_returns i h :
  brb_call_ok i → post (brbInstance_exec i h) (λ p, True ∧ ex_stuck brb_executor p.1 = false) False.
Proof.
  intros Hok. assert (Hr : returns (brbInstance_exec i h)); [|by destruct Hr as [p ->]].
  destruct i as [msg s|msg s|msg s]; simpl; [by eexists|..].
  - unfold brbHandler_handleEcho, brbPhase1Handler_handleEcho, ph1_in_next, brbPhase2Handler_handleEcho.
    repeat (case_match || case_decide); simplify_eq/=; eauto; by eexists.
  - simpl in Hok. unfold brbHandler_handleReady, brbPhase1Handler_handleReady, ph1_in_next,
      brbPhase2Handler_handleReady, ph2_in_next, brbPhase3Handler_handleReady, parseMsg.
    rewrite (decide_False (P := (length msg < uuid_size)%nat)) by lia.
    repeat (case_match || case_decide); simplify_eq/=; eauto; by eexists.
Qed.

(** ** Every executor *)

(** C37: one call at a time.  Whatever the goroutines that call a component
    and its executor do, and in whatever order, the component is in the state
    the calls lead to when made one after the other, each call that has returned
    has its answer there, and a call made after another has returned comes after
    it. *)
Theorem executor_serial {S C R} (E : executor S C R) s0 evs x :
  invoker_run E evs (x_start s0) = Some x → at_work x →
  ∃ cs rs, Forall2 (λ i c, called evs !! i = Some c) (took evs) cs ∧ NoDup (took evs) ∧
    exec_seq E cs s0 = Done (x_state x, rs) ∧
    (∀ i r, x_calls x !! i = Some (K_done r) → answered evs rs i r) ∧
    (∀ evs1 evs2 x1 i j r, evs = evs1 ++ evs2 → invoker_run E evs1 (x_start s0) = Some x1 →
       x_calls x1 !! i = Some (K_done r) → (length (called evs1) ≤ j)%nat → j ∈ took evs →
       before (took evs) i j).
Proof.
  intros Hr Hw. destruct (exec_run_inv E s0 evs x Hr) as (cs & Hi & Hsv).
  destruct Hsv as (s & rs & Hs & Hst & Hd & _).
  { unfold serving, at_work in *. by destruct (x_pc x). }
  exists cs, rs. split_and!; [apply Hi|apply Hi| |done|].
  - unfold at_work in Hw. destruct (x_pc x); by subst.
  - intros evs1 evs2 x1 i j r -> H1 H2 H3 H4. by eapply returned_before.
Qed.

(** C38: calls return.  When the closures of a component end, the calls made
    before it is closed all return: the executor has at most two moves for each
    call, and when it has none left every call has its answer. *)
Theorem executor_returns {S C R} (E : executor S C R) (ok : C → Prop) (I : S → Prop) s0 evs evs' x y :
  (∀ c s, ok c → I s → post (ex_exec E c s) (λ p, I p.1 ∧ ex_stuck E p.1 = false) False) →
  I s0 → ex_stuck E s0 = false → X_end ∉ evs → Forall ok (called evs) →
  invoker_run E evs (x_start s0) = Some x → Forall works evs' → invoker_run E evs' x = Some y →
  (length evs' ≤ 2 * length (called evs))%nat ∧
  ((∀ e, works e → invoker_step E e y = None) →
   ∀ i c, called evs !! i = Some c → ∃ r, x_calls y !! i = Some (K_done r)).
Proof.
  intros HE HI Hs Hnd Hok Hx Hw Hy. destruct (exec_run_inv E s0 evs x Hx) as (cs & Hi & _).
  pose proof (work_left_run E s0 evs evs' x y Hx Hw Hy). pose proof (work_left_bound x).
  rewrite (xi_length _ _ _ _ Hi) in *. split; [lia|]. intros Hno i c Hc.
  assert (Hxy : invoker_run E (evs ++ evs') (x_start s0) = Some y) by by rewrite invoker_run_app, Hx.
  destruct (works_silent evs' Hw) as (Hcl & Hnd').
  destruct (exec_run_inv E s0 _ y Hxy) as (cs' & Hi' & _).
  destruct (lookup_lt_is_Some_2 (x_calls y) i) as [k Hk].
  { rewrite (xi_length _ _ _ _ Hi'), called_app, Hcl, app_nil_r. by apply lookup_lt_Some in Hc. }
  rewrite Hk. destruct (idle_all_done E y) with i k as [r ->]; [|..|by exists r]; try done.
  - eapply (working_run E ok I HE (evs ++ evs')); [by apply working_start| | |done].
    + by intros [? | ?]%elem_of_app.
    + by rewrite called_app, Hcl, app_nil_r.
  - eapply waits_run; [apply waits_start|done].
Qed.

(** After the close.  An executor that has received its signal runs no
    closure: the calls it had taken have returned, and no other call, made before
    or after, ever does. *)
Theorem executor_closed {S C R} (E : executor S C R) s0 evs1 evs2 y :
  invoker_run E (evs1 ++ X_end :: evs2) (x_start s0) = Some y →
  ∃ x, invoker_run E evs1 (x_start s0) = Some x ∧
    x_state y = ex_end E (x_state x) ∧ x_calls y = x_calls x ++ (K_post <$> called evs2) ∧
    ∀ i k, x_calls x !! i = Some k → i ∈ took evs1 ↔ ∃ r, k = K_done r.
Proof.
  rewrite invoker_run_app. intros (x & Hx & Hy)%bind_Some. exists x. split; [done|].
  simpl in Hy. apply bind_Some in Hy as (x' & Hst%invoker_step_case & Hy).
  inversion Hst as [| | | |n Hpc Hn]; subst. apply (closed_run E) in Hy as (-> & _ & ->); [|done].
  split; [done|]. split; [done|]. intros i k Hk.
  destruct (exec_run_inv E s0 evs1 x Hx) as (cs & Hi & _). split.
  - intros Ht. destruct k as [c| |r]; [|exfalso|by exists r].
    + by destruct (xi_post _ _ _ _ Hi i c Hk) as [_ []].
    + pose proof (waits_run E evs1 _ x (waits_start s0) Hx i Hk) as Hw. by rewrite Hpc in Hw.
  - intros [r ->]. by eapply (xi_left _ _ _ _ Hi).
Qed.

(** ** A run: three callers of a broadcast instance, closed in between *)

Module ExecExample.

Definition em : bytes := uuid_bytes uuid_Nil ++ ["005"%byte].
Definition e1 : UUID := uuid_of_byte "001".
Definition e2 : UUID := uuid_of_byte "002".

(** The second call is taken first; the third is made once the executor has
    closed. *)
Definition eopen : list (exec_event brb_input) :=
  [X_call (IEcho em e1); X_call (IEcho em e2); X_take 1; X_hand; X_take 0; X_close].
Definition emoves : list (exec_event brb_input) := [X_hand].
Definition eclosed : list (exec_event brb_input) := [X_call (IReady em e1); X_close].

Definition estart : exec_system brbHandler brb_input (option brb_err) := x_start (newBrbHandler 4 1).
Definition erun (evs : list (exec_event brb_input)) : exec_system brbHandler brb_input (option brb_err) :=
  default estart (invoker_run brb_executor evs estart).

Definition ran (evs : list (exec_event brb_input)) : bool :=
  if invoker_run brb_executor evs estart is Some _ then true else false.

Lemma erun_eq evs : ran evs = true → invoker_run brb_executor evs estart = Some (erun evs).
Proof. unfold ran, erun. by destruct (invoker_run brb_executor evs estart). Qed.

End ExecExample.
Import ExecExample.

Lemma executor_serial_witness :
  took (eopen ++ emoves) = [1; 0]%nat ∧
  ∃ cs rs, Forall2 (λ i c, called (eopen ++ emoves) !! i = Some c) (took (eopen ++ emoves)) cs ∧
    NoDup (took (eopen ++ emoves)) ∧
    exec_seq brb_executor cs (newBrbHandler 4 1) = Done (x_state (erun (eopen ++ emoves)), rs) ∧
    (∀ i r, x_calls (erun (eopen ++ emoves)) !! i = Some (K_done r) → answered (eopen ++ emoves) rs i r) ∧
    (∀ evs1 evs2 x1 i j r, eopen ++ emoves = evs1 ++ evs2 →
       invoker_run brb_executor evs1 estart = Some x1 →
       x_calls x1 !! i = Some (K_done r) → (length (called evs1) ≤ j)%nat → j ∈ took (eopen ++ emoves) →
       before (took (eopen ++ emoves)) i j).
Proof.
  split; [done|]. apply (executor_serial brb_executor).
  - apply erun_eq. vm_compute. reflexivity.
  - vm_compute. exact Logic.I.
Defined.

Lemma executor_returns_witness :
  ran (eopen ++ emoves) = true ∧
  (length emoves ≤ 2 * length (called eopen))%nat ∧
  ((∀ e, works e → invoker_step brb_executor e (erun (eopen ++ emoves)) = None) →
   ∀ i c, called eopen !! i = Some c → ∃ r, x_calls (erun (eopen ++ emoves)) !! i = Some (K_done r)).
Proof.
  split; [vm_compute; reflexivity|].
  apply (executor_returns brb_executor brb_call_ok (λ _, True) (newBrbHandler 4 1) eopen emoves
           (erun eopen) (erun (eopen ++ emoves))).
  - intros c s Hc _. by apply brb_exec_returns.
  - exact Logic.I.
  - reflexivity.
  - set_solver.
  - repeat constructor.
  - apply erun_eq. vm_compute. reflexivity.
  - repeat constructor.
  - pose proof (erun_eq (eopen ++ emoves)) as H. rewrite invoker_run_app, (erun_eq eopen) in H by (vm_compute; reflexivity).
    apply H. vm_compute. reflexivity.
Defined.

Lemma executor_closed_witness :
  ∃ x, invoker_run brb_executor (eopen ++ emoves) estart = Some x ∧
    x_state (erun ((eopen ++ emoves) ++ X_end :: eclosed)) = x_state x ∧
    x_calls (erun ((eopen ++ emoves) ++ X_end :: eclosed)) = x_calls x ++ (K_post <$> called eclosed) ∧
    ∀ i k, x_calls x !! i = Some k → i ∈ took (eopen ++ emoves) ↔ ∃ r, k = K_done r.
Proof.
  apply (executor_closed brb_executor (newBrbHandler 4 1) (eopen ++ emoves) eclosed).
  apply erun_eq. vm_compute. reflexivity.
Defined.
