(* ===== verification/CoinChannel.v ===== *)
(** * The coin of a channel

    The channels of the processes toss many coins at once, and the shares of a
    seed reach a channel before and after its own toss.  Whatever the order of
    the calls of [TossCoin] and of the deliveries ([ct_command] of [Executors],
    run one after the other), a channel has for each seed it has tossed the toss
    of [CoinAgree] with all the shares it has been sent for it ([ct_run_inv]), so
    two channels output the same coin.  The share a channel broadcasts is valid
    at every channel when the prover of [dleq] is complete. *)

From stdpp Require Import base tactics numbers list fin_sets gmap.
From Stdlib Require Import Init.Byte.
From S2P Require Import Prelude Utils CoinGroup CoinWire CoinToss CoinAgree Executor Executors.

Local Open Scope Z_scope.

(** A proof of equal logarithms can be made and verifies. *)
Class DleqComplete (G : CirclGroup) (D : DleqProof G)
    (Prove : Scalar G → Element G → Element G → Element G → Element G → Scalar G → option (Proof D))
    (Verify : Element G → Element G → Element G → Element G → Proof D → bool) : Prop :=
  dleq_complete k a b r : ∃ p, Prove k a (e_Mul a k) b (e_Mul b k) r = Some p ∧
    Verify a (e_Mul a k) b (e_Mul b k) p = true.

Section channel.
Context (G : CirclGroup) (D : DleqProof G).
Context (Prove : Scalar G → Element G → Element G → Element G → Element G → Scalar G → option (Proof D)).
Context (Verify : Element G → Element G → Element G → Element G → Proof D → bool).
Context (HashToElement : bytes → Element G).

(** The seeds tossed and the shares delivered for an identifier, in order. *)
Definition tosses (cs : list (ct_command G D)) : list bytes :=
  omap (λ c, match c with CTToss _ _ seed _ => Some seed | CTSchedule _ _ _ _ _ => None end) cs.
Definition shares_of (id : UUID) (cs : list (ct_command G D)) : list (ctShare G D * UUID) :=
  omap (λ c, match c with
             | CTToss _ _ _ _ => None
             | CTSchedule _ _ id' sender share => if decide (id' = id) then Some (share, sender) else None
             end) cs.

Definition toss_of (t : Z) (d : deal G) (seed : bytes) : coinToss G := newCoinToss G t (HashToElement seed) d.

(** The valid shares of a seed. *)
Definition counted (t : Z) (d : deal G) (seed : bytes) (cs : list (ct_command G D)) : list (ctShare G D * UUID) :=
  accepted G D Verify (toss_of t d seed) (shares_of (BytesToUUID seed) cs).

(** Every seed is tossed once, and no sender or identifier is counted twice. *)
Record fair (t : Z) (d : deal G) (cs : list (ct_command G D)) : Prop := {
  fair_once : NoDup (BytesToUUID <$> tosses cs);
  fair_senders seed : seed ∈ tosses cs → NoDup (counted t d seed cs).*2;
  fair_ids seed : seed ∈ tosses cs → NoDup ((λ x, ps_id (ct_pt G D x.1)) <$> counted t d seed cs);
}.

Lemma tosses_app cs cs' : tosses (cs ++ cs') = tosses cs ++ tosses cs'.
Proof. apply omap_app. Qed.
Lemma shares_of_app id cs cs' : shares_of id (cs ++ cs') = shares_of id cs ++ shares_of id cs'.
Proof. apply omap_app. Qed.
Lemma counted_app t d seed cs cs' : counted t d seed (cs ++ cs') = counted t d seed cs ++ counted t d seed cs'.
Proof. unfold counted, accepted. by rewrite shares_of_app, filter_app. Qed.

Lemma fair_prefix t d cs cs' : fair t d (cs ++ cs') → fair t d cs.
Proof.
  intros [Ho Hs Hi]. rewrite tosses_app in *.
  split; [by rewrite fmap_app in Ho; apply NoDup_app in Ho as [? _]|intros seed Hin..].
  - specialize (Hs seed). rewrite counted_app, fmap_app, elem_of_app in Hs.
    by apply NoDup_app in Hs as [? _]; [|left].
  - specialize (Hi seed). rewrite counted_app, fmap_app, elem_of_app in Hi.
    by apply NoDup_app in Hi as [? _]; [|left].
Qed.

(** ** The state of a channel after its commands *)

Lemma submit_all_snoc l share sender ct :
  submit_all G D Verify (l ++ [(share, sender)]) ct =
  ct' ← submit_all G D Verify l ct; '(ct', _) ← coin_submitShare G D Verify share sender ct'; Done ct'.
Proof.
  revert ct. induction l as [|[sh s] l IH]; intros ct; simpl.
  - by destruct (coin_submitShare G D Verify share sender ct) as [[]| |].
  - destruct (coin_submitShare G D Verify sh s ct) as [[ct' e]| |]; [apply IH|done..].
Qed.

(** The kept shares go to the toss. *)
Lemma loop_submit_all id l c ct :
  id ∉ ctc_finished G D c → ctc_instances G D c !! id = Some ct →
  processUnordered_loop G D Verify id (prod_swap <$> l) c =
  ct' ← submit_all G D Verify l ct; Done (set_toss G D id ct' c).
Proof.
  revert c ct. induction l as [|[sh s] l IH]; intros c ct Hf Hct; simpl.
  - unfold set_toss. rewrite insert_id by done. by destruct c.
  - unfold ct_submitShare. rewrite decide_False, Hct by done.
    destruct (coin_submitShare G D Verify sh s ct) as [[ct' e]| |]; [|done..]. cbn [mbind outcome_bind].
    rewrite (IH _ ct'); [|done|apply lookup_insert_eq].
    destruct (submit_all G D Verify l ct') as [ct''| |]; [|done..]. simpl. f_equal.
    unfold set_toss. simpl. by rewrite insert_insert_eq.
Qed.

(** [own]: the share that is broadcast for a seed. *)
Record ct_run_inv (t : Z) (d : deal G) (cs : list (ct_command G D)) (c : CTChannel G D) : Prop := {
  cri_finished : ctc_finished G D c = ∅;
  cri_t : ctc_t G D c = t;
  cri_deal : ctc_deal G D c = d;
  cri_tossed seed : seed ∈ tosses cs → ∃ ct,
    ctc_instances G D c !! BytesToUUID seed = Some ct ∧
    submit_all G D Verify (shares_of (BytesToUUID seed) cs) (toss_of t d seed) = Done ct;
  cri_waiting id : id ∉ BytesToUUID <$> tosses cs →
    ctc_instances G D c !! id = None ∧
    default [] (ctc_unordered G D c !! id) = prod_swap <$> shares_of id cs;
  cri_sent seed : seed ∈ tosses cs → ∃ proofSeed share,
    tossCoin G D Prove proofSeed (toss_of t d seed) = Ok share ∧ (BytesToUUID seed, share) ∈ ct_sent G D c;
}.

Lemma ct_run_inv_start t d : ct_run_inv t d [] (initializeChannel G D t d).
Proof. split; try done; intros seed Hs; by apply not_elem_of_nil in Hs. Qed.

Lemma tosses_share cs id sender share : tosses (cs ++ [CTSchedule G D id sender share]) = tosses cs.
Proof. rewrite tosses_app. apply app_nil_r. Qed.
Lemma tosses_toss cs seed r : tosses (cs ++ [CTToss G D seed r]) = tosses cs ++ [seed].
Proof. apply tosses_app. Qed.
Lemma shares_toss id cs seed r : shares_of id (cs ++ [CTToss G D seed r]) = shares_of id cs.
Proof. rewrite shares_of_app. apply app_nil_r. Qed.
Lemma shares_share id cs id' sender share :
  shares_of id (cs ++ [CTSchedule G D id' sender share]) =
  shares_of id cs ++ (if decide (id' = id) then [(share, sender)] else []).
Proof. rewrite shares_of_app. f_equal. unfold shares_of. simpl. by case_decide. Qed.

(** A delivery, when no share of the toss it meets blocks. *)
Lemma ct_run_inv_share t d cs c id sender share :
  ct_run_inv t d cs c → NoDup (BytesToUUID <$> tosses cs) →
  (∀ seed, seed ∈ tosses cs → returns (submit_all G D Verify
     (shares_of (BytesToUUID seed) (cs ++ [CTSchedule G D id sender share])) (toss_of t d seed))) →
  ∃ c' e, scheduleShareSubmission G D Verify id sender share c = Done (c', e) ∧
    ct_run_inv t d (cs ++ [CTSchedule G D id sender share]) c'.
Proof.
  intros [Hf Ht Hd Hi Hw Hs] Hnd Hret. unfold scheduleShareSubmission.
  rewrite decide_False by (rewrite Hf; apply not_elem_of_empty).
  destruct (decide (id ∈ BytesToUUID <$> tosses cs)) as [Hin|Hni].
  - apply list_elem_of_fmap in Hin as (seed & -> & Hseed). destruct (Hi seed Hseed) as (ct & Hct & Hsub).
    destruct (Hret seed Hseed) as [ct' Hct']. rewrite shares_share, decide_True, submit_all_snoc, Hsub in Hct' by done.
    cbn [mbind outcome_bind] in Hct'.
    destruct (coin_submitShare G D Verify share sender ct) as [[ct2 e]| |] eqn:Hsh; [|done..]. injection Hct' as ->.
    rewrite Hct. unfold ct_submitShare. rewrite decide_False, Hct by (rewrite Hf; apply not_elem_of_empty).
    rewrite Hsh. eexists _, e. split; [done|].
    split; [done..| | |by rewrite tosses_share]; rewrite tosses_share; simpl.
    + intros seed' Hseed'. rewrite shares_share. destruct (decide (BytesToUUID seed = BytesToUUID seed')) as [He|Hne].
      * assert (seed' = seed) as ->.
        { apply list_elem_of_lookup in Hseed as [i Hl], Hseed' as [j Hl'].
          assert (i = j) as ->; [|congruence]. eapply (NoDup_lookup _ _ _ (BytesToUUID seed) Hnd); rewrite list_lookup_fmap.
          - by rewrite Hl.
          - by rewrite Hl', He. }
        exists ct'. rewrite lookup_insert_eq. split; [done|]. by rewrite submit_all_snoc, Hsub; simpl; rewrite Hsh.
      * rewrite lookup_insert_ne, app_nil_r by done. by apply Hi.
    + intros id' Hni. rewrite shares_share.
      rewrite decide_False by (intros <-; apply Hni; by apply list_elem_of_fmap_2).
      rewrite app_nil_r, lookup_insert_ne by (intros <-; apply Hni; by apply list_elem_of_fmap_2). by apply Hw.
  - destruct (Hw id Hni) as [Hn Hu]. rewrite Hn. eexists _, _. split; [done|].
    split; [done..| | |by rewrite tosses_share]; rewrite tosses_share; simpl.
    + intros seed Hseed. rewrite shares_share, decide_False, app_nil_r; [by apply Hi|].
      intros ->. apply Hni. by apply list_elem_of_fmap_2.
    + intros id' Hni'. rewrite shares_share, fmap_app. case_decide as He.
      * subst id'. by rewrite lookup_insert_eq, Hu.
      * rewrite lookup_insert_ne, app_nil_r by done. by apply Hw.
Qed.

(** A toss. *)
Lemma ct_run_inv_toss t d cs c seed r share :
  ct_run_inv t d cs c → BytesToUUID seed ∉ BytesToUUID <$> tosses cs →
  tossCoin G D Prove r (toss_of t d seed) = Ok share →
  returns (submit_all G D Verify (shares_of (BytesToUUID seed) cs) (toss_of t d seed)) →
  ∃ c' e, TossCoin G D Prove Verify HashToElement seed r c = Done (c', e) ∧ ct_run_inv t d (cs ++ [CTToss G D seed r]) c'.
Proof.
  intros [Hf Ht Hd Hi Hw Hs] Hni Htoss [ct Hsub]. destruct (Hw _ Hni) as [Hn Hu].
  unfold TossCoin. rewrite Ht, Hd. fold (toss_of t d seed). rewrite Htoss. unfold processUnordered. simpl. rewrite Hu.
  rewrite (loop_submit_all _ _ _ (toss_of t d seed)); simpl; [|by rewrite Hf; apply not_elem_of_empty|apply lookup_insert_eq].
  rewrite Hsub. simpl. eexists _, _. split; [done|]. split; simpl; [done..| | |]; rewrite ?tosses_toss.
  - intros seed' [Hseed' | ->%list_elem_of_singleton]%elem_of_app; rewrite shares_toss.
    + assert (BytesToUUID seed' ≠ BytesToUUID seed) by (intros He; apply Hni; rewrite <-He; by apply list_elem_of_fmap_2).
      rewrite !lookup_insert_ne by done. by apply Hi.
    + exists ct. by rewrite lookup_insert_eq.
  - intros id Hni'. rewrite fmap_app, elem_of_app in Hni'. simpl in Hni'. rewrite list_elem_of_singleton in Hni'.
    rewrite shares_toss.
    rewrite !lookup_insert_ne, lookup_delete_ne by naive_solver. apply Hw. naive_solver.
  - intros seed' [Hseed' | ->%list_elem_of_singleton]%elem_of_app.
    + destruct (Hs seed' Hseed') as (r' & share' & ? & ?). exists r', share'. split; [done|]. apply elem_of_app. by left.
    + exists r, share. split; [done|]. apply elem_of_app. right. by apply list_elem_of_singleton.
Qed.

(** ** The share a process broadcasts *)

Section dealt.
Context (ssize esize : nat) `{!GroupEncoding G ssize esize} `{!DleqComplete G D Prove Verify}.
Context (t : nat) (shares : list (Share G)) (dbase : Element G) `{!SharedSecret t shares}.

(** What [listenDeal] gives a process: its share and the commitments. *)
Record dealt (d : deal G) : Prop := {
  dealt_base : d_base G d = dbase;
  dealt_commits : d_commits G d = (λ s, shareToPoint s dbase) <$> shares;
  dealt_share : d_share G d ∈ shares;
}.

Lemma areScalarEquals_ok (a b : Scalar G) : ∃ ok, areScalarEquals G a b = Ok ok ∧ (ok = true ↔ a = b).
Proof.
  unfold areScalarEquals. destruct (enc_scalar a) as (ba & Hba & _ & Ha). destruct (enc_scalar b) as (bb & Hbb & _ & Hb).
  rewrite Hba, Hbb. eexists. split; [done|]. rewrite bool_decide_eq_true. split; intros ?; congruence.
Qed.

Lemma getCommit_dealt d s : dealt d → s ∈ shares → getCommit G (share_ID s) d = Ok (mulPoint dbase (share_Value s)).
Proof.
  intros [_ Hc _] Hs. unfold getCommit. rewrite Hc. clear Hc.
  pose proof (shared_ids (t := t) (shares := shares)) as Hnd. clear SharedSecret0.
  induction shares as [|s' l IH]; [by apply not_elem_of_nil in Hs|].
  simpl in *. inversion_clear Hnd as [|?? Hni Hnd'].
  destruct (areScalarEquals_ok (share_ID s') (share_ID s)) as ([] & -> & Heq); simpl.
  - apply elem_of_cons in Hs as [->|Hs]; [done|]. exfalso. apply Hni. rewrite (proj1 Heq eq_refl).
    apply in_map. by apply list_elem_of_In.
  - apply elem_of_cons in Hs as [->|Hs]; [|by apply IH]. by discriminate (proj2 Heq eq_refl).
Qed.

(** It can be made, and is valid at every process. *)
Lemma toss_dealt d r seed : dealt d → ∃ share,
  tossCoin G D Prove r (toss_of (Z.of_nat t) d seed) = Ok share ∧
  ∀ d', dealt d' → valid_share G D Verify (toss_of (Z.of_nat t) d' seed) share = true.
Proof.
  intros Hd. unfold tossCoin, genProof. simpl. rewrite (getCommit_dealt d (d_share G d) Hd (dealt_share d Hd)).
  simpl. rewrite (dealt_base d Hd).
  destruct (dleq_complete (share_Value (d_share G d)) (HashToElement seed) dbase r) as (p & Hp & Hv).
  unfold mulPoint. rewrite Hp. simpl. eexists. split; [done|]. intros d' Hd'.
  unfold valid_share, isTossValid. simpl. rewrite (getCommit_dealt d' _ Hd' (dealt_share d Hd)). simpl.
  by rewrite (dealt_base d' Hd').
Qed.

(** The commands of a channel end. *)
Lemma ct_run_reaches d :
  dealt d →
  (∀ cs seed, fair (Z.of_nat t) d cs → seed ∈ tosses cs →
     returns (submit_all G D Verify (shares_of (BytesToUUID seed) cs) (toss_of (Z.of_nat t) d seed))) →
  ∀ cs, fair (Z.of_nat t) d cs → ∃ c rs,
    exec_seq (ct_executor G D Prove Verify HashToElement) cs (initializeChannel G D (Z.of_nat t) d) = Done (c, rs) ∧
    ct_run_inv (Z.of_nat t) d cs c.
Proof.
  intros Hd Hret cs. induction cs as [|x cs IH] using rev_ind; intros Hfair.
  { eexists _, _. split; [done|]. apply ct_run_inv_start. }
  destruct (IH (fair_prefix _ _ _ _ Hfair)) as (c & rs & Hrun & Hinv). rewrite exec_seq_snoc, Hrun. simpl.
  destruct x as [seed r|id sender share]; simpl.
  - destruct (toss_dealt d r seed Hd) as (own & Hown & _).
    assert (Hin : seed ∈ tosses (cs ++ [CTToss G D seed r])) by (rewrite tosses_toss; apply elem_of_app; right; by left).
    pose proof (Hret _ seed Hfair Hin) as Hr. rewrite shares_toss in Hr.
    pose proof (fair_once _ _ _ Hfair) as Hnd. rewrite tosses_toss, fmap_app in Hnd.
    apply NoDup_app in Hnd as (_ & Hni & _).
    destruct (ct_run_inv_toss (Z.of_nat t) d cs c seed r own Hinv) as (c' & e & -> & Hinv'); [|done..|].
    + intros H. apply (Hni _ H). by left.
    + simpl. by eexists _, _.
  - destruct (ct_run_inv_share (Z.of_nat t) d cs c id sender share Hinv) as (c' & e & -> & Hinv').
    + eapply fair_once, fair_prefix, Hfair.
    + intros seed Hs. apply Hret; [done|]. by rewrite tosses_share.
    + simpl. by eexists _, _.
Qed.
End dealt.
End channel.

(** ** Theorem *)

(** C23: the coin of a seed is common.  For one deal and each seed there is a coin
    such that every channel, whatever the order of its tosses and of the shares
    it is sent, ends its commands and outputs for the seed that coin if more than
    [t] valid shares have reached it, before or after its toss, and nothing
    otherwise; and it broadcasts for the seed a share that is valid at every
    channel.  Each seed is tossed once, and no sender and no identifier of a share
    is counted twice. *)
Theorem coin_channel_agreement (G : CirclGroup) (D : DleqProof G) Prove
    (Verify : Element G → Element G → Element G → Element G → Proof D → bool) HashToElement
    ssize esize `{!GroupEncoding G ssize esize} `{!DleqSound G D Verify} `{!DleqComplete G D Prove Verify}
    (t : nat) (shares : list (Share G)) (dbase : Element G) `{!Generator dbase} `{!SharedSecret t shares} seed :
  Z.of_nat t + 1 < 2 ^ 63 →
  ∃ coin, ∀ (d : deal G) (cs : list (ct_command G D)),
    dealt G shares dbase d → fair G D Verify HashToElement (Z.of_nat t) d cs → seed ∈ tosses G D cs →
    let E := ct_executor G D Prove Verify HashToElement in
    ∃ c rs ct own, exec_seq E cs (initializeChannel G D (Z.of_nat t) d) = Done (c, rs) ∧
      ctc_instances G D c !! BytesToUUID seed = Some ct ∧
      sp_output G (ct_sp G ct) =
        (if decide (t < length (counted G D Verify HashToElement (Z.of_nat t) d seed cs))%nat then [coin] else []) ∧
      (BytesToUUID seed, own) ∈ ct_sent G D c ∧
      ∀ d', dealt G shares dbase d' → valid_share G D Verify (toss_of G HashToElement (Z.of_nat t) d' seed) own = true.
Proof.
  intros Ht.
  assert (Hcoin : ∀ seed, ∃ coin, ∀ d cs, dealt G shares dbase d → fair G D Verify HashToElement (Z.of_nat t) d cs →
    seed ∈ tosses G D cs → ∃ ct, submit_all G D Verify (shares_of G D (BytesToUUID seed) cs)
      (toss_of G HashToElement (Z.of_nat t) d seed) = Done ct ∧
    sp_output G (ct_sp G ct) =
      if decide (t < length (counted G D Verify HashToElement (Z.of_nat t) d seed cs))%nat then [coin] else []).
  { intros s. destruct (coin_agreement G D Verify ssize esize t shares dbase (HashToElement s) Ht) as [coin Hc].
    exists coin. intros d cs Hd Hfair Hs. apply (Hc d _ (dealt_base _ _ _ _ Hd) (dealt_commits _ _ _ _ Hd));
      [by eapply fair_senders|by eapply fair_ids]. }
  destruct (Hcoin seed) as [coin Hc]. exists coin. intros d cs Hd Hfair Hseed E.
  assert (Hret : ∀ cs s, fair G D Verify HashToElement (Z.of_nat t) d cs → s ∈ tosses G D cs →
    returns (submit_all G D Verify (shares_of G D (BytesToUUID s) cs) (toss_of G HashToElement (Z.of_nat t) d s))).
  { intros cs' s Hf Hs. destruct (Hcoin s) as [? H]. destruct (H d cs' Hd Hf Hs) as (ct & ? & _). by exists ct. }
  destruct (ct_run_reaches G D Prove Verify HashToElement ssize esize t shares dbase d Hd Hret cs Hfair) as (c & rs & Hrun & Hinv).
  destruct (cri_tossed _ _ _ _ _ _ _ _ _ Hinv seed Hseed) as (ct & Hct & Hsub).
  destruct (Hc d cs Hd Hfair Hseed) as (ct' & Hsub' & Hout). assert (ct' = ct) as -> by congruence.
  destruct (cri_sent _ _ _ _ _ _ _ _ _ Hinv seed Hseed) as (r & own & Hown & Hin).
  exists c, rs, ct, own. split_and!; [done..|].
  destruct (toss_dealt G D Prove Verify HashToElement ssize esize t shares dbase d r seed Hd) as (own' & Ho & Hv).
  by assert (own' = own) as <- by congruence.
Qed.

(** ** Two channels over the field with three elements *)

Module CoinChannelExample.
Import Gf3 Example4.

Definition f3_prove (k a ka b kb r : f3) : option unit := Some tt.
#[export] Instance gf3_complete : DleqComplete gf3 no_proof f3_prove f3_verify.
Proof. intros k a b r. exists tt. split; [done|]. by destruct k, a, b. Qed.

Definition f3_hash (seed : bytes) : f3 := F1.
Definition deal_of (s : Share gf3) : deal gf3 :=
  Deal gf3 F2 s [@shareToPoint gf3 s1 F2; @shareToPoint gf3 s2 F2].
Definition share_of (s : Share gf3) (sender : UUID) : ct_command gf3 no_proof :=
  CTSchedule gf3 no_proof (BytesToUUID []) sender (CtShare gf3 no_proof (@shareToPoint gf3 s F1) tt).
Definition bad_share (sender : UUID) : ct_command gf3 no_proof :=
  CTSchedule gf3 no_proof (BytesToUUID []) sender (CtShare gf3 no_proof (@PointShare gf3 F1 F1) tt).

(** One has the share of the other before its toss; the other tosses first, and
    is sent an invalid share and another seed in between. *)
Definition run1 : list (ct_command gf3 no_proof) := [share_of s2 p2; CTToss gf3 no_proof [] F0; share_of s1 p1].
Definition run2 : list (ct_command gf3 no_proof) :=
  [CTToss gf3 no_proof [] F1; bad_share p3; share_of s1 p1; CTToss gf3 no_proof ["a"%byte] F2; share_of s2 p2].

Lemma deal_dealt s : s = s1 ∨ s = s2 → dealt gf3 [s1; s2] F2 (deal_of s).
Proof. intros Hs. split; [done..|]. destruct Hs as [-> | ->]; [by left|by right; left]. Qed.

Definition fairb (d : deal gf3) (cs : list (ct_command gf3 no_proof)) : bool :=
  bool_decide (NoDup (BytesToUUID <$> tosses gf3 no_proof cs)) &&
  forallb (λ seed, let acc := counted gf3 no_proof f3_verify f3_hash 1 d seed cs in
      bool_decide (NoDup acc.*2) &&
      bool_decide (NoDup ((λ x, ps_id (ct_pt gf3 no_proof x.1)) <$> acc : list f3)))
    (tosses gf3 no_proof cs).

Lemma fairb_fair d cs : fairb d cs = true → fair gf3 no_proof f3_verify f3_hash 1 d cs.
Proof.
  intros [Ho%bool_decide_eq_true_1 Hall]%andb_true_iff. rewrite forallb_forall in Hall.
  split; [done|intros seed Hs..];
    apply list_elem_of_In, Hall, andb_true_iff in Hs as [H1%bool_decide_eq_true_1 H2%bool_decide_eq_true_1]; done.
Qed.

Lemma run_fair s run :
  (s, run) = (s1, run1) ∨ (s, run) = (s2, run2) → fair gf3 no_proof f3_verify f3_hash 1 (deal_of s) run.
Proof. intros [[= -> ->]|[= -> ->]]; apply fairb_fair; vm_compute; reflexivity. Qed.

Lemma run_counted s run :
  (s, run) = (s1, run1) ∨ (s, run) = (s2, run2) →
  length (counted gf3 no_proof f3_verify f3_hash 1 (deal_of s) [] run) = 2%nat.
Proof. intros [[= -> ->]|[= -> ->]]; vm_compute; reflexivity. Qed.
End CoinChannelExample.

Import Gf3 Example4 CoinChannelExample.

Lemma coin_channel_agreement_witness :
  ∃ coin, ∀ s run, (s, run) = (s1, run1) ∨ (s, run) = (s2, run2) →
    ∃ c rs ct, exec_seq (ct_executor gf3 no_proof f3_prove f3_verify f3_hash) run
      (initializeChannel gf3 no_proof 1 (deal_of s)) = Done (c, rs) ∧
      ctc_instances gf3 no_proof c !! BytesToUUID [] = Some ct ∧ sp_output gf3 (ct_sp gf3 ct) = [coin].
Proof.
  destruct (coin_channel_agreement gf3 no_proof f3_prove f3_verify f3_hash 1 1 1 [s1; s2] F2 [] eq_refl) as [coin H].
  exists coin. intros s run Hrun. pose proof (run_counted s run Hrun) as Hl.
  destruct (H (deal_of s) run) as (c & rs & ct & own & Hc & Hct & Hout & _).
  - apply deal_dealt. destruct Hrun as [[= -> _]|[= -> _]]; auto.
  - exact (run_fair s run Hrun).
  - destruct Hrun as [[= _ ->]|[= _ ->]]; by left.
  - exists c, rs, ct. split; [exact Hc|]. split; [exact Hct|]. rewrite Hout.
    change (Z.of_nat 1) with 1. by rewrite Hl.
Defined.
