(* ===== verification/Shuffle.v ===== *)
(** * The operations an unordered scheduler holds

    [reorderOps] and [execOp], which [schedulers.go] of the broadcast and
    [mmrScheduller.go] both have: a new operation goes to the end of the list and
    the whole list is shuffled; a tick starts the first operation.  [Shuffle] of
    [math/rand] is the exchange of each element, from the last, with one drawn
    among those up to it; the draws are an argument, and any of them give the
    same operations in another order. *)

From stdpp Require Import base tactics numbers list.
From S2P Require Import Prelude.

Section shuffle.
Context {A : Type}.
Implicit Types (l : list A) (draws : list nat).

Definition swap (i j : nat) l : list A :=
  match l !! i, l !! j with
  | Some x, Some y => <[i := y]> (<[j := x]> l)
  | _, _ => l
  end.

(** The loop of [Shuffle] from index [i] down; a draw is below [i + 1]. *)
Fixpoint shuffle_from (i : nat) draws l : list A :=
  match i with
  | O => l
  | S i' => shuffle_from i' (tail draws) (swap i (hd 0 draws mod S i) l)
  end.
Definition shuffle draws l : list A := shuffle_from (length l - 1) draws l.

Definition reorder draws (op : A) l : list A := shuffle draws (l ++ [op]).

(** The operation started and those left. *)
Definition pop l : option (A * list A) := match l with [] => None | op :: l => Some (op, l) end.

Definition transpose (i j k : nat) : nat := if decide (k = i) then j else if decide (k = j) then i else k.

Lemma swap_lookup i j k l x y :
  l !! i = Some x → l !! j = Some y → swap i j l !! k = l !! transpose i j k.
Proof.
  intros Hi Hj. unfold swap, transpose. rewrite Hi, Hj.
  pose proof (lookup_lt_Some _ _ _ Hi). pose proof (lookup_lt_Some _ _ _ Hj).
  destruct (decide (k = i)) as [->|Hki]; [rewrite list_lookup_insert_eq by (rewrite length_insert; lia); done|].
  rewrite list_lookup_insert_ne by done.
  destruct (decide (k = j)) as [->|Hkj]; [by rewrite list_lookup_insert_eq by lia|].
  by rewrite list_lookup_insert_ne.
Qed.

Lemma swap_Permutation i j l : swap i j l ≡ₚ l.
Proof.
  destruct (l !! i) as [x|] eqn:Hi; [|by unfold swap; rewrite Hi].
  destruct (l !! j) as [y|] eqn:Hj; [|by unfold swap; rewrite Hi, Hj].
  apply Permutation_inj. split; [unfold swap; by rewrite Hi, Hj, !length_insert|].
  exists (transpose i j). split; [|intros k; by eapply swap_lookup].
  intros k k'. unfold transpose. repeat case_decide; congruence.
Qed.

Lemma shuffle_Permutation draws l : shuffle draws l ≡ₚ l.
Proof.
  unfold shuffle. generalize (length l - 1) as i. intros i. revert draws l.
  induction i as [|i IH]; intros draws l; simpl; [done|]. by rewrite IH, swap_Permutation.
Qed.

Lemma reorder_Permutation draws op l : reorder draws op l ≡ₚ op :: l.
Proof. unfold reorder. rewrite shuffle_Permutation. by rewrite Permutation_app_comm. Qed.
End shuffle.
