(* ===== verification/BrbSchedulers.v ===== *)
(** * [schedulers.go]: instances of the broadcast in one process

    The schedulers connect instances without a network: what an instance puts on
    its channels is called on every instance, at once and in their order
    ([orderedScheduler]) or in an order that is drawn ([unorderedScheduler]).  The
    two differ in what becomes of an operation, which is the class
    [BrbScheduler].  Everything they do is a run of [BrbNetwork], and once they
    have nothing left to do, every instance has delivered. *)

From stdpp Require Import base tactics numbers list gmap functions relations.
From Stdlib Require Import Init.Byte.
From S2P Require Import Prelude Utils BrbInstance BrbSpec BrbNetwork Shuffle.

Local Open Scope Z_scope.

(** ** The schedulers *)

(** An operation: a call of the instance with that index. *)
Abbreviation brb_op := (nat * brb_input)%type.

(** A goroutine of [getChannels]: [None] while it waits for its message, then
    the message and the index of the next instance to call. *)
Abbreviation carrier := (option (bytes * nat)).

(** An instance with the goroutines of its two channels and the name under which
    they call the others. *)
Record sched_member := SchedMember {
  sm_sender : UUID;
  sm_instance : brbHandler;
  sm_echo : carrier;
  sm_ready : carrier;
}.

(** [bs_ops]: the list of the unordered scheduler.  [bs_started]: the goroutines
    of [execOp].  [bs_sendAll]: the loop of [sendAll], as a carrier.
    [bs_failed]: the errors that [assert.NoError] reports. *)
Record brb_scheduler := MkBrbScheduler {
  bs_instances : list sched_member;
  bs_ops : list brb_op;
  bs_started : list brb_op;
  bs_sendAll : option (UUID * bytes * nat);
  bs_failed : list brb_err;
}.

Definition newScheduler : brb_scheduler := MkBrbScheduler [] [] [] None [].

Definition set_bs_instances x (s : brb_scheduler) : brb_scheduler :=
  MkBrbScheduler x (bs_ops s) (bs_started s) (bs_sendAll s) (bs_failed s).
Definition set_bs_ops ops started (s : brb_scheduler) : brb_scheduler :=
  MkBrbScheduler (bs_instances s) ops started (bs_sendAll s) (bs_failed s).

Definition addInstance (m : sched_member) (s : brb_scheduler) : brb_scheduler :=
  set_bs_instances (bs_instances s ++ [m]) s.

(** One instance for each sender. *)
Definition instantiateCorrect (senders : list UUID) (n f : Z) (s : brb_scheduler) : brb_scheduler :=
  foldl (λ s sender, addInstance (SchedMember sender (newBrbHandler n f) None None) s) s senders.

(** An operation runs; a panic would end the process. *)
Definition run_op (op : brb_op) (s : brb_scheduler) : option brb_scheduler :=
  m ← bs_instances s !! op.1;
  match brbInstance_exec op.2 (sm_instance m) with
  | Done (h, err) =>
    Some (MkBrbScheduler
            (<[op.1 := SchedMember (sm_sender m) h (sm_echo m) (sm_ready m)]> (bs_instances s))
            (bs_ops s) (bs_started s) (bs_sendAll s)
            (bs_failed s ++ (if err is Some e then [e] else [])))
  | _ => None
  end.

(** What a scheduler does with an operation; [draws] are of [math/rand]. *)
Class BrbScheduler := brb_schedule : brb_op → list nat → brb_scheduler → option brb_scheduler.

Definition orderedScheduler : BrbScheduler := λ op _ s, run_op op s.

Definition reorderOps (op : brb_op) (draws : list nat) (s : brb_scheduler) : brb_scheduler :=
  set_bs_ops (reorder draws op (bs_ops s)) (bs_started s) s.

Definition unorderedScheduler : BrbScheduler := λ op draws s, Some (reorderOps op draws s).

(** The tick of the unordered scheduler; the goroutine it starts runs later. *)
Definition execOp (s : brb_scheduler) : option brb_scheduler :=
  '(op, ops) ← pop (bs_ops s); Some (set_bs_ops ops (bs_started s ++ [op]) s).

Definition set_carrier (echo : bool) (c : carrier) (m : sched_member) : sched_member :=
  if echo then SchedMember (sm_sender m) (sm_instance m) c (sm_ready m)
  else SchedMember (sm_sender m) (sm_instance m) (sm_echo m) c.
Definition get_carrier (echo : bool) (m : sched_member) : carrier :=
  if echo then sm_echo m else sm_ready m.

(** The goroutines of [getChannels].  The first receives the [x]-th value of the
    channel; then it hands over one call for each instance. *)
Definition carrier_receive (k : nat) (echo : bool) (x : nat) (s : brb_scheduler) : option brb_scheduler :=
  m ← bs_instances s !! k;
  if get_carrier echo m is Some _ then None else
  msg ← (if echo then echoed (sm_instance m) else readied (sm_instance m)) !! x;
  Some (set_bs_instances (<[k := set_carrier echo (Some (msg, 0%nat)) m]> (bs_instances s)) s).

Definition carrier_next `{BrbScheduler} (k : nat) (echo : bool) (draws : list nat) (s : brb_scheduler) :
    option brb_scheduler :=
  m ← bs_instances s !! k;
  '(msg, i) ← get_carrier echo m;
  if decide (i < length (bs_instances s))%nat then
    brb_schedule (i, if echo then IEcho msg (sm_sender m) else IReady msg (sm_sender m)) draws
      (set_bs_instances (<[k := set_carrier echo (Some (msg, S i)) m]> (bs_instances s)) s)
  else None.

(** [sendAll], called by the test with a fresh [sender]; one call for each
    instance. *)
Definition sendAll (msg : bytes) (sender : UUID) (s : brb_scheduler) : option brb_scheduler :=
  if bs_sendAll s is Some _ then None else
  Some (MkBrbScheduler (bs_instances s) (bs_ops s) (bs_started s) (Some (sender, msg, 0%nat)) (bs_failed s)).

Definition sendAll_next `{BrbScheduler} (draws : list nat) (s : brb_scheduler) : option brb_scheduler :=
  '(sender, msg, i) ← bs_sendAll s;
  if decide (i < length (bs_instances s))%nat then
    brb_schedule (i, ISend msg sender) draws
      (MkBrbScheduler (bs_instances s) (bs_ops s) (bs_started s) (Some (sender, msg, S i)) (bs_failed s))
  else None.

(** [E_call]: the test calls an instance that it got from [getInstances]. *)
Inductive brb_sched_event :=
| E_receive (k : nat) (echo : bool) (x : nat)
| E_next (k : nat) (echo : bool) (draws : list nat)
| E_sendAll (msg : bytes) (sender : UUID)
| E_sendNext (draws : list nat)
| E_tick
| E_run (x : nat)
| E_call (op : brb_op).

Definition brb_sched_exec `{BrbScheduler} (e : brb_sched_event) (s : brb_scheduler) : option brb_scheduler :=
  match e with
  | E_receive k echo x => carrier_receive k echo x s
  | E_next k echo draws => carrier_next k echo draws s
  | E_sendAll msg sender => sendAll msg sender s
  | E_sendNext draws => sendAll_next draws s
  | E_tick => execOp s
  | E_run x => op ← bs_started s !! x; run_op op (set_bs_ops (bs_ops s) (delete x (bs_started s)) s)
  | E_call op => run_op op s
  end.

Fixpoint brb_sched_run `{BrbScheduler} (evs : list brb_sched_event) (s : brb_scheduler) : option brb_scheduler :=
  match evs with
  | [] => Some s
  | e :: evs => s ← brb_sched_exec e s; brb_sched_run evs s
  end.

(** What both schedulers promise of an operation: it runs now, or joins those
    that wait; and they refuse none that can run. *)
Class BrbSchedulerLaws `(BrbScheduler) : Prop := {
  brb_scheduled op draws s s' : brb_schedule op draws s = Some s' →
    run_op op s = Some s' ∨ ∃ ops, ops ≡ₚ op :: bs_ops s ∧ s' = set_bs_ops ops (bs_started s) s;
  brb_schedules op draws s : is_Some (run_op op s) → is_Some (brb_schedule op draws s);
}.

#[export] Instance orderedScheduler_laws : BrbSchedulerLaws orderedScheduler.
Proof. split; [intros op draws s s' Hs; by left|done]. Qed.

#[export] Instance unorderedScheduler_laws : BrbSchedulerLaws unorderedScheduler.
Proof.
  split; [|intros op draws s _; by eexists]. intros op draws s s' [= <-]. right.
  exists (reorder draws op (bs_ops s)). split; [apply reorder_Permutation|done].
Qed.

(** ** Runs of the network *)

Section refinement.
Context `{Hsch : BrbScheduler} `{!BrbSchedulerLaws Hsch}.
Context (mb : membership UUID) `{!Resilient mb}.
Context (msgs : list bytes) (Hcf : collision_free msgs).
Context (sends : list (UUID * bytes)) (senders : list UUID).
Hypothesis Hnd : NoDup senders.
Hypothesis Hsenders : ∀ x, correct mb x ↔ x ∈ senders.

#[local] Abbreviation n := (mb_n mb).
#[local] Abbreviation f := (mb_f mb).

(** What the test may do: broadcasts among [sends], and calls in the name of
    faulty processes. *)
Definition brb_sched_ok (e : brb_sched_event) : Prop :=
  match e with
  | E_sendAll msg sender | E_call (_, ISend msg sender) => (sender, msg) ∈ sends ∧ send_echo sender msg ∈ msgs
  | E_call (_, IEcho msg sender) | E_call (_, IReady msg sender) => sender ∈ faulty mb ∧ msg ∈ msgs
  | _ => True
  end.

Definition carrier_input (echo : bool) (msg : bytes) (sender : UUID) : brb_input :=
  if echo then IEcho msg sender else IReady msg sender.

(** An operation handed over waits among [P], or has been executed. *)
Definition issued (P : list brb_op) (H : brb_config) (j : nat) (i : brb_input) : Prop :=
  (j, i) ∈ P ∨ ∃ x, senders !! j = Some x ∧ i ∈ H x.

Record sched_inv (P : list brb_op) (s : brb_scheduler) (H : brb_config) : Prop := {
  si_reachable : net_reachable mb msgs sends H;
  si_length : length (bs_instances s) = length senders;
  si_member k m : bs_instances s !! k = Some m →
    senders !! k = Some (sm_sender m) ∧ instance_of mb H (sm_sender m) = Done (sm_instance m);
  si_ops op : op ∈ P → in_network mb msgs sends H op.2 ∧ (op.1 < length senders)%nat;
  si_carrier k m echo msg i : bs_instances s !! k = Some m → get_carrier echo m = Some (msg, i) →
    in_network mb msgs sends H (carrier_input echo msg (sm_sender m)) ∧
    ∀ j, (j < i)%nat → issued P H j (carrier_input echo msg (sm_sender m));
  si_sendAll sender msg i : bs_sendAll s = Some (sender, msg, i) →
    in_network mb msgs sends H (ISend msg sender) ∧ ∀ j, (j < i)%nat → issued P H j (ISend msg sender);
}.

Definition waiting (s : brb_scheduler) : list brb_op := bs_ops s ++ bs_started s.

Lemma sched_inv_waiting P P' s s' H :
  sched_inv P s H → bs_instances s' = bs_instances s → bs_sendAll s' = bs_sendAll s →
  (∀ op, op ∈ P ↔ op ∈ P') → sched_inv P' s' H.
Proof.
  intros [] E1 E2 HP.
  assert (Hiss : ∀ j i, issued P H j i → issued P' H j i) by (intros j i [?%HP | ?]; [by left|by right]).
  split; rewrite ?E1, ?E2; try done.
  - intros op Hop%HP. auto.
  - intros k m echo msg i Hk Hc. destruct (si_carrier0 k m echo msg i Hk Hc). split; auto.
  - intros sender msg i Hc. destruct (si_sendAll0 sender msg i Hc). split; auto.
Qed.

Lemma in_network_grows H j i i0 h h' e :
  instance_of mb H j = Done h → brbInstance_exec i h = Done (h', e) →
  in_network mb msgs sends H i0 → in_network mb msgs sends (<[j := H j ++ [i]]> H) i0.
Proof.
  intros Hh Hex. destruct (sent_mono mb H j i h h' e Hh Hex) as [HE HR].
  destruct i0 as [c s|m s|m s]; simpl; naive_solver.
Qed.

Lemma issued_step P H j i op k i0 :
  senders !! op.1 = Some j → i = op.2 → issued (op :: P) H k i0 → issued P (<[j := H j ++ [i]]> H) k i0.
Proof.
  intros Hop -> [[<- | Hin]%elem_of_cons | (x & Hx & Hin)].
  - right. exists j. split; [done|]. rewrite fn_lookup_insert. set_solver.
  - by left.
  - right. exists x. split; [done|]. destruct (decide (j = x)) as [<-|].
    + rewrite fn_lookup_insert. set_solver.
    + by rewrite fn_lookup_insert_ne.
Qed.

(** An operation that can arrive runs, as a delivery of the network. *)
Lemma run_op_inv P op s H :
  sched_inv (op :: P) s H →
  ∃ s' H', run_op op s = Some s' ∧ sched_inv P s' H' ∧ bs_ops s' = bs_ops s ∧ bs_started s' = bs_started s.
Proof.
  intros Hi. destruct op as [k i]. destruct (si_ops _ _ _ Hi (k, i)) as [Hnet Hop]; [by left|]. simpl in *.
  destruct (lookup_lt_is_Some_2 (bs_instances s) k) as [m Hk]; [by rewrite (si_length _ _ _ Hi)|].
  destruct (si_member _ _ _ Hi k m Hk) as [Hs Hh].
  assert (Hc : correct mb (sm_sender m)) by (apply Hsenders; by eapply list_elem_of_lookup_2).
  pose proof (reachable_inv mb msgs Hcf sends H (si_reachable _ _ _ Hi)) as Hinv.
  destruct (deliver_returns mb msgs Hcf sends H _ i Hinv Hc Hnet) as (h & h' & e & Hh' & Hex).
  assert (h = sm_instance m) as -> by congruence.
  unfold run_op. simpl. rewrite Hk. simpl. rewrite Hex. do 2 eexists. split; [done|].
  split; [|done]. split; simpl.
  - eapply rtc_r; [apply Hi|]. by apply (net_deliver mb msgs sends H (sm_sender m) i).
  - rewrite length_insert. apply Hi.
  - intros k' m' [(<- & <- & _) | [Hne Hk']]%list_lookup_insert_Some; simpl.
    + split; [done|]. by eapply instance_of_upd.
    + destruct (si_member _ _ _ Hi k' m' Hk') as [Hs' Hm']. split; [done|].
      rewrite instance_of_ne; [done|]. intros Heq. rewrite <-Heq in Hs'.
      by apply Hne, (NoDup_lookup senders k k' (sm_sender m)).
  - intros op Hin. destruct (si_ops _ _ _ Hi op) as [Hn Hlt]; [by right|]. split; [|done].
    by eapply in_network_grows.
  - intros k' m' echo msg j Hk' Hg.
    assert (∃ m0, bs_instances s !! k' = Some m0 ∧ get_carrier echo m0 = Some (msg, j) ∧ sm_sender m0 = sm_sender m')
      as (m0 & Hm0 & Hg0 & <-).
    { apply list_lookup_insert_Some in Hk' as [(<- & <- & _) | [_ Hk']]; [exists m|by exists m'].
      split; [done|]. by destruct echo. }
    destruct (si_carrier _ _ _ Hi k' m0 echo msg j Hm0 Hg0) as [Hn Hiss].
    split; [by eapply in_network_grows|]. intros j' Hj'. by eapply (issued_step _ _ _ _ (k, i)), Hiss.
  - intros sender msg j Hsa. destruct (si_sendAll _ _ _ Hi sender msg j Hsa) as [Hn Hiss].
    split; [exact Hn|]. intros j' Hj'. by eapply (issued_step _ _ _ _ (k, i)), Hiss.
Qed.

(** Handing over an operation, whatever the scheduler. *)
Lemma brb_schedule_inv op draws s s' H :
  sched_inv (op :: waiting s) s H → brb_schedule op draws s = Some s' →
  ∃ H', sched_inv (waiting s') s' H'.
Proof.
  intros Hi [Hr | (ops & Hp & ->)]%brb_scheduled.
  - destruct (run_op_inv _ _ _ _ Hi) as (s1 & H' & Hr' & Hi' & E1 & E2).
    assert (s1 = s') as -> by congruence. exists H'. unfold waiting in *. by rewrite E1, E2.
  - exists H. eapply sched_inv_waiting; [done..|]. intros o. unfold waiting. simpl.
    rewrite Hp, elem_of_cons, !elem_of_app, elem_of_cons. tauto.
Qed.

Lemma sched_inv_grow op s H :
  sched_inv (waiting s) s H → in_network mb msgs sends H op.2 → (op.1 < length (bs_instances s))%nat →
  sched_inv (op :: waiting s) s H.
Proof.
  intros [] Hn Hlt. rewrite si_length0 in Hlt. assert (Hiss : ∀ j i, issued (waiting s) H j i → issued (op :: waiting s) H j i)
    by (intros j i [? | ?]; [left; by right|by right]).
  split; try done.
  - intros o [-> | Ho]%elem_of_cons; [done|auto].
  - intros k m echo msg i Hk Hc. destruct (si_carrier0 k m echo msg i Hk Hc). split; auto.
  - intros sender msg i Hc. destruct (si_sendAll0 sender msg i Hc). split; auto.
Qed.

(** A carrier that moves on. *)
Lemma carrier_moves P s H k echo m c :
  sched_inv P s H → bs_instances s !! k = Some m →
  (∀ msg i, c = Some (msg, i) → in_network mb msgs sends H (carrier_input echo msg (sm_sender m)) ∧
     ∀ j, (j < i)%nat → issued P H j (carrier_input echo msg (sm_sender m))) →
  sched_inv P (set_bs_instances (<[k := set_carrier echo c m]> (bs_instances s)) s) H.
Proof.
  intros [] Hk Hc. split; simpl; try done.
  - by rewrite length_insert.
  - intros k' m' [(<- & <- & _) | [_ Hk']]%list_lookup_insert_Some; [|by apply si_member0].
    destruct (si_member0 k m Hk). by destruct echo.
  - intros k' m' echo' msg i [(<- & <- & _) | [_ Hk']]%list_lookup_insert_Some Hg; [|by eapply si_carrier0].
    assert (Hsm : sm_sender (set_carrier echo c m) = sm_sender m) by by destruct echo.
    rewrite Hsm. destruct (decide (echo' = echo)) as [->|Hne].
    + apply Hc. by destruct echo.
    + apply (si_carrier0 k m); [done|]. by destruct echo, echo'.
Qed.

Lemma carrier_receive_inv k echo x s s' H :
  sched_inv (waiting s) s H → carrier_receive k echo x s = Some s' → sched_inv (waiting s') s' H.
Proof.
  intros Hi. unfold carrier_receive. intros (m & Hk & Hr)%bind_Some.
  destruct (get_carrier echo m); [done|]. apply bind_Some in Hr as (msg & Hm & [= <-]).
  apply list_elem_of_lookup_2 in Hm. destruct (si_member _ _ _ Hi k m Hk) as [Hs Hh].
  assert (Hc : correct mb (sm_sender m)) by (apply Hsenders; by eapply list_elem_of_lookup_2).
  pose proof (reachable_inv mb msgs Hcf sends H (si_reachable _ _ _ Hi)) as Hinv.
  apply (carrier_moves (waiting s)); [done|done|]. intros msg' i [= <- <-]. split; [|lia].
  destruct echo; simpl; (split; [apply Hc|]).
  - assert (HE : Echoes mb H (sm_sender m) msg) by (by exists (sm_instance m)).
    split; [by eapply ni_echo|by right].
  - assert (HR : Readies mb H (sm_sender m) msg) by (by exists (sm_instance m)).
    split; [by eapply ni_ready|by right].
Qed.

Lemma carrier_next_inv k echo draws s s' H :
  sched_inv (waiting s) s H → carrier_next k echo draws s = Some s' → ∃ H', sched_inv (waiting s') s' H'.
Proof.
  intros Hi. unfold carrier_next. intros (m & Hk & Hr)%bind_Some.
  apply bind_Some in Hr as ([msg i] & Hg & Hr). case_decide as Hlt; [|done].
  destruct (si_carrier _ _ _ Hi k m echo msg i Hk Hg) as [Hn Hiss].
  refine (brb_schedule_inv _ _ _ _ H _ Hr).
  apply (carrier_moves ((i, carrier_input echo msg (sm_sender m)) :: waiting s)); [by apply sched_inv_grow|done|].
  intros msg' i' [= <- <-]. split; [done|]. intros j Hj.
  destruct (decide (j = i)) as [->|]; [left; by left|].
  destruct (Hiss j) as [Hw | Hw]; [lia|left; by right|by right].
Qed.

Lemma sendAll_set P s H sender msg i :
  sched_inv P s H → in_network mb msgs sends H (ISend msg sender) →
  (∀ j, (j < i)%nat → issued P H j (ISend msg sender)) →
  sched_inv P (MkBrbScheduler (bs_instances s) (bs_ops s) (bs_started s) (Some (sender, msg, i)) (bs_failed s)) H.
Proof. intros [] Hn Hiss. split; simpl; try done. by intros ??? [= <- <- <-]. Qed.

Lemma sendAll_next_inv draws s s' H :
  sched_inv (waiting s) s H → sendAll_next draws s = Some s' → ∃ H', sched_inv (waiting s') s' H'.
Proof.
  intros Hi. unfold sendAll_next. intros ([[sender msg] i] & Hg & Hr)%bind_Some.
  case_decide as Hlt; [|done]. destruct (si_sendAll _ _ _ Hi sender msg i Hg) as [Hn Hiss].
  refine (brb_schedule_inv _ _ _ _ H _ Hr).
  apply (sendAll_set ((i, ISend msg sender) :: waiting s)); [by apply sched_inv_grow|done|]. intros j Hj.
  destruct (decide (j = i)) as [->|]; [left; by left|].
  destruct (Hiss j) as [Hw | Hw]; [lia|left; by right|by right].
Qed.

Lemma sched_step_inv e s s' H :
  sched_inv (waiting s) s H → brb_sched_ok e → brb_sched_exec e s = Some s' →
  ∃ H', sched_inv (waiting s') s' H'.
Proof.
  intros Hi Hok. destruct e as [k echo x|k echo draws|msg sender|draws| |x|op]; simpl.
  - intros Hr. exists H. by eapply carrier_receive_inv.
  - intros Hr. exact (carrier_next_inv _ _ _ _ _ H Hi Hr).
  - unfold sendAll. destruct (bs_sendAll s); [done|]. intros [= <-]. exists H.
    apply (sendAll_set (waiting s)); [done|done|lia].
  - intros Hr. exact (sendAll_next_inv _ _ _ H Hi Hr).
  - unfold execOp. intros ([op ops] & Hp & [= <-])%bind_Some. exists H.
    eapply sched_inv_waiting; [done..|]. intros o. unfold waiting. simpl.
    destruct (bs_ops s) as [|op' ops'] eqn:E; simplify_eq/=. set_solver.
  - intros (op & Hx & Hr)%bind_Some. set (s1 := set_bs_ops _ _ _) in Hr.
    assert (Hi1 : sched_inv (op :: waiting s1) s1 H).
    { eapply sched_inv_waiting; [exact Hi|done|done|]. intros o. unfold waiting. simpl.
      rewrite (delete_Permutation _ _ _ Hx) at 1. set_solver. }
    destruct (run_op_inv _ op s1 H Hi1) as (s2 & H' & Hr' & Hi' & E1 & E2).
    assert (s2 = s') as -> by congruence. exists H'. unfold waiting in *. by rewrite E1, E2.
  - intros Hr. assert (Hi1 : sched_inv (op :: waiting s) s H).
    { apply sched_inv_grow; [done| |unfold run_op in Hr; apply bind_Some in Hr as (m & Hm & _); by eapply lookup_lt_Some].
      destruct op as [k [c sd|m sd|m sd]]; simpl in *; [done|..].
      - destruct Hok. split_and!; [by apply (rs_faulty (m := mb))|done|by left].
      - destruct Hok. split_and!; [by apply (rs_faulty (m := mb))|done|by left]. }
    destruct (run_op_inv _ op s H Hi1) as (s2 & H' & Hr' & Hi' & E1 & E2).
    assert (s2 = s') as -> by congruence. exists H'. unfold waiting in *. by rewrite E1, E2.
Qed.

Lemma instantiate_instances l s :
  bs_instances (instantiateCorrect l n f s) =
  bs_instances s ++ ((λ sender, SchedMember sender (newBrbHandler n f) None None) <$> l) ∧
  bs_ops (instantiateCorrect l n f s) = bs_ops s ∧ bs_started (instantiateCorrect l n f s) = bs_started s ∧
  bs_sendAll (instantiateCorrect l n f s) = bs_sendAll s.
Proof.
  unfold instantiateCorrect. revert s. induction l as [|x l IH]; intros s; simpl; [by rewrite app_nil_r|].
  destruct (IH (addInstance (SchedMember x (newBrbHandler n f) None None) s)) as (-> & -> & -> & ->).
  simpl. by rewrite <-app_assoc.
Qed.

Lemma sched_inv_init :
  let s := instantiateCorrect senders n f newScheduler in sched_inv (waiting s) s net_init.
Proof.
  simpl. destruct (instantiate_instances senders newScheduler) as (E1 & E2 & E3 & E4).
  unfold waiting. rewrite E2, E3. simpl in *. split; rewrite ?E1, ?E4; simpl.
  - constructor.
  - by rewrite length_fmap.
  - intros k m (x & -> & Hx)%list_lookup_fmap_Some. by split.
  - by intros op ?%not_elem_of_nil.
  - intros k m [] msg i (x & -> & _)%list_lookup_fmap_Some; done.
  - done.
Qed.

Lemma sched_run_inv evs s :
  brb_sched_run evs (instantiateCorrect senders n f newScheduler) = Some s → Forall brb_sched_ok evs →
  ∃ H, sched_inv (waiting s) s H.
Proof.
  cut (∀ s0 H, sched_inv (waiting s0) s0 H → brb_sched_run evs s0 = Some s → Forall brb_sched_ok evs →
    ∃ H, sched_inv (waiting s) s H); [intros Hc; apply (Hc _ net_init), sched_inv_init|].
  induction evs as [|e evs IH]; intros s0 H Hi; simpl; [intros [= <-] _; by exists H|].
  intros (s1 & Hs & Hr)%bind_Some Hok. inversion_clear Hok.
  destruct (sched_step_inv e s0 s1 H Hi) as [H' Hi']; [done..|]. by eapply IH.
Qed.

(** ** Nothing left to do *)

Definition internal (e : brb_sched_event) : Prop := match e with E_sendAll _ _ | E_call _ => False | _ => True end.
Definition sched_rest (s : brb_scheduler) : Prop := ∀ e, internal e → brb_sched_exec e s = None.

Lemma rest_waiting s H : sched_inv (waiting s) s H → sched_rest s → waiting s = [].
Proof.
  intros Hi Hr. unfold waiting in *. destruct (bs_ops s) as [|op ops] eqn:Eo.
  2: { specialize (Hr E_tick Logic.I). simpl in Hr. unfold execOp in Hr. by rewrite Eo in Hr. }
  destruct (bs_started s) as [|op ops] eqn:Es; [done|].
  specialize (Hr (E_run 0) Logic.I). simpl in Hr. rewrite Es, Eo in Hr. simpl in Hr.
  destruct (run_op_inv ops op (set_bs_ops [] ops s) H) as (s' & H' & Hr' & _); [|congruence].
  by eapply sched_inv_waiting.
Qed.

Lemma rest_scheduled op s H :
  sched_inv (op :: waiting s) s H → is_Some (brb_schedule op [] s).
Proof.
  intros Hi. destruct (run_op_inv _ op s H Hi) as (s' & H' & Hr' & _).
  apply brb_schedules. by eexists.
Qed.

Lemma rest_sendAll s H sender msg i :
  sched_inv (waiting s) s H → sched_rest s → bs_sendAll s = Some (sender, msg, i) →
  ∀ x, correct mb x → ISend msg sender ∈ H x.
Proof.
  intros Hi Hr Hs x [j Hj]%Hsenders%list_elem_of_lookup.
  destruct (si_sendAll _ _ _ Hi sender msg i Hs) as [Hn Hiss].
  assert (Hle : (length senders ≤ i)%nat).
  { destruct (decide (i < length (bs_instances s))%nat) as [Hlt|]; [|rewrite <-(si_length _ _ _ Hi); lia]. exfalso.
    specialize (Hr (E_sendNext []) Logic.I). simpl in Hr. unfold sendAll_next in Hr. rewrite Hs in Hr. simpl in Hr.
    rewrite decide_True in Hr by done. set (s1 := MkBrbScheduler _ _ _ _ _) in Hr.
    destruct (rest_scheduled (i, ISend msg sender) s1 H) as [s' Hs']; [|congruence].
    apply (sendAll_set ((i, ISend msg sender) :: waiting s)); [by apply sched_inv_grow|done|]. intros j' Hj'.
    destruct (decide (j' = i)) as [->|]; [left; by left|].
    destruct (Hiss j') as [Hw | Hw]; [lia|left; by right|by right]. }
  apply lookup_lt_Some in Hj as Hlt.
  destruct (Hiss j) as [Hw | (x' & Hx' & Hin)]; [lia| |by simplify_eq].
  rewrite (rest_waiting s H) in Hw by done. by apply not_elem_of_nil in Hw.
Qed.

(** What an instance has put on its channel has reached every instance. *)
Lemma rest_carrier s H k m (echo : bool) msg :
  sched_inv (waiting s) s H → sched_rest s → bs_instances s !! k = Some m →
  msg ∈ (if echo then echoed (sm_instance m) else readied (sm_instance m)) →
  ∀ y, correct mb y → carrier_input echo msg (sm_sender m) ∈ H y.
Proof.
  intros Hi Hr Hk Hm y [j Hj]%Hsenders%list_elem_of_lookup.
  destruct (get_carrier echo m) as [[msg' i]|] eqn:Hg.
  2: { apply list_elem_of_lookup in Hm as [x Hx]. specialize (Hr (E_receive k echo x) Logic.I).
       simpl in Hr. unfold carrier_receive in Hr. rewrite Hk in Hr. simpl in Hr. rewrite Hg, Hx in Hr. done. }
  destruct (si_carrier _ _ _ Hi k m echo msg' i Hk Hg) as [Hn Hiss].
  assert (Hle : (length senders ≤ i)%nat).
  { destruct (decide (i < length (bs_instances s))%nat) as [Hlt|]; [|rewrite <-(si_length _ _ _ Hi); lia]. exfalso.
    specialize (Hr (E_next k echo []) Logic.I). simpl in Hr. unfold carrier_next in Hr. rewrite Hk in Hr. simpl in Hr.
    rewrite Hg in Hr. simpl in Hr. rewrite decide_True in Hr by done.
    set (s1 := set_bs_instances _ _) in Hr.
    destruct (rest_scheduled (i, carrier_input echo msg' (sm_sender m)) s1 H) as [s' Hs'];
      [|unfold carrier_input in *; congruence].
    apply (carrier_moves ((i, carrier_input echo msg' (sm_sender m)) :: waiting s)); [by apply sched_inv_grow|done|].
    intros msg1 i1 [= <- <-]. split; [done|]. intros j' Hj'.
    destruct (decide (j' = i)) as [->|]; [left; by left|].
    destruct (Hiss j') as [Hw | Hw]; [lia|left; by right|by right]. }
  assert (msg' = msg) as ->.
  { destruct (si_member _ _ _ Hi k m Hk) as [Hs Hh].
    assert (Hc : correct mb (sm_sender m)) by (apply Hsenders; by eapply list_elem_of_lookup_2).
    pose proof (reachable_inv mb msgs Hcf sends H (si_reachable _ _ _ Hi)) as Hinv.
    destruct Hc as [Hp Hf]. destruct echo; simpl in Hn; destruct Hn as (_ & _ & [? | Hn]); try done.
    - apply (echo_unique mb msgs sends H (sm_sender m)); [done|done|by exists (sm_instance m)].
    - apply (ready_unique mb msgs sends H (sm_sender m) (sm_sender m)); try done. by exists (sm_instance m). }
  apply lookup_lt_Some in Hj as Hlt.
  destruct (Hiss j) as [Hw | (x' & Hx' & Hin)]; [lia| |by simplify_eq].
  rewrite (rest_waiting s H) in Hw by done. by apply not_elem_of_nil in Hw.
Qed.

Lemma rest_delivers s H sender msg i :
  sched_inv (waiting s) s H → sched_rest s → bs_sendAll s = Some (sender, msg, i) → sends = [(sender, msg)] →
  ∀ m, m ∈ bs_instances s → MkBRBMsg msg sender ∈ delivered (sm_instance m).
Proof.
  intros Hi Hr Hs Hsends m [k Hk]%list_elem_of_lookup.
  pose proof (reachable_inv mb msgs Hcf sends H (si_reachable _ _ _ Hi)) as Hinv.
  assert (Hsent : ∀ x h (echo : bool) y msg', correct mb x → correct mb y → instance_of mb H x = Done h →
    msg' ∈ (if echo then echoed h else readied h) → carrier_input echo msg' x ∈ H y).
  { intros x h echo y msg' [kx Hx]%Hsenders%list_elem_of_lookup Hy Hh Hm.
    destruct (lookup_lt_is_Some_2 (bs_instances s) kx) as [mx Hmx].
    { rewrite (si_length _ _ _ Hi). by eapply lookup_lt_Some. }
    destruct (si_member _ _ _ Hi kx mx Hmx) as [Hsx Hhx].
    assert (x = sm_sender mx) as -> by congruence. assert (h = sm_instance mx) as -> by congruence.
    by eapply rest_carrier. }
  assert (Hq : net_quiescent mb msgs sends H).
  { intros [c x|c x|c x] y Hx Hy Hn; simpl in Hx, Hn.
    - rewrite Hsends in Hn. destruct Hn as [[= -> ->]%list_elem_of_singleton _]. by eapply rest_sendAll.
    - destruct Hx as [? ?], Hn as (_ & _ & [? | (h & Hh & Hm)]); [done|].
      by apply (Hsent x h true y c).
    - destruct Hx as [? ?], Hn as (_ & _ & [? | (h & Hh & Hm)]); [done|].
      by apply (Hsent x h false y c). }
  destruct (si_member _ _ _ Hi k m Hk) as [Hsm Hhm].
  assert (Hc : correct mb (sm_sender m)) by (apply Hsenders; by eapply list_elem_of_lookup_2).
  destruct (quiescent_sent_delivered mb msgs Hcf sends H Hinv Hq sender msg) with (sm_sender m) as (h & Hh & Ho);
    [by eapply rest_sendAll|done|done|]. congruence.
Qed.
End refinement.

(** The test harness runs the network.  Whatever the two schedulers of the
    tests do with the calls between the instances, and whatever order they draw,
    the instances are in the states of a run of the network, so the properties of
    the broadcast hold of them. *)
Theorem brb_scheduler_refines `{BrbSchedulerLaws} (mb : membership UUID) `{!Resilient mb} msgs sends senders evs s :
  collision_free msgs → NoDup senders → (∀ x, correct mb x ↔ x ∈ senders) →
  Forall (brb_sched_ok mb msgs sends) evs →
  brb_sched_run evs (instantiateCorrect senders (mb_n mb) (mb_f mb) newScheduler) = Some s →
  ∃ C, net_reachable mb msgs sends C ∧
    ∀ k m, bs_instances s !! k = Some m →
      senders !! k = Some (sm_sender m) ∧ instance_of mb C (sm_sender m) = Done (sm_instance m).
Proof.
  intros Hcf Hnd Hs Hok Hr. destruct (sched_run_inv mb msgs Hcf sends senders Hnd Hs evs s Hr Hok) as [C Hi].
  exists C. split; [apply Hi|]. apply Hi.
Qed.

(** The tests of the broadcast succeed.  After one [sendAll], when nothing is
    left to do, every instance has delivered the message, with either scheduler,
    any draws and whatever calls the test makes for the faulty processes. *)
Theorem brb_scheduler_delivers `{BrbSchedulerLaws} (mb : membership UUID) `{!Resilient mb} msgs sender msg senders evs s i :
  collision_free msgs → NoDup senders → (∀ x, correct mb x ↔ x ∈ senders) →
  Forall (brb_sched_ok mb msgs [(sender, msg)]) evs →
  brb_sched_run evs (instantiateCorrect senders (mb_n mb) (mb_f mb) newScheduler) = Some s →
  sched_rest s → bs_sendAll s = Some (sender, msg, i) →
  ∀ m, m ∈ bs_instances s → MkBRBMsg msg sender ∈ delivered (sm_instance m).
Proof.
  intros Hcf Hnd Hs Hok Hr Hrest Hsend.
  destruct (sched_run_inv mb msgs Hcf [(sender, msg)] senders Hnd Hs evs s Hr Hok) as [C Hi].
  by eapply rest_delivers.
Qed.

(** ** Three instances, a faulty process that has sent junk, both schedulers *)

Module SchedExample.
Import Example4.

Section drive.
Context `{Hsch : BrbScheduler}.

Definition carrier_rests (size : nat) (echo : bool) (m : sched_member) : bool :=
  match get_carrier echo m with
  | Some (_, i) => (size <=? i)%nat
  | None => bool_decide ((if echo then echoed (sm_instance m) else readied (sm_instance m)) = [])
  end.

Definition rest_check (s : brb_scheduler) : bool :=
  let size := length (bs_instances s) in
  bool_decide (bs_ops s = []) && bool_decide (bs_started s = []) &&
  (if bs_sendAll s is Some (_, _, i) then (size <=? i)%nat else true) &&
  forallb (λ m, carrier_rests size true m && carrier_rests size false m) (bs_instances s).

Lemma rest_check_sound s : rest_check s = true → sched_rest s.
Proof.
  unfold rest_check. rewrite !andb_true_iff, !bool_decide_eq_true, forallb_forall.
  intros [[[Ho Hs] Ha] Hm] e He.
  assert (Hc : ∀ k echo m, bs_instances s !! k = Some m → carrier_rests (length (bs_instances s)) echo m = true).
  { intros k echo m Hk%list_elem_of_lookup_2%list_elem_of_In%Hm%andb_true_iff. by destruct echo, Hk. }
  destruct e as [k echo x|k echo draws|msg sender|draws| |x|op]; try done; simpl.
  - unfold carrier_receive. destruct (bs_instances s !! k) as [m|] eqn:Hk; [|done]. simpl.
    specialize (Hc k echo m Hk). unfold carrier_rests in Hc. destruct (get_carrier echo m); [done|].
    apply bool_decide_eq_true in Hc. by rewrite Hc.
  - unfold carrier_next. destruct (bs_instances s !! k) as [m|] eqn:Hk; [|done]. simpl.
    specialize (Hc k echo m Hk). unfold carrier_rests in Hc. destruct (get_carrier echo m) as [[msg i]|]; [|done].
    apply Nat.leb_le in Hc. simpl. by rewrite decide_False by lia.
  - unfold sendAll_next. destruct (bs_sendAll s) as [[[sender msg] i]|]; [|done].
    apply Nat.leb_le in Ha. simpl. by rewrite decide_False by lia.
  - unfold execOp. by rewrite Ho.
  - by rewrite Hs.
Qed.

(** The first event that is possible; the draws come from the step number. *)
Definition candidates (fuel : nat) (s : brb_scheduler) : list brb_sched_event :=
  E_sendNext [fuel; 2 * fuel]%nat ::
  (k ← seq 0 (length (bs_instances s)); echo ← [true; false];
   [E_receive k echo 0; E_next k echo [fuel; fuel + 3; fuel]%nat]) ++ [E_tick; E_run 0].

Fixpoint drive (fuel : nat) (s : brb_scheduler) : list brb_sched_event :=
  match fuel with
  | O => []
  | S fuel =>
    match list_find (λ e, is_Some (brb_sched_exec e s)) (candidates fuel s) with
    | Some (_, e) => e :: drive fuel (default s (brb_sched_exec e s))
    | None => []
    end
  end.

Lemma drive_internal fuel s : Forall internal (drive fuel s).
Proof.
  revert s. induction fuel as [|fuel IH]; intros s; [constructor|]. cbn [drive].
  destruct (list_find _ _) as [[x e]|] eqn:Hf; [|constructor]. constructor; [|apply IH].
  apply list_find_Some in Hf as (He%list_elem_of_lookup_2 & _ & _). unfold candidates in He.
  rewrite elem_of_cons, elem_of_app, list_elem_of_bind in He. destruct He as [-> | [(k & He & _) | He]]; [done| |set_solver].
  apply list_elem_of_bind in He as (echo & He & _). set_solver.
Qed.
End drive.

Definition outside : UUID := uuid_of_byte "015".
Definition hello : bytes := ["104"; "101"; "108"; "108"; "111"]%byte.
Definition bye : bytes := ["098"; "121"; "101"]%byte.
Definition sched_msgs : list bytes := [send_echo outside hello; bye].
Definition sched_senders : list UUID := [p1; p2; p3].
Definition sched_start : brb_scheduler := instantiateCorrect sched_senders 4 1 newScheduler.

(** The test first calls the instances in the name of [p4]. *)
Definition junk : list brb_sched_event :=
  k ← [0; 1; 2]%nat; [E_call (k, IReady bye p4); E_call (k, IEcho bye p4)].

Definition sched_events `{BrbScheduler} : list brb_sched_event :=
  let evs := junk ++ [E_sendAll hello outside] in
  evs ++ drive 100 (default sched_start (brb_sched_run evs sched_start)).
Definition sched_end `{BrbScheduler} : brb_scheduler :=
  default sched_start (brb_sched_run sched_events sched_start).

Lemma sched_hash_ne : BytesToUUID (send_echo outside hello) ≠ BytesToUUID bye.
Proof. apply (bool_decide_eq_false_1 _). vm_compute. reflexivity. Qed.

Lemma sched_collision_free : collision_free sched_msgs.
Proof.
  pose proof sched_hash_ne as Hne.
  intros a b [-> | ->%list_elem_of_singleton]%elem_of_cons [-> | ->%list_elem_of_singleton]%elem_of_cons Heq;
    [reflexivity|by destruct Hne|by destruct Hne|reflexivity].
Qed.

Lemma sched_nodup : NoDup sched_senders.
Proof. apply (bool_decide_unpack _). vm_compute. exact Logic.I. Qed.

Lemma sched_correct x : correct mb4 x ↔ x ∈ sched_senders.
Proof.
  unfold correct, sched_senders, mb4. simpl. split; [set_solver|]. intros Hx. split; [set_solver|].
  rewrite not_elem_of_singleton. intros ->. revert Hx. apply (bool_decide_unpack _). vm_compute. exact Logic.I.
Qed.

Lemma sched_events_ok `{BrbScheduler} : Forall (brb_sched_ok mb4 sched_msgs [(outside, hello)]) sched_events.
Proof.
  unfold sched_events. rewrite Forall_app. split.
  - apply Forall_app. split.
    + apply Forall_forall. intros e (k & He & _)%list_elem_of_bind.
      apply elem_of_cons in He as [-> | ->%list_elem_of_singleton]; (split; [by apply elem_of_singleton|by right; left]).
    + apply Forall_singleton. split; by left.
  - eapply Forall_impl; [apply drive_internal|]. by intros [].
Qed.

Definition sched_ran `{BrbScheduler} : bool := if brb_sched_run sched_events sched_start is Some _ then true else false.

Lemma sched_end_eq `{BrbScheduler} : sched_ran = true → brb_sched_run sched_events sched_start = Some sched_end.
Proof. unfold sched_ran, sched_end. by destruct (brb_sched_run sched_events sched_start). Qed.
End SchedExample.
Import Example4 SchedExample.

Lemma brb_scheduler_refines_witness :
  ∃ C, net_reachable mb4 sched_msgs [(outside, hello)] C ∧
    ∀ k m, bs_instances (sched_end (H := unorderedScheduler)) !! k = Some m →
      sched_senders !! k = Some (sm_sender m) ∧ instance_of mb4 C (sm_sender m) = Done (sm_instance m).
Proof.
  apply (brb_scheduler_refines (H := unorderedScheduler) mb4 sched_msgs [(outside, hello)] sched_senders
           (sched_events (H := unorderedScheduler))).
  - exact sched_collision_free.
  - exact sched_nodup.
  - exact sched_correct.
  - exact (sched_events_ok (H := unorderedScheduler)).
  - apply (sched_end_eq (H := unorderedScheduler)). vm_compute. reflexivity.
Defined.

(** Each instance holds one delivery, the message of [sendAll]. *)
Lemma brb_scheduler_delivers_witness :
  length (bs_instances (sched_end (H := orderedScheduler))) = 3%nat ∧
  ∀ m, m ∈ bs_instances (sched_end (H := orderedScheduler)) →
    MkBRBMsg hello outside ∈ delivered (sm_instance m).
Proof.
  split; [vm_compute; reflexivity|].
  apply (brb_scheduler_delivers (H := orderedScheduler) mb4 sched_msgs outside hello sched_senders
           (sched_events (H := orderedScheduler)) (sched_end (H := orderedScheduler)) 3).
  - exact sched_collision_free.
  - exact sched_nodup.
  - exact sched_correct.
  - exact (sched_events_ok (H := orderedScheduler)).
  - apply (sched_end_eq (H := orderedScheduler)). vm_compute. reflexivity.
  - apply rest_check_sound. vm_compute. reflexivity.
  - vm_compute. reflexivity.
Defined.
