(* ===== verification/RoundSchedulers.v ===== *)
(** * [roundSchedullers.go]: one round among instances in one process

    [orderedRoundScheduler] connects instances of [mmrRound].  What an instance
    broadcasts becomes one closure for each instance, which a goroutine of the
    scheduler ([invoker]) runs.  A goroutine receives one value from its channel
    and ends: a second echo of an instance stays in its channel.

    Everything the scheduler does is a run of the network of the crusader
    agreement its rounds hold, so the transitions of the rounds agree. *)

From stdpp Require Import base tactics numbers list fin_sets gmap functions relations.
From S2P Require Import Prelude Utils Bca BcaNet Ivbca IvbcaCorrect Evbca EvbcaCorrect Round Termination Mmr AbaNetwork.

Local Open Scope Z_scope.

(** ** The state *)

(** A goroutine of [addRound] once it has its value: the value and the index of
    the next round to call. *)
Abbreviation round_carrier := (option (Z * nat)).

Record round_member := RoundMember {
  rm_sender : UUID;
  rm_round : mmrRound;
  rm_carriers : bca_kind → round_carrier;
}.

(** [os_open]: [invoker] runs; [os_signals]: what [closeChan] holds.
    [os_failed]: the errors that [assert.NoError] reports.  [os_results]: what
    [submitCoin] returned to the test, with the coin. *)
Record orderedRoundScheduler := MkOrderedRoundScheduler {
  os_rounds : list round_member;
  os_open : bool;
  os_signals : nat;
  os_failed : list bca_err;
  os_results : list (nat * Z * roundTransitionResult);
}.

Definition newOrderedScheduler : orderedRoundScheduler := MkOrderedRoundScheduler [] true 0 [] [].

Definition set_os_rounds x (s : orderedRoundScheduler) : orderedRoundScheduler :=
  MkOrderedRoundScheduler x (os_open s) (os_signals s) (os_failed s) (os_results s).
Definition put_round_member (k : nat) (m : round_member) (s : orderedRoundScheduler) : orderedRoundScheduler :=
  set_os_rounds (<[k := m]> (os_rounds s)) s.
Definition set_rm_round (r : mmrRound) (m : round_member) : round_member := RoundMember (rm_sender m) r (rm_carriers m).

Definition addRound (sender : UUID) (r : mmrRound) (s : orderedRoundScheduler) : orderedRoundScheduler :=
  set_os_rounds (os_rounds s ++ [RoundMember sender r (λ _, None)]) s.

(** ** Operations *)

Definition log_failed (err : option bca_err) (s : orderedRoundScheduler) : orderedRoundScheduler :=
  MkOrderedRoundScheduler (os_rounds s) (os_open s) (os_signals s)
    (os_failed s ++ (if err is Some e then [e] else [])) (os_results s).

(** A call of [submitEcho], [submitVote] or [submitBind] of round [t]. *)
Definition round_submit (t : nat) (kind : bca_kind) (v : Z) (sender : UUID) (s : orderedRoundScheduler) :
    option orderedRoundScheduler :=
  m ← os_rounds s !! t;
  '(r, err) ← done_opt (round_call (λ T _ b, bca_submit kind v sender b) (rm_round m));
  Some (log_failed err (put_round_member t (set_rm_round r m) s)).

(** [processEchoes], [processVotes], [processBinds]: the receive, then the
    closures one by one; the [invoker] runs a closure when it receives it. *)
Definition process_receive (k : nat) (kind : bca_kind) (s : orderedRoundScheduler) : option orderedRoundScheduler :=
  m ← os_rounds s !! k;
  match rm_carriers m kind with
  | Some _ => None
  | None =>
    '(r, v) ← round_try (λ T _ b, '(v, b) ← bca_take (kind_chan kind) b; Some (b, v)) (rm_round m);
    Some (put_round_member k (RoundMember (rm_sender m) r (<[kind := Some (v, 0%nat)]> (rm_carriers m))) s)
  end.

Definition process_next (k : nat) (kind : bca_kind) (s : orderedRoundScheduler) : option orderedRoundScheduler :=
  m ← os_rounds s !! k;
  '(v, i) ← rm_carriers m kind;
  if os_open s && bool_decide (i < length (os_rounds s))%nat then
    round_submit i kind v (rm_sender m)
      (put_round_member k (RoundMember (rm_sender m) (rm_round m) (<[kind := Some (v, S i)]> (rm_carriers m))) s)
  else None.

(** [close]: [closeChan] has room for one. *)
Definition os_close (s : orderedRoundScheduler) : option orderedRoundScheduler :=
  match os_signals s with
  | O => Some (MkOrderedRoundScheduler (os_rounds s) (os_open s) 1 (os_failed s) (os_results s))
  | _ => None
  end.

Definition os_end (s : orderedRoundScheduler) : option orderedRoundScheduler :=
  match os_open s, os_signals s with
  | true, S n => Some (MkOrderedRoundScheduler (os_rounds s) false n (os_failed s) (os_results s))
  | _, _ => None
  end.

(** What the test does itself: proposals, coins, and calls in the name of other
    processes. *)
Definition test_propose (k : nat) (est prevCoin : Z) (s : orderedRoundScheduler) : option orderedRoundScheduler :=
  m ← os_rounds s !! k;
  '(r, err) ← done_opt (round_call (λ T _ b, bca_propose est prevCoin b) (rm_round m));
  Some (log_failed err (put_round_member k (set_rm_round r m) s)).

Definition test_submitCoin (k : nat) (coin : Z) (s : orderedRoundScheduler) : option orderedRoundScheduler :=
  m ← os_rounds s !! k;
  '(r, res) ← done_opt (round_submitCoin coin (rm_round m));
  let s := put_round_member k (set_rm_round r m) s in
  Some (MkOrderedRoundScheduler (os_rounds s) (os_open s) (os_signals s) (os_failed s)
          (os_results s ++ (if res is Ok t then [(k, coin, t)] else []))).

(** ** Runs *)

Inductive round_sched_event :=
| R_go (k : nat) (g : bca_go) (br : bca_chan)
| R_exec (k : nat)
| R_receive (k : nat) (kind : bca_kind)
| R_next (k : nat) (kind : bca_kind)
| R_close
| R_end
| R_propose (k : nat) (est prevCoin : Z)
| R_coin (k : nat) (coin : Z)
| R_call (t : nat) (kind : bca_kind) (v : Z) (sender : UUID).

Definition round_sched_exec (e : round_sched_event) (s : orderedRoundScheduler) : option orderedRoundScheduler :=
  match e with
  | R_go k g br =>
    m ← os_rounds s !! k;
    '(r, _) ← round_try (λ T _ b, b ← bca_step g br b; Some (b, tt)) (rm_round m);
    Some (put_round_member k (set_rm_round r m) s)
  | R_exec k =>
    m ← os_rounds s !! k; '(r, _) ← execRound (rm_round m); Some (put_round_member k (set_rm_round r m) s)
  | R_receive k kind => process_receive k kind s
  | R_next k kind => process_next k kind s
  | R_close => os_close s
  | R_end => os_end s
  | R_propose k est prevCoin => test_propose k est prevCoin s
  | R_coin k coin => test_submitCoin k coin s
  | R_call t kind v sender => round_submit t kind v sender s
  end.

Fixpoint round_sched_run (evs : list round_sched_event) (s : orderedRoundScheduler) : option orderedRoundScheduler :=
  match evs with
  | [] => Some s
  | e :: evs => s ← round_sched_exec e s; round_sched_run evs s
  end.

(** ** Runs of the network *)

Section refinement.
Context {T : Set} `{!BCA T, !RoundKind T} (mb : membership UUID).
Context (inputs : UUID → Z * Z → Prop) (senders : list UUID).
Hypothesis Hnd : NoDup senders.
Hypothesis Hsenders : ∀ x, bca_correct mb x ↔ x ∈ senders.
Hypothesis Hfaulty : faulty mb ⊆ peers mb.

Definition round_sched_ok (e : round_sched_event) : Prop :=
  match e with
  | R_propose k est prevCoin => ∀ x, senders !! k = Some x → inputs x (est, prevCoin)
  | R_call _ _ _ sender => sender ∈ faulty mb
  | _ => True
  end.

(** The decision a round has taken. *)
Definition taken_decision (r : mmrRound) : option Z :=
  match rd_pc r with X_req d | X_coin d => Some d | _ => None end.

Record member_rel (nd : bca_node T) (m : round_member) : Prop := {
  me_state : rd_bca (rm_round m) = rk_inj (nd_st nd);
  me_carrier kind v i : rm_carriers m kind = Some (v, i) → v ∈ nd_taken nd (kind_chan kind);
  me_decision d : taken_decision (rm_round m) = Some d → d ∈ nd_taken nd COut;
}.

Record round_rel (s : orderedRoundScheduler) (C : bca_config T) : Prop := {
  ro_reachable : bca_reachable mb inputs C;
  ro_member k m : os_rounds s !! k = Some m → senders !! k = Some (rm_sender m) ∧ member_rel (C (rm_sender m)) m;
  ro_results k c t : (k, c, t) ∈ os_results s → ∃ x d, senders !! k = Some x ∧ Decides C x d ∧ t = transition d c;
}.

Lemma bca_exec_grows e (nd nd' : bca_node T) c v : bca_exec e nd = Some nd' → v ∈ nd_taken nd c → v ∈ nd_taken nd' c.
Proof.
  destruct e as [est p|x|k x s|g br|c']; simpl; intros Hex Hv.
  - apply bind_Some in Hex as ([st err] & _ & [= <-]). done.
  - apply bind_Some in Hex as (st & _ & [= <-]). done.
  - apply bind_Some in Hex as ([st err] & _ & [= <-]). done.
  - apply bind_Some in Hex as (st & _ & [= <-]). done.
  - apply bind_Some in Hex as ([x st] & _ & [= <-]). simpl. destruct (decide (c' = c)) as [->|].
    + rewrite fn_lookup_insert. apply elem_of_app. by left.
    + by rewrite fn_lookup_insert_ne.
Qed.

(** A round makes a step of its process. *)
Lemma round_rel_step s C k m e nd' m' :
  round_rel s C → os_rounds s !! k = Some m →
  bca_event_ok mb inputs C (rm_sender m) e → bca_exec e (C (rm_sender m)) = Some nd' →
  rm_sender m' = rm_sender m → member_rel nd' m' →
  round_rel (put_round_member k m' s) (<[rm_sender m := nd']> C).
Proof.
  intros [Hr Hm Hrs] Hk Hok Hex Hs Hrel. destruct (Hm k m Hk) as [Hsk _].
  assert (Hg : ∀ x c v, v ∈ nd_taken (C x) c → v ∈ nd_taken ((<[rm_sender m := nd']> C) x) c).
  { intros x c v Hv. destruct (decide (rm_sender m = x)) as [<-|]; [rewrite fn_lookup_insert|by rewrite fn_lookup_insert_ne].
    by eapply bca_exec_grows. }
  split.
  - eapply rtc_r; [exact Hr|]. econstructor; [apply Hsenders; by eapply list_elem_of_lookup_2|done..].
  - intros k' m1 [(<- & <- & _) | [Hne Hk']]%list_lookup_insert_Some; [by rewrite Hs, fn_lookup_insert|].
    destruct (Hm k' m1 Hk') as [Hs' Hrel']. rewrite fn_lookup_insert_ne; [done|].
    intros Heq. rewrite <-Heq in Hs'. by apply Hne, (NoDup_lookup senders k k' (rm_sender m)).
  - intros k' c t Hin. destruct (Hrs k' c t Hin) as (x & d & Hx & Hd & Ht). exists x, d. split; [done|].
    split; [by apply Hg|done].
Qed.

(** A step of a round alone. *)
Lemma round_rel_own s C k m m' :
  round_rel s C → os_rounds s !! k = Some m → rm_sender m' = rm_sender m → member_rel (C (rm_sender m)) m' →
  round_rel (put_round_member k m' s) C.
Proof.
  intros [Hr Hm Hrs] Hk Hs Hrel. split; [done| |done].
  intros k' m1 [(<- & <- & _) | [_ Hk']]%list_lookup_insert_Some; [|by apply Hm].
  rewrite Hs. split; [by apply Hm|done].
Qed.

Lemma taken_decision_call {X} (op : ∀ T, BCA T → T → outcome (T * X)) rd rd' x :
  round_call op rd = Done (rd', x) → taken_decision rd' = taken_decision rd.
Proof. intros ([= Hpc _ _] & _)%(round_call_spec (T := T)). unfold taken_decision. by rewrite Hpc. Qed.

Lemma taken_decision_try {X} (op : ∀ T, BCA T → T → option (T * X)) rd rd' x :
  round_try op rd = Some (rd', x) → taken_decision rd' = taken_decision rd.
Proof. intros ([= Hpc _ _] & _)%(round_try_spec (T := T)). unfold taken_decision. by rewrite Hpc. Qed.

Lemma round_submit_rel t kind v sender s s' C :
  round_rel s C → (sender ∈ faulty mb ∨ bca_correct mb sender ∧ v ∈ nd_taken (C sender) (kind_chan kind)) →
  round_submit t kind v sender s = Some s' → ∃ C', round_rel s' C'.
Proof.
  intros Hro Hsnd. unfold round_submit. intros (m & Hm & ([r err] & Hc & [= <-])%bind_Some)%bind_Some.
  apply done_opt_inv in Hc. destruct (ro_member _ _ Hro t m Hm) as [Hsk Hrel].
  destruct (round_call_spec (T := T) _ _ _ _ Hc) as (_ & _ & Hst).
  destruct (Hst _ (me_state _ _ Hrel)) as (t' & Hop & Hb).
  eassert (Hstep : round_rel (put_round_member t (set_rm_round r m) s) (<[rm_sender m := _]> C)).
  { apply (round_rel_step s C t m (EvMsg kind v sender)); [done|done| | |done|].
    - simpl. destruct Hsnd as [Hf | [[? ?] ?]]; [split; [by apply Hfaulty|by left]|split; [done|by right]].
    - simpl. rewrite Hop. simpl. reflexivity.
    - destruct Hrel as [_ Hcar Hdec]. split; simpl; [done|done|]. intros d. rewrite (taken_decision_call _ _ _ _ Hc). apply Hdec. }
  eexists. destruct Hstep as [H1 H2 H3]. by split.
Qed.

Lemma process_receive_rel k kind s s' C : round_rel s C → process_receive k kind s = Some s' → ∃ C', round_rel s' C'.
Proof.
  intros Hro. unfold process_receive. intros (m & Hm & Hc)%bind_Some. destruct (rm_carriers m kind) eqn:Hcar; [done|].
  apply bind_Some in Hc as ([r v] & Hc & [= <-]). destruct (ro_member _ _ Hro k m Hm) as [Hsk Hrel].
  destruct (round_try_spec (T := T) _ _ _ _ Hc) as (_ & _ & Hst).
  destruct (Hst _ (me_state _ _ Hrel)) as (t' & Hop & Hb). apply bind_Some in Hop as ([v1 t1] & Hop & [= -> ->]).
  eexists. apply (round_rel_step s C k m (EvTake (kind_chan kind))); [done|done|done| |done|].
  - simpl. rewrite Hop. simpl. reflexivity.
  - destruct Hrel as [_ Hca Hdec]. split; simpl; [done| |].
    + intros kind' v' i. destruct (decide (kind = kind')) as [<-|Hne].
      * rewrite !fn_lookup_insert. intros [= <- _]. apply elem_of_app. right. by left.
      * rewrite fn_lookup_insert_ne by done. rewrite fn_lookup_insert_ne by (by destruct kind, kind'). apply Hca.
    + intros d. rewrite (taken_decision_try _ _ _ _ Hc). intros Hd%Hdec.
      by rewrite fn_lookup_insert_ne by (by destruct kind).
Qed.

Lemma process_next_rel k kind s s' C : round_rel s C → process_next k kind s = Some s' → ∃ C', round_rel s' C'.
Proof.
  intros Hro. unfold process_next. intros (m & Hm & ([v i] & Hcar & Hc)%bind_Some)%bind_Some.
  destruct (os_open s && _); [|done]. destruct (ro_member _ _ Hro k m Hm) as [Hsk Hrel].
  eapply round_submit_rel, Hc.
  - eapply round_rel_own; [done|done|done|]. destruct Hrel as [Hst Hca Hdec]. split; simpl; [done| |done].
    intros kind' v' i'. destruct (decide (kind = kind')) as [<-|Hne].
    + rewrite fn_lookup_insert. intros [= <- _]. by eapply Hca.
    + rewrite fn_lookup_insert_ne by done. apply Hca.
  - right. split; [apply Hsenders; by eapply list_elem_of_lookup_2|by eapply Hrel].
Qed.

Lemma test_propose_rel k est c s s' C :
  round_rel s C → (∀ x, senders !! k = Some x → inputs x (est, c)) → test_propose k est c s = Some s' →
  ∃ C', round_rel s' C'.
Proof.
  intros Hro Hin. unfold test_propose. intros (m & Hm & ([r err] & Hc & [= <-])%bind_Some)%bind_Some.
  apply done_opt_inv in Hc. destruct (ro_member _ _ Hro k m Hm) as [Hsk Hrel].
  destruct (round_call_spec (T := T) _ _ _ _ Hc) as (_ & _ & Hst).
  destruct (Hst _ (me_state _ _ Hrel)) as (t' & Hop & Hb).
  eassert (Hstep : round_rel (put_round_member k (set_rm_round r m) s) (<[rm_sender m := _]> C)).
  { apply (round_rel_step s C k m (EvPropose est c)); [done|done|by apply Hin| |done|].
    - simpl. rewrite Hop. simpl. reflexivity.
    - destruct Hrel as [_ Hcar Hdec]. split; simpl; [done|done|]. intros d. rewrite (taken_decision_call _ _ _ _ Hc). apply Hdec. }
  eexists. destruct Hstep as [H1 H2 H3]. by split.
Qed.

Lemma go_rel k g br m r s C :
  round_rel s C → os_rounds s !! k = Some m →
  round_try (λ T _ b, b ← bca_step g br b; Some (b, tt)) (rm_round m) = Some (r, tt) →
  ∃ C', round_rel (put_round_member k (set_rm_round r m) s) C'.
Proof.
  intros Hro Hm Hc. destruct (ro_member _ _ Hro k m Hm) as [Hsk Hrel].
  destruct (round_try_spec (T := T) _ _ _ _ Hc) as (_ & _ & Hst).
  destruct (Hst _ (me_state _ _ Hrel)) as (t' & Hop & Hb). apply bind_Some in Hop as (t1 & Hop & [= ->]).
  eexists. apply (round_rel_step s C k m (EvGo g br)); [done|done|done| |done|].
  - simpl. rewrite Hop. simpl. reflexivity.
  - destruct Hrel as [_ Hcar Hdec]. split; simpl; [done|done|]. intros d. rewrite (taken_decision_try _ _ _ _ Hc). apply Hdec.
Qed.

Lemma exec_rel k m r dec s C :
  round_rel s C → os_rounds s !! k = Some m → execRound (rm_round m) = Some (r, dec) →
  ∃ C', round_rel (put_round_member k (set_rm_round r m) s) C'.
Proof.
  intros Hro Hm Hc. destruct (ro_member _ _ Hro k m Hm) as [Hsk Hrel].
  destruct (execRound_bca _ _ _ _ Hc (me_state _ _ Hrel)) as [[-> Hb] | (d & t' & -> & Htake & Hb)].
  - exists C. apply (round_rel_own s C k m); [done|done|done|]. destruct Hrel as [_ Hcar Hdec]. split; simpl; [done|done|].
    intros d Hd. apply Hdec. revert Hd Hc. unfold taken_decision, execRound.
    destruct (rd_pc (rm_round m)) as [|d0|d0|t|]; [| | | |done].
    + intros _ ([b d1] & _ & [=])%bind_Some.
    + destruct (coinReqChan (rm_round m)); [|done]. intros Hd [= <-]. done.
    + destruct (coinReceiveChan (rm_round m)); [done|]. intros Hd [= <-]. done.
    + destruct (internalTransition (rm_round m)); [|done]. intros Hd [= <-]. done.
  - eexists. apply (round_rel_step s C k m (EvTake COut)); [done|done|done| |done|].
    + simpl. rewrite Htake. simpl. reflexivity.
    + destruct Hrel as [_ Hcar Hdec]. split; simpl; [done| |].
      * intros kind v i Hk. rewrite fn_lookup_insert_ne by (by destruct kind). by eapply Hcar.
      * intros d' Hd. rewrite fn_lookup_insert. apply elem_of_app. right. revert Hd Hc. unfold taken_decision, execRound.
        destruct (rd_pc (rm_round m)).
        -- intros Hd ([b d1] & _ & [= <- ->])%bind_Some. simpl in Hd. injection Hd as ->. by left.
        -- by destruct (coinReqChan (rm_round m)).
        -- by destruct (coinReceiveChan (rm_round m)).
        -- by destruct (internalTransition (rm_round m)).
        -- done.
Qed.

Lemma test_submitCoin_rel k c s s' C : round_rel s C → test_submitCoin k c s = Some s' → round_rel s' C.
Proof.
  intros Hro. unfold test_submitCoin. intros (m & Hm & ([r res] & Hc & [= <-])%bind_Some)%bind_Some.
  apply done_opt_inv in Hc. destruct (ro_member _ _ Hro k m Hm) as [Hsk Hrel].
  assert (Hown : member_rel (C (rm_sender m)) (set_rm_round r m)).
  { destruct (round_submitCoin_inv _ _ _ _ Hc) as [[-> _] | (dec & _ & _ & _ & Hb & Hpc & _)].
    - destruct Hrel. by split.
    - destruct Hrel as [Hst Hcar Hdec]. split; simpl; [by rewrite Hb|done|]. intros d. unfold taken_decision. by rewrite Hpc. }
  destruct (round_rel_own s C k m (set_rm_round r m) Hro Hm eq_refl Hown) as [H1 H2 H3]. split; [done|done|].
  intros k' c' t [? | Hin]%elem_of_app; [by apply H3|].
  destruct (round_submitCoin_inv _ _ _ _ Hc) as [[_ [e ->]] | (dec & Hpc & _ & _ & _ & _ & _ & _ & ->)];
    [by apply not_elem_of_nil in Hin|].
  apply list_elem_of_singleton in Hin as [= -> -> ->]. exists (rm_sender m), dec. split; [done|]. split; [|done].
  apply (me_decision _ _ Hrel). unfold taken_decision. by rewrite Hpc.
Qed.

Lemma round_sched_step e s s' C : round_rel s C → round_sched_ok e → round_sched_exec e s = Some s' → ∃ C', round_rel s' C'.
Proof.
  intros Hro Hok. destruct e as [k g br|k|k kind|k kind| | |k est c|k c|t kind v x]; simpl.
  - intros (m & Hm & ([r []] & Hc & [= <-])%bind_Some)%bind_Some. by eapply go_rel.
  - intros (m & Hm & ([r dec] & Hc & [= <-])%bind_Some)%bind_Some. by eapply exec_rel.
  - by apply (process_receive_rel k kind s s' C).
  - by apply (process_next_rel k kind s s' C).
  - unfold os_close. destruct (os_signals s); [|done]. intros [= <-]. exists C. destruct Hro. by split.
  - unfold os_end. destruct (os_open s), (os_signals s); try done. intros [= <-]. exists C. destruct Hro. by split.
  - by apply (test_propose_rel k est c s s' C).
  - intros Hc. exists C. by eapply (test_submitCoin_rel k c s).
  - apply (round_submit_rel t kind v x s s' C); [done|by left].
Qed.

Lemma round_sched_run_rel evs s s' C :
  round_rel s C → Forall round_sched_ok evs → round_sched_run evs s = Some s' → ∃ C', round_rel s' C'.
Proof.
  revert s C. induction evs as [|e evs IH]; intros s C Hro Hok; simpl; [intros [= <-]; by exists C|].
  apply Forall_cons in Hok as [He Hok]. intros (s1 & H1 & Hr)%bind_Some.
  destruct (round_sched_step e s s1 C Hro He H1) as (C1 & HC1). by apply (IH s1 C1 HC1 Hok Hr).
Qed.

(** The test adds a round for each sender. *)
Definition add_rounds (r : mmrRound) : orderedRoundScheduler :=
  foldl (λ s x, addRound x r s) newOrderedScheduler senders.

Lemma add_rounds_rel r : rd_bca r = rk_inj (bca_new (mb_n mb) (mb_f mb)) → rd_pc r = X_dec →
  round_rel (add_rounds r) (bca_net_init mb).
Proof.
  intros Hr Hpc.
  assert (Heq : add_rounds r = MkOrderedRoundScheduler ((λ x, RoundMember x r (λ _, None)) <$> senders) true 0 [] []).
  { clear Hnd Hsenders. unfold add_rounds. induction senders as [|x l IH] using rev_ind; [done|].
    rewrite foldl_app, IH, fmap_app. done. }
  rewrite Heq. split; simpl.
  - apply rtc_refl.
  - intros k m (x & -> & Hx)%list_lookup_fmap_Some. simpl. split; [done|]. split; simpl; [done|done|].
    unfold taken_decision. simpl. by rewrite Hpc.
  - intros k c t Hin. by apply not_elem_of_nil in Hin.
Qed.
End refinement.

(** ** A run of three rounds *)

Module RoundSchedExample.
Import Example4.

Fixpoint round_possible (l : list round_sched_event) (s : orderedRoundScheduler) : list round_sched_event :=
  match l with
  | [] => []
  | e :: l => match round_sched_exec e s with Some s => e :: round_possible l s | None => round_possible l s end
  end.

Definition round_chans : list bca_chan := [CApprove; CVote; CBindBot; CBindVal; CBind; CTermBot; CTermVal; COut].

Definition round_sweep : list round_sched_event :=
  k ← seq 0 3;
  (g ← [GoVote; GoBind; GoDecide]; c ← round_chans; [R_go k g c]) ++
  (kind ← [KEcho; KVote; KBind]; R_receive k kind :: replicate 3 (R_next k kind)) ++ [R_exec k; R_exec k].

Definition round_senders : list UUID := [p1; p2; p3].
Definition rounds_start : orderedRoundScheduler := add_rounds round_senders (newFirstRound 4 1).

(** All propose 1, [p4] echoes 0; the coins are 1, 1 and 0. *)
Definition rounds_events : list round_sched_event :=
  round_possible ([R_propose 0 1 bot; R_propose 1 1 bot; R_propose 2 1 bot; R_call 0 KEcho 0 p4] ++
    (n ← seq 0 6; round_sweep) ++ [R_coin 0 1; R_coin 1 1; R_coin 2 0; R_close; R_end]) rounds_start.
Definition rounds_end : orderedRoundScheduler := default rounds_start (round_sched_run rounds_events rounds_start).

Definition rounds_ran : bool := if round_sched_run rounds_events rounds_start is Some _ then true else false.
End RoundSchedExample.
Import Example4 RoundSchedExample.

Lemma round_nodup : NoDup round_senders.
Proof. apply (bool_decide_unpack _). vm_compute. exact Logic.I. Qed.

Lemma round_correct x : bca_correct mb4 x ↔ x ∈ round_senders.
Proof.
  unfold bca_correct, round_senders, mb4. simpl. split; [set_solver|]. intros Hx. split; [set_solver|].
  rewrite not_elem_of_singleton. intros ->. revert Hx. apply (bool_decide_unpack _). vm_compute. exact Logic.I.
Qed.

Lemma rounds_events_ok : Forall (round_sched_ok mb4 (λ _ p, p = (1, bot)) round_senders) rounds_events.
Proof.
  assert (Hp : ∀ l s, Forall (round_sched_ok mb4 (λ _ p, p = (1, bot)) round_senders) l →
    Forall (round_sched_ok mb4 (λ _ p, p = (1, bot)) round_senders) (round_possible l s)).
  { induction l as [|e l IH]; intros s Hl; [constructor|]. apply Forall_cons in Hl as [He Hl]. simpl.
    destruct (round_sched_exec e s); [constructor; [done|]|]; by apply IH. }
  apply Hp. assert (p4 ∈ faulty mb4) by (simpl; by apply elem_of_singleton).
  repeat apply Forall_app_2; repeat (apply Forall_cons; split; [done|]); constructor.
Qed.

Lemma rounds_end_eq : round_sched_run rounds_events rounds_start = Some rounds_end.
Proof.
  assert (Hr : rounds_ran = true) by (vm_compute; reflexivity). unfold rounds_ran in Hr. unfold rounds_end.
  by destruct (round_sched_run rounds_events rounds_start).
Qed.

Lemma rounds_results :
  (0%nat, 1, RoundTransitionResult 1 true) ∈ os_results rounds_end ∧
  (2%nat, 0, RoundTransitionResult 1 false) ∈ os_results rounds_end.
Proof.
  assert (Heq : os_results rounds_end =
    [(0%nat, 1, RoundTransitionResult 1 true); (1%nat, 1, RoundTransitionResult 1 true); (2%nat, 0, RoundTransitionResult 1 false)])
    by (vm_compute; reflexivity).
  rewrite Heq. split; [left|right; right; left].
Qed.

(** ** Theorems *)

(** The scheduler runs the network of crusader agreement: the agreement of each
    round is in the state of its process, and each transition [submitCoin]
    returned is made of a decision of the process and the coin. *)
Theorem round_scheduler_refines {T : Set} `{!BCA T, !RoundKind T} (mb : membership UUID) `{!Resilient mb}
    inputs senders r evs s :
  NoDup senders → (∀ x, bca_correct mb x ↔ x ∈ senders) →
  rd_bca r = rk_inj (bca_new (mb_n mb) (mb_f mb)) → rd_pc r = X_dec →
  Forall (round_sched_ok mb inputs senders) evs → round_sched_run evs (add_rounds senders r) = Some s →
  ∃ C : bca_config T, bca_reachable mb inputs C ∧
    (∀ k m, os_rounds s !! k = Some m →
       senders !! k = Some (rm_sender m) ∧ rd_bca (rm_round m) = rk_inj (nd_st (C (rm_sender m)))) ∧
    ∀ k c t, (k, c, t) ∈ os_results s → ∃ x d, senders !! k = Some x ∧ Decides C x d ∧ t = transition d c.
Proof.
  intros Hnd Hc Hr Hpc Hok Hrun.
  destruct (round_sched_run_rel mb inputs senders Hnd Hc rs_faulty evs _ s _ (add_rounds_rel mb inputs senders r Hr Hpc) Hok Hrun)
    as [C HC].
  exists C. split; [apply HC|]. split; [|apply HC]. intros k m Hk.
  destruct (ro_member _ _ _ _ _ HC k m Hk) as [? Hrel]. split; [done|apply Hrel].
Qed.

(** What the tests assert of round 0: when two calls of [submitCoin] report a
    decision, it is the same; and when all instances propose [v], every call
    returns [v], decided if the coin is [v]. *)
Theorem round_scheduler_agrees (mb : membership UUID) `{!Resilient mb} inputs senders evs s k c t :
  NoDup senders → (∀ x, bca_correct mb x ↔ x ∈ senders) → Forall (round_sched_ok mb inputs senders) evs →
  round_sched_run evs (add_rounds senders (newFirstRound (mb_n mb) (mb_f mb))) = Some s → (k, c, t) ∈ os_results s →
  (∀ k' c' t', (k', c', t') ∈ os_results s → decided t = true → decided t' = true → estimate t = estimate t') ∧
  ∀ v, v = 0 ∨ v = 1 → (∀ x p, x ∈ senders → inputs x p → p.1 = v) → t = RoundTransitionResult v (c =? v).
Proof.
  intros Hnd Hc Hok Hrun Hin.
  assert (Hstart : round_rel (T := ivbca) mb inputs senders (add_rounds senders (newFirstRound (mb_n mb) (mb_f mb)))
    (bca_net_init mb)) by (by apply add_rounds_rel).
  destruct (round_sched_run_rel mb inputs senders Hnd Hc rs_faulty evs _ s _ Hstart Hok Hrun) as [C HC].
  destruct (ro_results _ _ _ _ _ HC k c t Hin) as (x & d & Hx & Hd & ->).
  pose proof (ro_reachable _ _ _ _ _ HC) as Hr.
  assert (Hcx : bca_correct mb x) by (apply Hc; by eapply list_elem_of_lookup_2). split.
  - intros k' c' t' (y & d' & Hy & Hd' & ->)%(ro_results _ _ _ _ _ HC). unfold transition.
    destruct (Z.eqb_spec d bot), (Z.eqb_spec d' bot); try done. intros _ _. simpl.
    apply (crusader_agreement mb inputs C x y); try done; [by apply reachable_ok|].
    apply Hc. by eapply list_elem_of_lookup_2.
  - intros v Hv Hi. assert (d = v) as ->.
    { apply (only_decision mb inputs v Hv) with C x; try done. intros i p Hci Hp. apply (Hi i); [by apply Hc|done]. }
    unfold transition. destruct (Z.eqb_spec v bot); [unfold bot in *; lia|done].
Qed.

Lemma round_scheduler_agrees_witness :
  (0%nat, 1, RoundTransitionResult 1 true) ∈ os_results rounds_end ∧
  (∀ k' c' t', (k', c', t') ∈ os_results rounds_end → true = true → decided t' = true → 1 = estimate t').
Proof.
  destruct rounds_results as [H0 H2]. split; [exact H0|].
  exact (proj1 (round_scheduler_agrees mb4 (λ _ p, p = (1, bot)) round_senders rounds_events rounds_end 0 1 _
    round_nodup round_correct rounds_events_ok rounds_end_eq H0)).
Defined.
