(* ===== verification/MmrSchedulers.v ===== *)
(** * [mmrScheduller.go]: instances of binary agreement in one process

    The schedulers connect instances of [concurrentMMR] without a network, and
    give them the coin of a hash.  What an instance broadcasts becomes one
    operation for each instance: a goroutine that makes the call
    ([mmrOrderedScheduler]), or that hands it to a list which is shuffled and
    emptied by a ticker ([mmrUnorderedScheduler]).  What they have in common is
    the class [MmrScheduler]; everything they do is a run of [AbaNetwork].

    In [execOp] of the unordered scheduler the argument [op()] of [go
    assert.NoError(t, op())] is evaluated before the goroutine starts, so the
    operation runs in the loop of the scheduler. *)

From stdpp Require Import base tactics numbers list gmap functions relations strings pretty.
From Stdlib Require Import Init.Byte.
From S2P Require Import Prelude Sha256 Utils Bca BcaNet Ivbca IvbcaCorrect Evbca EvbcaCorrect Round Termination Mmr AbaNetwork AbaAgreement AbaWire AbaChannel AbaProject Shuffle.

Local Open Scope Z_scope.

(** ** The coin *)

Definition hashToBool (seed : bytes) : bool :=
  match Sum256 seed with b :: _ => Z.even (byte_Z b) | [] => false end.

(** [fmt.Sprintf("%d", round)]. *)
Definition sprintf_d (round : Z) : bytes := String.list_byte_of_string (pretty round).

Definition hash_coin (round : Z) : Z := if hashToBool (sprintf_d round) then 1 else 0.

(** ** The state *)

(** [listenDecisions]: it waits for the decision; it is about to schedule it for
    instance [i]; it is about to send it on [decision]; it waits for a second
    decision; it has received one, and the test fails. *)
Inductive decision_pc :=
| D_receive
| D_each (d : Z) (i : nat)
| D_put (d : Z) (i : nat)
| D_again
| D_twice (d : Z).

(** An instance with the name of its goroutines, the channel [decision] and the
    goroutine that fills it. *)
Record wrappedMMR := WrappedMMR {
  wm_sender : UUID;
  wm_m : mmr;
  wm_decision : list Z;
  wm_listen : decision_pc;
}.

(** An operation: a call of the instance with index [i]. *)
Inductive mmr_op :=
| OSubmit (i : nat) (k : bca_kind) (v : Z) (sender : UUID) (r : Z)
| ODecision (i : nat) (d : Z) (sender : UUID)
| OCoin (i : nat) (coin r : Z).

Definition op_target (op : mmr_op) : nat :=
  match op with OSubmit i _ _ _ _ | ODecision i _ _ | OCoin i _ _ => i end.

(** [ms_started]: the goroutines with an operation, which make the call or wait
    to hand it over.  [ms_ops]: the list of the unordered scheduler.
    [ms_failed]: the errors [assert.NoError] reports.  [ms_read]: the decisions
    the test has read. *)
Record mmr_scheduler := MkMmrScheduler {
  ms_instances : list wrappedMMR;
  ms_started : list mmr_op;
  ms_ops : list mmr_op;
  ms_failed : list mmr_err;
  ms_read : list (nat * Z);
}.

Definition newMMRScheduler : mmr_scheduler := MkMmrScheduler [] [] [] [] [].

Definition set_ms_instances x (s : mmr_scheduler) : mmr_scheduler :=
  MkMmrScheduler x (ms_started s) (ms_ops s) (ms_failed s) (ms_read s).
Definition set_ms_started x (s : mmr_scheduler) : mmr_scheduler :=
  MkMmrScheduler (ms_instances s) x (ms_ops s) (ms_failed s) (ms_read s).
Definition set_ms_ops x (s : mmr_scheduler) : mmr_scheduler :=
  MkMmrScheduler (ms_instances s) (ms_started s) x (ms_failed s) (ms_read s).

Definition set_wm_m m (w : wrappedMMR) : wrappedMMR := WrappedMMR (wm_sender w) m (wm_decision w) (wm_listen w).
Definition set_wm_listen d pc (w : wrappedMMR) : wrappedMMR := WrappedMMR (wm_sender w) (wm_m w) d pc.

Definition put_wmmr (k : nat) (w : wrappedMMR) (s : mmr_scheduler) : mmr_scheduler :=
  set_ms_instances (<[k := w]> (ms_instances s)) s.

Definition mmr_addInstance (sender : UUID) (m : mmr) (s : mmr_scheduler) : mmr_scheduler :=
  set_ms_instances (ms_instances s ++ [WrappedMMR sender m [] D_receive]) s.

(** It also starts the goroutines of the instance. *)
Definition mmr_getChannels (n f : Z) (sender : UUID) (s : mmr_scheduler) : mmr_scheduler :=
  mmr_addInstance sender (newMMR n f) s.

(** ** Operations *)

Definition mmr_op_exec (op : mmr_op) (m : mmr) : outcome (mmr * option mmr_err) :=
  match op with
  | OSubmit _ k v sender r => mmr_submit k v sender r m
  | ODecision _ d sender => mmr_submitDecision d sender m
  | OCoin _ coin r => mmr_submitCoin coin r m
  end.

(** The call; it panics with the process, or waits. *)
Definition mmr_run_op (op : mmr_op) (s : mmr_scheduler) : option mmr_scheduler :=
  w ← ms_instances s !! op_target op;
  match mmr_op_exec op (wm_m w) with
  | Done (m, err) =>
    Some (MkMmrScheduler (<[op_target op := set_wm_m m w]> (ms_instances s)) (ms_started s) (ms_ops s)
            (ms_failed s ++ (if err is Some e then [e] else [])) (ms_read s))
  | _ => None
  end.

(** One operation for each instance. *)
Definition for_each (op : nat → mmr_op) (s : mmr_scheduler) : list mmr_op :=
  op <$> seq 0 (length (ms_instances s)).

Definition start_ops (ops : list mmr_op) (s : mmr_scheduler) : mmr_scheduler := set_ms_started (ms_started s ++ ops) s.

(** ** The listeners *)

(** [listenEchoes], [listenVotes] and [listenBinds]: the [i]-th message that
    instance [k] has to broadcast. *)
Definition listenMsgs (k : nat) (kind : bca_kind) (i : nat) (s : mmr_scheduler) : option mmr_scheduler :=
  w ← ms_instances s !! k;
  x ← deliver_bag kind (wm_m w) !! i;
  Some (start_ops (for_each (λ t, OSubmit t kind (val x) (wm_sender w) (rnum x)) s)
          (put_wmmr k (set_wm_m (set_deliver_bag kind (delete i (deliver_bag kind (wm_m w))) (wm_m w)) w) s)).

Definition listenCoinRequests (k i : nat) (s : mmr_scheduler) : option mmr_scheduler :=
  w ← ms_instances s !! k;
  round ← coinReq (wm_m w) !! i;
  Some (start_ops [OCoin k (hash_coin round) round]
          (put_wmmr k (set_wm_m (set_coinReq (delete i (coinReq (wm_m w))) (wm_m w)) w) s)).

(** The two receives of [listenDecisions]. *)
Definition receive_decision (k : nat) (w : wrappedMMR) (s : mmr_scheduler) : option mmr_scheduler :=
  '(m, d) ← take_decision (wm_m w);
  match wm_listen w with
  | D_receive => Some (put_wmmr k (WrappedMMR (wm_sender w) m (wm_decision w) (D_each d 0)) s)
  | D_again => Some (put_wmmr k (WrappedMMR (wm_sender w) m (wm_decision w) (D_twice d)) s)
  | _ => None
  end.

(** ** The two schedulers

    [mmr_go_op]: a move of the [i]-th goroutine.  [mmr_tick]: the ticker.
    [mmr_listenDecisions]: a move of the goroutine of instance [k].  [mmr_read]:
    the test receives from [decision]. *)
Class MmrScheduler := {
  mmr_go_op : nat → list nat → mmr_scheduler → option mmr_scheduler;
  mmr_tick : mmr_scheduler → option mmr_scheduler;
  mmr_listenDecisions : nat → mmr_scheduler → option mmr_scheduler;
  mmr_read : nat → mmr_scheduler → option mmr_scheduler;
}.

Definition log_read (k : nat) (d : Z) (s : mmr_scheduler) : mmr_scheduler :=
  MkMmrScheduler (ms_instances s) (ms_started s) (ms_ops s) (ms_failed s) (ms_read s ++ [(k, d)]).

Definition ordered_go_op (i : nat) (draws : list nat) (s : mmr_scheduler) : option mmr_scheduler :=
  op ← ms_started s !! i; mmr_run_op op (set_ms_started (delete i (ms_started s)) s).

(** The operations for all instances, then [decision], which has no buffer. *)
Definition ordered_listenDecisions (k : nat) (s : mmr_scheduler) : option mmr_scheduler :=
  w ← ms_instances s !! k;
  match wm_listen w with
  | D_each d _ =>
    Some (start_ops (for_each (λ t, ODecision t d (wm_sender w)) s)
            (put_wmmr k (set_wm_listen (wm_decision w) (D_put d (length (ms_instances s))) w) s))
  | D_receive | D_again => receive_decision k w s
  | _ => None
  end.

Definition ordered_read (k : nat) (s : mmr_scheduler) : option mmr_scheduler :=
  w ← ms_instances s !! k;
  match wm_listen w with
  | D_put d _ => Some (log_read k d (put_wmmr k (set_wm_listen (wm_decision w) D_again w) s))
  | _ => None
  end.

#[export] Instance mmrOrderedScheduler : MmrScheduler :=
  Build_MmrScheduler ordered_go_op (λ _, None) ordered_listenDecisions ordered_read.

Definition mmr_reorderOps (op : mmr_op) (draws : list nat) (s : mmr_scheduler) : mmr_scheduler :=
  set_ms_ops (reorder draws op (ms_ops s)) s.

(** The goroutine reaches [scheduleChan]. *)
Definition unordered_go_op (i : nat) (draws : list nat) (s : mmr_scheduler) : option mmr_scheduler :=
  op ← ms_started s !! i; Some (mmr_reorderOps op draws (set_ms_started (delete i (ms_started s)) s)).

Definition mmr_execOp (s : mmr_scheduler) : option mmr_scheduler :=
  '(op, ops) ← pop (ms_ops s); mmr_run_op op (set_ms_ops ops s).

(** The send on [decision], which has room for one, is inside the loop. *)
Definition unordered_listenDecisions (k : nat) (s : mmr_scheduler) : option mmr_scheduler :=
  w ← ms_instances s !! k;
  match wm_listen w with
  | D_each d i =>
    if decide (i < length (ms_instances s))%nat
    then Some (start_ops [ODecision i d (wm_sender w)]
                 (put_wmmr k (set_wm_listen (wm_decision w) (D_put d i) w) s))
    else Some (put_wmmr k (set_wm_listen (wm_decision w) D_again w) s)
  | D_put d i =>
    match wm_decision w with
    | [] => Some (put_wmmr k (set_wm_listen [d] (D_each d (S i)) w) s)
    | _ => None
    end
  | D_receive | D_again => receive_decision k w s
  | D_twice _ => None
  end.

Definition unordered_read (k : nat) (s : mmr_scheduler) : option mmr_scheduler :=
  w ← ms_instances s !! k;
  match wm_decision w with
  | d :: q => Some (log_read k d (put_wmmr k (set_wm_listen q (wm_listen w) w) s))
  | [] => None
  end.

#[export] Instance mmrUnorderedScheduler : MmrScheduler :=
  Build_MmrScheduler unordered_go_op mmr_execOp unordered_listenDecisions unordered_read.

(** ** Runs *)

(** [M_call]: a call the test makes itself. *)
Inductive mmr_sched_event :=
| M_inner (k : nat) (e : mmr_inner)
| M_msg (k : nat) (kind : bca_kind) (i : nat)
| M_coin (k i : nat)
| M_decisions (k : nat)
| M_go (i : nat) (draws : list nat)
| M_tick
| M_propose (k : nat) (est : Z)
| M_read (k : nat)
| M_call (op : mmr_op).

Definition mmr_sched_exec `{MmrScheduler} (e : mmr_sched_event) (s : mmr_scheduler) : option mmr_scheduler :=
  match e with
  | M_inner k e =>
    w ← ms_instances s !! k; o ← mmr_inner_step e (wm_m w); m ← done_some o;
    Some (put_wmmr k (set_wm_m m w) s)
  | M_msg k kind i => listenMsgs k kind i s
  | M_coin k i => listenCoinRequests k i s
  | M_decisions k => mmr_listenDecisions k s
  | M_go i draws => mmr_go_op i draws s
  | M_tick => mmr_tick s
  | M_propose k est =>
    w ← ms_instances s !! k; '(m, _) ← done_some (conc_propose est (wm_m w));
    Some (put_wmmr k (set_wm_m m w) s)
  | M_read k => mmr_read k s
  | M_call op => mmr_run_op op s
  end.

Fixpoint mmr_sched_run `{MmrScheduler} (evs : list mmr_sched_event) (s : mmr_scheduler) : option mmr_scheduler :=
  match evs with
  | [] => Some s
  | e :: evs => s ← mmr_sched_exec e s; mmr_sched_run evs s
  end.

(** The decisions on their way from an instance to the test. *)
Definition held (w : wrappedMMR) : list Z :=
  wm_decision w ++ (match wm_listen w with D_each d _ | D_put d _ | D_twice d => [d] | _ => [] end).

(** What both schedulers promise: operations are made by those that hold them,
    and a decision goes to instances and the test only. *)
Class MmrSchedulerLaws (H : MmrScheduler) : Prop := {
  mmr_go_op_law i draws s s' : mmr_go_op i draws s = Some s' → ∃ op, ms_started s !! i = Some op ∧
    let s1 := set_ms_started (delete i (ms_started s)) s in
    mmr_run_op op s1 = Some s' ∨ ∃ ops, ops ≡ₚ op :: ms_ops s ∧ s' = set_ms_ops ops s1;
  mmr_tick_law s s' : mmr_tick s = Some s' →
    ∃ op ops, ms_ops s = op :: ops ∧ mmr_run_op op (set_ms_ops ops s) = Some s';
  mmr_listen_law k s s' : mmr_listenDecisions k s = Some s' → ∃ w, ms_instances s !! k = Some w ∧
    (receive_decision k w s = Some s' ∨
     ∃ ops q pc, s' = start_ops ops (put_wmmr k (set_wm_listen q pc w) s) ∧
       (∀ d, d ∈ held (set_wm_listen q pc w) → d ∈ held w) ∧
       ∀ o, o ∈ ops → ∃ i d, o = ODecision i d (wm_sender w) ∧ d ∈ held w);
  mmr_read_law k s s' : mmr_read k s = Some s' → ∃ w d q pc, ms_instances s !! k = Some w ∧ d ∈ held w ∧
    s' = log_read k d (put_wmmr k (set_wm_listen q pc w) s) ∧
    ∀ d', d' ∈ held (set_wm_listen q pc w) → d' ∈ held w;
}.

#[export] Instance mmrOrderedScheduler_laws : MmrSchedulerLaws mmrOrderedScheduler.
Proof.
  split; simpl.
  - intros i draws s s'. unfold ordered_go_op. intros (op & Hop & Hr)%bind_Some. exists op. split; [done|]. by left.
  - done.
  - intros k s s'. unfold ordered_listenDecisions. intros (w & Hw & Hr)%bind_Some. exists w. split; [done|].
    destruct (wm_listen w) as [|d i|d i| |d] eqn:Hl; try done; [by left| |by left].
    injection Hr as <-. right. do 3 eexists. split; [done|]. unfold held. rewrite Hl. split; [done|].
    intros o (t & -> & _)%list_elem_of_fmap. exists t, d. split; [done|]. apply elem_of_app. right. by left.
  - intros k s s'. unfold ordered_read. intros (w & Hw & Hr)%bind_Some.
    destruct (wm_listen w) as [|d i|d i| |d] eqn:Hl; try done. injection Hr as <-. do 4 eexists.
    split; [done|]. unfold held. rewrite Hl. split; [apply elem_of_app; right; by left|]. split; [done|].
    simpl. intros d'. rewrite !elem_of_app. intros [? | Hd]; [by left|by apply not_elem_of_nil in Hd].
Qed.

#[export] Instance mmrUnorderedScheduler_laws : MmrSchedulerLaws mmrUnorderedScheduler.
Proof.
  split; simpl.
  - intros i draws s s'. unfold unordered_go_op. intros (op & Hop & [= <-])%bind_Some. exists op. split; [done|].
    right. exists (reorder draws op (ms_ops s)). split; [apply reorder_Permutation|done].
  - intros s s'. unfold mmr_execOp. intros ([op ops] & Hp & Hr)%bind_Some. exists op, ops.
    destruct (ms_ops s); by simplify_eq/=.
  - intros k s s'. unfold unordered_listenDecisions. intros (w & Hw & Hr)%bind_Some. exists w. split; [done|].
    destruct (wm_listen w) as [|d i|d i| |d] eqn:Hl; try done; [by left| | |by left]; right; unfold held; rewrite Hl.
    + case_decide; injection Hr as <-.
      * do 3 eexists. split; [done|]. split; [done|].
        intros o ->%list_elem_of_singleton. do 2 eexists. split; [done|]. apply elem_of_app. right. by left.
      * exists []. do 2 eexists. split; [|split].
        -- unfold start_ops, put_wmmr, set_ms_instances, set_ms_started. simpl. by rewrite app_nil_r.
        -- simpl. intros d'. rewrite app_nil_r. intros ?. apply elem_of_app. by left.
        -- intros o Ho. by apply not_elem_of_nil in Ho.
    + destruct (wm_decision w) eqn:Hq; [|done]. injection Hr as <-. exists []. do 2 eexists. split; [|split].
      * unfold start_ops, put_wmmr, set_ms_instances, set_ms_started. simpl. by rewrite app_nil_r.
      * simpl. intros d'. set_solver.
      * intros o Ho. by apply not_elem_of_nil in Ho.
  - intros k s s'. unfold unordered_read. intros (w & Hw & Hr)%bind_Some.
    destruct (wm_decision w) as [|d q] eqn:Hq; [done|]. injection Hr as <-. exists w, d, q, (wm_listen w).
    unfold held. rewrite Hq. split; [done|]. split; [by left|]. split; [done|]. simpl. intros d' Hd. by right.
Qed.

(** ** Runs of the network *)

(** An [mmr] as an instance of which only the [mmr] is used. *)
Definition bare (m : mmr) : AbaInstance := MkAbaInstance m [] [] [] true [] H_decision.

Lemma inst_rel_bare nd a : inst_rel nd a → inst_rel nd (bare (ai_mmr a)).
Proof.
  intros Hrel. split; [apply Hrel|apply Hrel| |apply Hrel|].
  - intros r Hr. apply (ir_coin _ _ Hrel). simpl in *. rewrite app_nil_r in Hr. apply elem_of_app. by left.
  - intros d Hd. by apply not_elem_of_nil in Hd.
Qed.

Section refinement.
Context `{Hsch : MmrScheduler} `{!MmrSchedulerLaws Hsch}.
Context (mb : membership UUID) `{!Resilient mb} (inputs : UUID → Z → Prop) (senders : list UUID).
Hypothesis Hnd : NoDup senders.
Hypothesis Hsenders : ∀ x, bca_correct mb x ↔ x ∈ senders.

#[local] Abbreviation reachable := (aba_reachable hash_coin mb inputs).

(** The event of the network that an operation is. *)
Definition op_event (op : mmr_op) : aba_event :=
  match op with
  | OSubmit _ k v sender r => AMsg k v sender r
  | ODecision _ d sender => ADecision d sender
  | OCoin _ _ r => ACoin r
  end.

Definition op_ok (C : aba_config) (op : mmr_op) : Prop :=
  (∀ j, aba_event_ok mb inputs C j (op_event op)) ∧
  match op with OCoin _ coin r => coin = hash_coin r | _ => True end.

(** What the test may do: proposals among [inputs], and calls in the name of
    faulty processes. *)
Definition mmr_sched_ok (e : mmr_sched_event) : Prop :=
  match e with
  | M_propose k est => ∀ x, senders !! k = Some x → inputs x est
  | M_call (OSubmit _ _ v sender r) => is_round r ∧ sender ∈ faulty mb
  | M_call (ODecision _ d sender) => 0 ≤ d ∧ sender ∈ faulty mb
  | M_call (OCoin _ _ _) => False
  | _ => True
  end.

Record mmr_rel (s : mmr_scheduler) (C : aba_config) : Prop := {
  mr_reachable : reachable C;
  mr_member k w : ms_instances s !! k = Some w →
    senders !! k = Some (wm_sender w) ∧ inst_rel (C (wm_sender w)) (bare (wm_m w)) ∧
    ∀ d, d ∈ held w → d ∈ ab_out (C (wm_sender w));
  mr_ops op : op ∈ ms_started s ++ ms_ops s → op_ok C op;
  mr_read k d : (k, d) ∈ ms_read s → ∃ x, senders !! k = Some x ∧ d ∈ ab_out (C x);
}.

Lemma op_ok_grows C C' op : (∀ j, log_grows (C j) (C' j)) → op_ok C op → op_ok C' op.
Proof.
  intros Hg [Ho Hc]. split; [|done]. intros j. specialize (Ho j). destruct op as [i k v x r|i d x|i c r]; simpl in *.
  - destruct Ho as (? & ? & [? | ?]); split_and!; auto. right. by apply (Hg x).
  - destruct Ho as (? & ? & [? | ?]); split_and!; auto. right. by apply (Hg x).
  - done.
Qed.

(** An instance makes a step of the network. *)
Lemma mmr_rel_step s C k w e nd' w' :
  mmr_rel s C → ms_instances s !! k = Some w →
  aba_event_ok mb inputs C (wm_sender w) e → aba_exec hash_coin e (C (wm_sender w)) = Some nd' →
  wm_sender w' = wm_sender w → inst_rel nd' (bare (wm_m w')) →
  (∀ d, d ∈ held w' → d ∈ held w ∨ d ∈ ab_out nd') →
  ∃ C', mmr_rel (put_wmmr k w' s) C' ∧ (∀ j, log_grows (C j) (C' j)) ∧ C' (wm_sender w) = nd'.
Proof.
  intros [Hr Hm Ho Hrd] Hk Hok Hex Hs Hrel Hh. destruct (Hm k w Hk) as (Hsk & _ & Hd).
  exists (<[wm_sender w := nd']> C).
  assert (Hstep : aba_net_step hash_coin mb inputs C (<[wm_sender w := nd']> C)).
  { econstructor; [apply Hsenders; by eapply list_elem_of_lookup_2|done..]. }
  assert (Hg : ∀ j, log_grows (C j) ((<[wm_sender w := nd']> C) j)) by (intros j; by eapply step_grows).
  split; [|split; [done|by rewrite fn_lookup_insert]]. split.
  - eapply rtc_r; done.
  - intros k' w1 [(<- & <- & _) | [Hne Hk']]%list_lookup_insert_Some.
    + rewrite Hs, fn_lookup_insert. split; [done|]. split; [done|]. intros d [Hd' | ?]%Hh; [|done].
      apply Hd in Hd'. specialize (Hg (wm_sender w)). rewrite fn_lookup_insert in Hg. by apply Hg.
    + destruct (Hm k' w1 Hk') as (Hs' & Hrel' & Hd'). rewrite fn_lookup_insert_ne; [done|].
      intros Heq. rewrite <-Heq in Hs'. by apply Hne, (NoDup_lookup senders k k' (wm_sender w)).
  - intros op Hop. eapply op_ok_grows; [done|by apply Ho].
  - intros k' d Hin. destruct (Hrd k' d Hin) as (x & Hx & Hdx). exists x. split; [done|]. by apply (Hg x).
Qed.

(** A step that no process of the network makes. *)
Lemma mmr_rel_own s C k w w' :
  mmr_rel s C → ms_instances s !! k = Some w → wm_sender w' = wm_sender w →
  inst_rel (C (wm_sender w)) (bare (wm_m w')) → (∀ d, d ∈ held w' → d ∈ ab_out (C (wm_sender w))) →
  mmr_rel (put_wmmr k w' s) C.
Proof.
  intros [Hr Hm Ho Hrd] Hk Hs Hrel Hh. destruct (Hm k w Hk) as (Hsk & _ & Hd). split; [done| |done|done].
  intros k' w1 [(<- & <- & _) | [Hne Hk']]%list_lookup_insert_Some; [by rewrite Hs|by apply Hm].
Qed.

Lemma mmr_rel_ops s C started ops :
  mmr_rel s C → (∀ op, op ∈ started ++ ops → op_ok C op) →
  mmr_rel (set_ms_ops ops (set_ms_started started s)) C.
Proof. intros [] Ho. by split. Qed.

(** ** Steps of the harness *)

(** An operation that waits is a step of its instance, when the call returns. *)
Lemma op_simulated nd op m m' err :
  inst_rel nd (bare m) → (∀ r, match op with OSubmit _ _ _ _ r' | OCoin _ _ r' => r = r' | _ => False end → is_round r) →
  match op with OCoin _ coin r => coin = hash_coin r | _ => True end →
  mmr_op_exec op m = Done (m', err) →
  simulated hash_coin nd (op_event op) (bare m').
Proof.
  intros Hrel Hr Hc Hex. destruct op as [i k v x r|i d x|i c r]; simpl in *.
  - apply (sim_submit hash_coin nd (bare m) Hrel (SubBca k v x r)); [|by apply Hr].
    unfold submit. simpl. destruct k; simpl in Hex; by rewrite Hex.
  - apply (sim_submit hash_coin nd (bare m) Hrel (SubDecision d x)); [|done].
    unfold submit. simpl. by rewrite Hex.
  - subst c. destruct (ir_mmr _ _ Hrel) as [b Hb]. simpl in Hb.
    apply (sim_keeps hash_coin nd (bare m) Hrel (ACoin r) m'
             (AbaNode (with_bags b m') (ab_taken nd)
                (match err, coin_proposal (hash_coin r) r (with_bags b m) with
                 | None, Some p => log_proposal (uint16_add r 1) p (ab_proposed nd)
                 | _, _ => ab_proposed nd end) (ab_out nd))).
    + simpl. rewrite Hb, (submitCoin_bags b _ _ _ _ _ Hex). done.
    + by exists b.
    + eapply submitCoin_keeps; [by apply Hr|exact Hex].
Qed.

Lemma op_round C op : op_ok C op →
  ∀ r, match op with OSubmit _ _ _ _ r' | OCoin _ _ r' => r = r' | _ => False end → is_round r.
Proof. intros [Ho _] r. specialize (Ho uuid_Nil). destruct op as [| |]; simpl in *; [|done|]; intros ->; apply Ho. Qed.

Lemma mmr_run_op_rel op s s' C :
  mmr_rel s C → op_ok C op → mmr_run_op op s = Some s' → ∃ C', mmr_rel s' C' ∧ ∀ j, log_grows (C j) (C' j).
Proof.
  intros Hm Hop. unfold mmr_run_op. intros (w & Hw & Hr)%bind_Some.
  destruct (mmr_op_exec op (wm_m w)) as [[m err]| |] eqn:Hex; [|done..]. injection Hr as <-.
  destruct (mr_member _ _ Hm _ w Hw) as (Hs & Hrel & Hd).
  destruct (op_simulated _ op _ m err Hrel (op_round C op Hop) (proj2 Hop) Hex) as (nd' & Hn & Hrel').
  destruct (mmr_rel_step s C _ w (op_event op) nd' (set_wm_m m w) Hm Hw) as (C' & HC & Hg & _);
    [by apply Hop|done|done|done|intros d Hd'; by left|].
  exists C'. split; [|done]. destruct HC. by split.
Qed.

Lemma for_each_ok op s C o : (∀ t, op_ok C (op t)) → o ∈ for_each op s → op_ok C o.
Proof. intros Ho (t & -> & _)%list_elem_of_fmap. apply Ho. Qed.

(** Operations that may be called are started. *)
Lemma start_ops_rel ops s C : mmr_rel s C → (∀ o, o ∈ ops → op_ok C o) → mmr_rel (start_ops ops s) C.
Proof.
  intros [] Ho. split; try done. simpl. intros op Hop. rewrite !elem_of_app in Hop.
  destruct Hop as [[? | ?] | ?]; [|by apply Ho|]; apply mr_ops0, elem_of_app; auto.
Qed.

Lemma listenMsgs_rel k kind i s s' C : mmr_rel s C → listenMsgs k kind i s = Some s' → mmr_rel s' C.
Proof.
  intros Hm. unfold listenMsgs. intros (w & Hw & (x & Hx & [= <-])%bind_Some)%bind_Some.
  destruct (mr_member _ _ Hm _ w Hw) as (Hs & Hrel & Hd).
  destruct (ir_bag _ _ Hrel kind x) as [Hr Hv]; [by eapply list_elem_of_lookup_2|].
  apply start_ops_rel.
  - apply (mmr_rel_own s C k w); [done|done|done| |done].
    destruct (sim_listener hash_coin _ _ Hrel uuid_Nil (L_bcast kind i)
      (set_ai_mmr (set_deliver_bag kind (delete i (deliver_bag kind (wm_m w))) (wm_m w)) (bare (wm_m w)))
      (Beb (bcast_of kind uuid_Nil x))) as [Hrel' _]; [|exact (inst_rel_bare _ _ Hrel')].
    unfold aba_listener. simpl. by rewrite Hx.
  - intros o Ho. eapply for_each_ok, Ho. intros t. split; [|done]. intros j. simpl. split; [done|].
    assert (Hc : bca_correct mb (wm_sender w)) by (apply Hsenders; by eapply list_elem_of_lookup_2).
    split; [apply Hc|by right].
Qed.

Lemma listenCoinRequests_rel k i s s' C : mmr_rel s C → listenCoinRequests k i s = Some s' → mmr_rel s' C.
Proof.
  intros Hm. unfold listenCoinRequests. intros (w & Hw & (r & Hr & [= <-])%bind_Some)%bind_Some.
  destruct (mr_member _ _ Hm _ w Hw) as (Hs & Hrel & Hd).
  destruct (sim_listener hash_coin _ _ Hrel uuid_Nil (L_coin i)
    (MkAbaInstance (set_coinReq (delete i (coinReq (wm_m w))) (wm_m w)) [] [] [] true [r] H_decision)
    (Toss (makeCoinSeed uuid_Nil r))) as (Hrel' & r' & Heq & Hir).
  { unfold aba_listener. simpl. by rewrite Hr. }
  apply start_ops_rel.
  - apply (mmr_rel_own s C k w); [done|done|done|exact (inst_rel_bare _ _ Hrel')|done].
  - intros o ->%list_elem_of_singleton. split; [|done]. intros j. simpl.
    apply (ir_coin _ _ Hrel). simpl. rewrite app_nil_r. by eapply list_elem_of_lookup_2.
Qed.

Lemma receive_decision_rel k w s s' C :
  mmr_rel s C → ms_instances s !! k = Some w → receive_decision k w s = Some s' → ∃ C', mmr_rel s' C'.
Proof.
  intros Hm Hw. unfold receive_decision. intros ([m d] & Ht & Hr)%bind_Some.
  destruct (mr_member _ _ Hm _ w Hw) as (Hs & Hrel & Hd).
  unfold take_decision in Ht. destruct (deliverDecision (wm_m w)) as [|d' q] eqn:Hq; [done|]. injection Ht as <- ->.
  destruct (sim_listener hash_coin _ _ Hrel uuid_Nil L_decision
    (MkAbaInstance (set_decision (reachedDecision (wm_m w)) q (hasDecided (wm_m w)) (m_reach (wm_m w)) (wm_m w))
       [d] [] [] true [] H_decision)
    (TermBeb (broadcastDecision uuid_Nil d))) as (d' & nd' & Heq & Hex & Hrel' & Hin).
  { unfold aba_listener. simpl. by rewrite Hq. }
  assert (Hout : d ∈ ab_out nd') by (apply (ir_handed _ _ Hrel'); by left).
  assert (Hstep : ∀ pc, (pc = D_each d 0 ∨ pc = D_twice d) → ∃ C', mmr_rel
    (put_wmmr k (WrappedMMR (wm_sender w) (set_decision (reachedDecision (wm_m w)) q (hasDecided (wm_m w))
       (m_reach (wm_m w)) (wm_m w)) (wm_decision w) pc) s) C').
  { intros pc Hpc. destruct (mmr_rel_step s C k w AOutput nd'
      (WrappedMMR (wm_sender w) (set_decision (reachedDecision (wm_m w)) q (hasDecided (wm_m w))
         (m_reach (wm_m w)) (wm_m w)) (wm_decision w) pc) Hm Hw) as (C' & HC & _); [done..| | |by exists C'].
    - exact (inst_rel_bare _ _ Hrel').
    - intros d1 [? | Hd1]%elem_of_app; [left; apply elem_of_app; by left|]. right.
      destruct Hpc as [-> | ->]; by apply list_elem_of_singleton in Hd1 as ->. }
  destruct (wm_listen w); try done; injection Hr as <-; apply Hstep; auto.
Qed.

(** A decision on its way to the test is 0 or 1. *)
Lemma decision_ok s C k w i d : mmr_rel s C → ms_instances s !! k = Some w → d ∈ held w →
  op_ok C (ODecision i d (wm_sender w)).
Proof.
  intros Hm Hw Hd. destruct (mr_member _ _ Hm _ w Hw) as (Hs & _ & Hout).
  assert (Hc : bca_correct mb (wm_sender w)) by (apply Hsenders; by eapply list_elem_of_lookup_2).
  split; [|done]. intros j. simpl.
  destruct (output_bit mb hash_coin inputs C (wm_sender w) d (mr_reachable _ _ Hm) Hc (Hout d Hd)) as [-> | ->];
    (split; [lia|]; split; [apply Hc|right; by apply Hout]).
Qed.

Lemma listenDecisions_rel k s s' C : mmr_rel s C → mmr_listenDecisions k s = Some s' → ∃ C', mmr_rel s' C'.
Proof.
  intros Hm (w & Hw & [Hr | (ops & q & pc & -> & Hh & Ho)])%mmr_listen_law; [by eapply receive_decision_rel|].
  destruct (mr_member _ _ Hm _ w Hw) as (Hs & Hrel & Hd). exists C. apply start_ops_rel.
  - apply (mmr_rel_own s C k w); [done|done|done|done|intros d Hd'; by apply Hd, Hh].
  - intros o (i & d & -> & Hd')%Ho. by eapply decision_ok.
Qed.

Lemma read_rel k s s' C : mmr_rel s C → mmr_read k s = Some s' → mmr_rel s' C.
Proof.
  intros Hm (w & d & q & pc & Hw & Hd & -> & Hh)%mmr_read_law.
  destruct (mr_member _ _ Hm _ w Hw) as (Hs & Hrel & Hout).
  destruct (mmr_rel_own s C k w (set_wm_listen q pc w) Hm Hw) as [H1 H2 H3 H4];
    [done|done|intros d' Hd'; by apply Hout, Hh|]. split; [done..|].
  intros k' d' [? | [= -> ->]%list_elem_of_singleton]%elem_of_app; [by apply H4|]. exists (wm_sender w). auto.
Qed.

Lemma go_op_rel i draws s s' C : mmr_rel s C → mmr_go_op i draws s = Some s' → ∃ C', mmr_rel s' C'.
Proof.
  intros Hm (op & Hop & Hr)%mmr_go_op_law.
  assert (Hops : ∀ o, o ∈ op :: delete i (ms_started s) ++ ms_ops s → op_ok C o).
  { intros o Ho. apply (mr_ops _ _ Hm), elem_of_app.
    apply elem_of_cons in Ho as [-> | [? | ?]%elem_of_app]; [left; by eapply list_elem_of_lookup_2|left|by right].
    by eapply list_elem_of_delete_inv. }
  destruct Hr as [Hr | (ops & Hp & ->)].
  - destruct (mmr_run_op_rel op (set_ms_started (delete i (ms_started s)) s) s' C) as (C' & HC & _);
      [|by apply Hops; left|done|by exists C'].
    apply (mmr_rel_ops s C (delete i (ms_started s)) (ms_ops s) Hm). intros o Ho. apply Hops. by right.
  - exists C. apply (mmr_rel_ops s C); [done|]. intros o [Ho | Ho]%elem_of_app; apply Hops.
    + right. apply elem_of_app. by left.
    + rewrite Hp in Ho. apply elem_of_cons in Ho as [-> | ?]; [by left|]. right. apply elem_of_app. by right.
Qed.

Lemma tick_rel s s' C : mmr_rel s C → mmr_tick s = Some s' → ∃ C', mmr_rel s' C'.
Proof.
  intros Hm (op & ops & Hq & Hr)%mmr_tick_law.
  assert (Hops : ∀ o, o ∈ ms_started s ++ op :: ops → op_ok C o) by (intros o Ho; apply (mr_ops _ _ Hm); by rewrite Hq).
  destruct (mmr_run_op_rel op (set_ms_ops ops s) s' C) as (C' & HC & _); [| |done|by exists C'].
  - apply (mmr_rel_ops s C (ms_started s) ops Hm). intros o Ho. apply Hops. set_solver.
  - apply Hops, elem_of_app. right. by left.
Qed.

(** ** The refinement *)

Lemma call_ok op C : mmr_sched_ok (M_call op) → op_ok C op.
Proof.
  intros Hok. pose proof (rs_faulty (m := mb)) as Hf. destruct op as [i k v x r|i d x|]; simpl in Hok; [| |done];
    destruct Hok as [? Hx]; (split; [|done]); intros j; simpl; split_and!; auto.
Qed.

Lemma instance_step k w s C e nd' m :
  mmr_rel s C → ms_instances s !! k = Some w → aba_event_ok mb inputs C (wm_sender w) e →
  aba_exec hash_coin e (C (wm_sender w)) = Some nd' → inst_rel nd' (bare m) →
  ∃ C', mmr_rel (put_wmmr k (set_wm_m m w) s) C'.
Proof.
  intros Hm Hw He Hex Hrel. destruct (mmr_rel_step s C k w e nd' (set_wm_m m w) Hm Hw) as (C' & HC & _);
    [done..|intros d Hd; by left|by exists C'].
Qed.

Lemma mmr_sched_step_rel e s s' C :
  mmr_rel s C → mmr_sched_ok e → mmr_sched_exec e s = Some s' → ∃ C', mmr_rel s' C'.
Proof.
  intros Hm Hok. destruct e as [k e|k kind i|k i|k|i draws| |k est|k|op]; simpl.
  - intros (w & Hw & (o & Ho & (m & Hd & [= <-])%bind_Some)%bind_Some)%bind_Some.
    destruct o as [m'| |]; simplify_eq/=. destruct (mr_member _ _ Hm _ w Hw) as (Hs & Hrel & _).
    destruct (sim_inner hash_coin _ _ Hrel e m Ho) as (nd' & Hex & Hrel').
    eapply (instance_step k w s C (inner_event e)); [done|done|by destruct e|done|done].
  - intros Hl. exists C. by eapply listenMsgs_rel.
  - intros Hl. exists C. by eapply (listenCoinRequests_rel k i s).
  - by apply (listenDecisions_rel k s s' C).
  - by apply (go_op_rel i draws s s' C).
  - by apply (tick_rel s s' C).
  - intros (w & Hw & ([m err] & Hd & [= <-])%bind_Some)%bind_Some.
    destruct (conc_propose est (wm_m w)) as [[m1 e1]| |] eqn:Hp; simplify_eq/=.
    destruct (mr_member _ _ Hm _ w Hw) as (Hs & Hrel & _).
    destruct (sim_propose hash_coin _ _ Hrel est (set_ai_mmr m (bare (wm_m w)))) as (nd' & Hex & Hrel').
    { unfold Propose. simpl. by rewrite Hp. }
    eapply (instance_step k w s C (APropose est)); [done|done|by apply Hok|done|done].
  - intros Hl. exists C. by eapply (read_rel k s).
  - intros Hr. destruct (mmr_run_op_rel op s s' C Hm (call_ok op C Hok) Hr) as (C' & HC & _). by exists C'.
Qed.

Lemma mmr_sched_run_rel evs s s' C :
  mmr_rel s C → Forall mmr_sched_ok evs → mmr_sched_run evs s = Some s' → ∃ C', mmr_rel s' C'.
Proof.
  revert s C. induction evs as [|e evs IH]; intros s C Hm Hok; simpl; [intros [= <-]; by exists C|].
  apply Forall_cons in Hok as [He Hok]. intros (s1 & H1 & Hr)%bind_Some.
  destruct (mmr_sched_step_rel e s s1 C Hm He H1) as (C1 & HC1). by apply (IH s1 C1 HC1 Hok Hr).
Qed.
End refinement.

(** The test gets an instance for each sender. *)
Definition mmr_instantiate (senders : list UUID) (n f : Z) : mmr_scheduler :=
  foldl (λ s x, mmr_getChannels n f x s) newMMRScheduler senders.

Lemma mmr_instantiate_eq senders n f : mmr_instantiate senders n f =
  MkMmrScheduler ((λ x, WrappedMMR x (newMMR n f) [] D_receive) <$> senders) [] [] [] [].
Proof.
  unfold mmr_instantiate. induction senders as [|x senders IH] using rev_ind; [done|].
  rewrite foldl_app, IH, fmap_app. done.
Qed.

Lemma mmr_rel_start mb `{!Resilient mb} inputs senders :
  mmr_rel mb inputs senders (mmr_instantiate senders (mb_n mb) (mb_f mb)) (aba_net_init mb).
Proof.
  rewrite mmr_instantiate_eq. split; simpl.
  - apply rtc_refl.
  - intros k w (x & -> & Hx)%list_lookup_fmap_Some. simpl. split; [done|]. split.
    + apply (inst_rel_bare _ (newAbaNetworkedInstance (mb_n mb) (mb_f mb))), inst_rel_start.
    + intros d Hd. by apply not_elem_of_nil in Hd.
  - intros op Hop. by apply not_elem_of_nil in Hop.
  - intros k d Hd. by apply not_elem_of_nil in Hd.
Qed.

(** ** Where [listenDecisions] of the unordered scheduler waits *)

(** What only [listenDecisions] and the test change. *)
Definition put_view (s : mmr_scheduler) : list (list Z * decision_pc) * list (nat * Z) :=
  ((λ w, (wm_decision w, wm_listen w)) <$> ms_instances s, ms_read s).

Definition reads_of (k : nat) (reads : list (nat * Z)) : nat := length (filter (λ p, p.1 = k) reads).

(** The number of sends on [decision]. *)
Definition puts (n : nat) (pc : decision_pc) : nat :=
  match pc with D_receive => 0%nat | D_each _ i | D_put _ i => i | D_again | D_twice _ => n end.

Definition puts_ok (n : nat) (v : list (list Z * decision_pc) * list (nat * Z)) : Prop :=
  length v.1 = n ∧ ∀ k q pc, v.1 !! k = Some (q, pc) →
    (length q ≤ 1)%nat ∧ (reads_of k v.2 + length q)%nat = puts n pc ∧ (puts n pc ≤ n)%nat ∧
    match pc with D_put _ i => (i < n)%nat | _ => True end.

Lemma put_view_put k w w' s :
  ms_instances s !! k = Some w → wm_decision w' = wm_decision w → wm_listen w' = wm_listen w →
  put_view (put_wmmr k w' s) = put_view s.
Proof.
  intros Hw Hd Hl. unfold put_view, put_wmmr. simpl. f_equal. rewrite list_fmap_insert, Hd, Hl.
  apply list_insert_id. by rewrite list_lookup_fmap, Hw.
Qed.

Lemma put_view_op op s s' : mmr_run_op op s = Some s' → put_view s' = put_view s.
Proof.
  unfold mmr_run_op. intros (w & Hw & Hr)%bind_Some. destruct (mmr_op_exec op (wm_m w)) as [[m err]| |]; [|done..].
  injection Hr as <-. by apply (put_view_put _ w (set_wm_m m w) s).
Qed.

Lemma puts_ok_change n s k w w' rd :
  puts_ok n (put_view s) → ms_instances s !! k = Some w →
  (∀ k', k' ≠ k → reads_of k' rd = reads_of k' (ms_read s)) →
  ((length (wm_decision w) ≤ 1)%nat → (reads_of k (ms_read s) + length (wm_decision w))%nat = puts n (wm_listen w) →
   (puts n (wm_listen w) ≤ n)%nat → (match wm_listen w with D_put _ i => (i < n)%nat | _ => True end) →
   (length (wm_decision w') ≤ 1)%nat ∧ (reads_of k rd + length (wm_decision w'))%nat = puts n (wm_listen w') ∧
   (puts n (wm_listen w') ≤ n)%nat ∧ match wm_listen w' with D_put _ i => (i < n)%nat | _ => True end) →
  puts_ok n ((λ w, (wm_decision w, wm_listen w)) <$> <[k := w']> (ms_instances s), rd).
Proof.
  intros [Hn Ho] Hw Hrd Hc. unfold put_view in *. simpl in *. split; [simpl; by rewrite length_fmap, length_insert, <-Hn, length_fmap|].
  intros k' q pc. simpl. rewrite list_lookup_fmap.
  intros (w1 & [(<- & <- & _) | [Hne Hk]]%list_lookup_insert_Some & Heq)%fmap_Some; simplify_eq.
  - destruct (Ho k (wm_decision w) (wm_listen w)) as (? & ? & ? & ?); [by rewrite list_lookup_fmap, Hw|]. by apply Hc.
  - rewrite Hrd by done. apply Ho. by rewrite list_lookup_fmap, Hk.
Qed.

Lemma puts_ok_step n e s s' :
  puts_ok n (put_view s) → mmr_sched_exec (H := mmrUnorderedScheduler) e s = Some s' → puts_ok n (put_view s').
Proof.
  intros Hok. pose proof (proj1 Hok) as Hn. unfold put_view in Hn. simpl in Hn. rewrite length_fmap in Hn.
  destruct e as [k e|k kind i|k i|k|i draws| |k est|k|op]; simpl.
  - intros (w & Hw & (o & _ & (m & _ & [= <-])%bind_Some)%bind_Some)%bind_Some. by rewrite (put_view_put k w).
  - unfold listenMsgs. intros (w & Hw & (x & _ & [= <-])%bind_Some)%bind_Some.
    rewrite <-(put_view_put k w (set_wm_m (set_deliver_bag kind (delete i (deliver_bag kind (wm_m w))) (wm_m w)) w) s) in Hok by done.
    exact Hok.
  - unfold listenCoinRequests. intros (w & Hw & (x & _ & [= <-])%bind_Some)%bind_Some.
    rewrite <-(put_view_put k w (set_wm_m (set_coinReq (delete i (coinReq (wm_m w))) (wm_m w)) w) s) in Hok by done.
    exact Hok.
  - unfold unordered_listenDecisions, receive_decision. intros (w & Hw & Hr)%bind_Some.
    destruct (wm_listen w) as [|d i|d i| |d] eqn:Hl; [| | | |done].
    + apply bind_Some in Hr as ([m d] & _ & [= <-]). apply (puts_ok_change n s k w); [done..|].
      simpl. rewrite Hl. simpl. intros. split_and!; lia || done.
    + case_decide; injection Hr as <-; (apply (puts_ok_change n s k w); [done..|]; simpl; rewrite Hl; simpl; intros; split_and!; lia || done).
    + destruct (wm_decision w) eqn:Hq; [|done]. injection Hr as <-. apply (puts_ok_change n s k w); [done..|].
      simpl. rewrite Hl, Hq. simpl. intros. split_and!; lia || done.
    + apply bind_Some in Hr as ([m d] & _ & [= <-]). apply (puts_ok_change n s k w); [done..|].
      simpl. rewrite Hl. simpl. intros. split_and!; lia || done.
  - unfold unordered_go_op. intros (op & _ & [= <-])%bind_Some. exact Hok.
  - unfold mmr_execOp. intros ([op ops] & _ & Hr)%bind_Some. rewrite (put_view_op op _ _ Hr). exact Hok.
  - intros (w & Hw & ([m err] & _ & [= <-])%bind_Some)%bind_Some. by rewrite (put_view_put k w).
  - unfold unordered_read. intros (w & Hw & Hr)%bind_Some. destruct (wm_decision w) as [|d q] eqn:Hq; [done|].
    injection Hr as <-. apply (puts_ok_change n s k w); [done|done| |].
    + intros k' Hne. simpl. unfold reads_of. rewrite filter_app, filter_cons_False by (simpl; congruence). by rewrite app_nil_r.
    + simpl. rewrite Hq. unfold reads_of. rewrite filter_app, filter_cons_True by done. rewrite length_app. simpl.
      intros. split_and!; lia || done.
  - intros Hr. by rewrite (put_view_op op s s' Hr).
Qed.

(** When the test reads [r] decisions of an instance, its goroutine has sent at
    most [r + 1]; with more instances it never waits for a second decision. *)
Lemma unordered_listener_stalls senders n f evs s k w :
  mmr_sched_run (H := mmrUnorderedScheduler) evs (mmr_instantiate senders n f) = Some s →
  ms_instances s !! k = Some w → (reads_of k (ms_read s) + 1 < length senders)%nat →
  match wm_listen w with
  | D_receive => True
  | D_each _ i | D_put _ i => (i ≤ reads_of k (ms_read s) + 1)%nat
  | D_again | D_twice _ => False
  end.
Proof.
  intros Hrun Hw Hr. assert (Hok : puts_ok (length senders) (put_view s)).
  { assert (Hs : puts_ok (length senders) (put_view (mmr_instantiate senders n f))).
    { rewrite mmr_instantiate_eq. split; [unfold put_view; simpl; by rewrite !length_fmap|].
      intros k' q pc. unfold put_view. simpl. rewrite <-list_fmap_compose, list_lookup_fmap.
      intros (x & _ & [= -> ->])%fmap_Some. simpl. split_and!; lia || done. }
    revert Hs Hrun. generalize (mmr_instantiate senders n f) as s0. induction evs as [|e evs IH]; intros s0 Hs; simpl.
    - by intros [= <-].
    - intros (s1 & H1 & Hev)%bind_Some. eapply IH; [|done]. by eapply puts_ok_step. }
  destruct Hok as [_ Ho]. destruct (Ho k (wm_decision w) (wm_listen w)) as (? & ? & _ & _).
  { unfold put_view. simpl. by rewrite list_lookup_fmap, Hw. }
  simpl in *. destruct (wm_listen w); simpl in *; lia || done.
Qed.

Module MmrSchedExample.
Import Example4.

Section drive.
Context `{Hsch : MmrScheduler}.

(** The events of a list that are possible, in its order. *)
Fixpoint possible (l : list mmr_sched_event) (s : mmr_scheduler) : list mmr_sched_event :=
  match l with
  | [] => []
  | e :: l => match mmr_sched_exec e s with Some s => e :: possible l s | None => possible l s end
  end.

Definition chans : list bca_chan := [CEcho; CVote; CBind; COut; CApprove; CBindBot; CBindVal; CTermBot; CTermVal].

Definition sweep (draws : list nat) : list mmr_sched_event :=
  (k ← seq 0 3;
     (g ← [GoVote; GoBind; GoDecide]; c ← chans; [M_inner k (I_go 0 g c)]) ++
     ((λ c, M_inner k (I_listen 0 (inl c))) <$> [CEcho; CVote; CBind]) ++
     [M_inner k (I_exec 0); M_inner k (I_listen 0 (inr tt)); M_inner k (I_reach true); M_inner k (I_reach false)] ++
     ((λ c, M_msg k c 0) <$> [KEcho; KVote; KBind]) ++ [M_coin k 0; M_decisions k; M_read k]) ++
  replicate 12 (M_go 1 draws) ++ replicate 12 (M_go 0 draws) ++ replicate 24 M_tick.

Definition sweeps : list mmr_sched_event := n ← seq 0 14; sweep [(5 * n) mod 7; 3; n mod 4]%nat.
End drive.

Definition test_senders : list UUID := [p1; p2; p3].
Definition test_start : mmr_scheduler := mmr_instantiate test_senders 4 1.

(** All propose 0; [p4] sends to the instances of [p1] and [p2]. *)
Definition test_calls : list mmr_sched_event :=
  [M_propose 0 0; M_propose 1 0; M_propose 2 0; M_call (OSubmit 0 KEcho 1 p4 0); M_call (OSubmit 1 KVote 1 p4 0);
   M_call (ODecision 0 1 p4)].

Definition test_events `{MmrScheduler} : list mmr_sched_event := possible (test_calls ++ sweeps) test_start.
Definition test_end `{MmrScheduler} : mmr_scheduler := default test_start (mmr_sched_run test_events test_start).
End MmrSchedExample.
Import Example4 MmrSchedExample.

Lemma test_nodup : NoDup test_senders.
Proof. apply (bool_decide_unpack _). vm_compute. exact Logic.I. Qed.

Lemma test_correct x : bca_correct mb4 x ↔ x ∈ test_senders.
Proof.
  unfold bca_correct, test_senders, mb4. simpl. split; [set_solver|]. intros Hx. split; [set_solver|].
  rewrite not_elem_of_singleton. intros ->. revert Hx. apply (bool_decide_unpack _). vm_compute. exact Logic.I.
Qed.

Lemma possible_ok `{MmrScheduler} P l s : Forall P l → Forall P (possible l s).
Proof.
  revert s. induction l as [|e l IH]; intros s Hl; [constructor|]. apply Forall_cons in Hl as [He Hl]. simpl.
  destruct (mmr_sched_exec e s); [constructor; [done|]|]; by apply IH.
Qed.

Lemma test_events_ok `{MmrScheduler} : Forall (mmr_sched_ok mb4 (λ _ v, v = 0) test_senders) test_events.
Proof.
  apply possible_ok. apply Forall_app. split.
  - assert (p4 ∈ faulty mb4) by (simpl; by apply elem_of_singleton).
    repeat (apply Forall_cons; split; [try (split; [unfold is_round; lia|done]); by intros|]). constructor.
  - apply Forall_forall. intros e (n & He & _)%list_elem_of_bind.
    assert (Hi : ∀ l : list mmr_sched_event, (∀ x, x ∈ l → match x with M_propose _ _ | M_call _ => False | _ => True end) → e ∈ l →
      mmr_sched_ok mb4 (λ _ v, v = 0) test_senders e) by (intros l Hl Hel; specialize (Hl e Hel); by destruct e).
    eapply Hi, He. clear. unfold sweep. intros x. rewrite !elem_of_app.
    intros [(k & Hx & _)%list_elem_of_bind | [[-> _]%elem_of_replicate | [[-> _]%elem_of_replicate | [-> _]%elem_of_replicate]]];
      [|done..].
    rewrite !elem_of_app in Hx. destruct Hx as [(g & (c & ->%list_elem_of_singleton & _)%list_elem_of_bind & _)%list_elem_of_bind
      | [(c & -> & _)%list_elem_of_fmap | [Hx | [(c & -> & _)%list_elem_of_fmap | Hx]]]]; try done;
      rewrite !elem_of_cons in Hx; by destruct_or? Hx; subst; try apply not_elem_of_nil in Hx.
Qed.

Definition test_ran `{MmrScheduler} (reads : list (nat * Z)) : bool :=
  match mmr_sched_run test_events test_start with
  | Some s => bool_decide (ms_read s = reads)
  | None => false
  end.

Lemma test_end_eq `{MmrScheduler} reads : test_ran reads = true →
  mmr_sched_run test_events test_start = Some test_end ∧ ms_read test_end = reads.
Proof.
  unfold test_ran, test_end. destruct (mmr_sched_run test_events test_start); [|done].
  intros Hr%bool_decide_eq_true_1. done.
Qed.

(** ** Theorems *)

(** C39: the harness of the tests of binary agreement is sound.  Whatever the
    scheduler (operations as their goroutines come, or shuffled), every run of
    it in which the test proposes values of [inputs], and calls the instances in
    the name of faulty processes only, is a run of the network of correct
    processes with the coin of the hash: each instance is in the state its
    process has there, and what the test reads are outputs of the processes. *)
Theorem mmr_scheduler_refines `{H : MmrScheduler} `{!MmrSchedulerLaws H} (mb : membership UUID) `{!Resilient mb}
    inputs senders evs s :
  NoDup senders → (∀ x, bca_correct mb x ↔ x ∈ senders) → Forall (mmr_sched_ok mb inputs senders) evs →
  mmr_sched_run evs (mmr_instantiate senders (mb_n mb) (mb_f mb)) = Some s →
  ∃ C, aba_reachable hash_coin mb inputs C ∧
    (∀ k w, ms_instances s !! k = Some w →
       senders !! k = Some (wm_sender w) ∧ ∃ b, ab_mmr (C (wm_sender w)) = with_bags b (wm_m w)) ∧
    ∀ k d, (k, d) ∈ ms_read s → ∃ x, senders !! k = Some x ∧ Outputs C x d.
Proof.
  intros Hnd Hc Hok Hrun.
  destruct (mmr_sched_run_rel mb inputs senders Hnd Hc evs _ s _ (mmr_rel_start mb inputs senders) Hok Hrun) as [C HC].
  exists C. split; [apply HC|]. split; [|apply HC]. intros k w Hw.
  destruct (mr_member _ _ _ _ _ HC k w Hw) as (? & Hrel & _). split; [done|]. apply (ir_mmr _ _ Hrel).
Qed.

Lemma mmr_scheduler_refines_witness :
  ms_read (test_end (H := mmrUnorderedScheduler)) = [(0%nat, 0); (1%nat, 0); (2%nat, 0); (0%nat, 0); (1%nat, 0); (2%nat, 0)] ∧
  ∃ C, aba_reachable hash_coin mb4 (λ _ v, v = 0) C ∧
    (∀ k w, ms_instances (test_end (H := mmrUnorderedScheduler)) !! k = Some w →
       test_senders !! k = Some (wm_sender w) ∧ ∃ b, ab_mmr (C (wm_sender w)) = with_bags b (wm_m w)) ∧
    ∀ k d, (k, d) ∈ ms_read (test_end (H := mmrUnorderedScheduler)) → ∃ x, test_senders !! k = Some x ∧ Outputs C x d.
Proof.
  destruct (test_end_eq (H := mmrUnorderedScheduler) [(0%nat, 0); (1%nat, 0); (2%nat, 0); (0%nat, 0); (1%nat, 0); (2%nat, 0)])
    as [Hrun Hread]; [vm_compute; reflexivity|].
  split; [exact Hread|].
  apply (mmr_scheduler_refines (H := mmrUnorderedScheduler) mb4 (λ _ v, v = 0) test_senders
           (test_events (H := mmrUnorderedScheduler))).
  - exact test_nodup.
  - exact test_correct.
  - exact (test_events_ok (H := mmrUnorderedScheduler)).
  - exact Hrun.
Defined.

(** What the tests assert.  The decisions the test reads, of whatever
    instances, are the same; and they are [v] when all instances are proposed [v]. *)
Theorem mmr_scheduler_agrees `{H : MmrScheduler} `{!MmrSchedulerLaws H} (mb : membership UUID) `{!Resilient mb}
    inputs senders evs s k k' d d' :
  NoDup senders → (∀ x, bca_correct mb x ↔ x ∈ senders) → Forall (mmr_sched_ok mb inputs senders) evs →
  mmr_sched_run evs (mmr_instantiate senders (mb_n mb) (mb_f mb)) = Some s →
  (k, d) ∈ ms_read s → (k', d') ∈ ms_read s →
  d = d' ∧ ∀ v, v = 0 ∨ v = 1 → (∀ x est, x ∈ senders → inputs x est → est = v) → d = v.
Proof.
  intros Hnd Hc Hok Hrun Hd Hd'.
  destruct (mmr_sched_run_rel mb inputs senders Hnd Hc evs _ s _ (mmr_rel_start mb inputs senders) Hok Hrun) as [C HC].
  destruct (mr_read _ _ _ _ _ HC k d Hd) as (x & Hx & Ho). destruct (mr_read _ _ _ _ _ HC k' d' Hd') as (y & Hy & Ho').
  assert (Hcx : bca_correct mb x) by (apply Hc; by eapply list_elem_of_lookup_2).
  assert (Hcy : bca_correct mb y) by (apply Hc; by eapply list_elem_of_lookup_2).
  pose proof (mr_reachable _ _ _ _ _ HC) as Hr. split; [by apply (agreement mb hash_coin inputs C x y)|].
  intros v Hv Hi. apply (validity mb hash_coin inputs C x d v); try done. intros i est Hi' He. apply (Hi i); [by apply Hc|done].
Qed.

Lemma mmr_scheduler_agrees_witness :
  (0%nat, 0) ∈ ms_read (test_end (H := mmrOrderedScheduler)) ∧ (2%nat, 0) ∈ ms_read (test_end (H := mmrOrderedScheduler)) ∧
  0 = 0 ∧ ∀ v, v = 0 ∨ v = 1 → (∀ x est, x ∈ test_senders → est = 0 → est = v) → 0 = v.
Proof.
  destruct (test_end_eq (H := mmrOrderedScheduler) [(0%nat, 0); (1%nat, 0); (2%nat, 0)]) as [Hrun Hread]; [vm_compute; reflexivity|].
  assert (H0 : (0%nat, 0) ∈ ms_read (test_end (H := mmrOrderedScheduler))) by (rewrite Hread; left).
  assert (H2 : (2%nat, 0) ∈ ms_read (test_end (H := mmrOrderedScheduler))) by (rewrite Hread; right; right; left).
  split; [exact H0|]. split; [exact H2|].
  exact (mmr_scheduler_agrees (H := mmrOrderedScheduler) mb4 (λ _ v, v = 0) test_senders
    (test_events (H := mmrOrderedScheduler)) _ 0 2 0 0 test_nodup test_correct
    (test_events_ok (H := mmrOrderedScheduler)) Hrun H0 H2).
Defined.
